(* ===== verification/_CoqProject ===== *)
-Q . S2P
Prelude.v
Text.v
Ini.v
ServiceConfig.v
Router.v
RateLimiter.v
Uptime.v
Supervisor.v
CircuitBreaker.v
Clock.v
SupervisorView.v
Picohttp.v
PicohttpSpec.v
HttpHead.v
HttpStatus.v
Http.v
HttpSafe.v
HttpInv.v
HttpSpec.v
HttpFrame.v
Log.v
Autocorrect.v
Control.v
Admin.v
Main.v
Loop.v
ProxyServer.v
ConnLimit.v
EchoServer.v
Gateway.v
Transport.v
Connectivity.v
Hardware.v
Doubles.v
Banner.v
Kernel.v
LogFiles.v
Sockets.v
Tls.v
ControlServer.v
Watch.v
Startup.v
Child.v
Process.v
