(* ===== verification/Prelude.v ===== *)
(** * castle+ : a verification development

    castle+ (src/README.md) is one Linux process that supervises application backends and
    serves them: an epoll reactor per core accepts TCP or TLS connections, an HTTP/1.1
    reverse proxy routes each request to a backend, a supervisor launches the backends and
    relaunches them when they die, and an admin socket reports and commands. This
    development models the program's own logic, file by file, and proves what makes it
    correct. Everything below is a shallow embedding of the C++ under src/src/.

    ** Parts, and the files that model them

    - [Prelude] (this file): byte strings, the error monad ([sum]) and the state monad [M],
      record update ([x <| field := v |>]), machine integers ([wrap_u], [wrap_s]), the rule
      [keeps] for invariants of stateful code. [Text]: the parts of [std::string] and the C
      library the code uses ([trim], [getline], [strtol], [std::to_string]).
    - Configuration. [Ini]: the line loop that [parse_services_file]
      (config/service_config.cpp) and [Router::load] (http/router.cpp) share in shape.
      [ServiceConfig]: the services manifest. [Router]: the routes file, and [match].
    - Gateway. [RateLimiter]: token buckets (gateway/rate_limiter.cpp), over an interface
      [Double] with an IEEE binary64 and an exact instance.
    - Supervision. [Supervisor]: the loop thread of supervisor/supervisor.cpp. Its state is
      [World]; the operations [on_sigchld], [on_tick], [do_restart], [begin_shutdown] are
      programs of the monad [M World]; [reachable] is closed under the events of the loop.
      [CircuitBreaker]: how often a service can die over a run of that loop. [Uptime],
      [SupervisorView]: durations and the two status pages.
    - The reactor. [Loop]: [EventLoop] (net/event_loop.cpp) over the interface
      [EventHandler], and the doorbell that other threads ring. [EchoServer]: [Listener],
      the connection cap and [EchoConnection], as handlers of that loop. [Gateway]: the
      workers that share the rate limiter, step by step, and one worker's limiter over a run
      of its loop. [Transport]: how
      the results of system calls and of OpenSSL become the [IoStatus] of [Http].
    - The proxy. [Picohttp]: the tokenizer of request heads, vendored under
      src/third_party/picohttpparser, in both forms it compiles to; [PicohttpSpec]: what it
      promises. [HttpHead]: from the bytes of a head to the request for the backend
      ([process_head] of http/http_connection.cpp). [HttpStatus]: the pages castle answers
      itself. [Http]: [HttpConnection] and [BackendConnection] as one machine [HWorld]: the
      two objects call each other, close each other and are destroyed at the end of a
      batch, and the model follows each call; a null or dangling pointer is a [fault].
      [HttpSafe]: the rule (a weakest precondition) by which its programs are proved, and
      what each operation preserves. [HttpInv]: the invariant of a connected pair.
      [HttpSpec]: the properties. [HttpFrame]: what a callback of the pair may ask of the
      loop. [ProxyServer]: a worker thread, that is the loop of [Loop] with the listener, the
      limiter, the cap, the idle timer and any number of pairs as its handlers, over
      descriptors that are reused. [ConnLimit]: the cap when several workers share it.
    - Administration. [Log]: the file logger, incremental pull and history of critical
      messages (util/log.h, util/log.hpp). [Autocorrect]: suggestions for mistyped commands
      (util/autocorrect.hpp). [Clock]: calendar and stopwatch (util/clock.hpp). [Control]:
      the sessions and commands of control/control_server.cpp, against the interface
      [SupervisorPort]. [Admin]: the supervisor as an instance of it, and both together.
      [Hardware], [Doubles], [Connectivity]: what [systemstatus] reports (util/hardware.hpp,
      net/connectivity.cpp), over integers, over binary64, and over rounds of probes.
    - The process. [Main]: the command line and the decisions of the start (main.cpp).
      [Banner]: the logo (util/printHelper.hpp). [Kernel]: system calls, and what the process
      holds: descriptors, threads, socket names, and whether a call was ever made on a closed
      descriptor. Over it [LogFiles] (the streams of the log), [Sockets] (net/socket.cpp), [Startup] (event loops, the supervisor's
      descriptors and every descriptor opened while castle serves), [ControlServer] and
      [Watch] (start, stop and the threads of the admin socket and of the internet watch),
      [Child] (the backend's side of [fork]) and [Process]: [main] from start to exit.
      [Tls]: tls/tls_context.cpp, where reload and connections meet.

    ** What the theorems show

    The proxy ([HttpSpec], [HttpHead], [HttpStatus]). The mutual recursion of the callbacks
    terminates on every input. What the client receives is a prefix of one backend's
    response, or of one response of castle, never a mixture; what the backend receives is a
    prefix of the rewritten head and of exactly the announced body, and a strict reader of
    that head finds one framing, castle's. End to end, from the raw bytes of the client to
    those of the backend, no request can be smuggled: the tokenizer reads inside its buffer,
    accepts only tokens without line ends, does not change its mind when more bytes come, and
    gives the same result in both compiled forms. All the buffers of a pair are bounded in
    every state. Between batches the two
    objects hold each other or nothing. No pointer is followed after its object is gone;
    the one null dereference the code has, after a failed write to the backend, is exhibited.

    A worker ([ProxyServer]). However many clients it serves at once, each connection is
    the result of a run of its own, so what is proved of one connection holds of every one,
    and the loop owns and watches the objects that live and no others; a client that is idle
    when the timer rings is gone at the end of the turn. The counters are exact; several
    workers pass the cap by at most one connection for each worker but one. A failed write of one backend can
    bring all of them down, which is exhibited.

    The supervisor. Its states are well-formed and its published table mirrors them; the
    reap of a child decides by the failures of the last 24 hours, and that window is exact;
    over any run of the loop a service dies at most six times in 24 hours of its own;
    quarantine holds until the operator acts, back-off delays double and are cut short only
    by an operator who restarts the service by name; a shutdown ends exactly when all children are dead.

    The reactor. No handler is called after its destruction, each is destroyed once; posted
    tasks run once, in order, and no wake-up is lost. On it the echo server loses, repeats
    and reorders nothing, and never exceeds the cap.

    The process. Whatever the kernel refuses, and whatever clients, backends and operators do
    in between, [main] returns with its threads joined, its descriptors closed once and its
    socket unlinked; what is left open is the log's read streams, with [--log-file], which the
    end of the process closes. [Socket] objects keep one owner per descriptor however they are moved. A
    listener is set up whole or not at all, and the error is that of the call that failed. A reload of the certificate races with new
    connections without a use after free or a leak. The admin thread and the internet watch
    end when they are told to, and no descriptor is closed under a thread that uses it; that
    the former waits for a client that does not read is exhibited.

    Administration. A session is the script of its lines, however they arrive; no input
    raises an exception; each command changes what it may change; the restarts the
    supervisor runs are those asked for. The log is shown exactly once; the load averages of
    the status page are, through [double] and back, what the kernel publishes; suggestions are
    optimal over the whole dictionary.

    Configuration and start. Printing and parsing are inverse for manifests and for the
    command line; what parses is well-formed; routing takes the most specific route; with a
    certificate castle speaks TLS or does not start. However many workers share the limiter,
    and in whatever order their clock readings reach it, they make no more connections for an
    address than twice burst plus rate times time, and what is earned twice by buckets whose
    reading a pruning of the full table overtook; this bound, and that of [RateLimiter], are
    of exact arithmetic.

    ** Environment

    System calls answer from scripts and oracles that the theorems quantify over: results
    of [read], [write], [accept4] and [epoll_ctl] ([env] in [Http], the lists of [Server] in
    [EchoServer]), clocks, [fork] and [waitpid] ([OS] in [Supervisor]), files as byte
    strings. The calls that open, use and close descriptors are those of [Kernel], answered by
    an instance of [Os] of which only the freshness of new descriptors is assumed. OpenSSL is
    the interface [OpenSSL] of [Tls], with the laws its manual states about reference counts,
    and the results of the transport ([IoStatus]) elsewhere. The time zone is a parameter of
    [Clock]. [Http] and its invariant are proved for any tokenizer whose head lies within its
    input, and [HttpSpec] takes that of [Picohttp]; [phr_parse_request] returns a length as
    an [int], which is the exact one for buffers under 2 GiB. A script is finite: a call past
    its end would block. Loops over system calls recurse on a fuel that is the length of these
    scripts plus that of the data, and the theorems show that it never runs out
    ([HttpSpec.proxy_completes]); line loops use the length of the input
    ([Control.serve_lines_fuel], [Main.parse_loop_fuel], [Log.reindex_spec]).

    Where threads share an object the model is a step relation with one step per action of a
    thread, its locks included: the doorbell of [Loop], the [shared_mutex] of [Tls], the
    condition variable of [Watch], the flag and eventfd of [ControlServer], the mutex of the
    rate limiter in [Gateway]. Elsewhere calls
    under a mutex are a sequence. In [Process] the workers' actions on descriptors interleave
    as whole callbacks.

    ** Not modelled

    OpenSSL and the kernel themselves; a thread that cannot be created, and memory that runs
    out, for which castle has no code. The parts of picohttpparser castle does not call
    ([phr_parse_response], chunked decoding). The usage text and the packaging scripts.
    The rounding of the [double]s in the bounds of the rate limiter. In [Process], the files
    a call opens and closes by itself, and what components log about their own failures. *)
From Stdlib Require Export Ascii String.
From stdpp Require Export prelude gmap strings list fin_maps.
From Stdlib Require Export Lia ZArith.

Declare Scope castle_scope.
Delimit Scope castle_scope with castle.
#[global] Open Scope castle_scope.

(** ** Byte strings

    A [std::string] is a sequence of [char]; all of castle treats it as bytes. *)
Abbreviation bytes := (list ascii).

(** A C string literal. *)
Definition lit (s : string) : bytes := list_ascii_of_string s.
#[global] Arguments lit : simpl never.

(** ** Results: [inl] carries the error, [inr] the value. *)
#[export] Instance sum_ret E : MRet (sum E) := fun _ x => inr x.
#[export] Instance sum_bind E : MBind (sum E) := fun _ _ f m =>
  match m with inl e => inl e | inr x => f x end.

(** ** State-passing computations

    Code that mutates objects and talks to the kernel is a function of the whole
    state it can reach. *)
Definition M (S A : Type) : Type := S -> A * S.

#[export] Instance M_ret S : MRet (M S) := fun _ x s => (x, s).
#[export] Instance M_bind S : MBind (M S) := fun _ _ f m s =>
  let '(x, s') := m s in f x s'.

(** [let! x := m in k]: run [m], name its result, go on with [k]. *)
Definition bind {S A B} (m : M S A) (k : A -> M S B) : M S B := m ≫= k.
Notation "'let!' x := m 'in' k" := (bind m (fun x => k))
  (at level 200, x name, m at level 100, k at level 200, right associativity,
   format "'[v' 'let!'  x  :=  m  'in' '/' k ']'") : castle_scope.

Definition get {S} : M S S := fun s => (s, s).
Definition put {S} (s : S) : M S unit := fun _ => (tt, s).
Definition gets {S A} (f : S -> A) : M S A := fun s => (f s, s).
Definition modify {S} (f : S -> S) : M S unit := fun s => (tt, f s).
Definition when {S} (b : bool) (m : M S unit) : M S unit :=
  if b then m else mret tt.

(** The final state of a computation. *)
Definition run_state {S A} (m : M S A) (s : S) : S := (m s).2.

Lemma run_state_bind {S A B} (m : M S A) (k : A -> M S B) (s : S) :
  run_state (m ≫= k) s = run_state (k (m s).1) (run_state m s).
Proof. unfold run_state, mbind, M_bind. by destruct (m s). Qed.

(** ** Record updates

    [r <| f := v |>] is [r] with field [f] set to [v], [r <| f ::= u |>] with
    [u] applied to it. A record type opts in with an instance of [Eta], its own
    fields put back together; the update is then a constructor application, so
    that projections of an updated record compute. *)
Class Eta (R : Type) := eta_expand : R -> R.
Class Setter {R E : Type} (getter : R -> E) := mk_setter { set_field : (E -> E) -> R -> R }.
#[global] Arguments set_field {R E} getter {_} _ _ /.

Ltac head_of t := lazymatch t with ?f _ => head_of f | _ => t end.
Ltac build_setter R E getter :=
  lazymatch constr:(@eta_expand R _) with
  | @eta_expand _ ?inst =>
      let h := head_of inst in
      exact (mk_setter R E getter (fun (u : E -> E) (r : R) => ltac:(
        let t := eval cbv beta delta [h] in (inst r) in
        lazymatch t with
        | context C [getter r] => let t' := context C [u (getter r)] in exact t'
        end)))
  end.
#[export] Hint Extern 1 (@Setter ?R ?E ?getter) =>
  build_setter R E getter : typeclass_instances.

Notation "r <| f := v |>" := (set_field f (fun _ => v) r)
  (at level 1, f constr at next level, v constr at level 200, left associativity,
   format "r  <| f  :=  v |>") : castle_scope.
Notation "r <| f ::= u |>" := (set_field f u r)
  (at level 1, f constr at next level, u constr at level 200, left associativity,
   format "r  <| f  ::=  u |>") : castle_scope.

(** ** Machine integers

    Signed and unsigned values of width [w], with the wrap-around written out. *)
Definition wrap_u (w z : Z) : Z := z mod 2 ^ w.
Definition wrap_s (w z : Z) : Z := (z + 2 ^ (w - 1)) mod 2 ^ w - 2 ^ (w - 1).

Definition in_u (w z : Z) : Prop := (0 <= z < 2 ^ w)%Z.
Definition in_s (w z : Z) : Prop := (- 2 ^ (w - 1) <= z < 2 ^ (w - 1))%Z.

Lemma wrap_s_range w z : (0 < w)%Z -> in_s w (wrap_s w z).
Proof.
  intros Hw. unfold in_s, wrap_s.
  pose proof (Z.mod_pos_bound (z + 2 ^ (w - 1)) (2 ^ w) ltac:(lia)).
  assert (2 ^ w = 2 * 2 ^ (w - 1))%Z by (rewrite <- Z.pow_succ_r by lia; f_equal; lia).
  lia.
Qed.

Lemma wrap_u_range w z : (0 <= w)%Z -> in_u w (wrap_u w z).
Proof. intros Hw. unfold in_u, wrap_u. apply Z.mod_pos_bound. lia. Qed.

Lemma wrap_s_id w z : (0 < w)%Z -> in_s w z -> wrap_s w z = z.
Proof.
  intros Hw Hz. unfold in_s, wrap_s in *.
  assert (2 ^ w = 2 * 2 ^ (w - 1))%Z by (rewrite <- Z.pow_succ_r by lia; f_equal; lia).
  rewrite Z.mod_small by lia. lia.
Qed.

Lemma wrap_u_id w z : in_u w z -> wrap_u w z = z.
Proof. apply Z.mod_small. Qed.
Lemma wrap_s_succ w z : wrap_s w (wrap_s w z + 1) = wrap_s w (z + 1).
Proof.
  unfold wrap_s. f_equal.
  replace ((z + 2 ^ (w - 1)) mod 2 ^ w - 2 ^ (w - 1) + 1 + 2 ^ (w - 1))%Z with ((z + 2 ^ (w - 1)) mod 2 ^ w + 1)%Z by lia.
  rewrite Zplus_mod_idemp_l. f_equal. lia.
Qed.

(** A counter of 64 bits goes up and down with what it counts. *)
Lemma wrap_succ n : wrap_u 64 (wrap_u 64 (Z.of_nat n) + 1) = wrap_u 64 (Z.of_nat (S n)).
Proof. unfold wrap_u. rewrite Zplus_mod_idemp_l. f_equal. lia. Qed.
Lemma wrap_pred n : wrap_u 64 (wrap_u 64 (Z.of_nat (S n)) - 1) = wrap_u 64 (Z.of_nat n).
Proof. unfold wrap_u. rewrite Zminus_mod_idemp_l. f_equal. lia. Qed.

(** ** Automation *)

(** The lemmas that settle the common side conditions. *)
Create HintDb castle.
#[export] Hint Resolve wrap_s_range wrap_u_range : castle.

(** Case on every scrutinee of the goal, discarding absurd branches. *)
Ltac crush_match :=
  repeat (case_match; simplify_eq/=; try done).

(** Turn the boolean comparisons of the context into propositions. *)
Ltac bool_to_prop :=
  repeat match goal with
  | H : _ && _ = true |- _ => apply andb_true_iff in H; destruct H
  | H : _ || _ = false |- _ => apply orb_false_iff in H; destruct H
  | H : negb _ = true |- _ => apply negb_true_iff in H
  | H : negb _ = false |- _ => apply negb_false_iff in H
  | H : (_ =? _)%Z = true |- _ => apply Z.eqb_eq in H
  | H : (_ =? _)%Z = false |- _ => apply Z.eqb_neq in H
  | H : (_ <? _)%Z = true |- _ => apply Z.ltb_lt in H
  | H : (_ <? _)%Z = false |- _ => apply Z.ltb_ge in H
  | H : (_ <=? _)%Z = true |- _ => apply Z.leb_le in H
  | H : (_ <=? _)%Z = false |- _ => apply Z.leb_gt in H
  | H : (_ =? _)%nat = true |- _ => apply Nat.eqb_eq in H
  | H : (_ =? _)%nat = false |- _ => apply Nat.eqb_neq in H
  | H : (_ <? _)%nat = true |- _ => apply Nat.ltb_lt in H
  | H : (_ <? _)%nat = false |- _ => apply Nat.ltb_ge in H
  | H : (_ <=? _)%nat = true |- _ => apply Nat.leb_le in H
  | H : (_ <=? _)%nat = false |- _ => apply Nat.leb_gt in H
  | H : bool_decide _ = true |- _ => apply bool_decide_eq_true_1 in H
  | H : bool_decide _ = false |- _ => apply bool_decide_eq_false_1 in H
  end.

(** ** Invariants of computations *)

(** Running [m] keeps [P]. *)
Definition keeps {S A} (P : S -> Prop) (m : M S A) : Prop := forall s, P s -> P (m s).2.

Section Keeps.
Context {S : Type} (P : S -> Prop).

Lemma keeps_ret {A} (x : A) : keeps P (mret x).
Proof. by intros s. Qed.

Lemma keeps_bind {A B} (m : M S A) (k : A -> M S B) :
  keeps P m -> (forall x, keeps P (k x)) -> keeps P (m ≫= k).
Proof.
  intros Hm Hk s Hs. unfold mbind, M_bind. specialize (Hm s Hs).
  destruct (m s) as [x s']. by apply Hk.
Qed.

Lemma keeps_let {A B} (m : M S A) (k : A -> M S B) :
  keeps P m -> (forall x, keeps P (k x)) -> keeps P (bind m k).
Proof. apply keeps_bind. Qed.

Lemma keeps_gets {A} (f : S -> A) : keeps P (gets f).
Proof. by intros s. Qed.

Lemma keeps_modify (f : S -> S) : (forall s, P s -> P (f s)) -> keeps P (modify f).
Proof. intros Hf s Hs. by apply Hf. Qed.

Lemma keeps_when b (m : M S unit) : (b = true -> keeps P m) -> keeps P (when b m).
Proof. destruct b; [auto|]. intros _. apply keeps_ret. Qed.

Lemma keeps_run {A} (m : M S A) s : keeps P m -> P s -> P (run_state m s).
Proof. intros Hm. apply Hm. Qed.
End Keeps.
#[export] Hint Resolve keeps_ret keeps_gets : castle.

(** A loop over a list, in order. *)
Fixpoint for_each {S A} (l : list A) (body : A -> M S unit) : M S unit :=
  match l with
  | [] => mret tt
  | x :: l' => body x ;; for_each l' body
  end.

Lemma keeps_for_each {S A} (P : S -> Prop) (l : list A) (body : A -> M S unit) :
  (forall x, x ∈ l -> keeps P (body x)) -> keeps P (for_each l body).
Proof.
  induction l as [|x l IH]; intros Hb; [apply keeps_ret|].
  apply keeps_bind; [apply Hb; by left|]. intros []. apply IH. intros y Hy. apply Hb. by right.
Qed.
