(* ===== verification/Text.v ===== *)
(** * Text: the parts of [std::string] and the C library the parsers rely on

    [std::string] is [bytes]; [npos] is [None]. [trim] is the helper that
    src/src/config/service_config.cpp and src/src/http/router.cpp each define. *)
From S2P Require Import Prelude.

(** ** Characters *)

Definition code (c : ascii) : Z := Z.of_N (N_of_ascii c).
Definition chr (z : Z) : ascii := ascii_of_N (Z.to_N z).

Definition ch_tab : ascii := "009"%char.
Definition ch_nl : ascii := "010"%char.
Definition ch_cr : ascii := "013"%char.
Definition ch_sp : ascii := " "%char.
Definition ch_quote : ascii := "034"%char.
Definition ch_nul : ascii := "000"%char.

(** [std::isspace] and [std::tolower] in the "C" locale. *)
Definition isspace (c : ascii) : bool :=
  (code c =? 32)%Z || ((9 <=? code c)%Z && (code c <=? 13)%Z).
Definition isdigit (c : ascii) : bool := (48 <=? code c)%Z && (code c <=? 57)%Z.
Definition isupper (c : ascii) : bool := (65 <=? code c)%Z && (code c <=? 90)%Z.
Definition tolower (c : ascii) : ascii :=
  if isupper c then chr (code c + 32) else c.

(** The whitespace set of [find_first_not_of] in the two [trim] functions. *)
Definition blank (c : ascii) : bool := bool_decide (c ∈ [ch_sp; ch_tab; ch_cr; ch_nl]).

(** Facts about every character, by trying them all. *)
Lemma every_char (p : ascii -> bool) :
  forallb p (ascii_of_nat <$> seq 0 256) = true -> forall c, p c = true.
Proof.
  rewrite forallb_forall. intros H c. apply H, list_elem_of_In, list_elem_of_fmap.
  exists (nat_of_ascii c). rewrite ascii_nat_embedding. split; [done|].
  apply elem_of_seq. pose proof (nat_ascii_bounded c). lia.
Qed.

(** ** Searching and slicing *)

Definition find_if (p : ascii -> bool) (s : bytes) : option nat :=
  fst <$> list_find (fun c => p c = true) s.
Definition find_last_if (p : ascii -> bool) (s : bytes) : option nat :=
  (fun i => length s - 1 - i) <$> find_if p (reverse s).

(** [s.find(c)], [s.rfind(c)]. *)
Definition find_char (c : ascii) (s : bytes) : option nat :=
  find_if (fun x => bool_decide (x = c)) s.
Definition rfind_char (c : ascii) (s : bytes) : option nat :=
  find_last_if (fun x => bool_decide (x = c)) s.

(** [s.substr(pos, n)] and [s.substr(pos)], for [pos <= s.size()]. *)
Definition substr (s : bytes) (pos n : nat) : bytes := take n (drop pos s).
Definition substr_from (s : bytes) (pos : nat) : bytes := drop pos s.

Definition trim (str : bytes) : bytes :=
  match find_if (fun c => negb (blank c)) str with
  | None => []
  | Some b =>
      match find_last_if (fun c => negb (blank c)) str with
      | None => []
      | Some e => substr str b (e - b + 1)
      end
  end.

(** ** Lines: the sequence [while (std::getline(f, line))] sees *)

Fixpoint getlines_aux (s cur : bytes) : list bytes :=
  match s with
  | [] => match cur with [] => [] | _ => [reverse cur] end
  | c :: s' =>
      if decide (c = ch_nl) then reverse cur :: getlines_aux s' []
      else getlines_aux s' (c :: cur)
  end.
Definition getlines (s : bytes) : list bytes := getlines_aux s [].
Arguments getlines : simpl never.

(** ** Numbers *)

Definition LONG_MAX : Z := 2 ^ 63 - 1.
Definition LONG_MIN : Z := - 2 ^ 63.

(** [s.c_str()] as the C library reads it: up to the first NUL. *)
Fixpoint c_str (s : bytes) : bytes :=
  match s with
  | [] => []
  | c :: s' => if decide (c = ch_nul) then [] else c :: c_str s'
  end.

Fixpoint skip_space (s : bytes) : bytes :=
  match s with
  | c :: s' => if isspace c then skip_space s' else s
  | [] => []
  end.

Fixpoint scan_digits (acc : Z) (s : bytes) : Z :=
  match s with
  | c :: s' => if isdigit c then scan_digits (acc * 10 + (code c - 48)) s' else acc
  | [] => acc
  end.

(** [std::strtol(s, nullptr, 10)] on a 64-bit [long]: optional white space and
    sign, the longest run of digits, saturation on overflow, 0 without digits. *)
Definition strtol (s : bytes) : Z :=
  let v := match skip_space s with
           | "-"%char :: s' => (- scan_digits 0 s')%Z
           | "+"%char :: s' => scan_digits 0 s'
           | s' => scan_digits 0 s'
           end in
  (LONG_MIN `max` (v `min` LONG_MAX))%Z.

Definition digit (n : N) : ascii := ascii_of_N (48 + n).

Fixpoint print_N_aux (fuel : nat) (n : N) (acc : bytes) : bytes :=
  match fuel with
  | O => acc
  | S f =>
      let acc' := digit (n mod 10) :: acc in
      if decide (n / 10 = 0)%N then acc' else print_N_aux f (n / 10) acc'
  end.
(** Enough steps: a number has at most as many decimal digits as binary ones. *)
Definition print_N (n : N) : bytes := print_N_aux (S (N.to_nat (N.log2 n))) n [].

(** [std::to_string]. *)
Definition to_string (z : Z) : bytes :=
  if (z <? 0)%Z then "-"%char :: print_N (Z.to_N (- z)) else print_N (Z.to_N z).

Example trim_ex : trim (lit "   a b  ") = lit "a b". Proof. reflexivity. Qed.
Example to_string_ex : to_string 9001 = lit "9001". Proof. reflexivity. Qed.
Example strtol_ex : strtol (lit " -42x") = (-42)%Z. Proof. reflexivity. Qed.
Example getlines_ex : getlines (lit "ab" ++ [ch_nl; ch_nl] ++ lit "c") = [lit "ab"; []; lit "c"].
Proof. reflexivity. Qed.

(** ** Facts about searching *)

Lemma drop_past (k : bytes) c v : drop (length k + 1) (k ++ c :: v) = v.
Proof. induction k; [done|]. exact IHk. Qed.

Lemma find_if_Some p s i :
  find_if p s = Some i <->
  exists c, s !! i = Some c /\ p c = true /\
            forall j d, s !! j = Some d -> j < i -> p d = false.
Proof.
  unfold find_if. rewrite fmap_Some. split.
  - intros ([k c] & (Hk & Hp & Hmin)%list_find_Some & ->). simpl. exists c.
    repeat split; [done|done|]. intros j d Hj Hlt.
    destruct (p d) eqn:E; [|done]. by destruct (Hmin j d Hj Hlt).
  - intros (c & Hi & Hp & Hmin). exists (i, c). split; [|done].
    apply list_find_Some. repeat split; [done|done|]. intros j d Hj Hlt.
    by rewrite (Hmin j d).
Qed.

Lemma find_if_None p s :
  find_if p s = None <-> Forall (fun c => p c = false) s.
Proof.
  unfold find_if. rewrite fmap_None, list_find_None. apply Forall_iff.
  intros c. by destruct (p c).
Qed.

Lemma reverse_lookup_sub (s : bytes) i c :
  s !! i = Some c -> reverse s !! (length s - 1 - i) = Some c.
Proof.
  intros H. pose proof (lookup_lt_Some _ _ _ H).
  rewrite reverse_lookup by lia. rewrite <- H. f_equal. lia.
Qed.

Lemma find_last_if_Some p s i :
  find_last_if p s = Some i <->
  exists c, s !! i = Some c /\ p c = true /\
            forall j d, s !! j = Some d -> i < j -> p d = false.
Proof.
  unfold find_last_if. rewrite fmap_Some. split.
  - intros (k & (c & Hk & Hp & Hmin)%find_if_Some & ->).
    pose proof (lookup_lt_Some _ _ _ Hk) as Hlt. rewrite length_reverse in Hlt.
    rewrite reverse_lookup in Hk by done. exists c. split; [|split; [done|]].
    + rewrite <- Hk. f_equal. lia.
    + intros j d Hj Hij. apply (Hmin (length s - 1 - j)).
      * by apply reverse_lookup_sub.
      * pose proof (lookup_lt_Some _ _ _ Hj). lia.
  - intros (c & Hi & Hp & Hmin). pose proof (lookup_lt_Some _ _ _ Hi).
    exists (length s - 1 - i). split; [|lia]. apply find_if_Some. exists c.
    split; [by apply reverse_lookup_sub|]. split; [done|]. intros j d Hj Hji.
    pose proof (lookup_lt_Some _ _ _ Hj) as Hlt. rewrite length_reverse in Hlt.
    rewrite reverse_lookup in Hj by done. apply (Hmin _ _ Hj). lia.
Qed.

Lemma find_last_if_None p s :
  find_last_if p s = None <-> Forall (fun c => p c = false) s.
Proof.
  unfold find_last_if. rewrite fmap_None, find_if_None, !Forall_forall.
  by setoid_rewrite elem_of_reverse.
Qed.

Lemma find_char_app c s t :
  c ∉ s -> find_char c (s ++ c :: t) = Some (length s).
Proof.
  intros Hc. apply find_if_Some. exists c. split; [|split].
  - by rewrite list_lookup_middle.
  - by apply bool_decide_eq_true.
  - intros j d Hj Hlt. apply bool_decide_eq_false. intros ->.
    apply Hc. rewrite lookup_app_l in Hj by done. by eapply list_elem_of_lookup_2.
Qed.

Lemma rfind_char_app c s t :
  c ∉ t -> rfind_char c (s ++ c :: t) = Some (length s).
Proof.
  intros Hc. apply find_last_if_Some. exists c. split; [|split].
  - by rewrite list_lookup_middle.
  - by apply bool_decide_eq_true.
  - intros j d Hj Hlt. apply bool_decide_eq_false. intros ->.
    apply Hc. rewrite lookup_app_r in Hj by lia.
    destruct (j - length s) as [|k] eqn:E; [lia|].
    by eapply list_elem_of_lookup_2.
Qed.

Lemma find_char_None c s : find_char c s = None <-> c ∉ s.
Proof.
  unfold find_char. rewrite find_if_None, Forall_forall. split.
  - intros H Hin. by specialize (H c Hin); rewrite bool_decide_eq_false in H.
  - intros H x Hx. apply bool_decide_eq_false. by intros ->.
Qed.

(** ** [trim] *)

(** No white space at either end. *)
Definition trimmed (t : bytes) : Prop :=
  (forall c, head t = Some c -> blank c = false) /\
  (forall c, last t = Some c -> blank c = false).

Definition blanks (s : bytes) : Prop := Forall (fun c => blank c = true) s.

Lemma trim_unique a m b :
  blanks a -> blanks b -> trimmed m -> trim (a ++ m ++ b) = m.
Proof.
  unfold blanks. rewrite !Forall_lookup. intros Ha Hb [Hh Hl]. unfold trim.
  assert (forall i c, (a ++ m ++ b) !! i = Some c -> i < length a -> blank c = true) as Ha'.
  { intros i c Hi Hlt. rewrite lookup_app_l in Hi by done. eauto. }
  assert (forall i c, (a ++ m ++ b) !! i = Some c -> length a + length m <= i -> blank c = true) as Hb'.
  { intros i c Hi Hge. rewrite !lookup_app_r in Hi by lia. eauto. }
  destruct m as [|c0 m'] eqn:Em.
  - assert (find_if (fun c => negb (blank c)) (a ++ [] ++ b) = None) as ->; [|done].
    apply find_if_None, Forall_lookup. intros i c Hi. apply negb_false_iff.
    destruct (decide (i < length a)); [by eapply Ha'|]. eapply Hb'; [done|simpl; lia].
  - rewrite <- Em in *. assert (length m = S (length m')) as Hlen by (by rewrite Em).
    assert (find_if (fun c => negb (blank c)) (a ++ m ++ b) = Some (length a)) as ->.
    { apply find_if_Some. exists c0. rewrite lookup_app_r, Nat.sub_diag by lia.
      split; [by rewrite Em|]. split; [by rewrite Hh by (by rewrite Em)|].
      intros j d Hj Hlt. by rewrite (Ha' j d). }
    destruct (last m) as [cl|] eqn:El; [|apply last_None in El; congruence].
    assert (find_last_if (fun c => negb (blank c)) (a ++ m ++ b)
            = Some (length a + length m - 1)) as ->.
    { apply find_last_if_Some. exists cl. rewrite lookup_app_r by lia.
      rewrite lookup_app_l by lia. split; [|split; [by rewrite (Hl cl)|]].
      - rewrite <- El, last_lookup. f_equal. lia.
      - intros j d Hj Hlt. rewrite (Hb' j d); [done|done|lia]. }
    unfold substr. rewrite drop_app_length.
    replace (length a + length m - 1 - length a + 1) with (length m) by lia.
    apply take_app_length.
Qed.

Lemma trim_id m : trimmed m -> trim m = m.
Proof.
  intros Hm. rewrite <- (app_nil_r m) at 1. rewrite <- (app_nil_l (m ++ [])).
  by apply trim_unique; [constructor|constructor|].
Qed.

(** Every string is blanks, its [trim], blanks. *)
Lemma trim_spec s :
  exists a b, s = a ++ trim s ++ b /\ blanks a /\ blanks b /\ trimmed (trim s).
Proof.
  unfold trim. destruct (find_if _ s) as [i|] eqn:Ei.
  2:{ exists s, []. rewrite app_nil_r. split; [done|]. split; [|split; [constructor|by split]].
      apply find_if_None in Ei. eapply Forall_impl; [exact Ei|].
      intros c Hc. by apply negb_false_iff in Hc. }
  apply find_if_Some in Ei as (ci & Hi & Hci & Hbefore).
  destruct (find_last_if _ s) as [e|] eqn:Ee.
  2:{ apply find_last_if_None in Ee. rewrite Forall_lookup in Ee.
      by rewrite (Ee i ci) in Hci. }
  apply find_last_if_Some in Ee as (ce & He & Hce & Hafter).
  assert (i <= e). { destruct (decide (i <= e)); [done|].
    rewrite (Hafter i ci) in Hci; [done|done|lia]. }
  pose proof (lookup_lt_Some _ _ _ He).
  exists (take i s), (drop (e + 1) s). unfold substr.
  assert (drop i s = take (e - i + 1) (drop i s) ++ drop (e + 1) s) as Hd.
  { rewrite <- (take_drop (e - i + 1) (drop i s)) at 1. rewrite drop_drop. do 2 f_equal. lia. }
  split; [by rewrite <- Hd, take_drop|]. split; [|split; [|split]].
  - apply Forall_lookup. intros j d [Hj Hlt]%lookup_take_Some.
    by apply negb_false_iff, (Hbefore j).
  - apply Forall_lookup. intros j d Hj. rewrite lookup_drop in Hj.
    apply negb_false_iff, (Hafter _ _ Hj). lia.
  - intros c Hc. rewrite head_lookup, lookup_take_lt, lookup_drop, Nat.add_0_r in Hc by lia.
    simplify_eq. by apply negb_true_iff.
  - intros c Hc. rewrite last_lookup, length_take, length_drop in Hc.
    rewrite lookup_take_lt, lookup_drop in Hc by lia.
    replace (i + _) with e in Hc by lia. simplify_eq. by apply negb_true_iff.
Qed.

Lemma trim_trimmed s : trimmed (trim s).
Proof. by destruct (trim_spec s) as (a & b & _ & _ & _ & H). Qed.

Lemma trim_idemp s : trim (trim s) = trim s.
Proof. apply trim_id, trim_trimmed. Qed.

Lemma trim_subseteq s c : c ∈ trim s -> c ∈ s.
Proof.
  destruct (trim_spec s) as (a & b & Hs & _). intros Hc. rewrite Hs.
  rewrite !elem_of_app. auto.
Qed.

(** ** [getline] *)

Lemma getlines_aux_app l cur rest :
  ch_nl ∉ l ->
  getlines_aux (l ++ ch_nl :: rest) cur = (reverse cur ++ l) :: getlines rest.
Proof.
  revert cur. induction l as [|c l IH]; intros cur Hnl; cbn.
  - by rewrite app_nil_r.
  - apply not_elem_of_cons in Hnl as [Hc Hl]. rewrite decide_False by congruence.
    rewrite IH by done. by rewrite reverse_cons, <- app_assoc.
Qed.

Lemma getlines_cons l rest :
  ch_nl ∉ l -> getlines (l ++ ch_nl :: rest) = l :: getlines rest.
Proof. intros H. unfold getlines. by rewrite getlines_aux_app. Qed.

Lemma getlines_concat ls rest :
  Forall (fun l => ch_nl ∉ l) ls ->
  getlines (concat ((fun l => l ++ [ch_nl]) <$> ls) ++ rest) = ls ++ getlines rest.
Proof.
  induction 1 as [|l ls Hl _ IH]; [done|].
  rewrite fmap_cons. cbn [concat]. rewrite <- !app_assoc. cbn [app].
  by rewrite getlines_cons, IH.
Qed.

(** ** Numbers *)

Lemma digit_ind (P : N -> Prop) :
  P 0%N -> P 1%N -> P 2%N -> P 3%N -> P 4%N -> P 5%N -> P 6%N -> P 7%N -> P 8%N -> P 9%N ->
  forall n, (n < 10)%N -> P n.
Proof.
  intros. destruct n as [|p]; [done|]. do 4 (destruct p as [p|p|]; try done; try lia).
Qed.

(** What a printed digit is: a digit, and none of the parsers' delimiters. *)
Record plain_digit (c : ascii) : Prop := {
  plain_isdigit : isdigit c = true;
  plain_isspace : isspace c = false;
  plain_blank : blank c = false;
  plain_delims : c ∉ ["-"%char; "+"%char; ":"%char; ch_nul; ch_nl; ch_quote]
}.

Lemma digit_plain n : (n < 10)%N -> plain_digit (digit n).
Proof.
  revert n. apply digit_ind; (split; [by vm_compute..|]);
    rewrite !not_elem_of_cons; (repeat split; try discriminate); apply not_elem_of_nil.
Qed.

Lemma digit_code n : (n < 10)%N -> code (digit n) = (48 + Z.of_N n)%Z.
Proof. revert n. by apply digit_ind. Qed.

Lemma print_N_aux_plain f n acc :
  Forall plain_digit acc -> Forall plain_digit (print_N_aux f n acc).
Proof.
  revert n acc. induction f as [|f IH]; intros n acc Hacc; cbn -[N.div N.modulo]; [done|].
  assert (Forall plain_digit (digit (n mod 10) :: acc)).
  { constructor; [|done]. apply digit_plain. by apply N.mod_upper_bound. }
  case_decide; [done|]. by apply IH.
Qed.

Lemma print_N_plain n : Forall plain_digit (print_N n).
Proof. by apply print_N_aux_plain. Qed.

Lemma print_N_aux_suffix f n acc : exists l, print_N_aux f n acc = l ++ acc.
Proof.
  revert n acc. induction f as [|f IH]; intros n acc; cbn -[N.div N.modulo].
  - by exists [].
  - case_decide; [by eexists [_]|].
    destruct (IH (n / 10)%N (digit (n mod 10) :: acc)) as [l ->].
    exists (l ++ [digit (n mod 10)]). by rewrite <- app_assoc.
Qed.

Lemma print_N_nonempty n : print_N n <> [].
Proof.
  unfold print_N. cbn -[N.div N.modulo N.log2]. case_decide; [done|].
  destruct (print_N_aux_suffix (N.to_nat (N.log2 n)) (n / 10)%N [digit (n mod 10)]) as [l ->].
  by destruct l.
Qed.

Lemma scan_print_N_aux f n acc :
  (n < 2 ^ N.of_nat f)%N -> f <> O ->
  scan_digits 0 (print_N_aux f n acc) = scan_digits (Z.of_N n) acc.
Proof.
  revert n acc. induction f as [|f IH]; intros n acc Hn Hf; [done|].
  cbn -[N.div N.modulo].
  assert (n mod 10 < 10)%N as Hm by (by apply N.mod_upper_bound).
  pose proof (N.div_mod' n 10) as Hdm.
  assert (forall a, scan_digits a (digit (n mod 10) :: acc)
          = scan_digits (a * 10 + Z.of_N (n mod 10)) acc) as Hscan.
  { intros a. cbn -[N.modulo]. destruct (digit_plain _ Hm) as [-> _ _ _].
    rewrite digit_code by done. f_equal. lia. }
  case_decide as H0.
  - rewrite Hscan. f_equal. lia.
  - destruct (decide (f = O)) as [->|Hf'].
    { exfalso. apply H0. apply N.div_small. cbn in Hn. lia. }
    rewrite IH; [rewrite Hscan; f_equal; lia| |done].
    rewrite Nat2N.inj_succ, N.pow_succ_r' in Hn. apply N.Div0.div_lt_upper_bound. lia.
Qed.

Lemma scan_print_N n : scan_digits 0 (print_N n) = Z.of_N n.
Proof.
  unfold print_N. rewrite scan_print_N_aux; [done| |done].
  rewrite Nat2N.inj_succ, N2Nat.id.
  destruct (decide (n = 0)%N) as [->|]; [done|]. apply N.log2_spec. lia.
Qed.

(** The bytes of a printed number. *)
Lemma to_string_bytes z c :
  c ∈ to_string z -> c = "-"%char \/ plain_digit c.
Proof.
  pose proof print_N_plain as Hp. setoid_rewrite Forall_forall in Hp.
  unfold to_string. case_match; rewrite ?elem_of_cons; naive_solver.
Qed.

Lemma c_str_id s : ch_nul ∉ s -> c_str s = s.
Proof.
  induction s as [|c s IH]; simpl; [done|]. rewrite not_elem_of_cons. intros [? ?].
  rewrite decide_False by done. by rewrite IH.
Qed.

Lemma to_string_no_delim z c :
  c ∈ [":"%char; ch_nul; ch_nl; ch_quote] -> c ∉ to_string z.
Proof.
  intros Hc [->|[_ _ _ Hd]]%to_string_bytes; revert Hc; [|set_solver].
  rewrite !elem_of_cons, elem_of_nil. by intros [|[|[|[|]]]].
Qed.

Lemma to_string_trimmed z : trimmed (to_string z).
Proof.
  assert (forall c, c ∈ to_string z -> blank c = false) as H.
  { by intros c [->|[_ _ Hb _]]%to_string_bytes. }
  split; intros c Hc; apply H.
  - rewrite head_lookup in Hc. by eapply list_elem_of_lookup_2.
  - rewrite last_lookup in Hc. by eapply list_elem_of_lookup_2.
Qed.

(** [strtol] reads back what [std::to_string] prints. *)
Lemma strtol_to_string z : in_s 64 z -> strtol (to_string z) = z.
Proof.
  unfold in_s. intros Hz. unfold to_string, strtol, LONG_MIN, LONG_MAX.
  destruct (Z.ltb_spec z 0).
  - simpl skip_space. cbv iota. rewrite scan_print_N. lia.
  - pose proof (print_N_nonempty (Z.to_N z)) as Hne.
    pose proof (print_N_plain (Z.to_N z)) as Hp.
    pose proof (scan_print_N (Z.to_N z)) as Hs.
    destruct (print_N (Z.to_N z)) as [|c s]; [done|].
    apply Forall_cons in Hp as [[Hd Hsp _ Hdl] _].
    rewrite !not_elem_of_cons in Hdl. destruct Hdl as (? & ? & _).
    cbn [skip_space]. rewrite Hsp.
    assert (scan_digits 0 (c :: s) = z) as Hz' by (rewrite Hs; lia).
    repeat case_match; simplify_eq; try done; lia.
Qed.

(** ** How long a text is *)

Lemma length_lit s : length (lit s) = String.length s.
Proof. unfold lit. induction s as [|c s IH]; cbn; [done|]. by rewrite IH. Qed.


Lemma print_N_aux_length f n acc k :
  (n < 10 ^ N.of_nat (S k))%N -> (length (print_N_aux f n acc) <= S k + length acc)%nat.
Proof.
  revert n acc k. induction f as [|f IH]; intros n acc k Hn; cbn -[N.div N.modulo]; [lia|].
  case_decide as Hd; [cbn; lia|]. destruct k as [|k].
  - destruct Hd. change (n < 10)%N in Hn. by apply N.div_small.
  - etrans; [apply (IH _ _ k)|cbn; lia]. apply N.Div0.div_lt_upper_bound.
    rewrite (Nat2N.inj_succ (S k)), N.pow_succ_r' in Hn. done.
Qed.

Lemma to_string_length z k : (0 <= z < 10 ^ Z.of_nat (S k))%Z -> (length (to_string z) <= S k)%nat.
Proof.
  intros Hz. unfold to_string. destruct (Z.ltb_spec z 0); [lia|].
  unfold print_N. etrans; [apply (print_N_aux_length _ _ _ k)|cbn; lia].
  apply N2Z.inj_lt. rewrite N2Z.inj_pow, nat_N_Z. lia.
Qed.
