(* ===== verification/Ini.v ===== *)
(** * Ini: the line loop the two configuration parsers share

    [parse_services_file] (src/src/config/service_config.cpp) and [Router::load]
    (src/src/http/router.cpp) contain the same loop: number the lines, trim, skip
    comments, open a section on [[name]], otherwise split at the first ['='] and
    assign a key of the section [cur] points to. The loop is written once here,
    over the parser's item type; each parser supplies [new_item] and [set_key]. *)
From S2P Require Import Prelude Text.

(** What a parser's keys promise: [set_key k v i] either assigns or says why not. *)
Class IniItem (item : Type) := {
  new_item : bytes -> item;
  set_key : bytes -> bytes -> item -> bytes + item
}.

Record ini_state (item : Type) := mk_ini {
  lineno : Z;               (* int lineno *)
  result : list item;       (* std::vector<item> result *)
  cur : option nat          (* item* cur: nullptr, or an element of result *)
}.
Arguments mk_ini {item} _ _ _.
Arguments lineno {item} _.
Arguments result {item} _.
Arguments cur {item} _.

#[export] Instance eta_ini_state item : Eta (ini_state item) :=
  fun s => mk_ini (lineno s) (result s) (cur s).

Section Ini.
Context {item : Type} `{IniItem item}.
Implicit Types (st : ini_state item).

Definition ini_init : ini_state item := mk_ini 0 [] None.

(** The [fail] lambda: [err] becomes "path:lineno: msg". *)
Definition fail (path : bytes) st (msg : bytes) : bytes + ini_state item :=
  inl (path ++ lit ":" ++ to_string (lineno st) ++ lit ": " ++ msg).

Definition open_section (path : bytes) st (t : bytes) : bytes + ini_state item :=
  if decide (last t = Some "]"%char) then
    let name := trim (substr t 1 (length t - 2)) in
    if decide (name = []) then fail path st (lit "empty section name")
    else inr (st <| result := result st ++ [new_item name] |>
                 <| cur := Some (length (result st)) |>)
  else fail path st (lit "malformed section header").

Definition assign (path : bytes) st (t : bytes) : bytes + ini_state item :=
  match find_char "="%char t with
  | None => fail path st (lit "expected 'key = value'")
  | Some eq =>
      match cur st ≫= fun i => (i,.) <$> result st !! i with
      | None => fail path st (lit "key outside of any [section]")
      | Some (i, it) =>
          match set_key (trim (substr t 0 eq)) (trim (substr_from t (eq + 1))) it with
          | inl msg => fail path st msg
          | inr it' => inr (st <| result := <[i := it']> (result st) |>)
          end
      end
  end.

(** One iteration of the loop. *)
Definition ini_line (path : bytes) st (line : bytes) : bytes + ini_state item :=
  let st := st <| lineno := lineno st + 1 |>%Z in
  let t := trim line in
  match t with
  | [] => inr st
  | c :: _ =>
      if decide (c = "#"%char \/ c = ";"%char) then inr st
      else if decide (c = "["%char) then open_section path st t
      else assign path st t
  end.

Fixpoint ini_loop (path : bytes) st (ls : list bytes) : bytes + ini_state item :=
  match ls with
  | [] => inr st
  | l :: ls' => st' ← ini_line path st l; ini_loop path st' ls'
  end.

(** ** Facts *)

Lemma ini_loop_app path st ls1 ls2 :
  ini_loop path st (ls1 ++ ls2) = (st' ← ini_loop path st ls1; ini_loop path st' ls2).
Proof.
  revert st. induction ls1 as [|l ls1 IH]; intros st; [done|]. simpl.
  destruct (ini_line path st l); [done|]. apply IH.
Qed.

(** [cur], when set, points to the last element: [result.back()]. *)
Definition ini_wf st : Prop :=
  match cur st with
  | None => result st = []
  | Some i => S i = length (result st)
  end.

Lemma ini_init_wf : ini_wf ini_init.
Proof. done. Qed.

(** An invariant of the items carries through the loop. *)
Section Invariant.
Context (P : item -> Prop).
Context (Hnew : forall name, trim name = name -> name <> [] -> P (new_item name)).
Context (Hset : forall k v x y, P x -> set_key k v x = inr y -> P y).

Lemma open_section_inv path st t st' :
  ini_wf st -> Forall P (result st) -> open_section path st t = inr st' ->
  ini_wf st' /\ Forall P (result st').
Proof.
  unfold open_section, fail. intros Hwf HP.
  case_decide; [|done]. case_decide; [done|]. intros [= <-]. split.
  - unfold ini_wf. cbn. rewrite length_app. cbn. lia.
  - cbn. apply Forall_app_2; [done|]. apply Forall_singleton, Hnew; [apply trim_idemp|done].
Qed.

Lemma assign_inv path st t st' :
  ini_wf st -> Forall P (result st) -> assign path st t = inr st' ->
  ini_wf st' /\ Forall P (result st').
Proof.
  unfold assign, fail. intros Hwf HP. destruct (find_char _ t) as [eq|]; [|done].
  destruct (cur st) as [i|] eqn:Ec; [|done]. simpl.
  destruct (result st !! i) as [it|] eqn:Ei; [|done]. simpl.
  destruct (set_key _ _ _) as [|it'] eqn:Es; [done|]. intros [= <-]. split.
  - unfold ini_wf in *. cbn. rewrite Ec in *. by rewrite length_insert.
  - cbn. apply Forall_insert; [done|]. eapply Hset; [|done]. by eapply Forall_lookup_1.
Qed.

Lemma ini_line_inv path st l st' :
  ini_wf st -> Forall P (result st) -> ini_line path st l = inr st' ->
  ini_wf st' /\ Forall P (result st').
Proof.
  unfold ini_line. intros Hwf HP. destruct (trim l) as [|c t]; [by intros [= <-]|].
  case_decide; [by intros [= <-]|].
  case_decide; [by apply open_section_inv|by apply assign_inv].
Qed.

Lemma ini_loop_inv path st ls st' :
  ini_wf st -> Forall P (result st) -> ini_loop path st ls = inr st' ->
  ini_wf st' /\ Forall P (result st').
Proof.
  revert st. induction ls as [|l ls IH]; intros st Hwf HP; simpl.
  - by intros [= <-].
  - destruct (ini_line path st l) as [e|st1] eqn:E; [done|]. simpl. intros Hl.
    destruct (ini_line_inv _ _ _ _ Hwf HP E). by eapply IH.
Qed.
End Invariant.

(** What the loop does on a section header and on an assignment, as written by
    a careful hand: no stray white space. *)
Lemma ini_line_section path st name :
  trimmed name -> name <> [] ->
  ini_line path st (lit "[" ++ name ++ lit "]")
  = inr (mk_ini (lineno st + 1) (result st ++ [new_item name]) (Some (length (result st)))).
Proof.
  intros Ht Hne. unfold ini_line.
  assert (trimmed (lit "[" ++ name ++ lit "]")) as Htr.
  { split; intros c; [by intros [= <-]|].
    rewrite !last_app. cbn. by intros [= <-]. }
  rewrite (trim_id _ Htr). unfold lit; cbn [list_ascii_of_string app].
  rewrite decide_False by (by intros [?|?]). rewrite decide_True by done.
  unfold open_section.
  assert (last ("["%char :: name ++ ["]"%char]) = Some "]"%char) as Hl.
  { rewrite app_comm_cons, last_app. done. }
  rewrite decide_True by done. unfold substr.
  replace (length ("["%char :: name ++ ["]"%char]) - 2) with (length name)
    by (cbn; rewrite length_app; cbn; lia).
  rewrite skipn_cons, drop_0, take_app_length, (trim_id _ Ht), decide_False by done. done.
Qed.

Lemma ini_line_assign path n r i it it' k v :
  trimmed k -> trimmed v -> k <> [] -> head k ∉ Some <$> ["#"; ";"; "["]%char ->
  "="%char ∉ k -> r !! i = Some it -> set_key k v it = inr it' ->
  ini_line path (mk_ini n r (Some i)) (k ++ lit "=" ++ v)
  = inr (mk_ini (n + 1) (<[i := it']> r) (Some i)).
Proof.
  intros Hk Hv Hne Hhd Heq Hi Hset. unfold ini_line.
  assert (trimmed (k ++ lit "=" ++ v)) as Htr.
  { split; intros c.
    - destruct k as [|c0 k]; [done|]. cbn. intros [= <-]. by apply (proj1 Hk).
    - rewrite !last_app. destruct (last v) eqn:E; [|unfold lit; cbn; by intros [= <-]].
      intros [= <-]. by apply (proj2 Hv). }
  rewrite (trim_id _ Htr). destruct k as [|c0 k'] eqn:Ek; [done|]. rewrite <- Ek in *.
  cbn [app]. rewrite Ek at 1. cbn [app].
  assert (c0 <> "#"%char /\ c0 <> ";"%char /\ c0 <> "["%char) as (? & ? & ?).
  { rewrite Ek in Hhd. cbn in Hhd. rewrite !not_elem_of_cons in Hhd. naive_solver. }
  rewrite decide_False by (by intros [?|?]). rewrite decide_False by done.
  unfold assign. change (lit "=" ++ v) with ("="%char :: v).
  rewrite find_char_app by done. cbn. rewrite Hi. cbn.
  unfold substr, substr_from. rewrite drop_0, take_app_length, drop_past.
  rewrite (trim_id k), (trim_id v) by done. by rewrite Hset.
Qed.
End Ini.
