(* ===== verification/ServiceConfig.v ===== *)
(** * ServiceConfig: the services manifest

    Models src/src/config/service_config.{h,cpp}: one manifest entry, the helpers
    of its parser, and [parse_services_file] with its out-parameters. The file
    system is the argument [content]: the bytes of the file at [path], or [None]
    when it cannot be opened. *)
From S2P Require Import Prelude Text Ini.

Record ServiceConfig := mk_service {
  cfg_name : bytes;
  cfg_exec : bytes;
  cfg_args : list bytes;
  cfg_workdir : bytes;
  cfg_autorestart : bool;
  cfg_health_host : bytes;
  cfg_health_port : Z;          (* uint16_t *)
  cfg_health_interval_sec : Z;  (* int *)
  cfg_backoff_min_sec : Z;      (* int *)
  cfg_backoff_max_sec : Z       (* int *)
}.
#[export] Instance eta_ServiceConfig : Eta ServiceConfig := fun c =>
  mk_service (cfg_name c) (cfg_exec c) (cfg_args c) (cfg_workdir c) (cfg_autorestart c)
    (cfg_health_host c) (cfg_health_port c) (cfg_health_interval_sec c)
    (cfg_backoff_min_sec c) (cfg_backoff_max_sec c).
#[export] Instance ServiceConfig_eq_dec : EqDecision ServiceConfig.
Proof. solve_decision. Defined.

(** [ServiceConfig{}] with its name set: the member initialisers of the struct. *)
Definition default_service (name : bytes) : ServiceConfig :=
  mk_service name [] [] [] true [] 0 5 1 30.

Definition parse_bool (v : bytes) : option bool :=
  let s := tolower <$> v in
  if decide (s ∈ [lit "true"; lit "1"; lit "yes"; lit "on"]) then Some true
  else if decide (s ∈ [lit "false"; lit "0"; lit "no"; lit "off"]) then Some false
  else None.

Fixpoint split_args_loop (v : bytes) (out : list bytes) (cur : bytes)
    (in_quotes have : bool) : list bytes :=
  match v with
  | [] => if have then out ++ [cur] else out
  | c :: v' =>
      if decide (c = ch_quote) then split_args_loop v' out cur (negb in_quotes) true
      else if negb in_quotes && bool_decide (c = ch_sp \/ c = ch_tab) then
        if have then split_args_loop v' (out ++ [cur]) [] in_quotes false
        else split_args_loop v' out cur in_quotes have
      else split_args_loop v' out (cur ++ [c]) in_quotes true
  end.
Definition split_args (v : bytes) : list bytes := split_args_loop v [] [] false false.

(** [static_cast<int>(std::strtol(val.c_str(), nullptr, 10))]. *)
Definition int_of (val : bytes) : Z := wrap_s 32 (strtol (c_str val)).

(** The key dispatch of the parser's loop. *)
Definition set_service_key (key val : bytes) (cur : ServiceConfig) : bytes + ServiceConfig :=
  if decide (key = lit "exec") then inr (cur <| cfg_exec := val |>)
  else if decide (key = lit "args") then inr (cur <| cfg_args := split_args val |>)
  else if decide (key = lit "workdir") then inr (cur <| cfg_workdir := val |>)
  else if decide (key = lit "autorestart") then
    match parse_bool val with
    | Some b => inr (cur <| cfg_autorestart := b |>)
    | None => inl (lit "autorestart must be true/false")
    end
  else if decide (key = lit "health_tcp") then
    match rfind_char ":"%char val with
    | None => inl (lit "health_tcp must be host:port")
    | Some colon =>
        let cur := cur <| cfg_health_host := trim (substr val 0 colon) |> in
        let p := strtol (c_str (substr_from val (colon + 1))) in
        if (p <=? 0)%Z || (65535 <? p)%Z then inl (lit "health_tcp port out of range")
        else inr (cur <| cfg_health_port := wrap_u 16 p |>)
    end
  else if decide (key = lit "health_interval") then
    inr (cur <| cfg_health_interval_sec := int_of val |>)
  else if decide (key = lit "backoff_min") then
    inr (cur <| cfg_backoff_min_sec := int_of val |>)
  else if decide (key = lit "backoff_max") then
    inr (cur <| cfg_backoff_max_sec := int_of val |>)
  else inl (lit "unknown key '" ++ key ++ lit "'").

#[export] Instance service_item : IniItem ServiceConfig := {
  new_item := default_service;
  set_key := set_service_key
}.

(** The checks after the loop, in the order of the manifest. *)
Fixpoint check_services (cs : list ServiceConfig) : option bytes :=
  match cs with
  | [] => None
  | c :: cs' =>
      match cfg_exec c with
      | [] => Some (lit "service '" ++ cfg_name c ++ lit "' is missing 'exec'")
      | a :: _ =>
          if decide (a = "/"%char) then check_services cs'
          else Some (lit "service '" ++ cfg_name c ++ lit "' exec must be an absolute path")
      end
  end.

(** The returned value, then the out-parameters [out] and [err]. *)
Definition parse_services_file (path : bytes) (content : option bytes)
    (out : list ServiceConfig) (err : bytes) : bool * list ServiceConfig * bytes :=
  match content with
  | None => (false, out, lit "cannot open services manifest: " ++ path)
  | Some f =>
      match ini_loop path ini_init (getlines f) with
      | inl e => (false, out, e)
      | inr st =>
          match check_services (result st) with
          | Some e => (false, out, e)
          | None => (true, result st, err)
          end
      end
  end.

Example split_args_ex :
  split_args (lit "-f  -p 80 " ++ [ch_quote] ++ lit "a b" ++ [ch_quote] ++ lit "c")
  = [lit "-f"; lit "-p"; lit "80"; lit "a bc"].
Proof. reflexivity. Qed.

(** ** The specification: what a well-formed entry is, and how to write it down *)

(** What every parsed entry satisfies. *)
Record service_ok (c : ServiceConfig) : Prop := {
  ok_name : cfg_name c <> [] /\ trim (cfg_name c) = cfg_name c;
  ok_port : (0 <= cfg_health_port c <= 65535)%Z;
  ok_interval : in_s 32 (cfg_health_interval_sec c);
  ok_bmin : in_s 32 (cfg_backoff_min_sec c);
  ok_bmax : in_s 32 (cfg_backoff_max_sec c)
}.

(** [true]/[false], and each argument in double quotes. *)
Definition show_bool (b : bool) : bytes := if b then lit "true" else lit "false".
Definition quote_arg (a : bytes) : bytes := [ch_quote] ++ a ++ [ch_quote].
Definition join_args (l : list bytes) : bytes :=
  match l with
  | [] => []
  | a :: l' => quote_arg a ++ concat ((fun b => [ch_sp] ++ quote_arg b) <$> l')
  end.

Definition kv (k v : bytes) : bytes := k ++ lit "=" ++ v.
Definition render_lines (c : ServiceConfig) : list bytes :=
  [lit "[" ++ cfg_name c ++ lit "]";
   kv (lit "exec") (cfg_exec c);
   kv (lit "args") (join_args (cfg_args c));
   kv (lit "workdir") (cfg_workdir c);
   kv (lit "autorestart") (show_bool (cfg_autorestart c))] ++
  (if decide (cfg_health_port c = 0%Z) then []
   else [kv (lit "health_tcp") (cfg_health_host c ++ lit ":" ++ to_string (cfg_health_port c))]) ++
  [kv (lit "health_interval") (to_string (cfg_health_interval_sec c));
   kv (lit "backoff_min") (to_string (cfg_backoff_min_sec c));
   kv (lit "backoff_max") (to_string (cfg_backoff_max_sec c))].
Definition render_manifest (cs : list ServiceConfig) : bytes :=
  concat ((fun l => l ++ [ch_nl]) <$> (cs ≫= render_lines)).

(** An entry that can be written in the manifest's syntax: texts that survive
    [trim], no line breaks, no quotes inside arguments, and no half-configured
    health check. *)
Record service_writable (c : ServiceConfig) : Prop := {
  wr_ok : service_ok c;
  wr_exec : trimmed (cfg_exec c) /\ head (cfg_exec c) = Some "/"%char;
  wr_workdir : trimmed (cfg_workdir c);
  wr_args : Forall (fun a => ch_quote ∉ a) (cfg_args c);
  wr_host : trimmed (cfg_health_host c) /\
            (cfg_health_port c = 0%Z -> cfg_health_host c = []);
  wr_lines : Forall (fun l => ch_nl ∉ l) (render_lines c)
}.

(** ** Every accepted key keeps the entry well formed *)

Lemma default_service_ok name : name <> [] -> trim name = name -> service_ok (default_service name).
Proof. intros. split; cbn; unfold in_s; try done; lia. Qed.

Lemma int_of_range v : in_s 32 (int_of v).
Proof. by apply wrap_s_range. Qed.

Lemma set_service_key_ok k v c c' :
  service_ok c -> set_service_key k v c = inr c' -> service_ok c'.
Proof.
  intros [? ? ? ? ?]. unfold set_service_key.
  repeat case_decide; try (by intros [= <-]; split; cbn; auto using int_of_range).
  - destruct (parse_bool v); [|done]. intros [= <-]. by split.
  - destruct (rfind_char _ v) as [colon|]; [|done].
    destruct (_ || _) eqn:E; [done|]. intros [= <-]. bool_to_prop.
    split; cbn; try done. unfold wrap_u. rewrite Z.mod_small; lia.
Qed.

Lemma check_services_None cs :
  check_services cs = None <-> Forall (fun c => head (cfg_exec c) = Some "/"%char) cs.
Proof.
  induction cs as [|c cs IH]; cbn; [by split|]. rewrite Forall_cons.
  destruct (cfg_exec c) as [|a e]; cbn.
  - split; [done|by intros [? _]].
  - case_decide; [subst; rewrite IH; naive_solver|naive_solver].
Qed.

(** ** Arguments *)

Lemma split_args_quoted a v out cur have :
  ch_quote ∉ a ->
  split_args_loop (a ++ ch_quote :: v) out cur true have
  = split_args_loop v out (cur ++ a) false true.
Proof.
  revert cur have. induction a as [|c a IH]; intros cur have Ha; cbn.
  - by rewrite app_nil_r.
  - apply not_elem_of_cons in Ha as [? ?]. rewrite decide_False by congruence.
    cbn. rewrite IH by done. by rewrite <- app_assoc.
Qed.

Lemma split_args_rest l out a :
  Forall (fun b => ch_quote ∉ b) l ->
  split_args_loop (concat ((fun b => [ch_sp] ++ quote_arg b) <$> l)) out a false true
  = out ++ [a] ++ l.
Proof.
  intros Hl. revert out a. induction Hl as [|b l Hb _ IH]; intros out a; [done|].
  rewrite fmap_cons. cbn [concat]. unfold quote_arg at 1. rewrite <- !app_assoc. cbn [app].
  cbn [split_args_loop]. rewrite decide_False by done. cbn.
  rewrite split_args_quoted by done. cbn. rewrite IH. by rewrite <- app_assoc.
Qed.

Lemma split_join_args l :
  Forall (fun b => ch_quote ∉ b) l -> split_args (join_args l) = l.
Proof.
  destruct 1 as [|a l Ha Hl]; [done|]. unfold join_args, quote_arg at 1, split_args.
  rewrite <- !app_assoc. cbn. rewrite split_args_quoted by done.
  by apply (split_args_rest l []).
Qed.

(** ** Reading back a written entry *)

Lemma int_of_to_string z : in_s 32 z -> int_of (to_string z) = z.
Proof.
  intros Hz. unfold int_of. rewrite c_str_id by (apply to_string_no_delim; set_solver).
  rewrite strtol_to_string; [by apply wrap_s_id|]. unfold in_s in *. cbn in *. lia.
Qed.

(** A key the line loop takes for a key: decidable, so that it computes. *)
Definition key_ok (k : bytes) : bool :=
  bool_decide (trim k = k /\ k <> [] /\
               head k ∉ Some <$> ["#"; ";"; "["]%char /\ "="%char ∉ k).

Lemma step_kv path n r (it it' : ServiceConfig) k v rest :
  key_ok k = true -> trimmed v -> set_key k v it = inr it' ->
  ini_loop path (mk_ini n (r ++ [it]) (Some (length r))) (kv k v :: rest)
  = ini_loop path (mk_ini (n + 1) (r ++ [it']) (Some (length r))) rest.
Proof.
  intros (Hk & ? & ? & ?)%bool_decide_eq_true_1 ? ?. cbn [ini_loop]. unfold kv.
  erewrite ini_line_assign with (it := it) (it' := it'); try done.
  - cbn. f_equal. f_equal. rewrite insert_app_r_alt, Nat.sub_diag by lia. done.
  - rewrite <- Hk. apply trim_trimmed.
  - by rewrite lookup_app_r, Nat.sub_diag by lia.
Qed.

Lemma step_section path n r cur name rest :
  trimmed name -> name <> [] ->
  ini_loop path (mk_ini n r cur) ((lit "[" ++ name ++ lit "]") :: rest)
  = ini_loop path (mk_ini (n + 1) (r ++ [default_service name]) (Some (length r))) rest.
Proof. intros. cbn [ini_loop]. by rewrite ini_line_section. Qed.

Lemma set_health_tcp host p c :
  trimmed host -> (0 < p <= 65535)%Z ->
  set_service_key (lit "health_tcp") (host ++ lit ":" ++ to_string p) c
  = inr (c <| cfg_health_host := host |> <| cfg_health_port := p |>).
Proof.
  intros Hh Hp.
  change (set_service_key (lit "health_tcp") (host ++ lit ":" ++ to_string p) c) with
    (match rfind_char ":"%char (host ++ ":"%char :: to_string p) with
     | None => inl (lit "health_tcp must be host:port")
     | Some colon =>
         let c := c <| cfg_health_host := trim (substr (host ++ ":"%char :: to_string p) 0 colon) |> in
         let p := strtol (c_str (substr_from (host ++ ":"%char :: to_string p) (colon + 1))) in
         if (p <=? 0)%Z || (65535 <? p)%Z then inl (lit "health_tcp port out of range")
         else inr (c <| cfg_health_port := wrap_u 16 p |>)
     end).
  rewrite rfind_char_app by (apply to_string_no_delim; set_solver).
  unfold substr, substr_from. rewrite drop_0, take_app_length, drop_past, (trim_id host) by done.
  rewrite c_str_id by (apply to_string_no_delim; set_solver).
  rewrite strtol_to_string by (unfold in_s; lia). cbv zeta.
  assert ((p <=? 0)%Z = false) as -> by lia. assert ((65535 <? p)%Z = false) as -> by lia.
  cbn. f_equal. f_equal. unfold wrap_u. rewrite Z.mod_small; lia.
Qed.

Lemma health_value_trimmed host p : trimmed host -> trimmed (host ++ lit ":" ++ to_string p).
Proof.
  intros [Hh _]. split; intros c.
  - destruct host; cbn; [|by apply Hh]. by intros [= <-].
  - rewrite !last_app. destruct (last (to_string p)) as [x|] eqn:E.
    + intros [= <-]. by apply (to_string_trimmed p).
    + unfold lit. cbn. by intros [= <-].
Qed.

Lemma join_args_trimmed l : trimmed (join_args l).
Proof.
  split; intros c; destruct l as [|a l]; try done; cbn; [by intros [= <-]|].
  assert (forall l x, last (quote_arg x ++ concat ((fun b => [ch_sp] ++ quote_arg b) <$> l))
          = Some ch_quote) as H.
  { clear. induction l as [|b l IH]; intros x; cbn -[quote_arg].
    - rewrite app_nil_r. unfold quote_arg. by rewrite !last_app.
    - change (?u ++ ch_sp :: ?v) with (u ++ [ch_sp] ++ v). rewrite !last_app, <- last_app, IH. done. }
  pose proof (H l a) as Hl. unfold quote_arg in Hl at 1. cbn in Hl. rewrite Hl.
  by intros [= <-].
Qed.

Lemma show_bool_trimmed b : trimmed (show_bool b).
Proof. destruct b; by split; intros c; cbn; intros [= <-]. Qed.

Lemma set_autorestart b c :
  set_service_key (lit "autorestart") (show_bool b) c = inr (c <| cfg_autorestart := b |>).
Proof. by destruct b. Qed.

#[local] Hint Resolve show_bool_trimmed to_string_trimmed join_args_trimmed
  health_value_trimmed : castle.

Ltac read_kv :=
  erewrite step_kv;
  [| vm_compute; reflexivity
   | solve [assumption | eauto with castle]
   | first [apply set_autorestart | apply set_health_tcp; [assumption|lia] | reflexivity]].

Lemma read_service path n r cur c :
  service_writable c ->
  exists n', ini_loop path (mk_ini n r cur) (render_lines c)
             = inr (mk_ini n' (r ++ [c]) (Some (length r))).
Proof.
  intros [[[Hne Hname] Hport Hint Hmin Hmax] [Hex _] Hwd Hargs [Hhost Hnohost] _].
  assert (trimmed (cfg_name c)) as Hname' by (rewrite <- Hname; apply trim_trimmed).
  unfold render_lines. cbn [app]. rewrite step_section by done.
  case_decide as Hp; cbn [app]; repeat read_kv; cbn [ini_loop];
    rewrite !int_of_to_string, (split_join_args _ Hargs) by done; eexists; do 4 f_equal;
    destruct c; cbn in *; rewrite ?Hp, ?(Hnohost Hp); done.
Qed.

Lemma read_services path n r cur cs :
  Forall service_writable cs ->
  exists n' cur', ini_loop path (mk_ini n r cur) (cs ≫= render_lines) = inr (mk_ini n' (r ++ cs) cur').
Proof.
  intros Hcs. revert n r cur. induction Hcs as [|c cs Hc _ IH]; intros n r cur.
  - exists n, cur. cbn. by rewrite app_nil_r.
  - rewrite bind_cons, ini_loop_app. destruct (read_service path n r cur c Hc) as [n' ->].
    cbn [mbind sum_bind]. destruct (IH n' (r ++ [c]) (Some (length r))) as (n2 & cur2 & ->).
    exists n2, cur2. by rewrite <- app_assoc.
Qed.

Lemma render_manifest_lines cs :
  Forall service_writable cs -> getlines (render_manifest cs) = cs ≫= render_lines.
Proof.
  intros Hcs. unfold render_manifest. rewrite <- (app_nil_r (concat _)) at 1.
  rewrite getlines_concat; [apply app_nil_r|].
  apply Forall_bind. eapply Forall_impl; [exact Hcs|]. intros c Hc. apply (wr_lines c Hc).
Qed.

(** ** Properties *)

(** C38: writing well-formed services in the manifest's syntax and parsing the file
    gives them back, in order, leaving [err] alone: the parser loses and invents
    nothing (quoted arguments, ports, negative integers included). *)
Theorem parse_services_roundtrip path cs out err :
  Forall service_writable cs ->
  parse_services_file path (Some (render_manifest cs)) out err = (true, cs, err).
Proof.
  intros Hcs. unfold parse_services_file, ini_init.
  rewrite render_manifest_lines by done.
  destruct (read_services path 0 [] None cs Hcs) as (n & cur & ->). cbn [result app].
  assert (check_services cs = None) as ->; [|done].
  apply check_services_None. eapply Forall_impl; [exact Hcs|]. intros c Hc. apply (wr_exec c Hc).
Qed.

Definition sample_service : ServiceConfig :=
  mk_service (lit "web") (lit "/bin/busybox") [lit "httpd"; lit "-p"; lit "a b"; []]
    (lit "/srv") false (lit "127.0.0.1") 9001 (-5) 1 30.

Lemma sample_writable : service_writable sample_service.
Proof.
  assert (forall t, trim t = t -> trimmed t) as Ht by (intros t <-; apply trim_trimmed).
  split; [|split; [by apply Ht|done]|by apply Ht| |split; [by apply Ht|done]|].
  - split; unfold in_s; cbn; try done; lia.
  - by apply (bool_decide_unpack _).
  - by apply (bool_decide_unpack _).
Defined.

Lemma parse_services_roundtrip_witness :
  parse_services_file (lit "m") (Some (render_manifest [sample_service; sample_service])) [] [] =
  (true, [sample_service; sample_service], []).
Proof.
  apply parse_services_roundtrip.
  exact (Forall_cons_2 _ _ _ sample_writable (Forall_cons_2 _ _ _ sample_writable (Forall_nil_2 _))).
Defined.

(** [parse_services_file] either fails, leaving [out] as it was, or succeeds
    with entries that all have a non-empty trimmed name, an absolute [exec], a
    port of 16 bits and integers of 32 bits. *)
Theorem parse_services_sound path content out err :
  let '(ok, out', err') := parse_services_file path content out err in
  if ok then err' = err /\
    Forall (fun c => service_ok c /\ head (cfg_exec c) = Some "/"%char) out'
  else out' = out.
Proof.
  unfold parse_services_file. destruct content as [f|]; [|done].
  destruct (ini_loop _ _ _) as [e|st] eqn:E; [done|].
  destruct (check_services (result st)) eqn:Ec; [done|]. split; [done|].
  apply Forall_and. split; [|by apply check_services_None].
  eapply (ini_loop_inv service_ok) in E as [_ ?]; eauto using set_service_key_ok.
  - intros. by apply default_service_ok.
  - apply ini_init_wf.
Qed.
