(* ===== verification/Router.v ===== *)
(** * Router: the routing table

    Models src/src/http/router.{h,cpp}: routes, [Router::load] with its
    out-parameters, and [Router::match], the choice of a backend for a request. *)
From S2P Require Import Prelude Text Ini.

Record Backend := mk_backend {
  be_host : bytes;
  be_port : Z  (* uint16_t *)
}.
#[export] Instance eta_Backend : Eta Backend := fun b => mk_backend (be_host b) (be_port b).
#[export] Instance Backend_eq_dec : EqDecision Backend.
Proof. solve_decision. Defined.

Record Route := mk_route {
  rt_name : bytes;
  rt_host : bytes;         (* lowercased; empty = any Host *)
  rt_path_prefix : bytes;
  rt_backend : Backend
}.
#[export] Instance eta_Route : Eta Route := fun r =>
  mk_route (rt_name r) (rt_host r) (rt_path_prefix r) (rt_backend r).
#[export] Instance Route_eq_dec : EqDecision Route.
Proof. solve_decision. Defined.

(** The table: [std::vector<Route> routes_]. *)
Abbreviation Router := (list Route).

Definition lower (s : bytes) : bytes := tolower <$> s.

Definition default_route (name : bytes) : Route :=
  mk_route name [] (lit "/") (mk_backend [] 0).

(** The key dispatch of [load]'s loop. *)
Definition set_route_key (key val : bytes) (cur : Route) : bytes + Route :=
  if decide (key = lit "host") then inr (cur <| rt_host := lower val |>)
  else if decide (key = lit "path") then
    if decide (val = []) then inr cur else inr (cur <| rt_path_prefix := val |>)
  else if decide (key = lit "backend") then
    match rfind_char ":"%char val with
    | None => inl (lit "backend must be host:port")
    | Some colon =>
        let cur := cur <| rt_backend ::= fun b => b <| be_host := trim (substr val 0 colon) |> |> in
        let p := strtol (c_str (substr_from val (colon + 1))) in
        if (p <=? 0)%Z || (65535 <? p)%Z then inl (lit "backend port out of range")
        else inr (cur <| rt_backend ::= fun b => b <| be_port := wrap_u 16 p |> |>)
    end
  else inl (lit "unknown key '" ++ key ++ lit "'").

#[export] Instance route_item : IniItem Route := {
  new_item := default_route;
  set_key := set_route_key
}.

Fixpoint check_routes (rs : list Route) : option bytes :=
  match rs with
  | [] => None
  | r :: rs' =>
      if decide (be_host (rt_backend r) = [] \/ be_port (rt_backend r) = 0%Z)
      then Some (lit "route '" ++ rt_name r ++ lit "' is missing a valid backend")
      else check_routes rs'
  end.

(** [Router::load] on a table [routes_]: the returned value, the table, [err]. *)
Definition load (routes_ : Router) (path : bytes) (content : option bytes) (err : bytes)
    : bool * Router * bytes :=
  match content with
  | None => (false, routes_, lit "cannot open routes file: " ++ path)
  | Some f =>
      match ini_loop path ini_init (getlines f) with
      | inl e => (false, routes_, e)
      | inr st =>
          match check_routes (result st) with
          | Some e => (false, routes_, e)
          | None => (true, result st, err)
          end
      end
  end.

(** The Host header without its port, lowercased. *)
Definition normalize_host (host : bytes) : bytes :=
  lower (match find_char ":"%char host with
         | Some colon => substr host 0 colon
         | None => host
         end).

(** Whether the loop of [match] considers [r]: the two [continue]s. *)
Definition applies (h path : bytes) (r : Route) : bool :=
  bool_decide (rt_host r = [] \/ rt_host r = h) &&
  bool_decide (rt_path_prefix r `prefix_of` path).

(** Whether [r] replaces the current [best]. *)
Definition better (r best : Route) : bool :=
  let lr := length (rt_path_prefix r) in
  let lb := length (rt_path_prefix best) in
  (lb <? lr) || ((lr =? lb) && bool_decide (rt_host best = []) && negb (bool_decide (rt_host r = []))).

Fixpoint match_loop (h path : bytes) (routes : Router) (best : option Route) : option Route :=
  match routes with
  | [] => best
  | r :: rs =>
      if applies h path r then
        match best with
        | None => match_loop h path rs (Some r)
        | Some b => match_loop h path rs (Some (if better r b then r else b))
        end
      else match_loop h path rs best
  end.

(** [Router::match]. *)
Definition route_match (routes_ : Router) (host path : bytes) : option Backend :=
  rt_backend <$> match_loop (normalize_host host) path routes_ None.

(** ** The order [match] maximises *)

(** Longer prefixes first; at equal length a host-specific route before a wildcard. *)
Definition rank (r : Route) : nat :=
  2 * length (rt_path_prefix r) + (if decide (rt_host r = []) then 0 else 1).

Lemma better_rank r b : better r b = (rank b <? rank r).
Proof.
  unfold better, rank.
  destruct (bool_decide_reflect (rt_host r = [])); destruct (bool_decide_reflect (rt_host b = []));
    repeat case_decide; try done;
    destruct (Nat.ltb_spec (length (rt_path_prefix b)) (length (rt_path_prefix r)));
    destruct (Nat.eqb_spec (length (rt_path_prefix r)) (length (rt_path_prefix b)));
    simpl andb; simpl orb; symmetry; (apply Nat.ltb_lt; lia) || (apply Nat.ltb_ge; lia).
Qed.

(** [r] is the first route of greatest rank among those of [rs] that apply. *)
Definition first_best (h path : bytes) (rs : Router) (r : Route) : Prop :=
  exists i, rs !! i = Some r /\ applies h path r = true /\
    forall j r', rs !! j = Some r' -> applies h path r' = true ->
      rank r' <= rank r /\ (j < i -> rank r' < rank r).

Lemma first_best_snoc h path rs r x :
  first_best h path rs r ->
  first_best h path (rs ++ [x])
    (if applies h path x && better x r then x else r).
Proof.
  intros (i & Hi & Ha & Hmax). pose proof (lookup_lt_Some _ _ _ Hi).
  assert (forall j r', (rs ++ [x]) !! j = Some r' -> j = length rs /\ r' = x \/ j < length rs /\ rs !! j = Some r') as Hsnoc.
  { intros j r' [|[? Hj]]%lookup_app_Some; [right; split; [by eapply lookup_lt_Some|done]|].
    left. apply list_lookup_singleton_Some in Hj as [? <-]. split; [lia|done]. }
  rewrite better_rank. destruct (applies h path x) eqn:Ex; simpl.
  - destruct (Nat.ltb_spec (rank r) (rank x)).
    + exists (length rs). split; [by rewrite list_lookup_middle|]. split; [done|].
      intros j r' [[-> ->]|[? Hj]]%Hsnoc Hr'; [lia|]. destruct (Hmax j r' Hj Hr'). lia.
    + exists i. split; [by apply lookup_app_l_Some|]. split; [done|].
      intros j r' [[-> ->]|[? Hj]]%Hsnoc Hr'; [lia|]. by apply Hmax.
  - exists i. split; [by apply lookup_app_l_Some|]. split; [done|].
    intros j r' [[-> ->]|[? Hj]]%Hsnoc Hr'; [congruence|]. by apply Hmax.
Qed.

Definition best_of (h path : bytes) (rs : Router) (best : option Route) : Prop :=
  match best with
  | None => forall r, r ∈ rs -> applies h path r = false
  | Some r => first_best h path rs r
  end.

Lemma match_loop_spec h path seen rest best :
  best_of h path seen best ->
  best_of h path (seen ++ rest) (match_loop h path rest best).
Proof.
  revert seen best. induction rest as [|x rest IH]; intros seen best Hb; cbn [match_loop].
  - by rewrite app_nil_r.
  - replace (seen ++ x :: rest) with ((seen ++ [x]) ++ rest) by (by rewrite <- app_assoc).
    destruct best as [b|].
    + pose proof (first_best_snoc h path seen b x Hb) as Hs.
      destruct (applies h path x); [|by apply IH]. cbn in Hs.
      by destruct (better x b); apply IH.
    + destruct (applies h path x) eqn:Ex; apply IH.
      * exists (length seen). split; [by rewrite list_lookup_middle|]. split; [done|].
        intros j r' [Hj|[Hge Hj]]%lookup_app_Some Hr'.
        { apply list_elem_of_lookup_2 in Hj. cbn in Hb. by rewrite Hb in Hr'. }
        apply list_lookup_singleton_Some in Hj as [? <-]. lia.
      * intros r [Hr|Hr%list_elem_of_singleton]%elem_of_app; [by apply Hb|by subst].
Qed.

(** ** The entries of a loaded table *)

Record route_ok (r : Route) : Prop := {
  rok_name : rt_name r <> [] /\ trim (rt_name r) = rt_name r;
  rok_host : lower (rt_host r) = rt_host r;
  rok_prefix : rt_path_prefix r <> [];
  rok_port : (0 <= be_port (rt_backend r) <= 65535)%Z
}.

Lemma chr_code c : chr (code c) = c.
Proof. unfold chr, code. rewrite N2Z.id. apply ascii_N_embedding. Qed.

Lemma tolower_idemp c : tolower (tolower c) = tolower c.
Proof. by destruct c as [[] [] [] [] [] [] [] []]; vm_compute. Qed.

Lemma lower_idemp s : lower (lower s) = lower s.
Proof.
  unfold lower. rewrite <- list_fmap_compose. apply list_fmap_ext.
  intros ? c _. apply tolower_idemp.
Qed.

Lemma set_route_key_ok k v r r' :
  route_ok r -> set_route_key k v r = inr r' -> route_ok r'.
Proof.
  intros [? ? ? ?]. unfold set_route_key. repeat case_decide; try done.
  - intros [= <-]. split; cbn; auto using lower_idemp.
  - by intros [= <-].
  - by intros [= <-].
  - destruct (rfind_char _ v) as [colon|]; [|done].
    destruct (_ || _) eqn:E; [done|]. intros [= <-]. bool_to_prop.
    split; cbn; try done. unfold wrap_u. rewrite Z.mod_small; lia.
Qed.

Lemma check_routes_None rs :
  check_routes rs = None <->
  Forall (fun r => be_host (rt_backend r) <> [] /\ be_port (rt_backend r) <> 0%Z) rs.
Proof.
  induction rs as [|r rs IH]; cbn; [by split|]. rewrite Forall_cons.
  case_decide; [naive_solver|]. rewrite IH. naive_solver.
Qed.

Lemma tolower_colon c : tolower c = ":"%char -> c = ":"%char.
Proof. by destruct c as [[] [] [] [] [] [] [] []]; vm_compute. Qed.

Lemma find_char_lower s : find_char ":"%char (lower s) = find_char ":"%char s.
Proof.
  unfold find_char. destruct (find_if _ s) as [i|] eqn:E.
  - apply find_if_Some in E as (c & Hi & Hc & Hmin). apply find_if_Some.
    apply bool_decide_eq_true_1 in Hc as ->. exists ":"%char. unfold lower.
    split; [by rewrite list_lookup_fmap, Hi|]. split; [done|]. intros j d Hj Hlt.
    rewrite list_lookup_fmap in Hj. apply fmap_Some in Hj as (c & Hj & ->).
    specialize (Hmin j c Hj Hlt). apply bool_decide_eq_false_1 in Hmin.
    apply bool_decide_eq_false_2. by intros ?%tolower_colon.
  - apply find_if_None in E. apply find_if_None. unfold lower. apply Forall_fmap.
    eapply Forall_impl; [exact E|]. intros c Hc. cbn in *.
    apply bool_decide_eq_false_1 in Hc. apply bool_decide_eq_false_2. by intros ?%tolower_colon.
Qed.

(** ** Properties *)

(** C36: [Router::match] returns the backend of the first route of greatest rank
    (prefix length, then host-specific over wildcard) among the routes whose host
    is empty or the normalised Host and whose prefix starts the path; and nothing
    exactly when no route applies. *)
Theorem route_match_best routes_ host path :
  match route_match routes_ host path with
  | Some b => exists i r, routes_ !! i = Some r /\ rt_backend r = b /\
      applies (normalize_host host) path r = true /\
      (forall j r', routes_ !! j = Some r' -> applies (normalize_host host) path r' = true ->
         rank r' <= rank r /\ (j < i -> rank r' < rank r))
  | None => forall r, r ∈ routes_ -> applies (normalize_host host) path r = false
  end.
Proof.
  unfold route_match.
  assert (best_of (normalize_host host) path [] None) as H0 by (by intros r ?%elem_of_nil).
  pose proof (match_loop_spec _ _ [] routes_ None H0) as H. cbn [app] in H.
  destruct (match_loop _ _ _ _) as [r|]; cbn; [|exact H].
  destruct H as (i & ? & ? & ?). by exists i, r.
Qed.

(** The Host header is matched without its port and without regard to case. *)
Theorem route_match_host routes_ host port path :
  ":"%char ∉ host ->
  route_match routes_ (lower host ++ lit ":" ++ port) path = route_match routes_ host path.
Proof.
  intros Hc. unfold route_match. do 2 f_equal. unfold normalize_host.
  apply find_char_None in Hc as Hh. rewrite Hh.
  assert (":"%char ∉ lower host) as Hl by (by apply find_char_None; rewrite find_char_lower).
  change (lit ":" ++ port) with (":"%char :: port). rewrite find_char_app by done.
  unfold substr. by rewrite drop_0, take_app_length, lower_idemp.
Qed.

Definition sample_routes : Router :=
  [mk_route (lit "a") (lit "web.local") (lit "/") (mk_backend (lit "127.0.0.1") 9001);
   mk_route (lit "b") [] (lit "/api") (mk_backend (lit "127.0.0.1") 9002)].

Lemma route_match_host_witness :
  route_match sample_routes (lower (lit "Web.Local") ++ lit ":" ++ lit "8080") (lit "/x")
  = route_match sample_routes (lit "Web.Local") (lit "/x").
Proof. apply route_match_host. by apply (bool_decide_unpack _). Defined.

(** C37: [Router::load] either fails, keeping the previous table, or installs routes
    that all have a non-empty name, a lowercase host, a non-empty prefix, a backend
    host and a port between 1 and 65535; [err] is only written on failure. *)
Theorem load_sound routes_ path content err :
  let '(ok, routes', err') := load routes_ path content err in
  if ok then err' = err /\
    Forall (fun r => route_ok r /\ be_host (rt_backend r) <> [] /\
                     be_port (rt_backend r) <> 0%Z) routes'
  else routes' = routes_.
Proof.
  unfold load. destruct content as [f|]; [|done].
  destruct (ini_loop _ _ _) as [e|st] eqn:E; [done|].
  destruct (check_routes (result st)) eqn:Ec; [done|]. split; [done|].
  apply Forall_and. split; [|by apply check_routes_None].
  eapply (ini_loop_inv route_ok) in E as [_ ?]; eauto using set_route_key_ok.
  - intros. by split; cbn.
  - apply ini_init_wf.
Qed.
