(* ===== verification/RateLimiter.v ===== *)
(** * RateLimiter: per-address token buckets

    Models src/src/gateway/rate_limiter.{h,cpp}. The code computes in [double];
    the definitions are written over an interface of the operations it uses,
    [Double], with two instances: IEEE binary64 (the SpecFloat operations of the
    Standard Library, bit for bit what the machine computes) and exact rational
    arithmetic. What does not depend on rounding is proved for every instance,
    the admission bounds for the exact one. Every call runs under [mu_], so calls
    are totally ordered; the argument [now] is the [steady_clock] reading, in
    nanoseconds. *)
From Stdlib Require Import QArith Lqa SpecFloat FloatOps.
From S2P Require Import Prelude.
Open Scope Z_scope.

(** The operations on [double] the limiter uses. *)
Class Double (D : Type) := {
  d_one : D;
  d_add : D -> D -> D;
  d_sub : D -> D -> D;
  d_mul : D -> D -> D;
  d_ltb : D -> D -> bool;
  d_leb : D -> D -> bool;
  d_seconds : Z -> D  (* duration<double>(nanoseconds).count() *)
}.

(** [std::min(a, b)]: the second when it is smaller, otherwise the first. *)
Definition d_min {D} `{Double D} (a b : D) : D := if d_ltb b a then b else a.

(** IEEE 754 binary64, rounding to nearest even. *)
Definition b64_of_Z (z : Z) : spec_float := binary_normalize 53 1024 z 0 false.
#[export] Instance binary64 : Double spec_float := {
  d_one := b64_of_Z 1;
  d_add := SFadd 53 1024;
  d_sub := SFsub 53 1024;
  d_mul := SFmul 53 1024;
  d_ltb := SFltb;
  d_leb := SFleb;
  d_seconds ns := SFdiv 53 1024 (b64_of_Z ns) (b64_of_Z 1000000000)
}.

(** Exact arithmetic. *)
#[export] Instance exact : Double Q := {
  d_one := 1%Q;
  d_add := Qplus;
  d_sub := Qminus;
  d_mul := Qmult;
  d_ltb a b := negb (Qle_bool b a);
  d_leb := Qle_bool;
  d_seconds ns := (ns # 1000000000)%Q
}.

Section RateLimiter.
Context {D : Type} `{Double D}.

Record Bucket := mk_bucket { tokens : D; last_refill : Z }.

Record RateLimiter := mk_limiter {
  rate_ : D;
  burst_ : D;
  buckets_ : gmap Z Bucket;  (* uint32_t -> Bucket *)
  overflow_ : Bucket
}.

Definition kMaxBuckets : Z := 100000.

(** The constructor, at time [now]. *)
Definition new_limiter (rate burst : D) (now : Z) : RateLimiter :=
  mk_limiter rate burst ∅ (mk_bucket burst now).

(** [spend]: refill from the elapsed time, then take one token if there is one. *)
Definition spend (rl : RateLimiter) (b : Bucket) (now : Z) : bool * Bucket :=
  let elapsed := d_seconds (now - last_refill b) in
  let t := d_min (burst_ rl) (d_add (tokens b) (d_mul elapsed (rate_ rl))) in
  if d_leb d_one t then (true, mk_bucket (d_sub t d_one) now)
  else (false, mk_bucket t now).

(** Whether [prune_locked] erases a bucket: its implied refill is full. *)
Definition full_at (rl : RateLimiter) (now : Z) (b : Bucket) : bool :=
  d_leb (burst_ rl)
    (d_add (tokens b) (d_mul (d_seconds (now - last_refill b)) (rate_ rl))).

Definition prune_locked (rl : RateLimiter) (now : Z) : RateLimiter :=
  mk_limiter (rate_ rl) (burst_ rl)
    (filter (fun kb => full_at rl now kb.2 = false) (buckets_ rl)) (overflow_ rl).

Definition table_full (rl : RateLimiter) : bool :=
  (kMaxBuckets <=? Z.of_nat (size (buckets_ rl))).

Definition allow (rl : RateLimiter) (ipv4 now : Z) : bool * RateLimiter :=
  match buckets_ rl !! ipv4 with
  | None =>
      let rl := if table_full rl then prune_locked rl now else rl in
      if table_full rl then
        let '(ok, o) := spend rl (overflow_ rl) now in
        (ok, mk_limiter (rate_ rl) (burst_ rl) (buckets_ rl) o)
      else
        (true, mk_limiter (rate_ rl) (burst_ rl)
                 (<[ipv4 := mk_bucket (d_sub (burst_ rl) d_one) now]> (buckets_ rl))
                 (overflow_ rl))
  | Some b =>
      let '(ok, b') := spend rl b now in
      (ok, mk_limiter (rate_ rl) (burst_ rl) (<[ipv4 := b']> (buckets_ rl)) (overflow_ rl))
  end.

(** A history of calls: the answers, in order, and the final limiter. *)
Fixpoint allow_all (rl : RateLimiter) (calls : list (Z * Z)) : list bool * RateLimiter :=
  match calls with
  | [] => ([], rl)
  | (ip, now) :: calls' =>
      let '(ok, rl') := allow rl ip now in
      let '(oks, rl'') := allow_all rl' calls' in (ok :: oks, rl'')
  end.

(** ** The table stays bounded, whatever the arithmetic *)

Definition bounded (rl : RateLimiter) : Prop :=
  Z.of_nat (size (buckets_ rl)) <= kMaxBuckets.

Lemma allow_bounded rl ip now : bounded rl -> bounded (allow rl ip now).2.
Proof.
  unfold bounded, allow. intros Hb.
  destruct (buckets_ rl !! ip) as [b|] eqn:E.
  - destruct (spend rl b now) as [ok b']. cbn. by rewrite map_size_insert_Some.
  - set (rl' := if table_full rl then _ else rl).
    assert (Z.of_nat (size (buckets_ rl')) <= kMaxBuckets) as Hb'.
    { unfold rl'. case_match; [|done]. cbn.
      etrans; [|exact Hb]. apply Nat2Z.inj_le, map_subseteq_size, map_filter_subseteq. }
    destruct (table_full rl') eqn:Ef.
    + destruct (spend rl' _ now) as [ok o]. exact Hb'.
    + unfold table_full in Ef. apply Z.leb_gt in Ef. cbn.
      rewrite map_size_insert. case_match; cbn; lia.
Qed.

Lemma allow_params rl ip now :
  rate_ (allow rl ip now).2 = rate_ rl /\ burst_ (allow rl ip now).2 = burst_ rl.
Proof. unfold allow. by repeat (case_match; simplify_eq/=). Qed.
End RateLimiter.

(** ** Exact arithmetic: invariant and admission bound *)

#[local] Arguments full_at : simpl never.
#[local] Arguments spend : simpl never.

Section Exact.
Open Scope Q_scope.
Abbreviation Bucket := (@Bucket Q).
Abbreviation RateLimiter := (@RateLimiter Q).

Lemma d_min_l (a b : Q) : d_min a b <= a.
Proof.
  unfold d_min. cbn. destruct (Qle_bool a b) eqn:E; cbn; [lra|].
  apply not_true_iff_false in E. rewrite Qle_bool_iff in E. lra.
Qed.
Lemma d_min_r (a b : Q) : d_min a b <= b.
Proof.
  unfold d_min. cbn. destruct (Qle_bool a b) eqn:E; cbn; [|lra].
  by apply Qle_bool_iff in E.
Qed.
Lemma d_min_glb (a b c : Q) : c <= a -> c <= b -> c <= d_min a b.
Proof. unfold d_min. by case_match. Qed.

Lemma secs_sub t2 t1 t0 :
  @d_seconds Q _ (t2 - t0)%Z == @d_seconds Q _ (t2 - t1)%Z + @d_seconds Q _ (t1 - t0)%Z.
Proof. cbn. unfold Qeq, Qplus. cbn. lia. Qed.
Lemma secs_diag t : @d_seconds Q _ (t - t)%Z == 0.
Proof. rewrite Z.sub_diag. done. Qed.
Lemma secs_nonneg t1 t2 : (t1 <= t2)%Z -> 0 <= @d_seconds Q _ (t2 - t1)%Z.
Proof. intros. cbn. unfold Qle. cbn. lia. Qed.

(** The tokens a bucket holds at [now], refill included. *)
Definition credit (rl : RateLimiter) (b : Bucket) (now : Z) : Q :=
  d_min (burst_ rl) (tokens b + d_seconds (now - last_refill b) * rate_ rl).
#[local] Arguments credit : simpl never.

(** [0 <= tokens <= burst] and no refill instant in the future. *)
Definition bucket_wf (rl : RateLimiter) (now : Z) (b : Bucket) : Prop :=
  0 <= tokens b /\ tokens b <= burst_ rl /\ (last_refill b <= now)%Z.

Record wf (rl : RateLimiter) (now : Z) : Prop := {
  wf_rate : 0 <= rate_ rl;
  wf_burst : 1 <= burst_ rl;
  wf_buckets : map_Forall (fun _ => bucket_wf rl now) (buckets_ rl);
  wf_overflow : bucket_wf rl now (overflow_ rl)
}.

Lemma bucket_wf_later rl b t t' : (t <= t')%Z -> bucket_wf rl t b -> bucket_wf rl t' b.
Proof. intros ? (? & ? & ?). split_and!; [done|done|lia]. Qed.

Lemma wf_later rl t t' : (t <= t')%Z -> wf rl t -> wf rl t'.
Proof.
  intros ? [? ? Hb ?]. split; [done|done| |by eapply bucket_wf_later].
  intros ip b Hl. eapply bucket_wf_later; [done|]. by eapply Hb.
Qed.

Lemma credit_nonneg rl b now :
  0 <= rate_ rl -> 1 <= burst_ rl -> bucket_wf rl now b -> 0 <= credit rl b now.
Proof.
  intros ? ? (? & ? & Hl). apply d_min_glb; [lra|].
  pose proof (Qmult_le_0_compat _ _ (secs_nonneg _ _ Hl) H). lra.
Qed.

Lemma credit_at rl b now : last_refill b = now -> credit rl b now <= tokens b.
Proof.
  intros <-. unfold credit.
  pose proof (d_min_r (burst_ rl)
    (tokens b + d_seconds (last_refill b - last_refill b) * rate_ rl)) as Hm.
  rewrite secs_diag in Hm at 2. lra.
Qed.

Lemma spend_cases rl b now :
  (1 <= credit rl b now /\ spend rl b now = (true, mk_bucket (credit rl b now - 1) now)) \/
  (credit rl b now < 1 /\ spend rl b now = (false, mk_bucket (credit rl b now) now)).
Proof.
  unfold spend, credit. cbn -[Qle_bool d_min d_seconds].
  destruct (Qle_bool 1 _) eqn:E.
  - left. by apply Qle_bool_iff in E.
  - right. split; [|done]. apply not_true_iff_false in E. rewrite Qle_bool_iff in E. lra.
Qed.

Lemma spend_wf rl b now :
  0 <= rate_ rl -> 1 <= burst_ rl -> bucket_wf rl now b ->
  bucket_wf rl now (spend rl b now).2.
Proof.
  intros Hr Hb Hw. pose proof (credit_nonneg rl b now Hr Hb Hw).
  pose proof (d_min_l (burst_ rl) (tokens b + d_seconds (now - last_refill b) * rate_ rl)).
  fold (credit rl b now) in *.
  destruct (spend_cases rl b now) as [[? ->]|[? ->]]; unfold bucket_wf; cbn; split_and!; lra || lia.
Qed.

Lemma full_credit rl b now : full_at rl now b = true -> credit rl b now == burst_ rl.
Proof.
  unfold full_at, credit. cbn -[Qle_bool d_min d_seconds]. intros Hf%Qle_bool_iff.
  apply Qle_antisym; [apply d_min_l|]. apply d_min_glb; lra.
Qed.

(** What address [ip] can draw on at [now]: its own bucket, or a fresh one. *)
Definition own (rl : RateLimiter) (ip now : Z) : Q :=
  match buckets_ rl !! ip with
  | Some b => credit rl b now
  | None => burst_ rl
  end.
(** ... plus what the shared overflow bucket holds. *)
Definition potential (rl : RateLimiter) (ip now : Z) : Q :=
  own rl ip now + credit rl (overflow_ rl) now.

Lemma own_prune rl ip now : own (prune_locked rl now) ip now == own rl ip now.
Proof.
  unfold own, prune_locked. cbn. rewrite map_lookup_filter.
  destruct (buckets_ rl !! ip) as [b|]; cbn; [|done].
  case_guard as Hf; cbn; [done|]. symmetry. apply full_credit.
  by apply not_false_is_true.
Qed.

Lemma prune_wf rl now : wf rl now -> wf (prune_locked rl now) now.
Proof.
  intros [? ? Hb ?]. split; try done. intros ip b Hl.
  apply map_lookup_filter_Some in Hl as [Hl _]. by eapply Hb.
Qed.

Lemma spend_credit rl b now :
  credit rl (spend rl b now).2 now + (if (spend rl b now).1 then 1 else 0) <= credit rl b now.
Proof.
  destruct (spend_cases rl b now) as [[? ->]|[? ->]]; cbn [fst snd].
  - pose proof (credit_at rl (mk_bucket (credit rl b now - 1) now) now eq_refl) as Hc.
    cbn [tokens] in Hc. lra.
  - pose proof (credit_at rl (mk_bucket (credit rl b now) now) now eq_refl) as Hc.
    cbn [tokens] in Hc. lra.
Qed.

(** The three outcomes of [allow], each as the bucket it charges. *)
Inductive allow_case (rl : RateLimiter) (ip now : Z) : bool * RateLimiter -> Prop :=
| charge_own b :
    buckets_ rl !! ip = Some b ->
    allow_case rl ip now
      ((spend rl b now).1,
       mk_limiter (rate_ rl) (burst_ rl) (<[ip := (spend rl b now).2]> (buckets_ rl)) (overflow_ rl))
| charge_overflow rl' :
    buckets_ rl !! ip = None -> rl' = prune_locked rl now ->
    allow_case rl ip now
      ((spend rl' (overflow_ rl') now).1,
       mk_limiter (rate_ rl) (burst_ rl) (buckets_ rl') (spend rl' (overflow_ rl') now).2)
| charge_fresh rl' :
    buckets_ rl !! ip = None -> rl' = rl \/ rl' = prune_locked rl now ->
    allow_case rl ip now
      (true, mk_limiter (rate_ rl) (burst_ rl)
               (<[ip := mk_bucket (burst_ rl - 1) now]> (buckets_ rl')) (overflow_ rl)).

Lemma allow_cases rl ip now : allow_case rl ip now (allow rl ip now).
Proof.
  unfold allow. destruct (buckets_ rl !! ip) as [b|] eqn:E.
  - pose proof (charge_own rl ip now b E) as Hc. by destruct (spend rl b now).
  - destruct (table_full rl) eqn:Ef.
    + destruct (table_full (prune_locked rl now)).
      * pose proof (charge_overflow rl ip now _ E eq_refl) as Hc.
        by destruct (spend (prune_locked rl now) _ now).
      * by apply (charge_fresh rl ip now (prune_locked rl now)); [|right].
    + rewrite Ef. by apply (charge_fresh rl ip now rl); [|left].
Qed.

Lemma own_insert rl x ip b now o :
  own (mk_limiter (rate_ rl) (burst_ rl) (<[ip := b]> (buckets_ rl)) o) x now
  = if decide (ip = x) then credit rl b now else own rl x now.
Proof. unfold own. cbn. rewrite lookup_insert. by case_decide. Qed.

Definition charged (ok : bool) (ip x : Z) : Q := if ok && (ip =? x)%Z then 1 else 0.

Lemma allow_potential rl ip x now :
  wf rl now ->
  wf (allow rl ip now).2 now /\
  potential (allow rl ip now).2 x now + charged (allow rl ip now).1 ip x <= potential rl x now.
Proof.
  intros Hwf. pose proof Hwf as [Hr Hb Hbs Ho]. unfold potential, charged.
  destruct (allow_cases rl ip now) as [b Hl|rl' Hl ->|rl' Hl Hrl]; cbn [fst snd].
  - split.
    + split; try done. apply (map_Forall_insert_2 (fun _ => bucket_wf rl now)); [|done].
      apply spend_wf; [done..|]. by eapply Hbs.
    + rewrite own_insert. cbn [overflow_]. pose proof (spend_credit rl b now) as Hs.
      change (credit (mk_limiter _ _ _ _) (overflow_ rl) now) with (credit rl (overflow_ rl) now).
      case_decide as Hx; [subst x; rewrite Z.eqb_refl, andb_true_r; unfold own; rewrite Hl; lra|].
      apply Z.eqb_neq in Hx. rewrite Hx, andb_false_r. lra.
  - pose proof (prune_wf rl now Hwf) as Hp. pose proof (own_prune rl x now) as Hown.
    pose proof (spend_credit (prune_locked rl now) (overflow_ rl) now) as Hs. split.
    + split; [done|done|apply Hp|]. by apply (spend_wf (prune_locked rl now)).
    + change (own (mk_limiter _ _ _ _) x now) with (own (prune_locked rl now) x now).
      change (credit (mk_limiter _ _ _ _) ?b now) with (credit (prune_locked rl now) b now).
      change (credit rl (overflow_ rl) now) with (credit (prune_locked rl now) (overflow_ rl) now).
      cbn [overflow_ prune_locked] in *.
      destruct (spend _ _ _).1, (ip =? x)%Z; cbn [andb]; lra.
  - assert (wf rl' now /\ own rl' x now == own rl x now /\ rate_ rl' = rate_ rl /\ burst_ rl' = burst_ rl)
      as (Hwf' & Hown & Hr' & Hb').
    { destruct Hrl as [-> | ->]; [by split_and!|]. split; [by apply prune_wf|].
      split; [apply own_prune|done]. }
    split.
    + split; try done. apply map_Forall_insert_2.
      * unfold bucket_wf. cbn. split_and!; lra || lia.
      * destruct Hwf' as [_ _ Hbs' _]. intros i b' Hi. specialize (Hbs' i b' Hi).
        unfold bucket_wf in *. cbn. by rewrite <- Hb'.
    + rewrite <- Hr', <- Hb'. rewrite own_insert, Hb'. cbn [overflow_].
      replace (credit (mk_limiter _ _ _ _) (overflow_ rl) now) with (credit rl (overflow_ rl) now)
        by (unfold credit; cbn; by rewrite Hr').
      case_decide as Hx.
      * subst x. rewrite Z.eqb_refl. cbn [andb]. unfold own at 1. rewrite Hl.
        pose proof (credit_at rl' (mk_bucket (burst_ rl - 1) now) now eq_refl) as Hc.
        cbn [tokens] in Hc. lra.
      * apply Z.eqb_neq in Hx. rewrite Hx. cbn [andb]. lra.
Qed.

(** ** Histories *)

Fixpoint nondecreasing (t0 : Z) (calls : list (Z * Z)) : Prop :=
  match calls with
  | [] => True
  | (_, t) :: calls' => (t0 <= t)%Z /\ nondecreasing t calls'
  end.
Fixpoint end_time (t0 : Z) (calls : list (Z * Z)) : Z :=
  match calls with [] => t0 | (_, t) :: calls' => end_time t calls' end.

(** How many of the calls for address [x] were allowed. *)
Fixpoint admitted (x : Z) (calls : list (Z * Z)) (oks : list bool) : Q :=
  match calls, oks with
  | (ip, _) :: calls', ok :: oks' => charged ok ip x + admitted x calls' oks'
  | _, _ => 0
  end.

Lemma end_time_ge t0 calls : nondecreasing t0 calls -> (t0 <= end_time t0 calls)%Z.
Proof.
  revert t0. induction calls as [|[ip t] calls IH]; intros t0; cbn; [lia|].
  intros [? Hn]. specialize (IH t Hn). lia.
Qed.

Lemma d_min_case (a b : Q) : d_min a b = a \/ d_min a b = b.
Proof. unfold d_min. case_match; auto. Qed.

Lemma credit_later rl b t t' :
  0 <= rate_ rl -> (t <= t')%Z ->
  credit rl b t' <= credit rl b t + d_seconds (t' - t) * rate_ rl.
Proof.
  intros Hr Ht. pose proof (Qmult_le_0_compat _ _ (secs_nonneg _ _ Ht) Hr).
  assert (d_seconds (t' - last_refill b) * rate_ rl
          == d_seconds (t' - t) * rate_ rl + d_seconds (t - last_refill b) * rate_ rl) as Hs.
  { rewrite (secs_sub t' t). ring. }
  unfold credit at 2. destruct (d_min_case (burst_ rl)
    (tokens b + d_seconds (t - last_refill b) * rate_ rl)) as [-> | ->].
  - pose proof (d_min_l (burst_ rl) (tokens b + d_seconds (t' - last_refill b) * rate_ rl)).
    unfold credit. lra.
  - pose proof (d_min_r (burst_ rl) (tokens b + d_seconds (t' - last_refill b) * rate_ rl)).
    unfold credit. lra.
Qed.

Lemma potential_later rl x t t' :
  wf rl t -> (t <= t')%Z ->
  potential rl x t' <= potential rl x t + 2 * (d_seconds (t' - t) * rate_ rl).
Proof.
  intros [Hr Hb Hbs Ho] Ht. unfold potential.
  pose proof (credit_later rl (overflow_ rl) t t' Hr Ht).
  pose proof (Qmult_le_0_compat _ _ (secs_nonneg _ _ Ht) Hr).
  unfold own. destruct (buckets_ rl !! x) as [b|]; [|lra].
  pose proof (credit_later rl b t t' Hr Ht). lra.
Qed.

Lemma potential_nonneg rl x t : wf rl t -> 0 <= potential rl x t.
Proof.
  intros [Hr Hb Hbs Ho]. unfold potential, own.
  pose proof (credit_nonneg rl (overflow_ rl) t Hr Hb Ho).
  destruct (buckets_ rl !! x) as [b|] eqn:E; [|lra].
  pose proof (credit_nonneg rl b t Hr Hb (Hbs x b E)). lra.
Qed.

Lemma admitted_potential rl t0 calls x :
  wf rl t0 -> nondecreasing t0 calls ->
  admitted x calls (allow_all rl calls).1
  <= potential rl x t0 + 2 * (d_seconds (end_time t0 calls - t0) * rate_ rl).
Proof.
  revert rl t0. induction calls as [|[ip t] calls IH]; intros rl t0 Hwf; cbn [nondecreasing].
  - intros _. cbn [allow_all fst admitted end_time]. rewrite secs_diag.
    pose proof (potential_nonneg rl x t0 Hwf). lra.
  - intros [Ht Hn]. cbn [allow_all]. pose proof (wf_later _ _ _ Ht Hwf) as Hwt.
    destruct (allow_potential rl ip x t Hwt) as [Hwf' Hpot].
    destruct (allow_params rl ip t) as [Hrate _].
    destruct (allow rl ip t) as [ok rl']. cbn [fst snd] in *.
    specialize (IH rl' t Hwf' Hn). destruct (allow_all rl' calls) as [oks rl''].
    cbn [fst admitted end_time] in *. rewrite Hrate in IH.
    pose proof (potential_later rl x t0 t Hwf Ht).
    assert (d_seconds (end_time t calls - t0) * rate_ rl
      == d_seconds (end_time t calls - t) * rate_ rl + d_seconds (t - t0) * rate_ rl) as ->.
    { rewrite (secs_sub _ t). ring. }
    lra.
Qed.

Lemma new_limiter_wf rate burst now : 0 <= rate -> 1 <= burst -> wf (new_limiter rate burst now) now.
Proof.
  intros ? ?. split; cbn; [done|done|apply map_Forall_empty|].
  unfold bucket_wf. cbn. split_and!; lra || lia.
Qed.
End Exact.

(** ** Full buckets carry no state *)

(** The one fact about comparison pruning relies on. *)
Class DoubleOrder (D : Type) `{Double D} : Prop :=
  leb_not_gt : forall a b : D, d_leb a b = true -> d_ltb b a = false.

#[export] Instance exact_order : DoubleOrder Q.
Proof. intros a b. cbn. by intros ->. Qed.

Lemma SFcompare_antisym (a b : spec_float) :
  SFcompare b a = CompOpp <$> SFcompare a b.
Proof.
  destruct a as [[]|[]| |[] m e], b as [[]|[]| |[] m' e']; cbn; try done;
    rewrite (Z.compare_antisym e e'); destruct (e ?= e')%Z; cbn; try done;
    change (Pos.compare_cont Eq m' m) with (m' ?= m)%positive;
    change (Pos.compare_cont Eq m m') with (m ?= m')%positive;
    rewrite (Pos.compare_antisym m m'); by destruct (m ?= m')%positive.
Qed.

#[export] Instance binary64_order : DoubleOrder spec_float.
Proof.
  intros a b. cbn. unfold SFleb, SFltb. rewrite (SFcompare_antisym a b).
  by destruct (SFcompare a b) as [[]|].
Qed.

Lemma spend_full {D} `{DoubleOrder D} (rl : @RateLimiter D) b now :
  full_at rl now b = true -> d_leb d_one (burst_ rl) = true ->
  spend rl b now = (true, mk_bucket (d_sub (burst_ rl) d_one) now).
Proof.
  unfold full_at, spend, d_min. intros Hf H1. by rewrite (leb_not_gt _ _ Hf), H1.
Qed.

(** The limiter with the bucket of [ip] dropped. *)
Definition forget {D} (rl : @RateLimiter D) (ip : Z) : @RateLimiter D :=
  mk_limiter (rate_ rl) (burst_ rl) (delete ip (buckets_ rl)) (overflow_ rl).

(** ** Properties *)

(** Over any history of calls the table never tracks more than [kMaxBuckets]
    addresses, in binary64 as in exact arithmetic. *)
Theorem allow_all_bounded {D} `{Double D} (rate burst : D) (start : Z) (calls : list (Z * Z)) :
  bounded (allow_all (new_limiter rate burst start) calls).2.
Proof.
  assert (bounded (new_limiter rate burst start)) as Hb by done.
  revert Hb. generalize (new_limiter rate burst start).
  induction calls as [|[ip now] calls IH]; intros rl Hb; [done|].
  cbn [allow_all]. pose proof (allow_bounded rl ip now Hb) as Hb'.
  destruct (allow rl ip now) as [ok rl']. specialize (IH rl' Hb').
  by destruct (allow_all rl' calls).
Qed.

(** Admission bound. From a new limiter, over any interleaved history of calls
    in time order, one address is let through at most [2 * (burst + rate * T)]
    times in [T] seconds: once for its own bucket and once for the shared overflow
    bucket, however the table fills, prunes and overflows in between. *)
Theorem admission_bound (rate burst : Q) (t0 : Z) (calls : list (Z * Z)) (x : Z) :
  (0 <= rate)%Q -> (1 <= burst)%Q -> nondecreasing t0 calls ->
  (admitted x calls (allow_all (new_limiter rate burst t0) calls).1
   <= 2 * (burst + rate * d_seconds (end_time t0 calls - t0)%Z))%Q.
Proof.
  intros Hr Hb Hn. pose proof (new_limiter_wf rate burst t0 Hr Hb) as Hwf.
  pose proof (admitted_potential _ t0 calls x Hwf Hn) as Ha.
  pose proof (d_min_l burst (burst + d_seconds (t0 - t0)%Z * rate)%Q) as Hm.
  assert (potential (new_limiter rate burst t0) x t0 <= burst + burst)%Q as Hp.
  { unfold potential, own, credit. cbn [buckets_ new_limiter overflow_ tokens last_refill burst_ rate_].
    rewrite lookup_empty. lra. }
  cbn [rate_ new_limiter] in *. lra.
Qed.

Lemma admission_bound_witness :
  (admitted 7 [(7, 0); (7, 0); (8, 5); (7, 1000000000)]%Z
     (allow_all (new_limiter 1 1 0) [(7, 0); (7, 0); (8, 5); (7, 1000000000)]%Z).1
   <= 2 * (1 + 1 * d_seconds (end_time 0 [(7, 0); (7, 0); (8, 5); (7, 1000000000)]%Z - 0)%Z))%Q.
Proof. apply (admission_bound 1 1 0); cbn; first [lra | lia | split_and!; lia]. Defined.

(** Pruning is free. Dropping a bucket whose refill is full (what
    [prune_locked] erases) changes neither the answer to that address's next call
    nor the state it leaves, in any arithmetic whose comparisons are coherent. *)
Theorem prune_free {D} `{DoubleOrder D} (rl : @RateLimiter D) (ip now : Z) (b : Bucket) :
  buckets_ rl !! ip = Some b -> full_at rl now b = true ->
  d_leb d_one (burst_ rl) = true -> table_full (forget rl ip) = false ->
  allow rl ip now = allow (forget rl ip) ip now.
Proof.
  intros Hl Hf H1 Ht. unfold allow. rewrite Hl, spend_full by done. cbn.
  rewrite lookup_delete_eq, Ht, Ht. cbn. by rewrite insert_delete_eq.
Qed.

Definition idle_limiter {D} `{Double D} (one : D) : @RateLimiter D :=
  mk_limiter one one {[ 7%Z := mk_bucket (d_sub one one) 0%Z ]} (mk_bucket one 0%Z).

Lemma prune_free_witness :
  allow (idle_limiter (b64_of_Z 1)) 7 2000000000
  = allow (forget (idle_limiter (b64_of_Z 1)) 7) 7 2000000000 /\
  (allow (idle_limiter (b64_of_Z 1)) 7 2000000000).1 = true.
Proof.
  split; [|by vm_compute].
  apply (prune_free _ _ _ (mk_bucket (d_sub (b64_of_Z 1) (b64_of_Z 1)) 0)); by vm_compute.
Defined.
