(* ===== verification/Uptime.v ===== *)
(** * Uptime: durations as text

    Models [human_duration] of src/src/util/uptime.hpp, which the status endpoints and
    the supervisor's reports print. *)
From S2P Require Import Prelude Text.
Open Scope Z_scope.

(** [%02lld] of a non-negative number. *)
Definition pad2 (z : Z) : bytes := if z <? 10 then lit "0" ++ to_string z else to_string z.

Definition minute : Z := 60.
Definition hour : Z := 3600.
Definition day : Z := 86400.

Definition human_duration (secs : Z) : bytes :=
  let secs := if secs <? 0 then 0 else secs in
  take 31
    (if secs <? minute then to_string secs ++ lit "s"
     else if secs <? hour then to_string (secs `quot` 60) ++ lit "m " ++ pad2 (secs `rem` 60) ++ lit "s"
     else if secs <? day then
       to_string (secs `quot` 3600) ++ lit "h " ++ pad2 ((secs `rem` 3600) `quot` 60) ++ lit "m"
     else to_string (secs `quot` 86400) ++ lit "d " ++ pad2 ((secs `rem` 86400) `quot` 3600) ++ lit "h").

(** ** Durations *)

(** The units of a duration: seconds in each, and its letter. *)
Definition units : list (Z * bytes * Z * bytes) :=
  [(60, lit "m ", 1, lit "s"); (3600, lit "h ", 60, lit "m"); (86400, lit "d ", 3600, lit "h")].

Lemma pad2_length z : 0 <= z < 100 -> (length (pad2 z) <= 2)%nat.
Proof.
  intros Hz. unfold pad2. destruct (Z.ltb_spec z 10).
  - rewrite length_app. change (length (lit "0")) with 1%nat.
    pose proof (to_string_length z 0 ltac:(cbn; lia)). lia.
  - apply (to_string_length z 1). cbn. lia.
Qed.

Lemma duration_text_short hi lo (a b : bytes) :
  0 <= hi < 10 ^ 18 -> 0 <= lo < 100 -> (length a <= 2)%nat -> (length b <= 1)%nat ->
  take 31 (to_string hi ++ a ++ pad2 lo ++ b) = to_string hi ++ a ++ pad2 lo ++ b.
Proof.
  intros Hhi Hlo Ha Hb. apply take_ge. rewrite !length_app.
  pose proof (to_string_length hi 17 ltac:(cbn; lia)). pose proof (pad2_length lo Hlo). lia.
Qed.

Lemma duration_parts secs big k small :
  0 < small -> 0 < k -> big = k * small -> big <= secs ->
  let hi := secs / big in let lo := secs mod big / small in
  hi * big + lo * small <= secs < hi * big + lo * small + small /\ 0 < hi /\ 0 <= lo < k /\ hi <= secs.
Proof.
  intros Hs Hk Hb Hle hi lo.
  pose proof (Z.div_mod secs big ltac:(nia)). pose proof (Z.mod_pos_bound secs big ltac:(nia)).
  pose proof (Z.div_mod (secs mod big) small ltac:(lia)).
  pose proof (Z.mod_pos_bound (secs mod big) small ltac:(lia)).
  subst hi lo. generalize dependent (secs / big). intros q Hq.
  generalize dependent ((secs mod big) mod small). generalize dependent (secs mod big / small).
  generalize dependent (secs mod big). intros m Hq Hm l r Hl Hr. subst big.
  assert (0 <= q) by nia. repeat split; nia.
Qed.

(** A duration is printed to the nearest lower multiple of the smaller of its two
    units, with both parts in range, and the 32-byte buffer never cuts it. *)
Theorem human_duration_spec secs :
  0 <= secs < 10 ^ 18 ->
  (secs < 60 /\ human_duration secs = to_string secs ++ lit "s") \/
  exists big bign small smalln hi lo,
    (big, bign, small, smalln) ∈ units /\
    human_duration secs = to_string hi ++ bign ++ pad2 lo ++ smalln /\
    hi * big + lo * small <= secs < hi * big + lo * small + small /\
    0 < hi /\ 0 <= lo < big / small.
Proof.
  intros Hs. unfold human_duration, minute, hour, day.
  rewrite (proj2 (Z.ltb_ge secs 0)) by lia. cbv zeta.
  rewrite !Z.quot_div_nonneg, !Z.rem_mod_nonneg by (try lia; apply Z.rem_nonneg; lia).
  destruct (Z.ltb_spec secs 60); [left|right].
  { split; [done|]. apply take_ge. rewrite length_app. change (length (lit "s")) with 1%nat.
    pose proof (to_string_length secs 1 ltac:(cbn; lia)). lia. }
  assert (forall big k small, 0 < small -> 1 < k <= 60 -> big = k * small -> big <= secs ->
            let hi := secs / big in let lo := secs mod big / small in
            hi * big + lo * small <= secs < hi * big + lo * small + small /\ 0 < hi /\ 0 <= lo < k /\
            0 <= hi < 10 ^ 18 /\ 0 <= lo < 100) as Hu.
  { clear -Hs. intros big k small Hsm Hk Hbig Hle hi lo.
    destruct (duration_parts secs big k small) as (H1 & H2 & H3 & H4); [lia..|].
    unfold hi, lo. repeat split; lia. }
  destruct (Z.ltb_spec secs 3600); [|destruct (Z.ltb_spec secs 86400)].
  - destruct (Hu 60 60 1) as (U1 & U2 & U3 & U4 & U5); [lia..|]. rewrite Z.div_1_r in *.
    exists 60, (lit "m "), 1, (lit "s"), (secs / 60), (secs mod 60).
    split; [by left|]. split; [by apply duration_text_short; try apply Nat.leb_le|done].
  - destruct (Hu 3600 60 60) as (U1 & U2 & U3 & U4 & U5); [lia..|].
    exists 3600, (lit "h "), 60, (lit "m"), (secs / 3600), (secs mod 3600 / 60).
    split; [by right; left|]. split; [by apply duration_text_short; try apply Nat.leb_le|done].
  - destruct (Hu 86400 24 3600) as (U1 & U2 & U3 & U4 & U5); [lia..|].
    exists 86400, (lit "d "), 3600, (lit "h"), (secs / 86400), (secs mod 86400 / 3600).
    split; [by right; right; left|]. split; [by apply duration_text_short; try apply Nat.leb_le|done].
Qed.

Example human_duration_spec_witness :
  human_duration 93784 = lit "1d 02h" /\
  ((93784 < 60 /\ human_duration 93784 = to_string 93784 ++ lit "s") \/
   exists big bign small smalln hi lo,
     (big, bign, small, smalln) ∈ units /\
     human_duration 93784 = to_string hi ++ bign ++ pad2 lo ++ smalln /\
     hi * big + lo * small <= 93784 < hi * big + lo * small + small /\
     0 < hi /\ 0 <= lo < big / small).
Proof. split; [reflexivity|]. apply human_duration_spec. lia. Defined.
