(* ===== verification/Supervisor.v ===== *)
(** * Supervisor: the process supervisor

    Models src/src/supervisor/{service.h,supervisor.h,supervisor.cpp}: the runtime
    state of the backends, and every operation that runs on the supervisor's loop
    thread, as a state-passing computation over [World]. The operating system is a
    set of oracles, [OS]: the k-th reading of each clock, the k-th result of [fork],
    the k-th health probe. A [Service&] of the code is an index into [services_]. *)
From stdpp Require Import sorting.
From S2P Require Import Prelude Text ServiceConfig.
Open Scope Z_scope.

Inductive ServiceState := Stopped | Running | Backoff | Failed | Quarantined.
#[export] Instance ServiceState_eq_dec : EqDecision ServiceState.
Proof. solve_decision. Defined.

(** [struct Service]. Instants are nanoseconds; a time_point{} is 0. *)
Record Service := mk_svc {
  cfg : ServiceConfig;
  pid : Z;
  state : ServiceState;
  restart_count : Z;
  current_backoff_sec : Z;
  wants_restart : bool;
  health_known : bool;
  healthy : bool;
  failure_count : Z;
  recent_failures : list Z;
  ever_failed : bool;
  last_failure_wall : Z;
  last_failure_mono : Z;
  last_failure_reason : bytes;
  is_down : bool;
  down_since_wall : Z;
  down_since_mono : Z;
  next_restart : Z;
  last_start : Z;
  last_health : Z
}.
#[export] Instance eta_Service : Eta Service := fun s =>
  mk_svc (cfg s) (pid s) (state s) (restart_count s) (current_backoff_sec s) (wants_restart s)
    (health_known s) (healthy s) (failure_count s) (recent_failures s) (ever_failed s)
    (last_failure_wall s) (last_failure_mono s) (last_failure_reason s) (is_down s)
    (down_since_wall s) (down_since_mono s) (next_restart s) (last_start s) (last_health s).

(** [Service s; s.cfg = c]. *)
Definition new_service (c : ServiceConfig) : Service :=
  mk_svc c (-1) Stopped 0 0 false false false 0 [] false 0 0 [] false 0 0 0 0 0.

Record ServiceUptime := mk_uptime { u_name : bytes; u_running : bool; u_since : Z }.

(** What the supervisor asks of the kernel, in order. *)
Inductive action :=
  | Forked (pid : Z) (argv : list bytes) (workdir : bytes)
  | Killed (pid sig : Z)
  | StopLoop.

(** The system the supervisor runs on. *)
Record OS := mk_os {
  os_mono : nat -> Z;            (* steady_clock::now(), per reading *)
  os_wall : nat -> Z;            (* system_clock::now(), per reading *)
  os_fork : nat -> Z;            (* fork() in the parent *)
  os_probe : nat -> bool;        (* tcp_probe of a health check *)
  os_strsignal : Z -> option bytes
}.

Record World := mk_world {
  services_ : list Service;
  uptime_ : list ServiceUptime;
  shutting_down_ : bool;
  kill_deadline_ : Z;
  loop_running : bool;
  actions : list action;
  mono_reads : nat; wall_reads : nat; forks : nat; probes : nat
}.
#[export] Instance eta_World : Eta World := fun w =>
  mk_world (services_ w) (uptime_ w) (shutting_down_ w) (kill_deadline_ w) (loop_running w)
    (actions w) (mono_reads w) (wall_reads w) (forks w) (probes w).

Definition kGraceSec : Z := 5.
Definition kStableSec : Z := 10.
Definition kMaxFailures : Z := 5.
Definition second : Z := 1000000000.
Definition kFailureWindow : Z := 24 * 3600 * second.
Definition SIGKILL : Z := 9.
Definition SIGTERM : Z := 15.

(** [duration_cast<seconds>]: truncation. *)
Definition to_seconds (ns : Z) : Z := ns `quot` second.

(** The status word of [waitpid]. *)
Definition WIFEXITED (status : Z) : bool := Z.land status 127 =? 0.
Definition WEXITSTATUS (status : Z) : Z := Z.land (Z.shiftr status 8) 255.
Definition WTERMSIG (status : Z) : Z := Z.land status 127.
Definition WIFSIGNALED (status : Z) : bool :=
  negb (WTERMSIG status =? 0) && negb (WTERMSIG status =? 127).

(** [Supervisor::Supervisor]. *)
Definition init_world (configs : list ServiceConfig) : World :=
  mk_world (new_service <$> configs)
    ((fun c => mk_uptime (cfg_name c) false 0) <$> configs)
    false 0 true [] 0 0 0 0.

Section Supervisor.
Context (os : OS).

Definition steady_now : M World Z :=
  let! k := gets mono_reads in modify (fun w => w <| mono_reads := S k |>);; mret (os_mono os k).
Definition wall_now : M World Z :=
  let! k := gets wall_reads in modify (fun w => w <| wall_reads := S k |>);; mret (os_wall os k).
Definition sys_fork : M World Z :=
  let! k := gets forks in modify (fun w => w <| forks := S k |>);; mret (os_fork os k).
Definition sys_probe : M World bool :=
  let! k := gets probes in modify (fun w => w <| probes := S k |>);; mret (os_probe os k).
Definition act (a : action) : M World unit :=
  modify (fun w => w <| actions := actions w ++ [a] |>).

(** [services_[i]], as a reference. *)
Definition upd (i : nat) (f : Service -> Service) : M World unit :=
  modify (fun w => w <| services_ := alter f i (services_ w) |>).
Definition with_service (i : nat) (k : Service -> M World unit) : M World unit :=
  let! s := gets (fun w => services_ w !! i) in
  match s with Some s => k s | None => mret tt end.

Definition publish_uptime (i : nat) : M World unit :=
  with_service i (fun s =>
    modify (fun w => w <| uptime_ :=
      alter (fun u => mk_uptime (u_name u) (0 <? pid s) (last_start s)) i (uptime_ w) |>)).

(** The update [schedule_restart] makes, at instant [now]. *)
Definition backed_off (now : Z) (s : Service) : Service :=
  let ran := to_seconds (now - last_start s) in
  let backoff :=
    if kStableSec <=? ran then cfg_backoff_min_sec (cfg s)
    else if current_backoff_sec s =? 0 then cfg_backoff_min_sec (cfg s)
    else wrap_s 32 (current_backoff_sec s * 2) `min` cfg_backoff_max_sec (cfg s) in
  s <| current_backoff_sec := backoff |>
    <| restart_count := wrap_s 32 (restart_count s + 1) |>
    <| state := Backoff |>
    <| next_restart := now + backoff * second |>.

Definition schedule_restart (i : nat) : M World unit :=
  let! now := steady_now in upd i (backed_off now).

(** [spawn]. In the child, [fork] returns 0 and the code below it ends in
    [execv] or [_exit]; only the parent's side touches the supervisor's state. *)
Definition spawn (i : nat) : M World unit :=
  with_service i (fun s =>
    let argv := cfg_exec (cfg s) :: cfg_args (cfg s) in
    let! p := sys_fork in
    if p <? 0 then schedule_restart i
    else
      act (Forked p argv (cfg_workdir (cfg s)));;
      let! now := steady_now in
      upd i (fun s => s <| pid := p |> <| state := Running |>
                        <| is_down := false |> <| last_start := now |>);;
      publish_uptime i).

Fixpoint prune (recent : list Z) (now : Z) : list Z :=
  match recent with
  | t :: recent' => if kFailureWindow <? now - t then prune recent' now else recent
  | [] => []
  end.
Definition prune_failures (now : Z) (s : Service) : Service :=
  s <| recent_failures := prune (recent_failures s) now |>.

Definition mark_down (i : nat) : M World unit :=
  with_service i (fun s =>
    if is_down s then mret tt
    else
      let! mono := steady_now in let! wall := wall_now in
      upd i (fun s => s <| is_down := true |> <| down_since_mono := mono |>
                        <| down_since_wall := wall |>)).

(** The text [record_failure] formats into [char reason[64]]. *)
Definition failure_reason (status : Z) : bytes :=
  take 63
    (if WIFEXITED status then lit "exit " ++ to_string (WEXITSTATUS status)
     else if WIFSIGNALED status then
       lit "signal " ++ to_string (WTERMSIG status) ++ lit " (" ++
       default (lit "?") (os_strsignal os (WTERMSIG status)) ++ lit ")"
     else lit "unknown").

Definition failed_at (now wall status : Z) (s : Service) : Service :=
  prune_failures now
    (s <| failure_count := wrap_s 32 (failure_count s + 1) |>
       <| ever_failed := true |>
       <| last_failure_mono := now |>
       <| last_failure_wall := wall |>
       <| last_failure_reason := failure_reason status |>
       <| recent_failures := recent_failures s ++ [now] |>).

Definition record_failure (i : nat) (status : Z) : M World unit :=
  let! now := steady_now in let! wall := wall_now in upd i (failed_at now wall status).

Fixpoint index_of (p : Service -> bool) (l : list Service) : option nat :=
  match l with
  | [] => None
  | s :: l' => if p s then Some O else S <$> index_of p l'
  end.
Definition find_by_pid (p : Z) (w : World) : option nat :=
  index_of (fun s => pid s =? p) (services_ w).
Definition find_by_name (name : bytes) (w : World) : option nat :=
  index_of (fun s => bool_decide (cfg_name (cfg s) = name)) (services_ w).

Definition finish_if_drained : M World unit :=
  let! drained := gets (fun w => forallb (fun s => negb (0 <? pid s)) (services_ w)) in
  when drained (modify (fun w => w <| loop_running := false |>);; act StopLoop).

(** What follows the exit of the service at [i]. *)
Definition after_exit (i : nat) (status : Z) : M World unit :=
  let! shutting := gets shutting_down_ in
  with_service i (fun s =>
    if shutting then upd i (fun s => s <| state := Stopped |>)
    else if wants_restart s then
      upd i (fun s => s <| wants_restart := false |> <| current_backoff_sec := 0 |>);;
      spawn i
    else
      record_failure i status;;
      with_service i (fun s =>
        if negb (cfg_autorestart (cfg s)) then
          upd i (fun s => s <| state := Failed |>);; mark_down i
        else if kMaxFailures <? Z.of_nat (length (recent_failures s)) then
          upd i (fun s => s <| state := Quarantined |>);; mark_down i
        else schedule_restart i)).

(** One turn of the [waitpid] loop. *)
Definition reap (ps : Z * Z) : M World unit :=
  let '(p, status) := ps in
  let! found := gets (find_by_pid p) in
  match found with
  | None => mret tt
  | Some i =>
      upd i (fun s => s <| pid := -1 |>);;
      publish_uptime i;;
      upd i (fun s => s <| health_known := false |>);;
      after_exit i status
  end.

(** The [waitpid] loop, given what successive [waitpid] calls report: it goes on while the
    reported pid is positive (0: no more dead children, -1: no children). *)
Fixpoint reap_all (reports : list (Z * Z)) : M World unit :=
  match reports with
  | [] => mret tt
  | ps :: reports' =>
      if 0 <? ps.1 then reap ps;; reap_all reports' else mret tt
  end.

Definition on_sigchld (reports : list (Z * Z)) : M World unit :=
  reap_all reports;;
  let! shutting := gets shutting_down_ in
  when shutting finish_if_drained.

(** The body of [on_tick]'s loop over the services. *)
Definition tick_service (now : Z) (i : nat) : M World unit :=
  with_service i (fun s =>
    when (bool_decide (state s = Backoff) && (next_restart s <=? now)) (spawn i));;
  with_service i (fun s =>
    when ((0 <? pid s) && negb (cfg_health_port (cfg s) =? 0) &&
          (cfg_health_interval_sec (cfg s) <=? to_seconds (now - last_health s)))
      (let! ok := sys_probe in
       upd i (fun s => s <| healthy := ok |> <| health_known := true |>
                         <| last_health := now |>))).

Definition kill_running (sig : Z) (i : nat) : M World unit :=
  with_service i (fun s => when (0 <? pid s) (act (Killed (pid s) sig))).

Definition indices : M World (list nat) := gets (fun w => seq 0 (length (services_ w))).

Definition on_tick : M World unit :=
  let! now := steady_now in
  let! shutting := gets shutting_down_ in
  let! ids := indices in
  if shutting then
    let! deadline := gets kill_deadline_ in
    when (deadline <=? now) (for_each ids (kill_running SIGKILL));;
    finish_if_drained
  else for_each ids (tick_service now).

Definition begin_shutdown : M World unit :=
  modify (fun w => w <| shutting_down_ := true |>);;
  let! now := steady_now in
  modify (fun w => w <| kill_deadline_ := now + kGraceSec * second |>);;
  let! ids := indices in
  for_each ids (fun i =>
    with_service i (fun s =>
      if 0 <? pid s then act (Killed (pid s) SIGTERM)
      else upd i (fun s => s <| state := Stopped |>)));;
  finish_if_drained.

Definition do_restart (name : bytes) : M World bool :=
  let! found := gets (find_by_name name) in
  match found with
  | None => mret false
  | Some i =>
      upd i (fun s => s <| recent_failures := [] |>);;
      with_service i (fun s =>
        if 0 <? pid s then
          upd i (fun s => s <| wants_restart := true |>);; act (Killed (pid s) SIGTERM)
        else
          upd i (fun s => s <| current_backoff_sec := 0 |> <| wants_restart := false |>);;
          spawn i);;
      mret true
  end.

(** [start], past the creation of its file descriptors: launch everything. *)
Definition start : M World unit :=
  let! ids := indices in for_each ids spawn.

(** ** The loop thread: events in the order it dispatches them *)

Inductive event :=
  | Sigchld (reports : list (Z * Z))
  | Tick
  | RestartTask (name : bytes)
  | ShutdownTask.

Definition handle (e : event) : M World unit :=
  match e with
  | Sigchld reports => on_sigchld reports
  | Tick => on_tick
  | RestartTask name => do_restart name;; mret tt
  | ShutdownTask => begin_shutdown
  end.

Inductive reachable (configs : list ServiceConfig) : World -> Prop :=
  | reach_start : reachable configs (run_state start (init_world configs))
  | reach_step w e : reachable configs w -> reachable configs (run_state (handle e) w).
End Supervisor.

(** ** Running the operations *)

(** Evaluate straight-line computations. *)
Ltac run_pure :=
  cbv [record_failure schedule_restart steady_now wall_now sys_fork sys_probe act upd
       bind mbind M_bind gets modify mret M_ret]; cbn.

Section Running.
Context (os : OS).
Implicit Types (w : World) (s : Service).

(** A world whose service [i] and its uptime entry are rewritten by pure functions. *)
Definition publish (s : Service) (u : ServiceUptime) : ServiceUptime :=
  mk_uptime (u_name u) (0 <? pid s) (last_start s).

Lemma run_with_service i k w s :
  services_ w !! i = Some s -> with_service i k w = k s w.
Proof. intros H. unfold with_service, bind, mbind, M_bind, gets. by rewrite H. Qed.

Lemma run_upd i f w : upd i f w = (tt, w <| services_ := alter f i (services_ w) |>).
Proof. done. Qed.

Lemma run_seq {A B} (m : M World A) (k : M World B) w : (m ;; k) w = k (m w).2.
Proof. unfold mbind, M_bind. by destruct (m w). Qed.

Lemma run_let {A B} (m : M World A) (k : A -> M World B) w : bind m k w = k (m w).1 (m w).2.
Proof. unfold bind, mbind, M_bind. by destruct (m w). Qed.

Lemma lookup_altered (f : Service -> Service) i (l : list Service) s :
  l !! i = Some s -> alter f i l !! i = Some (f s).
Proof. intros H. by rewrite list_lookup_alter_eq, H. Qed.

(** The child launched at instant [now] with pid [p]. *)
Definition launched (p now : Z) (s : Service) : Service :=
  s <| pid := p |> <| state := Running |> <| is_down := false |> <| last_start := now |>.

(** What [spawn] does to the service, for a result of [fork] and a clock reading. *)
Definition spawned (p now : Z) (s : Service) : Service :=
  if p <? 0 then backed_off now s else launched p now s.

Lemma run_publish i w s :
  services_ w !! i = Some s ->
  publish_uptime i w = (tt, w <| uptime_ := alter (publish s) i (uptime_ w) |>).
Proof. intros H. unfold publish_uptime. by rewrite (run_with_service _ _ _ _ H). Qed.

Lemma run_spawn i w s :
  services_ w !! i = Some s ->
  let p := os_fork os (forks w) in
  let now := os_mono os (mono_reads w) in
  (spawn os i w).2 =
    w <| services_ := alter (spawned p now) i (services_ w) |>
      <| uptime_ := if p <? 0 then uptime_ w
                    else alter (publish (launched p now s)) i (uptime_ w) |>
      <| actions := if p <? 0 then actions w
                    else actions w ++ [Forked p (cfg_exec (cfg s) :: cfg_args (cfg s)) (cfg_workdir (cfg s))] |>
      <| mono_reads := S (mono_reads w) |> <| forks := S (forks w) |>.
Proof.
  intros H. cbv zeta. unfold spawn. rewrite (run_with_service _ _ _ _ H).
  rewrite run_let. unfold sys_fork at 1. rewrite run_let. cbn [gets fst snd].
  rewrite run_seq. cbn [modify fst snd mret M_ret].
  unfold spawned. destruct (os_fork os (forks w) <? 0); [done|].
  rewrite run_seq, run_let, run_seq. unfold publish_uptime.
  erewrite run_with_service; [|by apply (lookup_altered (launched _ _))]. done.
Qed.

(** The published entry of a service: the uptime table mirrors the services. *)
Definition mirror (s : Service) : ServiceUptime :=
  mk_uptime (cfg_name (cfg s)) (0 <? pid s) (last_start s).
Definition mirrored w : Prop := uptime_ w = mirror <$> services_ w.

(** [w'] is [w] with service [i] replaced by [s'], its entry republished, and
    possibly later clocks. *)
Record acted w (i : nat) (s' : Service) w' : Prop := {
  acted_services : services_ w' = <[i := s']> (services_ w);
  acted_uptime : uptime_ w' = <[i := mirror s']> (uptime_ w);
  acted_shutting : shutting_down_ w' = shutting_down_ w;
  acted_loop : loop_running w' = loop_running w;
  acted_reads : (mono_reads w <= mono_reads w')%nat
}.

Lemma alter_insert {A} (f : A -> A) i (l : list A) x :
  l !! i = Some x -> alter f i l = <[i := f x]> l.
Proof.
  intros H. apply list_eq. intros j. destruct (decide (i = j)) as [<-|].
  - rewrite list_lookup_alter_eq, H, list_lookup_insert_eq; [done|by eapply lookup_lt_Some].
  - by rewrite list_lookup_alter_ne, list_lookup_insert_ne.
Qed.

Lemma mirrored_lookup w i s :
  mirrored w -> services_ w !! i = Some s -> uptime_ w !! i = Some (mirror s).
Proof. intros -> H. by rewrite list_lookup_fmap, H. Qed.

Lemma acted_mirrored w i s' w' : mirrored w -> acted w i s' w' -> mirrored w'.
Proof.
  intros Hm [Hs Hu _ _ _]. unfold mirrored. rewrite Hs, Hu, Hm. symmetry. apply list_fmap_insert.
Qed.

(** Changing only what the uptime table does not show needs no publication. *)
Lemma acted_quiet w i s s' w' :
  mirrored w -> services_ w !! i = Some s -> mirror s' = mirror s ->
  services_ w' = <[i := s']> (services_ w) -> uptime_ w' = uptime_ w ->
  shutting_down_ w' = shutting_down_ w -> loop_running w' = loop_running w ->
  (mono_reads w <= mono_reads w')%nat -> acted w i s' w'.
Proof.
  intros Hm Hi Hq ? Hu ? ? ?. split; try done. rewrite Hu, Hq. symmetry.
  apply list_insert_id. by apply mirrored_lookup.
Qed.

Lemma acted_trans w i s1 w1 s2 w2 :
  acted w i s1 w1 -> acted w1 i s2 w2 -> acted w i s2 w2.
Proof.
  intros [H1 U1 ? ? ?] [H2 U2 ? ? ?]. split; try congruence; [..|lia].
  - by rewrite H2, H1, list_insert_insert_eq.
  - by rewrite U2, U1, list_insert_insert_eq.
Qed.

Lemma spawn_acts w i s :
  mirrored w -> services_ w !! i = Some s ->
  acted w i (spawned (os_fork os (forks w)) (os_mono os (mono_reads w)) s) (spawn os i w).2.
Proof.
  intros Hm Hi. rewrite (run_spawn _ _ _ Hi). unfold spawned.
  pose proof (mirrored_lookup _ _ _ Hm Hi) as Hu.
  destruct (os_fork os (forks w) <? 0) eqn:E.
  - eapply acted_quiet; try done; cbn; [|lia]. by rewrite (alter_insert _ _ _ _ Hi).
  - split; cbn; try done; [by rewrite (alter_insert _ _ _ _ Hi)| |lia].
    rewrite (alter_insert _ _ _ _ Hu). done.
Qed.

(** ** The transitions of one service

    What any operation of the loop may do to one service, with the number of
    readings of the steady clock before and after. [op] says whether the operator
    asked for a restart of this service. *)
Definition exited s : Service := s <| pid := -1 |> <| health_known := false |>.
Definition downed (mono wall : Z) s : Service :=
  if is_down s then s
  else s <| is_down := true |> <| down_since_mono := mono |> <| down_since_wall := wall |>.
Definition probed (ok : bool) (now : Z) s : Service :=
  s <| healthy := ok |> <| health_known := true |> <| last_health := now |>.

(** The state an unexpected exit leads to, once the failure is on record. *)
Definition verdict s : ServiceState :=
  if negb (cfg_autorestart (cfg s)) then Failed
  else if kMaxFailures <? Z.of_nat (length (recent_failures s)) then Quarantined
  else Backoff.
Definition sentenced (mono wall : Z) s : Service :=
  match verdict s with
  | Backoff => backed_off mono s
  | v => downed mono wall (s <| state := v |>)
  end.

Inductive change (op sd : bool) : nat * Service -> nat * Service -> Prop :=
  | ch_wait n n' s : (n <= n')%nat -> change op sd (n, s) (n', s)
  | ch_relaunch n k p s :
      sd = false -> state s = Backoff -> next_restart s <= os_mono os k -> (k < n)%nat -> p <> 0 ->
      change op sd (n, s) (S n, spawned p (os_mono os n) s)
  | ch_probe n ok now s : sd = false -> 0 < pid s -> change op sd (n, s) (n, probed ok now s)
  | ch_exit_asked n p s :
      sd = false -> 0 < pid s -> wants_restart s = true -> p <> 0 ->
      change op sd (n, s)
        (S n, spawned p (os_mono os n)
                (exited s <| wants_restart := false |> <| current_backoff_sec := 0 |>))
  | ch_exit_failed n n' wall wall' status s :
      sd = false -> 0 < pid s -> wants_restart s = false -> (S n <= n')%nat ->
      change op sd (n, s)
        (n', sentenced (os_mono os (S n)) wall' (failed_at os (os_mono os n) wall status (exited s)))
  | ch_exit_stopped n s :
      sd = true -> 0 < pid s -> change op sd (n, s) (n, exited s <| state := Stopped |>)
  | ch_stop_idle n s :
      sd = true -> pid s <= 0 -> change op sd (n, s) (n, s <| state := Stopped |>)
  | ch_restart_running n s :
      op = true -> 0 < pid s ->
      change op sd (n, s) (n, s <| recent_failures := [] |> <| wants_restart := true |>)
  | ch_restart_idle n p s :
      op = true -> pid s <= 0 -> p <> 0 ->
      change op sd (n, s)
        (S n, spawned p (os_mono os n)
                (s <| recent_failures := [] |> <| current_backoff_sec := 0 |>
                   <| wants_restart := false |>)).

(** From [w] to [w'], every service went through such transitions; [op i] says
    whether the operator's request named service [i]. *)
Record evolves (op : nat -> bool) w w' : Prop := {
  ev_mirrored : mirrored w';
  ev_shutting : shutting_down_ w' = shutting_down_ w;
  ev_reads : (mono_reads w <= mono_reads w')%nat;
  ev_length : length (services_ w') = length (services_ w);
  ev_services (i : nat) s :
    services_ w !! i = Some s ->
    exists s', services_ w' !! i = Some s' /\ rtc (change (op i) (shutting_down_ w)) (mono_reads w, s) (mono_reads w', s')
}.
(** The same of a computation that runs after [lo] readings of the clock, with
    [shutting_down_] equal to [sd]. *)
Definition evolving (lo : nat) (sd : bool) (op : nat -> bool) {A} (m : M World A) : Prop :=
  forall w, mirrored w -> (lo <= mono_reads w)%nat -> shutting_down_ w = sd -> evolves op w (m w).2.

Lemma evolves_refl op w : mirrored w -> evolves op w w.
Proof. intros H. split; try done. intros i s Hi. exists s. split; [done|]. apply rtc_refl. Qed.

Lemma evolves_trans op w1 w2 w3 : evolves op w1 w2 -> evolves op w2 w3 -> evolves op w1 w3.
Proof.
  intros [_ S1 R1 L1 E1] [M2 S2 R2 L2 E2]. split; [done|congruence|lia|congruence|].
  intros i s Hi. destruct (E1 i s Hi) as (s2 & Hs2 & C1). destruct (E2 i s2 Hs2) as (s3 & Hs3 & C2).
  exists s3. split; [done|]. rewrite S1 in C2. by etrans.
Qed.

Lemma acted_evolves op w i s s' w' :
  mirrored w -> services_ w !! i = Some s -> acted w i s' w' ->
  change (op i) (shutting_down_ w) (mono_reads w, s) (mono_reads w', s') ->
  evolves op w w'.
Proof.
  intros Hm Hi Ha Hc. pose proof (acted_mirrored _ _ _ _ Hm Ha) as Hm'.
  destruct Ha as [Hs Hu Hsh Hl Hr]. split; [done..| |].
  - by rewrite Hs, length_insert.
  - intros j t Hj. rewrite Hs. destruct (decide (i = j)) as [<-|Hne].
    + assert (t = s) as -> by congruence. exists s'. split; [|by apply rtc_once].
      apply list_lookup_insert_eq. by eapply lookup_lt_Some.
    + exists t. split; [by rewrite list_lookup_insert_ne|]. apply rtc_once. by constructor.
Qed.

Section Evolving.
Context (lo : nat) (sd : bool) (op : nat -> bool).

Lemma evolving_ret {A} (x : A) : evolving lo sd op (mret x).
Proof. intros w Hw _ _. by apply evolves_refl. Qed.
Lemma evolving_bind {A B} (m : M World A) (k : A -> M World B) :
  evolving lo sd op m -> (forall x, evolving lo sd op (k x)) -> evolving lo sd op (bind m k).
Proof.
  intros Hm Hk w Hw Hlo Hsd. rewrite run_let. pose proof (Hm w Hw Hlo Hsd) as H.
  eapply evolves_trans; [exact H|]. apply Hk; [apply H| |].
  - pose proof (ev_reads _ _ _ H). lia.
  - by rewrite (ev_shutting _ _ _ H).
Qed.
Lemma evolving_seq {A B} (m : M World A) (k : M World B) :
  evolving lo sd op m -> evolving lo sd op k -> evolving lo sd op (m ;; k).
Proof. intros Hm Hk. by apply evolving_bind. Qed.
Lemma evolving_when b m : evolving lo sd op m -> evolving lo sd op (when b m).
Proof. destruct b; [done|]. intros _. apply evolving_ret. Qed.
Lemma evolving_gets {A} (f : World -> A) : evolving lo sd op (gets f).
Proof. intros w Hw _ _. by apply evolves_refl. Qed.
Lemma evolving_for_each l (body : nat -> M World unit) :
  (forall i, evolving lo sd op (body i)) -> evolving lo sd op (for_each l body).
Proof. intros Hb. induction l; [apply evolving_ret|]. by apply evolving_seq. Qed.
Lemma evolving_modify (f : World -> World) :
  (forall w, services_ (f w) = services_ w /\ uptime_ (f w) = uptime_ w /\
      shutting_down_ (f w) = shutting_down_ w /\ (mono_reads w <= mono_reads (f w))%nat) ->
  evolving lo sd op (modify f).
Proof.
  intros Hf w Hw _ _. destruct (Hf w) as (H1 & H2 & H3 & H4). unfold modify. cbn [snd].
  split; [|done..| |].
  - unfold mirrored. by rewrite H1, H2.
  - by rewrite H1.
  - intros i s Hi. exists s. rewrite H1. split; [done|]. apply rtc_once. by constructor.
Qed.
Lemma evolving_act a : evolving lo sd op (act a).
Proof. by apply evolving_modify. Qed.

(** An access to [services_[i]] need only be justified for the service found there. *)
Lemma evolving_visit i (k : Service -> M World unit) :
  (forall w s, mirrored w -> (lo <= mono_reads w)%nat -> shutting_down_ w = sd ->
               services_ w !! i = Some s ->
               evolves op w (k s w).2) ->
  evolving lo sd op (with_service i k).
Proof.
  intros Hk w Hw Hlo Hsd. destruct (services_ w !! i) as [s|] eqn:Hi.
  - rewrite (run_with_service _ _ _ _ Hi). by apply Hk.
  - unfold with_service. rewrite run_let. unfold gets. cbn [fst snd]. rewrite Hi.
    by apply evolves_refl.
Qed.
End Evolving.

Context (fork_ok : forall k, os_fork os k <> 0).

(** Updates of one service that the uptime table does not show. *)
Lemma upd_acts f w i s :
  mirrored w -> services_ w !! i = Some s -> mirror (f s) = mirror s ->
  acted w i (f s) (upd i f w).2.
Proof.
  intros Hm Hi Hf. eapply acted_quiet; try done. cbn. by apply alter_insert.
Qed.

Lemma acted_lookup w i s s' w' :
  services_ w !! i = Some s -> acted w i s' w' -> services_ w' !! i = Some s'.
Proof.
  intros Hi Ha. rewrite (acted_services _ _ _ _ Ha). apply list_lookup_insert_eq.
  by eapply lookup_lt_Some.
Qed.

Lemma mark_down_acts w i s :
  mirrored w -> services_ w !! i = Some s ->
  acted w i (downed (os_mono os (mono_reads w)) (os_wall os (wall_reads w)) s)
    (mark_down os i w).2.
Proof.
  intros Hm Hi. unfold mark_down. rewrite (run_with_service _ _ _ _ Hi). unfold downed.
  destruct (is_down s).
  - eapply acted_quiet; try done. by rewrite list_insert_id.
  - eapply acted_quiet; try done; run_pure; [|lia]. by rewrite (alter_insert _ _ _ _ Hi).
Qed.

Lemma condemn_acts w i s v :
  mirrored w -> services_ w !! i = Some s ->
  acted w i (downed (os_mono os (mono_reads w)) (os_wall os (wall_reads w)) (s <| state := v |>))
    ((upd i (fun s => s <| state := v |>) ;; mark_down os i) w).2.
Proof.
  intros Hm Hi. rewrite run_seq.
  pose proof (upd_acts (fun s => s <| state := v |>) w i s Hm Hi eq_refl) as Ha.
  eapply acted_trans; [exact Ha|]. apply (mark_down_acts _ _ _ (acted_mirrored _ _ _ _ Hm Ha)).
  by eapply acted_lookup.
Qed.

Lemma schedule_restart_acts w i s :
  mirrored w -> services_ w !! i = Some s ->
  acted w i (backed_off (os_mono os (mono_reads w)) s) (schedule_restart os i w).2.
Proof.
  intros Hm Hi. eapply acted_quiet; try done; run_pure; [|lia]. by rewrite (alter_insert _ _ _ _ Hi).
Qed.

Lemma record_failure_acts w i s status :
  mirrored w -> services_ w !! i = Some s ->
  acted w i (failed_at os (os_mono os (mono_reads w)) (os_wall os (wall_reads w)) status s)
    (record_failure os i status w).2.
Proof.
  intros Hm Hi. eapply acted_quiet; try done; run_pure; [|lia]. by rewrite (alter_insert _ _ _ _ Hi).
Qed.

(** The bookkeeping common to every exit. *)
Lemma exited_acts w i s :
  mirrored w -> services_ w !! i = Some s ->
  acted w i (exited s)
    (w <| services_ := alter (fun s => s <| health_known := false |>) i
                         (alter (fun s => s <| pid := -1 |>) i (services_ w)) |>
       <| uptime_ := alter (publish (s <| pid := -1 |>)) i (uptime_ w) |>).
Proof.
  intros Hm Hi. pose proof (mirrored_lookup _ _ _ Hm Hi) as Hu.
  split; cbn; try done.
  - rewrite (alter_insert _ _ _ _ Hi).
    erewrite alter_insert; [|apply list_lookup_insert_eq; by eapply lookup_lt_Some].
    by rewrite list_insert_insert_eq.
  - by rewrite (alter_insert _ _ _ _ Hu).
Qed.

(** What the exit of a service leads to, [w] being past the bookkeeping. *)
Definition aftermath w w' status s s' : Prop :=
  let n := mono_reads w in
  if shutting_down_ w then s' = s <| state := Stopped |> /\ mono_reads w' = n
  else if wants_restart s then
    s' = spawned (os_fork os (forks w)) (os_mono os n)
           (s <| wants_restart := false |> <| current_backoff_sec := 0 |>) /\
    mono_reads w' = S n
  else
    s' = sentenced (os_mono os (S n)) (os_wall os (S (wall_reads w)))
           (failed_at os (os_mono os n) (os_wall os (wall_reads w)) status s) /\
    (S n <= mono_reads w')%nat.

Lemma after_exit_acts w i s status :
  mirrored w -> services_ w !! i = Some s ->
  exists s', acted w i s' (after_exit os i status w).2 /\
    aftermath w (after_exit os i status w).2 status s s'.
Proof.
  intros Hm Hi. unfold after_exit, aftermath. rewrite run_let. cbn [gets fst snd].
  rewrite (run_with_service _ _ _ _ Hi).
  destruct (shutting_down_ w) eqn:Hsd; [|destruct (wants_restart s) eqn:Hwr].
  - eexists. split; [by apply (upd_acts (fun s => s <| state := Stopped |>))|done].
  - rewrite run_seq.
    pose proof (upd_acts (fun s => s <| wants_restart := false |> <| current_backoff_sec := 0 |>)
                  w i s Hm Hi eq_refl) as Ha.
    pose proof (acted_lookup _ _ _ _ _ Hi Ha) as Hi'.
    pose proof (spawn_acts _ i _ (acted_mirrored _ _ _ _ Hm Ha) Hi') as Hb.
    eexists. split; [eapply acted_trans; [exact Ha|exact Hb]|]. split; [done|].
    by rewrite (run_spawn _ _ _ Hi').
  - rewrite run_seq. pose proof (record_failure_acts w i s status Hm Hi) as Ha.
    pose proof (acted_lookup _ _ _ _ _ Hi Ha) as Hi'.
    pose proof (acted_mirrored _ _ _ _ Hm Ha) as Hm'.
    pose proof (acted_reads _ _ _ _ Ha) as Hr.
    rewrite (run_with_service _ _ _ _ Hi'). unfold sentenced, verdict.
    set (s1 := failed_at _ _ _ _ s) in *. set (w1 := (record_failure os i status w).2) in *.
    assert (mono_reads w1 = S (mono_reads w) /\ wall_reads w1 = S (wall_reads w)) as [Hn Hl] by done.
    destruct (negb (cfg_autorestart (cfg s1))); [|destruct (kMaxFailures <? _)].
    1: pose proof (condemn_acts _ i _ Failed Hm' Hi') as Hb.
    2: pose proof (condemn_acts _ i _ Quarantined Hm' Hi') as Hb.
    1, 2: eexists; (split; [eapply acted_trans; [done|apply Hb]|]);
          split; [by rewrite <- Hn, <- Hl|];
          (etrans; [|eapply acted_reads, Hb]); by rewrite Hn.
    pose proof (schedule_restart_acts _ i _ Hm' Hi') as Hb.
    eexists. split; [by eapply acted_trans|]. split; [by rewrite <- Hn|].
    pose proof (acted_reads _ _ _ _ Hb). lia.
Qed.

Lemma reap_acts w p i s status :
  mirrored w -> find_by_pid p w = Some i -> services_ w !! i = Some s ->
  exists s', acted w i s' (reap os (p, status) w).2 /\
    aftermath w (reap os (p, status) w).2 status (exited s) s'.
Proof.
  intros Hm Hf Hi. unfold reap. rewrite run_let. cbn [gets fst snd]. rewrite Hf.
  rewrite run_seq, run_seq, run_seq. rewrite !run_upd. cbn [snd].
  pose proof (exited_acts w i s Hm Hi) as Ha.
  rewrite run_publish with (s := s <| pid := -1 |>) by (cbn; by rewrite list_lookup_alter_eq, Hi).
  pose proof (acted_lookup _ _ _ _ _ Hi Ha) as Hi'.
  destruct (after_exit_acts _ i _ status (acted_mirrored _ _ _ _ Hm Ha) Hi') as (s' & Hb & Hc).
  exists s'. split; [by eapply acted_trans|]. exact Hc.
Qed.

Lemma index_of_Some (P : Service -> bool) l i :
  index_of P l = Some i ->
  exists s, l !! i = Some s /\ P s = true /\ forall j t, (j < i)%nat -> l !! j = Some t -> P t = false.
Proof.
  revert i. induction l as [|s l IH]; intros i; [done|]. cbn. destruct (P s) eqn:Hs.
  - intros [= <-]. exists s. split_and!; [done..|]. lia.
  - intros (i' & Hi' & ->)%fmap_Some. destruct (IH i' Hi') as (t & Ht & HP & Hj).
    exists t. split_and!; [done..|]. intros [|j] u Hlt Hu; [by simplify_eq/=|].
    apply (Hj j); [lia|done].
Qed.

Lemma index_of_None (P : Service -> bool) l :
  index_of P l = None -> Forall (fun s => P s = false) l.
Proof.
  induction l as [|s l IH]; [by constructor|]. cbn. destruct (P s) eqn:Hs; [done|].
  intros H%fmap_None. constructor; auto.
Qed.

Lemma find_by_pid_Some p w i :
  find_by_pid p w = Some i -> exists s, services_ w !! i = Some s /\ pid s = p.
Proof.
  intros (s & Hs & Hp & _)%index_of_Some. exists s. split; [done|]. by bool_to_prop.
Qed.

Lemma evolving_reap lo sd op p status : 0 < p -> evolving lo sd op (reap os (p, status)).
Proof.
  intros Hp w Hw _ _. destruct (find_by_pid p w) as [i|] eqn:Hf.
  - destruct (find_by_pid_Some _ _ _ Hf) as (s & Hi & <-).
    destruct (reap_acts _ _ _ _ status Hw Hf Hi) as (s' & Ha & Hc).
    eapply acted_evolves; try done. unfold aftermath in Hc.
    change (wants_restart (exited s)) with (wants_restart s) in Hc.
    destruct (shutting_down_ w); [|destruct (wants_restart s) eqn:Hwr];
      destruct Hc as [-> Hn]; try rewrite Hn;
      [by apply ch_exit_stopped|by apply ch_exit_asked|by apply ch_exit_failed].
  - unfold reap. rewrite run_let. cbn [gets fst snd]. rewrite Hf. by apply evolves_refl.
Qed.

Lemma evolving_reap_all lo sd op reports : evolving lo sd op (reap_all os reports).
Proof.
  induction reports as [|[p status] reports IH]; [apply evolving_ret|]. cbn [reap_all].
  case_match eqn:Hp; [|apply evolving_ret]. apply evolving_seq; [|done].
  apply evolving_reap. cbn in Hp. by bool_to_prop.
Qed.

Lemma acted_probe w i s k ok now :
  mirrored w -> services_ w !! i = Some s ->
  acted w i (probed ok now s)
    (w <| probes := k |> <| services_ := alter (probed ok now) i (services_ w) |>).
Proof. intros Hm Hi. eapply acted_quiet; try done. cbn. by rewrite (alter_insert _ _ _ _ Hi). Qed.

Lemma evolving_tick_service lo op k i :
  (k < lo)%nat -> evolving lo false op (tick_service os (os_mono os k) i).
Proof.
  intros Hk. apply evolving_seq; apply evolving_visit; intros w s Hm Hlo Hsd Hi;
    match goal with |- context [when ?b _] => destruct b eqn:Hc end;
    cbn [when]; try by apply evolves_refl.
  - bool_to_prop. eapply acted_evolves; [done|done|by apply spawn_acts|].
    rewrite (run_spawn _ _ _ Hi). apply (ch_relaunch _ _ _ k); [done..|lia|done].
  - bool_to_prop. eapply acted_evolves; [done|done|exact (acted_probe _ _ _ _ _ _ Hm Hi)|].
    by apply ch_probe.
Qed.

Lemma evolving_indices lo sd op (body : nat -> M World unit) :
  (forall i, evolving lo sd op (body i)) ->
  evolving lo sd op (let! ids := indices in for_each ids body).
Proof.
  intros Hb. apply evolving_bind; [apply evolving_gets|]. intros ids. by apply evolving_for_each.
Qed.

Lemma evolving_finish lo sd op : evolving lo sd op finish_if_drained.
Proof.
  apply evolving_bind; [apply evolving_gets|]. intros b. apply evolving_when, evolving_seq.
  - by apply evolving_modify.
  - apply evolving_act.
Qed.

(** Reading the flag [shutting_down_] tells the branches apart. *)
Lemma evolving_shutting lo sd op {A} (k : bool -> M World A) :
  evolving lo sd op (k sd) -> evolving lo sd op (bind (gets shutting_down_) k).
Proof. intros Hk w Hw Hlo Hsd. rewrite run_let. cbn [gets fst snd]. rewrite Hsd. by apply Hk. Qed.

Lemma evolving_on_sigchld lo sd op reports : evolving lo sd op (on_sigchld os reports).
Proof.
  apply evolving_seq; [apply evolving_reap_all|].
  apply evolving_shutting, evolving_when, evolving_finish.
Qed.

Lemma steady_now_evolves op w : mirrored w -> evolves op w (steady_now os w).2.
Proof.
  intros Hm. split; run_pure; try done; [lia|]. intros i s Hi. exists s. split; [done|].
  apply rtc_once. constructor. lia.
Qed.

Lemma evolving_on_tick sd op : evolving 0 sd op (on_tick os).
Proof.
  intros w Hw _ Hsd. unfold on_tick. rewrite run_let.
  eapply evolves_trans; [by apply steady_now_evolves|].
  pose proof (steady_now_evolves op w Hw) as He.
  assert (evolving (S (mono_reads w)) sd op
            (let! shutting := gets shutting_down_ in
             let! ids := indices in
             if shutting then
               let! deadline := gets kill_deadline_ in
               when (deadline <=? os_mono os (mono_reads w)) (for_each ids (kill_running SIGKILL));;
               finish_if_drained
             else for_each ids (tick_service os (os_mono os (mono_reads w))))) as Hr.
  { apply evolving_shutting, evolving_bind; [apply evolving_gets|]. intros ids. destruct sd.
    - apply evolving_bind; [apply evolving_gets|]. intros deadline.
      apply evolving_seq; [|apply evolving_finish]. apply evolving_when, evolving_for_each.
      intros i. apply evolving_visit. intros w' s Hm' Hlo' Hsd' Hi.
      by apply (evolving_when 0 true op _ _ (evolving_act _ _ _ _)); [|lia|].
    - apply evolving_for_each. intros i. apply evolving_tick_service. lia. }
  apply Hr; [apply He|done|done].
Qed.

Lemma begin_shutdown_evolves op w :
  mirrored w -> evolves op (w <| shutting_down_ := true |>) (begin_shutdown os w).2.
Proof.
  intros Hm. unfold begin_shutdown. rewrite run_seq, run_let.
  pose proof (steady_now_evolves op (w <| shutting_down_ := true |>) Hm) as He.
  eapply evolves_trans; [exact He|].
  apply (evolving_seq 0 true); [by apply evolving_modify| |apply He|lia|done].
  apply evolving_bind; [apply evolving_gets|]. intros ids.
  apply evolving_seq; [|apply evolving_finish]. apply evolving_for_each. intros i.
  apply evolving_visit. intros w' s Hm' _ Hsd Hi. destruct (0 <? pid s) eqn:Hp; bool_to_prop.
  - by apply (evolving_act 0 true); [|lia|].
  - eapply acted_evolves; [done|done|by apply (upd_acts (fun s => s <| state := Stopped |>))|].
    by apply ch_stop_idle.
Qed.

(** The service an operator's request names. *)
Definition names w (name : bytes) (i : nat) : bool := bool_decide (find_by_name name w = Some i).

Lemma find_by_name_Some name w i :
  find_by_name name w = Some i -> exists s, services_ w !! i = Some s /\ cfg_name (cfg s) = name.
Proof. intros (s & Hs & Hp & _)%index_of_Some. exists s. split; [done|]. by bool_to_prop. Qed.

Lemma do_restart_evolves w name :
  mirrored w -> evolves (names w name) w (do_restart os name w).2.
Proof.
  intros Hm. unfold do_restart. rewrite run_let. cbn [gets fst snd].
  destruct (find_by_name name w) as [i|] eqn:Hf; [|by apply evolves_refl].
  destruct (find_by_name_Some _ _ _ Hf) as (s & Hi & _).
  assert (names w name i = true) as Hn by by apply bool_decide_eq_true_2.
  pose proof (upd_acts (fun s => s <| recent_failures := [] |>) w i s Hm Hi eq_refl) as Ha.
  pose proof (acted_lookup _ _ _ _ _ Hi Ha) as Hi'. pose proof (acted_mirrored _ _ _ _ Hm Ha) as Hm'.
  rewrite !run_seq. cbn [mret M_ret snd]. rewrite (run_with_service _ _ _ _ Hi').
  change (pid (s <| recent_failures := [] |>)) with (pid s).
  destruct (0 <? pid s) eqn:Hp; bool_to_prop; rewrite run_seq.
  - match goal with |- context [upd i ?g ?w1] => pose proof (upd_acts g w1 i _ Hm' Hi' eq_refl) as Hb end.
    eapply acted_evolves; [done|done| |by apply ch_restart_running].
    eapply acted_trans; [exact Ha|]. destruct Hb. by split.
  - match goal with |- context [upd i ?g ?w1] => pose proof (upd_acts g w1 i _ Hm' Hi' eq_refl) as Hb end.
    pose proof (acted_lookup _ _ _ _ _ Hi' Hb) as Hi''.
    pose proof (acted_mirrored _ _ _ _ Hm' Hb) as Hm''.
    pose proof (acted_trans _ _ _ _ _ _ Ha (acted_trans _ _ _ _ _ _ Hb (spawn_acts _ _ _ Hm'' Hi''))).
    eapply acted_evolves; [done..|]. rewrite (run_spawn _ _ _ Hi''). by apply ch_restart_idle.
Qed.

Lemma start_evolves l w :
  NoDup l -> mirrored w ->
  (forall i s, i ∈ l -> services_ w !! i = Some s -> exists c, s = new_service c) ->
  evolves (fun _ => true) w (for_each l (spawn os) w).2.
Proof.
  intros Hnd. revert w. induction Hnd as [|i l Hin Hnd IH]; intros w Hm Hf; [by apply evolves_refl|].
  cbn [for_each]. rewrite run_seq. destruct (services_ w !! i) as [s|] eqn:Hi.
  - destruct (Hf i s ltac:(by left) Hi) as [c ->]. pose proof (spawn_acts _ _ _ Hm Hi) as Ha.
    assert (evolves (fun _ => true) w (spawn os i w).2) as He.
    { eapply acted_evolves; [done|done|exact Ha|]. rewrite (run_spawn _ _ _ Hi).
      by apply (ch_restart_idle true _ _ _ (new_service c)). }
    eapply evolves_trans; [exact He|]. apply IH; [apply He|]. intros j s Hj Hs.
    rewrite (acted_services _ _ _ _ Ha), list_lookup_insert_ne in Hs by set_solver.
    apply (Hf j); [by right|done].
  - unfold spawn at 2, with_service. rewrite run_let. cbn [gets fst snd]. rewrite Hi.
    apply IH; [done|]. intros j s Hj. apply Hf. by right.
Qed.

(** An invariant of the transitions holds of every service, always. *)
Lemma reachable_inv configs (I : nat -> nat -> Service -> Prop) w :
  (forall i c, configs !! i = Some c -> I 0%nat i (new_service c)) ->
  (forall op sd i n s n' s', I n i s -> change op sd (n, s) (n', s') -> I n' i s') ->
  reachable os configs w ->
  mirrored w /\ forall i s, services_ w !! i = Some s -> I (mono_reads w) i s.
Proof.
  intros H0 Hstep.
  assert (forall op sd i n s n' s', rtc (change op sd) (n, s) (n', s') -> I n i s -> I n' i s') as Hrtc.
  { intros op sd i n s n' s' H. remember (n, s) as x eqn:Hx. remember (n', s') as y eqn:Hy.
    revert n s Hx. induction H as [x|x [n1 s1] y Hxy _ IH]; intros n s ->.
    - by simplify_eq.
    - intros HI. by eapply IH, Hstep. }
  assert (forall op w1 w2, evolves op w1 w2 ->
            (forall i s, services_ w1 !! i = Some s -> I (mono_reads w1) i s) ->
            mirrored w2 /\ forall i s, services_ w2 !! i = Some s -> I (mono_reads w2) i s) as Hev.
  { intros op w1 w2 [Hm2 _ _ Hl He] HI. split; [done|]. intros i s2 Hi2.
    destruct (lookup_lt_is_Some_2 (services_ w1) i) as [s1 Hi1].
    { rewrite <- Hl. by eapply lookup_lt_Some. }
    destruct (He i s1 Hi1) as (s2' & Hs2' & Hc). assert (s2' = s2) as -> by congruence. eauto. }
  assert (forall i s, services_ (init_world configs) !! i = Some s ->
            exists c, configs !! i = Some c /\ s = new_service c) as Hinit.
  { intros i s Hs. cbn in Hs. apply list_lookup_fmap_Some_1 in Hs as (c & -> & Hc). eauto. }
  induction 1 as [|w e _ [Hm IH]].
  - eapply Hev; [apply start_evolves; [apply NoDup_seq| |]|].
    + unfold mirrored. cbn. by rewrite <- list_fmap_compose.
    + intros i s _ (c & _ & ->)%Hinit. by exists c.
    + intros i s (c & Hc & ->)%Hinit. by apply H0.
  - destruct e as [reports| |name|].
    + by eapply Hev; [apply (evolving_on_sigchld 0 (shutting_down_ w) (fun _ => false)); [done|lia|done]|].
    + by eapply Hev; [apply (evolving_on_tick (shutting_down_ w) (fun _ => false)); [done|lia|done]|].
    + eapply Hev; [|exact IH]. unfold run_state, handle. rewrite run_seq. by apply do_restart_evolves.
    + by eapply Hev; [apply (begin_shutdown_evolves (fun _ => false))|].
Qed.
End Running.

(** ** The well-formedness of the supervisor's state *)

(** The restart delays a configuration asks for. *)
Definition backoff_ok (c : ServiceConfig) : Prop :=
  0 < cfg_backoff_min_sec c <= cfg_backoff_max_sec c /\ cfg_backoff_max_sec c < 2 ^ 30.

Record svc_wf (bound : Z) (s : Service) : Prop := {
  wf_pid : state s = Running <-> 0 < pid s;
  wf_down : is_down s = true -> state s <> Running;
  wf_terminal : state s = Failed \/ state s = Quarantined -> is_down s = true;
  wf_quarantined : state s = Quarantined -> length (recent_failures s) = 6%nat;
  wf_window : (length (recent_failures s) <= 6)%nat;
  wf_below : state s = Running \/ state s = Backoff -> (length (recent_failures s) <= 5)%nat;
  wf_sorted : StronglySorted Z.le (recent_failures s);
  wf_past : Forall (fun t => t <= bound) (recent_failures s);
  wf_backoff : backoff_ok (cfg s) ->
               (current_backoff_sec s = 0 /\ state s <> Backoff) \/
               cfg_backoff_min_sec (cfg s) <= current_backoff_sec s <= cfg_backoff_max_sec (cfg s)
}.

Section WellFormed.
Context (os : OS).
Context (fork_ok : forall k, os_fork os k <> 0).
Context (mono_ok : forall a b, (a <= b)%nat -> os_mono os a <= os_mono os b).
Implicit Types (s : Service).

Lemma svc_wf_mono b b' s : b <= b' -> svc_wf b s -> svc_wf b' s.
Proof. intros Hb []. split; try done. eapply Forall_impl; [done|]. cbn. lia. Qed.

Lemma backed_off_range now s :
  backoff_ok (cfg s) ->
  current_backoff_sec s = 0 \/
    cfg_backoff_min_sec (cfg s) <= current_backoff_sec s <= cfg_backoff_max_sec (cfg s) ->
  cfg_backoff_min_sec (cfg s) <= current_backoff_sec (backed_off now s) <= cfg_backoff_max_sec (cfg s).
Proof.
  intros [Hm HM] Hc. cbn. case_match; [lia|]. case_match; [lia|]. bool_to_prop.
  rewrite wrap_s_id by (unfold in_s; lia). lia.
Qed.

(** Launching keeps well-formedness, from any service that is not running and is
    within its failure allowance. *)
Lemma spawned_wf b p now s :
  p <> 0 -> (length (recent_failures s) <= 5)%nat ->
  StronglySorted Z.le (recent_failures s) -> Forall (fun t => t <= b) (recent_failures s) ->
  pid s <= 0 -> (backoff_ok (cfg s) -> current_backoff_sec s = 0 \/
    cfg_backoff_min_sec (cfg s) <= current_backoff_sec s <= cfg_backoff_max_sec (cfg s)) ->
  svc_wf b (spawned p now s).
Proof.
  intros Hp Hl Hs Hb Hpid Hbo. unfold spawned. destruct (p <? 0) eqn:E; bool_to_prop.
  - pose proof (fun Hok => backed_off_range now s Hok (Hbo Hok)) as Hr.
    split; [..|exact (fun Hok => or_intror (Hr Hok))]; cbn; try done; try lia.
    + split; [done|lia].
    + by intros [].
  - split; cbn; try done; try lia. 1: split; [lia|done]. 1: by intros [].
    intros Hok. destruct (Hbo Hok); [left|right]; done.
Qed.

Lemma condemned_wf b mono wall v s :
  v = Failed \/ v = Quarantined -> (v = Quarantined -> length (recent_failures s) = 6%nat) ->
  (length (recent_failures s) <= 6)%nat ->
  StronglySorted Z.le (recent_failures s) -> Forall (fun t => t <= b) (recent_failures s) ->
  pid s <= 0 -> (backoff_ok (cfg s) -> current_backoff_sec s = 0 \/
    cfg_backoff_min_sec (cfg s) <= current_backoff_sec s <= cfg_backoff_max_sec (cfg s)) ->
  svc_wf b (downed mono wall (s <| state := v |>)).
Proof.
  intros Hv Hq Hl Hs Hb Hpid Hbo.
  assert (v <> Running /\ v <> Backoff) as [Hv1 Hv2] by by destruct Hv as [-> | ->].
  unfold downed. destruct (is_down _) eqn:Hd; split; cbn in *; try done; try lia; try tauto.
  all: split; [done|lia].
Qed.

(** A failure at an instant not before the recorded ones keeps the window in order. *)
Lemma prune_suffix l now : exists k, prune l now = drop k l.
Proof.
  induction l as [|t l [k IH]]; [by exists 0%nat|]. cbn. case_match; [by exists (S k)|by exists 0%nat].
Qed.

Lemma StronglySorted_drop {A} (R : A -> A -> Prop) k l :
  StronglySorted R l -> StronglySorted R (drop k l).
Proof. intros H. revert k. induction H; intros [|k]; cbn; try constructor; auto. Qed.

Lemma StronglySorted_snoc (l : list Z) t :
  StronglySorted Z.le l -> Forall (fun x => x <= t) l -> StronglySorted Z.le (l ++ [t]).
Proof.
  induction 1 as [|x l Hl IH Hx]; intros Ht; cbn; [by repeat constructor|].
  inversion_clear Ht. constructor; [auto|]. apply Forall_app. split; [done|by repeat constructor].
Qed.

Lemma failed_at_window now wall status s :
  StronglySorted Z.le (recent_failures s) -> Forall (fun t => t <= now) (recent_failures s) ->
  let l := recent_failures (failed_at os now wall status s) in
  StronglySorted Z.le l /\ Forall (fun t => t <= now) l /\
  (length l <= S (length (recent_failures s)))%nat.
Proof.
  intros Hs Hb. cbn. destruct (prune_suffix (recent_failures s ++ [now]) now) as [k ->].
  split_and!.
  - apply StronglySorted_drop. by apply StronglySorted_snoc.
  - apply Forall_drop, Forall_app. split; [done|]. by repeat constructor.
  - rewrite length_drop, length_app. cbn. lia.
Qed.

Lemma sentenced_wf b mono wall s :
  (length (recent_failures s) <= 6)%nat ->
  StronglySorted Z.le (recent_failures s) -> Forall (fun t => t <= b) (recent_failures s) ->
  pid s <= 0 -> (backoff_ok (cfg s) -> current_backoff_sec s = 0 \/
    cfg_backoff_min_sec (cfg s) <= current_backoff_sec s <= cfg_backoff_max_sec (cfg s)) ->
  svc_wf b (sentenced mono wall s).
Proof.
  intros Hl Hs Hb Hp Hbo. unfold sentenced, verdict.
  destruct (negb _); [by apply condemned_wf; auto|].
  destruct (kMaxFailures <? _) eqn:Hk; unfold kMaxFailures in Hk; bool_to_prop.
  - apply condemned_wf; auto. lia.
  - apply (spawned_wf b (-1) mono s); auto; lia.
Qed.

Lemma change_wf op sd n s n' s' :
  svc_wf (os_mono os n) s -> change os op sd (n, s) (n', s') -> svc_wf (os_mono os n') s'.
Proof.
  intros Hwf Hc. assert (os_mono os n <= os_mono os n') as Hn.
  { inversion Hc; subst; apply mono_ok; lia. }
  destruct Hwf as [Hp Hd Ht Hq Hw Hl Hs Hb Hbo].
  assert (backoff_ok (cfg s) -> current_backoff_sec s = 0 \/
    cfg_backoff_min_sec (cfg s) <= current_backoff_sec s <= cfg_backoff_max_sec (cfg s)) as Hbo' by tauto.
  apply (svc_wf_mono (os_mono os n)); [done|].
  inversion Hc; subst; clear Hc.
  - by split.
  - apply spawned_wf; try done; [apply Hl; by right|]. destruct (Z.le_gt_cases (pid s) 0); [done|].
    assert (state s = Running) by by apply Hp. congruence.
  - by split.
  - apply spawned_wf; try done; [|by left]. apply Hl. left. by apply Hp.
  - pose proof (failed_at_window (os_mono os n) wall status (exited s) Hs Hb) as (H1 & H2 & H3).
    apply sentenced_wf; try done. etrans; [exact H3|]. apply le_n_S, Hl. left. by apply Hp.
  - split; cbn; try done; try (by intros []); try tauto.
    intros Hok. destruct (Hbo' Hok); [by left|by right].
  - split; cbn; try done; try (by intros []); try tauto.
    { split; [done|lia]. } intros Hok. destruct (Hbo' Hok); [by left|by right].
  - assert (state s = Running) as Hr by by apply Hp.
    split; cbn; try done; try lia; try constructor; try congruence.
  - apply spawned_wf; cbn; try done; try lia; constructor.
Qed.
End WellFormed.

(** ** What the supervisor guarantees *)

Section Guarantees.
Context (os : OS).
Context (fork_ok : forall k, os_fork os k <> 0).
Context (mono_ok : forall a b, (a <= b)%nat -> os_mono os a <= os_mono os b).

Lemma reachable_wf configs w :
  reachable os configs w ->
  mirrored w /\ forall i s, services_ w !! i = Some s ->
    configs !! i = Some (cfg s) /\ svc_wf (os_mono os (mono_reads w)) s.
Proof.
  intros Hr.
  apply (reachable_inv os fork_ok configs
           (fun n i s => configs !! i = Some (cfg s) /\ svc_wf (os_mono os n) s)) in Hr; [done| |].
  - intros i c Hc. split; [done|]. split; cbn; try done; try lia; try (by intros []); try constructor.
    done.
  - intros op sd i n s n' s' [Hc Hwf] Hch. split; [|by eapply change_wf].
    rewrite Hc. f_equal. clear -Hch. inversion Hch; subst; try done;
      unfold sentenced, downed, spawned; repeat case_match; done.
Qed.

(** C16: whatever events the loop thread handles, in whatever order, the table the
    metrics thread reads mirrors the services, and every service is well-formed: it
    runs exactly when it has a pid, a quarantined or failed one is marked down, its
    failure window is in time order, never holds more than six entries and at most
    five while the service is up or about to be, and its restart delay stays within
    the configured bounds. *)
Theorem supervisor_invariant configs w :
  reachable os configs w ->
  uptime_ w = mirror <$> services_ w /\
  forall i s, services_ w !! i = Some s ->
    configs !! i = Some (cfg s) /\ svc_wf (os_mono os (mono_reads w)) s.
Proof. apply reachable_wf. Qed.

(** The pruned deque is the failures inside the window. *)
Lemma prune_filter now l :
  StronglySorted Z.le l -> prune l now = filter (fun t => now - t <= kFailureWindow) l.
Proof.
  induction 1 as [|t l Hl IH Ht]; [done|]. cbn [prune]. rewrite filter_cons.
  destruct (kFailureWindow <? now - t) eqn:E; bool_to_prop.
  - rewrite decide_False by lia. done.
  - rewrite decide_True by lia. f_equal. rewrite <- IH. symmetry. clear IH.
    destruct l as [|u l]; [done|]. cbn. inversion_clear Ht. by rewrite (proj2 (Z.ltb_ge _ _)) by lia.
Qed.

Lemma failed_at_recent now wall status s :
  StronglySorted Z.le (recent_failures s) -> Forall (fun t => t <= now) (recent_failures s) ->
  recent_failures (failed_at os now wall status s) =
    filter (fun t => now - t <= kFailureWindow) (recent_failures s) ++ [now].
Proof.
  intros Hs Hb. change (recent_failures (failed_at os now wall status s))
    with (prune (recent_failures s ++ [now]) now).
  rewrite prune_filter by by apply StronglySorted_snoc.
  rewrite filter_app, filter_cons_True, filter_nil; [done|]. by rewrite Z.sub_diag.
Qed.

(** The sentence passed on a service whose failure is on record. *)
Lemma sentenced_fields mono wall s1 :
  let s' := sentenced mono wall s1 in
  mirror s' = mirror s1 /\ pid s' = pid s1 /\ recent_failures s' = recent_failures s1 /\
  failure_count s' = failure_count s1 /\ last_failure_reason s' = last_failure_reason s1 /\
  state s' = verdict s1.
Proof.
  unfold sentenced. destruct (verdict s1) eqn:Hv; try done; unfold downed; by case_match.
Qed.

(** C17: an exit nobody asked for is counted and judged by the failures of the last
    24 hours, this one included: [Failed] without autorestart, [Quarantined] above
    five of them, and otherwise a delayed restart; the other services are untouched. *)
Theorem unexpected_exit configs w i s p status :
  reachable os configs w -> find_by_pid p w = Some i -> services_ w !! i = Some s ->
  shutting_down_ w = false -> wants_restart s = false ->
  let now := os_mono os (mono_reads w) in
  let recent := filter (fun t => now - t <= kFailureWindow) (recent_failures s) ++ [now] in
  let w' := run_state (reap os (p, status)) w in
  exists s', services_ w' = <[i := s']> (services_ w) /\
    uptime_ w' !! i = Some (mk_uptime (cfg_name (cfg s)) false (last_start s)) /\
    pid s' = -1 /\ recent_failures s' = recent /\
    failure_count s' = wrap_s 32 (failure_count s + 1) /\
    last_failure_reason s' = failure_reason os status /\
    state s' = (if negb (cfg_autorestart (cfg s)) then Failed
                else if kMaxFailures <? Z.of_nat (length recent) then Quarantined
                else Backoff).
Proof.
  intros Hr Hf Hi Hsd Hwr now recent w'. destruct (reachable_wf _ _ Hr) as [Hm Hwf].
  destruct (Hwf i s Hi) as [_ [_ _ _ _ _ _ Hs Hb _]].
  destruct (reap_acts os w p i s status Hm Hf Hi) as (s' & Ha & Hc).
  unfold aftermath in Hc. rewrite Hsd in Hc. change (wants_restart (exited s)) with (wants_restart s) in Hc.
  rewrite Hwr in Hc. destruct Hc as [Hs' _]. exists s'.
  pose proof (failed_at_recent now (os_wall os (wall_reads w)) status (exited s) Hs Hb) as Hrec.
  split; [apply Ha|]. unfold w', run_state. rewrite (acted_uptime _ _ _ _ Ha).
  rewrite list_lookup_insert_eq by (eapply lookup_lt_Some, mirrored_lookup; done).
  clear Ha. subst s'. match goal with |- context [sentenced ?m ?wl ?s1] =>
    destruct (sentenced_fields m wl s1) as (-> & -> & -> & -> & -> & ->) end.
  unfold verdict. fold now. rewrite Hrec. done.
Qed.

(** A run of failures of a fresh service. *)
Definition fail_all (s : Service) (ts : list (Z * Z)) : Service :=
  foldl (fun s '(now, status) => failed_at os now 0 status s) s ts.

Lemma fail_all_window (ts : list (Z * Z)) c t :
  StronglySorted Z.le (ts.*1 ++ [t]) ->
  let l := recent_failures (fail_all (new_service c) ts) in
  StronglySorted Z.le l /\ Forall (fun x => x <= t) l /\
  filter (fun x => t - x <= kFailureWindow) l = filter (fun x => t - x <= kFailureWindow) ts.*1.
Proof.
  clear fork_ok mono_ok.
  revert t. induction ts as [|[u st] ts IH] using rev_ind; intros t Hs.
  { split_and!; [constructor|constructor|done]. }
  rewrite fmap_app in Hs |- *. cbn [fmap list_fmap fst] in Hs |- *.
  pose proof (StronglySorted_app_1_elem_of _ _ _ u t Hs ltac:(set_solver) ltac:(set_solver)) as Hut.
  apply StronglySorted_app_1_l in Hs. destruct (IH u Hs) as (H1 & H2 & H3).
  unfold fail_all in *. rewrite foldl_app. cbn [foldl].
  destruct (failed_at_window os u 0 st _ H1 H2) as (G1 & G2 & _). split_and!; [done| |].
  - eapply Forall_impl; [exact G2|]. cbn. lia.
  - rewrite (failed_at_recent _ _ _ _ H1 H2), H3, !filter_app. f_equal. rewrite list_filter_filter.
    apply list_filter_iff. intros x. unfold kFailureWindow, second in *. lia.
Qed.

(** Over any history of failures, the window kept is the failures at most 24
    hours older than the latest: pruning from the front loses none and keeps no stale
    one. *)
Theorem failure_window_exact (ts : list (Z * Z)) t status c :
  StronglySorted Z.le (ts.*1 ++ [t]) ->
  recent_failures (fail_all (new_service c) (ts ++ [(t, status)])) =
    filter (fun x => t - x <= kFailureWindow) (ts.*1 ++ [t]).
Proof.
  clear fork_ok mono_ok.
  intros Hs. destruct (fail_all_window _ c _ Hs) as (H1 & H2 & H3).
  unfold fail_all in *. rewrite foldl_app. cbn [foldl].
  rewrite (failed_at_recent _ _ _ _ H1 H2), H3, filter_app. f_equal.
  by rewrite filter_cons_True by (rewrite Z.sub_diag; done).
Qed.

(** ** Quarantine and back-off *)

(** Between restarts the operator asks for, the transitions of a service at rest. *)
Lemma rest_transitions n s n' s' :
  svc_wf (os_mono os n) s -> pid s <= 0 -> rtc (change os false false) (n, s) (n', s') ->
  s' = s \/ (state s = Backoff /\ next_restart s <= os_mono os n').
Proof.
  intros Hwf Hp H. remember (n, s) as x eqn:Hx. remember (n', s') as y eqn:Hy.
  revert n s Hwf Hp Hx.
  induction H as [x|x [n1 s1] y Hxy Hrest IH]; intros n s Hwf Hp ->.
  { left. by simplify_eq. } subst y.
  inversion Hxy; subst; try done; try lia.
  - destruct (IH eq_refl n1 s1) as [-> | [Hb Hr]]; try done; [|by left|by right].
    eapply svc_wf_mono; [|done]. by apply mono_ok.
  - right. split; [done|]. etrans; [done|]. apply mono_ok.
    assert (forall a b, rtc (change os false false) a b -> (a.1 <= b.1)%nat) as Hle.
    { clear. induction 1 as [|? ? ? Hxy]; [done|]. etrans; [|done]. inversion Hxy; subst; cbn; lia. }
    apply Hle in Hrest. cbn in Hrest. lia.
Qed.

(** The events of normal operation that do not concern service [i]. *)
Definition bystander (w : World) (i : nat) (e : event) : Prop :=
  match e with
  | Sigchld _ | Tick => True
  | RestartTask name => find_by_name name w <> Some i
  | ShutdownTask => False
  end.

Lemma bystander_evolves w i e :
  mirrored w -> bystander w i e ->
  exists op, op i = false /\ evolves os op w (run_state (handle os e) w).
Proof.
  intros Hm. destruct e as [reports| |name|]; intros Hb; [..|done].
  - exists (fun _ => false). split; [done|].
    by apply (evolving_on_sigchld os fork_ok 0 (shutting_down_ w)); [|lia|].
  - exists (fun _ => false). split; [done|].
    by apply (evolving_on_tick os fork_ok (shutting_down_ w)); [|lia|].
  - exists (names w name). split; [by apply bool_decide_eq_false_2|].
    unfold run_state, handle. rewrite run_seq. by apply do_restart_evolves.
Qed.

Lemma at_rest configs w i s e :
  reachable os configs w -> shutting_down_ w = false ->
  services_ w !! i = Some s -> state s <> Running -> bystander w i e ->
  let w' := run_state (handle os e) w in
  services_ w' !! i = Some s \/ (state s = Backoff /\ next_restart s <= os_mono os (mono_reads w')).
Proof.
  intros Hr Hsd Hi Hq Hb w'. destruct (reachable_wf _ _ Hr) as [Hm Hwf].
  destruct (Hwf i s Hi) as [_ Hs]. destruct (bystander_evolves w i e Hm Hb) as (op & Hop & He).
  destruct (ev_services _ _ _ _ He i s Hi) as (s' & Hi' & Hc). rewrite Hop, Hsd in Hc.
  assert (pid s <= 0) as Hp.
  { destruct (Z.le_gt_cases (pid s) 0); [done|]. by destruct Hq; apply Hs. }
  by destruct (rest_transitions _ _ _ _ Hs Hp Hc) as [-> |]; [left|right].
Qed.

(** C18: until the operator asks for it by name, a quarantined service is left exactly
    as it is: nothing relaunches it, and nothing erases its record. *)
Theorem quarantine_holds configs w i s e :
  reachable os configs w -> shutting_down_ w = false ->
  services_ w !! i = Some s -> state s = Quarantined -> bystander w i e ->
  services_ (run_state (handle os e) w) !! i = Some s.
Proof.
  intros Hr Hsd Hi Hq Hb.
  destruct (at_rest configs w i s e) as [|[? _]]; congruence.
Qed.

(** A crash loop: each round the service is launched at [up] with pid [p] and its exit
    is scheduled for a restart at [now]. *)
Definition crash_loop (s : Service) (rounds : list (Z * Z * Z)) : Service :=
  foldl (fun s '(p, up, now) => backed_off now (launched p up s)) s rounds.

Lemma crash_loop_cfg s rounds : cfg (crash_loop s rounds) = cfg s.
Proof.
  induction rounds as [|[[p up] now] rounds IH] using rev_ind; [done|].
  unfold crash_loop in *. rewrite foldl_app. cbn. exact IH.
Qed.

(** The restart delays of a service that keeps dying before it is stable start at
    the configured minimum, double at each failure and stop growing at the maximum. *)
Theorem backoff_doubles s rounds p up now :
  backoff_ok (cfg s) -> current_backoff_sec s = 0 ->
  Forall (fun r => to_seconds (r.2 - r.1.2) < kStableSec) (rounds ++ [(p, up, now)]) ->
  let s' := crash_loop s (rounds ++ [(p, up, now)]) in
  state s' = Backoff /\
  current_backoff_sec s' =
    (cfg_backoff_min_sec (cfg s) * 2 ^ Z.of_nat (length rounds)) `min` cfg_backoff_max_sec (cfg s) /\
  next_restart s' = now + current_backoff_sec s' * second.
Proof.
  intros Hok H0 Hq. cbv zeta.
  split_and!; [unfold crash_loop; by rewrite foldl_app| |unfold crash_loop; by rewrite foldl_app].
  revert p up now Hq. induction rounds as [|[[p0 up0] now0] rounds IH] using rev_ind; intros p up now Hq.
  - unfold crash_loop. cbn. rewrite H0. cbn. unfold backoff_ok in Hok.
    apply Forall_cons in Hq as [Hq _]. cbn in Hq. rewrite (proj2 (Z.leb_gt _ _) Hq). lia.
  - apply Forall_app in Hq as [Hq Hq1]. specialize (IH _ _ _ Hq). apply Forall_cons in Hq1 as [Hq1 _].
    pose proof (crash_loop_cfg s (rounds ++ [(p0, up0, now0)])) as Hc.
    unfold crash_loop in *. rewrite foldl_app. cbn [foldl].
    set (s0 := foldl _ s _) in *. clearbody s0. cbn. cbn in Hq1. rewrite (proj2 (Z.leb_gt _ _) Hq1).
    rewrite IH, Hc. clear IH Hq Hq1 Hc. unfold backoff_ok in Hok. rewrite length_app. cbn [length].
    replace (Z.of_nat (length rounds + 1)) with (Z.succ (Z.of_nat (length rounds))) by lia.
    rewrite Z.pow_succ_r by lia.
    pose proof (Z.pow_pos_nonneg 2 (Z.of_nat (length rounds)) ltac:(lia) ltac:(lia)) as Hpow.
    set (q := 2 ^ Z.of_nat (length rounds)) in *.
    assert (0 < cfg_backoff_min_sec (cfg s) * q) by nia.
    rewrite (proj2 (Z.eqb_neq _ 0)) by lia. rewrite wrap_s_id by (unfold in_s; lia). lia.
Qed.

(** ** Shutdown *)

Definition stop_idle (s : Service) : Service :=
  if 0 <? pid s then s else s <| state := Stopped |>.
Definition signals (sig : Z) (l : list Service) : list action :=
  s ← l; if 0 <? pid s then [Killed (pid s) sig] else [].
Definition drained (l : list Service) : bool := forallb (fun s => negb (0 <? pid s)) l.

Lemma run_finish w :
  (finish_if_drained w).2 =
    if drained (services_ w) then w <| loop_running := false |> <| actions := actions w ++ [StopLoop] |>
    else w.
Proof.
  unfold finish_if_drained. rewrite run_let. cbn [gets fst snd]. fold (drained (services_ w)).
  by destruct (drained _).
Qed.

(** Visiting every service in order, doing [f] to it and [g] for it. *)
Lemma run_sweep (f : Service -> Service) (g : Service -> list action)
    (body : nat -> M World unit) pre rest w :
  (forall i w s, services_ w !! i = Some s ->
     (body i w).2 = w <| services_ := <[i := f s]> (services_ w) |> <| actions := actions w ++ g s |>) ->
  services_ w = pre ++ rest ->
  (for_each (seq (length pre) (length rest)) body w).2 =
    w <| services_ := pre ++ (f <$> rest) |> <| actions := actions w ++ (rest ≫= g) |>.
Proof.
  intros Hb. revert pre w. induction rest as [|s rest IH]; intros pre w Hw; cbn.
  - destruct w. cbn in *. by rewrite Hw, !app_nil_r.
  - rewrite run_seq, (Hb (length pre) w s) by (rewrite Hw; by apply list_lookup_middle).
    replace (S (length pre)) with (length (pre ++ [f s])) by (rewrite length_app; cbn; lia).
    rewrite IH; cbn.
    + by rewrite <- !(assoc_L app).
    + by rewrite Hw, insert_app_r_alt, Nat.sub_diag, <- (assoc_L app) by lia.
Qed.

Lemma run_sweep_all (f : Service -> Service) (g : Service -> list action)
    (body : nat -> M World unit) w :
  (forall i w s, services_ w !! i = Some s ->
     (body i w).2 = w <| services_ := <[i := f s]> (services_ w) |> <| actions := actions w ++ g s |>) ->
  (for_each (seq 0 (length (services_ w))) body w).2 =
    w <| services_ := f <$> services_ w |> <| actions := actions w ++ (services_ w ≫= g) |>.
Proof. intros Hb. by apply (run_sweep f g body [] (services_ w)). Qed.

Definition finished (w : World) : World :=
  if drained (services_ w) then w <| loop_running := false |> <| actions := actions w ++ [StopLoop] |>
  else w.

(** Shutdown asks every running child to terminate, once, gives them five
    seconds, retires the services that are not running, and ends the loop at once
    when there is nothing to wait for. *)
Theorem begin_shutdown_spec w :
  let now := os_mono os (mono_reads w) in
  run_state (begin_shutdown os) w =
    finished (w <| shutting_down_ := true |> <| mono_reads := S (mono_reads w) |>
                <| kill_deadline_ := now + 5 * second |>
                <| services_ := stop_idle <$> services_ w |>
                <| actions := actions w ++ signals SIGTERM (services_ w) |>).
Proof.
  intros now. unfold run_state, begin_shutdown. rewrite run_seq, run_let, run_seq, run_let, run_seq.
  rewrite run_finish. unfold indices at 1. cbn [gets fst snd].
  set (w0 := (modify _ _).2). unfold indices. cbn [gets fst snd].
  rewrite (run_sweep_all stop_idle (fun s => if 0 <? pid s then [Killed (pid s) SIGTERM] else [])).
  { done. }
  clear w0. intros i w0 s Hi. rewrite (run_with_service _ _ _ _ Hi). unfold stop_idle.
  destruct (0 <? pid s).
  - rewrite list_insert_id by done. by destruct w0.
  - unfold upd, modify. cbn. rewrite (alter_insert _ _ _ _ Hi), app_nil_r. by destruct w0.
Qed.

(** Once the grace period is over, a tick of a supervisor that is shutting down
    sends SIGKILL to every child still running, and relaunches nothing; before, it
    sends nothing. *)
Theorem shutdown_tick_spec w :
  shutting_down_ w = true ->
  let now := os_mono os (mono_reads w) in
  run_state (on_tick os) w =
    finished (w <| mono_reads := S (mono_reads w) |>
                <| actions := actions w ++
                     (if kill_deadline_ w <=? now then signals SIGKILL (services_ w) else []) |>).
Proof.
  intros Hsd now. unfold run_state, on_tick. rewrite run_let, run_let. cbn [gets fst snd].
  change (shutting_down_ (steady_now os w).2) with (shutting_down_ w). rewrite Hsd.
  rewrite run_let, run_let, run_seq, run_finish. unfold indices. cbn [gets fst snd].
  change ((steady_now os w).1) with now. change (kill_deadline_ (steady_now os w).2) with (kill_deadline_ w).
  destruct (kill_deadline_ w <=? now); cbn [when].
  - rewrite (run_sweep_all (fun s => s) (fun s => if 0 <? pid s then [Killed (pid s) SIGKILL] else [])).
    { rewrite list_fmap_id. done. }
    intros i w0 s Hi. unfold kill_running. rewrite (run_with_service _ _ _ _ Hi).
    rewrite list_insert_id by done. destruct (0 <? pid s); [by destruct w0|].
    cbn. rewrite app_nil_r. by destruct w0.
  - cbn. rewrite app_nil_r. by destruct w.
Qed.

(** Pids are shared by no two running services. *)
Definition distinct_pids (w : World) : Prop :=
  forall i j s t, services_ w !! i = Some s -> services_ w !! j = Some t ->
    0 < pid s -> pid s = pid t -> i = j.

Lemma find_by_pid_None p w i s :
  find_by_pid p w = None -> services_ w !! i = Some s -> pid s <> p.
Proof.
  intros H%index_of_None Hi. rewrite Forall_lookup in H. specialize (H i s Hi). cbn in H. by bool_to_prop.
Qed.

Lemma reap_shutting w p status :
  mirrored w -> shutting_down_ w = true -> distinct_pids w -> 0 < p ->
  let w' := (reap os (p, status) w).2 in
  mirrored w' /\ shutting_down_ w' = true /\ loop_running w' = loop_running w /\ distinct_pids w' /\
  (forall i s, 0 < pid s ->
     services_ w' !! i = Some s <-> pid s <> p /\ services_ w !! i = Some s).
Proof.
  intros Hm Hsd Hd Hp. cbv zeta. destruct (find_by_pid p w) as [j|] eqn:Hf.
  - destruct (find_by_pid_Some _ _ _ Hf) as (t & Hj & <-).
    destruct (reap_acts os w _ _ _ status Hm Hf Hj) as (t' & Ha & Hc).
    unfold aftermath in Hc. rewrite Hsd in Hc. destruct Hc as [Ht' _].
    pose proof (acted_mirrored _ _ _ _ Hm Ha) as Hm'. destruct Ha as [Hs _ Hsh Hl _].
    revert Hs Hsh Hl Hm'. generalize (reap os (pid t, status) w).2 as w'.
    intros w' Hs Hsh Hl Hm'. assert (pid t' = -1) as Hpt by by rewrite Ht'.
    assert (forall i s, 0 < pid s ->
              services_ w' !! i = Some s <-> pid s <> pid t /\ services_ w !! i = Some s) as Hall.
    { intros i s Hpos. rewrite Hs, list_lookup_insert_Some. split.
      - intros [(<- & <- & _)|[Hne Hi]]; [lia|]. split; [|done]. intros Heq. by destruct Hne; eapply Hd.
      - intros [Hne Hi]. right. split; [|done]. congruence. }
    split_and!; [done|congruence|done| |done].
    intros i k s u Hi Hk Hpos Heq. apply Hall in Hi as [_ Hi]; [|done].
    apply Hall in Hk as [_ Hk]; [|lia]. by eapply Hd.
  - unfold reap. rewrite run_let. cbn [gets fst snd]. rewrite Hf. cbn. split_and!; try done.
    intros i s Hpos. split; [|by intros [_ ?]]. intros Hi. split; [by eapply find_by_pid_None|done].
Qed.

Lemma reap_all_shutting reports w :
  mirrored w -> shutting_down_ w = true -> distinct_pids w ->
  Forall (fun r => 0 < r.1) reports ->
  let w' := (reap_all os reports w).2 in
  shutting_down_ w' = true /\ loop_running w' = loop_running w /\
  (forall i s, 0 < pid s ->
     services_ w' !! i = Some s <-> pid s ∉ reports.*1 /\ services_ w !! i = Some s).
Proof.
  intros Hm Hsd Hd Hpos. revert w Hm Hsd Hd.
  induction Hpos as [|[p status] reports Hp _ IH]; intros w Hm Hsd Hd; cbv zeta.
  { split_and!; [done..|]. intros i s _. set_solver. }
  cbn [reap_all]. cbn in Hp. cbn [fst]. rewrite (proj2 (Z.ltb_lt 0 p) Hp), run_seq.
  destruct (reap_shutting w p status Hm Hsd Hd Hp) as (H1 & H2 & Hl & H3 & H4).
  destruct (IH _ H1 H2 H3) as (G1 & Gl & G2). split_and!; [done|congruence|]. intros i s Hs.
  rewrite (G2 i s Hs), (H4 i s Hs). cbn. set_solver.
Qed.

Lemma drained_spec l : drained l = true <-> forall s, s ∈ l -> pid s <= 0.
Proof.
  unfold drained. rewrite forallb_forall.
  split; intros H s Hs%list_elem_of_In; specialize (H s Hs); rewrite negb_true_iff, Z.ltb_ge in *; done.
Qed.

(** C19: the shutdown completes: the loop ends when the exits of all the remaining
    children have been reported, and not before; none of them is relaunched. *)
Theorem shutdown_drains configs w reports :
  reachable os configs w -> shutting_down_ w = true -> distinct_pids w ->
  Forall (fun r => 0 < r.1) reports -> loop_running w = true ->
  let w' := run_state (on_sigchld os reports) w in
  loop_running w' = false <->
  forall s, s ∈ services_ w -> 0 < pid s -> pid s ∈ reports.*1.
Proof.
  intros Hr Hsd Hd Hpos Hrun. destruct (reachable_wf _ _ Hr) as [Hm _].
  destruct (reap_all_shutting reports w Hm Hsd Hd Hpos) as (H1 & H2 & H3).
  cbv zeta. unfold run_state, on_sigchld. rewrite run_seq, run_let. cbn [gets fst snd].
  rewrite H1. cbn [when]. rewrite run_finish.
  revert H2 H3. generalize (reap_all os reports w).2 as w1. clear H1. intros w1 Hl Hall.
  destruct (drained (services_ w1)) eqn:Hdr; cbn.
  - split; [|done]. intros _ s Hs Hp. rewrite drained_spec in Hdr.
    destruct (decide (pid s ∈ reports.*1)) as [|Hn]; [done|].
    apply list_elem_of_lookup_1 in Hs as [i Hi].
    specialize (Hdr s (list_elem_of_lookup_2 _ _ _ (proj2 (Hall i s Hp) (conj Hn Hi)))). lia.
  - rewrite Hl, Hrun. split; [done|]. intros Hin. exfalso.
    assert (drained (services_ w1) = true); [|congruence]. apply drained_spec. intros s Hs.
    destruct (Z.le_gt_cases (pid s) 0) as [|Hp]; [done|]. exfalso.
    apply list_elem_of_lookup_1 in Hs as [i Hi]. apply Hall in Hi as [Hn Hi]; [|lia].
    apply Hn, Hin; [by eapply list_elem_of_lookup_2|lia].
Qed.

Lemma alter_insert3 {A} (f g h : A -> A) i (l : list A) x :
  l !! i = Some x -> alter h i (alter g i (alter f i l)) = <[i := h (g (f x))]> l.
Proof.
  intros Hx. apply list_eq. intros j. destruct (decide (i = j)) as [<-|].
  - rewrite !list_lookup_alter_eq, Hx, list_lookup_insert_eq; [done|by eapply lookup_lt_Some].
  - by rewrite !list_lookup_alter_ne, list_lookup_insert_ne.
Qed.

(** An operator's restart of a service that is not running clears the failure
    window and launches it at once. When [fork] fails it goes to back-off instead, and
    [is_down] survives: the service is still reported as permanently down, with a
    restart already scheduled. *)
Theorem restart_spec configs w i s name :
  reachable os configs w -> find_by_name name w = Some i -> services_ w !! i = Some s ->
  state s <> Running ->
  let w' := run_state (do_restart os name) w in
  exists s', services_ w' = <[i := s']> (services_ w) /\ recent_failures s' = [] /\
    failure_count s' = failure_count s /\
    if os_fork os (forks w) <? 0
    then state s' = Backoff /\ is_down s' = is_down s /\ actions w' = actions w /\
         current_backoff_sec s' = cfg_backoff_min_sec (cfg s)
    else state s' = Running /\ is_down s' = false /\ pid s' = os_fork os (forks w) /\
         actions w' = actions w ++ [Forked (pid s') (cfg_exec (cfg s) :: cfg_args (cfg s))
                                      (cfg_workdir (cfg s))].
Proof.
  intros Hr Hf Hi Hst. destruct (reachable_wf _ _ Hr) as [Hm Hwf].
  destruct (Hwf i s Hi) as [_ Hs]. assert (~ 0 < pid s) as Hp by by rewrite <- (wf_pid _ _ Hs).
  cbv zeta. unfold run_state, do_restart. rewrite run_let. cbn [gets fst snd]. rewrite Hf, !run_seq.
  cbn [mret M_ret snd]. rewrite run_upd. cbn [snd].
  set (s1 := s <| recent_failures := [] |>).
  rewrite (run_with_service _ _ _ s1) by (cbn; by rewrite list_lookup_alter_eq, Hi).
  change (pid s1) with (pid s). rewrite (proj2 (Z.ltb_ge 0 (pid s))) by lia.
  rewrite run_seq, run_upd. cbn [snd].
  set (s2 := s1 <| current_backoff_sec := 0 |> <| wants_restart := false |>).
  rewrite (run_spawn _ _ _ s2) by (cbn; by rewrite !list_lookup_alter_eq, Hi).
  cbn [services_ forks actions mono_reads set_field]. eexists. split.
  { exact (alter_insert3 _ _ _ _ _ _ Hi). }
  unfold spawned. destruct (os_fork os (forks w) <? 0); [|done].
  split_and!; try done. cbn. by case_match.
Qed.

(** C20: only the operator, by name, relaunches a service in back-off before its delay has
    passed. A tick, the death of others and the restart of others leave it exactly as it is
    until then; the operator's restart launches it at once, with its window of failures
    cleared (or gives it the least delay when [fork] fails); a shutdown marks it stopped. *)
Theorem no_early_relaunch configs w i s e :
  reachable os configs w -> shutting_down_ w = false ->
  services_ w !! i = Some s -> state s = Backoff ->
  let w' := run_state (handle os e) w in
  let waits := services_ w' !! i = Some s \/ next_restart s <= os_mono os (mono_reads w') in
  match e with
  | Sigchld _ | Tick => waits
  | RestartTask name =>
      if decide (find_by_name name w = Some i) then
        exists s', services_ w' = <[i := s']> (services_ w) /\ recent_failures s' = [] /\
          if os_fork os (forks w) <? 0 then state s' = Backoff /\ current_backoff_sec s' = cfg_backoff_min_sec (cfg s)
          else state s' = Running /\ pid s' = os_fork os (forks w)
      else waits
  | ShutdownTask => services_ w' !! i = Some (s <| state := Stopped |>)
  end.
Proof.
  intros Hr Hsd Hi Hq w' waits.
  assert (bystander w i e -> waits) as Hwait.
  { intros Hb. destruct (at_rest configs w i s e) as [|[_ ?]]; [done..|congruence|done|by left|by right]. }
  destruct e as [reports| |name|]; [by apply Hwait..| |].
  - case_decide as Hf; [|by apply Hwait].
    destruct (restart_spec configs w i s name) as (s' & Hs' & Hrec & _ & Hfork); [done..|congruence|].
    assert (w' = run_state (do_restart os name) w) as Hw' by (unfold w', run_state, handle; by rewrite run_seq).
    exists s'. rewrite Hw'. split_and!; [done|done|]. destruct (_ <? 0); naive_solver.
  - unfold w'. change (handle os ShutdownTask) with (begin_shutdown os). rewrite begin_shutdown_spec.
    destruct (reachable_wf _ _ Hr) as [_ Hwf]. destruct (Hwf i s Hi) as [_ Hs].
    assert (~ 0 < pid s) as Hp by (rewrite <- (wf_pid _ _ Hs); congruence).
    unfold finished. destruct (drained _); cbn; rewrite list_lookup_fmap, Hi; cbn; unfold stop_idle;
      by rewrite (proj2 (Z.ltb_ge 0 (pid s))) by lia.
Qed.
End Guarantees.

(** ** Concrete runs *)

Section Examples.
(** A clock that advances 100 s per reading, and pids counted from 100. *)
Definition demo_os : OS :=
  mk_os (fun k => Z.of_nat k * 100 * second) (fun _ => 0) (fun k => 100 + Z.of_nat k)
    (fun _ => true) (fun _ => None).
Definition demo_config : ServiceConfig :=
  (default_service (lit "api")) <| cfg_exec := lit "/srv/api" |>.

Lemma demo_fork : forall k, os_fork demo_os k <> 0.
Proof. intros k. cbn. lia. Qed.
Lemma demo_mono : forall a b, (a <= b)%nat -> os_mono demo_os a <= os_mono demo_os b.
Proof. intros a b H. cbn. unfold second. lia. Qed.

Definition run_events (os : OS) (configs : list ServiceConfig) (es : list event) : World :=
  foldl (fun w e => run_state (handle os e) w) (run_state (start os) (init_world configs)) es.

Lemma run_events_reachable os configs es : reachable os configs (run_events os configs es).
Proof.
  unfold run_events. induction es as [|e es IH] using rev_ind; [constructor|].
  rewrite foldl_app. by constructor.
Qed.

Definition demo_world (es : list event) : World := run_events demo_os [demo_config] es.
Definition demo_crash (n : nat) : list event :=
  flat_map (fun k => [Sigchld [(100 + Z.of_nat k, 256)]; Tick]) (seq 0 n).
Lemma demo_reachable es : reachable demo_os [demo_config] (demo_world es).
Proof. apply run_events_reachable. Qed.

Definition demo_service (es : list event) : Service := default (new_service demo_config) (services_ (demo_world es) !! 0%nat).

Example supervisor_invariant_witness :
  exists s, services_ (demo_world (demo_crash 3)) !! 0%nat = Some s /\
    svc_wf (os_mono demo_os (mono_reads (demo_world (demo_crash 3)))) s.
Proof.
  exists (demo_service (demo_crash 3)).
  assert (services_ (demo_world (demo_crash 3)) !! 0%nat = Some (demo_service (demo_crash 3))) as Hi
    by (vm_compute; reflexivity).
  split; [exact Hi|].
  destruct (supervisor_invariant demo_os demo_fork demo_mono [demo_config] _ (demo_reachable (demo_crash 3))) as [_ H].
  apply (H 0%nat _ Hi).
Defined.

Example unexpected_exit_witness :
  exists s', services_ (run_state (reap demo_os (100, 256)) (demo_world [])) !! 0%nat = Some s' /\
    state s' = Backoff /\ last_failure_reason s' = lit "exit 1".
Proof.
  destruct (unexpected_exit demo_os demo_fork demo_mono [demo_config] (demo_world []) 0
              (demo_service []) 100 256 (demo_reachable []))
    as (s' & -> & _ & _ & _ & _ & Hr & Hs); try (vm_compute; reflexivity).
  exists s'. split; [vm_compute; reflexivity|]. split; [rewrite Hs; vm_compute; reflexivity|].
  rewrite Hr. vm_compute. reflexivity.
Defined.

Example failure_window_exact_witness :
  recent_failures (fail_all demo_os (new_service demo_config)
    ([(0, 256); (90000 * second, 256)] ++ [(100000 * second, 256)])) =
  [90000 * second; 100000 * second].
Proof.
  rewrite (failure_window_exact demo_os); [vm_compute; reflexivity|].
  vm_compute. repeat constructor; discriminate.
Defined.

Example quarantine_holds_witness :
  services_ (run_state (handle demo_os Tick) (demo_world (demo_crash 6))) !! 0%nat =
    Some (demo_service (demo_crash 6)) /\ state (demo_service (demo_crash 6)) = Quarantined.
Proof.
  split; [|vm_compute; reflexivity].
  apply (quarantine_holds demo_os demo_fork demo_mono [demo_config] _ _ _ Tick (demo_reachable (demo_crash 6)));
    try (vm_compute; reflexivity).
Defined.

(** A tick that comes too early, and the operator, who does not wait. *)
Example no_early_relaunch_witness :
  let w := demo_world [Sigchld [(100, 256)]] in let s := demo_service [Sigchld [(100, 256)]] in
  let w1 := run_state (handle demo_os Tick) w in let w2 := run_state (handle demo_os (RestartTask (lit "api"))) w in
  (services_ w1 !! 0%nat = Some s \/ next_restart s <= os_mono demo_os (mono_reads w1)) /\
  exists s', services_ w2 = <[0%nat := s']> (services_ w) /\ recent_failures s' = [] /\ state s' = Running /\ pid s' = 101.
Proof.
  split.
  - apply (no_early_relaunch demo_os demo_fork demo_mono [demo_config] _ _ _ Tick (demo_reachable [Sigchld [(100, 256)]]));
      try (vm_compute; reflexivity).
  - pose proof (no_early_relaunch demo_os demo_fork demo_mono [demo_config] _ 0 (demo_service [Sigchld [(100, 256)]])
      (RestartTask (lit "api")) (demo_reachable [Sigchld [(100, 256)]])) as H.
    do 3 (specialize (H ltac:(vm_compute; reflexivity))). cbv beta zeta iota in H.
    rewrite decide_True in H by (vm_compute; reflexivity). exact H.
Defined.

Example backoff_doubles_witness :
  let r := (100, 0, 3 * second) in
  current_backoff_sec (crash_loop (new_service demo_config) ([r; r; r] ++ [r])) = 8.
Proof.
  intros r.
  destruct (backoff_doubles (new_service demo_config) [r; r; r] 100 0 (3 * second)) as (_ & H & _);
    [unfold backoff_ok; vm_compute; intuition discriminate|reflexivity| |].
  - vm_compute. repeat constructor.
  - etransitivity; [exact H|]. vm_compute. reflexivity.
Defined.

Example shutdown_tick_spec_witness :
  actions (run_state (on_tick demo_os) (demo_world [ShutdownTask])) =
    [Forked 100 [lit "/srv/api"] []; Killed 100 SIGTERM; Killed 100 SIGKILL].
Proof.
  rewrite (shutdown_tick_spec demo_os) by (vm_compute; reflexivity). vm_compute. reflexivity.
Defined.

Example shutdown_drains_witness :
  loop_running (run_state (on_sigchld demo_os [(100, 15)]) (demo_world [ShutdownTask])) = false.
Proof.
  apply (shutdown_drains demo_os demo_fork demo_mono [demo_config] _ _ (demo_reachable [ShutdownTask]));
    try (vm_compute; reflexivity).
  - intros [|i] [|j] s t Hi Hj; try reflexivity; try (vm_compute in Hj; discriminate);
      vm_compute in Hi; discriminate.
  - by repeat constructor.
  - intros s Hs _. assert (s = demo_service [ShutdownTask]) as ->; [|vm_compute; constructor].
    vm_compute in Hs. apply list_elem_of_singleton in Hs. rewrite Hs. vm_compute. reflexivity.
Defined.

Example restart_spec_witness :
  exists s', services_ (run_state (do_restart demo_os (lit "api")) (demo_world (demo_crash 6))) =
               <[0%nat := s']> (services_ (demo_world (demo_crash 6))) /\ recent_failures s' = [].
Proof.
  destruct (restart_spec demo_os demo_fork demo_mono [demo_config] (demo_world (demo_crash 6)) 0
              (demo_service (demo_crash 6)) (lit "api") (demo_reachable (demo_crash 6))) as (s' & H1 & H2 & _);
    try (vm_compute; reflexivity); [vm_compute; discriminate|].
  exists s'. split; [exact H1|exact H2].
Defined.
End Examples.
