(* ===== verification/CircuitBreaker.v ===== *)
(** * CircuitBreaker: how often a service can die

    The supervisor of [Supervisor.v] over a whole run of its loop. A program that cannot
    stay up is relaunched, dies, is relaunched again; the window of failures and the
    quarantine of [record_failure] and [after_exit] (src/src/supervisor/supervisor.cpp)
    bound how often that happens, whatever else the loop does meanwhile. *)
From S2P Require Import Prelude ServiceConfig Supervisor.
Open Scope Z_scope.

(** Events that do not concern the service called [name]: the operator does not ask for
    it, and castle is not told to stop. *)
Definition leaves_alone (name : bytes) (e : event) : Prop :=
  match e with
  | Sigchld _ | Tick => True
  | RestartTask n => n <> name
  | ShutdownTask => False
  end.

Section Breaker.
Context (os : OS).
Context (fork_ok : forall k, os_fork os k <> 0).
Context (mono_ok : forall a b, (a <= b)%nat -> os_mono os a <= os_mono os b).
#[local] Abbreviation change := (change os false false).

(** The loop over a list of events. *)
Definition loop (es : list event) (w : World) : World := foldl (fun w e => run_state (handle os e) w) w es.

Lemma change_reads x y : change x y -> (x.1 <= y.1)%nat.
Proof. destruct 1; cbn; lia. Qed.
Lemma changes_reads x y : rtc change x y -> (x.1 <= y.1)%nat.
Proof. induction 1 as [|x y z Hc _ IH]; [done|]. apply change_reads in Hc. lia. Qed.

Lemma spawned_cfg p now s : cfg (spawned p now s) = cfg s.
Proof. unfold spawned. by case_match. Qed.
Lemma sentenced_cfg mono wall s : cfg (sentenced mono wall s) = cfg s.
Proof. unfold sentenced, downed. by repeat case_match. Qed.
Lemma change_cfg x y : change x y -> cfg y.2 = cfg x.2.
Proof. destruct 1; cbn [snd]; rewrite ?spawned_cfg, ?sentenced_cfg; done. Qed.
Lemma changes_cfg x y : rtc change x y -> cfg y.2 = cfg x.2.
Proof. induction 1 as [|x y z Hc _ IH]; [done|]. by rewrite IH, (change_cfg _ _ Hc). Qed.

(** *** One service over a run *)

Lemma loop_changes es w i s :
  mirrored w -> shutting_down_ w = false -> services_ w !! i = Some s ->
  Forall (leaves_alone (cfg_name (cfg s))) es ->
  shutting_down_ (loop es w) = false /\
  exists s', services_ (loop es w) !! i = Some s' /\ rtc change (mono_reads w, s) (mono_reads (loop es w), s').
Proof.
  intros Hm Hsd Hi Hes. revert w s Hm Hsd Hi Hes. induction es as [|e es IH]; intros w s Hm Hsd Hi Hes; cbn [loop foldl].
  { split; [done|]. exists s. split; [done|apply rtc_refl]. }
  apply Forall_cons in Hes as [He Hes].
  destruct (bystander_evolves os fork_ok w i e Hm) as (op & Hop & Hev).
  { destruct e as [| |n|]; try done. cbn in *. intros Hf. apply find_by_name_Some in Hf as (t & Ht & Hn). congruence. }
  destruct (ev_services _ _ _ _ Hev i s Hi) as (s1 & Hi1 & Hc1). rewrite Hop, Hsd in Hc1.
  destruct (IH (run_state (handle os e) w) s1) as (Hsd' & s' & Hi' & Hc').
  - apply Hev.
  - by rewrite (ev_shutting _ _ _ _ Hev).
  - done.
  - pose proof (changes_cfg _ _ Hc1) as Hcfg. cbn in Hcfg. by rewrite Hcfg.
  - split; [exact Hsd'|]. exists s'. split; [exact Hi'|]. by etrans.
Qed.

Lemma loop_reachable configs es w : reachable os configs w -> reachable os configs (loop es w).
Proof. revert w. induction es as [|e es IH]; intros w Hr; [done|]. apply IH. by constructor. Qed.

(** The count of failures is an [int]. *)
Lemma reachable_count configs w i s :
  reachable os configs w -> services_ w !! i = Some s -> in_s 32 (failure_count s).
Proof.
  intros Hr Hi.
  destruct (reachable_inv os fork_ok configs (fun _ _ s => in_s 32 (failure_count s)) w) as [_ H]; [done| |done|by eapply H].
  intros op sd _ n t n' t' Ht Hch. inversion Hch; subst; try done; try (unfold spawned; case_match; exact Ht).
  match goal with |- context [sentenced ?mono ?wl ?t1] => pose proof (sentenced_fields mono wl t1) as (_ & _ & _ & -> & _) end.
  by apply wrap_s_range.
Qed.

(** Since the reading [n0] the service, then with [c] failures to its name, has died [k]
    times; the deaths are at the end of its window. *)
Record toll (n0 : nat) (c : Z) (s : Service) (k : nat) : Prop := {
  tl_count : failure_count s = wrap_s 32 (c + Z.of_nat k);
  tl_window : exists old new, recent_failures s = old ++ new /\ length new = k /\ Forall (fun t => os_mono os n0 <= t) new;
  tl_down : k = 6%nat -> state s = Quarantined;
  tl_once : cfg_autorestart (cfg s) = false -> k <> 0%nat -> state s = Failed
}.

Lemma spawned_toll n0 c p now s k :
  toll n0 c s k -> state s <> Failed -> state s <> Quarantined -> toll n0 c (spawned p now s) k.
Proof.
  intros [H1 H2 H3 H4] Hf Hq. unfold spawned. case_match; (split; cbn; [done..| |]); intros; tauto.
Qed.

Lemma filter_all {A} (P : A -> Prop) `{forall x, Decision (P x)} l : Forall P l -> filter P l = l.
Proof. induction 1 as [|x l Hx _ IH]; [done|]. by rewrite filter_cons_True, IH. Qed.

(** A death in the 24 hours after [n0]. *)
Lemma died_toll n0 c n wall status mono wall' s k :
  svc_wf (os_mono os n) s -> toll n0 c s k -> 0 < pid s -> (n0 <= n)%nat ->
  os_mono os n - os_mono os n0 <= kFailureWindow ->
  toll n0 c (sentenced mono wall' (failed_at os (os_mono os n) wall status (exited s))) (S k).
Proof.
  intros Hwf [H1 (old & new & Hr & Hl & Hnew) H3 H4] Hp Hn Hw.
  set (t := os_mono os n) in *. set (s1 := failed_at os t wall status (exited s)).
  assert (state s = Running) as Hrun by by apply (wf_pid _ _ Hwf).
  assert (length (recent_failures s) <= 5)%nat as H5 by (apply (wf_below _ _ Hwf); by left).
  assert (recent_failures s1 = filter (fun x => t - x <= kFailureWindow) old ++ new ++ [t]) as Hr1.
  { unfold s1. rewrite failed_at_recent by apply Hwf. change (recent_failures (exited s)) with (recent_failures s). rewrite Hr, filter_app, <- (assoc_L app).
    do 2 f_equal. apply filter_all. eapply Forall_impl; [exact Hnew|]. cbv beta. lia. }
  pose proof (sentenced_fields mono wall' s1) as (_ & _ & Hrec & Hcount & _ & Hst).
  split; rewrite ?Hrec, ?Hcount, ?Hst.
  - change (failure_count s1) with (wrap_s 32 (failure_count s + 1)). rewrite H1, wrap_s_succ. f_equal. lia.
  - exists (filter (fun x => t - x <= kFailureWindow) old), (new ++ [t]). split_and!; [done|rewrite length_app; cbn; lia|].
    apply Forall_app. split; [done|]. apply Forall_singleton. by apply mono_ok.
  - intros Hk. unfold verdict. rewrite Hr1, !length_app. cbn [length].
    change (cfg s1) with (cfg s). destruct (cfg_autorestart (cfg s)) eqn:Ha; cbn [negb].
    + assert (kMaxFailures <? Z.of_nat (length (filter (fun x => t - x <= kFailureWindow) old) + (length new + 1)) = true) as ->; [|done].
      apply Z.ltb_lt. unfold kMaxFailures. lia.
    + specialize (H4 eq_refl ltac:(lia)). congruence.
  - rewrite sentenced_cfg. intros Ha _. unfold verdict. change (cfg s1) with (cfg s) in *. by rewrite Ha.
Qed.

(** The transitions of a service that nobody asks for, from one reading to another. *)
Lemma toll_changes n0 c n s n' s' k :
  svc_wf (os_mono os n) s -> toll n0 c s k -> (n0 <= n)%nat -> os_mono os n' - os_mono os n0 <= kFailureWindow ->
  rtc change (n, s) (n', s') -> exists k', toll n0 c s' k'.
Proof.
  intros Hwf Ht Hn Hw H. remember (n, s) as x eqn:Hx. remember (n', s') as y eqn:Hy.
  revert n s k Hwf Ht Hn Hx. induction H as [x|x [n1 s1] y Hxy Hrest IH]; intros n s k Hwf Ht Hn ->.
  { simplify_eq. by exists k. }
  subst y. pose proof (change_reads _ _ Hxy) as Hle. pose proof (changes_reads _ _ Hrest) as Hle'. cbn in Hle, Hle'.
  assert (svc_wf (os_mono os n1) s1) as Hwf1 by by eapply change_wf.
  assert (exists k1, toll n0 c s1 k1) as [k1 Ht1]; [|by eapply (IH eq_refl n1 s1 k1); [..|lia|]].
  assert (0 < pid s -> state s = Running) as Hrun by apply (wf_pid _ _ Hwf).
  inversion Hxy; subst; try done.
  - by exists k.
  - exists k. apply spawned_toll; [done|congruence..].
  - exists k. destruct Ht. by split.
  - exists k. apply spawned_toll; [destruct Ht; by split|..]; cbn; intros ?; assert (state s = Running) by auto; congruence.
  - exists (S k). apply died_toll; try done. assert (os_mono os n <= os_mono os n') by (apply mono_ok; lia). lia.
Qed.

(** ** Properties *)

(** C21: a program that cannot stay up is not relaunched for ever. In any 24 hours in which
    the operator does not ask for it, a service dies at most six times of its own; the
    sixth time it is quarantined, and stays so. This holds over every run of the loop,
    whatever its other services do, however deaths and ticks are interleaved. *)
Theorem crash_loop_broken configs w i s es :
  reachable os configs w -> shutting_down_ w = false -> services_ w !! i = Some s ->
  Forall (leaves_alone (cfg_name (cfg s))) es ->
  os_mono os (mono_reads (loop es w)) - os_mono os (mono_reads w) <= kFailureWindow ->
  exists s' k,
    services_ (loop es w) !! i = Some s' /\ (k <= 6)%nat /\
    failure_count s' = wrap_s 32 (failure_count s + Z.of_nat k) /\
    (k = 6%nat -> state s' = Quarantined /\ forall es', Forall (leaves_alone (cfg_name (cfg s))) es' ->
       services_ (loop es' (loop es w)) !! i = Some s').
Proof.
  intros Hr Hsd Hi Hes Hw. destruct (reachable_wf os fork_ok mono_ok _ _ Hr) as [Hm Hwf]. destruct (Hwf i s Hi) as [_ Hs].
  destruct (loop_changes es w i s Hm Hsd Hi Hes) as (Hsd' & s' & Hi' & Hc).
  assert (toll (mono_reads w) (failure_count s) s 0) as Ht.
  { split; [|by exists (recent_failures s), []; rewrite app_nil_r|done..].
    by rewrite Z.add_0_r, wrap_s_id by (done || by eapply reachable_count). }
  destruct (toll_changes _ _ _ _ _ _ _ Hs Ht ltac:(done) Hw Hc) as [k [H1 (old & new & Hrec & Hl & _) H3 _]].
  pose proof (loop_reachable configs es w Hr) as Hr'.
  destruct (reachable_wf os fork_ok mono_ok _ _ Hr') as [Hm' Hwf']. destruct (Hwf' i s' Hi') as [_ Hs'].
  exists s', k. split_and!; [done| |done|].
  - pose proof (wf_window _ _ Hs') as H6. rewrite Hrec, length_app in H6. lia.
  - intros Hk. specialize (H3 Hk). split; [done|]. intros es' Hes'.
    pose proof (changes_cfg _ _ Hc) as Hcfg. cbn in Hcfg. rewrite <- Hcfg in Hes'.
    destruct (loop_changes es' _ i s' Hm' Hsd' Hi' Hes') as (_ & s2 & Hi2 & Hc2).
    assert (pid s' <= 0) as Hp.
    { destruct (Z.le_gt_cases (pid s') 0) as [|Hp]; [done|]. apply (wf_pid _ _ Hs') in Hp. congruence. }
    destruct (rest_transitions os mono_ok _ _ _ _ Hs' Hp Hc2) as [-> |[? _]]; [done|congruence].
Qed.
End Breaker.


(** A program that exits with 1 each time it is launched: dead six times, it is out. *)
Example crash_loop_broken_witness :
  let w := loop demo_os (demo_crash 6) (demo_world []) in
  exists s', services_ w !! 0%nat = Some s' /\ failure_count s' = 6 /\ state s' = Quarantined /\
    services_ (loop demo_os (demo_crash 20) w) !! 0%nat = Some s'.
Proof.
  intros w.
  assert (forall n, Forall (leaves_alone (lit "api")) (demo_crash n)) as Hes.
  { intros n. unfold demo_crash. induction (seq 0 n); [constructor|]. by repeat constructor. }
  destruct (crash_loop_broken demo_os demo_fork demo_mono [demo_config] (demo_world []) 0 (demo_service []) (demo_crash 6))
    as (s' & k & Hi & Hk & Hc & Hq);
    [apply demo_reachable|reflexivity|vm_compute; reflexivity|apply Hes|vm_compute; discriminate|].
  assert (s' = demo_service (demo_crash 6)) as Hs'.
  { apply (inj Some). rewrite <- Hi. vm_compute. reflexivity. }
  assert (failure_count s' = 6) as H6 by (rewrite Hs'; vm_compute; reflexivity).
  assert (k = 6%nat) as Hk6.
  { rewrite H6, wrap_s_id in Hc; change (failure_count (demo_service [])) with 0 in *; unfold in_s in *; lia. }
  destruct (Hq Hk6) as [Hst Hrest]. exists s'. split_and!; [exact Hi|done|done|apply Hrest, Hes].
Defined.
