(* ===== verification/Clock.v ===== *)
(** * Clock: stopwatch and calendar text

    Models [bstd::system::clock] of src/src/util/clock.hpp. An instant is a count of
    nanoseconds; [split] uses the proleptic Gregorian calendar of [std::chrono]. What
    the platform's zone database answers for the local time is an argument, a
    [calendarParts] per reading of the clock; when it has none the code falls back to
    [split]. *)
From S2P Require Import Prelude Text Uptime.
Open Scope Z_scope.

Definition billion : Z := 1000000000.

(** [enum class time]. *)
Inductive face := hour12 | hour24.

Record calendarParts := mk_parts {
  cp_year : Z; cp_month : Z; cp_day : Z; cp_hour : Z; cp_minute : Z; cp_second : Z
}.

(** [std::chrono::year_month_day] of a count of days since 1970-01-01. *)
Definition year_month_day (days : Z) : Z * Z * Z :=
  let z := days + 719468 in
  let era := z / 146097 in
  let doe := z mod 146097 in
  let yoe := (doe - doe / 1460 + doe / 36524 - doe / 146096) / 365 in
  let doy := doe - (365 * yoe + yoe / 4 - yoe / 100) in
  let mp := (5 * doy + 2) / 153 in
  let d := doy - (153 * mp + 2) / 5 + 1 in
  let m := if mp <? 10 then mp + 3 else mp - 9 in
  (yoe + era * 400 + (if m <=? 2 then 1 else 0), m, d).

Definition split (tp : Z) : calendarParts :=
  let dayPoint := tp / (86400 * billion) in
  let '(y, m, d) := year_month_day dayPoint in
  let t := (tp - dayPoint * (86400 * billion)) / billion in
  mk_parts y m d (t / 3600) (t / 60 mod 60) (t mod 60).

(** [localParts], when the local-time lookup of the instant [tp] gives [zone]. *)
Definition localParts (zone : option calendarParts) (tp : Z) : calendarParts :=
  match zone with Some parts => parts | None => split tp end.

(** [snprintf] into 16 bytes. *)
Definition formatClock (parts : calendarParts) (format : face) : bytes :=
  match format with
  | hour24 =>
      take 15 (pad2 (cp_hour parts) ++ lit ":" ++ pad2 (cp_minute parts) ++ lit ":" ++ pad2 (cp_second parts))
  | hour12 =>
      let hour := cp_hour parts mod 12 in
      let hour := if hour =? 0 then 12 else hour in
      take 15 (pad2 hour ++ lit ":" ++ pad2 (cp_minute parts) ++ lit ":" ++ pad2 (cp_second parts) ++ lit " " ++
               if cp_hour parts <? 12 then lit "AM" else lit "PM")
  end.

(** [std::chrono::year_month_day::ok]. *)
Definition is_leap (y : Z) : bool := (y mod 4 =? 0) && (negb (y mod 100 =? 0) || (y mod 400 =? 0)).
Definition last_day (y m : Z) : Z :=
  if m =? 2 then (if is_leap y then 29 else 28)
  else if (m =? 4) || (m =? 6) || (m =? 9) || (m =? 11) then 30 else 31.
Definition ymd_ok (p : calendarParts) : bool :=
  (-32767 <=? cp_year p) && (cp_year p <=? 32767) && (1 <=? cp_month p) && (cp_month p <=? 12) &&
  (1 <=? cp_day p) && (cp_day p <=? last_day (cp_year p) (cp_month p)).

(** Each of these reads the clock: its argument is what [localParts] gave. *)
Definition monthIntegral (p : calendarParts) : Z := if ymd_ok p then wrap_u 8 (cp_month p) else 0.
Definition dayIntegral (p : calendarParts) : Z := if ymd_ok p then wrap_u 8 (cp_day p) else 0.
Definition yearIntegral (p : calendarParts) : Z := wrap_u 16 (cp_year p).
Definition yearString (p : calendarParts) : bytes := to_string (yearIntegral p).

Definition month_names : list bytes :=
  lit <$> ["January"; "February"; "March"; "April"; "May"; "June"; "July"; "August"; "September"; "October";
           "November"; "December"]%string.
Definition monthString (p : calendarParts) : bytes :=
  let month := monthIntegral p in
  if (month <? 1) || (12 <? month) then lit "Unknown" else nth (Z.to_nat (month - 1)) month_names [].

(** [%04u]. *)
Definition pad4 (z : Z) : bytes := replicate (4 - length (to_string z)) "0"%char ++ to_string z.

(** [dateString]: the year, the month and the day come from three readings of the clock. *)
Definition dateString (p1 p2 p3 : calendarParts) : bytes :=
  take 15 (pad4 (yearIntegral p1) ++ lit "-" ++ pad2 (monthIntegral p2) ++ lit "-" ++ pad2 (dayIntegral p3)).

(** ** The stopwatch *)

Record clock := mk_clock { startTime : Z; endTime : Z; is_running : bool }.
#[export] Instance eta_clock : Eta clock := fun c => mk_clock (startTime c) (endTime c) (is_running c).

(** [now]: the reading of the high-resolution clock. *)
Definition new_clock (now : Z) : clock := mk_clock now now false.
Definition start (now : Z) (c : clock) : clock :=
  c <| startTime := now |> <| endTime := now |> <| is_running := true |>.
Definition stop (now : Z) (c : clock) : clock := c <| endTime := now |> <| is_running := false |>.
Definition reset (now : Z) (c : clock) : clock :=
  c <| startTime := now |> <| endTime := now |> <| is_running := false |>.
Definition running (c : clock) : bool := is_running c.
Definition elapsed (now : Z) (c : clock) : Z := (if is_running c then now else endTime c) - startTime c.

(** [%09lld]. *)
Definition pad9 (z : Z) : bytes := replicate (9 - length (to_string z)) "0"%char ++ to_string z.

Definition highResolutionPeekTime (now : Z) (c : clock) : bytes :=
  let total := elapsed now c in
  let hours := total `quot` (3600 * billion) in
  let minutes := (total - hours * (3600 * billion)) `quot` (60 * billion) in
  let seconds := (total - hours * (3600 * billion) - minutes * (60 * billion)) `quot` billion in
  let nanos := total - hours * (3600 * billion) - minutes * (60 * billion) - seconds * billion in
  take 31 (pad2 hours ++ lit ":" ++ pad2 minutes ++ lit ":" ++ pad2 seconds ++ lit "." ++ pad9 nanos).

Definition timePassedInMilliseconds (now : Z) (c : clock) : Z := wrap_u 64 (elapsed now c `quot` 1000000).
Definition timePassedInNanoseconds (now : Z) (c : clock) : Z := wrap_u 64 (elapsed now c).

Example peek_ex : highResolutionPeekTime 3723000000004 (start 0 (new_clock 0)) = lit "01:02:03.000000004".
Proof. vm_compute. reflexivity. Qed.
Example split_ex : split (1787019723 * billion) = mk_parts 2026 8 18 2 22 3.
Proof. vm_compute. reflexivity. Qed.

(** ** The calendar *)

Record parts_ok (p : calendarParts) : Prop := {
  po_month : 1 <= cp_month p <= 12;
  po_day : 1 <= cp_day p <= 31;
  po_hour : 0 <= cp_hour p < 24;
  po_minute : 0 <= cp_minute p < 60;
  po_second : 0 <= cp_second p < 60
}.

Lemma year_of_era doe :
  0 <= doe < 146097 ->
  let yoe := (doe - doe / 1460 + doe / 36524 - doe / 146096) / 365 in
  0 <= yoe < 400 /\ 0 <= doe - (365 * yoe + yoe / 4 - yoe / 100) <= 365.
Proof. intros H yoe. subst yoe. Z.div_mod_to_equations. lia. Qed.

(** The count of days of a date: the inverse of [year_month_day]. *)
Definition days_of (y m d : Z) : Z :=
  let y := y - (if m <=? 2 then 1 else 0) in
  let mp := if m <=? 2 then m + 9 else m - 3 in
  let yoe := y mod 400 in
  y / 400 * 146097 + (365 * yoe + yoe / 4 - yoe / 100) + ((153 * mp + 2) / 5 + d - 1) - 719468.

Lemma month_of_year doy :
  0 <= doy <= 365 ->
  let mp := (5 * doy + 2) / 153 in
  0 <= mp <= 11 /\ 1 <= doy - (153 * mp + 2) / 5 + 1 <= 31.
Proof. intros H mp. subst mp. Z.div_mod_to_equations. lia. Qed.

Lemma year_month_day_spec days :
  let '(y, m, d) := year_month_day days in
  1 <= m <= 12 /\ 1 <= d <= 31 /\ days_of y m d = days.
Proof.
  unfold year_month_day. set (z := days + 719468).
  pose proof (Z.mod_pos_bound z 146097 ltac:(lia)) as Hdoe. pose proof (Z.div_mod z 146097 ltac:(lia)) as Hz.
  destruct (year_of_era (z mod 146097) Hdoe) as [Hyoe Hdoy]. cbv zeta in Hyoe, Hdoy |- *.
  generalize dependent (z mod 146097). intros doe Hdoe Hz.
  generalize ((doe - doe / 1460 + doe / 36524 - doe / 146096) / 365). intros yoe Hyoe Hdoy.
  set (doy := doe - (365 * yoe + yoe / 4 - yoe / 100)) in *.
  destruct (month_of_year doy Hdoy) as [Hmp Hd]. cbv zeta in Hmp, Hd.
  generalize dependent ((5 * doy + 2) / 153). intros mp Hmp Hd.
  set (era := z / 146097) in *.
  assert (forall k, k = yoe + era * 400 -> k / 400 = era /\ k mod 400 = yoe) as Hera.
  { intros k ->. rewrite Z.div_add, Z.mod_add by lia. rewrite Z.div_small, Z.mod_small by lia. lia. }
  destruct (Z.ltb_spec mp 10).
  - split_and!; [lia..|]. unfold days_of. rewrite (proj2 (Z.leb_gt _ _)) by lia.
    destruct (Hera (yoe + era * 400 + 0 - 0)) as [-> ->]; [lia|]. replace (mp + 3 - 3) with mp by lia. lia.
  - split_and!; [lia..|]. unfold days_of. rewrite (proj2 (Z.leb_le _ _)) by lia.
    destruct (Hera (yoe + era * 400 + 1 - 1)) as [-> ->]; [lia|]. replace (mp - 9 + 9) with mp by lia. lia.
Qed.

Lemma split_ok tp : parts_ok (split tp).
Proof.
  unfold split. pose proof (year_month_day_spec (tp / (86400 * billion))) as H.
  destruct (year_month_day _) as [[y m] d]. destruct H as (Hm & Hd & _).
  assert (0 <= (tp - tp / (86400 * billion) * (86400 * billion)) / billion < 86400) as Ht.
  { unfold billion. Z.div_mod_to_equations. lia. }
  generalize dependent ((tp - tp / (86400 * billion) * (86400 * billion)) / billion). intros t Ht.
  split; cbn; try done; Z.div_mod_to_equations; lia.
Qed.

(** ** Digits *)

Lemma pad2_digits z :
  0 <= z < 100 -> pad2 z = [digit (Z.to_N (z / 10)); digit (Z.to_N (z mod 10))].
Proof.
  intros Hz. assert (forallb (fun k => bool_decide (pad2 (Z.of_nat k) =
      [digit (Z.to_N (Z.of_nat k / 10)); digit (Z.to_N (Z.of_nat k mod 10))])) (seq 0 100) = true) as H
    by (vm_compute; reflexivity).
  rewrite forallb_forall in H. specialize (H (Z.to_nat z)). rewrite Z2Nat.id in H by lia.
  specialize (H ltac:(apply in_seq; lia)). by apply bool_decide_eq_true_1 in H.
Qed.

Lemma digit_inj a b : (a < 10)%N -> (b < 10)%N -> digit a = digit b -> a = b.
Proof.
  unfold digit. intros Ha Hb H%(f_equal N_of_ascii).
  rewrite !N_ascii_embedding in H by lia. lia.
Qed.

Lemma pad2_inj a b : 0 <= a < 100 -> 0 <= b < 100 -> pad2 a = pad2 b -> a = b.
Proof.
  intros Ha Hb. rewrite !pad2_digits by done. intros [= H1 H2].
  apply digit_inj in H1; [|Z.div_mod_to_equations; lia..].
  apply digit_inj in H2; [|Z.div_mod_to_equations; lia..].
  apply Z2N.inj in H1; [|Z.div_mod_to_equations; lia..].
  apply Z2N.inj in H2; [|Z.div_mod_to_equations; lia..].
  Z.div_mod_to_equations. lia.
Qed.

Lemma pad2_two z : 0 <= z < 100 -> length (pad2 z) = 2%nat.
Proof. intros Hz. by rewrite pad2_digits. Qed.

(** Two fields and what separates them. *)
Lemma pad2_app_inj a b (s t : bytes) :
  0 <= a < 100 -> 0 <= b < 100 -> pad2 a ++ s = pad2 b ++ t -> a = b /\ s = t.
Proof.
  intros Ha Hb H. apply app_inj_1 in H as [H ->]; [|by rewrite !pad2_two]. split; [by apply pad2_inj|done].
Qed.

(** ** Properties *)

(** The calendar of [split] is exact: the date and time of day it gives denote the
    second the instant falls in, and every field is in range. *)
Theorem split_exact tp :
  let p := split tp in
  parts_ok p /\
  (days_of (cp_year p) (cp_month p) (cp_day p) * 86400 + cp_hour p * 3600 + cp_minute p * 60 + cp_second p) * billion
    <= tp < (days_of (cp_year p) (cp_month p) (cp_day p) * 86400 + cp_hour p * 3600 + cp_minute p * 60 +
             cp_second p + 1) * billion.
Proof.
  intros p. subst p. split; [apply split_ok|]. unfold split.
  pose proof (year_month_day_spec (tp / (86400 * billion))) as H.
  destruct (year_month_day _) as [[y m] d]. destruct H as (_ & _ & Hd). cbn. rewrite Hd.
  unfold billion. Z.div_mod_to_equations. lia.
Qed.

(** On either face, two different times of day never print the same: the time can be
    read back from what the clock shows. *)
Theorem formatClock_injective format p q :
  parts_ok p -> parts_ok q -> formatClock p format = formatClock q format ->
  cp_hour p = cp_hour q /\ cp_minute p = cp_minute q /\ cp_second p = cp_second q.
Proof.
  intros [_ _ Hh Hm Hs] [_ _ Hh' Hm' Hs']. unfold formatClock.
  assert (forall h m s t, 0 <= h < 100 -> 0 <= m < 100 -> 0 <= s < 100 -> (length t <= 3)%nat ->
            take 15 (pad2 h ++ lit ":" ++ pad2 m ++ lit ":" ++ pad2 s ++ t) =
            pad2 h ++ lit ":" ++ pad2 m ++ lit ":" ++ pad2 s ++ t) as Htake.
  { intros h m s t ? ? ? ?. apply take_ge. rewrite !length_app, !pad2_two by done.
    change (length (lit ":")) with 1%nat. lia. }
  destruct format.
  - set (h := if cp_hour p mod 12 =? 0 then 12 else cp_hour p mod 12).
    set (h' := if cp_hour q mod 12 =? 0 then 12 else cp_hour q mod 12).
    assert (1 <= h <= 12 /\ 1 <= h' <= 12) as [Hr Hr'].
    { unfold h, h'. destruct (Z.eqb_spec (cp_hour p mod 12) 0), (Z.eqb_spec (cp_hour q mod 12) 0);
        Z.div_mod_to_equations; lia. }
    assert (forall b : bool, (length (lit " " ++ if b then lit "AM" else lit "PM") <= 3)%nat) as Hl
      by (intros []; apply Nat.leb_le; reflexivity).
    rewrite !Htake by (try apply Hl; lia).
    intros [E1 E%(app_inv_head (lit ":"))]%pad2_app_inj; [|lia..].
    apply pad2_app_inj in E as [E2 E%(app_inv_head (lit ":"))]; [|lia..].
    apply pad2_app_inj in E as [E3 E%(app_inv_head (lit " "))]; [|lia..].
    split_and!; [|done..]. unfold h, h' in E1.
    assert ((cp_hour p <? 12) = (cp_hour q <? 12)) as Ehalf
      by by destruct (cp_hour p <? 12), (cp_hour q <? 12).
    destruct (Z.eqb_spec (cp_hour p mod 12) 0), (Z.eqb_spec (cp_hour q mod 12) 0),
      (Z.ltb_spec (cp_hour p) 12), (Z.ltb_spec (cp_hour q) 12); try done; Z.div_mod_to_equations; lia.
  - pose proof (fun h m s H1 H2 H3 => Htake h m s [] H1 H2 H3 ltac:(cbn; lia)) as Ht.
    assert (forall x : bytes, x ++ [] = x) as Hnil by apply app_nil_r.
    rewrite <- (Hnil (pad2 (cp_second p))), <- (Hnil (pad2 (cp_second q))), !Ht by lia.
    intros [E1 E%(app_inv_head (lit ":"))]%pad2_app_inj; [|lia..].
    apply pad2_app_inj in E as [E2 E%(app_inv_head (lit ":"))]; [|lia..].
    apply pad2_app_inj in E as [E3 _]; [done|lia..].
Qed.

Example formatClock_injective_witness :
  let p := split (1787019723 * billion) in
  formatClock p hour12 = lit "02:22:03 AM" /\ cp_hour p = 2 /\ cp_minute p = 22 /\ cp_second p = 3.
Proof.
  cbv zeta. split; [vm_compute; reflexivity|].
  exact (formatClock_injective hour12 (split (1787019723 * billion)) (mk_parts 1999 1 1 2 22 3)
           (split_ok _) ltac:(split; cbn; lia) ltac:(vm_compute; reflexivity)).
Defined.

(** [dateString] reads the clock three times: at midnight on New Year's Eve it can
    print a date a year in the past, which neither reading stands for. *)
Theorem dateString_torn :
  exists before after, after = before + 1 * billion /\
    let p := split before in let q := split after in
    dateString p p p = lit "2026-12-31" /\ dateString q q q = lit "2027-01-01" /\
    dateString p q q = lit "2026-01-01".
Proof. exists (1798761599 * billion), (1798761600 * billion). vm_compute. repeat split. Qed.
