(* ===== verification/SupervisorView.v ===== *)
(** * SupervisorView: the tables the operator reads

    Models [render_services] and [render_backend_status] of
    src/src/supervisor/supervisor.cpp and [to_string(ServiceState)] of service.h: what
    [services] and [backendstatus] print. [wall_timestamp], the local-time rendering of
    an instant, is an argument. *)
From S2P Require Import Prelude Text ServiceConfig Uptime Supervisor.
Open Scope Z_scope.

Definition state_name (s : ServiceState) : bytes :=
  match s with
  | Stopped => lit "stopped"
  | Running => lit "running"
  | Backoff => lit "backoff"
  | Failed => lit "failed"
  | Quarantined => lit "quarantined"
  end.

(** [%-20s] and the like. *)
Definition pad (n : nat) (s : bytes) : bytes := s ++ replicate (n - length s) ch_sp.
(** [snprintf] into a buffer of [n] bytes. *)
Definition snprintf (n : nat) (s : bytes) : bytes := take (n - 1) s.

(** ** [render_services] *)

Definition services_header : bytes := lit "NAME                 STATE        PID      HEALTH   RESTARTS" ++ [ch_nl].

Definition health_text (s : Service) : bytes :=
  if cfg_health_port (cfg s) =? 0 then lit "-"
  else snprintf 8 (if health_known s then (if healthy s then lit "up" else lit "down") else lit "?").
Definition pid_text (s : Service) : bytes := if 0 <? pid s then snprintf 12 (to_string (pid s)) else lit "-".

Definition service_row (s : Service) : bytes :=
  snprintf 160 (pad 20 (c_str (cfg_name (cfg s))) ++ lit " " ++ pad 12 (state_name (state s)) ++ lit " " ++
                pad 8 (pid_text s) ++ lit " " ++ pad 8 (health_text s) ++ lit " " ++
                to_string (restart_count s) ++ [ch_nl]).

Fixpoint service_rows (l : list Service) : bytes :=
  match l with
  | [] => []
  | s :: l => service_row s ++ service_rows l
  end.
Definition render_services (w : World) : bytes := services_header ++ service_rows (services_ w).

(** ** [render_backend_status] *)

Definition kRecentWindow : Z := 3600 * second.

(** The loop over [recent_failures]: [in_hour] and [in_day]. *)
Fixpoint count_failures (now : Z) (ts : list Z) (in_hour in_day : Z) : Z * Z :=
  match ts with
  | [] => (in_hour, in_day)
  | t :: ts =>
      let age := now - t in
      let in_day := if age <=? kFailureWindow then in_day + 1 else in_day in
      let in_hour := if age <=? kRecentWindow then in_hour + 1 else in_hour in
      count_failures now ts in_hour in_day
  end.

Section Render.
Context (wall_timestamp : Z -> bytes) (now : Z).

Definition uptime_text (s : Service) : bytes :=
  if (0 <? pid s) && bool_decide (state s = Running)
  then human_duration (to_seconds (now - last_start s)) else lit "-".
Definition last_failure_text (s : Service) : bytes :=
  if ever_failed s
  then human_duration (to_seconds (now - last_failure_mono s)) ++ lit " ago (" ++ last_failure_reason s ++ lit ")"
  else lit "-".

Definition status_row (s : Service) : bytes :=
  let '(in_hour, in_day) := count_failures now (recent_failures s) 0 0 in
  snprintf 256 (pad 20 (c_str (cfg_name (cfg s))) ++ lit " " ++ pad 12 (state_name (state s)) ++ lit " " ++
                pad 12 (uptime_text s) ++ lit " " ++ pad 13 (to_string in_hour) ++ lit " " ++
                pad 4 (to_string in_day) ++ lit " " ++ pad 7 (to_string (failure_count s)) ++ lit " " ++
                c_str (last_failure_text s) ++ [ch_nl]).

(** The first loop: the rows, and how many services are down. *)
Fixpoint status_rows (l : list Service) (down : Z) : bytes * Z :=
  match l with
  | [] => ([], down)
  | s :: l =>
      let down := if is_down s then down + 1 else down in
      let '(rest, n) := status_rows l down in (status_row s ++ rest, n)
  end.

Definition callout (s : Service) : bytes :=
  let down_secs := to_seconds (now - down_since_mono s) in
  let name := c_str (cfg_name (cfg s)) in
  snprintf 512
    (if decide (state s = Quarantined) then
       lit "  '" ++ name ++ lit "' quarantined " ++ human_duration down_secs ++ lit " ago (at " ++
       wall_timestamp (down_since_wall s) ++ lit ")" ++ [ch_nl] ++
       lit "      tripped by " ++ to_string (Z.of_nat (length (recent_failures s))) ++ lit " failures within " ++
       to_string 24 ++ lit "h (limit " ++ to_string kMaxFailures ++ lit ")" ++ [ch_nl] ++
       lit "      last failure: " ++ c_str (last_failure_reason s) ++ [ch_nl] ++
       lit "      recover with: restart " ++ name ++ [ch_nl]
     else
       lit "  '" ++ name ++ lit "' down " ++ human_duration down_secs ++ lit " ago (at " ++
       wall_timestamp (down_since_wall s) ++ lit ")" ++ [ch_nl] ++
       lit "      exited with autorestart disabled" ++ [ch_nl] ++
       lit "      last failure: " ++ c_str (last_failure_reason s) ++ [ch_nl] ++
       lit "      recover with: restart " ++ name ++ [ch_nl]).

(** The second loop. *)
Fixpoint callouts (l : list Service) : bytes :=
  match l with
  | [] => []
  | s :: l => if is_down s then callout s ++ callouts l else callouts l
  end.

Definition status_header : bytes :=
  lit "NAME                 STATE        UPTIME       FAILURES: 1h  24h  TOTAL   LAST FAILURE" ++ [ch_nl].
Definition down_banner : bytes := [ch_nl] ++ lit "PERMANENTLY DOWN — not being restarted:" ++ [ch_nl].

Definition render_backend_status (w : World) : bytes :=
  let '(rows, down) := status_rows (services_ w) 0 in
  status_header ++ rows ++
  (if decide (services_ w = []) then lit "(no services configured)" ++ [ch_nl] else []) ++
  (if 0 <? down then down_banner ++ callouts (services_ w) else []).

(** ** The counts *)

Lemma count_failures_filter ts h d :
  count_failures now ts h d =
    (h + Z.of_nat (length (filter (fun t => now - t <= kRecentWindow) ts)),
     d + Z.of_nat (length (filter (fun t => now - t <= kFailureWindow) ts))).
Proof.
  revert h d. induction ts as [|t ts IH]; intros h d; cbn [count_failures]; [by rewrite !filter_nil, !Z.add_0_r|].
  rewrite IH, !filter_cons.
  destruct (Z.leb_spec (now - t) kRecentWindow), (Z.leb_spec (now - t) kFailureWindow);
    repeat case_decide; cbn [length]; f_equal; lia.
Qed.

Lemma status_rows_spec l n :
  status_rows l n = (concat (status_row <$> l), n + Z.of_nat (length (filter (fun s => is_down s = true) l))).
Proof.
  revert n. induction l as [|s l IH]; intros n; cbn [status_rows]; [by rewrite filter_nil, Z.add_0_r|].
  rewrite IH, filter_cons. destruct (is_down s).
  - rewrite decide_True by done. cbn. f_equal. lia.
  - by rewrite decide_False.
Qed.

Lemma callouts_spec l : callouts l = concat (callout <$> filter (fun s => is_down s = true) l).
Proof.
  induction l as [|s l IH]; [done|]. cbn [callouts]. rewrite filter_cons, IH. destruct (is_down s).
  - by rewrite decide_True.
  - by rewrite decide_False.
Qed.
(** ** What the report says *)

(** The failures columns count exactly the failures of the last hour and of the last
    24 hours, the first among the second. *)
Theorem failure_columns ts :
  let '(in_hour, in_day) := count_failures now ts 0 0 in
  in_hour = Z.of_nat (length (filter (fun t => now - t <= 3600 * second) ts)) /\
  in_day = Z.of_nat (length (filter (fun t => now - t <= 24 * 3600 * second) ts)) /\
  0 <= in_hour <= in_day.
Proof.
  rewrite count_failures_filter. split_and!; [done..|lia|].
  assert (forall P Q : Z -> Prop, forall (dP : forall t, Decision (P t)) (dQ : forall t, Decision (Q t)),
            (forall t, P t -> Q t) -> (length (filter P ts) <= length (filter Q ts))%nat) as H.
  { intros P Q dP dQ HPQ. induction ts as [|t l IH]; [done|]. rewrite !filter_cons.
    destruct (decide (P t)), (decide (Q t)); cbn; try lia. exfalso; auto. }
  apply inj_le, H. intros t. unfold kRecentWindow, kFailureWindow. unfold second. lia.
Qed.

Lemma render_backend_status_parts w :
  render_backend_status w =
    status_header ++ concat (status_row <$> services_ w) ++
    (if decide (services_ w = []) then lit "(no services configured)" ++ [ch_nl] else []) ++
    (if decide (filter (fun s => is_down s = true) (services_ w) = []) then []
     else down_banner ++ concat (callout <$> filter (fun s => is_down s = true) (services_ w))).
Proof.
  unfold render_backend_status. rewrite status_rows_spec, callouts_spec. do 3 f_equal.
  destruct (filter _ _) as [|s l]; [done|]. cbn [length]. rewrite (proj2 (Z.ltb_lt _ _)) by lia.
  by rewrite decide_False.
Qed.

(** The report has one row per service, and calls out a service exactly when it is
    down: in every state the supervisor can reach, those are all the quarantined and
    failed services, and never one with a child running. *)
Theorem backend_status_report os configs w :
  (forall k, os_fork os k <> 0) -> (forall a b, (a <= b)%nat -> os_mono os a <= os_mono os b) ->
  reachable os configs w ->
  exists down,
    render_backend_status w =
      status_header ++ concat (status_row <$> services_ w) ++
      (if decide (services_ w = []) then lit "(no services configured)" ++ [ch_nl] else []) ++
      (if decide (down = []) then [] else down_banner ++ concat (callout <$> down)) /\
    down = filter (fun s => is_down s = true) (services_ w) /\
    forall s, s ∈ services_ w ->
      (state s = Failed \/ state s = Quarantined -> s ∈ down) /\ (state s = Running -> s ∉ down).
Proof.
  intros Hf Hm Hr. exists (filter (fun s => is_down s = true) (services_ w)).
  split_and!; [apply render_backend_status_parts|done|]. intros s Hs.
  apply list_elem_of_lookup_1 in Hs as [i Hi].
  destruct (proj2 (reachable_wf os Hf Hm configs w Hr) i s Hi) as [_ Hwf]. split.
  - intros Ht. apply list_elem_of_filter. split; [by apply (wf_terminal _ _ Hwf)|by eapply list_elem_of_lookup_2].
  - intros Ht [Hd _]%list_elem_of_filter. by apply (wf_down _ _ Hwf) in Hd.
Qed.
End Render.

Definition plain_stamp (_ : Z) : bytes := lit "today".

Example backend_status_report_witness :
  let w := demo_world (demo_crash 3) in
  reachable demo_os [demo_config] w /\
  exists down,
    render_backend_status plain_stamp (1000 * second) w =
      status_header ++ concat (status_row (1000 * second) <$> services_ w) ++
      (if decide (services_ w = []) then lit "(no services configured)" ++ [ch_nl] else []) ++
      (if decide (down = []) then [] else down_banner ++ concat (callout plain_stamp (1000 * second) <$> down)) /\
    down = filter (fun s => is_down s = true) (services_ w) /\
    forall s, s ∈ services_ w ->
      (state s = Failed \/ state s = Quarantined -> s ∈ down) /\ (state s = Running -> s ∉ down).
Proof.
  cbv zeta. split; [apply demo_reachable|].
  exact (backend_status_report plain_stamp (1000 * second) demo_os [demo_config] _ demo_fork demo_mono (demo_reachable _)).
Defined.

(** [services] of one running service. *)
Example render_services_ex :
  render_services (demo_world []) =
    services_header ++ lit "api                  running      100      -        0" ++ [ch_nl].
Proof. vm_compute. reflexivity. Qed.

(** An operating system whose second [fork] fails. *)
Definition no_refork : OS :=
  mk_os (fun k => Z.of_nat k * 100 * second) (fun _ => 0) (fun k => if (k =? 1)%nat then -1 else 100 + Z.of_nat k)
    (fun _ => true) (fun _ => None).
Definition once : ServiceConfig := demo_config <| cfg_autorestart := false |>.

(** After a restart whose [fork] fails, the report still calls the service permanently
    down and "exited with autorestart disabled", in the same table that shows it waiting
    to be launched again. *)
Theorem failed_restart_misreported :
  let w := run_events no_refork [once] [Sigchld [(100, 256)]; RestartTask (lit "api")] in
  exists s, services_ w = [s] /\ state s = Backoff /\
    render_backend_status plain_stamp (1000 * second) w =
      status_header ++ status_row (1000 * second) s ++ down_banner ++
      lit "  'api' down 13m 20s ago (at today)" ++ [ch_nl] ++
      lit "      exited with autorestart disabled" ++ [ch_nl] ++
      lit "      last failure: exit 1" ++ [ch_nl] ++
      lit "      recover with: restart api" ++ [ch_nl].
Proof. eexists. split; [vm_compute; reflexivity|]. vm_compute. split; reflexivity. Qed.
