(* ===== verification/Picohttp.v ===== *)
(** * Picohttp: the tokenizer of request heads

    Models [phr_parse_request] of the vendored picohttpparser
    (src/third_party/picohttpparser/picohttpparser.{h,c}) and what it calls. [buf] is the
    rest of the input, [buf_end] its end: reading a byte there is [Overrun]; a function that
    returns NULL is [Stop ret]. The source has two forms of its inner loops, chosen when it
    is compiled: [sse] is [__SSE4_2__]. Both are modelled, and proved to agree. *)
From S2P Require Import Prelude Text.
Open Scope Z_scope.

(** ** Parsers *)

Inductive outcome (A : Type) :=
  | Ret (v : A) (buf : bytes)
  | Stop (ret : Z)
  | Overrun.
#[global] Arguments Ret {A} _ _.
#[global] Arguments Stop {A} _.
#[global] Arguments Overrun {A}.

Definition parser (A : Type) := bytes -> outcome A.
#[export] Instance parser_ret : MRet parser := fun A v s => Ret v s.
#[export] Instance parser_bind : MBind parser := fun A B f p s =>
  match p s with Ret v s => f v s | Stop ret => Stop ret | Overrun => Overrun end.
Notation "'let*' x := p 'in' k" := (parser_bind _ _ (fun x => k) p)
  (at level 200, x name, right associativity, only parsing).

Definition stop {A} (ret : Z) : parser A := fun _ => Stop ret.

(** [*buf], and [++buf]. *)
Definition peek : parser ascii := fun s => match s with c :: _ => Ret c s | [] => Overrun end.
Definition advance : parser unit := fun s => match s with _ :: s => Ret tt s | [] => Overrun end.

(** The macros. *)
Definition IS_PRINTABLE_ASCII (c : ascii) : bool := (32 <=? code c) && (code c <? 127).
Definition CHECK_EOF : parser unit := fun s => match s with [] => Stop (-2) | _ => Ret tt s end.
Definition EXPECT_CHAR_NO_CHECK (ch : ascii) : parser unit :=
  let* c := peek in
  let* _ := advance in
  if decide (c = ch) then mret tt else stop (-1).
Definition EXPECT_CHAR (ch : ascii) : parser unit := let* _ := CHECK_EOF in EXPECT_CHAR_NO_CHECK ch.
Definition PARSE_INT (mul : Z) : parser Z :=
  let* c := peek in
  if (code c <? 48) || (57 <? code c) then stop (-1)
  else let* _ := advance in mret (mul * (code c - 48)).

(** A byte was passed over. *)
Definition passing (c : ascii) (o : outcome bytes) : outcome bytes :=
  match o with Ret t s => Ret (c :: t) s | o => o end.
Definition passing_all (skipped : bytes) (o : outcome bytes) : outcome bytes :=
  match o with Ret t s => Ret (skipped ++ t) s | o => o end.

(** ** The inner loops *)

Section Tokenizer.
Context (sse : bool).

(** A byte in one of the ranges, each given by its ends. *)
Fixpoint in_ranges (ranges : list (Z * Z)) (c : ascii) : bool :=
  match ranges with
  | [] => false
  | (a, b) :: ranges => ((a <=? code c) && (code c <=? b)) || in_ranges ranges c
  end.

(** [_mm_cmpestri]: the index of the first byte of the block in a range. *)
Fixpoint cmpestri (ranges : list (Z * Z)) (block : bytes) : option nat :=
  match block with
  | [] => None
  | c :: block => if in_ranges ranges c then Some O else S <$> cmpestri ranges block
  end.

(** [left / 16] blocks: the bytes passed over, the rest, and [found]. *)
Fixpoint blocks (ranges : list (Z * Z)) (n : nat) (s : bytes) : bytes * bytes * bool :=
  match n with
  | O => ([], s, false)
  | S n =>
      match cmpestri ranges (take 16 s) with
      | Some r => (take r s, drop r s, true)
      | None => let '(a, b, found) := blocks ranges n (drop 16 s) in (take 16 s ++ a, b, found)
      end
  end.
Definition findchar_fast (ranges : list (Z * Z)) (s : bytes) : bytes * bytes * bool :=
  if sse && (16 <=? length s)%nat then blocks ranges (length s / 16) s else ([], s, false).

(** [ADVANCE_TOKEN]: the loop, then the macro; the token is what was passed over. *)
Definition token_ranges2 : list (Z * Z) := [(0, 32); (127, 127)].
Fixpoint advance_loop (s : bytes) : outcome bytes :=
  match s with
  | [] => Overrun
  | c :: s' =>
      if decide (c = " "%char) then Ret [] s
      else if negb (IS_PRINTABLE_ASCII c) && ((code c <? 32) || (code c =? 127)) then Stop (-1)
      else passing c (match s' with [] => Stop (-2) | _ => advance_loop s' end)
  end.
Definition ADVANCE_TOKEN : parser bytes := fun s =>
  let '(skipped, s, found) := findchar_fast token_ranges2 s in
  passing_all skipped ((let* _ := (if found : bool then mret tt else CHECK_EOF) in advance_loop) s).

(** The characters of a token, by their code. *)
Definition token_char_map : bytes :=
  lit "00000000000000000000000000000000" ++
  lit "01011111001101101111111111000000" ++
  lit "01111111111111111111111111100011" ++
  lit "11111111111111111111111111101010" ++
  replicate 128 "0"%char.
Definition token_char (c : ascii) : bool := bool_decide (token_char_map !! Z.to_nat (code c) = Some "1"%char).

Definition token_ranges : list (Z * Z) :=
  [(0, 32); (34, 34); (40, 41); (44, 44); (47, 47); (58, 64); (91, 93); (123, 255)].
Fixpoint parse_token_loop (next_char : ascii) (s : bytes) : outcome bytes :=
  match s with
  | [] => Overrun
  | c :: s' =>
      if decide (c = next_char) then Ret [] s
      else if negb (token_char c) then Stop (-1)
      else passing c (match s' with [] => Stop (-2) | _ => parse_token_loop next_char s' end)
  end.
Definition parse_token (next_char : ascii) : parser bytes := fun s =>
  let '(skipped, s, found) := findchar_fast token_ranges s in
  passing_all skipped ((let* _ := (if found : bool then mret tt else CHECK_EOF) in parse_token_loop next_char) s).

(** [get_token_to_eol]. The bytes that end a value: controls other than HT, and DEL. *)
Definition ends_value (c : ascii) : bool := ((code c <? 32) && negb (code c =? 9)) || (code c =? 127).
Definition token_ranges1 : list (Z * Z) := [(0, 8); (10, 31); (127, 127)].

(** [while (buf_end - buf >= 8)], eight [DOIT]s to a turn: what was passed over, the rest,
    and whether it stopped at [FOUND_CTL]. A turn passes at least a byte. *)
Fixpoint doit (n : nat) (s : bytes) : option (bytes * bytes * bool) :=
  match n with
  | O => Some ([], s, true)
  | S n =>
      match s with
      | [] => None
      | c :: s' =>
          if IS_PRINTABLE_ASCII c then '(a, b, all) ← doit n s'; Some (c :: a, b, all)
          else Some ([], s, false)                                        (* NonPrintable *)
      end
  end.
Fixpoint hot_loop (fuel : nat) (s : bytes) : option (bytes * bytes * bool) :=
  match fuel with
  | O => None
  | S fuel =>
      if (8 <=? length s)%nat then
        '(a, s, all) ← doit 8 s;
        if all : bool then '(a', b, f) ← hot_loop fuel s; Some (a ++ a', b, f)
        else
          match s with
          | [] => None
          | c :: s' =>
              if ends_value c then Some (a, s, true)
              else '(a', b, f) ← hot_loop fuel s'; Some (a ++ c :: a', b, f)
          end
      else Some ([], s, false)
  end.
Fixpoint eol_loop (s : bytes) : outcome bytes :=
  match s with
  | [] => Stop (-2)
  | c :: s' => if negb (IS_PRINTABLE_ASCII c) && ends_value c then Ret [] s else passing c (eol_loop s')
  end.
Definition to_ctl : parser bytes := fun s =>
  if sse then
    let '(skipped, s, found) := findchar_fast token_ranges1 s in
    if found then Ret skipped s else passing_all skipped (eol_loop s)
  else
    match hot_loop (S (length s)) s with
    | None => Overrun
    | Some (skipped, s, found) => if found then Ret skipped s else passing_all skipped (eol_loop s)
    end.
Definition get_token_to_eol : parser bytes :=
  let* token := to_ctl in
  let* c := peek in
  if decide (c = ch_cr) then
    let* _ := advance in
    let* _ := EXPECT_CHAR ch_nl in mret token
  else if decide (c = ch_nl) then let* _ := advance in mret token
  else stop (-1).

(** ** The request *)

Record phr_header := mk_header { h_name : option bytes; h_value : bytes }.  (* a null name: a continuation line *)

Definition parse_http_version : parser Z :=
  let* _ := (fun s => if (length s <? 9)%nat then Stop (-2) else Ret tt s) in
  let* _ := EXPECT_CHAR_NO_CHECK "H" in
  let* _ := EXPECT_CHAR_NO_CHECK "T" in
  let* _ := EXPECT_CHAR_NO_CHECK "T" in
  let* _ := EXPECT_CHAR_NO_CHECK "P" in
  let* _ := EXPECT_CHAR_NO_CHECK "/" in
  let* _ := EXPECT_CHAR_NO_CHECK "1" in
  let* _ := EXPECT_CHAR_NO_CHECK "." in
  PARSE_INT 1.

Definition ch_ht : ascii := "009"%char.
Definition sp_or_ht (c : ascii) : bool := bool_decide (c = " "%char \/ c = ch_ht).

(** [for (;; ++buf) { CHECK_EOF(); if (!(sp or ht)) break; }] *)
Fixpoint skip_blanks (s : bytes) : outcome unit :=
  match s with
  | [] => Stop (-2)
  | c :: s' => if sp_or_ht c then skip_blanks s' else Ret tt s
  end.
(** [do { ++buf; CHECK_EOF(); } while ( *buf == ' ')] *)
Fixpoint skip_spaces (s : bytes) : outcome unit :=
  match s with
  | [] => Overrun
  | _ :: s' =>
      match s' with
      | [] => Stop (-2)
      | c :: _ => if decide (c = " "%char) then skip_spaces s' else Ret tt s'
      end
  end.

(** Remove trailing SPs and HTABs. *)
Fixpoint trim_end (value : bytes) : bytes :=
  match value with
  | [] => []
  | c :: v => match trim_end v with [] => if sp_or_ht c then [] else [c] | v => c :: v end
  end.

(** An end of line, if the input is at one. *)
Definition eol : parser bool :=
  let* c := peek in
  if decide (c = ch_cr) then
    let* _ := advance in
    let* _ := EXPECT_CHAR ch_nl in mret true
  else if decide (c = ch_nl) then let* _ := advance in mret true
  else mret false.

(** The name of a header, or NULL on a continuation line. *)
Definition header_name (first : bool) : parser (option bytes) :=
  let* c := peek in
  if negb (negb first && sp_or_ht c) then
    let* name := parse_token ":" in
    if decide (name = []) then stop (-1)
    else
      let* _ := advance in
      let* _ := skip_blanks in mret (Some name)
  else mret None.

(** [room] is [max_headers - *num_headers]. *)
Fixpoint parse_headers (room : nat) (first : bool) : parser (list phr_header) :=
  let* _ := CHECK_EOF in
  let* over := eol in
  if over : bool then mret []
  else
    match room with
    | O => stop (-1)
    | S room =>
        let* name := header_name first in
        let* value := get_token_to_eol in
        let* hs := parse_headers room false in
        mret (mk_header name (trim_end value) :: hs)
    end.

Record request := mk_request { r_method : bytes; r_path : bytes; r_minor_version : Z; r_headers : list phr_header }.

Definition parse_request (max_headers : nat) : parser request :=
  let* _ := CHECK_EOF in
  let* _ := eol in
  let* method := parse_token " " in
  let* _ := skip_spaces in
  let* path := ADVANCE_TOKEN in
  let* _ := skip_spaces in
  if decide (method = [] \/ path = []) then stop (-1)
  else
    let* minor_version := parse_http_version in
    let* over := eol in
    if over : bool then
      let* hs := parse_headers max_headers true in
      mret (mk_request method path minor_version hs)
    else stop (-1).

(** [is_complete]: from [ret_cnt] on. *)
Fixpoint is_complete_loop (ret_cnt : nat) (s : bytes) : outcome unit :=
  match s with
  | [] => Stop (-2)
  | c :: s' =>
      if decide (c = ch_cr) then
        match s' with
        | [] => Stop (-2)
        | d :: s'' =>
            if decide (d = ch_nl) then
              if decide (S ret_cnt = 2%nat) then Ret tt s'' else is_complete_loop (S ret_cnt) s''
            else Stop (-1)
        end
      else if decide (c = ch_nl) then if decide (S ret_cnt = 2%nat) then Ret tt s' else is_complete_loop (S ret_cnt) s'
      else is_complete_loop 0 s'
  end.
Definition is_complete (last_len : nat) : parser unit := fun s =>
  is_complete_loop 0 (if (last_len <? 3)%nat then s else drop (last_len - 3) s).

Definition phr_parse_request (max_headers last_len : nat) : parser request := fun s =>
  if (0 <? last_len)%nat then
    match is_complete last_len s with
    | Ret _ _ => parse_request max_headers s
    | Stop ret => Stop ret
    | Overrun => Overrun
    end
  else parse_request max_headers s.
End Tokenizer.
