(* ===== verification/PicohttpSpec.v ===== *)
(** * PicohttpSpec: what the tokenizer promises

    The two compiled forms of [Picohttp.v] agree; no read leaves the buffer; what was decided
    stays decided when more bytes come; the tokens of an accepted request hold no byte that
    could end a line; and a request that is printed is read back. *)
From S2P Require Import Prelude Text Picohttp.
Open Scope Z_scope.

(** ** The inner loops, without their fast paths

    [dec] is what a loop does at a byte: break, fail, or go on. *)
Fixpoint take_loop (dec : ascii -> option bool) (s : bytes) : outcome bytes :=
  match s with
  | [] => Stop (-2)
  | c :: s' =>
      match dec c with
      | Some true => Ret [] s
      | Some false => Stop (-1)
      | None => passing c (take_loop dec s')
      end
  end.

Definition ctl (c : ascii) : bool := (code c <? 32) || (code c =? 127).
Definition dec_token (next_char c : ascii) : option bool :=
  if decide (c = next_char) then Some true else if token_char c then None else Some false.
Definition dec_path (c : ascii) : option bool :=
  if decide (c = " "%char) then Some true else if ctl c then Some false else None.
Definition dec_value (c : ascii) : option bool := if ends_value c then Some true else None.

(** A fact about bytes that holds of each of them. *)
Ltac each_byte := let c := fresh in intros c; destruct c as [[] [] [] [] [] [] [] []]; vm_compute; intros; first [done | congruence].

Lemma passing_all_nil o : passing_all [] o = o.
Proof. by destruct o. Qed.
Lemma passing_all_cons c l o : passing_all (c :: l) o = passing c (passing_all l o).
Proof. by destruct o. Qed.
Lemma passing_all_app a b o : passing_all (a ++ b) o = passing_all a (passing_all b o).
Proof. induction a as [|c a IH]; [by rewrite passing_all_nil|]. by rewrite <- app_comm_cons, !passing_all_cons, IH. Qed.

(** Bytes the loop goes on at can be passed over at once. *)
Lemma take_loop_skip dec a s : Forall (fun c => dec c = None) a -> take_loop dec (a ++ s) = passing_all a (take_loop dec s).
Proof.
  induction 1 as [|c a Hc _ IH]; cbn [app take_loop]; [by rewrite passing_all_nil|]. by rewrite Hc, IH, passing_all_cons.
Qed.

(** At a byte of the ranges. *)
Definition stopped_at (ranges : list (Z * Z)) (s : bytes) : Prop := exists c r, s = c :: r /\ in_ranges ranges c = true.

Lemma cmpestri_spec ranges s :
  match cmpestri ranges s with
  | Some r => (r < length s)%nat /\ Forall (fun c => in_ranges ranges c = false) (take r s) /\ stopped_at ranges (drop r s)
  | None => Forall (fun c => in_ranges ranges c = false) s
  end.
Proof.
  induction s as [|c s IH]; cbn; [done|].
  destruct (in_ranges ranges c) eqn:Hc; [cbn; split_and!; [lia|done|by exists c, s]|].
  destruct (cmpestri ranges s) as [r|]; cbn.
  - destruct IH as (? & ? & ?). split_and!; [lia|by constructor|done].
  - by constructor.
Qed.

Lemma blocks_spec ranges n s a b f :
  blocks ranges n s = (a, b, f) ->
  s = a ++ b /\ Forall (fun c => in_ranges ranges c = false) a /\ (f = true -> stopped_at ranges b).
Proof.
  revert s a b f. induction n as [|n IH]; intros s a b f; cbn [blocks]; [by intros [= <- <- <-]|].
  pose proof (cmpestri_spec ranges (take 16 s)) as Hc. destruct (cmpestri _ _) as [r|].
  - destruct Hc as (Hr & Hall & c & t & Hd & Hin). intros [= <- <- <-]. rewrite length_take in Hr.
    split_and!; [by rewrite take_drop| |intros _].
    + rewrite take_take in Hall. by rewrite Nat.min_l in Hall by lia.
    + exists c, (t ++ drop 16 s). split; [|done]. rewrite <- (take_drop 16 s) at 1. rewrite drop_app_le by (rewrite length_take; lia).
      by rewrite Hd.
  - destruct (blocks ranges n (drop 16 s)) as [[a' b'] f'] eqn:Hb. apply IH in Hb as (Hs & Hall & Hf).
    intros [= <- <- <-]. split_and!; [by rewrite <- (assoc_L app), <- Hs, take_drop|by apply Forall_app|done].
Qed.

Lemma findchar_fast_spec sse ranges s a b f :
  findchar_fast sse ranges s = (a, b, f) ->
  s = a ++ b /\ Forall (fun c => in_ranges ranges c = false) a /\ (f = true -> stopped_at ranges b).
Proof. unfold findchar_fast. destruct (_ && _); [apply blocks_spec|by intros [= <- <- <-]]. Qed.

(** A loop that first passes over what is in no range, then takes the slow form. *)
Lemma fast_loop sse ranges dec (loop : bytes -> outcome bytes) s :
  (forall c, in_ranges ranges c = false -> dec c = None) ->
  (forall s, s <> [] -> loop s = take_loop dec s) ->
  (let '(skipped, s, found) := findchar_fast sse ranges s in
   passing_all skipped ((let* _ := (if found : bool then mret tt else CHECK_EOF) in loop) s)) = take_loop dec s.
Proof.
  intros Hr Hl. destruct (findchar_fast sse ranges s) as [[a b] f] eqn:Hf. apply findchar_fast_spec in Hf as (-> & Ha & Hb).
  rewrite take_loop_skip by (eapply Forall_impl; [exact Ha|]; cbv beta; auto). f_equal.
  unfold parser_bind. destruct f; cbn [mret parser_ret].
  - destruct (Hb eq_refl) as (c & r & -> & _). by apply Hl.
  - destruct b; [done|by apply Hl].
Qed.

Lemma parse_token_loop_eq next s : s <> [] -> parse_token_loop next s = take_loop (dec_token next) s.
Proof.
  induction s as [|c s IH]; intros Hne; [done|]. cbn [parse_token_loop take_loop]. unfold dec_token at 1.
  destruct (decide (c = next)); [done|]. destruct (token_char c); cbn [negb]; [|done]. f_equal. destruct s; [done|by apply IH].
Qed.

Lemma advance_loop_eq s : s <> [] -> advance_loop s = take_loop dec_path s.
Proof.
  induction s as [|c s IH]; intros Hne; [done|]. cbn [advance_loop take_loop]. unfold dec_path at 1.
  destruct (decide (c = " "%char)); [done|].
  assert (negb (IS_PRINTABLE_ASCII c) && ((code c <? 32) || (code c =? 127)) = ctl c) as ->.
  { unfold IS_PRINTABLE_ASCII, ctl. destruct (Z.leb_spec 32 (code c)), (Z.ltb_spec (code c) 127), (Z.ltb_spec (code c) 32),
      (Z.eqb_spec (code c) 127); try done; lia. }
  destruct (ctl c); [done|]. f_equal. destruct s; [done|by apply IH].
Qed.

Lemma eol_loop_eq s : eol_loop s = take_loop dec_value s.
Proof.
  induction s as [|c s IH]; [done|]. cbn [eol_loop take_loop]. unfold dec_value at 1.
  assert (negb (IS_PRINTABLE_ASCII c) && ends_value c = ends_value c) as ->.
  { unfold IS_PRINTABLE_ASCII, ends_value. destruct (Z.leb_spec 32 (code c)), (Z.ltb_spec (code c) 127), (Z.ltb_spec (code c) 32),
      (Z.eqb_spec (code c) 127), (Z.eqb_spec (code c) 9); try done; lia. }
  destruct (ends_value c); [done|]. by rewrite IH.
Qed.

(** The first byte that ends a value is found, whichever way it is looked for. *)
Lemma doit_spec n s :
  (n <= length s)%nat ->
  exists a b all, doit n s = Some (a, b, all) /\ s = a ++ b /\ Forall (fun c => IS_PRINTABLE_ASCII c = true) a /\
    if all : bool then length a = n else b <> [].
Proof.
  revert s. induction n as [|n IH]; intros s Hn; [by exists [], s, true|].
  destruct s as [|c s]; [cbn in Hn; lia|]. cbn [doit]. destruct (IS_PRINTABLE_ASCII c) eqn:Hc.
  - destruct (IH s) as (a & b & all & Hd & Hs & Ha & Hall); [cbn in Hn; lia|]. rewrite Hd. cbn. exists (c :: a), b, all.
    split_and!; [done|by rewrite Hs|by constructor|]. destruct all; [cbn; by rewrite Hall|done].
  - exists [], (c :: s), false. by split_and!.
Qed.

Lemma printable_goes_on c : IS_PRINTABLE_ASCII c = true -> dec_value c = None.
Proof. revert c. each_byte. Qed.

Lemma hot_loop_spec fuel s :
  (length s < fuel)%nat ->
  exists a b f, hot_loop fuel s = Some (a, b, f) /\ s = a ++ b /\ Forall (fun c => dec_value c = None) a /\
    (f = true -> exists c r, b = c :: r /\ ends_value c = true).
Proof.
  revert s. induction fuel as [|fuel IH]; intros s Hf; [lia|]. cbn [hot_loop].
  destruct (Nat.leb_spec 8 (length s)) as [H8|]; [|by exists [], s, false].
  destruct (doit_spec 8 s H8) as (a & b & all & -> & Hs & Ha & Hall). cbn [mbind option_bind].
  assert (Forall (fun c => dec_value c = None) a) as Ha'.
  { eapply Forall_impl; [exact Ha|]. apply printable_goes_on. }
  assert (length s = length a + length b)%nat as Hl by (by rewrite Hs, length_app).
  destruct all.
  - destruct (IH b) as (a' & b' & f & -> & Hb & Ha2 & Hft); [lia|]. cbn. exists (a ++ a'), b', f.
    split_and!; [done|by rewrite <- (assoc_L app), <- Hb|by apply Forall_app|done].
  - destruct b as [|c b]; [done|]. destruct (ends_value c) eqn:Hc.
    + exists a, (c :: b), true. split_and!; [done..|]. intros _. by exists c, b.
    + destruct (IH b) as (a' & b' & f & -> & Hb & Ha2 & Hft); [cbn in Hl; lia|]. cbn. exists (a ++ c :: a'), b', f.
      split_and!; [done|by rewrite <- (assoc_L app), <- app_comm_cons, <- Hb| |done].
      apply Forall_app. split; [done|]. constructor; [|done]. unfold dec_value. by rewrite Hc.
Qed.

Lemma to_ctl_eq sse s : to_ctl sse s = take_loop dec_value s.
Proof.
  unfold to_ctl. destruct sse.
  - destruct (findchar_fast true token_ranges1 s) as [[a b] f] eqn:Hf. apply findchar_fast_spec in Hf as (-> & Ha & Hb).
    assert (forall c, in_ranges token_ranges1 c = ends_value c) as Hr by each_byte.
    rewrite take_loop_skip. 2: { eapply Forall_impl; [exact Ha|]. intros c Hc. unfold dec_value. by rewrite <- Hr, Hc. }
    destruct f; [|by rewrite eol_loop_eq]. destruct (Hb eq_refl) as (c & r & -> & Hc). cbn [take_loop].
    unfold dec_value at 1. rewrite <- Hr, Hc. cbn. by rewrite app_nil_r.
  - destruct (hot_loop_spec (S (length s)) s) as (a & b & f & -> & Hs & Ha & Hft); [lia|]. rewrite Hs.
    rewrite take_loop_skip by done. destruct f; [|by rewrite eol_loop_eq].
    destruct (Hft eq_refl) as (c & r & -> & Hc). cbn [take_loop]. unfold dec_value at 1. rewrite Hc. cbn. by rewrite app_nil_r.
Qed.

(** ** What a parser decides

    From an input of which [P] holds, [p] reads inside the buffer; it returns a value and a
    suffix of the input of which [Q] holds, or fails, and more input would change neither;
    or it asks for more (-2). *)
Definition decides {A} (P : bytes -> Prop) (p : parser A) (Q : A -> bytes -> Prop) : Prop := forall s, P s ->
  match p s with
  | Ret v r => Q v r /\ (exists t, s = t ++ r) /\ forall more, p (s ++ more) = Ret v (r ++ more)
  | Stop ret => ret = -2 \/ ret = -1 /\ forall more, p (s ++ more) = Stop (-1)
  | Overrun => False
  end.
Definition at_least (n : nat) (s : bytes) : Prop := (n <= length s)%nat.
Definition any : bytes -> Prop := fun _ => True.

Lemma decides_weaken {A} (P P' : bytes -> Prop) (p : parser A) (Q Q' : A -> bytes -> Prop) :
  decides P p Q -> (forall s, P' s -> P s) -> (forall v s, Q v s -> Q' v s) -> decides P' p Q'.
Proof. intros Hp HP HQ s Hs. specialize (Hp s (HP s Hs)). destruct (p s); naive_solver. Qed.

Lemma decides_ext {A} (P : bytes -> Prop) (p p' : parser A) Q : (forall s, p s = p' s) -> decides P p' Q -> decides P p Q.
Proof.
  intros He Hp s Hs. specialize (Hp s Hs). rewrite He. destruct (p' s); [| |done].
  - destruct Hp as (? & ? & Hm). split_and!; [done..|]. intros more. by rewrite He.
  - destruct Hp as [->|[-> Hm]]; [by left|]. right. split; [done|]. intros more. by rewrite He.
Qed.

Lemma decides_bind {A B} P (p : parser A) Q (f : A -> parser B) R :
  decides P p Q -> (forall v, decides (Q v) (f v) R) -> decides P (parser_bind _ _ f p) R.
Proof.
  intros Hp Hf s Hs. specialize (Hp s Hs). unfold parser_bind. destruct (p s) as [v r|ret|]; [| |done].
  - destruct Hp as (HQ & (t & ->) & Hm). specialize (Hf v r HQ). destruct (f v r) as [w r'|ret|] eqn:Hfr; [| |done].
    + destruct Hf as (HR & (t' & ->) & Hm'). split_and!; [done|by exists (t ++ t'); rewrite (assoc_L app)|].
      intros more. by rewrite Hm, Hm'.
    + destruct Hf as [->|[-> Hm']]; [by left|]. right. split; [done|]. intros more. by rewrite Hm, Hm'.
  - destruct Hp as [->|[-> Hm]]; [by left|]. right. split; [done|]. intros more. by rewrite Hm.
Qed.

(** What is known already stays known. *)
Lemma decides_pure {A} (R : Prop) P (p : parser A) Q :
  (R -> decides P p Q) -> decides (fun s => R /\ P s) p (fun v s => R /\ Q v s).
Proof. intros Hp s [HR Hs]. specialize (Hp HR s Hs). by destruct (p s); naive_solver. Qed.

Lemma decides_known {A} (R : Prop) (P : bytes -> Prop) (p : parser A) Q :
  (forall s, P s -> R) -> decides any p Q -> decides P p (fun v s => R /\ Q v s).
Proof. intros HR Hp s Hs. specialize (HR s Hs). specialize (Hp s I). by destruct (p s); naive_solver. Qed.

Lemma decides_ret {A} (P : bytes -> Prop) (x : A) (Q : A -> bytes -> Prop) : (forall s, P s -> Q x s) -> decides P (mret x) Q.
Proof. intros HQ s Hs. cbn. split_and!; [by apply HQ|by exists []|done]. Qed.

Lemma decides_stop {A} P (Q : A -> bytes -> Prop) : decides P (stop (-1)) Q.
Proof. intros s _. right. by split. Qed.

Lemma decides_peek n : decides (at_least (S n)) peek (fun _ => at_least (S n)).
Proof. intros [|c s] Hs; [unfold at_least in Hs; cbn in Hs; lia|]. cbn. split_and!; [done|by exists []|done]. Qed.

Lemma decides_advance n : decides (at_least (S n)) advance (fun _ => at_least n).
Proof. intros [|c s] Hs; unfold at_least in *; cbn in *; [lia|]. split_and!; [lia|by exists [c]|done]. Qed.

Lemma decides_eof P : decides P CHECK_EOF (fun _ => at_least 1).
Proof. intros [|c s] _; unfold at_least; cbn; [by left|]. split_and!; [lia|by exists []|done]. Qed.

Lemma decides_expect_no_check n ch : decides (at_least (S n)) (EXPECT_CHAR_NO_CHECK ch) (fun _ => at_least n).
Proof.
  eapply decides_bind; [apply decides_peek|]. intros c. eapply decides_bind; [apply decides_advance|]. intros ?.
  case_decide; [by apply decides_ret|apply decides_stop].
Qed.

Lemma decides_expect P ch : decides P (EXPECT_CHAR ch) (fun _ => any).
Proof.
  eapply decides_bind; [apply decides_eof|]. intros ?. eapply decides_weaken; [apply (decides_expect_no_check 0)|done..].
Qed.

Lemma decides_int n : decides (at_least (S n)) (PARSE_INT 1) (fun v s => at_least n s /\ 0 <= v <= 9).
Proof.
  eapply decides_bind; [apply decides_peek|]. intros c. destruct (_ || _) eqn:Hc; [apply decides_stop|].
  eapply decides_bind; [apply decides_advance|]. intros ?. apply decides_ret. intros s Hs. split; [done|].
  apply orb_false_iff in Hc as [Hc Hd]. apply Z.ltb_ge in Hc, Hd. lia.
Qed.

Lemma passing_spec c o t r : passing c o = Ret t r <-> exists t', o = Ret t' r /\ t = c :: t'.
Proof. destruct o; cbn; naive_solver. Qed.

(** A loop ends before a byte it breaks at. *)
Lemma decides_take dec P :
  decides P (take_loop dec)
    (fun t s => Forall (fun c => dec c = None) t /\ exists c r, s = c :: r /\ dec c = Some true).
Proof.
  intros s _. induction s as [|c s IH]; cbn [take_loop]; [by left|]. destruct (dec c) as [[]|] eqn:Hc.
  - split_and!; [done|by exists c, s|by exists []|]. intros more. cbn. by rewrite Hc.
  - right. split; [done|]. intros more. cbn. by rewrite Hc.
  - destruct (take_loop dec s) as [t r|ret|]; cbn [passing]; [| |done].
    + destruct IH as ((Ht & Hr) & (u & ->) & Hm). split_and!; [by constructor|done|by exists (c :: u)|].
      intros more. cbn. rewrite Hc. by rewrite Hm.
    + destruct IH as [->|[-> Hm]]; [by left|]. right. split; [done|]. intros more. cbn. by rewrite Hc, Hm.
Qed.

Lemma decides_blanks P : decides P skip_blanks (fun _ => at_least 1).
Proof.
  intros s _. induction s as [|c s IH]; cbn [skip_blanks]; [by left|]. destruct (sp_or_ht c) eqn:Hc.
  - destruct (skip_blanks s) as [v r|ret|]; [| |done].
    + destruct IH as (? & (u & ->) & Hm). split_and!; [done|by exists (c :: u)|]. intros more. cbn. by rewrite Hc, Hm.
    + destruct IH as [->|[-> Hm]]; [by left|]. right. split; [done|]. intros more. cbn. by rewrite Hc, Hm.
  - split_and!; [unfold at_least; cbn; lia|by exists []|]. intros more. cbn. by rewrite Hc.
Qed.

Lemma decides_spaces : decides (at_least 1) skip_spaces (fun _ => at_least 1).
Proof.
  intros s Hs. destruct s as [|c s]; [unfold at_least in Hs; cbn in Hs; lia|]. clear Hs. revert c. induction s as [|d s IH]; intros c; [by left|].
  assert (forall more, skip_spaces (c :: d :: s ++ more) =
            if decide (d = " "%char) then skip_spaces (d :: s ++ more) else Ret tt (d :: s ++ more)) as He by done.
  pose proof (He []) as He0. rewrite app_nil_r in He0. rewrite He0. cbn [app]. destruct (decide (d = " "%char)) as [Hd|Hd].
  - specialize (IH d). cbn [app] in IH. destruct (skip_spaces (d :: s)) as [v r|ret|]; [| |done].
    + destruct IH as (? & (u & Hu) & Hm). split_and!; [done|exists (c :: u); by rewrite Hu|]. intros more. by rewrite He, Hm.
    + destruct IH as [->|[-> Hm]]; [by left|]. right. split; [done|]. intros more. by rewrite He, Hm.
  - split_and!; [unfold at_least; cbn; lia|by exists [c]|done].
Qed.

Lemma decides_eol : decides (at_least 1) eol (fun over => if over : bool then any else at_least 1).
Proof.
  eapply decides_bind; [apply decides_peek|]. intros c.
  assert (decides (at_least 1) advance (fun _ => any)) as Hadv by (by eapply decides_weaken; [apply (decides_advance 0)|done..]).
  case_decide.
  - eapply decides_bind; [exact Hadv|]. intros ?. eapply decides_bind; [apply decides_expect|]. intros ?. by apply decides_ret.
  - case_decide; [|by apply decides_ret]. eapply decides_bind; [exact Hadv|]. intros ?. by apply decides_ret.
Qed.

(** ** The request *)

Definition path_char (c : ascii) : bool := negb (ctl c) && negb (bool_decide (c = " "%char)).
Definition value_char (c : ascii) : bool := negb (ends_value c).
Definition all_of (f : ascii -> bool) (s : bytes) : Prop := Forall (fun c => f c = true) s.

Lemma fast_loop_decides sse ranges dec loop P :
  (forall c, in_ranges ranges c = false -> dec c = None) -> (forall s, s <> [] -> loop s = take_loop dec s) ->
  decides P (fun s => let '(skipped, s, found) := findchar_fast sse ranges s in
               passing_all skipped ((let* _ := (if found : bool then mret tt else CHECK_EOF) in loop) s))
    (fun t s => Forall (fun c => dec c = None) t /\ at_least 1 s).
Proof.
  intros Hr Hl. eapply decides_ext; [intros s; by apply fast_loop|]. eapply decides_weaken; [apply decides_take|done|].
  cbv beta. intros t s [Ht (c & r & -> & _)]. split; [done|]. unfold at_least. cbn. lia.
Qed.

Lemma decides_token sse next P :
  in_ranges token_ranges next = true ->
  decides P (parse_token sse next) (fun t s => all_of token_char t /\ at_least 1 s).
Proof.
  intros Hn. eapply decides_weaken; [apply fast_loop_decides with (dec := dec_token next)|done|].
  - assert (forall c, in_ranges token_ranges c = false -> token_char c = true) as Ht by each_byte.
    intros c Hc. unfold dec_token. rewrite decide_False by congruence. by rewrite Ht.
  - apply parse_token_loop_eq.
  - cbv beta. intros t s [Ht Hs]. split; [|done]. eapply Forall_impl; [exact Ht|]. cbv beta. intros c. unfold dec_token.
    case_decide; [done|]. by destruct (token_char c).
Qed.

Lemma decides_path sse P : decides P (ADVANCE_TOKEN sse) (fun t s => all_of path_char t /\ at_least 1 s).
Proof.
  eapply decides_weaken; [apply fast_loop_decides with (dec := dec_path)|done|].
  - each_byte.
  - apply advance_loop_eq.
  - cbv beta. intros t s [Ht Hs]. split; [|done]. eapply Forall_impl; [exact Ht|]. cbv beta. intros c. unfold dec_path, path_char.
    case_decide; [done|]. rewrite bool_decide_eq_false_2 by done. by destruct (ctl c).
Qed.

Lemma decides_value sse P : decides P (get_token_to_eol sse) (fun t _ => all_of value_char t).
Proof.
  eapply decides_bind.
  { eapply decides_ext; [apply to_ctl_eq|]. eapply (decides_weaken P P); [apply decides_take|done|].
    intros t s [Ht (c & r & -> & _)]. instantiate (1 := fun t s => all_of value_char t /\ at_least 1 s). cbv beta.
    split; [|unfold at_least; cbn; lia]. eapply Forall_impl; [exact Ht|]. cbv beta. intros x. unfold dec_value, value_char.
    by destruct (ends_value x). }
  intros t. eapply decides_bind; [apply decides_pure; intros _; apply (decides_peek 0)|]. intros c. case_decide.
  - eapply decides_bind; [apply decides_pure; intros _; apply (decides_advance 0)|]. intros ?.
    eapply decides_bind; [apply decides_pure; intros _; apply decides_expect|]. intros ?. apply decides_ret. by intros s [].
  - case_decide; [|apply decides_stop].
    eapply decides_bind; [apply decides_pure; intros _; apply (decides_advance 0)|]. intros ?. apply decides_ret. by intros s [].
Qed.

Lemma trim_end_all f v : all_of f v -> all_of f (trim_end v).
Proof.
  unfold all_of. induction 1 as [|c v Hc _ IH]; cbn; [constructor|].
  destruct (trim_end v); [destruct (sp_or_ht c); by repeat constructor|by constructor].
Qed.

Lemma trim_end_idem v : trim_end (trim_end v) = trim_end v.
Proof.
  induction v as [|c v IH]; [done|]. cbn. destruct (trim_end v) as [|d w] eqn:Hv.
  - destruct (sp_or_ht c) eqn:Hc; [done|]. cbn. by rewrite Hc.
  - cbn [trim_end] in *. by rewrite IH.
Qed.

(** A header as the tokenizer reports it: a name that is a token, or none; a value without
    controls, and without blanks at its end. *)
Record header_ok (h : phr_header) : Prop := {
  ok_name : forall n, h_name h = Some n -> n <> [] /\ all_of token_char n;
  ok_value : all_of value_char (h_value h);
  ok_trimmed : trim_end (h_value h) = h_value h
}.
Record headers_ok (room : nat) (first : bool) (hs : list phr_header) : Prop := {
  oks_all : Forall header_ok hs;
  oks_room : (length hs <= room)%nat;
  oks_first : first = true -> forall h hs', hs = h :: hs' -> h_name h <> None
}.
Record request_ok (max_headers : nat) (r : request) : Prop := {
  rok_method : r_method r <> [] /\ all_of token_char (r_method r);
  rok_path : r_path r <> [] /\ all_of path_char (r_path r);
  rok_version : 0 <= r_minor_version r <= 9;
  rok_headers : headers_ok max_headers true (r_headers r)
}.

Definition name_ok (first : bool) (name : option bytes) : Prop :=
  (forall n, name = Some n -> n <> [] /\ all_of token_char n) /\ (first = true -> name <> None).

Lemma decides_name sse first : decides (at_least 1) (header_name sse first) (fun name _ => name_ok first name /\ True).
Proof.
  eapply decides_bind; [apply (decides_peek 0)|]. intros c. destruct (negb first && sp_or_ht c) eqn:Hc; cbn [negb].
  - apply decides_ret. intros s _. split; [|done]. split; [done|]. by destruct first.
  - eapply decides_bind; [by apply decides_token|]. intros n. case_decide as Hn; [apply decides_stop|].
    eapply decides_bind; [apply decides_pure; intros _; apply (decides_advance 0)|]. intros ?.
    eapply decides_bind; [apply decides_pure; intros _; apply decides_blanks|]. intros ?. apply decides_ret.
    intros s [Hall _]. split; [|done]. split; [|done]. by intros ? [= <-].
Qed.

Lemma decides_headers sse room first P : decides P (parse_headers sse room first) (fun hs _ => headers_ok room first hs).
Proof.
  revert first P. induction room as [|room IH]; intros first P; cbn [parse_headers];
    (eapply decides_bind; [apply decides_eof|]; intros ?; eapply decides_bind; [apply decides_eol|]; intros [|]);
    try (apply decides_ret; intros s _; split; [done|cbn; lia|done]); [apply decides_stop|].
  eapply decides_bind; [apply decides_name|]. intros name.
  eapply decides_bind; [apply decides_pure; intros _; apply decides_value|]. intros value.
  eapply decides_bind.
  { eapply (decides_known (name_ok first name /\ all_of value_char value)); [by intros s []|apply (IH false any)]. }
  intros hs. apply decides_ret. intros s ([[Hn Hf] Hv] & [Hall Hroom _]). split; [constructor; [split|done]|cbn; lia|]; cbn.
  - exact Hn.
  - by apply trim_end_all.
  - apply trim_end_idem.
  - intros Hfirst h hs' [= <- <-]. by apply Hf.
Qed.

Lemma decides_length n : decides any (fun s => if (length s <? n)%nat then Stop (-2) else Ret tt s) (fun _ => at_least n).
Proof.
  intros s _. destruct (Nat.ltb_spec (length s) n); [by left|]. split_and!; [done|by exists []|].
  intros more. rewrite length_app. by destruct (Nat.ltb_spec (length s + length more) n); [lia|].
Qed.

Lemma decides_version : decides any parse_http_version (fun v s => at_least 1 s /\ 0 <= v <= 9).
Proof.
  eapply decides_bind; [apply decides_length|]. intros ?. unfold parse_http_version.
  do 7 (eapply decides_bind; [apply decides_expect_no_check|]; intros ?). apply decides_int.
Qed.

Lemma decides_request sse max_headers P : decides P (parse_request sse max_headers) (fun r _ => request_ok max_headers r).
Proof.
  unfold parse_request. eapply decides_bind; [apply decides_eof|]. intros ?. eapply decides_bind; [apply decides_eol|]. intros ?.
  eapply decides_bind; [by apply decides_token|]. intros method.
  eapply decides_bind; [apply decides_pure; intros _; apply decides_spaces|]. intros ?.
  eapply decides_bind; [apply decides_pure; intros _; apply decides_path|]. intros path.
  eapply decides_bind.
  { eapply decides_pure. intros _. eapply decides_pure. intros _. apply decides_spaces. }
  intros ?. case_decide as Hne; [apply decides_stop|].
  eapply decides_bind.
  { eapply (decides_known (all_of token_char method /\ all_of path_char path)); [naive_solver|apply decides_version]. }
  intros minor. eapply decides_bind.
  { apply decides_weaken with (P := fun s => ((all_of token_char method /\ all_of path_char path) /\ 0 <= minor <= 9) /\ at_least 1 s)
      (Q := fun over s => ((all_of token_char method /\ all_of path_char path) /\ 0 <= minor <= 9) /\ any s).
    - apply decides_pure. intros _. eapply decides_weaken; [apply decides_eol|done|done].
    - naive_solver.
    - intros over s Hs. exact Hs. }
  intros [|]; [|apply decides_stop]. eapply decides_bind; [apply decides_pure; intros _; apply decides_headers|].
  intros hs. apply decides_ret. intros s [[[Hm Hp] Hv] Hh]. apply Decidable.not_or in Hne as [? ?]. by split.
Qed.

(** ** How much a parser passes over

    What [p] returns takes no more room, as [f] measures it, than the bytes it consumed. *)
Definition spends {A} (p : parser A) (f : A -> nat) : Prop :=
  forall s v r, p s = Ret v r -> (f v + length r <= length s)%nat.

Lemma spends_bind {A B} (p : parser A) f (k : A -> parser B) g :
  spends p f -> (forall v, spends (k v) (fun y => g y - f v)%nat) -> spends (parser_bind _ _ k p) g.
Proof.
  intros Hp Hk s y r. unfold parser_bind. destruct (p s) as [v s1| |] eqn:Hs; [|done..]. intros Hy.
  specialize (Hp _ _ _ Hs). specialize (Hk _ _ _ _ Hy). cbv beta in Hk. lia.
Qed.
Lemma spends_ret {A} (x : A) f : f x = O -> spends (mret x) f.
Proof. intros Hx s v r Hs. injection Hs as -> ->. lia. Qed.
Lemma spends_weaken {A} (p : parser A) f g : spends p f -> (forall v, (g v <= f v)%nat) -> spends p g.
Proof. intros Hp Hg s v r Hs. specialize (Hp _ _ _ Hs). specialize (Hg v). lia. Qed.

(** A parser that decides returns a suffix of its input. *)
Lemma decides_spends {A} (p : parser A) Q : decides any p Q -> spends p (fun _ => O).
Proof.
  intros Hp s v r Hs. specialize (Hp s I). rewrite Hs in Hp. destruct Hp as (_ & (t & ->) & _). rewrite length_app. lia.
Qed.
Lemma spends_expect ch : spends (EXPECT_CHAR ch) (fun _ => O).
Proof. eapply decides_spends, decides_expect. Qed.
Lemma spends_blanks : spends skip_blanks (fun _ => O).
Proof. eapply decides_spends, decides_blanks. Qed.
Lemma spends_eof : spends CHECK_EOF (fun _ => O).
Proof. eapply decides_spends, decides_eof. Qed.
Lemma spends_version : spends parse_http_version (fun _ => O).
Proof. eapply decides_spends, decides_version. Qed.
Lemma spends_peek : spends peek (fun _ => O).
Proof. intros [|c s] v r; [done|]. intros [= <- <-]. cbn. lia. Qed.
Lemma spends_advance : spends advance (fun _ => O).
Proof. intros [|c s] v r; [done|]. intros [= <- <-]. cbn. lia. Qed.
Lemma spends_stop {A} f : spends (@stop A (-1)) f.
Proof. intros s v r Hs. done. Qed.
Lemma spends_spaces : spends skip_spaces (fun _ => O).
Proof.
  intros s. destruct s as [|c s]; [done|]. intros v r Hs. pose proof (decides_spaces (c :: s)) as Hd. rewrite Hs in Hd.
  destruct Hd as (_ & (t & ->) & _); [unfold at_least; cbn; lia|]. rewrite length_app. lia.
Qed.

Lemma spends_take dec : spends (take_loop dec) length.
Proof.
  intros s. induction s as [|c s IH]; intros v r; cbn [take_loop]; [done|]. destruct (dec c) as [[]|]; [|done|].
  - intros [= <- <-]. cbn. lia.
  - intros (t & Ht & ->)%passing_spec. specialize (IH _ _ Ht). cbn. lia.
Qed.
Lemma spends_ext {A} (p p' : parser A) f : (forall s, p s = p' s) -> spends p' f -> spends p f.
Proof. intros He Hp s v r Hs. rewrite He in Hs. by apply Hp. Qed.

Lemma trim_end_length v : (length (trim_end v) <= length v)%nat.
Proof.
  induction v as [|c v IH]; [done|]. cbn [trim_end]. destruct (trim_end v); cbn in *; [case_match; cbn; lia|lia].
Qed.

(** ** One tokenizer, compiled twice *)

Lemma bind_ext {A B} (p p' : parser A) (f f' : A -> parser B) s :
  (forall s, p s = p' s) -> (forall v s, f v s = f' v s) -> parser_bind _ _ f p s = parser_bind _ _ f' p' s.
Proof. intros Hp Hf. unfold parser_bind. rewrite Hp. by destruct (p' s). Qed.

Lemma parse_token_eq sse next s : in_ranges token_ranges next = true -> parse_token sse next s = take_loop (dec_token next) s.
Proof.
  intros Hn. apply fast_loop; [|apply parse_token_loop_eq].
  assert (forall c, in_ranges token_ranges c = false -> token_char c = true) as Ht by each_byte.
  intros c Hc. unfold dec_token. rewrite decide_False by congruence. by rewrite Ht.
Qed.

Lemma ADVANCE_TOKEN_eq sse s : ADVANCE_TOKEN sse s = take_loop dec_path s.
Proof. apply fast_loop; [each_byte|apply advance_loop_eq]. Qed.

Lemma get_token_to_eol_eq sse sse' s : get_token_to_eol sse s = get_token_to_eol sse' s.
Proof. apply bind_ext; [|done]. intros t. by rewrite !to_ctl_eq. Qed.

Lemma spends_token sse next : in_ranges token_ranges next = true -> spends (parse_token sse next) length.
Proof. intros Hn. eapply spends_ext; [intros s; by apply parse_token_eq|apply spends_take]. Qed.
Lemma spends_path sse : spends (ADVANCE_TOKEN sse) length.
Proof. eapply spends_ext; [apply ADVANCE_TOKEN_eq|apply spends_take]. Qed.

(** The next step leaves what was measured so far as it is. *)
Ltac spend :=
  lazymatch goal with
  | |- spends (if _ then _ else _) _ => case_match
  | |- spends (mret _) _ => apply spends_ret; cbn; try lia
  | |- spends (stop _) _ => apply spends_stop
  | |- spends (parser_bind _ _ _ peek) _ => eapply spends_bind; [apply spends_peek|intros ?; cbv beta]
  | |- spends (parser_bind _ _ _ advance) _ => eapply spends_bind; [apply spends_advance|intros ?; cbv beta]
  | |- spends (parser_bind _ _ _ CHECK_EOF) _ => eapply spends_bind; [apply spends_eof|intros ?; cbv beta]
  | |- spends (parser_bind _ _ _ (EXPECT_CHAR _)) _ => eapply spends_bind; [apply spends_expect|intros ?; cbv beta]
  | |- spends (parser_bind _ _ _ skip_blanks) _ => eapply spends_bind; [apply spends_blanks|intros ?; cbv beta]
  | |- spends (parser_bind _ _ _ skip_spaces) _ => eapply spends_bind; [apply spends_spaces|intros ?; cbv beta]
  | |- spends (parser_bind _ _ _ parse_http_version) _ => eapply spends_bind; [apply spends_version|intros ?; cbv beta]
  end.

Lemma spends_eol : spends eol (fun _ => O).
Proof. unfold eol. repeat spend. Qed.
Lemma spends_value sse : spends (get_token_to_eol sse) length.
Proof.
  unfold get_token_to_eol. eapply spends_bind; [eapply spends_ext; [apply to_ctl_eq|apply spends_take]|].
  intros t. cbv beta. repeat spend.
Qed.

(** The bytes of a header that are kept. *)
Definition header_size (h : phr_header) : nat := length (default [] (h_name h)) + length (h_value h).
Definition headers_size (hs : list phr_header) : nat := sum_list_with header_size hs.

Lemma spends_name sse first : spends (header_name sse first) (fun n => length (default [] n)).
Proof.
  unfold header_name. spend. spend; [|by spend].
  eapply spends_bind; [by apply spends_token|]. intros n. cbv beta. spend; [spend|]. repeat spend.
Qed.

Lemma spends_headers sse room first : spends (parse_headers sse room first) headers_size.
Proof.
  revert first. induction room as [|room IH]; intros first; cbn [parse_headers]; spend;
    (eapply spends_bind; [apply spends_eol|]; intros []; cbv beta); try (by repeat spend).
  eapply spends_bind; [apply spends_name|]. intros name. eapply spends_bind; [apply spends_value|]. intros val.
  eapply spends_bind; [apply IH|]. intros hs. apply spends_ret. unfold headers_size, header_size. cbn [sum_list_with h_name h_value].
  pose proof (trim_end_length val). lia.
Qed.

(** What is kept of a request fits in its head. *)
Definition request_size (r : request) : nat := length (r_method r) + length (r_path r) + headers_size (r_headers r).
Lemma spends_request sse max_headers : spends (parse_request sse max_headers) request_size.
Proof.
  unfold parse_request. spend. eapply spends_bind; [apply spends_eol|]. intros ?.
  eapply spends_bind; [by apply spends_token|]. intros m. spend.
  eapply spends_bind; [apply spends_path|]. intros path. spend. spend; [spend|]. spend.
  eapply spends_bind; [apply spends_eol|]. intros []; [|spend].
  eapply spends_bind; [apply spends_headers|]. intros hs. apply spends_ret. unfold request_size. cbn [r_method r_path r_headers]. lia.
Qed.

Lemma header_name_eq sse sse' first s : header_name sse first s = header_name sse' first s.
Proof.
  apply bind_ext; [done|]. intros c t. destruct (negb _); [|done]. apply bind_ext; [|done]. intros u. by rewrite !parse_token_eq.
Qed.

Lemma parse_headers_eq sse sse' room first s : parse_headers sse room first s = parse_headers sse' room first s.
Proof.
  revert first s. induction room as [|room IH]; intros first s; cbn [parse_headers]; [done|].
  apply bind_ext; [done|]. intros ? t. apply bind_ext; [done|]. intros [|] u; [done|].
  apply bind_ext; [intros ?; apply header_name_eq|]. intros name w.
  apply bind_ext; [intros ?; apply get_token_to_eol_eq|]. intros value x. by apply bind_ext.
Qed.

Lemma parse_request_eq sse sse' max_headers s : parse_request sse max_headers s = parse_request sse' max_headers s.
Proof.
  unfold parse_request. apply bind_ext; [done|]. intros ? t1. apply bind_ext; [done|]. intros ? t2.
  apply bind_ext; [intros; by rewrite !parse_token_eq|]. intros method t3. apply bind_ext; [done|]. intros ? t4.
  apply bind_ext; [intros; by rewrite !ADVANCE_TOKEN_eq|]. intros path t5. apply bind_ext; [done|]. intros ? t6.
  case_decide; [done|]. apply bind_ext; [done|]. intros minor t7. apply bind_ext; [done|]. intros [|] t8; [|done].
  apply bind_ext; [|done]. intros. apply parse_headers_eq.
Qed.

(** ** Printing a request *)

Definition eol_bytes : bytes := [ch_cr; ch_nl].
Definition print_header (h : phr_header) : bytes :=
  match h_name h with Some n => n ++ lit ": " | None => [] end ++ h_value h ++ eol_bytes.
Definition print_request (r : request) : bytes :=
  r_method r ++ lit " " ++ r_path r ++ lit " HTTP/1." ++ [ascii_of_N (48 + Z.to_N (r_minor_version r))] ++ eol_bytes ++
  concat (print_header <$> r_headers r) ++ eol_bytes.

(** Headers that can be told apart when printed: the value of a named one does not start with
    a blank, that of a continuation line does. *)
Definition header_printable (h : phr_header) : Prop :=
  match h_name h, h_value h with
  | Some _, c :: _ => sp_or_ht c = false
  | Some _, [] => True
  | None, c :: _ => sp_or_ht c = true
  | None, [] => False
  end.

Lemma take_loop_stop dec t c s :
  Forall (fun c => dec c = None) t -> dec c = Some true -> take_loop dec (t ++ c :: s) = Ret t (c :: s).
Proof. intros Ht Hc. rewrite take_loop_skip by done. cbn [take_loop]. rewrite Hc. cbn. by rewrite app_nil_r. Qed.

Lemma token_goes_on next n : all_of token_char n -> token_char next = false -> Forall (fun c => dec_token next c = None) n.
Proof.
  intros Hn Hx. eapply Forall_impl; [exact Hn|]. cbv beta. intros c Hc. unfold dec_token.
  rewrite decide_False by congruence. by rewrite Hc.
Qed.

Lemma parse_token_print sse next n s :
  in_ranges token_ranges next = true -> token_char next = false -> all_of token_char n ->
  parse_token sse next (n ++ next :: s) = Ret n (next :: s).
Proof.
  intros Hr Hx Hn. rewrite parse_token_eq by done. apply take_loop_stop; [by apply token_goes_on|].
  unfold dec_token. by rewrite decide_True.
Qed.

Lemma path_print sse p s : all_of path_char p -> ADVANCE_TOKEN sse (p ++ " "%char :: s) = Ret p (" "%char :: s).
Proof.
  intros Hp. rewrite ADVANCE_TOKEN_eq. apply take_loop_stop; [|done]. eapply Forall_impl; [exact Hp|]. cbv beta. each_byte.
Qed.

Lemma value_print sse v s : all_of value_char v -> get_token_to_eol sse (v ++ eol_bytes ++ s) = Ret v s.
Proof.
  intros Hv. unfold get_token_to_eol, parser_bind at 1. cbn [eol_bytes app]. rewrite to_ctl_eq, take_loop_stop.
  - done.
  - eapply Forall_impl; [exact Hv|]. cbv beta. intros c Hc. unfold dec_value. unfold value_char in Hc. by destruct (ends_value c).
  - done.
Qed.

Lemma eol_print s : eol (eol_bytes ++ s) = Ret true s.
Proof. done. Qed.

Lemma eol_other c s : c <> ch_cr -> c <> ch_nl -> eol (c :: s) = Ret false (c :: s).
Proof. intros Hr Hn. unfold eol, parser_bind. cbn [peek]. by rewrite !decide_False. Qed.

Lemma token_plain c : token_char c = true -> c <> ch_cr /\ c <> ch_nl /\ sp_or_ht c = false.
Proof. revert c. each_byte. Qed.

Lemma header_name_print sse first n v s :
  n <> [] -> all_of token_char n -> (forall c r, v ++ eol_bytes ++ s = c :: r -> sp_or_ht c = false) ->
  header_name sse first (n ++ lit ": " ++ v ++ eol_bytes ++ s) = Ret (Some n) (v ++ eol_bytes ++ s).
Proof.
  intros Hne Hn Hv. assert (exists c r, v ++ eol_bytes ++ s = c :: r) as (c & r & Hr) by (destruct v; cbn; eauto).
  unfold header_name, parser_bind at 1. destruct n as [|d n]; [done|]. pose proof Hn as [Hd _]%Forall_cons.
  destruct (token_plain d Hd) as (_ & _ & Hsp). cbn [peek app]. rewrite Hsp, andb_false_r. cbn [negb].
  unfold parser_bind at 1. change (lit ": " ++ v ++ eol_bytes ++ s) with (":"%char :: " "%char :: v ++ eol_bytes ++ s).
  rewrite (parse_token_print sse ":" (d :: n) (" "%char :: v ++ eol_bytes ++ s) eq_refl eq_refl Hn : parse_token sse ":" (d :: n ++ _) = _).
  rewrite decide_False by done. unfold parser_bind. cbn [advance]. rewrite Hr. cbn [skip_blanks sp_or_ht]. change (sp_or_ht " "%char) with true. cbv iota.
  by rewrite (Hv _ _ Hr).
Qed.

Lemma header_starts h s :
  header_ok h -> header_printable h ->
  exists c r, print_header h ++ s = c :: r /\ c <> ch_cr /\ c <> ch_nl /\ (h_name h = None -> sp_or_ht c = true).
Proof.
  intros [Hn Hv _] Hp. unfold print_header, header_printable in *. destruct (h_name h) as [n|].
  - destruct (Hn n eq_refl) as [Hne Ht]. destruct n as [|c n]; [done|]. pose proof Ht as [Hc _]%Forall_cons.
    destruct (token_plain c Hc) as (? & ? & _).
    exists c. eexists. by split_and!.
  - destruct (h_value h) as [|c v]; [done|]. cbn. exists c. eexists. split; [done|].
    assert (sp_or_ht c = true -> c <> ch_cr /\ c <> ch_nl) as Hb by (clear; revert c; each_byte).
    destruct (Hb Hp). auto.
Qed.

Lemma header_print sse first h s :
  header_ok h -> header_printable h -> (first = true -> h_name h <> None) ->
  (let* name := header_name sse first in let* value := get_token_to_eol sse in mret (mk_header name (trim_end value)))
    (print_header h ++ s) = Ret h s.
Proof.
  intros Hok Hp Hf. destruct (header_starts h s Hok Hp) as (c & r & Hs & Hcr & Hnl & Hblank). destruct Hok as [Hn Hv Ht].
  assert (header_name sse first (print_header h ++ s) = Ret (h_name h) (h_value h ++ eol_bytes ++ s)) as Hname.
  { destruct (h_name h) as [n|] eqn:Hh.
    - unfold print_header, header_printable in *. rewrite Hh in *. destruct (Hn n eq_refl) as [Hne Hall].
      rewrite <- !(assoc_L app). apply header_name_print; [done..|]. intros d u. destruct (h_value h); cbn; intros [= <- _]; [reflexivity|exact Hp].
    - unfold header_name, parser_bind at 1. rewrite Hs. cbn [peek]. destruct first; [by destruct Hf|].
      rewrite Hblank by done. cbn [negb andb]. rewrite <- Hs. unfold print_header. rewrite Hh. cbn [app].
      by rewrite <- (assoc_L app). }
  unfold parser_bind at 1. rewrite Hname. unfold parser_bind. rewrite value_print by done. cbn. rewrite Ht. by destruct h.
Qed.

Lemma parse_headers_print sse room first hs s :
  headers_ok room first hs -> Forall header_printable hs ->
  parse_headers sse room first (concat (print_header <$> hs) ++ eol_bytes ++ s) = Ret hs s.
Proof.
  revert room first. induction hs as [|h hs IH]; intros room first [Hall Hroom Hf] Hp.
  { by destruct room. }
  apply Forall_cons in Hall as [Hh Hall]. apply Forall_cons in Hp as [Hph Hp].
  destruct room as [|room]; [cbn in Hroom; lia|]. cbn [fmap list_fmap concat parse_headers].
  rewrite <- (assoc_L app). set (s' := concat _ ++ _) in *.
  destruct (header_starts h s' Hh Hph) as (c & r & Hs & Hcr & Hnl & _).
  pose proof (header_print sse first h s' Hh Hph (fun Ht => Hf Ht _ _ eq_refl)) as Hhp.
  unfold parser_bind at 1 2. rewrite Hs. cbn [CHECK_EOF]. rewrite eol_other by done. rewrite <- Hs.
  unfold parser_bind in Hhp |- *. destruct (header_name sse first _) as [name t| |]; [|done..].
  destruct (get_token_to_eol sse t) as [value u| |]; [|done..]. cbn in Hhp. injection Hhp as Hhp ->.
  unfold s'. rewrite IH; [by rewrite Hhp|split; [done|cbn in Hroom; lia|done]|done].
Qed.

Lemma version_print v s :
  0 <= v <= 9 -> parse_http_version (lit "HTTP/1." ++ [ascii_of_N (48 + Z.to_N v)] ++ eol_bytes ++ s) = Ret v (eol_bytes ++ s).
Proof.
  intros Hv. assert (v = 0 \/ v = 1 \/ v = 2 \/ v = 3 \/ v = 4 \/ v = 5 \/ v = 6 \/ v = 7 \/ v = 8 \/ v = 9) as Hd by lia.
  by repeat (destruct Hd as [->|Hd]); [reflexivity..|subst v].
Qed.

Lemma skip_one_space c s : c <> " "%char -> skip_spaces (" "%char :: c :: s) = Ret tt (c :: s).
Proof. intros Hc. cbn [skip_spaces]. by rewrite decide_False. Qed.

Lemma parse_request_print sse max_headers r :
  request_ok max_headers r -> Forall header_printable (r_headers r) ->
  parse_request sse max_headers (print_request r) = Ret r [].
Proof.
  intros [[Hm Hmt] [Hp Hpt] Hv Hh] Hpr. unfold parse_request, print_request.
  destruct r as [method path minor hs]. cbn [r_method r_path r_minor_version r_headers] in *.
  set (tail := eol_bytes ++ concat _ ++ eol_bytes). 
  destruct method as [|c method]; [done|]. destruct path as [|d path]; [done|].
  pose proof Hmt as [Hc _]%Forall_cons. pose proof Hpt as [Hd _]%Forall_cons. destruct (token_plain c Hc) as (Hcr & Hnl & _).
  unfold parser_bind at 1 2. cbn [app CHECK_EOF]. rewrite eol_other by done.
  change (lit " " ++ ?x) with (" "%char :: x).
  unfold parser_bind at 1. rewrite (parse_token_print sse " " (c :: method) _ eq_refl eq_refl Hmt : parse_token sse " " (c :: method ++ _) = _).
  unfold parser_bind at 1. rewrite skip_one_space by (intros ->; by vm_compute in Hd).
  change (lit " HTTP/1." ++ ?x) with (" "%char :: lit "HTTP/1." ++ x).
  unfold parser_bind at 1. rewrite (path_print sse (d :: path) _ Hpt : ADVANCE_TOKEN sse (d :: path ++ _) = _).
  unfold parser_bind at 1. change (lit "HTTP/1." ++ ?x) with ("H"%char :: lit "TTP/1." ++ x). rewrite skip_one_space by done.
  rewrite decide_False by naive_solver. unfold parser_bind at 1.
  rewrite (version_print minor (concat (print_header <$> hs) ++ eol_bytes) Hv :
    parse_http_version ("H"%char :: lit "TTP/1." ++ ascii_of_N (48 + Z.to_N minor) :: tail) = _). unfold parser_bind at 1. rewrite eol_print.
  unfold parser_bind. pose proof (parse_headers_print sse max_headers true hs [] Hh Hpr) as Hhs. rewrite app_nil_r in Hhs. by rewrite Hhs.
Qed.

(** [phr_parse_request] as a whole. *)
Lemma phr_once sse max_headers s more :
  match phr_parse_request sse max_headers 0 s with
  | Ret r rest =>
      request_ok max_headers r /\ (exists head, s = head ++ rest) /\
      phr_parse_request sse max_headers 0 (s ++ more) = Ret r (rest ++ more)
  | Stop ret => ret = -2 \/ ret = -1 /\ phr_parse_request sse max_headers 0 (s ++ more) = Stop (-1)
  | Overrun => False
  end.
Proof.
  unfold phr_parse_request. cbn. pose proof (decides_request sse max_headers any s I) as Hd.
  destruct (parse_request sse max_headers s); naive_solver.
Qed.

(** ** Properties *)

(** C12: the tokenizer never reads past the end of its input, whatever the bytes. When it
    accepts, the head is a prefix of them, method, path and header names are tokens without
    blanks or controls, values hold no control but HT, and there are no more headers than
    there is room for; and bytes that come later change neither an acceptance nor a
    rejection, so it does not matter how the input is cut. *)
Theorem phr_decides_once sse max_headers s more :
  match phr_parse_request sse max_headers 0 s with
  | Ret r rest =>
      request_ok max_headers r /\ (exists head, s = head ++ rest) /\
      phr_parse_request sse max_headers 0 (s ++ more) = Ret r (rest ++ more)
  | Stop ret => ret = -2 \/ ret = -1 /\ phr_parse_request sse max_headers 0 (s ++ more) = Stop (-1)
  | Overrun => False
  end.
Proof. apply phr_once. Qed.

(** C13: the two forms the source can be compiled to agree on every input: skipping blocks of
    sixteen bytes with SSE4.2, or the unrolled loops without it, finds the same tokens and
    the same errors as looking at one byte after the other. *)
Theorem phr_forms_agree max_headers last_len s :
  phr_parse_request true max_headers last_len s = phr_parse_request false max_headers last_len s.
Proof. unfold phr_parse_request. by rewrite !(parse_request_eq true false). Qed.

(** C14: a request that is printed is read back, whatever body follows it. *)
Theorem phr_roundtrip sse max_headers r body :
  request_ok max_headers r -> Forall header_printable (r_headers r) ->
  phr_parse_request sse max_headers 0 (print_request r ++ body) = Ret r body.
Proof.
  intros Hr Hp. pose proof (phr_once sse max_headers (print_request r) body) as Hd.
  unfold phr_parse_request in *. cbn in *. rewrite (parse_request_print sse max_headers r Hr Hp) in Hd.
  by destruct Hd as (_ & _ & ->).
Qed.

Definition sample_request : request :=
  mk_request (lit "POST") (lit "/a?b=c") 1
    [mk_header (Some (lit "Host")) (lit "example.com"); mk_header (Some (lit "X-Long")) (lit "one,");
     mk_header None (lit "  two"); mk_header (Some (lit "X-Empty")) []].
Lemma sample_request_ok : request_ok 4 sample_request /\ Forall header_printable (r_headers sample_request).
Proof.
  assert (forall f s, forallb f s = true -> all_of f s) as Hall.
  { intros f s Hs. apply Forall_forall. intros c Hc. by apply (proj1 (forallb_forall _ _) Hs), list_elem_of_In. }
  split; [split; [by split; [|apply Hall]..|done|split; [|cbn; lia|by intros _ ? ? [= <- <-]]]|by repeat constructor].
  repeat apply Forall_cons_2; [..|apply Forall_nil_2]; (split; [intros n [= <-] || intros n [=]|by apply Hall|done]); by split; [|apply Hall].
Qed.

Example phr_roundtrip_witness :
  request_ok 4 sample_request /\ Forall header_printable (r_headers sample_request) /\
  phr_parse_request false 4 0 (print_request sample_request ++ lit "body") = Ret sample_request (lit "body").
Proof.
  destruct sample_request_ok as [Hr Hp]. split; [exact Hr|]. split; [exact Hp|].
  exact (phr_roundtrip false 4 sample_request (lit "body") Hr Hp).
Defined.

(** A request cut short, one that is not HTTP, a bare CR in a header: obs-fold and bare LF are
    taken. *)
Example phr_ex :
  phr_parse_request true 100 0 (lit "GET / HTTP/1.1" ++ eol_bytes ++ lit "Ho") = Stop (-2) /\
  phr_parse_request true 100 0 (lit "GET /a b" ++ [ch_nl] ++ lit "filler to reach nine bytes") = Stop (-1) /\
  phr_parse_request true 100 0 (lit "GET / HTTP/1.1" ++ eol_bytes ++ lit "A: b" ++ [ch_cr] ++ lit "c") = Stop (-1) /\
  phr_parse_request true 100 0 (lit "GET / HTTP/1.0" ++ [ch_nl] ++ lit "A:b " ++ [ch_nl; ch_nl]) =
    Ret (mk_request (lit "GET") (lit "/") 0 [mk_header (Some (lit "A")) (lit "b")]) [].
Proof. vm_compute. repeat split. Qed.
