(* ===== verification/HttpHead.v ===== *)
(** * HttpHead: the request head

    Models the decisions [HttpConnection::process_head] takes on a request head
    (src/src/http/http_connection.cpp): the helpers [iequals], [is_hop_by_hop] and
    [parse_content_length], the loop over the headers, and the checks that follow it.
    [tokenize] is its call of [phr_parse_request] ([Picohttp.v]); [decide_head] what it
    does with the result. *)
From S2P Require Import Prelude Text Router Picohttp PicohttpSpec.
Open Scope Z_scope.

Definition kMaxHead : Z := 32768.
Definition size (s : bytes) : Z := Z.of_nat (length s).

(** [for (i...) if (tolower(a[i]) != tolower(b[i])) return false], the lengths being equal. *)
Fixpoint same_ignoring_case (a b : bytes) : bool :=
  match a, b with
  | c :: a', d :: b' => if decide (tolower c = tolower d) then same_ignoring_case a' b' else false
  | _, _ => true
  end.
Definition iequals (a b : bytes) : bool :=
  if decide (length a = length b) then same_ignoring_case a b else false.

Definition kDrop : list bytes :=
  lit <$> ["connection"; "keep-alive"; "proxy-connection"; "transfer-encoding"; "te"; "trailer"; "upgrade"]%string.
Definition is_hop_by_hop (name : bytes) : bool := existsb (iequals name) kDrop.
#[global] Arguments is_hop_by_hop : simpl never.

(** [n = n * 10 + (v[i] - '0')] over a 64-bit [long]. *)
Fixpoint content_length_loop (n : Z) (v : bytes) : option Z :=
  match v with
  | [] => Some n
  | c :: v' => if isdigit c then content_length_loop (wrap_s 64 (n * 10 + (code c - 48))) v' else None
  end.
Definition parse_content_length (v : bytes) : option Z :=
  if bool_decide (length v = 0%nat) || (18 <? length v)%nat then None else content_length_loop 0 v.

(** What [phr_parse_request] reports: -2, -1, or the length of the head. *)
Inductive phr_result :=
  | Incomplete
  | Malformed
  | Parsed (pret : nat) (method path : bytes) (headers : list phr_header).

Definition kMaxHeaders : nat := 100.

(** The call of [phr_parse_request] on [in_]; [pret] is [buf - buf_start]. [Overrun] does not
    happen ([phr_decides_once]). *)
Definition tokenize (sse : bool) (buf : bytes) : phr_result :=
  match phr_parse_request sse kMaxHeaders 0 buf with
  | Ret r rest => Parsed (length buf - length rest) (r_method r) (r_path r) (r_headers r)
  | Stop ret => if decide (ret = -2) then Incomplete else Malformed
  | Overrun => Malformed
  end.

(** The locals of the header loop. *)
Record scan := mk_scan {
  host : bytes; content_length : Z; saw_content_length : bool; chunked : bool; head : bytes
}.
#[export] Instance eta_scan : Eta scan := fun s =>
  mk_scan (host s) (content_length s) (saw_content_length s) (chunked s) (head s).

(** The arguments of [send_error]. *)
Record http_error := mk_error { e_code : Z; e_status : bytes; e_body : bytes }.
Definition err (code : Z) (status body : string) : http_error := mk_error code (lit status) (lit body).

Definition crlf : bytes := [ch_cr; ch_nl].
Definition header_line (name value : bytes) : bytes := name ++ lit ": " ++ value ++ crlf.
#[global] Arguments header_line : simpl never.

(** The Content-Length branch of the loop. *)
Definition scan_length (h : phr_header) (name : bytes) (s : scan) : http_error + scan :=
  if iequals name (lit "content-length") then
    if saw_content_length s then inl (err 400 "Bad Request" "duplicate content-length")
    else match parse_content_length (h_value h) with
         | None => inl (err 400 "Bad Request" "invalid content-length")
         | Some n => inr (s <| saw_content_length := true |> <| content_length := n |>)
         end
  else inr s.

(** One turn of the header loop. *)
Definition scan_header (h : phr_header) (s : scan) : http_error + scan :=
  match h_name h with
  | None => inr s
  | Some name =>
      let s := if iequals name (lit "host") then s <| host := h_value h |> else s in
      s ← scan_length h name s;
      let s := if iequals name (lit "transfer-encoding") then s <| chunked := true |> else s in
      if is_hop_by_hop name then inr s
      else inr (s <| head ::= (fun b => b ++ header_line name (h_value h)) |>)
  end.
Fixpoint scan_headers (hs : list phr_header) (s : scan) : http_error + scan :=
  match hs with
  | [] => inr s
  | h :: hs' => s' ← scan_header h s; scan_headers hs' s'
  end.

Definition request_line (method path : bytes) : bytes :=
  method ++ lit " " ++ path ++ lit " HTTP/1.1" ++ crlf.
Definition connection_close : bytes := lit "Connection: close" ++ crlf ++ crlf.

(** The request to proxy: the rewritten head, the backend, the length of the body. *)
Record proxied := mk_proxied { p_upstream : bytes; p_backend : Backend; p_body : Z }.

(** The part of [process_head] between the status endpoints and [start_backend]. *)
Definition decide_proxy (router : Router) (max_body : Z) (method path : bytes) (hs : list phr_header)
    : http_error + proxied :=
  s ← scan_headers hs (mk_scan [] 0 false false (request_line method path));
  let up := head s ++ connection_close in
  if chunked s then inl (err 501 "Not Implemented" "chunked request body unsupported")
  else if negb (max_body =? 0) && (max_body <? wrap_u 64 (content_length s)) then
    inl (err 413 "Payload Too Large" "request body too large")
  else match route_match router (host s) path with
       | None => inl (err 404 "Not Found" "no matching route")
       | Some b => inr (mk_proxied up b (wrap_u 64 (content_length s)))
       end.

Definition kInternalPrefix : bytes := lit "/_castle/".

(** What [process_head] does with the tokenized head. *)
Inductive head_decision :=
  | WaitForMore
  | Refuse (e : http_error)
  | AnswerInternal (method target : bytes)
  | Proxy (head_len : nat) (p : proxied).

Definition decide_head (router : Router) (max_body : Z) (in_size : nat) (r : phr_result) : head_decision :=
  match r with
  | Incomplete =>
      if kMaxHead <? Z.of_nat in_size
      then Refuse (err 431 "Request Header Fields Too Large" "header too large")
      else WaitForMore
  | Malformed => Refuse (err 400 "Bad Request" "malformed request")
  | Parsed pret method path hs =>
      if (length kInternalPrefix <=? length path)%nat &&
         bool_decide (take (length kInternalPrefix) path = kInternalPrefix)
      then AnswerInternal method
             (match find_char "?"%char path with Some q => take q path | None => path end)
      else match decide_proxy router max_body method path hs with
           | inl e => Refuse e
           | inr p => Proxy pret p
           end
  end.

(** ** The length of the body *)

(** The number a string of digits denotes. *)
Definition decimal_from (n : Z) (v : bytes) : Z := foldl (fun n c => n * 10 + (code c - 48)) n v.
Definition decimal (v : bytes) : Z := decimal_from 0 v.
Definition digits (v : bytes) : Prop := Forall (fun c => isdigit c = true) v.

Lemma isdigit_range c : isdigit c = true -> 0 <= code c - 48 <= 9.
Proof. unfold isdigit. intros H. bool_to_prop. lia. Qed.

Lemma decimal_from_bounds v n :
  digits v -> 0 <= n -> n * 10 ^ Z.of_nat (length v) <= decimal_from n v < (n + 1) * 10 ^ Z.of_nat (length v).
Proof.
  intros Hv. revert n. induction Hv as [|c v Hc Hv IH]; intros n Hn; cbn [length].
  - change (Z.of_nat 0) with 0. cbn. lia.
  - apply isdigit_range in Hc. specialize (IH (n * 10 + (code c - 48)) ltac:(lia)).
    rewrite Nat2Z.inj_succ, Z.pow_succ_r by lia.
    change (decimal_from n (c :: v)) with (decimal_from (n * 10 + (code c - 48)) v).
    assert (0 < 10 ^ Z.of_nat (length v)) by (apply Z.pow_pos_nonneg; lia). nia.
Qed.

(** Below 18 digits the running value fits a [long]: no step wraps. *)
Lemma content_length_loop_spec v n :
  0 <= n -> (n + 1) * 10 ^ Z.of_nat (length v) <= 10 ^ 18 ->
  content_length_loop n v = if decide (digits v) then Some (decimal_from n v) else None.
Proof.
  revert n. induction v as [|c v IH]; intros n Hn Hb; cbn [content_length_loop].
  - by rewrite decide_True by constructor.
  - cbn [length] in Hb. rewrite Nat2Z.inj_succ, Z.pow_succ_r in Hb by lia.
    assert (0 < 10 ^ Z.of_nat (length v)) as Hp by (apply Z.pow_pos_nonneg; lia).
    destruct (isdigit c) eqn:Hc.
    + pose proof (isdigit_range c Hc) as Hd.
      rewrite wrap_s_id; [|done|].
      * rewrite IH by nia. apply decide_ext. unfold digits. rewrite Forall_cons. tauto.
      * assert ((n + 1) * 10 <= 10 ^ 18) by nia. unfold in_s.
        change (10 ^ 18) with 1000000000000000000 in *. change (2 ^ (64 - 1)) with 9223372036854775808. lia.
    + rewrite decide_False; [done|]. unfold digits. rewrite Forall_cons. by intros [? _]; congruence.
Qed.

Definition length_digits_ok (v : bytes) : Prop := digits v /\ (1 <= length v <= 18)%nat.
#[export] Instance length_digits_ok_dec v : Decision (length_digits_ok v).
Proof. unfold length_digits_ok, digits. apply _. Defined.

Lemma parse_content_length_spec' v :
  parse_content_length v = if decide (length_digits_ok v) then Some (decimal v) else None.
Proof.
  unfold parse_content_length. destruct (bool_decide _ || _) eqn:Hl.
  - rewrite decide_False; [done|]. unfold length_digits_ok. intros [_ Hv].
    apply orb_true_iff in Hl as [Hl|Hl]; [apply bool_decide_eq_true_1 in Hl|]; bool_to_prop; lia.
  - bool_to_prop. rewrite content_length_loop_spec; [|lia|].
    + apply decide_ext. unfold length_digits_ok. split; [|tauto]. intros Hv. split; [done|]. lia.
    + rewrite Z.mul_1_l. apply Z.pow_le_mono_r; lia.
Qed.

(** A Content-Length is accepted exactly when it is 1 to 18 digits and nothing
    else, and its value is then the number they denote: the 64-bit accumulator never
    wraps, and a sign, a blank or trailing junk is refused. *)
Theorem parse_content_length_spec v :
  parse_content_length v = if decide (length_digits_ok v) then Some (decimal v) else None.
Proof. apply parse_content_length_spec'. Qed.

Lemma parse_content_length_range v n : parse_content_length v = Some n -> 0 <= n < 10 ^ 18.
Proof.
  rewrite parse_content_length_spec'. case_decide as Hv; [|done]. intros [= <-]. destruct Hv as [Hd Hl].
  pose proof (decimal_from_bounds v 0 Hd ltac:(lia)) as Hb. unfold decimal.
  assert (10 ^ Z.of_nat (length v) <= 10 ^ 18) by (apply Z.pow_le_mono_r; lia). lia.
Qed.

(** ** The header loop against a reading of the whole list *)

Definition has_name (n : bytes) (h : phr_header) : bool :=
  match h_name h with Some name => iequals name n | None => false end.
(** The values of the headers of a given name. *)
Definition values (n : bytes) (hs : list phr_header) : list bytes :=
  h_value <$> filter (fun h => has_name n h = true) hs.
(** The lines castle forwards. *)
Definition forwarded (hs : list phr_header) : list (bytes * bytes) :=
  omap (fun h => name ← h_name h; if is_hop_by_hop name then None else Some (name, h_value h)) hs.
Definition lines_of (l : list (bytes * bytes)) : bytes := l ≫= (fun nv => header_line nv.1 nv.2).

(** What the first Content-Length decides, given the later ones. *)
Definition framing (vs : list bytes) : http_error + Z :=
  match vs with
  | [] => inr 0
  | v :: rest =>
      match parse_content_length v, rest with
      | None, _ => inl (err 400 "Bad Request" "invalid content-length")
      | Some n, [] => inr n
      | Some _, _ => inl (err 400 "Bad Request" "duplicate content-length")
      end
  end.

Definition scanned (hs : list phr_header) (n : Z) (s : scan) : scan :=
  mk_scan (default (host s) (last (values (lit "host") hs))) n
    (saw_content_length s || negb (bool_decide (values (lit "content-length") hs = [])))
    (chunked s || negb (bool_decide (values (lit "transfer-encoding") hs = [])))
    (head s ++ lines_of (forwarded hs)).

Definition duplicate_length : http_error := err 400 "Bad Request" "duplicate content-length".
Definition next_length (s : scan) (vs : list bytes) : http_error + Z :=
  if saw_content_length s then
    match vs with [] => inr (content_length s) | _ => inl duplicate_length end
  else match vs with [] => inr (content_length s) | _ => framing vs end.

Lemma values_cons n h hs :
  values n (h :: hs) = if has_name n h then h_value h :: values n hs else values n hs.
Proof. unfold values. rewrite filter_cons. destruct (has_name n h); done. Qed.

Lemma forwarded_cons h hs :
  forwarded (h :: hs) =
    match h_name h with
    | Some name => if is_hop_by_hop name then forwarded hs else (name, h_value h) :: forwarded hs
    | None => forwarded hs
    end.
Proof. unfold forwarded. cbn. destruct (h_name h) as [name|]; [|done]. cbn. by destruct (is_hop_by_hop name). Qed.

Lemma last_default {A} (x y : A) l : default x (last (y :: l)) = default y (last l).
Proof. rewrite last_cons. by destruct (last l). Qed.

Lemma scan_headers_spec hs s :
  scan_headers hs s =
    match next_length s (values (lit "content-length") hs) with
    | inl e => inl e
    | inr n => inr (scanned hs n s)
    end.
Proof.
  revert s. induction hs as [|h hs IH]; intros s.
  - unfold next_length, scanned. cbn. rewrite !orb_false_r, app_nil_r.
    destruct s as [? ? [] ? ?]; done.
  - cbn [scan_headers]. unfold scanned. rewrite !values_cons, forwarded_cons. unfold scan_header, has_name.
    destruct (h_name h) as [name|]; cbn [mbind sum_bind]; [|by rewrite IH].
    unfold scan_length. destruct s as [s_host s_len s_saw s_chunk s_head].
    destruct (iequals name (lit "content-length")).
    + assert ((if iequals name (lit "host") then
                 (mk_scan s_host s_len s_saw s_chunk s_head) <| host := h_value h |>
               else mk_scan s_host s_len s_saw s_chunk s_head) =
              mk_scan (if iequals name (lit "host") then h_value h else s_host) s_len s_saw s_chunk s_head)
        as -> by by destruct (iequals name (lit "host")).
      unfold next_length, framing. cbn [saw_content_length]. destruct s_saw; [done|].
      destruct (parse_content_length (h_value h)) as [n|]; [|done]. cbn [mbind sum_bind].
      destruct (iequals name (lit "host")), (iequals name (lit "transfer-encoding")), (is_hop_by_hop name);
        cbn; rewrite IH; unfold next_length, scanned; cbn; destruct (values (lit "content-length") hs);
        rewrite ?last_default, <- ?(assoc_L app); try done; rewrite ?orb_true_r, ?andb_true_r; try done.
    + cbn [mbind sum_bind].
      destruct (iequals name (lit "host")), (iequals name (lit "transfer-encoding")), (is_hop_by_hop name);
        cbn; rewrite IH; unfold next_length, scanned; cbn; rewrite ?last_default, <- ?(assoc_L app);
        rewrite ?orb_true_r; done.
Qed.

(** The same decision, read off the list of headers as a whole. *)
Definition proxy_reference (router : Router) (max_body : Z) (method path : bytes) (hs : list phr_header)
    : http_error + proxied :=
  n ← framing (values (lit "content-length") hs);
  if decide (values (lit "transfer-encoding") hs <> []) then
    inl (err 501 "Not Implemented" "chunked request body unsupported")
  else if decide (max_body <> 0 /\ max_body < n) then
    inl (err 413 "Payload Too Large" "request body too large")
  else match route_match router (default [] (last (values (lit "host") hs))) path with
       | None => inl (err 404 "Not Found" "no matching route")
       | Some b =>
           inr (mk_proxied (request_line method path ++ lines_of (forwarded hs) ++ connection_close) b n)
       end.

Lemma framing_range vs n : framing vs = inr n -> 0 <= n < 10 ^ 18.
Proof.
  destruct vs as [|v vs]; cbn; [intros [= <-]; lia|].
  destruct (parse_content_length v) as [m|] eqn:Hm; [|done]. destruct vs; [|done].
  intros [= <-]. by eapply parse_content_length_range.
Qed.

Lemma decide_proxy_reference router max_body method path hs :
  decide_proxy router max_body method path hs = proxy_reference router max_body method path hs.
Proof.
  unfold decide_proxy, proxy_reference. rewrite scan_headers_spec. unfold next_length. cbn [saw_content_length].
  assert (match values (lit "content-length") hs with [] => inr 0 | _ => framing (values (lit "content-length") hs) end
          = framing (values (lit "content-length") hs)) as Hf by by destruct (values _ hs).
  cbn [content_length] in *. rewrite Hf. clear Hf.
  destruct (framing _) as [e|n] eqn:Hn; cbn [mbind sum_bind]; [done|]. apply framing_range in Hn.
  unfold scanned. cbn. rewrite wrap_u_id.
  2: { unfold in_u. change (2 ^ 64) with 18446744073709551616. change (10 ^ 18) with 1000000000000000000 in Hn. lia. }
  destruct (values (lit "transfer-encoding") hs); cbn; [|done]. rewrite <- (assoc_L app).
  destruct (max_body =? 0) eqn:Hm, (max_body <? n) eqn:Hl; bool_to_prop; repeat case_decide; cbn; try lia; try done.
Qed.

(** C11: every request head is decided the way one reading of its whole header list
    says: the first Content-Length must parse and be the only one, any
    Transfer-Encoding is refused whatever the length says, the body must be within the
    cap, the last Host picks the route, and the head sent on is the request line, the
    headers that are not hop-by-hop in their order, and [Connection: close]. *)
Theorem decide_proxy_spec router max_body method path hs :
  decide_proxy router max_body method path hs = proxy_reference router max_body method path hs.
Proof. apply decide_proxy_reference. Qed.

(** ** Reading the head back *)

(** An independent reader of heads: lines end at CRLF, the head at an empty line. *)
Fixpoint next_line (s : bytes) : option (bytes * bytes) :=
  match s with
  | [] => None
  | c :: s' =>
      match s' with
      | d :: rest => if decide (c = ch_cr /\ d = ch_nl) then Some ([], rest)
                     else '(l, r) ← next_line s'; Some (c :: l, r)
      | [] => None
      end
  end.
Fixpoint read_head_lines (fuel : nat) (s : bytes) : option (list bytes * bytes) :=
  match fuel with
  | O => None
  | S fuel =>
      '(l, rest) ← next_line s;
      if decide (l = []) then Some ([], rest)
      else '(ls, r) ← read_head_lines fuel rest; Some (l :: ls, r)
  end.
Definition read_head (s : bytes) : option (list bytes * bytes) := read_head_lines (S (length s)) s.

Definition clean (s : bytes) : Prop := ch_cr ∉ s /\ ch_nl ∉ s.

Lemma next_line_app l rest : clean l -> next_line (l ++ crlf ++ rest) = Some (l, rest).
Proof.
  intros [Hr Hn]. induction l as [|c l IH]; [done|].
  apply not_elem_of_cons in Hr as [Hr1 Hr2]. apply not_elem_of_cons in Hn as [Hn1 Hn2].
  specialize (IH Hr2 Hn2). cbn [app next_line]. destruct (l ++ crlf ++ rest) as [|d s] eqn:Hs; [done|].
  rewrite decide_False by (intros [-> _]; done). by rewrite IH.
Qed.

Lemma read_head_lines_app ls rest fuel :
  Forall (fun l => clean l /\ l <> []) ls -> (length ls < fuel)%nat ->
  read_head_lines fuel ((ls ≫= (fun l => l ++ crlf)) ++ crlf ++ rest) = Some (ls, rest).
Proof.
  intros Hl. revert fuel. induction Hl as [|l ls [Hc Hne] _ IH]; intros [|fuel] Hf; cbn in Hf; try lia.
  - cbn [read_head_lines mbind list_bind app]. change (crlf ++ rest) with ([] ++ crlf ++ rest).
    rewrite next_line_app by (split; apply not_elem_of_nil). done.
  - cbn [read_head_lines mbind list_bind]. rewrite <- !(assoc_L app), next_line_app by done.
    cbn [mbind option_bind]. rewrite decide_False by done. by rewrite IH by lia.
Qed.

(** The line of a forwarded header, without its end. *)
Definition field_line (nv : bytes * bytes) : bytes := nv.1 ++ lit ": " ++ nv.2.
Definition head_lines (method path : bytes) (hs : list phr_header) : list bytes :=
  [method ++ lit " " ++ path ++ lit " HTTP/1.1"] ++ (field_line <$> forwarded hs) ++ [lit "Connection: close"].

(** What the tokenizer promises of its tokens: none holds an end of line. *)
Definition clean_head (method path : bytes) (hs : list phr_header) : Prop :=
  clean method /\ clean path /\
  Forall (fun h => clean (h_value h) /\ match h_name h with Some n => clean n | None => True end) hs.

Lemma clean_app a b : clean a -> clean b -> clean (a ++ b).
Proof. unfold clean. rewrite !not_elem_of_app. tauto. Qed.

Lemma clean_closed l : bool_decide (clean l) = true -> clean l.
Proof. apply bool_decide_eq_true_1. Qed.

Lemma upstream_lines method path hs :
  request_line method path ++ lines_of (forwarded hs) ++ connection_close =
    (head_lines method path hs ≫= (fun l => l ++ crlf)) ++ crlf.
Proof.
  unfold head_lines. cbn [app mbind list_bind]. rewrite bind_app. cbn [mbind list_bind].
  unfold request_line, connection_close. rewrite <- !(assoc_L app). repeat f_equal.
  induction (forwarded hs) as [|nv l IH]; [done|]. cbn. unfold header_line, field_line.
  rewrite <- !(assoc_L app). do 4 f_equal. exact IH.
Qed.

Lemma iequals_spec a b : iequals a b = true <-> tolower <$> a = tolower <$> b.
Proof.
  unfold iequals. split.
  - case_decide as Hl; [|done]. revert b Hl. induction a as [|c a IH]; intros [|d b] Hl; try done.
    cbn. case_decide as Hc; [|done]. intros H. rewrite (IH b) by (cbn in Hl; auto with lia). by rewrite Hc.
  - intros Heq. assert (length a = length b) as Hl.
    { apply (f_equal length) in Heq. by rewrite !length_fmap in Heq. }
    rewrite decide_True by done. clear Hl. revert b Heq. induction a as [|c a IH]; intros [|d b] Heq; try done.
    cbn in *. injection Heq as Hc Heq. rewrite decide_True by done. by apply IH.
Qed.

Lemma content_length_forwarded name :
  iequals name (lit "content-length") = true -> is_hop_by_hop name = false.
Proof.
  intros H. apply not_true_is_false. unfold is_hop_by_hop. intros Hd.
  apply existsb_exists in Hd as (d & Hin & Hd). apply iequals_spec in H, Hd. rewrite Hd in H.
  clear Hd. repeat (destruct Hin as [<-|Hin]; [vm_compute in H; discriminate|]). done.
Qed.

Lemma forwarded_lengths hs :
  (nv ← forwarded hs; if iequals nv.1 (lit "content-length") then [nv.2] else []) =
    values (lit "content-length") hs.
Proof.
  induction hs as [|h hs IH]; [done|]. rewrite forwarded_cons, values_cons. unfold has_name.
  destruct (h_name h) as [name|]; [|done].
  destruct (iequals name (lit "content-length")) eqn:Hc.
  - rewrite (content_length_forwarded _ Hc). cbn [mbind list_bind fst snd]. by rewrite Hc, IH.
  - destruct (is_hop_by_hop name); [done|]. cbn [mbind list_bind fst snd]. by rewrite Hc, IH.
Qed.

Lemma head_lines_clean method path hs :
  clean_head method path hs -> Forall (fun l => clean l /\ l <> []) (head_lines method path hs).
Proof.
  intros (Hm & Hp & Hh). unfold head_lines. cbn [app].
  apply Forall_cons. split; [|apply Forall_app; split; [|apply Forall_singleton]].
  - split; [|by destruct method].
    apply (clean_app method); [done|]. apply (clean_app (lit " ")); [by apply clean_closed|].
    apply clean_app; [done|by apply clean_closed].
  - apply Forall_fmap, Forall_forall. intros nv Hnv. unfold forwarded in Hnv.
    apply list_elem_of_omap in Hnv as (h & Hin & Hnv). rewrite Forall_forall in Hh.
    destruct (Hh h Hin) as [Hv Hn]. destruct (h_name h) as [name|]; [|done].
    cbn in Hnv. destruct (is_hop_by_hop name); [done|]. injection Hnv as <-. unfold field_line. cbn.
    split; [|by destruct name]. apply clean_app; [done|]. apply clean_app; [by apply clean_closed|done].
  - split; [by apply clean_closed|done].
Qed.

Lemma length_lines (ls : list bytes) : (length ls <= length (ls ≫= (fun l => l ++ crlf)))%nat.
Proof. induction ls as [|l ls IH]; [done|]. cbn. rewrite !length_app. cbn. lia. Qed.

(** What a reader of heads makes of what castle sends on. *)
Definition read_as (method path : bytes) (hs : list phr_header) (p : proxied) (body : bytes) : Prop :=
  read_head (p_upstream p ++ body) = Some (head_lines method path hs, body) /\
  Forall (fun nv => is_hop_by_hop nv.1 = false) (forwarded hs) /\
  match nv ← forwarded hs; if iequals nv.1 (lit "content-length") then [nv.2] else [] with
  | [] => p_body p = 0
  | [v] => length_digits_ok v /\ p_body p = decimal v
  | _ => False
  end.

Lemma clean_head_read router max_body method path hs p body :
  clean_head method path hs -> decide_proxy router max_body method path hs = inr p -> read_as method path hs p body.
Proof.
  intros Hclean. unfold read_as. rewrite decide_proxy_reference. unfold proxy_reference.
  destruct (framing _) as [e|n] eqn:Hf; cbn [mbind sum_bind]; [done|].
  case_decide; [done|]. case_decide; [done|]. destruct (route_match _ _ _) as [b|]; [|done].
  intros [= <-]. cbn [p_upstream p_body]. split_and!.
  - rewrite upstream_lines, <- (assoc_L app). unfold read_head. apply read_head_lines_app.
    + by apply head_lines_clean.
    + rewrite !length_app. pose proof (length_lines (head_lines method path hs)). lia.
  - apply Forall_forall. intros nv Hnv. unfold forwarded in Hnv.
    apply list_elem_of_omap in Hnv as (h & _ & Hh). destruct (h_name h) as [name|]; [|done].
    cbn in Hh. destruct (is_hop_by_hop name) eqn:Hhop; [done|]. by injection Hh as <-.
  - rewrite forwarded_lengths. revert Hf. unfold framing. destruct (values (lit "content-length") hs) as [|v vs]; [congruence|].
    rewrite parse_content_length_spec'. case_decide as Hv; [|done]. destruct vs; [|done]. intros Hn. split; [done|congruence].
Qed.

(** ** The tokenizer *)

(** What the tokenizer reports fits in what it was given: the head, and in the head the
    method, the path and the headers, of which there are at most [kMaxHeaders]. *)
Definition parse_fits (parse : bytes -> phr_result) : Prop :=
  forall buf n m p hs, parse buf = Parsed n m p hs ->
    (n <= length buf)%nat /\ (length m + length p + headers_size hs <= n)%nat /\ (length hs <= kMaxHeaders)%nat.

Lemma tokenize_fits sse : parse_fits (tokenize sse).
Proof.
  intros buf n m p hs. unfold tokenize. pose proof (phr_once sse kMaxHeaders buf []) as Hd.
  pose proof (spends_request sse kMaxHeaders buf) as Hs. unfold phr_parse_request in *. cbn [Nat.ltb Nat.leb] in *.
  destruct (parse_request _ _ buf) as [r rest|ret|]; [|by case_decide|done]. intros [= <- <- <- <-].
  destruct Hd as ([_ _ _ [_ Hroom _]] & _). specialize (Hs _ _ eq_refl). unfold request_size in Hs. split_and!; lia.
Qed.

(** No rewritten head is longer: each line forwarded gains at most four bytes, the request
    line and the end of the head thirty-three. *)
Definition kMaxUpstream (head : Z) : Z := head + 4 * Z.of_nat kMaxHeaders + 33.

Lemma header_line_length name value : length (header_line name value) = (length name + length value + 4)%nat.
Proof.
  unfold header_line. rewrite !length_app. change (length (lit ": ")) with 2%nat. change (length crlf) with 2%nat. lia.
Qed.
Lemma lines_length hs : (length (lines_of (forwarded hs)) <= headers_size hs + 4 * length hs)%nat.
Proof.
  induction hs as [|h hs IH]; [done|]. unfold forwarded, headers_size in *. cbn [omap list_omap sum_list_with length].
  unfold header_size at 1. destruct (h_name h) as [name|]; cbn [mbind option_bind default]; [|lia].
  unfold id. destruct (is_hop_by_hop name); [lia|]. unfold lines_of in *. cbn [mbind list_bind].
  rewrite length_app, header_line_length. cbn [fst snd]. lia.
Qed.

(** The rewritten head is not much longer than the head it came from. *)
Lemma upstream_fits parse router max_body buf n p :
  parse_fits parse -> decide_head router max_body (length buf) (parse buf) = Proxy n p ->
  size (p_upstream p) <= kMaxUpstream (size buf).
Proof.
  intros Hfit. unfold decide_head. destruct (parse buf) as [| |pret m path hs] eqn:Hp; [by destruct (_ <? _)|done|].
  destruct (Hfit _ _ _ _ _ Hp) as (H1 & H2 & H3). destruct (_ && _); [done|].
  destruct (decide_proxy _ _ _ _ _) as [e|q] eqn:Hd; [done|]. intros [= -> ->].
  rewrite decide_proxy_reference in Hd. unfold proxy_reference in Hd.
  destruct (framing _) as [e|b]; [done|]. cbn [mbind sum_bind] in Hd.
  case_decide; [done|]. case_decide; [done|]. case_match; [|done]. injection Hd as <-. cbn [p_upstream].
  pose proof (lines_length hs) as Hl. unfold size, kMaxUpstream, request_line, connection_close. rewrite !length_app.
  change (length (lit " ")) with 1%nat. change (length (lit " HTTP/1.1")) with 9%nat. change (length crlf) with 2%nat.
  change (length (lit "Connection: close")) with 17%nat. lia.
Qed.

Lemma clean_all f s : (forall c, f c = true -> c <> ch_cr /\ c <> ch_nl) -> all_of f s -> clean s.
Proof.
  intros Hf Hs. unfold all_of in Hs. rewrite Forall_forall in Hs. split; intros Hin%Hs; by destruct (Hf _ Hin).
Qed.

(** What was accepted holds no end of line, except where the lines end. *)
Lemma tokenize_clean sse buf n m p hs : tokenize sse buf = Parsed n m p hs -> clean_head m p hs.
Proof.
  unfold tokenize. pose proof (phr_once sse kMaxHeaders buf []) as Hd.
  destruct (phr_parse_request _ _ _ buf) as [r rest|ret|]; [|by case_decide|done]. intros [= _ <- <- <-].
  destruct Hd as ([[_ Hm] [_ Hp] _ [Hh _ _]] & _).
  assert (forall c, token_char c = true -> c <> ch_cr /\ c <> ch_nl) as Ht by (intros c Hc; by destruct (token_plain c Hc) as (? & ? & _)).
  split_and!; [by apply (clean_all token_char)|apply (clean_all path_char); [each_byte|done]|].
  eapply Forall_impl; [exact Hh|]. intros h [Hn Hv _]. split; [apply (clean_all value_char); [each_byte|done]|].
  destruct (h_name h) as [nm|]; [|done]. by apply (clean_all token_char), Hn.
Qed.

(** Bytes that come after the head do not change what it is. *)
Lemma tokenize_more sse buf more n m p hs : tokenize sse buf = Parsed n m p hs -> tokenize sse (buf ++ more) = Parsed n m p hs.
Proof.
  unfold tokenize. pose proof (phr_once sse kMaxHeaders buf more) as Hd.
  destruct (phr_parse_request _ _ _ buf) as [r rest|ret|]; [|by case_decide|done]. destruct Hd as (_ & (hd & ->) & ->).
  intros [= <- <- <- <-]. f_equal. rewrite !length_app. lia.
Qed.

Lemma decide_head_more sse router max_body size buf rest size' n p :
  decide_head router max_body size (tokenize sse buf) = Proxy n p ->
  decide_head router max_body size' (tokenize sse (buf ++ rest)) = Proxy n p.
Proof.
  destruct (tokenize sse buf) as [| |k m path hs] eqn:Ht; [cbn; by destruct (_ <? _)|done|].
  by rewrite (tokenize_more _ _ _ _ _ _ _ Ht).
Qed.

Lemma upstream_head_read sse router max_body buf n p body :
  decide_head router max_body (length buf) (tokenize sse buf) = Proxy n p ->
  exists method path hs, tokenize sse buf = Parsed n method path hs /\ read_as method path hs p body.
Proof.
  unfold decide_head. destruct (tokenize sse buf) as [| |pret method path hs] eqn:Ht; [by destruct (_ <? _)|done|].
  destruct (_ && _); [done|]. destruct (decide_proxy _ _ _ _ _) as [e|q] eqn:Hd; [done|]. intros [= -> ->].
  exists method, path, hs. split; [done|]. eapply clean_head_read; [by eapply tokenize_clean|exact Hd].
Qed.

(** C10: no smuggling, from the bytes the client sent to those the backend gets. When a head is
    accepted, what castle sends on, followed by whatever body, is read back by any reader
    of heads as exactly the request line, the forwarded headers and [Connection: close], and
    the body starts where castle thinks it does. The head holds no Transfer-Encoding, at most
    one Content-Length, and castle frames the body by the number that header denotes. *)
Theorem upstream_head_unambiguous sse router max_body buf n p body :
  decide_head router max_body (length buf) (tokenize sse buf) = Proxy n p ->
  exists method path hs, tokenize sse buf = Parsed n method path hs /\ read_as method path hs p body.
Proof. apply upstream_head_read. Qed.

Definition sample_head : bytes :=
  lit "POST /x HTTP/1.1" ++ crlf ++ lit "Host: example.com" ++ crlf ++ lit "Connection: keep-alive" ++ crlf ++
  lit "Content-Length: 11" ++ crlf ++ crlf.
Definition sample_router : Router := [mk_route (lit "web") [] [] (mk_backend (lit "127.0.0.1") 9001)].

Example upstream_head_unambiguous_witness :
  exists p,
    decide_head sample_router 0 (length sample_head) (tokenize true sample_head) = Proxy (length sample_head) p /\
    p_body p = 11 /\
    exists method path hs,
      tokenize true sample_head = Parsed (length sample_head) method path hs /\
      read_as method path hs p (lit "hello world") /\
      head_lines method path hs =
        [lit "POST /x HTTP/1.1"; lit "Host: example.com"; lit "Content-Length: 11"; lit "Connection: close"].
Proof.
  eexists. split; [vm_compute; reflexivity|]. split; [reflexivity|].
  destruct (upstream_head_unambiguous true sample_router 0 sample_head (length sample_head) _ (lit "hello world") eq_refl)
    as (method & path & hs & Ht & Hr).
  exists method, path, hs. split; [exact Ht|]. split; [exact Hr|].
  vm_compute in Ht. injection Ht as <- <- <-. vm_compute. reflexivity.
Defined.
