(* ===== verification/HttpStatus.v ===== *)
(** * HttpStatus: the answers castle writes itself

    Models [send_response], [handle_internal], [render_health] and [render_uptime] of
    src/src/http/http_connection.cpp.
    The TCP probe of a backend, the local-time rendering of the start instant and the
    clock readings are arguments. *)
From S2P Require Import Prelude Text Uptime Router ServiceConfig Supervisor HttpHead.
Open Scope Z_scope.

(** The lambda [line] of [render_uptime]. *)
Definition uptime_line (name : bytes) (secs : Z) : bytes :=
  name ++ lit ": " ++ to_string secs ++ lit "s (" ++ human_duration secs ++ lit ")".

Fixpoint uptime_lines (now : Z) (us : list ServiceUptime) : bytes :=
  match us with
  | [] => []
  | u :: us' =>
      (if u_running u then uptime_line (u_name u) (to_seconds (now - u_since u)) ++ [ch_nl]
       else u_name u ++ lit ": down" ++ [ch_nl]) ++ uptime_lines now us'
  end.
(** [supervisor] is the published snapshot, absent without --services. *)
Definition render_uptime (now start : Z) (start_wall : bytes) (supervisor : option (list ServiceUptime)) : bytes :=
  uptime_line (lit "castle") (to_seconds (now - start)) ++ lit " since " ++ start_wall ++ [ch_nl] ++
  match supervisor with Some us => uptime_lines now us | None => [] end.

(** The loop over the routes, with the backends probed so far. *)
Fixpoint health_loop (probe : bytes -> Z -> bool) (rs : list Route) (probed : list Backend)
    (out : bytes) (all_up : bool) : bytes * bool :=
  match rs with
  | [] => (out, all_up)
  | r :: rs' =>
      let b := rt_backend r in
      if existsb (fun p => bool_decide (be_host p = be_host b) && (be_port p =? be_port b)) probed
      then health_loop probe rs' probed out all_up
      else
        let up := probe (be_host b) (be_port b) in
        health_loop probe rs' (probed ++ [b])
          (out ++ rt_name r ++ (if up then lit ": up" else lit ": DOWN") ++ [ch_nl])
          (if up then all_up else false)
  end.
Definition render_health (probe : bytes -> Z -> bool) (routes : list Route) : bytes * bool :=
  health_loop probe routes [] (lit "castle: up" ++ [ch_nl]) true.

(** The arguments of [send_response]. *)
Record response := mk_response { r_code : Z; r_status : bytes; r_body : bytes; r_head_only : bool }.
Definition of_error (e : http_error) : response := mk_response (e_code e) (e_status e) (e_body e) false.

(** The bytes [send_response] puts in [out_]; [char head\[192\]]. *)
Definition response_head (code : Z) (status : bytes) (size : nat) : bytes :=
  lit "HTTP/1.1 " ++ to_string code ++ lit " " ++ status ++ crlf ++
  lit "Content-Type: text/plain" ++ crlf ++
  lit "Content-Length: " ++ to_string (Z.of_nat size) ++ crlf ++
  lit "Cache-Control: no-store" ++ crlf ++
  lit "Connection: close" ++ crlf ++ crlf.
Definition response_bytes (r : response) : bytes :=
  let out := take 191 (response_head (r_code r) (r_status r) (length (r_body r))) in
  if r_head_only r then out else out ++ r_body r.

Definition handle_internal (probe : bytes -> Z -> bool) (routes : list Route) (now start : Z)
    (start_wall : bytes) (supervisor : option (list ServiceUptime)) (method path : bytes) : response :=
  let head_only := bool_decide (method = lit "HEAD") in
  if negb (bool_decide (method = lit "GET")) && negb head_only then
    mk_response 405 (lit "Method Not Allowed") (lit "use GET or HEAD" ++ [ch_nl]) false
  else if decide (path = lit "/_castle/health") then
    let '(body, all_up) := render_health probe routes in
    if all_up then mk_response 200 (lit "OK") body head_only
    else mk_response 503 (lit "Service Unavailable") body head_only
  else if decide (path = lit "/_castle/uptime") then
    mk_response 200 (lit "OK") (render_uptime now start start_wall supervisor) head_only
  else mk_response 404 (lit "Not Found") (lit "unknown castle endpoint" ++ [ch_nl]) head_only.

(** ** castle's own responses are framed by their Content-Length *)

Record response_ok (r : response) : Prop := {
  ok_code : 0 <= r_code r < 1000;
  ok_status : clean (r_status r) /\ (length (r_status r) <= 64)%nat;
  ok_size : Z.of_nat (length (r_body r)) < 10 ^ 20
}.

Lemma to_string_clean z : clean (to_string z).
Proof.
  assert (forall c, c = ch_cr \/ c = ch_nl -> c ∉ to_string z) as H; [|split; apply H; auto].
  intros c Hc Hin. destruct (to_string_bytes _ _ Hin) as [->|[_ Hb _ _]]; destruct Hc; by subst.
Qed.

Definition response_lines (r : response) : list bytes :=
  [lit "HTTP/1.1 " ++ to_string (r_code r) ++ lit " " ++ r_status r;
   lit "Content-Type: text/plain";
   lit "Content-Length: " ++ to_string (Z.of_nat (length (r_body r)));
   lit "Cache-Control: no-store";
   lit "Connection: close"].

Lemma response_head_lines r :
  response_head (r_code r) (r_status r) (length (r_body r)) =
    (response_lines r ≫= (fun l => l ++ crlf)) ++ crlf.
Proof.
  unfold response_head, response_lines. cbn [mbind list_bind]. rewrite app_nil_r, <- !(assoc_L app). done.
Qed.

Lemma response_head_short r :
  response_ok r -> (length (response_head (r_code r) (r_status r) (length (r_body r))) <= 191)%nat.
Proof.
  intros [Hc [_ Hs] Hb].
  pose proof (to_string_length (r_code r) 2 ltac:(lia)).
  pose proof (to_string_length (Z.of_nat (length (r_body r))) 19 ltac:(lia)).
  unfold response_head. repeat rewrite length_app. change (length crlf) with 2%nat.
  repeat match goal with |- context [length (lit ?s)] =>
    let n := eval vm_compute in (length (lit s)) in change (length (lit s)) with n end. lia.
Qed.

Lemma clean_lit s : bool_decide (clean (lit s)) = true -> clean (lit s).
Proof. apply clean_closed. Qed.

(** C15: a response castle writes itself frames itself: its head is never cut by the
    192-byte buffer, a reader of heads finds exactly castle's five fields, the
    Content-Length is that of the body, and what follows the head is the body, or
    nothing in answer to HEAD. *)
Theorem response_self_framed r rest :
  response_ok r ->
  read_head (response_bytes r ++ rest) =
    Some (response_lines r, (if r_head_only r then [] else r_body r) ++ rest).
Proof.
  intros Hr. unfold response_bytes. rewrite take_ge by by apply response_head_short.
  assert (forall body, (response_lines r ≫= (fun l => l ++ crlf)) ++ crlf ++ body =
            response_head (r_code r) (r_status r) (length (r_body r)) ++ body) as Hh.
  { intros body. by rewrite response_head_lines, <- (assoc_L app). }
  assert (forall body, read_head (response_head (r_code r) (r_status r) (length (r_body r)) ++ body) =
            Some (response_lines r, body)) as Hread.
  { intros body. rewrite <- Hh. unfold read_head. apply read_head_lines_app.
    - destruct Hr as [_ [Hs _] _]. unfold response_lines.
      repeat (apply Forall_cons_2; [split; [|done]|]); [..|apply Forall_nil_2];
        repeat apply clean_app; try apply to_string_clean; try done; by apply clean_closed.
    - rewrite !length_app. pose proof (length_lines (response_lines r)). lia. }
  destruct (r_head_only r); [apply Hread|]. by rewrite <- (assoc_L app), Hread.
Qed.

(** ** The health page *)

(** The routes listed: the first of each backend. *)
Fixpoint firsts (seen : list Backend) (rs : list Route) : list Route :=
  match rs with
  | [] => []
  | r :: rs' => if decide (rt_backend r ∈ seen) then firsts seen rs' else r :: firsts (seen ++ [rt_backend r]) rs'
  end.
Definition probe_route (probe : bytes -> Z -> bool) (r : Route) : bool :=
  probe (be_host (rt_backend r)) (be_port (rt_backend r)).
Definition health_line (probe : bytes -> Z -> bool) (r : Route) : bytes :=
  rt_name r ++ (if probe_route probe r then lit ": up" else lit ": DOWN") ++ [ch_nl].

Lemma health_loop_spec probe rs probed out all_up :
  Forall (fun b => probe (be_host b) (be_port b) = true) probed \/ all_up = false ->
  health_loop probe rs probed out all_up =
    (out ++ (firsts probed rs ≫= health_line probe), all_up && forallb (probe_route probe) rs).
Proof.
  revert probed out all_up. induction rs as [|r rs IH]; intros probed out all_up Hp.
  { cbn. by rewrite app_nil_r, andb_true_r. }
  cbn [health_loop firsts forallb].
  assert (existsb (fun p => bool_decide (be_host p = be_host (rt_backend r)) &&
            (be_port p =? be_port (rt_backend r))) probed = bool_decide (rt_backend r ∈ probed)) as Hex.
  { apply eq_true_iff_eq. rewrite existsb_exists, bool_decide_eq_true. split.
    - intros ([h p] & Hin & Hb). bool_to_prop. cbn in *. apply list_elem_of_In in Hin.
      destruct (rt_backend r); cbn in *; by subst.
    - intros Hin%list_elem_of_In. exists (rt_backend r). split; [done|].
      by rewrite bool_decide_eq_true_2, Z.eqb_refl by done. }
  rewrite Hex. destruct (decide (rt_backend r ∈ probed)) as [Hin|Hin];
    [rewrite bool_decide_eq_true_2 by done|rewrite bool_decide_eq_false_2 by done].
  - rewrite IH by done. f_equal. destruct Hp as [Hp| ->]; [|done].
    rewrite Forall_forall in Hp. unfold probe_route. by rewrite (Hp _ Hin).
  - rewrite IH.
    + cbn [mbind list_bind]. unfold health_line at 2, probe_route. rewrite <- !(assoc_L app). f_equal.
      by destruct (probe (be_host (rt_backend r)) _), all_up.
    + unfold probe_route in *. destruct (probe (be_host (rt_backend r)) _) eqn:Hpr; [|by right].
      destruct Hp as [Hp|Hp]; [left|by right]. apply Forall_app. split; [done|by constructor].
Qed.

(** The health page lists every backend once, under its first route, with the
    outcome of its probe, and answers 200 exactly when every routed backend is up. *)
Theorem render_health_spec probe routes :
  render_health probe routes =
    (lit "castle: up" ++ [ch_nl] ++ (firsts [] routes ≫= health_line probe),
     forallb (probe_route probe) routes) /\
  NoDup (rt_backend <$> firsts [] routes) /\
  forall r, r ∈ routes -> rt_backend r ∈ rt_backend <$> firsts [] routes.
Proof.
  split_and!.
  - unfold render_health. rewrite health_loop_spec by by left. by rewrite <- (assoc_L app).
  - assert (forall rs seen, NoDup (rt_backend <$> firsts seen rs) /\
              forall b, b ∈ seen -> b ∉ rt_backend <$> firsts seen rs) as H; [|apply H].
    induction rs as [|r rs IH]; intros seen; cbn; [split; [constructor|set_solver]|].
    case_decide as Hin; [apply IH|]. destruct (IH (seen ++ [rt_backend r])) as [H1 H2].
    cbn. split; [constructor; [apply H2; set_solver|done]|]. intros b Hb.
    rewrite not_elem_of_cons. split; [by intros ->|apply H2; set_solver].
  - assert (forall rs seen r, r ∈ rs -> rt_backend r ∈ seen \/ rt_backend r ∈ rt_backend <$> firsts seen rs) as H.
    { induction rs as [|r rs IH]; intros seen r'; cbn; [set_solver|].
      intros [->|Hr]%elem_of_cons; case_decide as Hin; cbn; try set_solver.
      destruct (IH (seen ++ [rt_backend r]) _ Hr); set_solver. }
    intros r Hr. destruct (H routes [] r Hr); [set_solver|done].
Qed.

(** A HEAD request for an unknown endpoint. *)
Definition sample_response : response :=
  handle_internal (fun _ _ => true) [] 0 0 [] None (lit "HEAD") (lit "/_castle/x").
Example response_self_framed_witness :
  read_head (response_bytes sample_response ++ []) = Some (response_lines sample_response, []).
Proof.
  rewrite (response_self_framed sample_response []); [reflexivity|].
  split; [vm_compute; split; [discriminate|reflexivity]| |vm_compute; reflexivity].
  split; [by apply clean_closed|vm_compute; lia].
Defined.
