(* ===== verification/Http.v ===== *)
(** * Http: a client connection and its backend connection

    Models [HttpConnection] and [BackendConnection]
    (src/src/http/{http_connection,backend_connection}.{h,cpp}) as the two halves they
    are: each holds a pointer to the other and calls into it, on one loop thread. The
    world holds both objects, what the loop knows of them (registered, to be closed),
    and the results the next system calls will give: one list per kind of call, that
    ends in "would block". The tokenizer is a parameter here, [Picohttp.v]'s in [HttpSpec.v].
    A null or dangling pointer that is followed is a [fault].

    The functions call each other in circles, but every circle passes through a read:
    of the client's socket ([pump_read]) or of the backend's ([on_readable]). Those two
    loops carry fuel; started with more fuel than there are results left to read they
    never exhaust it ([HttpSafe.v]). *)
From S2P Require Import Prelude Text Router Supervisor HttpHead HttpStatus.
Open Scope Z_scope.

Inductive IoStatus := IoOk | WouldBlockRead | WouldBlockWrite | IoClosed | IoError.
#[export] Instance IoStatus_eq_dec : EqDecision IoStatus.
Proof. solve_decision. Defined.

Inductive State := ReadingHead | StreamingUp | Streaming | Closing.
#[export] Instance State_eq_dec : EqDecision State.
Proof. solve_decision. Defined.

(** An epoll mask: EPOLLIN and EPOLLOUT; EPOLLET is always set. *)
Definition mask : Type := bool * bool.
Definition EPOLLIN : mask := (true, false).
Definition EPOLLOUT : mask := (false, true).

(** [class HttpConnection]; [backend_] says whether the pointer is non-null. *)
Record Http := mk_http {
  backend_ : bool;
  last_activity_ : Z;
  state_ : State;
  in_ : bytes;
  out_ : bytes;
  upstream_ : bytes;
  backend_target_ : Backend;
  head_len_ : nat;
  body_remaining_ : Z;
  responded_ : bool;
  handshake_done_ : bool;
  closed_ : bool;
  client_eof_ : bool;
  read_paused_ : bool;
  backend_paused_ : bool;
  interest_ : mask;
  read_block_ : IoStatus;
  write_block_ : IoStatus
}.
#[export] Instance eta_Http : Eta Http := fun c =>
  mk_http (backend_ c) (last_activity_ c) (state_ c) (in_ c) (out_ c) (upstream_ c) (backend_target_ c)
    (head_len_ c) (body_remaining_ c) (responded_ c) (handshake_done_ c) (closed_ c) (client_eof_ c)
    (read_paused_ c) (backend_paused_ c) (interest_ c) (read_block_ c) (write_block_ c).

(** [class BackendConnection]; [client] says whether [client_] is non-null. *)
Record Back := mk_back {
  client : bool;
  bout : bytes;
  blast_activity : Z;
  binterest : mask;
  connected : bool;
  bread_paused : bool;
  high_water_hit : bool
}.
#[export] Instance eta_Back : Eta Back := fun b =>
  mk_back (client b) (bout b) (blast_activity b) (binterest b) (connected b) (bread_paused b)
    (high_water_hit b).

(** No backend connection: before one is dialled, and once it is destroyed. *)
Definition no_back : Back := mk_back false [] 0 (false, false) false false false.

Definition kBackpressureHigh : Z := 262144.
Definition kBackpressureLow : Z := 65536.
(** The size of the stack buffers reads go through. *)
Definition kBuf : Z := 16384.

(** ** What the system calls answer *)

Inductive read_result := ReadBytes (data : bytes) | ReadAgain | ReadIntr | ReadFail.
Inductive write_result := Wrote (k : nat) | WriteAgain | WriteIntr | WriteFail.
#[export] Instance write_result_eq_dec : EqDecision write_result.
Proof. solve_decision. Defined.
(** The outcomes of [start_backend]'s calls up to [loop_.add]. *)
Inductive dial_result := NoSocket | BadAddress | ConnectFails | AddFails | Connecting.

Record env := mk_env {
  e_handshake : list IoStatus;          (* transport_->handshake() *)
  e_recv : list (IoStatus * bytes);     (* transport_->recv: status, bytes when Ok *)
  e_send : list (IoStatus * nat);       (* transport_->send: status, count when Ok *)
  e_read : list read_result;            (* read() of the backend socket *)
  e_write : list write_result;          (* write() to the backend socket *)
  e_dial : dial_result;
  e_soerror : bool                      (* getsockopt failed or SO_ERROR is set *)
}.
#[export] Instance eta_env : Eta env := fun e =>
  mk_env (e_handshake e) (e_recv e) (e_send e) (e_read e) (e_write e) (e_dial e) (e_soerror e).

Record HWorld := mk_hworld {
  http : Http; back : Back;
  http_alive : bool; back_alive : bool;          (* the objects exist and are registered *)
  http_closing : bool; back_closing : bool;      (* in the loop's pending_close_ *)
  http_mask : mask; back_mask : mask;            (* as last given to epoll *)
  sys : env;
  ticks : nat;                                   (* readings of the clock so far *)
  bytes_in : Z; bytes_out : Z;                   (* the loop's counters *)
  (* what has crossed each socket since the beginning *)
  client_recv : bytes; client_sent : bytes; backend_recv : bytes; backend_sent : bytes
}.
#[export] Instance eta_HWorld : Eta HWorld := fun w =>
  mk_hworld (http w) (back w) (http_alive w) (back_alive w) (http_closing w) (back_closing w)
    (http_mask w) (back_mask w) (sys w) (ticks w) (bytes_in w) (bytes_out w)
    (client_recv w) (client_sent w) (backend_recv w) (backend_sent w).

(** ** Computations that may fault *)

Inductive fault := NullPointer | DanglingPointer | OutOfFuel.
Definition R (A : Type) : Type := HWorld -> fault + A * HWorld.
Definition rret {A} (x : A) : R A := fun w => inr (x, w).
Definition rbind {A B} (m : R A) (k : A -> R B) : R B := fun w =>
  match m w with inl f => inl f | inr (x, w') => k x w' end.
Notation "'let?' x := m 'in' k" := (rbind m (fun x => k))
  (at level 200, x name, m at level 100, k at level 200, right associativity,
   format "'[v' 'let?'  x  :=  m  'in' '/' k ']'") : castle_scope.
Notation "m ;? k" := (rbind m (fun _ : unit => k))
  (at level 100, k at level 200, right associativity, format "'[v' m ;? '/' k ']'") : castle_scope.
Definition rfault {A} (f : fault) : R A := fun _ => inl f.
Definition rgets {A} (f : HWorld -> A) : R A := fun w => inr (f w, w).
Definition rmodify (f : HWorld -> HWorld) : R unit := fun w => inr (tt, f w).
Definition rwhen (b : bool) (m : R unit) : R unit := if b then m else rret tt.

(** Reading and updating the two objects. *)
Definition hget {A} (f : Http -> A) : R A := rgets (fun w => f (http w)).
Definition hset (f : Http -> Http) : R unit := rmodify (fun w => w <| http ::= f |>).
Definition bset (f : Back -> Back) : R unit := rmodify (fun w => w <| back ::= f |>).

(** [*backend_] from the client connection, [*client_] from the backend connection. *)
Definition deref_backend : R unit :=
  let? p := hget backend_ in
  if p then let? alive := rgets back_alive in if alive then rret tt else rfault DanglingPointer
  else rfault NullPointer.
Definition deref_client : R unit :=
  let? p := rgets (fun w => client (back w)) in
  if p then let? alive := rgets http_alive in if alive then rret tt else rfault DanglingPointer
  else rfault NullPointer.

Section Proxy.
Context (mono : nat -> Z).                       (* steady_clock::now(), per reading *)
Context (phr_parse_request : bytes -> phr_result).
Context (router : Router) (timeout_ : Z) (max_body_ : Z).
Context (probe : bytes -> Z -> bool) (start : Z) (start_wall : bytes).
Context (snapshot : option (list ServiceUptime)).

Definition now : R Z :=
  let? k := rgets ticks in rmodify (fun w => w <| ticks := S k |>) ;? rret (mono k).
Definition touch : R unit := let? t := now in hset (fun c => c <| last_activity_ := t |>).
Definition btouch : R unit := let? t := now in bset (fun b => b <| blast_activity := t |>).

(** *** System calls *)

Definition transport_handshake : R IoStatus := fun w =>
  match e_handshake (sys w) with
  | [] => inr (WouldBlockRead, w)
  | st :: r => inr (st, w <| sys ::= (fun e => e <| e_handshake := r |>) |>)
  end.
Definition transport_recv : R (IoStatus * bytes) := fun w =>
  match e_recv (sys w) with
  | [] => inr ((WouldBlockRead, []), w)
  | (st, d) :: r =>
      let data := if decide (st = IoOk) then take (Z.to_nat kBuf) d else [] in
      inr ((st, data), w <| sys ::= (fun e => e <| e_recv := r |>) |>
                         <| client_recv ::= (fun l => l ++ data) |>)
  end.
Definition transport_send (data : bytes) : R (IoStatus * nat) := fun w =>
  match e_send (sys w) with
  | [] => inr ((WouldBlockWrite, O), w)
  | (st, k) :: r =>
      let n := if decide (st = IoOk) then Nat.min k (length data) else O in
      inr ((st, n), w <| sys ::= (fun e => e <| e_send := r |>) |>
                      <| client_sent ::= (fun l => l ++ take n data) |>)
  end.
Definition backend_read : R read_result := fun w =>
  match e_read (sys w) with
  | [] => inr (ReadAgain, w)
  | ReadBytes d :: r =>
      inr (ReadBytes (take (Z.to_nat kBuf) d), w <| sys ::= (fun e => e <| e_read := r |>) |>
                                      <| backend_recv ::= (fun l => l ++ take (Z.to_nat kBuf) d) |>)
  | x :: r => inr (x, w <| sys ::= (fun e => e <| e_read := r |>) |>)
  end.
Definition backend_write (data : bytes) : R write_result := fun w =>
  match e_write (sys w) with
  | [] => inr (WriteAgain, w)
  | Wrote k :: r =>
      let n := Nat.min (S k) (length data) in
      inr (Wrote n, w <| sys ::= (fun e => e <| e_write := r |>) |>
                      <| backend_sent ::= (fun l => l ++ take n data) |>)
  | x :: r => inr (x, w <| sys ::= (fun e => e <| e_write := r |>) |>)
  end.

(** *** Interest and teardown *)

(** [loop_.update]: nothing when the fd is not registered. *)
Definition set_interest (ev : mask) : R unit :=
  let? cur := hget interest_ in
  if decide (ev = cur) then rret tt
  else hset (fun c => c <| interest_ := ev |>) ;?
       rmodify (fun w => if http_alive w then w <| http_mask := ev |> else w).

Definition recompute_interest : R unit :=
  let? c := hget (fun c => c) in
  let read_side := negb (read_paused_ c) && negb (client_eof_ c) in
  let read_out := bool_decide (read_block_ c = WouldBlockWrite) in
  let write_side := negb (bool_decide (out_ c = [])) in
  let write_in := bool_decide (write_block_ c = WouldBlockRead) in
  let want_in := (read_side && negb read_out) || (write_side && write_in) in
  let want_out := (read_side && read_out) || (write_side && negb write_in) in
  let quiet := negb want_in && negb want_out && negb (read_paused_ c) && negb (client_eof_ c) in
  set_interest (want_in || quiet, want_out).

Definition apply_interest : R unit :=
  let? b := rgets back in
  let ev := if connected b then (negb (bread_paused b), negb (bool_decide (bout b = [])))
            else EPOLLOUT in
  if decide (ev = binterest b) then rret tt
  else bset (fun b => b <| binterest := ev |>) ;?
       rmodify (fun w => if back_alive w then w <| back_mask := ev |> else w).

Definition close_both : R unit :=
  let? closed := hget closed_ in
  if closed then rret tt
  else
    hset (fun c => c <| closed_ := true |>) ;?
    let? p := hget backend_ in
    rwhen p (deref_backend ;?
             bset (fun b => b <| client := false |>) ;?
             rmodify (fun w => w <| back_closing := true |>) ;?
             hset (fun c => c <| backend_ := false |>)) ;?
    rmodify (fun w => w <| http_closing := true |>).

(** *** The response side *)

(** [while (!out_.empty())] of [pump_write]: [Some st] when it returns [st]. Each turn
    uses up one result of [send]. *)
Fixpoint send_loop (fuel : nat) : R (option IoStatus) :=
  match fuel with
  | O => rfault OutOfFuel
  | S fuel =>
      let? out := hget out_ in
      if decide (out = []) then rret None
      else
        let? r := transport_send out in
        let '(st, sent) := r in
        match st with
        | IoOk =>
            hset (fun c => c <| out_ ::= drop sent |>) ;?
            rmodify (fun w => w <| bytes_out ::= (fun n => wrap_u 64 (n + Z.of_nat sent)) |>) ;?
            touch ;?
            send_loop fuel
        | IoClosed | IoError => close_both ;? rret (Some st)
        | _ => rret (Some st)
        end
  end.

(** The tail of [pump_write], given [backend_->resume_reads()]. *)
Definition pump_write_with (resume : R unit) : R IoStatus :=
  let? n := rgets (fun w => length (e_send (sys w))) in
  let? r := send_loop (S n) in
  match r with
  | Some st => rret st
  | None =>
      let? paused := hget backend_paused_ in
      let? p := hget backend_ in
      rwhen (paused && p)
        (hset (fun c => c <| backend_paused_ := false |>) ;? deref_backend ;? resume) ;?
      let? st := hget state_ in
      rwhen (bool_decide (st = Closing)) close_both ;?
      rret IoOk
  end.

(** What follows each assignment [write_block_ = pump_write()] outside [drive]. *)
Definition write_and_watch (pump_write : R IoStatus) (k : R unit) : R unit :=
  let? st := pump_write in
  hset (fun c => c <| write_block_ := st |>) ;?
  let? closed := hget closed_ in
  if closed then rret tt else k ;? recompute_interest.

Definition send_response_with (pump_write : R IoStatus) (r : response) : R unit :=
  hset (fun c => c <| out_ := response_bytes r |> <| responded_ := true |> <| state_ := Closing |>) ;?
  write_and_watch pump_write (rret tt).
Definition send_error_with (pump_write : R IoStatus) (e : http_error) : R unit :=
  send_response_with pump_write (of_error e).

Definition on_backend_error_with (pump_write : R IoStatus) (why : bytes) : R unit :=
  hset (fun c => c <| backend_ := false |>) ;?
  let? responded := hget responded_ in
  if responded then close_both
  else send_error_with pump_write (mk_error 502 (lit "Bad Gateway") why).

Definition on_backend_closed_with (pump_write : R IoStatus) : R unit :=
  hset (fun c => c <| backend_ := false |> <| state_ := Closing |>) ;?
  write_and_watch pump_write (rret tt).

Definition pause_reads : R unit :=
  let? paused := rgets (fun w => bread_paused (back w)) in
  if paused then rret tt else bset (fun b => b <| bread_paused := true |>) ;? apply_interest.

Definition deliver_to_client_with (pump_write : R IoStatus) (data : bytes) : R unit :=
  let? closed := hget closed_ in
  if closed then rret tt
  else
    hset (fun c => c <| responded_ := true |> <| out_ ::= (fun o => o ++ data) |>) ;?
    write_and_watch pump_write
      (let? c := hget (fun c => c) in
       rwhen (backend_ c && negb (backend_paused_ c) && (kBackpressureHigh <? size (out_ c)))
         (deref_backend ;? pause_reads ;? hset (fun c => c <| backend_paused_ := true |>))).

Definition request_close_back : R unit := rmodify (fun w => w <| back_closing := true |>).
(** [client_ = nullptr] and the call on the client it held. *)
Definition take_client (k : R unit) : R unit :=
  let? c := rgets (fun w => client (back w)) in
  rwhen c (deref_client ;? bset (fun b => b <| client := false |>) ;? k).
Definition fail_with (pump_write : R IoStatus) (why : bytes) : R unit :=
  take_client (on_backend_error_with pump_write why) ;? request_close_back.

Definition resume_reads_with (on_readable : R unit) : R unit :=
  let? paused := rgets (fun w => bread_paused (back w)) in
  rwhen paused (bset (fun b => b <| bread_paused := false |>) ;? apply_interest ;? on_readable).

(** [BackendConnection::on_readable]; each turn uses up one result of [read]. *)
Fixpoint on_readable_loop (fuel : nat) : R unit :=
  match fuel with
  | O => rfault OutOfFuel
  | S fuel =>
      let pump_write := pump_write_with (resume_reads_with (on_readable_loop fuel)) in
      let? paused := rgets (fun w => bread_paused (back w)) in
      if paused then rret tt
      else
        let? r := backend_read in
        match r with
        | ReadBytes [] => take_client (on_backend_closed_with pump_write) ;? request_close_back
        | ReadBytes data =>
            btouch ;?
            let? c := rgets (fun w => client (back w)) in
            rwhen c (deref_client ;? deliver_to_client_with pump_write data) ;?
            on_readable_loop fuel
        | ReadAgain => rret tt
        | ReadIntr => on_readable_loop fuel
        | ReadFail => fail_with pump_write (lit "backend read failed")
        end
  end.

Definition back_on_readable : R unit :=
  let? n := rgets (fun w => length (e_read (sys w))) in on_readable_loop (S n).
Definition resume_reads : R unit := resume_reads_with back_on_readable.
Definition pump_write : R IoStatus := pump_write_with resume_reads.
Definition send_response (r : response) : R unit := send_response_with pump_write r.
Definition send_error (e : http_error) : R unit := send_error_with pump_write e.
Definition deliver_to_client (data : bytes) : R unit := deliver_to_client_with pump_write data.
Definition on_backend_closed : R unit := on_backend_closed_with pump_write.
Definition on_backend_error (why : bytes) : R unit := on_backend_error_with pump_write why.
Definition fail (why : bytes) : R unit := fail_with pump_write why.

(** *** The request side *)

(** [while (off < out_.size())] of [flush]: [true] when it got to the end of the loop,
    with the number of bytes written, [false] when it failed and returned. *)
Fixpoint write_loop (fuel : nat) (off : nat) : R (bool * nat) :=
  match fuel with
  | O => rfault OutOfFuel
  | S fuel =>
      let? out := rgets (fun w => bout (back w)) in
      if (off <? length out)%nat then
        let? r := backend_write (drop off out) in
        match r with
        | Wrote n => btouch ;? write_loop fuel (off + n)
        | WriteAgain => rret (true, off)
        | WriteIntr => write_loop fuel off
        | WriteFail => fail (lit "backend write failed") ;? rret (false, off)
        end
      else rret (true, off)
  end.

(** [flush], given the client's [on_backend_drained]. *)
Definition flush_with (on_backend_drained : R unit) : R unit :=
  let? n := rgets (fun w => length (e_write (sys w))) in
  let? r := write_loop (S n) 0 in
  let '(ok, off) := r in
  if ok then
    bset (fun b => b <| bout ::= drop off |>) ;?
    let? b := rgets back in
    rwhen (high_water_hit b && (size (bout b) <? kBackpressureLow))
      (bset (fun b => b <| high_water_hit := false |>) ;?
       rwhen (client b) (deref_client ;? on_backend_drained)) ;?
    apply_interest
  else rret tt.

Definition back_send (flush : R unit) (data : bytes) : R unit :=
  bset (fun b => b <| bout ::= (fun o => o ++ data) |>) ;?
  let? b := rgets back in
  rwhen (kBackpressureHigh <? size (bout b)) (bset (fun b => b <| high_water_hit := true |>)) ;?
  rwhen (connected b) flush.

Definition forward_body (flush : R unit) (data : bytes) : R unit :=
  let? c := hget (fun c => c) in
  if backend_ c then
    let n := Z.to_nat (Z.min (Z.of_nat (length data)) (body_remaining_ c)) in
    rwhen (0 <? n)%nat
      (deref_backend ;? back_send flush (take n data) ;?
       hset (fun c => c <| body_remaining_ ::= (fun r => wrap_u 64 (r - Z.of_nat n)) |>)) ;?
    let? rest := hget body_remaining_ in
    if rest =? 0 then hset (fun c => c <| state_ := Streaming |>)
    else
      deref_backend ;?
      let? b := rgets back in
      rwhen (kBackpressureHigh <? size (bout b)) (hset (fun c => c <| read_paused_ := true |>))
  else rret tt.

Definition gateway_error (why : string) : http_error := err 502 "Bad Gateway" why.

(** [start_backend]. When epoll refuses the new fd, [add] drops the object, whose
    destructor clears [backend_]. *)
Definition start_backend (flush : R unit) : R unit :=
  let? d := rgets (fun w => e_dial (sys w)) in
  let? target := hget backend_target_ in
  match d with
  | NoSocket => send_error (gateway_error "cannot create upstream socket")
  | BadAddress => send_error (gateway_error "bad backend address")
  | ConnectFails => send_error (gateway_error "cannot connect to backend")
  | AddFails | Connecting =>
      let? t := now in
      rmodify (fun w => w <| back := mk_back true [] t EPOLLOUT false false false |>
                          <| back_alive := true |> <| back_closing := false |>) ;?
      hset (fun c => c <| backend_ := true |>) ;?
      let? up := hget upstream_ in
      deref_backend ;? back_send flush up ;?
      match d with
      | Connecting => rmodify (fun w => w <| back_mask := EPOLLOUT |>)
      | _ => rmodify (fun w => w <| back_alive := false |> <| back := no_back |>) ;?
             hset (fun c => c <| backend_ := false |>)
      end
  end.

Definition answer_internal (method target : bytes) : R unit :=
  let? t := now in
  send_response (handle_internal probe router t start start_wall snapshot method target).

Definition process_head (flush : R unit) : R unit :=
  let? buf := hget in_ in
  let r := phr_parse_request buf in
  match r with
  | Parsed pret _ _ _ => hset (fun c => c <| head_len_ := pret |>)
  | _ => rret tt
  end ;?
  match decide_head router max_body_ (length buf) r with
  | WaitForMore => rret tt
  | Refuse e => send_error e
  | AnswerInternal method target => answer_internal method target
  | Proxy _ p =>
      hset (fun c => c <| upstream_ := p_upstream p |> <| backend_target_ := p_backend p |>
                       <| body_remaining_ := p_body p |>) ;?
      start_backend flush ;?
      let? c := hget (fun c => c) in
      if bool_decide (state_ c = Closing) || closed_ c then rret tt
      else
        (if body_remaining_ c =? 0 then hset (fun c => c <| state_ := Streaming |>)
         else
           hset (fun c => c <| state_ := StreamingUp |>) ;?
           rwhen (0 <? wrap_u 64 (size (in_ c) - Z.of_nat (head_len_ c))) (forward_body flush (drop (head_len_ c) (in_ c)))) ;?
        hset (fun c => c <| in_ := [] |>)
  end.

Definition handle_client_bytes (flush : R unit) (data : bytes) : R unit :=
  let? st := hget state_ in
  match st with
  | ReadingHead => hset (fun c => c <| in_ ::= (fun i => i ++ data) |>) ;? process_head flush
  | StreamingUp => forward_body flush data
  | Streaming | Closing => rret tt
  end.

(** [drive], given [pump_read]. *)
Definition drive_with (pump_read : R IoStatus) : R unit :=
  let pump :=
    let? st := pump_read in
    hset (fun c => c <| read_block_ := st |>) ;?
    let? closed := hget closed_ in
    if closed then rret tt else write_and_watch pump_write (rret tt) in
  let? c := hget (fun c => c) in
  if closed_ c then rret tt
  else if handshake_done_ c then pump
  else
    let? st := transport_handshake in
    match st with
    | IoOk => hset (fun c => c <| handshake_done_ := true |>) ;? touch ;? pump
    | WouldBlockRead => set_interest EPOLLIN
    | WouldBlockWrite => set_interest EPOLLOUT
    | IoClosed | IoError => close_both
    end.

Definition on_backend_drained_with (drive : R unit) : R unit :=
  let? c := hget (fun c => c) in
  if closed_ c || negb (read_paused_ c) then rret tt
  else hset (fun c => c <| read_paused_ := false |>) ;? drive.

(** [pump_read]; each turn uses up one result of [recv]. *)
Fixpoint pump_read_loop (fuel : nat) : R IoStatus :=
  match fuel with
  | O => rfault OutOfFuel
  | S fuel =>
      let flush := flush_with (on_backend_drained_with (drive_with (pump_read_loop fuel))) in
      let? c := hget (fun c => c) in
      if read_paused_ c || client_eof_ c then rret WouldBlockRead
      else
        let? r := transport_recv in
        let '(st, data) := r in
        match st with
        | IoOk =>
            touch ;?
            rmodify (fun w => w <| bytes_in ::= (fun n => wrap_u 64 (n + Z.of_nat (length data))) |>) ;?
            handle_client_bytes flush data ;?
            let? closed := hget closed_ in
            if closed then rret IoClosed else pump_read_loop fuel
        | IoClosed =>
            let? st := hget state_ in
            if bool_decide (st = Streaming) || bool_decide (st = Closing) then
              hset (fun c => c <| client_eof_ := true |>) ;? rret WouldBlockRead
            else close_both ;? rret IoClosed
        | IoError => close_both ;? rret IoError
        | _ => rret st
        end
  end.

Definition pump_read : R IoStatus :=
  let? n := rgets (fun w => length (e_recv (sys w))) in pump_read_loop (S n).
Definition drive : R unit := drive_with pump_read.
Definition on_backend_drained : R unit := on_backend_drained_with drive.
Definition flush : R unit := flush_with on_backend_drained.

Definition back_on_writable : R unit :=
  let? b := rgets back in
  if connected b then flush
  else
    let? failed := rgets (fun w => e_soerror (sys w)) in
    if failed then fail (lit "connect failed")
    else bset (fun b => b <| connected := true |>) ;? btouch ;? flush.

Definition http_check_timeout (t : Z) : R unit :=
  if timeout_ <=? 0 then rret tt
  else let? last := hget last_activity_ in
       rwhen (timeout_ * second <? t - last) close_both.
Definition back_check_timeout (t : Z) : R unit :=
  if timeout_ <=? 0 then rret tt
  else let? last := rgets (fun w => blast_activity (back w)) in
       rwhen (timeout_ * second <? t - last) (fail (lit "upstream timeout")).

(** *** The event loop's view of the pair *)

(** Readiness of one fd: EPOLLERR|EPOLLHUP, EPOLLIN, EPOLLOUT. *)
Record ready := mk_ready { r_err : bool; r_in : bool; r_out : bool }.

(** [EventLoop::run]'s dispatch, for each of the two fds. *)
Definition dispatch_http (ev : ready) : R unit :=
  if r_err ev then close_both
  else
    rwhen (r_in ev) drive ;?
    let? closing := rgets http_closing in
    rwhen (r_out ev && negb closing) drive.
Definition dispatch_back (ev : ready) : R unit :=
  if r_err ev then fail (lit "backend socket error")
  else
    rwhen (r_in ev) back_on_readable ;?
    let? closing := rgets back_closing in
    rwhen (r_out ev && negb closing) back_on_writable.

(** [~HttpConnection] and [~BackendConnection], on [handlers_.erase]. *)
Definition destroy_http : R unit :=
  let? p := hget backend_ in
  rwhen p (deref_backend ;? bset (fun b => b <| client := false |>)) ;?
  rmodify (fun w => w <| http_alive := false |> <| http_closing := false |>).
Definition destroy_back : R unit :=
  let? p := rgets (fun w => client (back w)) in
  rwhen p (deref_client ;? hset (fun c => c <| backend_ := false |>)) ;?
  rmodify (fun w => w <| back := no_back |> <| back_alive := false |> <| back_closing := false |>).

(** [process_pending_close]: the set is visited in either order. *)
Definition end_batch (http_first : bool) : R unit :=
  let close_http := let? c := rgets http_closing in rwhen c destroy_http in
  let close_back := let? c := rgets back_closing in rwhen c destroy_back in
  if http_first then close_http ;? close_back else close_back ;? close_http.

Inductive hevent :=
  | HttpReady (ev : ready) (e : env)
  | BackReady (ev : ready) (e : env)
  | HttpSweep (t : Z) (e : env)
  | BackSweep (t : Z) (e : env)
  | CloseHttp | CloseBack                  (* one descriptor of [process_pending_close] *)
  | EndBatch (http_first : bool).

Definition hhandle (ev : hevent) : R unit :=
  let with_env e m := rmodify (fun w => w <| sys := e |>) ;? m in
  let? w := rgets (fun w => w) in
  match ev with
  | HttpReady r e => rwhen (http_alive w) (with_env e (dispatch_http r))
  | BackReady r e => rwhen (back_alive w) (with_env e (dispatch_back r))
  | HttpSweep t e => rwhen (http_alive w) (with_env e (http_check_timeout t))
  | BackSweep t e => rwhen (back_alive w) (with_env e (back_check_timeout t))
  | CloseHttp => rwhen (http_closing w) destroy_http
  | CloseBack => rwhen (back_closing w) destroy_back
  | EndBatch http_first => end_batch http_first
  end.

(** A connection as the listener hands it to the loop. *)
Definition new_http (t : Z) : Http :=
  mk_http false t ReadingHead [] [] [] (mk_backend [] 0) 0 0 false false false false false false
    EPOLLIN WouldBlockRead IoOk.
Definition accepted (t : Z) : HWorld :=
  mk_hworld (new_http t) no_back true false false false EPOLLIN (false, false)
    (mk_env [] [] [] [] [] NoSocket false) 0 0 0 [] [] [] [].

(** The connection's life: the events the loop delivers, in order. *)
Fixpoint hrun (evs : list hevent) : R unit :=
  match evs with
  | [] => rret tt
  | ev :: evs => hhandle ev ;? hrun evs
  end.
End Proxy.
