(* ===== verification/HttpSafe.v ===== *)
(** * HttpSafe: what holds of a proxied connection at every moment

    The invariant [Base] of a client/backend pair, and that the response side of
    [Http.v] keeps it: [pump_write], [on_readable], and everything they call. A
    weakest-precondition calculus, [wp], steps through the code; its parameter says
    which faults are allowed. *)
From S2P Require Import Prelude Text Router Supervisor HttpHead HttpStatus Http.
Open Scope Z_scope.

(** [m], run in [w], ends in [Q], or in a fault that [F] allows. *)
Definition wp {A} (F : fault -> Prop) (m : R A) (Q : A -> HWorld -> Prop) (w : HWorld) : Prop :=
  match m w with inl f => F f | inr (a, w') => Q a w' end.

Section Rules.
Context (F : fault -> Prop).

Lemma wp_bind {A B} (m : R A) (k : A -> R B) Q w :
  wp F m (fun a w' => wp F (k a) Q w') w -> wp F (rbind m k) Q w.
Proof. unfold wp, rbind. by destruct (m w) as [|[]]. Qed.

Lemma wp_ret {A} (x : A) Q w : Q x w -> wp F (rret x) Q w.
Proof. done. Qed.
Lemma wp_gets {A} (f : HWorld -> A) Q w : Q (f w) w -> wp F (rgets f) Q w.
Proof. done. Qed.
Lemma wp_modify f Q w : Q tt (f w) -> wp F (rmodify f) Q w.
Proof. done. Qed.

Lemma wp_mono {A} (m : R A) (Q Q' : A -> HWorld -> Prop) w :
  wp F m Q w -> (forall a w', Q a w' -> Q' a w') -> wp F m Q' w.
Proof. unfold wp. intros H HQ. destruct (m w) as [|[]]; auto. Qed.

Lemma wp_when (b : bool) (m : R unit) Q w :
  (b = true -> wp F m Q w) -> (b = false -> Q tt w) -> wp F (rwhen b m) Q w.
Proof. destruct b; cbn; auto. Qed.

Lemma wp_deref_backend Q w :
  backend_ (http w) = true -> back_alive w = true -> Q tt w -> wp F deref_backend Q w.
Proof. intros H1 H2 HQ. unfold wp, deref_backend, rbind, hget, rgets. rewrite H1. cbn. by rewrite H2. Qed.
Lemma wp_deref_client Q w :
  client (back w) = true -> http_alive w = true -> Q tt w -> wp F deref_client Q w.
Proof. intros H1 H2 HQ. unfold wp, deref_client, rbind, rgets. rewrite H1. cbn. by rewrite H2. Qed.

Lemma wp_transport_send data Q w :
  (e_send (sys w) = [] -> Q (WouldBlockWrite, O) w) ->
  (forall st k r, e_send (sys w) = (st, k) :: r ->
     let n := if decide (st = IoOk) then Nat.min k (length data) else O in
     Q (st, n) (w <| sys ::= (fun e => e <| e_send := r |>) |>
                  <| client_sent ::= (fun l => l ++ take n data) |>)) ->
  wp F (transport_send data) Q w.
Proof. intros H0 H1. unfold wp, transport_send. destruct (e_send (sys w)) as [|[st k] r]; auto. Qed.

Lemma wp_backend_read Q w :
  (e_read (sys w) = [] -> Q ReadAgain w) ->
  (forall x r, e_read (sys w) = x :: r ->
     let d := match x with ReadBytes d => take (Z.to_nat kBuf) d | _ => [] end in
     Q (match x with ReadBytes _ => ReadBytes d | _ => x end)
       (w <| sys ::= (fun e => e <| e_read := r |>) |> <| backend_recv ::= (fun l => l ++ d) |>)) ->
  wp F backend_read Q w.
Proof.
  intros H0 H1. unfold wp, backend_read. destruct (e_read (sys w)) as [|x r]; [auto|].
  specialize (H1 x r eq_refl). destruct x; cbn in H1; try rewrite app_nil_r in H1; exact H1.
Qed.

Lemma wp_backend_write data Q w :
  (e_write (sys w) = [] -> Q WriteAgain w) ->
  (forall x r, e_write (sys w) = x :: r ->
     let n := match x with Wrote k => Nat.min (S k) (length data) | _ => O end in
     Q (match x with Wrote _ => Wrote n | _ => x end)
       (w <| sys ::= (fun e => e <| e_write := r |>) |>
          <| backend_sent ::= (fun l => l ++ take n data) |>)) ->
  wp F (backend_write data) Q w.
Proof.
  intros H0 H1. unfold wp, backend_write. destruct (e_write (sys w)) as [|x r]; [auto|].
  specialize (H1 x r eq_refl). destruct x; cbn in H1; try rewrite app_nil_r in H1; exact H1.
Qed.

Lemma wp_transport_recv Q w :
  (e_recv (sys w) = [] -> Q (WouldBlockRead, []) w) ->
  (forall st d r, e_recv (sys w) = (st, d) :: r ->
     let data := if decide (st = IoOk) then take (Z.to_nat kBuf) d else [] in
     Q (st, data) (w <| sys ::= (fun e => e <| e_recv := r |>) |>
                     <| client_recv ::= (fun l => l ++ data) |>)) ->
  wp F transport_recv Q w.
Proof. intros H0 H1. unfold wp, transport_recv. destruct (e_recv (sys w)) as [|[st d] r]; auto. Qed.
End Rules.

(** Step through reads and updates of the world. *)
Ltac wstep :=
  lazymatch goal with
  | |- wp _ (rbind _ _) _ _ => apply wp_bind
  | |- wp _ (rret _) _ _ => apply wp_ret
  | |- wp _ (rgets _) _ _ => apply wp_gets
  | |- wp _ (hget _) _ _ => apply wp_gets
  | |- wp _ (rmodify _) _ _ => apply wp_modify
  | |- wp _ (hset _) _ _ => apply wp_modify
  | |- wp _ (bset _) _ _ => apply wp_modify
  | |- wp _ (rwhen _ _) _ _ => apply wp_when; [intros ?|intros ?]
  | |- wp _ (if ?b then _ else _) _ _ => destruct b eqn:?
  end; cbv beta.
Ltac wsteps := repeat wstep.

Lemma if_true {A} (b : bool) (x y : A) : b = true -> (if b then x else y) = x.
Proof. by intros ->. Qed.

(** The part of the world the response side leaves alone, and what it can only lower:
    the state as it was, whether the backend was there, the bytes queued for it; and
    whether the pair is just being severed by the backend's side. *)
Record key := mk_key {
  k_state : State; k_live : bool; k_upload : Z; k_sever : bool;
  k_remaining : Z; k_paused : bool; k_head_len : nat; k_in : bytes; k_up : bytes;
  k_recv : bytes; k_recvs : list (IoStatus * bytes); k_http : bool; k_back : bool
}.
#[export] Instance eta_key : Eta key := fun k =>
  mk_key (k_state k) (k_live k) (k_upload k) (k_sever k) (k_remaining k) (k_paused k) (k_head_len k)
    (k_in k) (k_up k) (k_recv k) (k_recvs k) (k_http k) (k_back k).
Definition key_of (kx : key) (w : HWorld) : key :=
  mk_key (k_state kx) (k_live kx) (k_upload kx) (k_sever kx) (body_remaining_ (http w)) (read_paused_ (http w)) (head_len_ (http w)) (in_ (http w))
    (upstream_ (http w)) (client_recv w) (e_recv (sys w)) (http_alive w) (back_alive w).

(** Responses castle makes up, as opposed to those it relays. *)
Section Invariant.
Context (own_response : response -> Prop).

(** The bytes of the response so far: a response of castle's own, or what the backend sent. *)
Definition origin (w : HWorld) : Prop :=
  (exists r, own_response r /\ client_sent w ++ out_ (http w) = response_bytes r) \/
  (client_sent w ++ out_ (http w) `prefix_of` backend_recv w /\
   size (out_ (http w)) <= kBackpressureHigh + kBuf).

(** [wf] allows failures of [write]; [n] bounds the reads to come; [low] bounds the bytes
    waiting for the client while the backend is read; [req] is the request so far; [kx]
    is the rest of the world. *)
Record Base (wf : bool) (n : nat) (low : Z) (req : bytes) (kx : key) (w : HWorld) : Prop := {
  b_key : key_of kx w = kx;
  b_ptr : http_alive w && backend_ (http w) = back_alive w && client (back w);
  b_closed : closed_ (http w) = true -> http_alive w = true ->
             backend_ (http w) = false /\ http_closing w = true;
  b_hmask : http_alive w = true -> http_mask w = interest_ (http w);
  b_bmask : back_alive w = true -> back_mask w = binterest (back w);
  b_silent : responded_ (http w) = false -> client_sent w = [] /\ out_ (http w) = [];
  b_relay : back_alive w = true -> client (back w) = true ->
            client_sent w ++ out_ (http w) = backend_recv w;
  b_origin : origin w;
  b_pause : back_alive w = true -> client (back w) = true ->
            bread_paused (back w) = backend_paused_ (http w);
  b_low : back_alive w = true -> client (back w) = true -> backend_paused_ (http w) = false ->
          size (out_ (http w)) <= low;
  b_request : back_alive w = true -> client (back w) = true -> backend_sent w ++ bout (back w) = req;
  b_prefix : backend_sent w `prefix_of` req;
  b_reading : state_ (http w) = ReadingHead ->
              back_alive w = false /\ responded_ (http w) = false /\ backend_recv w = [] /\
              backend_paused_ (http w) = false;
  b_orphan : back_alive w = true -> client (back w) = false -> back_closing w = true \/ k_sever kx = true;
  b_state : state_ (http w) = k_state kx \/ state_ (http w) = Closing;
  b_live : back_alive w = true -> client (back w) = true ->
           k_live kx = true /\ state_ (http w) = k_state kx /\ size (bout (back w)) <= k_upload kx;
  b_reads : (length (e_read (sys w)) < n)%nat;
  b_writes : wf = false -> WriteFail ∉ e_write (sys w);
  b_closing : http_closing w = true -> closed_ (http w) = true /\ http_alive w = true;
  b_gone : back_alive w = false -> client (back w) = false;
  b_queue : size (bout (back w)) <= k_upload kx;
  b_empty : back_alive w = false -> bout (back w) = []
}.

Section Response.
Context (F : fault -> Prop) (mono : nat -> Z) (wf : bool) (req : bytes) (kx : key).

Lemma base_weaken n n' low low' w :
  Base wf n low req kx w -> (n <= n')%nat -> low <= low' -> Base wf n' low' req kx w.
Proof. intros [] Hn Hl. split; try done; [|lia]. intros. etrans; [|exact Hl]. by auto. Qed.

Lemma base_http n low w : Base wf n low req kx w -> http_alive w = k_http kx.
Proof. intros [Hkey _ _ _]. by rewrite <- Hkey. Qed.
Lemma base_back n low w : Base wf n low req kx w -> back_alive w = k_back kx.
Proof. intros [Hkey _ _ _]. by rewrite <- Hkey. Qed.

Ltac same H := destruct H; constructor; assumption.

Lemma wp_now n low w :
  Base wf n low req kx w -> wp F (now mono) (fun _ => Base wf n low req kx) w.
Proof. intros H. unfold now. wsteps. cbn. same H. Qed.

Lemma wp_touch n low w :
  Base wf n low req kx w -> wp F (touch mono) (fun _ => Base wf n low req kx) w.
Proof. intros H. unfold touch, now. wsteps. same H. Qed.

Lemma wp_btouch n low w :
  Base wf n low req kx w -> wp F (btouch mono) (fun _ => Base wf n low req kx) w.
Proof. intros H. unfold btouch, now. wsteps. same H. Qed.

Lemma wp_set_interest n low ev w :
  k_http kx = true -> Base wf n low req kx w ->
  wp F (set_interest ev) (fun _ => Base wf n low req kx) w.
Proof.
  intros Hh H. assert (http_alive w = true) as Ha by (rewrite (base_http _ _ _ H); done).
  unfold set_interest. wsteps; [done|]. cbn. rewrite (if_true _ _ _ Ha).
  destruct H; constructor; cbn; try assumption. done.
Qed.

Lemma wp_recompute_interest n low w :
  k_http kx = true -> Base wf n low req kx w ->
  wp F recompute_interest (fun _ => Base wf n low req kx) w.
Proof. intros Hh H. unfold recompute_interest. wsteps. by apply wp_set_interest. Qed.

Lemma wp_apply_interest n low w :
  k_back kx = true -> Base wf n low req kx w ->
  wp F apply_interest (fun _ => Base wf n low req kx) w.
Proof.
  intros Hh H. assert (back_alive w = true) as Ha by (rewrite (base_back _ _ _ H); done).
  unfold apply_interest. wstep. wstep. wstep; [by wstep|]. wsteps. cbn. rewrite (if_true _ _ _ Ha).
  destruct H; constructor; cbn; try assumption. done.
Qed.

(** The two pointers are set and cleared together. *)
Lemma base_backend n low w :
  k_http kx = true -> Base wf n low req kx w -> backend_ (http w) = true ->
  back_alive w = true /\ client (back w) = true.
Proof.
  intros Hh H Hb. assert (http_alive w = true) as Ha by (rewrite (base_http _ _ _ H); done).
  destruct H as [_ Hp _ _]. rewrite Ha, Hb in Hp. symmetry in Hp. by apply andb_true_iff in Hp.
Qed.
Lemma base_client n low w :
  k_back kx = true -> Base wf n low req kx w -> client (back w) = true ->
  http_alive w = true /\ backend_ (http w) = true.
Proof.
  intros Hh H Hb. assert (back_alive w = true) as Ha by (rewrite (base_back _ _ _ H); done).
  destruct H as [_ Hp _ _]. rewrite Ha, Hb in Hp. by apply andb_true_iff in Hp.
Qed.

Definition severed w : HWorld :=
  w <| back ::= (fun b => b <| client := false |>) |> <| http ::= (fun c => c <| backend_ := false |>) |>.

Lemma wp_close_both n low w :
  k_http kx = true -> Base wf n low req kx w ->
  wp F close_both (fun _ w' => Base wf n low req kx w' /\ closed_ (http w') = true) w.
Proof.
  intros Hh H. assert (http_alive w = true) as Hal by (rewrite (base_http _ _ _ H); done).
  unfold close_both. wsteps; [by split|..].
  - destruct (base_backend _ _ _ Hh H) as [Hb Hc]; [done|].
    apply wp_deref_backend; [done|done|]. wsteps. cbn. split; [|done].
    destruct H; constructor; cbn in *; try assumption; try (intros; congruence); try (by intros; left);
      try (by intros; split).
  - split; [|done]. destruct H; constructor; cbn in *; try assumption; done.
Qed.

(** One successful [send]: bytes move from [out_] to the client. *)
Lemma base_sent n low k r w :
  Base wf n low req kx w -> out_ (http w) <> [] ->
  Base wf n low req kx
    (w <| sys ::= (fun e => e <| e_send := r |>) |>
       <| client_sent ::= (fun l => l ++ take k (out_ (http w))) |>
       <| http ::= (fun c => c <| out_ ::= drop k |>) |>).
Proof.
  intros [] Hne. assert (client_sent w ++ out_ (http w) =
    (client_sent w ++ take k (out_ (http w))) ++ drop k (out_ (http w))) as Ho.
  { by rewrite <- (assoc_L app), take_drop. }
  assert (size (drop k (out_ (http w))) <= size (out_ (http w))) as Hl
    by (unfold size; rewrite length_drop; lia).
  constructor; cbn; try assumption.
  - intros Hr. by destruct (b_silent0 Hr).
  - intros. rewrite <- Ho. auto.
  - unfold origin in *. cbn. rewrite <- Ho. destruct b_origin0 as [?|[? ?]]; [by left|right].
    split; [done|lia].
  - intros. etrans; [exact Hl|auto].
Qed.

Lemma wp_send_loop n low fuel w :
  k_http kx = true -> Base wf n low req kx w -> (length (e_send (sys w)) < fuel)%nat ->
  wp F (send_loop mono fuel)
    (fun r w' => Base wf n low req kx w' /\ (r = None -> out_ (http w') = [])) w.
Proof.
  intros Hh. revert w. induction fuel as [|fuel IH]; intros w H Hf; [lia|].
  cbn [send_loop]. wstep. wstep. wstep; [by wstep|]. wstep.
  apply wp_transport_send; [intros _; wstep; by split|]. intros st k r He m.
  pose proof (base_sent n low m r w H ltac:(done)) as Hs.
  assert (st <> IoOk -> m = O) as Hm by (intros; unfold m; by rewrite decide_False).
  clearbody m. cbn in Hf. rewrite He in Hf. cbn in Hf.
  set (w1 := w <| sys ::= _ |> <| client_sent ::= _ |>) in *.
  assert (st <> IoOk -> Base wf n low req kx w1) as Hs1.
  { intros Hst. rewrite (Hm Hst) in Hs. same Hs. }
  assert (st <> IoOk -> wp F (close_both ;? rret (Some st))
            (fun r w' => Base wf n low req kx w' /\ (r = None -> out_ (http w') = [])) w1) as Hclose.
  { intros Hst. wstep. eapply wp_mono; [apply wp_close_both; [done|by apply Hs1]|].
    intros _ w' [Hw' _]. wstep. by split. }
  destruct st; try (by apply Hclose); try (wstep; split; [by apply Hs1|done]).
  unfold touch, now. wsteps. apply IH; [same Hs|]. cbn. lia.
Qed.

(** [pump_write], if resuming the backend's reads keeps the invariant. *)
Lemma wp_pump_write_with n low resume w :
  k_http kx = true -> kBackpressureHigh <= low -> Base wf n low req kx w ->
  (forall w, k_back kx = true -> client (back w) = true -> bread_paused (back w) = true ->
     Base wf n kBackpressureHigh req kx (w <| back ::= (fun b => b <| bread_paused := false |>) |>) ->
     wp F resume (fun _ => Base wf n kBackpressureHigh req kx) w) ->
  wp F (pump_write_with mono resume) (fun _ => Base wf n low req kx) w.
Proof.
  intros Hh Hlow H Hres. unfold pump_write_with. wstep. wstep. wstep.
  eapply wp_mono; [apply wp_send_loop; [done|exact H|lia]|].
  intros [st|] w1 [H1 Hnone]; [by wstep|]. specialize (Hnone eq_refl). wstep. wstep. wstep. wstep.
  assert (forall w2, Base wf n low req kx w2 ->
            wp F (let? st := hget state_ in rwhen (bool_decide (st = Closing)) close_both ;? rret IoOk)
              (fun _ => Base wf n low req kx) w2) as Htail.
  { intros w2 H2. wstep. wstep. wstep. wstep; [|by wstep].
    eapply wp_mono; [by apply wp_close_both|]. intros _ w3 [H3 _]. by wstep. }
  wstep. wstep; [|by apply Htail].
  apply andb_true_iff in H0 as [Hp Hb]. destruct (base_backend _ _ _ Hh H1 Hb) as [Ha Hc].
  wstep. wstep. cbn. wstep. apply wp_deref_backend; [done|done|].
  eapply wp_mono; [apply Hres|].
  - by rewrite <- (base_back _ _ _ H1).
  - done.
  - cbn. by rewrite (b_pause _ _ _ _ _ _ H1).
  - destruct H1; constructor; cbn; try assumption; [done| |].
    + intros. rewrite Hnone. done.
    + intros Hs. by destruct (b_reading0 Hs) as (? & ? & ? & _).
  - intros ? w2 H2. apply Htail. eapply base_weaken; [exact H2|done|done].
Qed.

(** What [pump_write] promises its callers, and [resume_reads] promises [pump_write]. *)
Definition pumps (n : nat) (pump_write : R IoStatus) : Prop :=
  forall low w, k_http kx = true -> kBackpressureHigh <= low -> Base wf n low req kx w ->
    wp F pump_write (fun _ => Base wf n low req kx) w.
Definition reads (n : nat) (on_readable : R unit) : Prop :=
  forall w, k_back kx = true -> Base wf n kBackpressureHigh req kx w ->
    wp F on_readable (fun _ => Base wf n kBackpressureHigh req kx) w.

Lemma pumps_of_reads n on_readable :
  reads n on_readable -> pumps n (pump_write_with mono (resume_reads_with on_readable)).
Proof.
  intros Hr low w Hh Hlow H. apply wp_pump_write_with; [done..|].
  intros w1 Hk Hc Hp H1. unfold resume_reads_with. wstep. wstep. wstep; [|congruence].
  wstep. wstep. wstep. eapply wp_mono; [by apply wp_apply_interest|]. intros ? w2 H2. by apply Hr.
Qed.

(** Once closed, the connection has let go of its backend. *)
Lemma base_closed n low low' w :
  k_http kx = true -> Base wf n low req kx w -> closed_ (http w) = true -> Base wf n low' req kx w.
Proof.
  intros Hh H Hc. assert (http_alive w = true) as Ha by (rewrite (base_http _ _ _ H); done).
  destruct (b_closed _ _ _ _ _ _ H Hc Ha) as [Hb _].
  pose proof (b_ptr _ _ _ _ _ _ H) as Hp. rewrite Hb, andb_false_r in Hp.
  destruct H; constructor; try assumption. intros H1 H2. by rewrite H1, H2 in Hp.
Qed.

Lemma wp_write_and_watch n low low' pump_write k w :
  k_http kx = true -> kBackpressureHigh <= low -> pumps n pump_write -> Base wf n low req kx w ->
  (forall w, Base wf n low req kx w -> wp F k (fun _ => Base wf n low' req kx) w) ->
  wp F (write_and_watch pump_write k) (fun _ => Base wf n low' req kx) w.
Proof.
  intros Hh Hlow Hpump H Hk. unfold write_and_watch. wstep.
  eapply wp_mono; [by apply Hpump|]. intros st w1 H1. wstep. wstep. wstep. wstep.
  assert (Base wf n low req kx (w1 <| http ::= (fun c => c <| write_block_ := st |>) |>)) as H2 by same H1.
  generalize dependent (w1 <| http ::= (fun c => c <| write_block_ := st |>) |>). intros w2 H2.
  destruct (closed_ (http w2)) eqn:Hc.
  - wstep. by eapply base_closed.
  - wstep. eapply wp_mono; [by apply Hk|]. intros ? w3 H3. by apply wp_recompute_interest.
Qed.

Context (own_error : forall e, own_response (of_error e)).

(** [send_response] before anything else was sent, without a backend. *)
Lemma wp_send_response_with n low pump_write r w :
  k_http kx = true -> kBackpressureHigh <= low -> pumps n pump_write -> own_response r ->
  Base wf n low req kx w -> responded_ (http w) = false -> backend_ (http w) = false ->
  wp F (send_response_with pump_write r) (fun _ => Base wf n low req kx) w.
Proof.
  intros Hh Hlow Hpump Hr H Hresp Hb. unfold send_response_with. wstep. wstep.
  eapply wp_write_and_watch; [done..| |intros w1 H1; by wstep].
  pose proof (b_ptr _ _ _ _ _ _ H) as Hp. rewrite Hb, andb_false_r in Hp. symmetry in Hp.
  destruct (b_silent _ _ _ _ _ _ H Hresp) as [Hs Ho].
  destruct H; constructor; cbn; try assumption; try done; try (intros H1 H2; by rewrite H1, H2 in Hp).
  - left. exists r. cbn. by rewrite Hs.
  - by right.
Qed.

Lemma wp_on_backend_error_with n low pump_write why w :
  k_http kx = true -> kBackpressureHigh <= low -> pumps n pump_write ->
  Base wf n low req kx (w <| http ::= (fun c => c <| backend_ := false |>) |>) ->
  wp F (on_backend_error_with pump_write why) (fun _ => Base wf n low req kx) w.
Proof.
  intros Hh Hlow Hpump H. unfold on_backend_error_with. wstep. wstep. wstep. wstep.
  destruct (responded_ _) eqn:Hr.
  - eapply wp_mono; [by apply wp_close_both|]. by intros ? w1 [H1 _].
  - by apply wp_send_response_with.
Qed.

Lemma wp_on_backend_closed_with n low pump_write w :
  k_http kx = true -> kBackpressureHigh <= low -> pumps n pump_write ->
  Base wf n low req kx (w <| http ::= (fun c => c <| backend_ := false |>) |>) ->
  wp F (on_backend_closed_with pump_write) (fun _ => Base wf n low req kx) w.
Proof.
  intros Hh Hlow Hpump H. unfold on_backend_closed_with. wstep. wstep.
  eapply wp_write_and_watch; [done..| |intros w1 H1; by wstep].
  pose proof (b_ptr _ _ _ _ _ _ H) as Hp. cbn in Hp. rewrite andb_false_r in Hp. symmetry in Hp.
  destruct H; constructor; cbn; try assumption; try done; [by right|].
  intros H1 H2. by rewrite H1, H2 in Hp.
Qed.

(** Severing the pair from the backend's side, before the backend is closed. *)
Definition severing : key := kx <| k_sever := true |>.

Lemma base_sever n low w :
  Base wf n low req kx w -> Base wf n low req severing (severed w).
Proof.
  intros []. constructor; cbn; try assumption; try (intros; congruence).
  - by rewrite <- b_key0.
  - by rewrite !andb_false_r.
  - intros Hc Ha. split; [done|]. by apply b_closed0.
  - by right.
Qed.

Lemma base_rejoin n low w :
  Base wf n low req severing w -> Base wf n low req kx (w <| back_closing := true |>).
Proof.
  intros []. constructor; cbn; try assumption; [|by left].
  unfold key_of, severing in *. destruct kx. cbn in *. congruence.
Qed.

(** Relaying [data], which the log of the backend's socket already holds. *)
Definition relaying (n : nat) (data : bytes) (w : HWorld) : Prop :=
  Base wf n (kBackpressureHigh + kBuf) req kx
    (w <| http ::= (fun c => c <| responded_ := true |> <| out_ ::= (fun o => o ++ data) |>) |>).

Lemma wp_pause_reads n w :
  k_back kx = true -> k_http kx = true ->
  Base wf n (kBackpressureHigh + kBuf) req kx w ->
  wp F (pause_reads ;? hset (fun c => c <| backend_paused_ := true |>))
    (fun _ => Base wf n kBackpressureHigh req kx) w.
Proof.
  intros Hk Hh H. unfold pause_reads.
  assert (back_alive w = true) as Ha by (rewrite (base_back _ _ _ H); done).
  assert (state_ (http w) <> ReadingHead) as Hnr.
  { intros Hs. destruct (b_reading _ _ _ _ _ _ H Hs). congruence. }
  wstep. wstep. wstep. wstep.
  - wstep. wstep. destruct H; constructor; cbn; try assumption; done.
  - wstep. wstep. unfold apply_interest. wstep. wstep.
    wstep; [wstep|wsteps; cbn; rewrite (if_true _ _ _ Ha)];
      wsteps; destruct H; constructor; cbn; try assumption; done.
Qed.

Lemma wp_deliver_to_client_with n pump_write data w :
  k_back kx = true -> k_http kx = true -> pumps n pump_write -> closed_ (http w) = false ->
  relaying n data w ->
  wp F (deliver_to_client_with pump_write data) (fun _ => Base wf n kBackpressureHigh req kx) w.
Proof.
  intros Hk Hh Hpump Hc H. unfold deliver_to_client_with. wstep. wstep. rewrite Hc. wstep. wstep.
  eapply wp_write_and_watch; [done| |exact Hpump|exact H|]; [unfold kBackpressureHigh, kBuf; lia|].
  clear w Hc H. intros w H. wstep. wstep. wstep.
  - bool_to_prop. destruct (base_backend _ _ _ Hh H) as [Ha Hb]; [done|].
    wstep. apply wp_deref_backend; [done|done|]. by apply wp_pause_reads.
  - destruct H; constructor; try assumption. intros Ha Hcl Hp.
    rewrite Ha, Hcl in b_ptr0. apply andb_true_iff in b_ptr0 as [_ Hb].
    rewrite Hb, Hp in H0. cbn in H0. bool_to_prop. lia.
Qed.

(** Bytes read from the backend while the client is there. *)
Lemma base_relaying n r d w :
  k_back kx = true -> Base wf n kBackpressureHigh req kx w -> client (back w) = true ->
  bread_paused (back w) = false -> (S (length r) < S n)%nat -> size d <= kBuf ->
  e_read (sys w) <> [] ->
  relaying n d (w <| sys ::= (fun e => e <| e_read := r |>) |> <| backend_recv ::= (fun l => l ++ d) |>).
Proof.
  intros Hk H Hc Hp Hn Hd Hne. assert (back_alive w = true) as Ha by (rewrite (base_back _ _ _ H); done).
  destruct H; constructor; cbn; try assumption; try done; try lia.
  - intros. by rewrite (assoc_L app), b_relay0.
  - right. split.
    + cbn. by rewrite (assoc_L app), b_relay0.
    + cbn. unfold size in *. rewrite length_app, Nat2Z.inj_add.
      specialize (b_low0 Ha Hc ltac:(by rewrite <- b_pause0)). lia.
  - intros _ _ Hpa. unfold size in *. rewrite length_app, Nat2Z.inj_add.
    specialize (b_low0 Ha Hc Hpa). lia.
  - intros Hs. destruct (b_reading0 Hs). congruence.
Qed.

(** Bytes read after the client has gone, and reads that bring nothing. *)
Lemma base_discard n r d w :
  k_back kx = true -> Base wf n kBackpressureHigh req kx w -> (length r < n)%nat ->
  client (back w) = false \/ d = [] ->
  Base wf n kBackpressureHigh req kx
    (w <| sys ::= (fun e => e <| e_read := r |>) |> <| backend_recv ::= (fun l => l ++ d) |>).
Proof.
  intros Hk H Hr Hd. assert (back_alive w = true) as Ha by (rewrite (base_back _ _ _ H); done).
  destruct H; constructor; cbn; try assumption.
  - intros. destruct Hd as [Hd| ->]; [congruence|]. rewrite app_nil_r. auto.
  - destruct b_origin0 as [?|[Hp ?]]; [by left|right]. split; [|done]. cbn. by apply prefix_app_r.
  - intros Hs. destruct (b_reading0 Hs). congruence.
Qed.

Lemma size_take d : size (take (Z.to_nat kBuf) d) <= kBuf.
Proof. unfold size. rewrite length_take. unfold kBuf. lia. Qed.

End Response.

(** Handing the pair over to the client's side: the backend has let go of it. *)
Section Handover.
Context (F : fault -> Prop) (mono : nat -> Z) (wf : bool) (req : bytes) (kx : key).
Context (own_error : forall e, own_response (of_error e)).
Notation pumps' kx n := (pumps F wf req kx n).

Lemma wp_take_client n low k w :
  (client (back w) = true -> k_http kx = true /\ http_alive w = true /\
     Base wf n low req (severing kx) (severed w)) ->
  (client (back w) = false -> Base wf n low req kx w) ->
  (forall w, k_http kx = true ->
     Base wf n low req (severing kx) (w <| http ::= (fun c => c <| backend_ := false |>) |>) ->
     wp F k (fun _ => Base wf n low req (severing kx)) w) ->
  wp F (take_client k ;? request_close_back) (fun _ => Base wf n low req kx) w.
Proof.
  intros Ht Hf Hsev. wstep. unfold take_client, request_close_back. wstep. wstep. wstep.
  - destruct Ht as (Hh & Ha & Hw); [done|].
    wstep. apply wp_deref_client; [done|done|]. wstep. wstep.
    eapply wp_mono; [by apply Hsev|]. intros ? w1 H1. wstep. by apply base_rejoin.
  - wstep. specialize (Hf ltac:(done)). destruct Hf; constructor; try assumption. by left.
Qed.

Lemma base_severable n low w :
  k_back kx = true -> Base wf n low req kx w -> client (back w) = true ->
  k_http kx = true /\ http_alive w = true /\ Base wf n low req (severing kx) (severed w).
Proof.
  intros Hk H Hc. destruct (base_client _ _ _ _ _ _ Hk H Hc) as [Ha Hb].
  split; [by rewrite <- (base_http _ _ _ _ _ _ H)|]. split; [done|]. by apply base_sever.
Qed.

Lemma wp_fail_with n low pump_write why w :
  kBackpressureHigh <= low -> pumps' (severing kx) n pump_write ->
  (client (back w) = true -> k_http kx = true /\ http_alive w = true /\
     Base wf n low req (severing kx) (severed w)) ->
  (client (back w) = false -> Base wf n low req kx w) ->
  wp F (fail_with pump_write why) (fun _ => Base wf n low req kx) w.
Proof.
  intros Hlow Hpump Ht Hf. apply wp_take_client; [done..|]. intros w1 Hh H1.
  by apply wp_on_backend_error_with.
Qed.
End Handover.

Section Reading.
Context (F : fault -> Prop) (mono : nat -> Z) (wf : bool) (req : bytes).
Context (own_error : forall e, own_response (of_error e)).
Ltac same H := destruct H; constructor; assumption.

(** After a read: what was received, and whether there is a client for it. *)
Record just_read (n : nat) (kx : key) (d : bytes) (w : HWorld) : Prop := {
  jr_lost : d = [] \/ client (back w) = false -> Base wf (n - 1) kBackpressureHigh req kx w;
  jr_relay : d <> [] -> client (back w) = true -> relaying wf req kx (n - 1) d w;
  jr_client : client (back w) = true -> k_http kx = true /\ closed_ (http w) = false;
  jr_alive : http_alive w = k_http kx;
  jr_fewer : forall w, Base wf (n - 1) kBackpressureHigh req kx w -> Base wf n kBackpressureHigh req kx w
}.

Lemma base_just_read n kx x r w :
  k_back kx = true -> Base wf n kBackpressureHigh req kx w -> bread_paused (back w) = false -> e_read (sys w) = x :: r ->
  let d := match x with ReadBytes d => take (Z.to_nat kBuf) d | _ => [] end in
  just_read n kx d (w <| sys ::= (fun e => e <| e_read := r |>) |> <| backend_recv ::= (fun l => l ++ d) |>).
Proof.
  intros Hk H Hp He d. assert (length r < n - 1)%nat as Hr.
  { pose proof (b_reads _ _ _ _ _ _ H) as Hl. rewrite He in Hl. cbn in Hl. lia. }
  split.
  - intros Hor. assert (Base wf n kBackpressureHigh req kx
            (w <| sys ::= (fun e => e <| e_read := r |>) |> <| backend_recv ::= (fun l => l ++ d) |>)) as H1.
    { apply base_discard; [done|done|lia|tauto]. }
    destruct H1; constructor; assumption.
  - intros Hdne Hc. assert (size d <= kBuf) as Hsz by (subst d; destruct x; try done; apply size_take).
    assert (relaying wf req kx n d (w <| sys ::= (fun e => e <| e_read := r |>) |>
                            <| backend_recv ::= (fun l => l ++ d) |>)) as H1.
    { apply base_relaying; try done; [lia|]. by rewrite He. }
    destruct H1; constructor; try assumption.
  - intros Hc. destruct (base_client _ _ _ _ _ _ Hk H Hc) as [Ha Hb].
    split; [by rewrite <- (base_http _ _ _ _ _ _ H)|].
    apply not_true_is_false. intros Hcl. destruct (b_closed _ _ _ _ _ _ H Hcl Ha). congruence.
  - exact (base_http _ _ _ _ _ _ H).
  - intros w1 H1. apply (base_weaken wf req kx (n - 1) n _ _ w1 H1); lia.
Qed.

Lemma on_readable_reads fuel n kx :
  (n <= fuel)%nat -> reads F wf req kx n (on_readable_loop mono fuel).
Proof.
  revert n kx. induction fuel as [|fuel IH]; intros n kx Hn w Hk H.
  { pose proof (b_reads _ _ _ _ _ _ H). lia. }
  cbn [on_readable_loop]. wstep. wstep. destruct (bread_paused (back w)) eqn:Hp; [by wstep|].
  wstep. apply wp_backend_read; [intros _; by wstep|]. intros x r He d.
  assert (0 < n)%nat as Hn0 by (pose proof (b_reads _ _ _ _ _ _ H) as Hl; rewrite He in Hl; cbn in Hl; lia).
  assert (forall kx, pumps F wf req kx (n - 1) (pump_write_with mono (resume_reads_with (on_readable_loop mono fuel)))) as Hpump
    by (intros; apply pumps_of_reads, IH; lia).
  pose proof (base_just_read n kx x r w Hk H Hp He) as Hj. cbv zeta in Hj. fold d in Hj.
  assert (match x with ReadBytes _ => True | _ => d = [] end) as Hdx by by destruct x.
  clearbody d. set (w1 := w <| sys ::= _ |> <| backend_recv ::= _ |>) in *. clearbody w1. clear H He Hp w.
  destruct Hj as [Hd Hrel Hopen Ha Hup].
  assert (forall w2, Base wf (n - 1) kBackpressureHigh req kx w2 ->
            wp F (on_readable_loop mono fuel) (fun _ => Base wf n kBackpressureHigh req kx) w2) as Hloop.
  { intros w2 H2. eapply wp_mono; [apply (IH (n - 1)%nat kx); [lia|done|exact H2]|].
    intros ? w3 H3. by apply Hup. }
  destruct x as [d0| | |].
  - destruct d as [|c d].
    + specialize (Hd ltac:(by left)).
      eapply wp_mono; [apply (wp_take_client F wf req kx (n - 1)); [|by intros _; exact Hd|]|].
      * by apply base_severable.
      * intros w2 Hh H2. by apply wp_on_backend_closed_with.
      * intros ? w2 H2. by apply Hup.
    + unfold btouch, now. wsteps.
      * assert (client (back w1) = true) as Hc by done.
        destruct (Hopen Hc) as [Hh Hcl]. specialize (Hrel ltac:(done) Hc).
        apply wp_deref_client; [done|cbn; congruence|].
        eapply wp_mono; [apply wp_deliver_to_client_with; [done|done|apply Hpump|exact Hcl|]|].
        -- unfold relaying in *. same Hrel.
        -- intros ? w2 H2. by apply Hloop.
      * apply Hloop. specialize (Hd ltac:(by right)). same Hd.
  - wstep. apply Hup, Hd. by left.
  - by apply Hloop, Hd; left.
  - specialize (Hd ltac:(by left)). eapply wp_mono.
    + apply (wp_fail_with F wf req kx own_error (n - 1)%nat kBackpressureHigh); [done|apply Hpump| |done].
      by apply base_severable.
    + intros ? w2 H2. by apply Hup.
Qed.

(** The response side, as the code runs it. *)
Lemma wp_back_on_readable n kx w :
  k_back kx = true -> Base wf n kBackpressureHigh req kx w ->
  wp F (back_on_readable mono) (fun _ => Base wf n kBackpressureHigh req kx) w.
Proof.
  intros Hk H. unfold back_on_readable. wstep. wstep.
  eapply wp_mono; [apply (on_readable_reads (S (length (e_read (sys w)))) (S (length (e_read (sys w)))) kx)|].
  - done.
  - done.
  - destruct H; constructor; try assumption. lia.
  - intros ? w1 H1. apply (base_weaken _ _ _ _ _ _ _ _ H1); [|done]. pose proof (b_reads _ _ _ _ _ _ H). lia.
Qed.

Lemma pump_write_pumps n kx : pumps F wf req kx n (pump_write mono).
Proof.
  unfold pump_write, resume_reads.
  refine (pumps_of_reads F mono wf req kx n _ _). intros w Hk H. exact (wp_back_on_readable n kx w Hk H).
Qed.
End Reading.
End Invariant.
