(* ===== verification/HttpInv.v ===== *)
(** * HttpInv: the request side, and the invariant of a connection

    The rest of [Http.v] — [flush], [forward_body], [process_head], [pump_read], [drive]
    and the loop's dispatch — against the invariant: the response side's [Base]
    together with what the request forwarded so far must be ([request_ok]). *)
From S2P Require Import Prelude Text Router Supervisor HttpHead HttpStatus Http HttpSafe.
Open Scope Z_scope.

Section Request.
Context (mono : nat -> Z) (phr_parse_request : bytes -> phr_result).
Context (router : Router) (timeout_ max_body_ : Z).
Context (probe : bytes -> Z -> bool) (start : Z) (start_wall : bytes).
Context (snapshot : option (list ServiceUptime)).
Context (phr_fits : parse_fits phr_parse_request).

(** The responses castle makes up. *)
Definition own_response (r : response) : Prop :=
  (exists e, r = of_error e) \/
  exists t method target, r = handle_internal probe router t start start_wall snapshot method target.
Lemma own_error e : own_response (of_error e).
Proof. left. by exists e. Qed.

Context (wf : bool).
(** The only fault: a null [backend_], after a failed [write]. *)
Definition allowed (f : fault) : Prop := f = NullPointer /\ wf = true.

Notation base n low req kx := (Base own_response wf n low req kx).
Notation WP m Q w := (wp allowed m Q w).
Ltac same H := destruct H; constructor; assumption.
(** The key of a world, after an update of the ghost part or of one field. *)
Ltac rekey kx :=
  repeat match goal with H : key_of _ _ = _ |- _ => revert H end;
  clear; destruct kx; unfold key_of; cbn; intros; congruence.

(** *** Writing to the backend *)

(** [off] bytes of [bout] are written and not yet erased. *)
Definition written (n off : nat) req kx w : Prop :=
  base n kBackpressureHigh req kx (w <| back ::= (fun b => b <| bout ::= drop off |>) |>) /\
  ((off <= length (bout (back w)))%nat /\ size (bout (back w)) <= k_upload kx) /\ client (back w) = true /\ k_back kx = true.

Lemma written_sent n off k r req kx w :
  written n off req kx w -> (wf = false -> WriteFail ∉ r) ->
  let m := Nat.min k (length (drop off (bout (back w)))) in
  written n (off + m) req kx
    (w <| sys ::= (fun e => e <| e_write := r |>) |>
       <| backend_sent ::= (fun l => l ++ take m (drop off (bout (back w)))) |>).
Proof.
  intros (H & [Hl Hq] & Hc & Hk) Hr m. split; [|cbn; split; [split; [unfold m; rewrite length_drop; lia|done]|done]].
  pose proof (base_back _ _ _ _ _ _ _ H) as Ha. rewrite Hk in Ha. cbn in Ha.
  pose proof (b_request _ _ _ _ _ _ _ H Ha Hc) as Hreq. cbn in Hreq.
  assert (drop m (drop off (bout (back w))) = drop (off + m) (bout (back w))) as Hd by by rewrite drop_drop.
  assert (size (drop (off + m) (bout (back w))) <= size (drop off (bout (back w)))) as Hsz
    by (unfold size; rewrite !length_drop; lia).
  destruct H; constructor; cbn in *; try assumption.
  - intros _ _. rewrite <- Hd, <- (assoc_L app), take_drop. done.
  - exists (drop m (drop off (bout (back w)))). by rewrite <- (assoc_L app), take_drop.
  - intros H1 H2. destruct (b_live H1 H2) as (L1 & L2 & L3). split_and!; [done..|]. lia.
  - lia.
  - intros. congruence.
Qed.

Lemma written_severed n off req kx w :
  written n off req kx w -> k_http kx = true /\ http_alive w = true /\
    base n kBackpressureHigh req (severing kx) (severed w).
Proof.
  intros (H & [_ Hq] & Hc & Hk). destruct (base_severable _ _ _ _ _ _ _ Hk H Hc) as (Hh & Ha & Hs).
  pose proof (base_back _ _ _ _ _ _ _ H) as Hba. rewrite Hk in Hba. split_and!; [done|exact Ha|].
  destruct Hs; constructor; cbn in *; try assumption; intros; congruence.
Qed.

Lemma wp_write_loop n fuel off req kx w :
  written n off req kx w -> (length (e_write (sys w)) < fuel)%nat ->
  WP (write_loop mono fuel off)
    (fun r w' => if r.1 then written n r.2 req kx w' /\ http w' = http w
                 else base n kBackpressureHigh req kx w' /\ wf = true) w.
Proof.
  revert off w. induction fuel as [|fuel IH]; intros off w H Hf; [lia|].
  cbn [write_loop]. wstep. wstep. wstep; [|wstep; by split].
  wstep. apply wp_backend_write; [intros _; wstep; by split|]. intros x r He m.
  rewrite He in Hf. cbn in Hf. destruct H as (Hb & Hrest).
  assert (wf = false -> WriteFail ∉ x :: r) as Hwf by (rewrite <- He; apply (b_writes _ _ _ _ _ _ _ Hb)).
  assert (wf = false -> WriteFail ∉ r) as Hr by (intros Hx Hin; apply (Hwf Hx); by right).
  pose proof (conj Hb Hrest : written n off req kx w) as H.
  assert (m = O -> written n off req kx
            (w <| sys ::= (fun e => e <| e_write := r |>) |>
               <| backend_sent ::= (fun l => l ++ take m (drop off (bout (back w)))) |>)) as Hzero.
  { intros ->. pose proof (written_sent n off 0 r req kx w H Hr) as Hs. cbn in Hs.
    by rewrite Nat.add_0_r in Hs. }
  destruct x as [k| | |]; cbn in m.
  - pose proof (written_sent n off (S k) r req kx w H Hr) as Hs. fold m in Hs.
    unfold btouch, now. wsteps. eapply wp_mono; [apply IH|].
    + destruct Hs as (Hs & Hs'). split; [same Hs|exact Hs'].
    + cbn. lia.
    + intros [ok off'] w' Hq. exact Hq.
  - wstep. split; [by apply Hzero|done].
  - eapply wp_mono; [apply IH; [by apply Hzero|cbn; lia]|]. intros [ok off'] w' Hq. exact Hq.
  - specialize (Hzero eq_refl). wstep. eapply wp_mono.
    + apply (wp_fail_with own_response allowed wf req kx own_error n kBackpressureHigh); [done|apply pump_write_pumps, own_error| |].
      * intros _. by eapply written_severed.
      * intros Hc. destruct Hzero as (_ & _ & Hc' & _). congruence.
    + intros ? w' Hw'. wstep. split; [done|]. apply not_false_is_true. intros Hx. apply (Hwf Hx). by left.
Qed.

(** [flush], for a client that reacts to its buffer draining by [drained]. *)
Lemma wp_flush_with n req kx drained Q w :
  base n kBackpressureHigh req kx w -> client (back w) = true -> k_back kx = true ->
  (forall w', base n kBackpressureHigh req kx w' -> wf = true -> Q tt w') ->
  (forall w', base n kBackpressureHigh req kx w' -> client (back w') = true ->
     backend_ (http w') = backend_ (http w) -> WP apply_interest Q w') ->
  (forall w', base n kBackpressureHigh req kx w' -> client (back w') = true ->
     http_alive w' = true -> size (bout (back w')) < kBackpressureLow ->
     backend_ (http w') = backend_ (http w) ->
     WP drained (fun _ => wp allowed apply_interest Q) w') ->
  WP (flush_with mono drained) Q w.
Proof.
  intros H Hc Hk Hfail Hdone Hdrain. unfold flush_with. wstep. wstep. wstep.
  eapply wp_mono; [apply (wp_write_loop n (S (length (e_write (sys w)))) 0 req kx)|].
  - split; [|split; [split; [lia|apply (b_queue _ _ _ _ _ _ _ H)]|by split]]. same H.
  - lia.
  - intros [ok off] w1. destruct ok; cbn [fst snd].
    2: { intros [H1 Hwf]. wstep. by apply Hfail. }
    intros [(H1 & Hl & Hc1 & _) Hhttp]. wstep. wstep.
    assert (client (back (w1 <| back ::= (fun b => b <| bout ::= drop off |>) |>)) = true) as Hc2 by done.
    assert (http (w1 <| back ::= (fun b => b <| bout ::= drop off |>) |>) = http w) as Hh2 by done.
    generalize dependent (w1 <| back ::= (fun b => b <| bout ::= drop off |>) |>).
    clear dependent w1. intros w2 H2 Hc2 Hh2. wstep. wstep. wstep. wstep; [|apply Hdone; [done..|by rewrite Hh2]].
    bool_to_prop. wstep. wstep.
    destruct (base_client _ _ _ _ _ _ _ Hk H2 Hc2) as [Ha Hb].
    rewrite Hc2. cbn [rwhen]. wstep. apply wp_deref_client; [done|done|].
    specialize (Hdrain (w2 <| back ::= (fun b => b <| high_water_hit := false |>) |>)).
    apply Hdrain; [same H2|done|done|done|by rewrite <- Hh2].
Qed.

(** *** What the request forwarded so far is *)

(** The head at the start of what the client sent was decided as [p]. *)
Definition accepted_head (kx : key) (n : nat) (p : proxied) : Prop :=
  exists buf rest, k_recv kx = buf ++ rest /\
    decide_head router max_body_ (length buf) (phr_parse_request buf) = Proxy n p /\
    k_up kx = p_upstream p /\ k_head_len kx = n /\ (n <= length buf)%nat.
(** The part of the body received so far. *)
Definition body_of (n : nat) (p : proxied) (recv : bytes) : bytes :=
  take (Z.to_nat (p_body p)) (drop n recv).

Definition upload_low (kx : key) : Z := Z.max kBackpressureHigh (size (k_up kx)).
Definition upload_high (kx : key) : Z := upload_low kx + kMaxHead + kBuf.

(** The head read and the head rewritten: [held] bounds what is kept of them. *)
Definition kMaxIn : Z := kMaxHead + kBuf.
Definition held (kx : key) : Prop := size (k_in kx) <= kMaxIn /\ size (k_up kx) <= kMaxUpstream kMaxIn.

Definition streaming_ok (kx : key) (p : proxied) (recv req : bytes) : Prop :=
  req = p_upstream p ++ body_of (k_head_len kx) p recv /\
  k_remaining kx = p_body p - size (body_of (k_head_len kx) p recv).

Definition request_ok (kx : key) (req : bytes) : Prop :=
  k_sever kx = false /\ (k_upload kx <= upload_high kx /\ held kx) /\
  match k_state kx with
  | ReadingHead => k_in kx = k_recv kx /\ req = [] /\ k_live kx = false /\ k_paused kx = false /\
                   size (k_in kx) <= kMaxHead
  | st =>
      (req = [] /\ k_live kx = false) \/
      exists p, accepted_head kx (k_head_len kx) p /\
        req `prefix_of` p_upstream p ++ body_of (k_head_len kx) p (k_recv kx) /\
        (k_live kx = true ->
           streaming_ok kx p (k_recv kx) req /\
           ((st = StreamingUp /\ 0 < k_remaining kx /\
               (k_paused kx = false -> k_upload kx <= upload_low kx)) \/
            (st = Streaming /\ k_remaining kx = 0)))
  end.

(** The invariant: [n] bounds the reads to come, [m] the receptions. *)
Definition Inv (n m : nat) (w : HWorld) : Prop :=
  exists req kx, base n kBackpressureHigh req kx w /\ request_ok kx req /\
    k_http kx = true /\ (length (k_recvs kx) < m)%nat.
(** The same past the request head. *)
Definition Past (n m : nat) (w : HWorld) : Prop :=
  exists req kx, base n kBackpressureHigh req kx w /\ request_ok kx req /\
    k_http kx = true /\ (length (k_recvs kx) < m)%nat /\ k_state kx <> ReadingHead.
Lemma past_inv n m w : Past n m w -> Inv n m w.
Proof. intros (req & kx & H1 & H2 & H3 & H4 & _). by exists req, kx. Qed.

Lemma body_of_app n p old data :
  (n <= length old)%nat ->
  body_of n p (old ++ data) =
    body_of n p old ++ take (Z.to_nat (p_body p) - length (drop n old)) data.
Proof. intros Hn. unfold body_of. by rewrite drop_app_le, take_app by done. Qed.

(** With the body incomplete, all of it so far has been received. *)
Lemma body_of_more n p old data :
  (n <= length old)%nat -> 0 <= p_body p -> 0 < p_body p - size (body_of n p old) ->
  let rem := p_body p - size (body_of n p old) in
  let k := Z.to_nat (Z.min (size data) rem) in
  body_of n p (old ++ data) = body_of n p old ++ take k data /\
  p_body p - size (body_of n p (old ++ data)) = rem - Z.of_nat k.
Proof.
  intros Hn Hp Hrem rem k. rewrite body_of_app by done.
  assert (length (body_of n p old) = length (drop n old)) as Hl.
  { unfold body_of, size in *. rewrite length_take in *. lia. }
  assert (take (Z.to_nat (p_body p) - length (drop n old)) data = take k data) as ->.
  { rewrite <- Hl. unfold k, rem, size. destruct (Z.le_gt_cases (Z.of_nat (length data))
      (p_body p - Z.of_nat (length (body_of n p old)))) as [Hle|Hgt].
    - rewrite Z.min_l by done. rewrite Nat2Z.id, !take_ge; [done|lia|lia].
    - rewrite Z.min_r by lia. f_equal. lia. }
  split; [done|]. unfold rem, size. rewrite length_app, length_take. unfold k, rem, size in *. lia.
Qed.

Lemma body_of_done n p old data :
  (n <= length old)%nat -> 0 <= p_body p -> p_body p - size (body_of n p old) = 0 ->
  body_of n p (old ++ data) = body_of n p old.
Proof.
  intros Hn Hp Hrem. rewrite body_of_app by done. unfold body_of, size in *. rewrite length_take in Hrem.
  replace (Z.to_nat (p_body p) - length (drop n old))%nat with O by lia. by rewrite app_nil_r.
Qed.

Lemma decided_body len r n p :
  decide_head router max_body_ len r = Proxy n p -> 0 <= p_body p < 10 ^ 18 /\ exists m pa hs, r = Parsed n m pa hs.
Proof.
  unfold decide_head. destruct r as [| |k m pa hs]; [by case_match|done|].
  case_match; [done|]. destruct (decide_proxy _ _ _ _ _) as [e|q] eqn:Hd; [done|]. intros [= <- <-].
  split; [|by eauto]. rewrite decide_proxy_reference in Hd. unfold proxy_reference in Hd.
  destruct (framing _) as [e|b] eqn:Hf; [done|]. cbn [mbind sum_bind] in Hd.
  case_decide; [done|]. case_decide; [done|]. case_match; [|done]. injection Hd as <-. cbn.
  by eapply framing_range.
Qed.

(** Restating the invariant with other bounds. *)
Lemma base_rekey n low req kx kx' w :
  base n low req kx w -> key_of kx' w = kx' ->
  state_ (http w) = k_state kx' \/ state_ (http w) = Closing ->
  (back_alive w = true -> client (back w) = true ->
     k_live kx' = true /\ state_ (http w) = k_state kx' /\ size (bout (back w)) <= k_upload kx') ->
  (back_alive w = true -> client (back w) = false -> back_closing w = true \/ k_sever kx' = true) ->
  size (bout (back w)) <= k_upload kx' ->
  base n low req kx' w.
Proof. intros [] ? ? ? ? ?. by constructor. Qed.

(** A flush in the middle of an upload: the client is not waiting for the drain. *)
Definition flush_ok (n : nat) (fl : R unit) : Prop :=
  forall req kx w, base n kBackpressureHigh req kx w -> client (back w) = true -> k_back kx = true ->
    k_paused kx = false -> backend_ (http w) = true ->
    WP fl (fun _ w' => base n kBackpressureHigh req kx w' /\ (wf = false -> backend_ (http w') = true)) w.

Lemma base_paused n low req kx w : base n low req kx w -> read_paused_ (http w) = k_paused kx.
Proof. intros [Hkey _ _ _]. by rewrite <- Hkey. Qed.

Lemma base_remaining n low req kx w :
  base n low req kx w -> body_remaining_ (http w) = k_remaining kx.
Proof. intros [Hkey _ _ _]. by rewrite <- Hkey. Qed.

Lemma apply_interest_ok n req kx w :
  base n kBackpressureHigh req kx w -> k_back kx = true -> backend_ (http w) = true ->
  WP apply_interest
    (fun _ w' => base n kBackpressureHigh req kx w' /\ (wf = false -> backend_ (http w') = true)) w.
Proof.
  intros H Hk Hb. pose proof (base_back _ _ _ _ _ _ _ H) as Ha. rewrite Hk in Ha.
  unfold apply_interest. wstep. wstep. wstep; [by wstep|]. wsteps. cbn. rewrite (if_true _ _ _ Ha).
  split; [|done]. destruct H; constructor; cbn; try assumption. done.
Qed.

Lemma flush_ok_with n d : flush_ok n (flush_with mono (on_backend_drained_with d)).
Proof.
  intros req kx w H Hc Hk Hp Hb. apply (wp_flush_with n req kx); [done..| | |].
  - intros w1 H1 Hwf. split; [done|]. congruence.
  - intros w1 H1 Hc1 Hb1. apply apply_interest_ok; [done..|congruence].
  - intros w1 H1 Hc1 Ha1 _ Hb1. unfold on_backend_drained_with. wstep. wstep.
    rewrite (base_paused _ _ _ _ _ H1), Hp, orb_true_r. wstep.
    apply apply_interest_ok; [done..|congruence].
Qed.

Lemma wp_back_send n req kx data fl w :
  base n kBackpressureHigh req kx w -> client (back w) = true -> k_back kx = true ->
  k_paused kx = false -> backend_ (http w) = true -> flush_ok n fl ->
  WP (back_send fl data)
    (fun _ w' => base n kBackpressureHigh (req ++ data)
                   (kx <| k_upload ::= (fun u => u + size data) |>) w' /\
                 (wf = false -> backend_ (http w') = true)) w.
Proof.
  intros H Hc Hk Hp Hb Hfl. pose proof (base_back _ _ _ _ _ _ _ H) as Ha. rewrite Hk in Ha.
  set (kx' := kx <| k_upload ::= _ |>).
  assert (base n kBackpressureHigh (req ++ data) kx'
            (w <| back ::= (fun b => b <| bout ::= (fun o => o ++ data) |>) |>)) as H1.
  { pose proof (b_request _ _ _ _ _ _ _ H Ha Hc) as Hreq.
    pose proof (b_live _ _ _ _ _ _ _ H Ha Hc) as (L1 & L2 & L3).
    destruct H; constructor; cbn; try assumption.
    - subst kx'. by rekey kx.
    - intros _ _. by rewrite (assoc_L app), Hreq.
    - by apply prefix_app_r.
    - intros _ _. split_and!; [done..|]. unfold size in *. rewrite length_app. lia.
    - unfold size in *. rewrite length_app. lia.
    - intros. congruence. }
  unfold back_send. wstep. wstep. set (w1 := w <| back ::= _ |>) in *.
  assert (client (back w1) = true /\ backend_ (http w1) = true) as [Hc1 Hb1] by done. clearbody w1.
  assert (forall w2, base n kBackpressureHigh (req ++ data) kx' w2 -> client (back w2) = true ->
            backend_ (http w2) = true ->
            WP (rwhen (connected (back w1)) fl)
              (fun _ w' => base n kBackpressureHigh (req ++ data) kx' w' /\
                           (wf = false -> backend_ (http w') = true)) w2) as Htail.
  { intros w2 H2 Hc2 Hb2. wstep; [by apply Hfl|by split]. }
  wstep. wstep. wstep. wstep; [|by apply Htail]. wstep. apply Htail; [same H1|done..].
Qed.

(** Received bytes that complete or prolong an upload. *)
Definition uploading (kx : key) (p : proxied) (old data req : bytes) : Prop :=
  k_state kx = StreamingUp /\ k_paused kx = false /\ k_sever kx = false /\
  accepted_head kx (k_head_len kx) p /\ (k_head_len kx <= length old)%nat /\ k_recv kx = old ++ data /\
  (k_upload kx <= upload_high kx - (kMaxHead + kBuf) /\ held kx) /\ size data <= kMaxHead + kBuf /\
  req `prefix_of` p_upstream p ++ body_of (k_head_len kx) p old /\
  (k_live kx = true -> streaming_ok kx p old req /\ 0 < k_remaining kx).

Lemma accepted_body kx n p : accepted_head kx n p -> 0 <= p_body p < 10 ^ 18.
Proof. intros (buf & rest & _ & Hd & _). by eapply decided_body. Qed.

Lemma prefix_body n p old data :
  (n <= length old)%nat -> body_of n p old `prefix_of` body_of n p (old ++ data).
Proof. intros Hn. rewrite body_of_app by done. by apply prefix_app_r. Qed.

(** Without a backend, the rest of the upload goes nowhere. *)
Lemma inv_lost n m req kx p old data w :
  base n kBackpressureHigh req kx w -> uploading kx p old data req -> k_http kx = true ->
  (length (k_recvs kx) < m)%nat -> backend_ (http w) = false -> Past n m w.
Proof.
  intros H (Hst & Hp & Hsv & Hacc & Hn & Hrecv & Hup & Hsz & Hpre & Hlive) Hh Hm Hb.
  pose proof (b_ptr _ _ _ _ _ _ _ H) as Hptr. rewrite Hb, andb_false_r in Hptr.
  pose proof (b_state _ _ _ _ _ _ _ H) as Hs. pose proof (b_orphan _ _ _ _ _ _ _ H) as Ho.
  exists req, (kx <| k_live := false |>). split_and!; [| |done|done|cbn; by rewrite Hst].
  - eapply base_rekey; [exact H| |done| |done|apply (b_queue _ _ _ _ _ _ _ H)].
    + destruct H. by rekey kx.
    + intros H1 H2. by rewrite H1, H2 in Hptr.
  - unfold request_ok. cbn. rewrite Hst. destruct Hup as [Hup Hheld].
    split_and!; [done|unfold upload_high in *; unfold kMaxHead, kBuf in *; unfold upload_low in *; cbn in *; lia|exact Hheld|].
    right. exists p. split_and!; [done| |done]. rewrite Hrecv.
    etrans; [exact Hpre|]. by apply prefix_app, prefix_body.
Qed.

(** Nothing new to upload. *)
Lemma inv_idle n m req kx p old w :
  base n kBackpressureHigh req kx w -> uploading kx p old [] req -> k_http kx = true ->
  (length (k_recvs kx) < m)%nat -> Past n m w.
Proof.
  intros H (Hst & Hp & Hsv & Hacc & Hn & Hrecv & Hup & Hsz & Hpre & Hlive) Hh Hm.
  rewrite app_nil_r in Hrecv. exists req, kx. split_and!; [done| |done|done|by rewrite Hst].
  destruct Hup as [Hup Hheld]. unfold request_ok. rewrite Hst, Hrecv. split_and!; [done|unfold kMaxHead, kBuf in *; lia|done|].
  right. exists p. split_and!; [done|done|]. intros Hl. destruct (Hlive Hl) as [Hok Hpos].
  split; [done|]. left. split_and!; [done|done|]. intros _. unfold upload_high in Hup. lia.
Qed.

(** The upload has moved on: [req] and the remaining length follow what was received. *)
Lemma inv_uploaded n m req kx p old data w :
  uploading kx p old data req -> k_live kx = true -> k_http kx = true -> (length (k_recvs kx) < m)%nat ->
  let k := Z.to_nat (Z.min (size data) (k_remaining kx)) in
  let rem := k_remaining kx - Z.of_nat k in
  let kx' := kx <| k_upload ::= (fun u => u + size (take k data)) |> <| k_remaining := rem |> in
  base n kBackpressureHigh (req ++ take k data) kx' w ->
  (rem = 0 -> Past n m (w <| http ::= (fun c => c <| state_ := Streaming |>) |>)) /\
  (0 < rem -> kBackpressureHigh < size (bout (back w)) ->
     Past n m (w <| http ::= (fun c => c <| read_paused_ := true |>) |>)) /\
  (0 < rem -> size (bout (back w)) <= kBackpressureHigh -> Past n m w).
Proof.
  intros (Hst & Hp & Hsv & Hacc & Hn & Hrecv & Hup & Hsz & Hpre & Hlive) Hl Hh Hm k rem kx' H.
  destruct (Hlive Hl) as [[Hreq Hrem] Hpos]. clear Hlive.
  pose proof (accepted_body _ _ _ Hacc) as [Hp0 _].
  destruct (body_of_more (k_head_len kx) p old data Hn Hp0) as [Hbody Hleft]; [by rewrite <- Hrem|].
  rewrite <- Hrem in Hbody, Hleft. fold k in Hbody, Hleft. fold rem in Hleft.
  assert (size (take k data) <= kMaxHead + kBuf) as Hk.
  { unfold size in *. rewrite length_take. lia. }
  assert (streaming_ok kx' p (k_recv kx) (req ++ take k data)) as Hok.
  { split; cbn.
    - by rewrite Hrecv, Hbody, (assoc_L app), <- Hreq.
    - by rewrite Hrecv, Hleft. }
  assert (accepted_head kx' (k_head_len kx) p) as Hacc' by exact Hacc.
  assert (req ++ take k data `prefix_of` p_upstream p ++ body_of (k_head_len kx) p (k_recv kx)) as Hpre'
    by by rewrite (proj1 Hok).
  destruct Hup as [Hup Hheld].
  assert (k_upload kx + size (take k data) <= upload_high kx) as Hhigh by (unfold upload_high in *; lia).
  pose proof (b_state _ _ _ _ _ _ _ H) as Hs. pose proof (b_live _ _ _ _ _ _ _ H) as Hlv.
  pose proof (b_orphan _ _ _ _ _ _ _ H) as Ho. cbn in Hs, Hlv, Ho. rewrite Hst in Hs, Hlv.
  split_and!.
  - intros Hz. exists (req ++ take k data), (kx' <| k_state := Streaming |>). split_and!; [| |done|done|done].
    + destruct H; constructor; cbn in *; try assumption; try done.
      * subst kx'. by rekey kx.
      * by left.
    + split_and!; [done|exact Hhigh|exact Hheld|]. right. exists p. split_and!; [done|done|]. intros _.
      split; [done|]. by right.
  - intros Hr Hsb. exists (req ++ take k data), (kx' <| k_paused := true |>). split_and!; [| |done|done|cbn; by rewrite Hst].
    + destruct H; constructor; cbn in *; try assumption; try done. subst kx'. by rekey kx.
    + split_and!; [done|exact Hhigh|exact Hheld|]. cbn. rewrite Hst. right. exists p. split_and!; [done|done|].
      intros _. split; [done|]. by left.
  - intros Hr Hsb. exists (req ++ take k data), (kx' <| k_upload := kBackpressureHigh |>).
    split_and!; [| |done|done|cbn; by rewrite Hst].
    + apply (base_rekey n _ _ kx'); cbn; [done| | | |done|done].
      * destruct H. subst kx'. by rekey kx.
      * by rewrite Hst.
      * intros H1 H2. destruct (Hlv H1 H2) as (? & ? & _). rewrite Hst. by split_and!.
    + split_and!; [done|unfold upload_high, upload_low, kMaxHead, kBuf; cbn; lia|exact Hheld|].
      cbn. rewrite Hst. right. exists p. split_and!; [done|done|].
      intros _. split; [done|]. left. split_and!; [done|done|]. intros _. unfold upload_low. cbn. lia.
Qed.

(** [forward_body] after its send. *)
Lemma wp_body_sent n m kx p old data req w :
  uploading kx p old data req -> k_live kx = true -> k_http kx = true -> (length (k_recvs kx) < m)%nat ->
  let k := Z.to_nat (Z.min (size data) (k_remaining kx)) in
  let rem := k_remaining kx - Z.of_nat k in
  let kx' := kx <| k_upload ::= (fun u => u + size (take k data)) |> <| k_remaining := rem |> in
  0 <= rem -> base n kBackpressureHigh (req ++ take k data) kx' w -> (wf = false -> backend_ (http w) = true) ->
  WP (let? rest := hget body_remaining_ in
      if rest =? 0 then hset (fun c => c <| state_ := Streaming |>)
      else deref_backend ;?
           let? b := rgets back in
           rwhen (kBackpressureHigh <? size (bout b)) (hset (fun c => c <| read_paused_ := true |>)))
    (fun _ => Past n m) w.
Proof.
  intros Hup Hl Hh Hm k rem kx' Hrem H Hb. destruct (inv_uploaded n m req kx p old data w Hup Hl Hh Hm H) as (E1 & E2 & E3).
  assert (body_remaining_ (http w) = rem) as Hr by exact (base_remaining _ _ _ _ _ H).
  wstep. wstep. rewrite Hr. destruct (rem =? 0) eqn:Ez; bool_to_prop; [wstep; by apply E1|].
  wstep. destruct (backend_ (http w)) eqn:Hbw.
  - destruct (base_backend _ _ _ _ _ _ _ (Hh : k_http kx' = true) H Hbw) as [Ha Hc].
    apply wp_deref_backend; [done|done|]. wstep. wstep. wstep; bool_to_prop.
    + wstep. apply E2; lia.
    + apply E3; lia.
  - unfold wp, deref_backend, hget, rgets, rbind. rewrite Hbw. cbn. split; [done|].
    destruct wf; [done|]. by specialize (Hb eq_refl).
Qed.

Lemma wp_forward_body n m req kx p old data fl w :
  base n kBackpressureHigh req kx w -> uploading kx p old data req -> k_http kx = true ->
  (length (k_recvs kx) < m)%nat -> flush_ok n fl ->
  WP (forward_body fl data) (fun _ => Past n m) w.
Proof.
  intros H Hup Hh Hm Hfl. unfold forward_body. wstep. wstep.
  destruct (backend_ (http w)) eqn:Hb; [|wstep; by eapply inv_lost].
  destruct (base_backend _ _ _ _ _ _ _ Hh H Hb) as [Ha Hc].
  assert (k_back kx = true) as Hk by by rewrite <- (base_back _ _ _ _ _ _ _ H).
  destruct (b_live _ _ _ _ _ _ _ H Ha Hc) as (Hl & Hst & Hq).
  destruct (proj2 (proj2 (proj2 (proj2 (proj2 (proj2 (proj2 (proj2 (proj2 Hup)))))))) Hl) as [[Hreq Hrem] Hpos].
  assert (body_remaining_ (http w) = k_remaining kx) as Hbr by exact (base_remaining _ _ _ _ _ H).
  rewrite Hbr. change (Z.of_nat (length data)) with (size data).
  pose proof (wp_body_sent n m kx p old data req) as Htail. cbv zeta in Htail.
  set (k := Z.to_nat (Z.min (size data) (k_remaining kx))) in *.
  set (rem := k_remaining kx - Z.of_nat k) in *.
  set (kx' := kx <| k_upload ::= _ |> <| k_remaining := rem |>) in *.
  pose proof (accepted_body _ _ _ (proj1 (proj2 (proj2 (proj2 Hup))))) as Hp0.
  assert (0 <= rem < 2 ^ 64) as Hrange.
  { unfold rem, k, size in *. change (2 ^ 64) with 18446744073709551616.
    change (10 ^ 18) with 1000000000000000000 in Hp0. lia. }
  wstep. wstep; bool_to_prop.
  - wstep. apply wp_deref_backend; [done|done|]. wstep.
    eapply wp_mono; [apply wp_back_send; [exact H|done|done|apply Hup|done|done]|].
    intros ? w1 [H1 Hb1]. wstep. apply Htail; try done; [lia|]. subst kx'.
    assert (body_remaining_ (http w1) = k_remaining kx) as Hr1 by exact (base_remaining _ _ _ _ _ H1).
    destruct H1; constructor; cbn in *; try assumption.
    rewrite Hr1. fold rem. rewrite wrap_u_id by done. by rekey kx.
  - assert (k = O) as Hk0 by lia. apply Htail; try done; [lia|]. rewrite Hk0. cbn. rewrite app_nil_r.
    assert (rem = k_remaining kx) as Hrem0 by (unfold rem; lia).
    subst kx'. rewrite Hrem0. apply (base_rekey n _ _ kx); cbn; [done| |by left| | |].
    + destruct H. by rekey kx.
    + intros _ _. split_and!; [done|done|]. unfold size at 2. lia.
    + intros _ Hcf. congruence.
    + unfold size at 2. lia.
Qed.

(** *** Answering without a backend *)

Definition closing (kx : key) : key := kx <| k_state := Closing |> <| k_live := false |>.

Lemma wp_refuse n req kx r w :
  base n kBackpressureHigh req kx w -> k_http kx = true -> own_response r ->
  responded_ (http w) = false -> backend_ (http w) = false ->
  WP (send_response mono r) (fun _ => base n kBackpressureHigh req (closing kx)) w.
Proof.
  intros H Hh Hr Hresp Hb. unfold send_response, send_response_with. wstep. wstep.
  eapply (wp_write_and_watch own_response allowed wf req (closing kx)); [done| |apply pump_write_pumps, own_error| |].
  - done.
  - pose proof (b_ptr _ _ _ _ _ _ _ H) as Hp. rewrite Hb, andb_false_r in Hp. symmetry in Hp.
    destruct (b_silent _ _ _ _ _ _ _ H Hresp) as [Hs Ho].
    destruct H; constructor; cbn; try assumption; try done; try (intros H1 H2; by rewrite H1, H2 in Hp).
    + unfold closing. by rekey kx.
    + left. exists r. cbn. by rewrite Hs.
    + by left.
  - intros w1 H1. by wstep.
Qed.

(** *** Opening the backend connection *)

(** The key once the backend is there, with the head queued. *)
Definition connected_key (kx : key) : key :=
  kx <| k_live := true |> <| k_upload := size (k_up kx) |> <| k_back := true |>.

Lemma wp_start_backend n kx fl w :
  base n kBackpressureHigh [] kx w -> k_http kx = true -> k_state kx = ReadingHead ->
  state_ (http w) = ReadingHead -> closed_ (http w) = false -> read_paused_ (http w) = false ->
  WP (start_backend mono fl)
    (fun _ w' =>
       base n kBackpressureHigh [] (closing kx) w' \/
       (base n kBackpressureHigh [] kx w' /\ state_ (http w') = ReadingHead /\ closed_ (http w') = false /\
        backend_ (http w') = false) \/
       (state_ (http w') = ReadingHead /\ closed_ (http w') = false /\ read_paused_ (http w') = false /\
        forall st, st <> ReadingHead ->
          base n kBackpressureHigh (k_up kx) (connected_key kx <| k_state := st |>)
            (w' <| http ::= (fun c => c <| state_ := st |>) |>))) w.
Proof.
  intros H Hh Hst Hs Hcl Hrp. unfold start_backend. wstep. wstep. wstep. wstep.
  destruct (b_reading _ _ _ _ _ _ _ H Hs) as (Ha & Hresp & Hrecv & Hbp).
  pose proof (base_http _ _ _ _ _ _ _ H) as Hha. rewrite Hh in Hha.
  assert (backend_ (http w) = false) as Hb.
  { pose proof (b_ptr _ _ _ _ _ _ _ H) as Hp. by rewrite Hha, Ha in Hp. }
  assert (forall e, WP (send_error mono e) (fun _ => base n kBackpressureHigh [] (closing kx)) w) as Herr.
  { intros e. apply wp_refuse; [done|done|apply own_error|done|done]. }
  assert (size [] <= k_upload kx) as Hq0.
  { etrans; [|apply (b_queue _ _ _ _ _ _ _ H)]. unfold size. cbn [length]. lia. }
  destruct (e_dial (sys w)).
  1, 2, 3: eapply wp_mono; [apply Herr|]; intros ? w' H'; by left.
  - unfold now, back_send. wsteps; try (apply wp_deref_backend; [done|done|]); wsteps; try done; right; left.
    all: split_and!; [|done|done|done].
    all: destruct H; constructor; cbn in *; try assumption; try done; try (by rewrite andb_false_r);
      try (intros; congruence).
    all: revert b_key Ha; clear; destruct kx; unfold key_of; cbn; intros; congruence.
  - assert (upstream_ (http w) = k_up kx) as Hu by by destruct H as [<- _ _ _].
    unfold now, back_send. wsteps; try (apply wp_deref_backend; [done|done|]); wsteps; try done; right; right.
    all: split_and!; [done..|]; intros st Hst'.
    all: destruct (b_silent _ _ _ _ _ _ _ H Hresp) as [Hcs Hout].
    all: assert (backend_sent w = []) as Hbs by (by apply prefix_nil_inv, (b_prefix _ _ _ _ _ _ _ H)).
    all: destruct H; constructor; cbn in *; try assumption; try done; try (intros; congruence).
    all: try (by rekey kx).
    all: rewrite ?Hcs, ?Hout, ?Hbs, ?Hrecv, ?Hha; try done; try apply prefix_nil; try (by left).
    all: by rewrite Hu.
Qed.

(** *** The request head *)

Lemma past_clear_in n m w : Past n m w -> Past n m (w <| http ::= (fun c => c <| in_ := [] |>) |>).
Proof.
  intros (req & kx & H & Hok & Hh & Hm & Hst). exists req, (kx <| k_in := [] |>).
  split_and!; [|  |done|done|done].
  - destruct H; constructor; cbn in *; try assumption. by rekey kx.
  - destruct Hok as (Hsv & [Hup [_ Hheld]] & Hok).
    assert (held (kx <| k_in := [] |>)) as Hheld' by (split; [done|exact Hheld]).
    unfold request_ok. cbn. split_and!; [done|exact Hup|done|]. destruct (k_state kx); done.
Qed.

Lemma accepted_length kx p : accepted_head kx (k_head_len kx) p -> (k_head_len kx <= length (k_recv kx))%nat.
Proof. intros (buf & rest & -> & _ & _ & _ & H). rewrite length_app. lia. Qed.

(** What [start_backend] leaves: no backend, or one with the head queued. *)
Definition dialled (n : nat) (kx : key) (w : HWorld) : Prop :=
  (base n kBackpressureHigh [] kx w /\ state_ (http w) = ReadingHead /\ closed_ (http w) = false /\
     backend_ (http w) = false) \/
  (state_ (http w) = ReadingHead /\ closed_ (http w) = false /\ read_paused_ (http w) = false /\
     forall st, st <> ReadingHead ->
       base n kBackpressureHigh (k_up kx) (connected_key kx <| k_state := st |>)
         (w <| http ::= (fun c => c <| state_ := st |>) |>)).

(** The two cases as one: [kl] is the key from here on, [req] what the backend is owed. *)
Record begun (n : nat) (kx kl : key) (req : bytes) (w : HWorld) : Prop := {
  bg_reading : state_ (http w) = ReadingHead /\ closed_ (http w) = false;
  bg_same : k_http kl = k_http kx /\ k_recvs kl = k_recvs kx /\ k_remaining kl = k_remaining kx /\ k_in kl = k_in kx /\
            k_head_len kl = k_head_len kx /\ k_recv kl = k_recv kx /\ k_up kl = k_up kx /\ k_paused kl = k_paused kx /\
            k_sever kl = k_sever kx;
  bg_upload : k_upload kl <= upload_low kx;
  bg_live : k_live kl = true /\ req = k_up kx \/ k_live kl = false /\ req = [];
  bg_base : forall st, st <> ReadingHead ->
    base n kBackpressureHigh req (kl <| k_state := st |>) (w <| http ::= (fun c => c <| state_ := st |>) |>)
}.

Lemma dialled_begun n kx w :
  k_live kx = false -> k_upload kx <= upload_low kx -> dialled n kx w -> exists kl req, begun n kx kl req w.
Proof.
  intros Hl Hup [(H & Hs & Hcl & Hb)|(Hs & Hcl & _ & H)]; [exists kx, []|exists (connected_key kx), (k_up kx)];
    (split; [done|done| |auto|]); [done| |unfold upload_low; cbn; lia|done].
  intros st Hst. pose proof (b_ptr _ _ _ _ _ _ _ H) as Hptr. rewrite Hb, andb_false_r in Hptr.
  destruct H; constructor; cbn in *; try assumption; try done.
  - by rekey kx.
  - by left.
  - intros H1 H2. by rewrite H1, H2 in Hptr.
Qed.

Lemma begun_http n kx kl req w :
  begun n kx kl req w ->
  body_remaining_ (http w) = k_remaining kx /\ in_ (http w) = k_in kx /\ head_len_ (http w) = k_head_len kx.
Proof.
  intros [_ (_ & _ & E3 & E4 & E5 & _) _ _ Hbase]. pose proof (b_key _ _ _ _ _ _ _ (Hbase Streaming ltac:(done))) as Hkey.
  rewrite <- E3, <- E4, <- E5. revert Hkey. clear. destruct kl. unfold key_of. cbn. intros. split_and!; congruence.
Qed.

Lemma upload_restarted kx kl st :
  k_up kl = k_up kx -> k_upload kl <= upload_low kx -> k_upload kl <= upload_high (kl <| k_state := st |>).
Proof. intros E H. unfold upload_high, upload_low in *. cbn. rewrite E. unfold kMaxHead, kBuf. lia. Qed.

(** A request without a body is sent whole with its head. *)
Lemma begun_bodiless n kx kl req p w :
  begun n kx kl req w -> k_sever kx = false -> held kx -> accepted_head kx (k_head_len kx) p -> k_remaining kx = p_body p ->
  k_remaining kx = 0 -> request_ok (kl <| k_state := Streaming |>) req.
Proof.
  intros [_ (_ & _ & E3 & E4 & E5 & E6 & E7 & _ & E9) Hupl Hlive _] Hsv Hheld Hacc Hrem H0.
  assert (k_up kx = p_upstream p) as Hupstream by by destruct Hacc as (buf & rest & _ & _ & A3 & _).
  assert (accepted_head kl (k_head_len kl) p) as Hacc'.
  { destruct Hacc as (buf & rest & A1 & A2 & A3 & A4 & A5). exists buf, rest. by rewrite E6, E7, E5. }
  assert (held (kl <| k_state := Streaming |>)) as Hheld' by (unfold held; cbn; by rewrite E4, E7).
  split_and!; [by cbn; rewrite E9| |done|]; cbn.
  { by apply (upload_restarted kx). }
  destruct Hlive as [[_ ->]|[Hlv ->]]; [right|by left].
  exists p. assert (body_of (k_head_len kl) p (k_recv kl) = []) as Hnil.
  { unfold body_of. by replace (Z.to_nat (p_body p)) with O by lia. }
  rewrite Hnil, app_nil_r, <- Hupstream. split_and!; [done|done|]. intros _.
  split; [|right; split; [done|by rewrite E3]].
  split; cbn; rewrite Hnil, ?app_nil_r; [done|]. unfold size. cbn. lia.
Qed.

(** A request with a body is about to forward what came with its head. *)
Lemma begun_uploading n kx kl req p w :
  begun n kx kl req w -> k_sever kx = false -> k_paused kx = false ->
  accepted_head kx (k_head_len kx) p -> k_in kx = k_recv kx -> held kx ->
  k_remaining kx = p_body p -> 0 < k_remaining kx ->
  uploading (kl <| k_state := StreamingUp |>) p (take (k_head_len kx) (k_in kx)) (drop (k_head_len kx) (k_in kx)) req.
Proof.
  intros [_ (_ & _ & E3 & E4 & E5 & E6 & E7 & E8 & E9) Hupl Hlive _] Hsv Hp Hacc Hin Hheld Hrem Hpos.
  assert (size (k_in kx) <= kMaxHead + kBuf) as Hsz by apply Hheld.
  assert (held (kl <| k_state := StreamingUp |>)) as Hheld' by (unfold held; cbn; by rewrite E4, E7).
  unfold uploading. cbn. rewrite E5, E6, E8, E9, E3, <- Hin.
  destruct Hacc as (buf & rest & A1 & A2 & A3 & A4 & A5).
  assert (k_head_len kx <= length (k_in kx))%nat as Hhead by (rewrite Hin, A1, length_app; lia).
  assert (body_of (k_head_len kx) p (take (k_head_len kx) (k_in kx)) = []) as Hnil.
  { unfold body_of. rewrite drop_ge; [by destruct (Z.to_nat (p_body p))|]. rewrite length_take. lia. }
  rewrite Hnil, app_nil_r. split_and!; try done.
  - exists buf, rest. cbn. by rewrite E7, Hin.
  - rewrite length_take. lia.
  - by rewrite take_drop.
  - unfold upload_high, upload_low in *. cbn. rewrite E7. lia.
  - unfold size in *. rewrite length_drop. unfold kMaxHead, kBuf in *. lia.
  - destruct Hlive as [[_ ->]|[_ ->]]; [by rewrite A3|apply prefix_nil].
  - destruct Hlive as [[_ ->]|[? ->]]; [|congruence]. intros _. split; [split|].
    + cbn. by rewrite Hnil, app_nil_r.
    + cbn. rewrite Hnil, Hrem. unfold size. cbn. lia.
    + lia.
Qed.

(** [process_head] once the head is accepted and the backend dialled. *)
Lemma wp_begin_stream n m kx p fl w :
  k_http kx = true -> (length (k_recvs kx) < m)%nat -> flush_ok n fl ->
  k_sever kx = false -> k_live kx = false -> k_paused kx = false ->
  k_upload kx <= upload_low kx ->
  accepted_head kx (k_head_len kx) p -> k_in kx = k_recv kx -> held kx ->
  k_remaining kx = p_body p -> dialled n kx w ->
  WP (let? c := hget (fun c => c) in
      if bool_decide (state_ c = Closing) || closed_ c then rret tt
      else
        (if body_remaining_ c =? 0 then hset (fun c => c <| state_ := Streaming |>)
         else
           hset (fun c => c <| state_ := StreamingUp |>) ;?
           rwhen (0 <? wrap_u 64 (size (in_ c) - Z.of_nat (head_len_ c)))
             (forward_body fl (drop (head_len_ c) (in_ c)))) ;?
        hset (fun c => c <| in_ := [] |>)) (fun _ => Past n m) w.
Proof.
  intros Hh Hm Hfl Hsv Hl Hp Hup Hacc Hin Hheld Hrem Hcase. assert (size (k_in kx) <= kMaxHead + kBuf) as Hsz by apply Hheld.
  pose proof (accepted_body _ _ _ Hacc) as Hp0. pose proof (accepted_length _ _ Hacc) as Hhead. rewrite <- Hin in Hhead.
  destruct (dialled_begun _ _ _ Hl Hup Hcase) as (kl & req & Hbg). clear Hcase.
  destruct (begun_http _ _ _ _ _ Hbg) as (Hwr & Hwi & Hwh).
  pose proof Hbg as [[Hs Hcl] (E1 & E2 & _) _ _ Hbase].
  wstep. wstep. rewrite Hs, Hcl, Hwr, Hwi, Hwh. cbn [bool_decide orb]. unfold bool_decide. cbn [decide].
  wstep; [done|]. wstep. wstep; bool_to_prop.
  - wstep. wstep. apply past_clear_in. exists req, (kl <| k_state := Streaming |>).
    split_and!; [by apply Hbase|by eapply begun_bodiless|by rewrite <- Hh|by cbn; rewrite E2|done].
  - wstep. wstep. pose proof (Hbase StreamingUp ltac:(done)) as Hsup.
    assert (wrap_u 64 (size (k_in kx) - Z.of_nat (k_head_len kx)) = size (drop (k_head_len kx) (k_in kx))) as ->.
    { unfold size in *. rewrite length_drop, wrap_u_id; [lia|]. unfold in_u, kMaxHead, kBuf in *.
      change (2 ^ 64) with 18446744073709551616. lia. }
    assert (0 < k_remaining kx) as Hpos by lia.
    pose proof (begun_uploading _ _ _ _ _ _ Hbg Hsv Hp Hacc Hin Hheld Hrem Hpos) as Hul.
    wstep.
    + eapply wp_mono; [eapply (wp_forward_body n m); [exact Hsup|exact Hul|by rewrite <- Hh|by cbn; rewrite E2|done]|].
      intros ? w2 H2. wstep. by apply past_clear_in.
    + bool_to_prop. wstep. apply past_clear_in. eapply inv_idle; [exact Hsup| |by rewrite <- Hh|by cbn; rewrite E2].
      assert (drop (k_head_len kx) (k_in kx) = []) as Hrest by (apply length_zero_iff_nil; unfold size in *; lia).
      rewrite Hrest in Hul. exact Hul.
Qed.

Lemma past_closing n m kx w :
  base n kBackpressureHigh [] (closing kx) w -> k_sever kx = false -> k_upload kx <= upload_high kx -> held kx ->
  k_http kx = true -> (length (k_recvs kx) < m)%nat -> Past n m w.
Proof.
  intros H Hsv Hup Hheld Hh Hm. exists [], (closing kx). split_and!; try done.
  split_and!; [done|exact Hup|exact Hheld|]. by left.
Qed.

(** What holds of a connection still reading the head. *)
Definition reading_head (kx : key) : Prop :=
  k_state kx = ReadingHead /\ k_in kx = k_recv kx /\ k_live kx = false /\ k_paused kx = false /\
  k_sever kx = false /\ k_upload kx <= upload_high kx /\ k_http kx = true.

Lemma upload_low_nonneg kx : kBackpressureHigh <= upload_low kx.
Proof. unfold upload_low. lia. Qed.
Lemma upload_low_high kx : upload_low kx <= upload_high kx.
Proof. unfold upload_high, kMaxHead, kBuf. lia. Qed.

(** The head is a request for a backend. *)
Lemma wp_proxy_head n m kx pret method path hs hl p fl w :
  base n kBackpressureHigh [] kx w -> reading_head kx -> held kx ->
  (length (k_recvs kx) < m)%nat -> flush_ok n fl ->
  state_ (http w) = ReadingHead -> closed_ (http w) = false ->
  phr_parse_request (k_in kx) = Parsed pret method path hs -> k_head_len kx = pret ->
  decide_head router max_body_ (length (k_in kx)) (Parsed pret method path hs) = Proxy hl p ->
  WP (hset (fun c => c <| upstream_ := p_upstream p |> <| backend_target_ := p_backend p |>
                       <| body_remaining_ := p_body p |>) ;?
      start_backend mono fl ;?
      let? c := hget (fun c => c) in
      if bool_decide (state_ c = Closing) || closed_ c then rret tt
      else
        (if body_remaining_ c =? 0 then hset (fun c => c <| state_ := Streaming |>)
         else
           hset (fun c => c <| state_ := StreamingUp |>) ;?
           rwhen (0 <? wrap_u 64 (size (in_ c) - Z.of_nat (head_len_ c)))
             (forward_body fl (drop (head_len_ c) (in_ c)))) ;?
        hset (fun c => c <| in_ := [] |>)) (fun _ => Past n m) w.
Proof.
  intros H (Hst & Hin & Hl & Hp & Hsv & Hup & Hh) Hsz Hm Hfl Hs Hcl Hphr Hpret Hd.
  destruct (b_reading _ _ _ _ _ _ _ H Hs) as (Ha & _).
  assert (read_paused_ (http w) = false) as Hrp by by rewrite (base_paused _ _ _ _ _ H).
  set (kx2 := kx <| k_upload := 0 |> <| k_up := p_upstream p |> <| k_remaining := p_body p |>).
  wstep. wstep. set (w2 := w <| http ::= _ |>).
  assert (base n kBackpressureHigh [] kx2 w2) as H2.
  { assert (back_alive w2 = false) as Ha2 by exact Ha.
    destruct H; constructor; cbn in *; try assumption; try congruence.
    - subst kx2. by rekey kx.
    - by rewrite (b_empty Ha2). }
  assert (accepted_head kx2 (k_head_len kx2) p) as Hacc.
  { assert (hl = pret) as ->.
    { unfold decide_head in Hd. case_match; [done|]. destruct (decide_proxy _ _ _ _ _); congruence. }
    exists (k_in kx), []. cbn. rewrite app_nil_r, Hpret. split_and!; try done; [by rewrite Hphr|by eapply phr_fits]. }
  assert (held kx2) as Hheld2.
  { split; [apply Hsz|]. cbn. rewrite <- Hphr in Hd. pose proof (upstream_fits _ _ _ _ _ _ phr_fits Hd) as Hfit.
    pose proof (proj1 Hsz) as Hi. unfold kMaxUpstream in *. lia. }
  pose proof (upload_low_nonneg kx2) as Hlow. unfold kBackpressureHigh in Hlow.
  wstep. eapply wp_mono; [by apply (wp_start_backend n kx2)|]. intros ? w3 [H3|H3].
  - assert (state_ (http w3) = Closing) as Hs3 by (by destruct (b_state _ _ _ _ _ _ _ H3)).
    wstep. wstep. rewrite Hs3. cbn. eapply past_closing; [exact H3|done| |done..].
    pose proof (upload_low_high kx2). change (0 <= upload_high kx2). lia.
  - apply (wp_begin_stream n m kx2 p); try done. change (0 <= upload_low kx2). lia.
Qed.

Lemma wp_process_head n m kx fl w :
  base n kBackpressureHigh [] kx w -> reading_head kx -> held kx ->
  (length (k_recvs kx) < m)%nat -> flush_ok n fl ->
  state_ (http w) = ReadingHead -> closed_ (http w) = false ->
  WP (process_head mono phr_parse_request router max_body_ probe start start_wall snapshot fl)
    (fun _ => Inv n m) w.
Proof.
  intros H (Hst & Hin & Hl & Hp & Hsv & Hup & Hh) Hsz Hm Hfl Hs Hcl.
  unfold process_head. wstep. wstep. cbv zeta.
  assert (in_ (http w) = k_in kx) as -> by by destruct H as [<- _ _ _].
  destruct (b_reading _ _ _ _ _ _ _ H Hs) as (Ha & Hresp & _ & _).
  assert (backend_ (http w) = false) as Hb.
  { pose proof (b_ptr _ _ _ _ _ _ _ H) as Hptr. rewrite (base_http _ _ _ _ _ _ _ H), Hh, Ha in Hptr. done. }
  assert (read_paused_ (http w) = false) as Hrp by by rewrite (base_paused _ _ _ _ _ H).
  assert (forall kx w', base n kBackpressureHigh [] kx w' -> k_sever kx = false -> k_upload kx <= upload_high kx -> held kx ->
            k_http kx = true -> (length (k_recvs kx) < m)%nat ->
            responded_ (http w') = false -> backend_ (http w') = false ->
            forall r, own_response r -> WP (send_response mono r) (fun _ => Inv n m) w') as Hrefuse.
  { intros kx' w' H' ? ? ? ? ? ? ? r Hr. eapply wp_mono; [by apply (wp_refuse n [] kx')|].
    intros ? w2 Hw2. apply past_inv. eapply past_closing; [exact Hw2|done..]. }
  destruct (phr_parse_request (k_in kx)) as [| |pret method path hs] eqn:Hphr.
  - wstep. wstep. cbn [decide_head]. destruct (kMaxHead <? _) eqn:Hmax; bool_to_prop.
    + eapply Hrefuse; [exact H|done..|apply own_error].
    + wstep. exists [], kx. split_and!; [done| |done|done]. split_and!; [done|done|done|]. rewrite Hst.
      by split_and!.
  - wstep. wstep. eapply Hrefuse; [exact H|done..|apply own_error].
  - wstep. wstep. set (kx1 := kx <| k_head_len := pret |>).
    set (w1 := w <| http ::= (fun c => c <| head_len_ := pret |>) |>).
    assert (base n kBackpressureHigh [] kx1 w1) as H1.
    { destruct H; constructor; cbn in *; try assumption. subst kx1. by rekey kx. }
    assert (forall r, own_response r -> WP (send_response mono r) (fun _ => Inv n m) w1) as Href1
      by (intros r; by eapply Hrefuse).
    destruct (decide_head _ _ _ _) as [|e|meth target|hl p] eqn:Hd.
    + unfold decide_head in Hd. case_match; [done|]. by destruct (decide_proxy _ _ _ _ _).
    + apply Href1, own_error.
    + unfold answer_internal, now. wsteps. eapply (Hrefuse kx1); [|done..|].
      * same H1.
      * right. eexists _, _, _. reflexivity.
    + eapply wp_mono; [eapply (wp_proxy_head n m kx1); try done; split_and!; done|intros ? w4; apply past_inv].
Qed.

(** *** Bytes from the client *)

(** The key once [data] has been received. *)
Definition received (kx : key) (data : bytes) (r : list (IoStatus * bytes)) : key :=
  kx <| k_recv ::= (fun l => l ++ data) |> <| k_recvs := r |>.

Lemma accepted_received kx data r p :
  accepted_head kx (k_head_len kx) p -> accepted_head (received kx data r) (k_head_len kx) p.
Proof.
  intros (buf & rest & H1 & H2 & H3 & H4 & H5). exists buf, (rest ++ data). cbn.
  by rewrite H1, <- (assoc_L app).
Qed.

(** Without a backend, what more the client sends changes nothing. *)
Lemma inv_dead n m req kx data r w :
  base n kBackpressureHigh req (received kx data r) w -> request_ok kx req -> k_http kx = true ->
  (length r < m)%nat -> state_ (http w) <> ReadingHead ->
  backend_ (http w) = false \/ state_ (http w) <> k_state kx \/ k_live kx = false -> Past n m w.
Proof.
  intros H (Hsv & Hup & Hok) Hh Hm Hs Hdead.
  assert (back_alive w = true -> client (back w) = true -> False) as Hno.
  { intros Ha Hc. destruct (b_live _ _ _ _ _ _ _ H Ha Hc) as (Hl & Hst & _). cbn in Hl, Hst.
    pose proof (b_ptr _ _ _ _ _ _ _ H) as Hp. rewrite Ha, Hc in Hp.
    apply andb_true_iff in Hp as [_ Hb]. destruct Hdead as [?|[?|?]]; congruence. }
  pose proof (b_orphan _ _ _ _ _ _ _ H) as Ho.
  exists req, ((received kx data r) <| k_state := state_ (http w) |> <| k_live := false |>).
  split_and!; [| |done|done|done].
  - eapply base_rekey; [exact H| |by left| | |].
    + destruct H. unfold received. by rekey kx.
    + intros Ha Hc. by destruct (Hno Ha Hc).
    + exact Ho.
    + apply (b_queue _ _ _ _ _ _ _ H).
  - split_and!; [done|exact (proj1 Hup)|exact (proj2 Hup)|]. cbn.
    assert ((req = [] /\ false = false) \/
            exists p, accepted_head kx (k_head_len kx) p /\
              req `prefix_of` p_upstream p ++ body_of (k_head_len kx) p (k_recv kx)) as Hcase.
    { destruct (k_state kx); [left; by destruct Hok as (_ & -> & _)|..];
        (destruct Hok as [[-> _]|(p & ? & ? & _)]; [by left|right; by exists p]). }
    destruct (state_ (http w)); [done|..].
    all: destruct Hcase as [?|(p & Hacc & Hpre)]; [by left|right].
    all: exists p; split_and!; [exact (accepted_received kx data r p Hacc)| |done].
    all: etrans; [exact Hpre|]; apply prefix_app, prefix_body; by eapply accepted_length.
Qed.

(** More of the body. *)
Lemma wp_body_bytes n m req kx data r fl w :
  base n kBackpressureHigh req (received kx data r) w -> request_ok kx req -> k_http kx = true ->
  (length r < m)%nat -> size data <= kBuf -> k_paused kx = false -> flush_ok n fl ->
  state_ (http w) = StreamingUp -> k_state kx = StreamingUp ->
  WP (forward_body fl data) (fun _ => Past n m) w.
Proof.
  intros H Hreq Hh Hm Hsz Hp Hfl Hst Hs. pose proof Hreq as (Hsv & Hup & Hok). rewrite Hs in Hok.
  destruct (k_live kx) eqn:Hl.
  - destruct Hok as [[_ ?]|(p & Hacc & Hpre & Hlive)]; [done|].
    destruct (Hlive eq_refl) as [Hst' [(_ & Hpos & Hlow)|[? _]]]; [|done].
    apply (wp_forward_body n m req (received kx data r) p (k_recv kx)); try done.
    split_and!; cbn; try done.
    + exact (accepted_received kx data r p Hacc).
    + by eapply accepted_length.
    + specialize (Hlow Hp). unfold upload_high.
      lazymatch goal with |- context [upload_low ?k] => change (upload_low k) with (upload_low kx) end. lia.
    + exact (proj2 Hup).
    + unfold kMaxHead. lia.
  - assert (backend_ (http w) = false) as Hb.
    { apply not_true_is_false. intros Hb.
      destruct (base_backend _ _ _ _ _ _ _ (Hh : k_http (received kx data r) = true) H Hb) as [Ha Hc].
      destruct (b_live _ _ _ _ _ _ _ H Ha Hc) as (Hl' & _). cbn in Hl'. congruence. }
    unfold forward_body. wstep. wstep. rewrite Hb. wstep.
    eapply inv_dead; [exact H|done..| |by left]. by rewrite Hst.
Qed.

(** What comes after the body is thrown away. *)
Lemma past_extra n m req kx data r w :
  base n kBackpressureHigh req (received kx data r) w -> request_ok kx req -> k_http kx = true -> (length r < m)%nat ->
  state_ (http w) = Streaming -> k_state kx = Streaming -> Past n m w.
Proof.
  intros H Hreq Hh Hm Hst Hs. pose proof Hreq as (Hsv & Hup & Hok).
  destruct (k_live kx) eqn:Hl; [|eapply inv_dead; [exact H|done..|by rewrite Hst|by auto]].
  rewrite Hs in Hok. destruct Hok as [[_ ?]|(p & Hacc & Hpre & Hlive)]; [done|].
  destruct (Hlive eq_refl) as [[Hst1 Hst2] [(? & _)|[_ Hrem]]]; [done|].
  exists req, (received kx data r). split_and!; [done| |done|done|by cbn; rewrite Hs].
  split_and!; [done|exact (proj1 Hup)|exact (proj2 Hup)|]. cbn. rewrite Hs. right. exists p.
  pose proof (accepted_body _ _ _ Hacc) as [Hp0 _].
  assert (body_of (k_head_len kx) p (k_recv kx ++ data) = body_of (k_head_len kx) p (k_recv kx)) as Hbo.
  { apply body_of_done; [by eapply accepted_length|done|lia]. }
  split_and!; [exact (accepted_received kx data r p Hacc)|by rewrite Hbo|].
  intros _. split; [|by right]. split; cbn; by rewrite Hbo.
Qed.

Lemma wp_handle_client_bytes n m req kx data r fl w :
  base n kBackpressureHigh req (received kx data r) w -> request_ok kx req -> k_http kx = true ->
  (length r < m)%nat -> size data <= kBuf -> k_paused kx = false -> closed_ (http w) = false ->
  flush_ok n fl ->
  WP (handle_client_bytes mono phr_parse_request router max_body_ probe start start_wall snapshot fl data)
    (fun _ => Inv n m) w.
Proof.
  intros H Hreq Hh Hm Hsz Hp Hcl Hfl. pose proof (Hreq) as (Hsv & Hup & Hok).
  pose proof (b_state _ _ _ _ _ _ _ H) as Hs. cbn in Hs.
  unfold handle_client_bytes. wstep. wstep. destruct (state_ (http w)) eqn:Hst.
  - destruct Hs as [Hs|]; [|done]. rewrite <- Hs in Hok. destruct Hok as (Hin & -> & Hl & _ & Hsi).
    wstep. wstep. set (kx' := (received kx data r) <| k_in ::= (fun i => i ++ data) |>).
    set (w1 := w <| http ::= _ |>).
    assert (base n kBackpressureHigh [] kx' w1) as H1.
    { destruct H; constructor; cbn in *; try assumption. subst kx'. unfold received. by rekey kx. }
    apply (wp_process_head n m kx'); [exact H1| | |done|done|done|done].
    + split_and!; cbn; try done; [by rewrite Hin|exact (proj1 Hup)].
    + split; cbn; [|exact (proj2 (proj2 Hup))].
      unfold kMaxIn, size in *. rewrite length_app, Nat2Z.inj_add. unfold kMaxHead in *. lia.
  - destruct Hs as [Hs|]; [|done]. eapply wp_mono; [by eapply wp_body_bytes|]. intros ? w1. apply past_inv.
  - wstep. apply past_inv. destruct Hs as [Hs|]; [|done]. by eapply past_extra.
  - wstep. apply past_inv. destruct (decide (k_state kx = Closing)) as [Hk|Hk].
    + eapply inv_dead; [exact H|done..|by rewrite Hst|]. right. right. rewrite Hk in Hok.
      destruct (k_live kx); [|done].
      destruct Hok as [[_ ?]|(p & _ & _ & Hlive)]; [done|].
      by destruct (Hlive eq_refl) as [_ [(? & _)|(? & _)]].
    + eapply inv_dead; [exact H|done..|by rewrite Hst|]. right. left. by rewrite Hst.
Qed.

(** *** Reading the client, and driving the connection *)

Notation run_pump_read_loop :=
  (pump_read_loop mono phr_parse_request router max_body_ probe start start_wall snapshot).
Notation run_drive := (drive mono phr_parse_request router max_body_ probe start start_wall snapshot).
Notation run_flush := (flush mono phr_parse_request router max_body_ probe start start_wall snapshot).

Lemma inv_fewer n m m' w : Inv n m w -> (m <= m')%nat -> Inv n m' w.
Proof. intros (req & kx & H1 & H2 & H3 & H4) Hm. exists req, kx. split_and!; [done..|lia]. Qed.

(** Updates of the world that the invariant does not see. *)
Lemma inv_update n m w w' :
  Inv n m w -> (forall req kx, base n kBackpressureHigh req kx w -> base n kBackpressureHigh req kx w') ->
  Inv n m w'.
Proof. intros (req & kx & H1 & H2) Hup. exists req, kx. split; [by apply Hup|done]. Qed.

Lemma wp_inv {A} n m (c : R A) w :
  Inv n m w ->
  (forall req kx, base n kBackpressureHigh req kx w -> k_http kx = true ->
     WP c (fun _ => base n kBackpressureHigh req kx) w) ->
  WP c (fun _ => Inv n m) w.
Proof.
  intros (req & kx & H1 & H2 & H3 & H4) Hc. eapply wp_mono; [by apply Hc|].
  intros a w' H'. by exists req, kx.
Qed.

Lemma wp_inv_close n m w : Inv n m w -> WP close_both (fun _ => Inv n m) w.
Proof.
  intros H. apply wp_inv; [done|]. intros req kx H1 Hh.
  eapply wp_mono; [by apply wp_close_both|]. by intros ? w' [H' _].
Qed.

Lemma wp_inv_interest n m ev w : Inv n m w -> WP (set_interest ev) (fun _ => Inv n m) w.
Proof. intros H. apply wp_inv; [done|]. intros req kx H1 Hh. by apply wp_set_interest. Qed.

(** A result of [recv] that brings no bytes. *)
Lemma inv_nothing n m st d r w :
  Inv n (S m) w -> e_recv (sys w) = (st, d) :: r ->
  Inv n m (w <| sys ::= (fun e => e <| e_recv := r |>) |> <| client_recv ::= (fun l => l ++ []) |>).
Proof.
  intros (req & kx & H1 & (Hsv & Hup & Hok) & H3 & H4) He. exists req, (kx <| k_recvs := r |>).
  assert (k_recvs kx = (st, d) :: r) as Hr.
  { rewrite <- (b_key _ _ _ _ _ _ _ H1), <- He. by destruct kx. }
  rewrite Hr in H4. cbn in H4. split_and!; [| |done|cbn; lia].
  - destruct H1; constructor; cbn in *; try assumption. rewrite app_nil_r. by rekey kx.
  - split_and!; [done|exact (proj1 Hup)|exact (proj2 Hup)|]. destruct kx as [[] ? ? ? ? ? ? ? ? ? ? ? ?]; exact Hok.
Qed.

Lemma wp_pump_read_loop fuel n m w :
  Inv n m w -> (m <= fuel)%nat -> closed_ (http w) = false ->
  WP (run_pump_read_loop fuel) (fun _ => Inv n m) w.
Proof.
  revert m w. induction fuel as [|fuel IH]; intros m w H Hf Hcl.
  { destruct H as (? & ? & _ & _ & _ & Hm). lia. }
  cbn [pump_read_loop]. wstep. wstep. destruct (_ || _) eqn:Hp; [by wstep|].
  apply orb_false_iff in Hp as [Hp _].
  wstep. apply wp_transport_recv; [intros _; by wstep|]. intros st d r He data.
  destruct m as [|m]; [destruct H as (? & ? & _ & _ & _ & Hm); lia|].
  assert (st <> IoOk -> Inv n (S m) (w <| sys ::= (fun e => e <| e_recv := r |>) |>
                                      <| client_recv ::= (fun l => l ++ data) |>)) as Hno.
  { intros Hst. unfold data. rewrite decide_False by done. eapply inv_fewer; [by eapply inv_nothing|lia]. }
  destruct st.
  - clear Hno. destruct H as (req & kx & H1 & Hok & Hh & Hm).
    assert (size data <= kBuf) as Hsz by apply size_take.
    assert (k_recvs kx = (IoOk, d) :: r) as Hr.
    { rewrite <- (b_key _ _ _ _ _ _ _ H1), <- He. by destruct kx. }
    rewrite Hr in Hm. cbn in Hm. clearbody data.
    assert (k_paused kx = false) as Hkp by by rewrite <- (base_paused _ _ _ _ _ H1).
    unfold touch, now. wsteps.
    eapply wp_mono; [apply (wp_handle_client_bytes n m req kx data r)|]; try done.
    + destruct H1; constructor; cbn in *; try assumption. unfold received. by rekey kx.
    + lia.
    + apply flush_ok_with.
    + intros ? w2 H2. wstep. wstep. destruct (closed_ (http w2)) eqn:Hc2.
      * wstep. eapply inv_fewer; [exact H2|lia].
      * eapply wp_mono; [apply (IH m); [done|lia|done]|]. intros ? w3 H3. eapply inv_fewer; [exact H3|lia].
  - wstep. by apply Hno.
  - wstep. by apply Hno.
  - specialize (Hno ltac:(done)). wstep. wstep. destruct (_ || _).
    + wstep. wstep. wstep. eapply inv_update; [exact Hno|]. intros req kx H1. same H1.
    + wstep. eapply wp_mono; [by apply wp_inv_close|]. intros ? w2 H2. by wstep.
  - specialize (Hno ltac:(done)). wstep. eapply wp_mono; [by apply wp_inv_close|].
    intros ? w2 H2. by wstep.
Qed.

Definition reads_client (n m : nat) (pr : R IoStatus) : Prop :=
  forall w, Inv n m w -> closed_ (http w) = false -> WP pr (fun _ => Inv n m) w.

Lemma wp_drive_with n m pr w :
  reads_client n m pr -> Inv n m w -> WP (drive_with mono pr) (fun _ => Inv n m) w.
Proof.
  intros Hpr H. unfold drive_with. cbv zeta.
  assert (forall w, Inv n m w -> closed_ (http w) = false ->
            WP (let? st := pr in
                hset (fun c => c <| read_block_ := st |>) ;?
                let? closed := hget closed_ in
                if closed then rret tt else write_and_watch (pump_write mono) (rret tt))
              (fun _ => Inv n m) w) as Hpump.
  { clear w H. intros w H Hc. wstep. eapply wp_mono; [by apply Hpr|]. intros st w1 H1.
    wstep. wstep. wstep. wstep.
    assert (Inv n m (w1 <| http ::= (fun c => c <| read_block_ := st |>) |>)) as H2
      by (eapply inv_update; [exact H1|]; intros req kx Hb; same Hb).
    revert H2. generalize (w1 <| http ::= (fun c => c <| read_block_ := st |>) |>). clear w1 H1. intros w1 H1.
    destruct (closed_ (http w1)); [by wstep|]. apply wp_inv; [done|]. intros req kx Hb Hh.
    eapply wp_write_and_watch; [done|done|apply pump_write_pumps, own_error|exact Hb|].
    intros w3 H3. by wstep. }
  wstep. wstep. destruct (closed_ (http w)) eqn:Hc; [by wstep|].
  destruct (handshake_done_ (http w)); [by apply Hpump|].
  assert (forall st r, e_handshake (sys w) = st :: r ->
    Inv n m (w <| sys ::= (fun e => e <| e_handshake := r |>) |>)) as Hs
    by (intros st r _; eapply inv_update; [exact H|]; intros req kx Hb; same Hb).
  wstep. unfold wp at 1, transport_handshake. destruct (e_handshake (sys w)) as [|st r] eqn:He.
  { by apply wp_inv_interest. }
  specialize (Hs st r eq_refl). destruct st.
  - wstep. wstep. wstep. apply (wp_mono _ _ (fun _ w' => Inv n m w' /\ closed_ (http w') = false)).
    + unfold touch, now. wsteps. split; [|done]. eapply inv_update; [exact Hs|].
      intros req kx Hb. same Hb.
    + intros ? w' [H' Hc']. by apply Hpump.
  - by apply wp_inv_interest.
  - by apply wp_inv_interest.
  - by apply wp_inv_close.
  - by apply wp_inv_close.
Qed.

Lemma wp_drive n m w : Inv n m w -> WP run_drive (fun _ => Inv n m) w.
Proof.
  intros H. apply wp_drive_with; [|done]. clear w H. intros w H Hc. unfold pump_read. wstep. wstep.
  pose proof H as (req & kx & H1 & H2 & H3 & H4).
  assert (k_recvs kx = e_recv (sys w)) as Hr by by destruct H1 as [<- _ _ _].
  eapply wp_mono; [apply (wp_pump_read_loop _ n (S (length (e_recv (sys w))))); [|done..]|].
  - exists req, kx. split_and!; [done..|]. rewrite Hr. lia.
  - intros ? w' H'. eapply inv_fewer; [exact H'|]. rewrite Hr in H4. lia.
Qed.
(** *** The backend's side of the events *)

Lemma wp_interest_orphan n req kx w :
  base n kBackpressureHigh req kx w -> WP apply_interest (fun _ => base n kBackpressureHigh req kx) w.
Proof.
  intros H. unfold apply_interest. wstep. wstep. wstep; [by wstep|]. wsteps.
  cbn. destruct (decide (back_alive w = true)) as [Ha|Ha%not_true_is_false].
  - rewrite (if_true _ _ _ Ha). destruct H; constructor; cbn; try assumption. done.
  - assert (forall A (x y : A), (if back_alive w then x else y) = y) as -> by by rewrite Ha.
    destruct H; constructor; cbn; try assumption; intros; congruence.
Qed.

Lemma request_drained kx req :
  request_ok kx req -> request_ok (kx <| k_paused := false |> <| k_upload := kBackpressureLow |>) req.
Proof.
  set (kx' := kx <| k_paused := false |> <| k_upload := kBackpressureLow |>).
  assert (kBackpressureLow <= upload_low kx') as Hlow.
  { pose proof (upload_low_nonneg kx'). unfold kBackpressureHigh, kBackpressureLow in *. lia. }
  pose proof (upload_low_high kx') as Hhigh.
  intros (Hsv & Hup & Hok). split_and!; [done|change (kBackpressureLow <= upload_high kx'); lia|exact (proj2 Hup)|]. cbn.
  destruct (k_state kx); [tauto|..].
  all: destruct Hok as [?|(p & H1 & H2 & H3)]; [by left|right; exists p; split_and!; [done|done|]].
  all: intros Hl; destruct (H3 Hl) as [Hs [(? & ? & _)|[? ?]]]; (split; [exact Hs|]).
  all: try by left. all: by right.
Qed.

Lemma wp_on_backend_drained n m req kx w :
  base n kBackpressureHigh req kx w -> request_ok kx req -> k_http kx = true ->
  (length (k_recvs kx) < m)%nat -> size (bout (back w)) < kBackpressureLow ->
  WP (on_backend_drained_with run_drive) (fun _ => Inv n m) w.
Proof.
  intros H Hok Hh Hm Hsz. unfold on_backend_drained_with. wstep. wstep.
  destruct (_ || _); [wstep; by exists req, kx|]. wstep. wstep. apply wp_drive.
  exists req, (kx <| k_paused := false |> <| k_upload := kBackpressureLow |>).
  split_and!; [|by apply request_drained|done|done].
  pose proof (b_state _ _ _ _ _ _ _ H) as Hs. pose proof (b_live _ _ _ _ _ _ _ H) as Hlv.
  pose proof (b_orphan _ _ _ _ _ _ _ H) as Ho.
  destruct H; constructor; cbn in *; try assumption; [by rekey kx| |lia].
  intros H1 H2. destruct (Hlv H1 H2) as (? & ? & _). split_and!; [done..|lia].
Qed.

Lemma wp_flush n m req kx w :
  base n kBackpressureHigh req kx w -> request_ok kx req -> (length (k_recvs kx) < m)%nat ->
  client (back w) = true -> k_back kx = true ->
  WP run_flush (fun _ => Inv n m) w.
Proof.
  intros H Hok Hm Hc Hk. destruct (base_client _ _ _ _ _ _ _ Hk H Hc) as [Ha _].
  assert (k_http kx = true) as Hh by by rewrite <- (base_http _ _ _ _ _ _ _ H).
  assert (forall w', base n kBackpressureHigh req kx w' -> Inv n m w') as Hinv
    by (intros w' H'; by exists req, kx).
  apply (wp_flush_with n req kx); [done..| | |].
  - intros w1 H1 _. by apply Hinv.
  - intros w1 H1 _ _. eapply wp_mono; [by apply wp_interest_orphan|]. intros ? w2. apply Hinv.
  - intros w1 H1 _ _ Hsz _. eapply wp_mono; [by eapply wp_on_backend_drained|].
    intros ? w2 (req2 & kx2 & H2 & H3). eapply wp_mono; [by apply wp_interest_orphan|].
    intros ? w3 Hw3. exists req2, kx2. by split.
Qed.

Lemma wp_fail n req kx why w :
  base n kBackpressureHigh req kx w -> k_back kx = true ->
  WP (fail mono why) (fun _ => base n kBackpressureHigh req kx) w.
Proof.
  intros H Hk. apply (wp_fail_with own_response allowed wf req kx own_error n kBackpressureHigh);
    [done|apply pump_write_pumps, own_error| |done].
  by apply base_severable.
Qed.

Lemma wp_back_on_writable n m req kx w :
  base n kBackpressureHigh req kx w -> request_ok kx req -> (length (k_recvs kx) < m)%nat ->
  client (back w) = true -> k_back kx = true ->
  WP (back_on_writable mono phr_parse_request router max_body_ probe start start_wall snapshot)
    (fun _ => Inv n m) w.
Proof.
  intros H Hok Hm Hc Hk. destruct (base_client _ _ _ _ _ _ _ Hk H Hc) as [Ha _].
  assert (k_http kx = true) as Hh by by rewrite <- (base_http _ _ _ _ _ _ _ H).
  unfold back_on_writable. wstep. wstep. wstep; [by eapply wp_flush|]. wstep. wstep. wstep.
  - eapply wp_mono; [by apply wp_fail|]. intros ? w1 H1. by exists req, kx.
  - wstep. wstep. wstep. apply (wp_mono _ _ (fun _ w' => base n kBackpressureHigh req kx w' /\ client (back w') = true)).
    + unfold btouch, now. wsteps. split; [|done]. same H.
    + intros ? w1 [H1 Hc1]. by eapply wp_flush.
Qed.

(** *** The pair, between events *)

Definition Pair (w : HWorld) : Prop :=
  exists n req kx, base n kBackpressureHigh req kx w /\ request_ok kx req.

Lemma pair_of_inv n m w : Inv n m w -> Pair w.
Proof. intros (req & kx & H1 & H2 & _). by exists n, req, kx. Qed.

(** [hhandle] gives each event its own results of system calls. *)
Lemma pair_env e w :
  Pair w -> (wf = false -> WriteFail ∉ e_write e) ->
  let w' := w <| sys := e |> in
  exists req kx, base (S (length (e_read e))) kBackpressureHigh req kx w' /\ request_ok kx req /\
    (length (k_recvs kx) < S (length (e_recv e)))%nat.
Proof.
  intros (n & req & kx & H & Hok) He w'. exists req, (kx <| k_recvs := e_recv e |>).
  split_and!; [| |cbn; lia].
  - destruct H; constructor; cbn in *; try assumption; [by rekey kx|lia].
  - destruct Hok as (H1 & H2 & H3). split_and!; [done|exact (proj1 H2)|exact (proj2 H2)|].
    destruct kx as [[] ? ? ? ? ? ? ? ? ? ? ? ?]; exact H3.
Qed.

Lemma pair_http e w :
  Pair w -> (wf = false -> WriteFail ∉ e_write e) -> http_alive w = true ->
  Inv (S (length (e_read e))) (S (length (e_recv e))) (w <| sys := e |>).
Proof.
  intros H He Ha. destruct (pair_env e w H He) as (req & kx & H1 & H2 & H3).
  exists req, kx. split_and!; [done..| |done]. by rewrite <- (base_http _ _ _ _ _ _ _ H1).
Qed.

Definition event_ok (ev : hevent) : Prop :=
  match ev with
  | HttpReady _ e | BackReady _ e | HttpSweep _ e | BackSweep _ e => wf = false -> WriteFail ∉ e_write e
  | CloseHttp | CloseBack | EndBatch _ => True
  end.

Lemma wp_dispatch_http n m r w :
  Inv n m w ->
  WP (dispatch_http mono phr_parse_request router max_body_ probe start start_wall snapshot r)
    (fun _ => Inv n m) w.
Proof.
  intros H. unfold dispatch_http. wstep; [by apply wp_inv_close|]. wstep.
  apply (wp_mono _ _ (fun _ => Inv n m)).
  - wstep; [by apply wp_drive|done].
  - intros ? w1 H1. wstep. wstep. wstep; [by apply wp_drive|done].
Qed.

Lemma wp_dispatch_back n m r req kx w :
  base n kBackpressureHigh req kx w -> request_ok kx req -> (length (k_recvs kx) < m)%nat ->
  k_back kx = true ->
  WP (dispatch_back mono phr_parse_request router max_body_ probe start start_wall snapshot r)
    (fun _ => Pair) w.
Proof.
  intros H Hok Hm Hk.
  assert (forall w', base n kBackpressureHigh req kx w' -> Pair w') as Hpair
    by (intros w' H'; by exists n, req, kx).
  unfold dispatch_back. wstep.
  { eapply wp_mono; [by apply wp_fail|]. intros ? w1. apply Hpair. }
  wstep. apply (wp_mono _ _ (fun _ => base n kBackpressureHigh req kx)).
  - wstep; [|done]. by apply (wp_back_on_readable own_response allowed mono wf req own_error n kx).
  - intros ? w1 H1. wstep. wstep. wstep; [|by apply Hpair].
    apply andb_true_iff in H0 as [_ Hcl]. apply negb_true_iff in Hcl.
    eapply wp_mono; [eapply (wp_back_on_writable n m); try done|intros ? w2; apply pair_of_inv].
    apply not_false_iff_true. intros Hc. destruct (b_orphan _ _ _ _ _ _ _ H1) as [?|Hsv]; try congruence.
    + by rewrite (base_back _ _ _ _ _ _ _ H1).
    + destruct Hok as [? _]. congruence.
Qed.
(** *** Teardown *)

Lemma wp_destroy_http w : Pair w -> http_closing w = true -> WP destroy_http (fun _ => Pair) w.
Proof.
  intros (n & req & kx & H & Hok) Hcl. unfold destroy_http.
  destruct (b_closing _ _ _ _ _ _ _ H Hcl) as [Hc Ha].
  destruct (b_closed _ _ _ _ _ _ _ H Hc Ha) as [Hb _].
  pose proof (b_ptr _ _ _ _ _ _ _ H) as Hp. rewrite Hb, andb_false_r in Hp. symmetry in Hp.
  wstep. wstep. rewrite Hb. cbn [rwhen]. wstep. wstep. wstep.
  exists n, req, (kx <| k_http := false |>). split; [|exact Hok].
  destruct H; constructor; cbn in *; try assumption; try done. by rekey kx.
Qed.

Lemma wp_destroy_back w : Pair w -> back_closing w = true -> WP destroy_back (fun _ => Pair) w.
Proof.
  intros (n & req & kx & H & Hok) Hcl. unfold destroy_back.
  assert (client (back w) = true -> http_alive w = true) as Ha.
  { intros Hc. assert (back_alive w = true) as Hba.
    { apply not_false_iff_true. intros Hf. pose proof (b_gone _ _ _ _ _ _ _ H Hf). congruence. }
    assert (k_back kx = true) as Hk by by rewrite <- (base_back _ _ _ _ _ _ _ H).
    by destruct (base_client _ _ _ _ _ _ _ Hk H Hc). }
  assert (client (back w) = false -> http_alive w && backend_ (http w) = false) as Hn.
  { intros Hc. rewrite (b_ptr _ _ _ _ _ _ _ H), Hc. apply andb_false_r. }
  wstep. wstep. wstep. wstep.
  - wstep. apply wp_deref_client; [done|by apply Ha|]. wstep. wstep.
    exists n, req, (kx <| k_back := false |>). split; [|exact Hok].
    destruct H; constructor; cbn in *; try assumption; try done; try (by rekey kx).
    + by rewrite andb_false_r.
    + intros Hc1 Hc2. by destruct (b_closed Hc1 Hc2).
    + intros Hs. destruct (b_reading Hs) as (_ & ? & ? & ?). by split_and!.
    + etrans; [|exact b_queue]. unfold size. cbn. lia.
  - wstep. exists n, req, (kx <| k_back := false |>). split; [|exact Hok].
    destruct H; constructor; cbn in *; try assumption; try done; try (by rekey kx).
    + by apply Hn.
    + intros Hs. destruct (b_reading Hs) as (_ & ? & ? & ?). by split_and!.
    + etrans; [|exact b_queue]. unfold size. cbn. lia.
Qed.

Lemma wp_end_batch http_first w : Pair w -> WP (end_batch http_first) (fun _ => Pair) w.
Proof.
  intros H. unfold end_batch. cbv zeta.
  assert (forall w, Pair w -> WP (let? c := rgets http_closing in rwhen c destroy_http) (fun _ => Pair) w) as Hhttp.
  { clear w H. intros w H. wstep. wstep. wstep; [by apply wp_destroy_http|done]. }
  assert (forall w, Pair w -> WP (let? c := rgets back_closing in rwhen c destroy_back) (fun _ => Pair) w) as Hback.
  { clear w H. intros w H. wstep. wstep. wstep; [by apply wp_destroy_back|done]. }
  destruct http_first; wstep.
  - eapply wp_mono; [by apply Hhttp|]. intros ?. apply Hback.
  - eapply wp_mono; [by apply Hback|]. intros ?. apply Hhttp.
Qed.

Notation run_event := (hhandle mono phr_parse_request router timeout_ max_body_ probe start start_wall snapshot).
Notation run_events := (hrun mono phr_parse_request router timeout_ max_body_ probe start start_wall snapshot).

Lemma wp_event ev w : Pair w -> event_ok ev -> WP (run_event ev) (fun _ => Pair) w.
Proof.
  intros H Hev. unfold hhandle. cbv zeta. wstep. wstep. destruct ev as [r e|r e|t e|t e| | |hf]; cbn in Hev.
  - wstep; [|done]. wstep. wstep. eapply wp_mono; [by apply wp_dispatch_http, pair_http|].
    intros ? w1. apply pair_of_inv.
  - wstep; [|done]. wstep. wstep. destruct (pair_env e w H Hev) as (req & kx & H1 & H2 & H3).
    eapply wp_dispatch_back; [exact H1|done..|]. by rewrite <- (base_back _ _ _ _ _ _ _ H1).
  - wstep; [|done]. wstep. wstep. unfold http_check_timeout. wstep; [wstep; by eapply pair_of_inv, pair_http|].
    assert (Inv _ _ (w <| sys := e |>)) as H1 by by apply pair_http.
    wstep. wstep. wstep; [|by eapply pair_of_inv].
    eapply wp_mono; [exact (wp_inv_close _ _ _ H1)|]. intros ? w1. apply pair_of_inv.
  - wstep; [|done]. wstep. wstep. destruct (pair_env e w H Hev) as (req & kx & H1 & H2 & H3).
    assert (forall w', base (S (length (e_read e))) kBackpressureHigh req kx w' -> Pair w') as Hp
      by (intros w' H'; by eexists _, req, kx).
    unfold back_check_timeout. wstep; [wstep; by apply Hp|].
    wstep. wstep. wstep; [|by apply Hp].
    eapply wp_mono; [apply wp_fail; [exact H1|]|intros ? w1; apply Hp].
    by rewrite <- (base_back _ _ _ _ _ _ _ H1).
  - wstep; [by apply wp_destroy_http|done].
  - wstep; [by apply wp_destroy_back|done].
  - by apply wp_end_batch.
Qed.

Lemma pair_accepted t : Pair (accepted t).
Proof.
  exists 1%nat, [], (mk_key ReadingHead false 0 false 0 false 0 [] [] [] [] true false). split.
  - constructor; cbn; try done; try lia; try apply prefix_nil; try (by left).
    + right. cbn. split; [apply prefix_nil|]. unfold size, kBackpressureHigh, kBuf. cbn. lia.
    + intros _. apply not_elem_of_nil.
  - split_and!; cbn; try done.
Qed.

Lemma wp_events evs w : Pair w -> Forall event_ok evs -> WP (run_events evs) (fun _ => Pair) w.
Proof.
  intros H Hev. revert w H. induction Hev as [|ev evs He Hevs IH]; intros w H; cbn [hrun]; [by wstep|].
  wstep. eapply wp_mono; [by apply wp_event|]. intros [] w1. apply IH.
Qed.
End Request.
