(* ===== verification/HttpSpec.v ===== *)
(** * HttpSpec: what the proxied connection guarantees

    The theorems about [Http.v], read off the invariant of [HttpInv.v], for every
    sequence of events the loop may deliver and every result its system calls may
    give; and three runs in which the code goes wrong. *)
From S2P Require Import Prelude Text Router Supervisor HttpHead HttpStatus Http HttpSafe HttpInv.
Open Scope Z_scope.

(** The results of [write] an event carries. *)
Definition writes (ev : hevent) : list write_result :=
  match ev with
  | HttpReady _ e | BackReady _ e | HttpSweep _ e | BackSweep _ e => e_write e
  | CloseHttp | CloseBack | EndBatch _ => []
  end.

(** The client connection and its backend connection hold each other. *)
Definition attached (w : HWorld) : Prop := back_alive w = true /\ client (back w) = true.

(** The two objects hold each other or nothing, what was closed is gone, and epoll watches
    what each object believes it watches. *)
Definition coherent (w : HWorld) : Prop :=
  (http_alive w = true -> closed_ (http w) = false /\ http_mask w = interest_ (http w)) /\
  (back_alive w = true ->
     client (back w) = true /\ http_alive w = true /\ back_mask w = binterest (back w)) /\
  (http_alive w = true -> backend_ (http w) = back_alive w).

Section Spec.
Context (mono : nat -> Z) (sse : bool).
Context (router : Router) (timeout_ max_body_ : Z).
Context (probe : bytes -> Z -> bool) (start : Z) (start_wall : bytes).
Context (snapshot : option (list ServiceUptime)).
Notation phr_parse_request := (tokenize sse).
Notation run evs t := (hrun mono phr_parse_request router timeout_ max_body_ probe start start_wall
                         snapshot evs (accepted t)).
Notation own := (own_response router probe start start_wall snapshot).
Notation pair wf := (Pair phr_parse_request router max_body_ probe start start_wall snapshot wf).

Lemma run_pair wf evs t :
  Forall (event_ok wf) evs ->
  match run evs t with inl f => allowed wf f | inr (_, w) => pair wf w end.
Proof.
  intros Hev. apply (wp_events mono phr_parse_request router timeout_ max_body_ probe start start_wall
    snapshot (tokenize_fits sse) wf evs (accepted t)); [apply pair_accepted|done].
Qed.

Lemma run_invariant evs t w : run evs t = inr (tt, w) -> pair true w.
Proof.
  intros Hr. assert (Forall (event_ok true) evs) as Hev.
  { apply Forall_forall. by intros []. }
  pose proof (run_pair true evs t Hev) as H. by rewrite Hr in H.
Qed.

Lemma run_no_failure evs t :
  Forall (fun ev => WriteFail ∉ writes ev) evs -> exists w, run evs t = inr (tt, w).
Proof.
  intros Hev. assert (Forall (event_ok false) evs) as Hok.
  { eapply Forall_impl; [exact Hev|]. intros [] H; cbn in *; auto. }
  pose proof (run_pair false evs t Hok) as H. destruct (run evs t) as [f|[[] w]]; [by destruct H|].
  by exists w.
Qed.

(** One more event. *)
Lemma run_snoc evs ev t w :
  run evs t = inr (tt, w) ->
  run (evs ++ [ev]) t = hhandle mono phr_parse_request router timeout_ max_body_ probe start start_wall snapshot ev w.
Proof.
  generalize (accepted t). induction evs as [|e evs IH]; intros w0; cbn [hrun app].
  - intros [= ->]. unfold rbind. by destruct (hhandle _ _ _ _ _ _ _ _ _ ev w) as [|[[] ?]].
  - unfold rbind. destruct (hhandle _ _ _ _ _ _ _ _ _ e w0) as [|[[] w1]]; [done|]. apply IH.
Qed.

(** A fault has a failed [write] before it. *)
Lemma run_blames evs t f : run evs t = inl f -> Exists (fun ev => WriteFail ∈ writes ev) evs.
Proof.
  intros Hr. destruct (decide (Forall (fun ev => WriteFail ∉ writes ev) evs)) as [Hok|Hno].
  - destruct (run_no_failure evs t Hok) as [w Hw]. congruence.
  - apply not_Forall_Exists in Hno; [|apply _]. eapply Exists_impl; [exact Hno|].
    intros ev Hev. by apply dec_stable.
Qed.

(** C1: however the client, the backend and the event loop behave, a connection's code
    runs to the end of every event it is given: the mutually recursive reads, writes,
    pauses and resumptions of the two halves terminate, and neither follows a null
    or dangling pointer to the other, provided no [write] to the backend fails. *)
Theorem proxy_completes evs t :
  Forall (fun ev => WriteFail ∉ writes ev) evs -> exists w, run evs t = inr (tt, w).
Proof. apply run_no_failure. Qed.

(** C6: with failing writes too, the code always terminates and never follows a dangling
    pointer: the one fault is a null [backend_], and only after a failed [write]. *)
Theorem proxy_never_dangles evs t f :
  run evs t = inl f -> f = NullPointer /\ Exists (fun ev => WriteFail ∈ writes ev) evs.
Proof.
  intros Hr. split.
  - assert (Forall (event_ok true) evs) as Hev by (apply Forall_forall; by intros []).
    pose proof (run_pair true evs t Hev) as H. rewrite Hr in H. by destruct H.
  - by eapply run_blames.
Qed.

Lemma response_origin evs t w :
  run evs t = inr (tt, w) ->
  (client_sent w `prefix_of` backend_recv w \/
   exists r, own r /\ client_sent w `prefix_of` response_bytes r) /\
  (attached w -> client_sent w ++ out_ (http w) = backend_recv w).
Proof.
  intros Hr. destruct (run_invariant _ _ _ Hr) as (n & req & kx & H & _). split.
  - destruct (b_origin _ _ _ _ _ _ _ H) as [(r & Ho & Hb)|[Hp _]].
    + right. exists r. split; [done|]. rewrite <- Hb. by apply prefix_app_r.
    + left. etrans; [|exact Hp]. by apply prefix_app_r.
  - intros [Ha Hc]. by apply (b_relay _ _ _ _ _ _ _ H).
Qed.

(** C2: the bytes the client has received are the beginning of the bytes its backend
    sent, or the beginning of one response castle made up: never a mixture. While the
    pair is attached nothing is lost or reordered on the way. *)
Theorem response_integrity evs t w :
  run evs t = inr (tt, w) ->
  (client_sent w `prefix_of` backend_recv w \/
   exists r, own r /\ client_sent w `prefix_of` response_bytes r) /\
  (attached w -> client_sent w ++ out_ (http w) = backend_recv w).
Proof. apply response_origin. Qed.

(** The head at the beginning of what the client has sent is accepted as [p], and ends at [n],
    however the bytes were cut into reads. *)
Definition accepted_as (w : HWorld) (n : nat) (p : proxied) : Prop :=
  (n <= length (client_recv w))%nat /\
  decide_head router max_body_ (length (client_recv w)) (tokenize sse (client_recv w)) = Proxy n p.
(** The request as the backend is to see it, as far as it has been received. *)
Definition forwarded_request (w : HWorld) (n : nat) (p : proxied) : bytes :=
  p_upstream p ++ take (Z.to_nat (p_body p)) (drop n (client_recv w)).

Lemma head_accepted req kx w n low :
  Base own true n low req kx w -> forall p,
  accepted_head phr_parse_request router max_body_ kx (k_head_len kx) p -> accepted_as w (k_head_len kx) p.
Proof.
  intros H p (buf & rest & H1 & H2 & _ & _ & H5).
  assert (k_recv kx = client_recv w) as Hk by by destruct H as [<- _ _ _].
  split; rewrite <- Hk, H1, length_app; [lia|]. by eapply decide_head_more.
Qed.

Lemma request_origin evs t w :
  run evs t = inr (tt, w) ->
  backend_sent w = [] \/
  exists n p, accepted_as w n p /\ backend_sent w `prefix_of` forwarded_request w n p.
Proof.
  intros Hr. destruct (run_invariant _ _ _ Hr) as (n & req & kx & H & _ & _ & Hok).
  pose proof (b_prefix _ _ _ _ _ _ _ H) as Hp.
  assert (k_recv kx = client_recv w) as Hk by by destruct H as [<- _ _ _].
  assert (req = [] -> backend_sent w = []) as Hnil by (intros Hq; rewrite Hq in Hp; by apply prefix_nil_inv).
  destruct (k_state kx); [left; by apply Hnil, Hok|..].
  all: destruct Hok as [[Hq _]|(p & Hacc & Hpre & _)]; [left; by apply Hnil|right].
  all: exists (k_head_len kx), p; split; [by eapply head_accepted|].
  all: etrans; [exact Hp|]; unfold body_of in Hpre; by rewrite Hk in Hpre.
Qed.

(** C3: the bytes the backend has received are the beginning of the head castle composed
    for an accepted request, followed by the bytes the client sent after that head, up
    to the Content-Length: a second request smuggled behind the body never gets there. *)
Theorem request_integrity evs t w :
  run evs t = inr (tt, w) ->
  backend_sent w = [] \/
  exists n p, accepted_as w n p /\ backend_sent w `prefix_of` forwarded_request w n p.
Proof. apply request_origin. Qed.

Lemma upload_state evs t w :
  run evs t = inr (tt, w) -> attached w ->
  exists n p, accepted_as w n p /\ backend_sent w ++ bout (back w) = forwarded_request w n p /\
    let body := take (Z.to_nat (p_body p)) (drop n (client_recv w)) in
    body_remaining_ (http w) = p_body p - size body /\
    match state_ (http w) with
    | Streaming => size body = p_body p
    | StreamingUp => size body < p_body p
    | _ => False
    end.
Proof.
  intros Hr [Ha Hc]. destruct (run_invariant _ _ _ Hr) as (n & req & kx & H & _ & _ & Hok).
  destruct (b_live _ _ _ _ _ _ _ H Ha Hc) as (Hl & Hs & _).
  pose proof (b_request _ _ _ _ _ _ _ H Ha Hc) as Hreq.
  assert (k_recv kx = client_recv w /\ k_remaining kx = body_remaining_ (http w)) as [Hk Hrem]
    by by destruct H as [<- _ _ _].
  rewrite Hs. destruct (k_state kx) eqn:Hst.
  { destruct Hok as (_ & _ & ? & _). congruence. }
  all: destruct Hok as [[_ ?]|(p & Hacc & _ & Hlive)]; [congruence|].
  all: destruct (Hlive Hl) as [[Hq Hleft] Hcase].
  all: exists (k_head_len kx), p; split; [by eapply head_accepted|].
  all: unfold body_of in Hq, Hleft; rewrite Hk in Hq, Hleft; rewrite Hrem in Hleft.
  all: split; [by rewrite Hreq|]; cbv zeta; split; [exact Hleft|].
  all: destruct Hcase as [(? & ? & _)|[? ?]]; try done; lia.
Qed.

(** Once the state is [Streaming] with the backend attached, the whole request, its
    head and a body of exactly Content-Length bytes, is written or queued; while it is
    [StreamingUp], everything received so far is, and bytes of the body are missing. *)
Theorem upload_progress evs t w :
  run evs t = inr (tt, w) -> attached w ->
  exists n p, accepted_as w n p /\ backend_sent w ++ bout (back w) = forwarded_request w n p /\
    let body := take (Z.to_nat (p_body p)) (drop n (client_recv w)) in
    body_remaining_ (http w) = p_body p - size body /\
    match state_ (http w) with
    | Streaming => size body = p_body p
    | StreamingUp => size body < p_body p
    | _ => False
    end.
Proof. apply upload_state. Qed.

(** C7: no request smuggling. Whatever the client sends, however it is cut into reads and
    however the loop interleaves the two connections, once a request is forwarded what the
    backend was sent or is about to be sent reads, for any reader of heads, as the one head
    that the client's bytes start with, hop-by-hop headers left out, followed by a body of
    the length the head announces, the client's bytes that follow the head. *)
Theorem backend_reads_one_request evs t w :
  run evs t = inr (tt, w) -> attached w -> state_ (http w) = Streaming ->
  exists n p method path hs,
    tokenize sse (client_recv w) = Parsed n method path hs /\
    let body := take (Z.to_nat (p_body p)) (drop n (client_recv w)) in
    backend_sent w ++ bout (back w) = p_upstream p ++ body /\ size body = p_body p /\ read_as method path hs p body.
Proof.
  intros Hr Ha Hs. destruct (upload_state evs t w Hr Ha) as (n & p & [_ Hacc] & Hq & Hb). rewrite Hs in Hb. destruct Hb as [_ Hb].
  destruct (upstream_head_read sse router max_body_ _ n p (take (Z.to_nat (p_body p)) (drop n (client_recv w))) Hacc)
    as (method & path & hs & Ht & Hread).
  by exists n, p, method, path, hs.
Qed.

(** C4: memory per connection is bounded, whatever the peers do and in every state: the
    client's bytes kept while the head is read, the head rewritten for the backend, the
    response waiting for a slow client (unless castle made it up), and the request waiting
    for a slow backend, also of a connection that has lost its other half; the backend is
    read only while at most [kBackpressureHigh] bytes wait for the client. *)
Theorem buffers_bounded evs t w :
  run evs t = inr (tt, w) ->
  size (in_ (http w)) <= kMaxHead + kBuf /\
  (state_ (http w) = ReadingHead -> size (in_ (http w)) <= kMaxHead) /\
  size (upstream_ (http w)) <= kMaxUpstream (kMaxHead + kBuf) /\
  (size (out_ (http w)) <= kBackpressureHigh + kBuf \/
   exists r, own r /\ client_sent w ++ out_ (http w) = response_bytes r) /\
  (attached w -> bread_paused (back w) = false -> size (out_ (http w)) <= kBackpressureHigh) /\
  size (bout (back w)) <= kBackpressureHigh + kMaxHead + kBuf.
Proof.
  intros Hr. destruct (run_invariant _ _ _ Hr) as (n & req & kx & H & _ & [Hup [Hin Hhead]] & Hok).
  assert (k_in kx = in_ (http w) /\ k_up kx = upstream_ (http w)) as [Hi Hu] by by destruct H as [<- _ _ _].
  rewrite Hi in Hin. rewrite Hu in Hhead. split_and!; [done| |done| | |].
  - intros Hs. destruct (b_state _ _ _ _ _ _ _ H) as [Hk|Hk]; [|congruence].
    rewrite <- Hk, Hs in Hok. rewrite <- Hi. by destruct Hok as (_ & _ & _ & _ & ?).
  - destruct (b_origin _ _ _ _ _ _ _ H) as [?|[_ ?]]; [by right|by left].
  - intros [Ha Hc] Hp. apply (b_low _ _ _ _ _ _ _ H Ha Hc). by rewrite <- (b_pause _ _ _ _ _ _ _ H Ha Hc).
  - pose proof (b_queue _ _ _ _ _ _ _ H) as Hq. unfold upload_high, upload_low in Hup. rewrite Hu in Hup.
    unfold kMaxUpstream, kMaxIn, kMaxHead, kBuf, kBackpressureHigh in *. change (Z.of_nat kMaxHeaders) with 100 in Hhead. lia.
Qed.

Lemma end_batch_clean hf w :
  match end_batch hf w with inl _ => True | inr (_, w') => http_closing w' = false /\ back_closing w' = false end.
Proof.
  change (wp (fun _ => True) (end_batch hf) (fun _ w' => http_closing w' = false /\ back_closing w' = false) w).
  assert (forall b w, back_closing w = b ->
            wp (fun _ => True) (let? c := rgets http_closing in rwhen c destroy_http)
              (fun _ w' => http_closing w' = false /\ back_closing w' = b) w) as Hh.
  { clear. intros b w Hb. wstep. wstep. wstep; [|done]. unfold destroy_http. wsteps; [|done].
    unfold deref_backend. wsteps; done. }
  assert (forall b w, http_closing w = b ->
            wp (fun _ => True) (let? c := rgets back_closing in rwhen c destroy_back)
              (fun _ w' => http_closing w' = b /\ back_closing w' = false) w) as Hb.
  { clear. intros b w Hb. wstep. wstep. wstep; [|done]. unfold destroy_back. wsteps; [|done].
    unfold deref_client. wsteps; done. }
  unfold end_batch. destruct hf; wstep.
  - eapply wp_mono; [by apply Hh|]. intros ? w1 [H1 _]. by apply Hb.
  - eapply wp_mono; [by apply Hb|]. intros ? w1 [_ H1]. by apply Hh.
Qed.

(** Once no live object is about to be closed, the two agree. *)
Lemma pair_settled w :
  pair true w -> (http_alive w = true -> http_closing w = false) -> (back_alive w = true -> back_closing w = false) ->
  coherent w.
Proof.
  intros (n & req & kx & H & Hsv & _) Hch Hcb.
  assert (back_alive w = true -> client (back w) = true) as Hcl.
  { intros Ha. apply not_false_iff_true. intros Hc. specialize (Hcb Ha).
    destruct (b_orphan _ _ _ _ _ _ _ H Ha Hc); congruence. }
  pose proof (b_ptr _ _ _ _ _ _ _ H) as Hp. split_and!.
  - intros Ha. split; [|by apply (b_hmask _ _ _ _ _ _ _ H)].
    apply not_true_iff_false. intros Hc. destruct (b_closed _ _ _ _ _ _ _ H Hc Ha). specialize (Hch Ha). congruence.
  - intros Ha. specialize (Hcl Ha). rewrite Ha, Hcl in Hp. apply andb_true_iff in Hp as [? _].
    split_and!; [done..|]. by apply (b_bmask _ _ _ _ _ _ _ H).
  - intros Ha. rewrite Ha in Hp. cbn in Hp. rewrite Hp. destruct (back_alive w); [by rewrite Hcl|done].
Qed.

(** C5: between batches of events the two objects agree: each points to the other or to
    nothing, a closed client connection is gone, no backend connection is left behind
    without its client, and epoll watches what each object believes it watches. *)
Theorem pair_coherent evs hf t w :
  run (evs ++ [EndBatch hf]) t = inr (tt, w) -> coherent w.
Proof.
  intros Hr. assert (http_closing w = false /\ back_closing w = false) as [Hch Hcb]; [|by apply pair_settled; [by eapply run_invariant|..]].
  revert Hr. generalize (accepted t). induction evs as [|ev evs IH]; intros w0; cbn [hrun app].
  - unfold hhandle, rbind, rret, rgets. intros Hr. pose proof (end_batch_clean hf w0) as Hc.
    destruct (end_batch hf w0) as [|[[] w1]]; [done|]. by injection Hr as <-.
  - unfold rbind. destruct (hhandle _ _ _ _ _ _ _ _ _ _ _) as [|[[] w1]]; [done|]. apply IH.
Qed.
End Spec.

(** ** Runs *)

(** A request, and the connection of its client. *)
Definition demo_head : bytes :=
  lit "POST /up HTTP/1.1" ++ crlf ++ lit "Host: a" ++ crlf ++ lit "Content-Length: 5" ++ crlf ++ crlf.

Definition demo_router : Router := [mk_route (lit "web") [] [] (mk_backend (lit "127.0.0.1") 9001)].
Definition demo_probe (_ : bytes) (_ : Z) : bool := true.
Notation demo_run evs :=
  (hrun Z.of_nat (tokenize true) demo_router 60 0 demo_probe 0 (lit "today") None evs (accepted 0)).

Definition readable : ready := mk_ready false true false.
Definition writable : ready := mk_ready false false true.
(** The client sends the head and [rest], and the backend is dialled with outcome [d]. *)
Definition demo_request (d : dial_result) (rest : bytes) : hevent :=
  HttpReady readable (mk_env [IoOk] [(IoOk, demo_head ++ rest)] [] [] [] d false).
(** The backend's socket connects and takes everything. *)
Definition demo_connected : hevent := BackReady writable (mk_env [] [] [] [] [Wrote 1000] NoSocket false).
Definition demo_upload (rest : bytes) (ws : list write_result) : hevent :=
  HttpReady readable (mk_env [] [(IoOk, rest)] [] [] ws NoSocket false).
Definition demo_reply (rs : list read_result) (ss : list (IoStatus * nat)) : hevent :=
  BackReady readable (mk_env [] [] ss rs [] NoSocket false).

Definition demo_upstream : bytes :=
  lit "POST /up HTTP/1.1" ++ crlf ++ lit "Host: a" ++ crlf ++ lit "Content-Length: 5" ++ crlf ++
  lit "Connection: close" ++ crlf ++ crlf.
Definition demo_exchange : list hevent :=
  [demo_request Connecting (lit "he"); demo_connected; demo_upload (lit "llo, and more") [Wrote 1000];
   demo_reply [ReadBytes (lit "HTTP/1.1 200 OK")] [(IoOk, 8%nat)];
   demo_reply [ReadBytes []] [(IoOk, 100%nat)]].

Definition final (r : fault + unit * HWorld) : HWorld :=
  match r with inr (_, w) => w | inl _ => accepted 0 end.

Example demo_exchange_result :
  let w := final (demo_run demo_exchange) in
  demo_run demo_exchange = inr (tt, w) /\ backend_sent w = demo_upstream ++ lit "hello" /\
  client_sent w = lit "HTTP/1.1 200 OK" /\ closed_ (http w) = true.
Proof. vm_compute. repeat split. Qed.

Example proxy_completes_witness :
  Forall (fun ev => WriteFail ∉ writes ev) demo_exchange /\ exists w, demo_run demo_exchange = inr (tt, w).
Proof.
  assert (Forall (fun ev => WriteFail ∉ writes ev) demo_exchange) as H.
  { apply (bool_decide_unpack _). vm_compute. exact I. }
  split; [exact H|]. exact (proxy_completes _ _ _ _ _ _ _ _ _ demo_exchange 0 H).
Defined.

Example response_integrity_witness :
  let w := final (demo_run demo_exchange) in
  demo_run demo_exchange = inr (tt, w) /\ client_sent w = lit "HTTP/1.1 200 OK" /\
  (client_sent w `prefix_of` backend_recv w \/
   exists r, own_response demo_router demo_probe 0 (lit "today") None r /\ client_sent w `prefix_of` response_bytes r).
Proof.
  set (w := final _). assert (demo_run demo_exchange = inr (tt, w)) as H by (vm_compute; reflexivity).
  split_and!; [exact H|vm_compute; reflexivity|].
  exact (proj1 (response_integrity _ _ _ _ _ _ _ _ _ demo_exchange 0 w H)).
Defined.

Example request_integrity_witness :
  let w := final (demo_run demo_exchange) in
  backend_sent w = demo_upstream ++ lit "hello" /\
  (backend_sent w = [] \/
   exists n p, accepted_as true demo_router 0 w n p /\ backend_sent w `prefix_of` forwarded_request w n p).
Proof.
  set (w := final _). assert (demo_run demo_exchange = inr (tt, w)) as H by (vm_compute; reflexivity).
  split; [vm_compute; reflexivity|].
  exact (request_integrity _ _ _ _ _ _ _ _ _ demo_exchange 0 w H).
Defined.

(** In the middle of the upload. *)
Definition demo_half : list hevent := [demo_request Connecting (lit "he"); demo_connected].

Example upload_progress_witness :
  let w := final (demo_run demo_half) in
  attached w /\ state_ (http w) = StreamingUp /\ body_remaining_ (http w) = 3 /\
  exists n p, accepted_as true demo_router 0 w n p /\
    backend_sent w ++ bout (back w) = forwarded_request w n p /\
    let body := take (Z.to_nat (p_body p)) (drop n (client_recv w)) in
    body_remaining_ (http w) = p_body p - size body /\
    match state_ (http w) with
    | Streaming => size body = p_body p
    | StreamingUp => size body < p_body p
    | _ => False
    end.
Proof.
  set (w := final _). assert (demo_run demo_half = inr (tt, w)) as H by (vm_compute; reflexivity).
  assert (attached w) as Ha by (split; vm_compute; reflexivity).
  split_and!; [exact Ha|vm_compute; reflexivity..|].
  exact (upload_progress _ _ _ _ _ _ _ _ _ demo_half 0 w H Ha).
Defined.

Example backend_reads_one_request_witness :
  let w := final (demo_run [demo_request Connecting (lit "hello, and more")]) in
  attached w /\ state_ (http w) = Streaming /\
  exists n p method path hs,
    tokenize true (client_recv w) = Parsed n method path hs /\
    let body := take (Z.to_nat (p_body p)) (drop n (client_recv w)) in
    backend_sent w ++ bout (back w) = p_upstream p ++ body /\ size body = p_body p /\ read_as method path hs p body.
Proof.
  set (w := final _).
  assert (demo_run [demo_request Connecting (lit "hello, and more")] = inr (tt, w)) as H by (vm_compute; reflexivity).
  assert (attached w) as Ha by (split; vm_compute; reflexivity).
  assert (state_ (http w) = Streaming) as Hs by (vm_compute; reflexivity).
  split; [exact Ha|]. split; [exact Hs|].
  exact (backend_reads_one_request _ _ _ _ _ _ _ _ _ [demo_request Connecting (lit "hello, and more")] 0 w H Ha Hs).
Defined.

Example buffers_bounded_witness :
  let w := final (demo_run demo_half) in
  attached w /\ size (in_ (http w)) <= kMaxHead + kBuf /\ size (bout (back w)) <= kBackpressureHigh + kMaxHead + kBuf.
Proof.
  set (w := final _). assert (demo_run demo_half = inr (tt, w)) as H by (vm_compute; reflexivity).
  assert (attached w) as Ha by (split; vm_compute; reflexivity). split; [exact Ha|].
  destruct (buffers_bounded _ _ _ _ _ _ _ _ _ demo_half 0 w H) as (Hi & _ & _ & _ & _ & Hb). by split.
Defined.

Example pair_coherent_witness :
  let w := final (demo_run (demo_half ++ [EndBatch true])) in
  back_alive w = true /\ client (back w) = true /\ http_alive w = true.
Proof.
  set (w := final _).
  assert (demo_run (demo_half ++ [EndBatch true]) = inr (tt, w)) as H by (vm_compute; reflexivity).
  assert (back_alive w = true) as Ha by (vm_compute; reflexivity). split; [exact Ha|].
  destruct (pair_coherent _ _ _ _ _ _ _ _ _ demo_half true 0 w H) as (_ & Hb & _).
  destruct (Hb Ha) as (H1 & H2 & _). split; [exact H1|exact H2].
Defined.

(** ** Where it goes wrong *)

(** A write to the backend fails in the middle of the upload. *)
Definition demo_broken (rest : bytes) : list hevent := demo_half ++ [demo_upload rest [WriteFail]].

(** [forward_body] goes on using [backend_] after [send]: a failed write (a backend
      that closed early) has nulled it by then, and castle crashes. *)
Theorem failed_upload_crashes : demo_run (demo_broken (lit "l")) = inl NullPointer.
Proof. vm_compute. reflexivity. Qed.

Example proxy_never_dangles_witness :
  demo_run (demo_broken (lit "l")) = inl NullPointer /\
  Exists (fun ev => WriteFail ∈ writes ev) (demo_broken (lit "l")).
Proof.
  assert (demo_run (demo_broken (lit "l")) = inl NullPointer) as H by (vm_compute; reflexivity).
  split; [exact H|].
  exact (proj2 (proxy_never_dangles _ _ _ _ _ _ _ _ _ (demo_broken (lit "l")) 0 _ H)).
Defined.

(** When epoll refuses the new backend socket, the loop drops the connection and
      nobody answers the client: its request is taken for forwarded, no response is queued
      and the connection stays open. *)
Theorem refused_backend_hangs :
  let w := final (demo_run [demo_request AddFails (lit "hello"); EndBatch true]) in
  demo_run [demo_request AddFails (lit "hello"); EndBatch true] = inr (tt, w) /\
  http_alive w = true /\ back_alive w = false /\ closed_ (http w) = false /\
  state_ (http w) = StreamingUp /\ responded_ (http w) = false /\ out_ (http w) = [].
Proof. vm_compute. repeat split. Qed.

(** A connection whose backend is paused: [out] waits for a slow client. *)
Definition stalled (out : bytes) (e : env) : HWorld :=
  mk_hworld
    (mk_http true 0 Streaming [] out demo_upstream (mk_backend (lit "127.0.0.1") 9001) (length demo_head) 0
       true true false false false true (true, true) WouldBlockRead WouldBlockWrite)
    (mk_back true [] 0 (false, false) true true false) true true false false (true, true) (false, false) e 0 0 0
    (demo_head ++ lit "hello") [] out (demo_upstream ++ lit "hello").

(** The end of a response can be lost. The client takes all of [out_], [pump_write]
    resumes the backend's reads, and they bring the last bytes and the end of file.
    [Closing] is set while these bytes wait in [out_], and the outer [pump_write] closes
    the connection as if they had been sent. *)
Theorem resumed_response_truncated :
  let w := stalled (lit "the response")
             (mk_env [] [] [(IoOk, 100%nat)] [ReadBytes (lit ", its end"); ReadBytes []] [] NoSocket false) in
  exists w', pump_write Z.of_nat w = inr (IoOk, w') /\ closed_ (http w') = true /\
    client_sent w' = lit "the response" /\ backend_recv w' = lit "the response, its end" /\
    out_ (http w') = lit ", its end".
Proof. eexists. split; [vm_compute; reflexivity|]. repeat split. Qed.
