(* ===== verification/HttpFrame.v ===== *)
(** * HttpFrame: what a callback of the proxied connection asks of the loop

    What the programs of [Http.v] can do to the part of their world the event loop knows:
    objects come to exist by a dial that succeeds, and only while the head is read; what was
    asked to be closed stays so; nothing is destroyed before the end of the batch. The rule is
    a relation between the world before and after ([calm], [lively]), closed under sequence. *)
From S2P Require Import Prelude Text Router Supervisor HttpHead HttpStatus Http HttpSafe.
Open Scope Z_scope.

(** No object appears or goes. *)
Record still (w w' : HWorld) : Prop := {
  still_http : http_alive w' = http_alive w;
  still_back : back_alive w' = back_alive w;
  still_hclosing : http_closing w = true -> http_closing w' = true;
  still_bclosing : back_closing w = true -> back_closing w' = true;
  still_state : state_ (http w') = ReadingHead -> state_ (http w) = ReadingHead;
  still_dial : e_dial (sys w') = e_dial (sys w)
}.

(** A backend connection may appear where there was none. *)
Record grown (w w' : HWorld) : Prop := {
  grown_http : http_alive w' = http_alive w;
  grown_back : back_alive w = true -> back_alive w' = true /\ (back_closing w = true -> back_closing w' = true);
  grown_new : back_alive w = false -> back_alive w' = true -> e_dial (sys w) = Connecting;
  grown_hclosing : http_closing w = true -> http_closing w' = true;
  grown_dial : e_dial (sys w') = e_dial (sys w)
}.

(** While the head is read there is no backend connection. *)
Definition undialled (w : HWorld) : Prop := state_ (http w) = ReadingHead -> back_alive w = false.

Lemma still_refl w : still w w.
Proof. by split. Qed.
Lemma still_trans w1 w2 w3 : still w1 w2 -> still w2 w3 -> still w1 w3.
Proof. intros [] []. split; [congruence|congruence|auto..|congruence]. Qed.
Lemma grown_refl w : grown w w.
Proof. by split; [| |congruence| |]. Qed.
Lemma still_grown w w' : still w w' -> grown w w'.
Proof. intros []. split; [done| |congruence|done|done]. intros Ha. split; [congruence|done]. Qed.
Lemma still_undialled w w' : still w w' -> undialled w -> undialled w'.
Proof. intros [] Hu Hs. rewrite still_back0. auto. Qed.
Lemma grown_trans w1 w2 w3 : grown w1 w2 -> grown w2 w3 -> grown w1 w3.
Proof.
  intros [H1 H2 H3 H4 H5] [G1 G2 G3 G4 G5]. split; [congruence| | |auto|congruence].
  - intros Ha. destruct (H2 Ha) as [Ha' Hc]. destruct (G2 Ha') as [? Hc']. auto.
  - intros Ha Hb. destruct (back_alive w2) eqn:E; [by apply H3|]. rewrite <- H5. by apply G3.
Qed.

Definition calm {A} (m : R A) : Prop := forall w, match m w with inl _ => True | inr (_, w') => still w w' end.
Definition lively {A} (m : R A) : Prop :=
  forall w, undialled w -> match m w with inl _ => True | inr (_, w') => undialled w' /\ grown w w' end.

Lemma calm_bind {A B} (m : R A) (k : A -> R B) : calm m -> (forall a, calm (k a)) -> calm (rbind m k).
Proof.
  intros Hm Hk w. unfold rbind. specialize (Hm w). destruct (m w) as [|[a w1]]; [done|]. specialize (Hk a w1).
  destruct (k a w1) as [|[b w2]]; [done|]. by eapply still_trans.
Qed.
Lemma calm_ret {A} (x : A) : calm (rret x).
Proof. intros w. apply still_refl. Qed.
Lemma calm_fault {A} f : calm (@rfault A f).
Proof. done. Qed.
Lemma calm_gets {A} (f : HWorld -> A) : calm (rgets f).
Proof. intros w. apply still_refl. Qed.
Lemma calm_modify f : (forall w, still w (f w)) -> calm (rmodify f).
Proof. intros Hf w. apply Hf. Qed.
Lemma calm_when b m : calm m -> calm (rwhen b m).
Proof. destruct b; [done|]. intros _. apply calm_ret. Qed.
Lemma calm_deref_backend : calm deref_backend.
Proof. intros w. unfold deref_backend, rbind, hget, rgets. destruct (backend_ _); [|done]. cbn. destruct (back_alive w) eqn:E; cbn; [apply still_refl|done]. Qed.
Lemma calm_deref_client : calm deref_client.
Proof. intros w. unfold deref_client, rbind, rgets. destruct (client _); [|done]. cbn. destruct (http_alive w) eqn:E; cbn; [apply still_refl|done]. Qed.
Lemma calm_hset f : (forall c, state_ (f c) = ReadingHead -> state_ c = ReadingHead) -> calm (hset f).
Proof. intros Hf. apply calm_modify. intros w. split; cbn; auto. Qed.
Lemma calm_bset f : calm (bset f).
Proof. apply calm_modify. by intros w; split. Qed.

Lemma lively_calm {A} (m : R A) : calm m -> lively m.
Proof.
  intros Hm w Hu. specialize (Hm w). destruct (m w) as [|[a w']]; [done|].
  split; [by eapply still_undialled|by apply still_grown].
Qed.
Lemma lively_bind {A B} (m : R A) (k : A -> R B) : lively m -> (forall a, lively (k a)) -> lively (rbind m k).
Proof.
  intros Hm Hk w Hu. unfold rbind. specialize (Hm w Hu). destruct (m w) as [|[a w1]]; [done|]. destruct Hm as [Hu1 Hg].
  specialize (Hk a w1 Hu1). destruct (k a w1) as [|[b w2]]; [done|]. destruct Hk. split; [done|]. by eapply grown_trans.
Qed.
Lemma lively_when b m : lively m -> lively (rwhen b m).
Proof. destruct b; [done|]. intros _. by apply lively_calm, calm_ret. Qed.

Create HintDb frame.
#[export] Hint Resolve calm_ret calm_fault calm_gets calm_when calm_deref_backend calm_deref_client calm_bset lively_when : frame.

(** One step through a program. *)
Ltac calm_step :=
  cbv zeta; match goal with
  | |- calm (rbind _ _) => apply calm_bind; [|intros ?]
  | |- calm (if _ then _ else _) => case_match
  | |- calm (match _ with _ => _ end) => case_match
  | |- calm (let '(_, _) := _ in _) => case_match
  | |- calm (rwhen _ _) => apply calm_when
  | |- calm (hget _) => apply calm_gets
  | |- calm (hset _) => apply calm_hset; by intros ?
  | |- calm (rmodify _) => apply calm_modify; intros ?; (split; cbn; repeat case_match; done)
  | |- calm _ => by auto with frame
  end.
Ltac calm := repeat calm_step.
Ltac lively_step :=
  cbv zeta; match goal with
  | |- lively (rbind _ _) => apply lively_bind; [|intros ?]
  | |- lively (if _ then _ else _) => case_match
  | |- lively (match _ with _ => _ end) => case_match
  | |- lively (rwhen _ _) => apply lively_when
  | |- lively _ => first [by auto with frame | apply lively_calm; by calm]
  end.
Ltac lively := repeat lively_step.

Section Frame.
Context (mono : nat -> Z) (phr_parse_request : bytes -> phr_result).
Context (router : Router) (timeout_ max_body_ : Z).
Context (probe : bytes -> Z -> bool) (start : Z) (start_wall : bytes).
Context (snapshot : option (list ServiceUptime)).

(** ** Calls, and the response side *)

Lemma calm_now : calm (now mono).
Proof. unfold now. calm. Qed.
#[local] Hint Resolve calm_now : frame.
Lemma calm_touch : calm (touch mono).
Proof. unfold touch. calm. Qed.
Lemma calm_btouch : calm (btouch mono).
Proof. unfold btouch. calm. Qed.
Lemma calm_handshake : calm transport_handshake.
Proof. intros w. unfold transport_handshake. destruct (e_handshake (sys w)); by split. Qed.
Lemma calm_recv : calm transport_recv.
Proof. intros w. unfold transport_recv. destruct (e_recv (sys w)) as [|[]]; by split. Qed.
Lemma calm_send data : calm (transport_send data).
Proof. intros w. unfold transport_send. destruct (e_send (sys w)) as [|[]]; by split. Qed.
Lemma calm_backend_read : calm backend_read.
Proof. intros w. unfold backend_read. destruct (e_read (sys w)) as [|[]]; by split. Qed.
Lemma calm_backend_write data : calm (backend_write data).
Proof. intros w. unfold backend_write. destruct (e_write (sys w)) as [|[]]; by split. Qed.
#[local] Hint Resolve calm_touch calm_btouch calm_handshake calm_recv calm_send calm_backend_read calm_backend_write : frame.

Lemma calm_set_interest ev : calm (set_interest ev).
Proof. unfold set_interest. calm. Qed.
#[local] Hint Resolve calm_set_interest : frame.
Lemma calm_recompute_interest : calm recompute_interest.
Proof. unfold recompute_interest. calm. Qed.
Lemma calm_apply_interest : calm apply_interest.
Proof. unfold apply_interest. calm. Qed.
Lemma calm_close_both : calm close_both.
Proof. unfold close_both. calm. Qed.
#[local] Hint Resolve calm_recompute_interest calm_apply_interest calm_close_both : frame.

Lemma calm_send_loop fuel : calm (send_loop mono fuel).
Proof. induction fuel; cbn [send_loop]; calm. Qed.
#[local] Hint Resolve calm_send_loop : frame.

Lemma calm_pump_write_with resume : calm resume -> calm (pump_write_with mono resume).
Proof. intros. unfold pump_write_with. calm. Qed.
Lemma calm_write_and_watch pump k : calm pump -> calm k -> calm (write_and_watch pump k).
Proof. intros. unfold write_and_watch. calm. Qed.
#[local] Hint Resolve calm_pump_write_with calm_write_and_watch : frame.
Lemma calm_send_response_with pump r : calm pump -> calm (send_response_with pump r).
Proof. intros. unfold send_response_with. calm. Qed.
Lemma calm_send_error_with pump e : calm pump -> calm (send_error_with pump e).
Proof. apply calm_send_response_with. Qed.
#[local] Hint Resolve calm_send_response_with calm_send_error_with : frame.
Lemma calm_on_backend_error_with pump why : calm pump -> calm (on_backend_error_with pump why).
Proof. intros. unfold on_backend_error_with. calm. Qed.
Lemma calm_on_backend_closed_with pump : calm pump -> calm (on_backend_closed_with pump).
Proof. intros. unfold on_backend_closed_with. calm. Qed.
Lemma calm_pause_reads : calm pause_reads.
Proof. unfold pause_reads. calm. Qed.
#[local] Hint Resolve calm_on_backend_error_with calm_on_backend_closed_with calm_pause_reads : frame.
Lemma calm_deliver_to_client_with pump data : calm pump -> calm (deliver_to_client_with pump data).
Proof. intros. unfold deliver_to_client_with. calm. apply calm_write_and_watch; calm. Qed.
Lemma calm_take_client k : calm k -> calm (take_client k).
Proof. intros. unfold take_client. calm. Qed.
Lemma calm_request_close_back : calm request_close_back.
Proof. unfold request_close_back. calm. Qed.
#[local] Hint Resolve calm_deliver_to_client_with calm_take_client calm_request_close_back : frame.
Lemma calm_fail_with pump why : calm pump -> calm (fail_with pump why).
Proof. intros. unfold fail_with. calm. Qed.
Lemma calm_resume_reads_with read : calm read -> calm (resume_reads_with read).
Proof. intros. unfold resume_reads_with. calm. Qed.
#[local] Hint Resolve calm_fail_with calm_resume_reads_with : frame.

Lemma calm_on_readable_loop fuel : calm (on_readable_loop mono fuel).
Proof. induction fuel; cbn [on_readable_loop]; calm. Qed.
Lemma calm_back_on_readable : calm (back_on_readable mono).
Proof. unfold back_on_readable. calm. apply calm_on_readable_loop. Qed.
#[local] Hint Resolve calm_back_on_readable : frame.
Lemma calm_pump_write : calm (pump_write mono).
Proof. unfold pump_write, resume_reads. auto with frame. Qed.
#[local] Hint Resolve calm_pump_write : frame.
Lemma calm_fail why : calm (fail mono why).
Proof. unfold fail. auto with frame. Qed.
Lemma calm_send_response r : calm (send_response mono r).
Proof. unfold send_response. auto with frame. Qed.
Lemma calm_send_error e : calm (send_error mono e).
Proof. unfold send_error. auto with frame. Qed.
#[local] Hint Resolve calm_fail calm_send_response calm_send_error : frame.

(** ** The request side *)

Lemma calm_write_loop fuel off : calm (write_loop mono fuel off).
Proof. revert off. induction fuel; intros off; cbn [write_loop]; calm. Qed.
#[local] Hint Resolve calm_write_loop : frame.
Lemma lively_flush_with drained : lively drained -> lively (flush_with mono drained).
Proof. intros. unfold flush_with. lively. Qed.
Lemma lively_back_send flush data : lively flush -> lively (back_send flush data).
Proof. intros. unfold back_send. lively. Qed.
#[local] Hint Resolve lively_flush_with lively_back_send : frame.
Lemma lively_forward_body flush data : lively flush -> lively (forward_body flush data).
Proof. intros. unfold forward_body. lively. Qed.
#[local] Hint Resolve lively_forward_body : frame.

(** Before the dial: open, reading the head. *)
Definition reading (w : HWorld) : Prop :=
  state_ (http w) = ReadingHead /\ closed_ (http w) = false /\ back_alive w = false.

(** After it: as before, closing, or with a backend connection and the rest of
    [process_head] to run. *)
Lemma start_backend_grows flush w :
  reading w ->
  match start_backend mono flush w with
  | inl _ => True
  | inr (_, w') => grown w w' /\ (undialled w' \/ closed_ (http w') = false)
  end.
Proof.
  intros (Hs & Hc & Hb). unfold start_backend, rbind at 1 2, rgets, hget.
  assert (forall e, match send_error mono e w with
                    | inl _ => True
                    | inr (_, w') => grown w w' /\ (undialled w' \/ closed_ (http w') = false)
                    end) as Hrefuse.
  { intros e. pose proof (calm_send_error e w) as Hcalm. destruct (send_error mono e w) as [|[[] w1]]; [done|].
    split; [by apply still_grown|left; eapply still_undialled; [exact Hcalm|by intros _]]. }
  destruct (e_dial (sys w)) eqn:Hd; [apply Hrefuse..| |].
  all: unfold now, back_send, deref_backend, rbind, rmodify, hset, bset, hget, rgets, rret; cbn.
  all: destruct (kBackpressureHigh <? size (upstream_ (http w))); cbn; (split; [split; cbn; congruence || done|]).
  all: first [by left|by right].
Qed.

(** [m] from [w]. *)
Definition grows {A} (m : R A) (w : HWorld) : Prop :=
  match m w with inl _ => True | inr (_, w') => undialled w' /\ grown w w' end.

Lemma lively_grows {A} (m : R A) w : lively m -> undialled w -> grows m w.
Proof. intros Hm. apply Hm. Qed.
Lemma grows_bind {A B} (m : R A) (k : A -> R B) (P : HWorld -> Prop) w :
  match m w with inl _ => True | inr (_, w') => P w' /\ grown w w' end ->
  (forall a w', P w' -> grows (k a) w') -> grows (rbind m k) w.
Proof.
  intros Hm Hk. unfold grows, rbind. destruct (m w) as [|[a w1]]; [done|]. destruct Hm as [HP Hg].
  specialize (Hk a w1 HP). unfold grows in Hk. destruct (k a w1) as [|[b w2]]; [done|]. destruct Hk.
  split; [done|]. by eapply grown_trans.
Qed.
Lemma grows_get {A B} (f : HWorld -> A) (k : A -> R B) w : grows (k (f w)) w -> grows (rbind (rgets f) k) w.
Proof. done. Qed.
Lemma reading_undialled w : reading w -> undialled w.
Proof. by intros (_ & _ & Hb) _. Qed.

Lemma lively_streaming st (k : R unit) w :
  st <> ReadingHead -> lively k -> grows (hset (fun c => c <| state_ := st |>) ;? k) w.
Proof.
  intros Hst Hk. eapply (grows_bind _ _ undialled).
  - cbn. split; [by intros ?|]. split; cbn; try done. congruence.
  - intros _ w1. by apply lively_grows.
Qed.

Lemma grows_process_head flush w :
  lively flush -> reading w ->
  grows (process_head mono phr_parse_request router max_body_ probe start start_wall snapshot flush) w.
Proof.
  intros Hf Hr. unfold process_head. apply grows_get. generalize (in_ (http w)). intros buf. cbv zeta. eapply (grows_bind _ _ reading).
  { destruct (phr_parse_request _); cbn; (split; [exact Hr|]); try apply grown_refl.
    split; cbn; try done. congruence. }
  clear w Hr. intros _ w Hr. pose proof (reading_undialled _ Hr) as Hu.
  destruct (decide_head _ _ _ _) as [|e|method target|n p]; [by apply lively_grows; [lively|]..| |].
  { apply lively_grows; [|done]. unfold answer_internal. lively. }
  eapply (grows_bind _ _ reading).
  { cbn. split; [exact Hr|]. split; cbn; try done. congruence. }
  clear w Hr Hu. intros _ w Hr. eapply grows_bind.
  { pose proof (start_backend_grows flush w Hr) as H. destruct (start_backend mono flush w) as [|[[] w1]]; [done|].
    destruct H as [Hg Hor]. split; [exact Hor|exact Hg]. }
  clear w Hr. intros _ w Hor. apply grows_get. destruct (bool_decide (state_ (http w) = Closing)) eqn:Hc; cbn [orb].
  { apply bool_decide_eq_true in Hc. split; [by intros Hs; rewrite Hs in Hc|apply grown_refl]. }
  destruct (closed_ (http w)) eqn:Hcl.
  { destruct Hor as [Hu|?]; [|congruence]. by apply lively_grows; [lively|]. }
  eapply (grows_bind _ _ undialled).
  - destruct (body_remaining_ (http w) =? 0).
    + cbn. split; [by intros ?|]. split; cbn; try done. congruence.
    + apply lively_streaming; [done|]. lively.
  - intros _ w1. apply lively_grows. lively.
Qed.

Lemma grows_handle_client_bytes flush data w :
  lively flush -> undialled w -> closed_ (http w) = false ->
  grows (handle_client_bytes mono phr_parse_request router max_body_ probe start start_wall snapshot flush data) w.
Proof.
  intros Hf Hu Hc. unfold handle_client_bytes. apply grows_get. destruct (state_ (http w)) eqn:Hs.
  2-4: by apply lively_grows; [lively|].
  eapply (grows_bind _ _ reading).
  - cbn. split; [by split_and!; [..|apply Hu]|]. split; cbn; try done. congruence.
  - intros _ w1. by apply grows_process_head.
Qed.

(** A program that is run while the connection is open. *)
Definition open_lively {A} (m : R A) : Prop := forall w, undialled w -> closed_ (http w) = false -> grows m w.

Lemma lively_drive_with pump : open_lively pump -> lively (drive_with mono pump).
Proof.
  intros Hp w Hu. change (grows (drive_with mono pump) w). unfold drive_with. apply grows_get.
  destruct (closed_ (http w)) eqn:Hc; [by apply lively_grows; [lively|]|].
  assert (forall w, undialled w -> closed_ (http w) = false ->
    grows (let? st := pump in
           hset (fun c => c <| read_block_ := st |>) ;?
           let? closed := hget closed_ in
           if closed then rret tt else write_and_watch (pump_write mono) (rret tt)) w) as Hpump.
  { clear w Hu Hc. intros w Hu Hc. eapply (grows_bind _ _ undialled); [by apply Hp|].
    intros st w1. apply lively_grows. lively. }
  destruct (handshake_done_ (http w)); [by apply Hpump|].
  eapply (grows_bind _ _ (fun w => undialled w /\ closed_ (http w) = false)).
  - pose proof (calm_handshake w) as Hh. unfold transport_handshake in *. destruct (e_handshake (sys w)) as [|st r]; [by split; [|apply grown_refl]|].
    split; [split; [by eapply still_undialled|done]|by apply still_grown].
  - intros st w1 [Hu1 Hc1]. destruct st; [|by apply lively_grows; [lively|]..].
    eapply (grows_bind _ _ (fun w => undialled w /\ closed_ (http w) = false)).
    { cbn. split; [split; [exact Hu1|done]|]. split; cbn; try done. congruence. }
    intros _ w2 [Hu2 Hc2]. eapply (grows_bind _ _ (fun w => undialled w /\ closed_ (http w) = false)).
    { cbn. split; [split; [exact Hu2|done]|]. split; cbn; try done. congruence. }
    intros _ w3 [Hu3 Hc3]. by apply Hpump.
Qed.
Lemma lively_on_backend_drained_with drive : lively drive -> lively (on_backend_drained_with drive).
Proof. intros. unfold on_backend_drained_with. lively. Qed.
#[local] Hint Resolve lively_drive_with lively_on_backend_drained_with : frame.

Lemma open_pump_read_loop fuel :
  open_lively (pump_read_loop mono phr_parse_request router max_body_ probe start start_wall snapshot fuel).
Proof.
  induction fuel as [|fuel IH]; intros w Hu Hc; [done|]. cbn [pump_read_loop]. cbv zeta. apply grows_get.
  destruct (read_paused_ (http w) || client_eof_ (http w)); [by apply lively_grows; [lively|]|].
  eapply (grows_bind _ _ (fun w => undialled w /\ closed_ (http w) = false)).
  { pose proof (calm_recv w) as Hr. unfold transport_recv in *. destruct (e_recv (sys w)) as [|[st d] r]; [by split; [|apply grown_refl]|].
    split; [split; [by eapply still_undialled|done]|by apply still_grown]. }
  clear w Hu Hc. intros [st data] w [Hu Hc]. destruct st; [|by apply lively_grows; [lively|]..].
  eapply (grows_bind _ _ (fun w => undialled w /\ closed_ (http w) = false)).
  { cbn. split; [split; [exact Hu|done]|]. split; cbn; try done. congruence. }
  clear w Hu Hc. intros _ w [Hu Hc]. eapply (grows_bind _ _ (fun w => undialled w /\ closed_ (http w) = false)).
  { cbn. split; [split; [exact Hu|done]|]. split; cbn; try done. congruence. }
  clear w Hu Hc. intros _ w [Hu Hc]. eapply (grows_bind _ _ undialled).
  { apply grows_handle_client_bytes; [|done..]. auto with frame. }
  clear w Hu Hc. intros _ w Hu. apply grows_get. destruct (closed_ (http w)) eqn:Hc; [by apply lively_grows; [lively|]|by apply IH].
Qed.

Lemma lively_drive : lively (drive mono phr_parse_request router max_body_ probe start start_wall snapshot).
Proof.
  apply lively_drive_with. intros w Hu Hc. unfold pump_read. apply grows_get. by apply open_pump_read_loop.
Qed.
#[local] Hint Resolve lively_drive : frame.
Lemma lively_flush : lively (flush mono phr_parse_request router max_body_ probe start start_wall snapshot).
Proof. unfold flush, on_backend_drained. auto with frame. Qed.
#[local] Hint Resolve lively_flush : frame.

(** ** Events *)

Lemma lively_dispatch_http r :
  lively (dispatch_http mono phr_parse_request router max_body_ probe start start_wall snapshot r).
Proof. unfold dispatch_http. lively. Qed.
Lemma lively_dispatch_back r :
  lively (dispatch_back mono phr_parse_request router max_body_ probe start start_wall snapshot r).
Proof. unfold dispatch_back, back_on_writable. lively. Qed.
Lemma calm_http_check_timeout t : calm (http_check_timeout timeout_ t).
Proof. unfold http_check_timeout. calm. Qed.
Lemma calm_back_check_timeout t : calm (back_check_timeout mono timeout_ t).
Proof. unfold back_check_timeout. calm. Qed.
End Frame.
