(* ===== verification/Log.v ===== *)
(** * Log: the file logger and the log front-end

    Models src/src/util/log.hpp ([IndexedFileReader], [Logger]) and src/src/util/log.h
    ([log_init], [log_msg], [log_pull_new], [log_critical_entries]). The log file is a
    byte string or absent; opening it for append may fail, and the broken-down UTC time
    an entry is stamped with is an argument. The mutex makes each call atomic, so a
    sequence of calls is a list. *)
From S2P Require Import Prelude Text.

(** ** [std::getline] *)

Definition getline (s : bytes) : option (bytes * bytes) :=
  match s with
  | [] => None
  | _ => Some match find_char ch_nl s with
              | Some i => (take i s, drop (S i) s)
              | None => (s, [])
              end
  end.

Lemma getlines_aux_last s cur :
  ch_nl ∉ s -> s <> [] \/ cur <> [] -> getlines_aux s cur = [reverse cur ++ s].
Proof.
  revert cur. induction s as [|c s IH]; intros cur Hs Hne; cbn.
  - destruct cur; [by destruct Hne|]. by rewrite app_nil_r.
  - apply not_elem_of_cons in Hs as [Hc Hs]. rewrite decide_False by congruence.
    rewrite IH by (done || by right). by rewrite reverse_cons, <- (assoc_L app).
Qed.

Lemma getline_Some s line rest :
  getline s = Some (line, rest) ->
  ch_nl ∉ line /\ (s = line ++ ch_nl :: rest \/ (s = line /\ rest = [] /\ line <> [])).
Proof.
  unfold getline. destruct s as [|c s]; [done|]. set (t := c :: s).
  destruct (find_char ch_nl t) as [i|] eqn:Hi; intros [= <- <-].
  - apply find_if_Some in Hi as (d & Hd & Hnl & Hmin). apply bool_decide_eq_true_1 in Hnl as ->. split.
    + intros (j & Hj)%list_elem_of_lookup_1. apply lookup_take_Some in Hj as [Hj Hlt].
      specialize (Hmin j ch_nl Hj Hlt). by apply bool_decide_eq_false_1 in Hmin.
    + left. exact (eq_sym (take_drop_middle t i ch_nl Hd)).
  - apply find_if_None in Hi. split; [|by right].
    intros Hin. rewrite Forall_forall in Hi. specialize (Hi _ Hin). by apply bool_decide_eq_false_1 in Hi.
Qed.

Lemma getlines_getline s :
  getlines s = match getline s with Some (line, rest) => line :: getlines rest | None => [] end.
Proof.
  destruct (getline s) as [[line rest]|] eqn:Hg.
  - destruct (getline_Some _ _ _ Hg) as [Hl [->|(-> & -> & Hne)]]; [by apply getlines_cons|].
    unfold getlines. rewrite getlines_aux_last by auto. done.
  - by destruct s.
Qed.

Lemma getline_shorter s line rest : getline s = Some (line, rest) -> (length rest < length s)%nat.
Proof.
  intros Hg. destruct (getline_Some _ _ _ Hg) as [_ [->|(-> & -> & Hne)]].
  - rewrite length_app. cbn. lia.
  - by destruct line; cbn; [|lia].
Qed.

(** ** [IndexedFileReader] *)

(** [offsets_]; the file is read afresh by each call. *)
Definition IndexedFileReader : Type := list nat.

(** [while (std::getline(in_, line)) { offsets_.push_back(pos); pos = in_.tellg(); }] *)
Fixpoint reindex_loop (fuel : nat) (s : bytes) (pos : nat) : IndexedFileReader :=
  match fuel with
  | O => []
  | S fuel =>
      match getline s with
      | Some (_, rest) => pos :: reindex_loop fuel rest (pos + (length s - length rest))
      | None => []
      end
  end.
Definition reindex (file : option bytes) : IndexedFileReader :=
  match file with
  | None => []
  | Some s => reindex_loop (S (length s)) s 0
  end.

Definition line_count (r : IndexedFileReader) : nat := length r.

(** [None]: [std::out_of_range]. *)
Definition get_line (file : option bytes) (r : IndexedFileReader) (ind : nat) : option bytes :=
  off ← r !! ind;
  Some match getline (drop off (default [] file)) with Some (line, _) => line | None => [] end.

(** [remove_last_line]: the file cut at the last offset. *)
Definition remove_last_line (s : bytes) (r : IndexedFileReader) : bytes * IndexedFileReader :=
  match last r with
  | None => (s, r)
  | Some cut_point => (take cut_point s, take (length r - 1) r)
  end.

(** ** [Logger] *)

Inductive severity := WARNING | LOW | MED | HIGH.

(** The broken-down time of an entry. *)
Record moment := mk_moment { m_year : Z; m_month : Z; m_day : Z; m_hours : Z; m_minutes : Z; m_seconds : Z }.

Record Logger := mk_logger {
  logCount : Z;
  optionDate : bool; optionTime : bool;
  optionSilenceWarn : bool; optionsWriteLow : bool; optionsWriteMed : bool; optionsWriteHigh : bool
}.
#[export] Instance eta_Logger : Eta Logger := fun l =>
  mk_logger (logCount l) (optionDate l) (optionTime l) (optionSilenceWarn l) (optionsWriteLow l)
    (optionsWriteMed l) (optionsWriteHigh l).

Definition addDate (t : moment) : bytes :=
  to_string (m_year t) ++ lit "-" ++ to_string (m_month t) ++ lit "-" ++ to_string (m_day t) ++ lit " ".
Definition addTime (t : moment) : bytes :=
  to_string (m_hours t) ++ lit ":" ++ to_string (m_minutes t) ++ lit ":" ++ to_string (m_seconds t) ++ lit " ".
Definition writePrefix (l : Logger) (t : moment) (index : Z) : bytes :=
  lit "[" ++ to_string index ++ lit "] " ++ (if optionDate l then addDate t else []) ++
  (if optionTime l then addTime t else []).

Definition canBeWritten (l : Logger) (type : severity) : bool :=
  match type with
  | HIGH => optionsWriteHigh l
  | MED => optionsWriteMed l
  | LOW => optionsWriteLow l
  | WARNING => negb (optionSilenceWarn l)
  end.
Definition label (type : severity) : bytes :=
  match type with HIGH => lit "HIGH" | MED => lit "MED" | LOW => lit "LOW" | WARNING => lit "WARN" end.

Definition editWrites (silenceWarnings silenceLow silenceMed silenceHigh : bool) (l : Logger) : Logger :=
  l <| optionSilenceWarn := silenceWarnings |> <| optionsWriteLow := negb silenceLow |>
    <| optionsWriteMed := negb silenceMed |> <| optionsWriteHigh := negb silenceHigh |>.

(** The constructor on a file that can be opened for append. *)
Definition new_logger (file : option bytes) (date time : bool) (t : moment) : Logger * bytes :=
  let s := default [] file in
  let l := mk_logger (Z.of_nat (line_count (reindex (Some s)))) date time false true true true in
  (l <| logCount ::= (fun n => (n + 1)%Z) |>, s ++ writePrefix l t (logCount l) ++ lit "Created." ++ [ch_nl]).

(** [Logger::write] on a file that can be opened for append. *)
Definition write (l : Logger) (s : bytes) (t : moment) (message : bytes) (level : severity) : Logger * bytes :=
  if canBeWritten l level then
    (l <| logCount ::= (fun n => (n + 1)%Z) |>,
     s ++ writePrefix l t (logCount l) ++ label level ++ lit ": " ++ message ++ [ch_nl])
  else (l, s).

(** [None]: [std::runtime_error], the log is empty. *)
Definition readLast (s : bytes) : option bytes :=
  let r := reindex (Some s) in
  if decide (line_count r = O) then None
  else line ← get_line (Some s) r (line_count r - 1); Some (line ++ [ch_nl]).

Definition clearLast (l : Logger) (s : bytes) : Logger * bytes :=
  let '(s', r) := remove_last_line s (reindex (Some s)) in
  (l <| logCount := Z.of_nat (line_count r) |>, s').

(** ** The front-end *)

Inductive LogLevel := Info | Warn | Error | Critical.
#[export] Instance LogLevel_eq_dec : EqDecision LogLevel.
Proof. solve_decision. Defined.
Definition kMaxCriticalEntries : nat := 50.

(** The log file, the statics of log.h, and what went to stderr. *)
Record LogWorld := mk_log {
  file : option bytes;
  file_logger : option Logger;
  log_reader : option IndexedFileReader;
  log_cursor : nat;
  critical_log : list bytes;
  stderr : bytes
}.
#[export] Instance eta_LogWorld : Eta LogWorld := fun w =>
  mk_log (file w) (file_logger w) (log_reader w) (log_cursor w) (critical_log w) (stderr w).

Definition log_critical_entries (w : LogWorld) : list bytes := critical_log w.

(** [open]: whether the file can be opened for append. *)
Definition log_init (path : bytes) (open : bool) (t : moment) (w : LogWorld) : LogWorld :=
  if decide (path = []) then w
  else if open then
    let '(l, s) := new_logger (file w) true true t in
    w <| file := Some s |> <| file_logger := Some l |> <| log_reader := Some (reindex (Some s)) |>
      <| log_cursor := O |>
  else
    w <| file_logger := None |> <| log_reader := None |>
      <| stderr ::= (fun e => e ++ lit "[log] file logging disabled (Logger [" ++ path ++
                              lit "] could not open its file.)" ++ [ch_nl]) |>.

(** The loop of [log_pull_new] over the new lines. *)
Fixpoint pull_lines (f : option bytes) (r : IndexedFileReader) (i k : nat) : option (list bytes) :=
  match k with
  | O => Some []
  | S k => line ← get_line f r i; rest ← pull_lines f r (S i) k; Some (line :: rest)
  end.

(** [None]: an exception escapes. *)
Definition log_pull_new (w : LogWorld) : option (list bytes * LogWorld) :=
  match log_reader w with
  | None => Some ([], w)
  | Some _ =>
      let reader := reindex (file w) in
      let n := line_count reader in
      let cursor := if (n <? log_cursor w)%nat then n else log_cursor w in
      out ← pull_lines (file w) reader cursor (n - cursor);
      Some (out, w <| log_reader := Some reader |> <| log_cursor := n |>)
  end.

Definition level_tag (l : LogLevel) : bytes :=
  match l with
  | Info => lit "[INFO]~" | Warn => lit "[WARN]~" | Error => lit "[ERROR]~" | Critical => lit "[CRIT]~"
  end.

(** The history of [log_msg]: [push_back], and [pop_front] past the cap. *)
Definition note_critical (ts msg : bytes) (w : LogWorld) : LogWorld :=
  let entries := critical_log w ++ [lit "[" ++ ts ++ lit "] " ++ msg] in
  w <| critical_log := if (kMaxCriticalEntries <? length entries)%nat then tail entries else entries |>.

(** [file_logger()->write(m, sev)], in its [try] block. *)
Definition mirror (open : bool) (t : moment) (sev : severity) (m : bytes) (w : LogWorld) : LogWorld :=
  match file_logger w with
  | None => w
  | Some l =>
      if open then
        let '(l', s) := write l (default [] (file w)) t m sev in
        w <| file_logger := Some l' |> <| file := Some s |>
      else if canBeWritten l sev then
        w <| stderr ::= (fun e => e ++ lit "[log] file write failed (Logger: could not open file to write.)" ++ [ch_nl]) |>
      else w
  end.

(** [log_msg], on the formatted message; [ts] is the formatted local time. *)
Definition log_msg (open : bool) (t : moment) (ts : bytes) (level : LogLevel) (text : bytes) (w : LogWorld) : LogWorld :=
  let msg := take 1023 text in
  let w := w <| stderr ::= (fun e => e ++ lit "[" ++ ts ++ lit "] " ++ level_tag level ++ lit " " ++ msg ++ [ch_nl]) |> in
  match level with
  | Info => w
  | Critical => mirror open t HIGH (lit "CRITICAL: " ++ msg) (note_critical ts msg w)
  | Error => mirror open t HIGH msg w
  | Warn => mirror open t WARNING msg w
  end.

(** ** The index of lines *)

Lemma reindex_loop_spec fuel pre s :
  (length s < fuel)%nat ->
  let r := reindex_loop fuel s (length pre) in
  length r = length (getlines s) /\
  forall i, get_line (Some (pre ++ s)) r i = getlines s !! i.
Proof.
  revert pre s. induction fuel as [|fuel IH]; intros pre s Hf; [lia|]. cbn [reindex_loop].
  rewrite getlines_getline. destruct (getline s) as [[line rest]|] eqn:Hg; [|by split].
  pose proof (getline_shorter _ _ _ Hg) as Hs.
  assert (exists mid, s = mid ++ rest) as [mid Hmid].
  { destruct (getline_Some _ _ _ Hg) as [_ [->|(-> & -> & _)]].
    - exists (line ++ [ch_nl]). by rewrite <- (assoc_L app).
    - exists line. by rewrite app_nil_r. }
  destruct (IH (pre ++ mid) rest) as [Hn Hget]; [lia|].
  assert ((length pre + (length s - length rest))%nat = length (pre ++ mid)) as ->.
  { rewrite Hmid, !length_app. lia. }
  split; [cbn; by rewrite Hn|]. intros [|i].
  - unfold get_line. cbn. by rewrite drop_app_length, Hg.
  - cbn [lookup list_lookup]. rewrite <- Hget. unfold get_line. cbn. by rewrite Hmid, (assoc_L app).
Qed.

Lemma reindex_spec s :
  line_count (reindex (Some s)) = length (getlines s) /\
  forall i, get_line (Some s) (reindex (Some s)) i = getlines s !! i.
Proof. exact (reindex_loop_spec (S (length s)) [] s ltac:(lia)). Qed.

Lemma pull_lines_spec s i k :
  (i + k <= length (getlines s))%nat ->
  pull_lines (Some s) (reindex (Some s)) i k = Some (take k (drop i (getlines s))).
Proof.
  revert i. induction k as [|k IH]; intros i Hi; cbn [pull_lines]; [done|].
  rewrite (proj2 (reindex_spec s)). destruct (lookup_lt_is_Some_2 (getlines s) i) as [x Hx]; [lia|].
  rewrite Hx. cbn [mbind option_bind]. rewrite IH by lia. cbn. by rewrite (drop_S _ _ _ Hx).
Qed.

(** ** Appending entries *)

(** A file made of complete lines. *)
Definition complete (s : bytes) : Prop := s = [] \/ exists s', s = s' ++ [ch_nl].

Lemma getlines_app s u : complete s -> getlines (s ++ u) = getlines s ++ getlines u.
Proof.
  remember (length s) as n eqn:Hn. revert s Hn. induction (lt_wf n) as [n _ IH]. intros s -> Hc.
  destruct Hc as [->|[s' ->]]; [done|].
  rewrite (getlines_getline (s' ++ [ch_nl])), (getlines_getline ((s' ++ [ch_nl]) ++ u)).
  destruct (getline (s' ++ [ch_nl])) as [[line rest]|] eqn:Hg; [|by destruct s'].
  destruct (getline_Some _ _ _ Hg) as [Hl [He|(He & -> & _)]].
  2: { rewrite <- He in Hl. destruct Hl. apply elem_of_app. right. by left. }
  assert (complete rest) as Hr.
  { destruct rest as [|c rest _] using rev_ind; [by left|]. right. exists rest.
    rewrite app_comm_cons, (assoc_L app) in He. by apply app_inj_2 in He as [_ [= ->]]. }
  rewrite He, <- (assoc_L app). cbn [app].
  assert (getline (line ++ ch_nl :: rest ++ u) = Some (line, rest ++ u)) as ->.
  { unfold getline. destruct (line ++ ch_nl :: rest ++ u) as [|c t] eqn:E; [by destruct line|]. rewrite <- E.
    rewrite find_char_app by done. f_equal. f_equal; [by rewrite take_app_length|].
    by rewrite cons_middle, (assoc_L app), drop_app_length' by (rewrite length_app; cbn; lia). }
  cbn [app]. f_equal. eapply IH; [|reflexivity|done].
  rewrite He, length_app. cbn. lia.
Qed.

Lemma complete_app s u : complete s -> complete u -> complete (s ++ u).
Proof.
  intros Hs [->|[u' ->]]; [by rewrite app_nil_r|]. right. exists (s ++ u'). by rewrite (assoc_L app).
Qed.
Lemma complete_nl u : complete (u ++ [ch_nl]).
Proof. right. by exists u. Qed.
#[local] Hint Resolve complete_nl : castle.

Lemma write_appends l s t m sev : exists u, (write l s t m sev).2 = s ++ u /\ complete u.
Proof.
  unfold write. destruct (canBeWritten l sev).
  - eexists. split; [reflexivity|]. rewrite !(assoc_L app). apply complete_nl.
  - exists []. split; [by rewrite app_nil_r|by left].
Qed.

(** ** Sequences of calls *)

Inductive log_op :=
  | Msg (open : bool) (t : moment) (ts : bytes) (level : LogLevel) (text : bytes)
  | Pull.

(** The lines the pulls have returned, in order, and the world after. *)
Fixpoint run_log (ops : list log_op) (w : LogWorld) : option (list bytes * LogWorld) :=
  match ops with
  | [] => Some ([], w)
  | Msg open t ts level text :: ops => run_log ops (log_msg open t ts level text w)
  | Pull :: ops =>
      '(out, w) ← log_pull_new w;
      '(more, w) ← run_log ops w;
      Some (out ++ more, w)
  end.

(** The lines of the log file. *)
Definition lines (w : LogWorld) : list bytes := getlines (default [] (file w)).

Record log_wf (w : LogWorld) : Prop := {
  lw_reader : is_Some (log_reader w);
  lw_file : exists s, file w = Some s /\ complete s;
  lw_cursor : (log_cursor w <= length (lines w))%nat
}.

Lemma log_msg_wf open t ts level text w :
  log_wf w ->
  let w' := log_msg open t ts level text w in
  log_wf w' /\ log_cursor w' = log_cursor w /\ exists more, lines w' = lines w ++ more.
Proof.
  intros [Hr (s & Hs & Hc) Hcur].
  assert (forall w', file w' = file w -> log_reader w' = log_reader w -> log_cursor w' = log_cursor w ->
            log_wf w' /\ log_cursor w' = log_cursor w /\ exists more, lines w' = lines w ++ more) as Hsame.
  { intros w' H1 H2 H3. unfold lines in *. split_and!; [split; unfold lines|done|exists []; by rewrite H1, app_nil_r].
    - by rewrite H2.
    - rewrite H1. by exists s.
    - by rewrite H1, H3. }
  assert (forall w1 sev m, file w1 = file w -> log_reader w1 = log_reader w -> log_cursor w1 = log_cursor w ->
    let w' := mirror open t sev m w1 in
    log_wf w' /\ log_cursor w' = log_cursor w /\ exists more, lines w' = lines w ++ more) as Hmirror.
  { intros w1 sev m H1 H2 H3. cbv zeta. unfold mirror. destruct (file_logger w1) as [l|]; [|by apply Hsame].
    destruct open; [|destruct (canBeWritten l sev); by apply Hsame].
    destruct (write_appends l (default [] (file w1)) t m sev) as (u & Hu & Hcu).
    destruct (write l _ t m sev) as [l' s'] eqn:Hw. cbn in Hu. subst s'. rewrite H1, Hs. cbn.
    unfold lines. cbn. rewrite Hs. cbn. rewrite (getlines_app s u Hc).
    split_and!; [split; unfold lines; cbn|done|by eexists].
    - by rewrite H2.
    - eexists. split; [done|]. by apply complete_app.
    - rewrite getlines_app, length_app by done. unfold lines in Hcur. rewrite Hs in Hcur. cbn in Hcur. rewrite H3. lia. }
  unfold log_msg. cbv zeta. destruct level; [by apply Hsame|by apply Hmirror..].
Qed.

Lemma log_pull_wf w :
  log_wf w ->
  exists w', log_pull_new w = Some (drop (log_cursor w) (lines w), w') /\ log_wf w' /\
    file w' = file w /\ log_cursor w' = length (lines w).
Proof.
  intros [[r Hr] (s & Hs & Hc) Hcur]. unfold log_pull_new. rewrite Hr, Hs. unfold lines in *. rewrite Hs in *.
  change (default [] (Some s)) with s in *. rewrite (proj1 (reindex_spec s)).
  rewrite (proj2 (Nat.ltb_ge _ _)) by done.
  rewrite pull_lines_spec by lia. cbn [mbind option_bind]. rewrite take_ge by (rewrite length_drop; lia).
  eexists. split; [done|]. split_and!; [|by cbn; rewrite Hs|done].
  split; cbn; [by eexists|rewrite Hs; by exists s|]. unfold lines. cbn. by rewrite Hs.
Qed.

Lemma run_log_spec ops w :
  log_wf w ->
  exists out w', run_log ops w = Some (out, w') /\ log_wf w' /\
    take (log_cursor w) (lines w) ++ out = take (log_cursor w') (lines w').
Proof.
  revert w. induction ops as [|[open t ts level text|] ops IH]; intros w H; cbn [run_log].
  - exists [], w. split_and!; [done..|]. by rewrite app_nil_r.
  - destruct (log_msg_wf open t ts level text w H) as (H1 & Hcur & more & Hl).
    destruct (IH _ H1) as (out & w' & -> & H2 & He). exists out, w'. split_and!; [done..|].
    rewrite <- He, Hcur, Hl. rewrite take_app_le; [done|]. apply H.
  - destruct (log_pull_wf w H) as (w1 & -> & H1 & Hf & Hcur). cbn [mbind option_bind].
    destruct (IH _ H1) as (out & w' & -> & H2 & He). cbn. eexists _, w'. split_and!; [done..|].
    rewrite <- He, Hcur. unfold lines at 4. rewrite Hf. fold (lines w).
    rewrite (assoc_L app), take_drop. by rewrite take_ge by done.
Qed.

Lemma reindex_loop_cut fuel pre s i off :
  complete pre -> (length s < fuel)%nat ->
  reindex_loop fuel s (length pre) !! i = Some off ->
  getlines (take off (pre ++ s)) = getlines pre ++ take i (getlines s).
Proof.
  revert pre s i. induction fuel as [|fuel IH]; intros pre s i Hp Hf; [lia|]. cbn [reindex_loop].
  rewrite (getlines_getline s). destruct (getline s) as [[line rest]|] eqn:Hg; [|done].
  pose proof (getline_shorter _ _ _ Hg) as Hs. destruct i as [|i]; cbn.
  - intros [= <-]. by rewrite take_app_length, app_nil_r.
  - destruct (getline_Some _ _ _ Hg) as [Hl [He|(He & -> & _)]].
    2: { destruct fuel; [done|]. by destruct i. }
    assert ((length pre + (length s - length rest))%nat = length (pre ++ line ++ [ch_nl])) as ->.
    { rewrite He, !length_app. cbn. lia. }
    intros Hi. rewrite He. replace (pre ++ line ++ ch_nl :: rest) with ((pre ++ line ++ [ch_nl]) ++ rest)
      by by rewrite <- !(assoc_L app).
    rewrite (IH (pre ++ line ++ [ch_nl]) rest i (complete_app _ _ Hp (complete_nl line)) ltac:(lia) Hi).
    rewrite getlines_app by done. rewrite <- (assoc_L app). f_equal.
    by rewrite getlines_cons.
Qed.

Lemma mirror_critical open t sev m w : critical_log (mirror open t sev m w) = critical_log w.
Proof.
  unfold mirror. destruct (file_logger w) as [l|]; [|done]. destruct open.
  - by destruct (write _ _ _ _ _).
  - by destruct (canBeWritten _ _).
Qed.

Lemma critical_step open t ts level text w :
  critical_log (log_msg open t ts level text w) =
    match level with
    | Critical =>
        let entries := critical_log w ++ [lit "[" ++ ts ++ lit "] " ++ take 1023 text] in
        if (kMaxCriticalEntries <? length entries)%nat then tail entries else entries
    | _ => critical_log w
    end.
Proof. unfold log_msg. destruct level; by rewrite ?mirror_critical. Qed.

(** The entries the critical messages of [ops] make, in order. *)
Definition criticals (ops : list log_op) : list bytes :=
  omap (fun op => match op with
                  | Msg _ _ ts Critical text => Some (lit "[" ++ ts ++ lit "] " ++ take 1023 text)
                  | _ => None
                  end) ops.
(** The last [n] of [l]. *)
Definition newest (n : nat) {A} (l : list A) : list A := drop (length l - n) l.

Lemma newest_snoc {A} n (l : list A) x :
  (0 < n)%nat ->
  newest n (l ++ [x]) =
    if (n <? length (newest n l ++ [x]))%nat then tail (newest n l ++ [x]) else newest n l ++ [x].
Proof.
  intros Hn. unfold newest. rewrite !length_app, length_drop. cbn [length].
  destruct (_ <? _)%nat eqn:E; bool_to_prop.
  - assert (drop (length l - n) l <> []) as Hne.
    { intros He%(f_equal length). rewrite length_drop in He. cbn in He. lia. }
    replace (length l + 1 - n)%nat with (S (length l - n)) by lia.
    rewrite drop_app_le by lia. destruct (drop (length l - n) l) as [|y r] eqn:Hd; [done|].
    cbn. f_equal. rewrite <- Nat.add_1_r, <- drop_drop, Hd. done.
  - rewrite drop_app_le by lia. f_equal. f_equal. lia.
Qed.

(** ** Properties *)

(** After [reindex], [get_line(i)] is the [i]-th line of the file, [line_count] the
    number of lines, and an index past the end throws. *)
Theorem reindex_get_line s :
  let r := reindex (Some s) in
  line_count r = length (getlines s) /\ forall i, get_line (Some s) r i = getlines s !! i.
Proof. apply reindex_spec. Qed.

(** [readLast] shows the last line. *)
Theorem readLast_spec s : readLast s = (fun line => line ++ [ch_nl]) <$> last (getlines s).
Proof.
  unfold readLast. destruct (reindex_get_line s) as [Hn Hg]. cbv zeta in Hg. rewrite Hn, Hg, last_lookup.
  destruct (getlines s) as [|l ls]; [done|]. rewrite decide_False by done.
  replace (length (l :: ls) - 1)%nat with (pred (length (l :: ls))) by (cbn; lia).
  by destruct ((l :: ls) !! _).
Qed.

(** [clearLast] removes the last line of the log and nothing else, and entries are
    numbered on from there. *)
Theorem clearLast_spec l s :
  let '(l', s') := clearLast l s in
  getlines s' = take (length (getlines s) - 1) (getlines s) /\
  logCount l' = Z.of_nat (length (getlines s')).
Proof.
  unfold clearLast, remove_last_line. pose proof (proj1 (reindex_spec s)) as Hn.
  assert (forall i off, reindex (Some s) !! i = Some off -> getlines (take off s) = take i (getlines s)) as Hcut.
  { intros i off. exact (reindex_loop_cut (S (length s)) [] s i off ltac:(by left) ltac:(lia)). }
  generalize dependent (reindex (Some s)). unfold line_count. intros r Hn Hcut.
  destruct (last r) as [cut|] eqn:Hc; cbn.
  - rewrite last_lookup in Hc. rewrite (Hcut _ _ Hc), !length_take, Hn.
    split; [f_equal; lia|]. lia.
  - apply last_None in Hc as ->. cbn in Hn. rewrite <- Hn. split; [|done]. by destruct (getlines s).
Qed.

(** C39: nothing is lost or shown twice: whatever is logged between the operator's [errors]
    commands, the lines they have shown, in order, are the beginning of the log file, and
    one more command shows exactly the rest. *)
Theorem log_pull_exact path t w ops :
  path <> [] ->
  exists out w' rest w'',
    run_log ops (log_init path true t w) = Some (out, w') /\
    log_pull_new w' = Some (rest, w'') /\ out ++ rest = lines w' /\ lines w'' = lines w'.
Proof.
  intros Hp. set (w0 := log_init path true t w).
  assert (log_wf w0 /\ log_cursor w0 = O) as [H0 Hc0].
  { unfold w0, log_init. rewrite decide_False by done. unfold new_logger. cbn. split; [|done].
    split; cbn; [by eexists| |lia]. eexists. split; [done|]. rewrite !(assoc_L app). apply complete_nl. }
  destruct (run_log_spec ops w0 H0) as (out & w' & Hr & H1 & He). rewrite Hc0, take_0 in He. cbn in He.
  destruct (log_pull_wf w' H1) as (w'' & Hp' & _ & Hf & _).
  exists out, w', (drop (log_cursor w') (lines w')), w''. split_and!; [done..| |by unfold lines; rewrite Hf].
  by rewrite He, take_drop.
Qed.

Definition sample_log : list log_op :=
  [Msg true (mk_moment 2026 8 18 1 2 3) (lit "ts") Warn (lit "slow"); Pull;
   Msg true (mk_moment 2026 8 18 1 2 4) (lit "ts") Critical (lit "no uplink");
   Msg true (mk_moment 2026 8 18 1 2 5) (lit "ts") Info (lit "hello"); Pull].
Definition no_log : LogWorld := mk_log None None None 0 [] [].

Example log_pull_exact_witness :
  lit "/tmp/l" <> [] /\
  exists out w' rest w'',
    run_log sample_log (log_init (lit "/tmp/l") true (mk_moment 2026 8 18 1 2 0) no_log) = Some (out, w') /\
    log_pull_new w' = Some (rest, w'') /\ out ++ rest = lines w' /\ lines w'' = lines w'.
Proof. split; [done|]. by apply (log_pull_exact (lit "/tmp/l")). Defined.
Example sample_log_ex :
  fst <$> run_log sample_log (log_init (lit "/tmp/l") true (mk_moment 2026 8 18 1 2 0) no_log) =
  Some [lit "[0] 2026-8-18 1:2:0 Created."; lit "[1] 2026-8-18 1:2:3 WARN: slow";
        lit "[2] 2026-8-18 1:2:4 HIGH: CRITICAL: no uplink"].
Proof. vm_compute. reflexivity. Qed.

(** The in-memory history is the last fifty critical messages, whatever else is logged
    or pulled, and whether or not the log file works. *)
Theorem critical_history ops w out w' :
  run_log ops w = Some (out, w') ->
  (length (critical_log w) <= kMaxCriticalEntries)%nat ->
  log_critical_entries w' = newest kMaxCriticalEntries (critical_log w ++ criticals ops).
Proof.
  unfold log_critical_entries.
  assert (forall l, critical_log w = newest kMaxCriticalEntries l -> run_log ops w = Some (out, w') ->
            critical_log w' = newest kMaxCriticalEntries (l ++ criticals ops)) as H.
  { revert w out. induction ops as [|[open t ts level text|] ops IH]; intros w out l Hl; cbn [run_log].
    - intros [= <- <-]. by rewrite app_nil_r.
    - intros Hr. destruct (decide (level = Critical)) as [->|Hlevel].
      + unfold criticals. cbn [omap list_omap]. rewrite cons_middle, (assoc_L app). eapply IH; [|exact Hr].
        rewrite critical_step, Hl. cbv zeta. rewrite newest_snoc by (unfold kMaxCriticalEntries; lia). done.
      + assert (criticals (Msg open t ts level text :: ops) = criticals ops) as -> by by destruct level.
        eapply IH; [|exact Hr]. rewrite critical_step. by destruct level.
    - destruct (log_pull_new w) as [[o w1]|] eqn:Hp; [|done]. cbn.
      destruct (run_log ops w1) as [[o2 w2]|] eqn:Hr; [|done]. cbn. intros [= _ <-].
      eapply (IH w1); [|exact Hr]. rewrite <- Hl. unfold log_pull_new in Hp.
      destruct (log_reader w); [|by injection Hp as _ <-].
      destruct (pull_lines _ _ _ _); [|done]. by injection Hp as _ <-. }
  intros Hr Hlen. apply H; [|done]. unfold newest. by replace (length _ - _)%nat with O by lia.
Qed.

Example critical_history_witness :
  exists out w', run_log sample_log no_log = Some (out, w') /\
    log_critical_entries w' = newest kMaxCriticalEntries (critical_log no_log ++ criticals sample_log) /\
    log_critical_entries w' = [lit "[ts] no uplink"].
Proof.
  eexists _, _. split; [vm_compute; reflexivity|]. split; [|reflexivity].
  apply (critical_history sample_log no_log _ _ eq_refl). cbn. lia.
Defined.
