(* ===== verification/Autocorrect.v ===== *)
(** * Autocorrect: suggesting a word for a mistyped one

    Models [bstd::autoCorrectFilter] of src/src/util/autocorrect.hpp, which the control
    server asks for the command the operator may have meant. An index past the end of a
    [std::string_view] is [None]: [fixHelper_total] shows that there is none, and that
    the loop ends. Lengths and costs are far below 2^64: a word is at most as long as a
    line, and a letter costs at most 255. *)
From S2P Require Import Prelude Text.
Open Scope Z_scope.

Definition kMaxDistance : Z := 255.
Definition SIZE_MAX : Z := 2 ^ 64 - 1.

Definition lookupGrid : list (list Z) :=
  [[0; 5; 3; 2; 2; 3; 4; 5; 7; 6; 7; 8; 7; 6; 8; 9; 1; 3; 1; 4; 6; 4; 1; 2; 5; 1];
   [5; 0; 2; 3; 4; 2; 1; 1; 3; 2; 3; 4; 2; 1; 4; 5; 5; 3; 4; 3; 3; 1; 4; 3; 2; 4];
   [3; 2; 0; 1; 3; 1; 2; 3; 5; 4; 5; 6; 4; 3; 6; 7; 4; 2; 2; 3; 4; 1; 3; 1; 3; 2];
   [2; 3; 1; 0; 1; 1; 2; 3; 5; 4; 5; 6; 5; 4; 6; 7; 3; 1; 1; 2; 4; 2; 2; 1; 3; 2];
   [2; 4; 3; 1; 0; 2; 3; 3; 5; 4; 5; 6; 5; 4; 6; 7; 2; 1; 1; 2; 4; 3; 1; 2; 3; 3];
   [3; 2; 1; 1; 2; 0; 1; 2; 4; 3; 4; 5; 4; 3; 5; 6; 3; 1; 2; 1; 3; 1; 3; 2; 2; 3];
   [4; 1; 2; 2; 3; 1; 0; 1; 3; 2; 3; 4; 3; 2; 4; 5; 4; 2; 3; 1; 2; 1; 3; 3; 1; 4];
   [5; 1; 3; 3; 3; 2; 1; 0; 2; 1; 2; 3; 2; 1; 3; 4; 5; 3; 4; 2; 1; 2; 4; 4; 1; 5];
   [7; 3; 5; 5; 5; 4; 3; 2; 0; 1; 1; 2; 2; 3; 1; 2; 7; 4; 6; 3; 1; 4; 6; 6; 2; 7];
   [6; 2; 4; 4; 4; 3; 2; 1; 1; 0; 1; 2; 1; 1; 2; 3; 6; 3; 5; 3; 1; 3; 5; 5; 2; 6];
   [7; 3; 5; 5; 5; 4; 3; 2; 1; 1; 0; 1; 1; 2; 1; 2; 7; 4; 6; 3; 2; 4; 6; 6; 3; 7];
   [8; 4; 6; 6; 6; 5; 4; 3; 2; 2; 1; 0; 2; 3; 1; 1; 8; 5; 7; 4; 3; 5; 7; 7; 3; 8];
   [7; 2; 4; 5; 5; 4; 3; 2; 2; 1; 1; 2; 0; 1; 3; 3; 7; 4; 6; 4; 3; 3; 6; 5; 3; 6];
   [6; 1; 3; 4; 4; 3; 2; 1; 3; 1; 2; 3; 1; 0; 3; 4; 6; 4; 5; 3; 2; 2; 5; 4; 3; 5];
   [8; 4; 6; 6; 6; 5; 4; 3; 1; 2; 1; 1; 3; 3; 0; 1; 8; 5; 7; 4; 2; 5; 7; 7; 3; 8];
   [9; 5; 7; 7; 7; 6; 5; 4; 2; 3; 2; 1; 3; 4; 1; 0; 9; 6; 8; 5; 3; 6; 8; 8; 4; 9];
   [1; 5; 4; 3; 2; 3; 4; 5; 7; 6; 7; 8; 7; 6; 8; 9; 0; 3; 2; 4; 6; 4; 1; 3; 5; 3];
   [3; 3; 2; 1; 1; 1; 2; 3; 4; 3; 4; 5; 4; 4; 5; 6; 3; 0; 2; 1; 3; 3; 2; 3; 2; 3];
   [1; 4; 2; 1; 1; 2; 3; 4; 6; 5; 6; 7; 6; 5; 7; 8; 2; 2; 0; 3; 5; 3; 1; 1; 4; 1];
   [4; 3; 3; 2; 2; 1; 1; 2; 3; 3; 3; 4; 4; 3; 4; 5; 4; 1; 3; 0; 2; 2; 3; 3; 1; 4];
   [6; 3; 4; 4; 4; 3; 2; 1; 1; 1; 2; 3; 3; 2; 2; 3; 6; 3; 5; 2; 0; 3; 5; 5; 1; 6];
   [4; 1; 1; 2; 3; 1; 1; 2; 4; 3; 4; 5; 3; 2; 5; 6; 4; 3; 3; 2; 3; 0; 4; 2; 3; 3];
   [1; 4; 3; 2; 1; 3; 3; 4; 6; 5; 6; 7; 6; 5; 7; 8; 1; 2; 1; 3; 5; 4; 0; 3; 4; 2];
   [2; 3; 1; 1; 2; 2; 3; 4; 6; 5; 6; 7; 5; 4; 7; 8; 3; 3; 1; 3; 5; 2; 3; 0; 4; 1];
   [5; 2; 3; 3; 3; 2; 1; 1; 2; 2; 3; 3; 3; 3; 3; 4; 5; 2; 4; 1; 1; 3; 4; 4; 0; 5];
   [1; 4; 2; 2; 3; 3; 4; 5; 7; 6; 7; 8; 6; 5; 8; 9; 3; 3; 1; 4; 6; 3; 2; 1; 5; 0]].

Definition findLetterDistance (c d : ascii) : Z :=
  let a := code (tolower c) - 97 in
  let b := code (tolower d) - 97 in
  if (a <? 0) || (25 <? a) || (b <? 0) || (25 <? b) then kMaxDistance
  else nth (Z.to_nat b) (nth (Z.to_nat a) lookupGrid []) 0.

Definition kSwapCost : Z := 1.
Definition kGapCost : Z := 2.

(** [findLetterDistance(s[i], t[j])], and [same(s[i], t[j])]. *)
Definition distance_at (s : bytes) (i : nat) (t : bytes) (j : nat) : option Z :=
  c ← s !! i; d ← t !! j; Some (findLetterDistance c d).
Definition same_at (s : bytes) (i : nat) (t : bytes) (j : nat) : option bool :=
  (fun d => d =? 0) <$> distance_at s i t j.
(** [b && m], where [m] is evaluated only when [b] holds. *)
Definition and_then (b : bool) (m : option bool) : option bool := if b then m else Some false.

(** One turn of the loop: the cursors and what the turn costs. *)
Definition fix_step (input word : bytes) (i j : nat) : option (nat * nat * Z) :=
  let n := length input in
  let m := length word in
  d ← distance_at input i word j;
  if d =? 0 then Some (S i, S j, 0)
  else
    swap ← and_then ((S i <? n)%nat && (S j <? m)%nat)
             (b ← same_at input i word (S j); and_then b (same_at input (S i) word j));
    if (swap : bool) then Some (S (S i), S (S j), kSwapCost)
    else
      missing ← and_then (n - i <? m - j)%nat (same_at input i word (S j));
      if (missing : bool) then Some (i, S j, kGapCost)
      else
        extra ← and_then (m - j <? n - i)%nat (same_at input (S i) word j);
        if (extra : bool) then Some (S i, j, kGapCost)
        else Some (S i, S j, d).

Fixpoint fix_loop (fuel : nat) (input word : bytes) (i j : nat) (total : Z) : option Z :=
  if (i <? length input)%nat && (j <? length word)%nat then
    match fuel with
    | O => None
    | S fuel =>
        match fix_step input word i j with
        | Some (i', j', cost) => fix_loop fuel input word i' j' (total + cost)
        | None => None
        end
    end
  else Some (total + kGapCost * Z.of_nat ((length input - i) + (length word - j))).

Record autoCorrectFilter := mk_filter {
  sensitivity : nat;
  dictionary : gmap nat (list bytes)
}.

(** [_dictionary[str.length()].push_back(str)], for each word. *)
Definition add_word (d : gmap nat (list bytes)) (str : bytes) : gmap nat (list bytes) :=
  <[length str := default [] (d !! length str) ++ [str]]> d.
Definition new_filter (sensitivity : nat) (words : list bytes) : autoCorrectFilter :=
  mk_filter sensitivity (foldl add_word ∅ words).

(** The outer [option] is as in [fix_loop]; the inner one is the [std::optional]. *)
Definition fixHelper (f : autoCorrectFilter) (input word : bytes) : option (option Z) :=
  (fun total => if Z.of_nat (sensitivity f) <? total then None else Some total) <$>
    fix_loop (length input + length word) input word 0 0 0.

(** The body of the loop over the pool: [bestMatch] and [bestMatchDistance]. *)
Definition consider (f : autoCorrectFilter) (str : bytes) (best : bytes * Z) (word : bytes) : bytes * Z :=
  match fixHelper f str word with
  | Some (Some count) =>
      if (count <? best.2) || ((count =? best.2) && (length best.1 <? length word)%nat)
      then (word, count) else best
  | _ => best
  end.

(** Candidates of length [lo], ..., [lo + k - 1]. *)
Definition pool (f : autoCorrectFilter) (lo k : nat) : list bytes :=
  seq lo k ≫= (fun len => default [] (dictionary f !! len)).

Definition fix_word (f : autoCorrectFilter) (str : bytes) : bytes :=
  let strLen := length str in
  let minFind := if (sensitivity f <? strLen)%nat then (strLen - sensitivity f)%nat else O in
  let maxFind := (strLen + sensitivity f)%nat in
  (foldl (consider f str) (str, SIZE_MAX) (pool f minFind (S maxFind - minFind))).1.

Example fix_ex :
  fix_word (new_filter 3 [lit "help"; lit "health"; lit "exit"]) (lit "helth") = lit "health".
Proof. vm_compute. reflexivity. Qed.

(** ** The grid *)

(** A letter of either case. *)
Definition letter (c : ascii) : bool := (97 <=? code (tolower c)) && (code (tolower c) <=? 122).

Lemma every_pair (p : ascii -> ascii -> bool) :
  forallb (fun c => forallb (p c) (ascii_of_nat <$> seq 0 256)) (ascii_of_nat <$> seq 0 256) = true ->
  forall c d, p c d = true.
Proof. intros H c. apply every_char. by apply (every_char (fun c => forallb (p c) _)). Qed.

Lemma distance_range c d : 0 <= findLetterDistance c d <= 255.
Proof.
  pose proof (every_pair (fun c d => (0 <=? findLetterDistance c d) && (findLetterDistance c d <=? 255))
                ltac:(vm_compute; reflexivity) c d) as H.
  cbn beta in H. bool_to_prop. lia.
Qed.

Lemma distance_zero c d :
  findLetterDistance c d = 0 <-> letter c = true /\ tolower c = tolower d.
Proof.
  pose proof (every_pair (fun c d => Bool.eqb (findLetterDistance c d =? 0)
      (letter c && Ascii.eqb (tolower c) (tolower d))) ltac:(vm_compute; reflexivity) c d) as H.
  apply eqb_prop in H. by rewrite <- Z.eqb_eq, H, andb_true_iff, Ascii.eqb_eq.
Qed.

(** ** The loop *)

Lemma distance_at_Some s i t j :
  (i < length s)%nat -> (j < length t)%nat ->
  exists c d, s !! i = Some c /\ t !! j = Some d /\ distance_at s i t j = Some (findLetterDistance c d).
Proof.
  intros [c Hc]%lookup_lt_is_Some_2 [d Hd]%lookup_lt_is_Some_2. exists c, d.
  unfold distance_at. by rewrite Hc, Hd.
Qed.

Lemma same_at_Some s i t j :
  (i < length s)%nat -> (j < length t)%nat -> exists b, same_at s i t j = Some b.
Proof.
  intros Hi Hj. unfold same_at. destruct (distance_at_Some s i t j Hi Hj) as (c & d & _ & _ & ->). by eexists.
Qed.

Lemma and_then_Some b m : (b = true -> exists x, m = Some x) -> exists x, and_then b m = Some x /\ (x = true -> b = true).
Proof.
  destruct b; intros H; cbn; [destruct H as [x ->]; [done|]; by exists x|by exists false].
Qed.

(** What a turn does to the cursors and what it may cost. *)
Record turn (input word : bytes) (i j i' j' : nat) (cost : Z) : Prop := {
  turn_i : (i <= i' <= length input)%nat;
  turn_j : (j <= j' <= length word)%nat;
  turn_progress : (i + j < i' + j')%nat;
  turn_cost : 0 <= cost <= 255 * Z.of_nat (i' + j' - (i + j));
  (* a gap in length is paid for *)
  turn_gap : kGapCost * Z.abs (Z.of_nat (length input - i) - Z.of_nat (length word - j)) <=
             cost + kGapCost * Z.abs (Z.of_nat (length input - i') - Z.of_nat (length word - j'));
  turn_free : cost = 0 -> i' = S i /\ j' = S j /\
              exists c d, input !! i = Some c /\ word !! j = Some d /\ findLetterDistance c d = 0
}.

Lemma fix_step_turn input word i j :
  (i < length input)%nat -> (j < length word)%nat ->
  exists i' j' cost, fix_step input word i j = Some (i', j', cost) /\ turn input word i j i' j' cost.
Proof.
  intros Hi Hj. unfold fix_step.
  destruct (distance_at_Some input i word j Hi Hj) as (c & d & Hc & Hd & ->). cbn [mbind option_bind].
  pose proof (distance_range c d) as Hr.
  destruct (findLetterDistance c d =? 0) eqn:Hz; bool_to_prop.
  { exists (S i), (S j), 0. split; [done|]. split; unfold kGapCost; try lia.
    intros _. split; [done|]. split; [done|]. by exists c, d. }
  destruct (and_then_Some ((S i <? length input)%nat && (S j <? length word)%nat)
    (b ← same_at input i word (S j); and_then b (same_at input (S i) word j))) as (swap & -> & Hs).
  { intros Hb. bool_to_prop. destruct (same_at_Some input i word (S j)) as [b ->]; [lia..|]. cbn.
    destruct (and_then_Some b (same_at input (S i) word j)) as (x & -> & _); [|by exists x].
    intros _. apply same_at_Some; lia. }
  cbn [mbind option_bind]. destruct swap.
  { specialize (Hs eq_refl). bool_to_prop. exists (S (S i)), (S (S j)), kSwapCost. split; [done|].
    split; unfold kSwapCost, kGapCost; try lia. }
  destruct (and_then_Some (length input - i <? length word - j)%nat (same_at input i word (S j))) as (x & -> & Hx).
  { intros Hb. bool_to_prop. apply same_at_Some; lia. }
  cbn [mbind option_bind]. destruct x.
  { specialize (Hx eq_refl). bool_to_prop. exists i, (S j), kGapCost. split; [done|].
    split; unfold kGapCost; try lia. }
  destruct (and_then_Some (length word - j <? length input - i)%nat (same_at input (S i) word j)) as (x & -> & Hy).
  { intros Hb. bool_to_prop. apply same_at_Some; lia. }
  cbn [mbind option_bind]. destruct x.
  { specialize (Hy eq_refl). bool_to_prop. exists (S i), j, kGapCost. split; [done|].
    split; unfold kGapCost; try lia. }
  exists (S i), (S j), (findLetterDistance c d). split; [done|].
  split; unfold kGapCost; try lia.
Qed.

Lemma fix_loop_spec fuel input word i j total :
  (i <= length input)%nat -> (j <= length word)%nat ->
  ((length input - i) + (length word - j) <= fuel)%nat ->
  exists t, fix_loop fuel input word i j total = Some t /\
    total + kGapCost * Z.abs (Z.of_nat (length input - i) - Z.of_nat (length word - j)) <= t /\
    t <= total + 255 * Z.of_nat ((length input - i) + (length word - j)) /\
    (t = total -> Forall2 (fun c d => findLetterDistance c d = 0) (drop i input) (drop j word)).
Proof.
  revert i j total. induction fuel as [|fuel IH]; intros i j total Hi Hj Hf; cbn [fix_loop].
  - destruct (_ && _) eqn:Hb; bool_to_prop; [lia|]. eexists. split; [done|].
    unfold kGapCost. split_and!; [lia..|]. intros _. rewrite !drop_ge by lia. constructor.
  - destruct (_ && _) eqn:Hb.
    + bool_to_prop. destruct (fix_step_turn input word i j) as (i' & j' & cost & -> & []); [done..|].
      destruct (IH i' j' (total + cost)) as (t & Ht & Hlo & Hhi & Hz); [lia..|].
      exists t. split_and!; [done|unfold kGapCost in *; lia|lia|]. intros ->.
      destruct turn_free0 as (-> & -> & c & d & Hc & Hd & Hcd); [unfold kGapCost in *; lia|].
      rewrite (drop_S _ _ _ Hc), (drop_S _ _ _ Hd). constructor; [done|]. apply Hz. unfold kGapCost in *; lia.
    + eexists. split; [done|]. apply andb_false_iff in Hb. rewrite !Nat.ltb_ge in Hb.
      unfold kGapCost. split_and!; [lia..|]. intros He. rewrite !drop_ge by lia. constructor.
Qed.

Lemma fixHelper_Some f input word :
  exists t, fixHelper f input word = Some (if Z.of_nat (sensitivity f) <? t then None else Some t) /\
    kGapCost * Z.abs (Z.of_nat (length input) - Z.of_nat (length word)) <= t /\
    t <= 255 * Z.of_nat (length input + length word) /\
    (t = 0 -> Forall2 (fun c d => findLetterDistance c d = 0) input word).
Proof.
  unfold fixHelper. destruct (fix_loop_spec (length input + length word) input word 0 0 0) as (t & -> & H); [lia..|].
  exists t. rewrite !Nat.sub_0_r in H. split; [done|]. exact H.
Qed.

(** Matching letters cost nothing. *)
Lemma fix_loop_exact fuel input word i :
  Forall2 (fun c d => findLetterDistance c d = 0) input word -> (length input - i < fuel)%nat ->
  fix_loop fuel input word i i 0 = Some 0.
Proof.
  intros H. pose proof (Forall2_length _ _ _ H) as Hl. revert i.
  induction fuel as [|fuel IH]; intros i Hf; cbn [fix_loop]; [lia|].
  destruct (_ && _) eqn:Hb.
  - bool_to_prop. destruct (distance_at_Some input i word i) as (c & d & Hc & Hd & Hcd); [done..|].
    assert (findLetterDistance c d = 0) as Hz by exact (Forall2_lookup_lr _ _ _ _ _ _ H Hc Hd).
    unfold fix_step. rewrite Hcd. cbn [mbind option_bind]. rewrite Hz. cbn. apply IH. lia.
  - apply andb_false_iff in Hb. rewrite !Nat.ltb_ge in Hb. f_equal. unfold kGapCost. lia.
Qed.

Lemma matching_letters s t :
  Forall2 (fun c d => findLetterDistance c d = 0) s t <-> forallb letter s = true /\ tolower <$> s = tolower <$> t.
Proof.
  revert t. induction s as [|c s IH]; intros [|d t]; cbn.
  - split; [done|]. constructor.
  - split; [intros H; inversion H|by intros []].
  - split; [intros H; inversion H|by intros []].
  - rewrite Forall2_cons, IH, distance_zero, andb_true_iff. naive_solver congruence.
Qed.

(** ** The pool *)

Lemma dictionary_spec words d n w :
  w ∈ default [] (foldl add_word d words !! n) <->
  w ∈ default [] (d !! n) \/ (w ∈ words /\ length w = n).
Proof.
  revert d. induction words as [|x words IH]; intros d; cbn.
  - set_solver.
  - rewrite IH. unfold add_word. destruct (decide (length x = n)) as [<-|Hn].
    + rewrite lookup_insert_eq. cbn. set_solver.
    + rewrite lookup_insert_ne by done. set_solver.
Qed.

Lemma elem_of_pool k words lo len w :
  w ∈ pool (new_filter k words) lo len <-> w ∈ words /\ (lo <= length w < lo + len)%nat.
Proof.
  unfold pool. rewrite list_elem_of_bind. cbn. split.
  - intros (n & Hw & Hn%elem_of_seq). apply dictionary_spec in Hw as [Hw|[Hw <-]]; [set_solver|done].
  - intros [Hw Hn]. exists (length w). rewrite dictionary_spec, elem_of_seq. naive_solver.
Qed.

(** ** The best candidate *)

(** What [fix] has found among the candidates [ws] it has gone through. *)
Definition best_of (f : autoCorrectFilter) (str : bytes) (ws : list bytes) (best : bytes * Z) : Prop :=
  (best = (str, SIZE_MAX) /\ forall w, w ∈ ws -> fixHelper f str w = Some None) \/
  (best.1 ∈ ws /\ fixHelper f str best.1 = Some (Some best.2) /\
   forall w c, w ∈ ws -> fixHelper f str w = Some (Some c) ->
     best.2 < c \/ (best.2 = c /\ (length w <= length best.1)%nat)).

Lemma fixHelper_cases f str w :
  fixHelper f str w = Some None \/
  exists c, fixHelper f str w = Some (Some c) /\ 0 <= c <= Z.of_nat (sensitivity f).
Proof.
  destruct (fixHelper_Some f str w) as (t & -> & Hlo & _). destruct (_ <? _) eqn:Hs; [by left|right].
  bool_to_prop. exists t. unfold kGapCost in Hlo. split; [done|]. lia.
Qed.

Lemma consider_best f str ws best w :
  Z.of_nat (sensitivity f) < SIZE_MAX ->
  best_of f str ws best -> best_of f str (ws ++ [w]) (consider f str best w).
Proof.
  intros Hk Hb. unfold consider. destruct (fixHelper_cases f str w) as [Hw|(c & Hw & Hc)]; rewrite Hw.
  - destruct Hb as [[-> Hno]|(Hin & Hbest & Hmin)].
    + left. split; [done|]. set_solver.
    + right. split_and!; [set_solver|done|]. intros x c. rewrite elem_of_app, list_elem_of_singleton.
      intros [Hx| ->]; [by apply Hmin|]. congruence.
  - destruct Hb as [[-> Hno]|(Hin & Hbest & Hmin)].
    + assert ((c <? SIZE_MAX) = true) as Hlt by (apply Z.ltb_lt; lia).
      cbn [fst snd]. rewrite Hlt. cbn. right. cbn. split_and!; [set_solver|done|].
      intros x c'. rewrite elem_of_app, list_elem_of_singleton. intros [Hx| ->] Hx'.
      * specialize (Hno x Hx). congruence.
      * right. split; [congruence|done].
    + destruct (_ || _) eqn:Hbetter; right; cbn [fst snd].
      * split_and!; [set_solver|done|]. intros x c'. rewrite elem_of_app, list_elem_of_singleton.
        intros [Hx| ->] Hx'; [|right; split; [congruence|done]].
        specialize (Hmin x c' Hx Hx'). apply orb_true_iff in Hbetter as [Hl|Hl]; bool_to_prop; lia.
      * split_and!; [set_solver|done|]. intros x c'. rewrite elem_of_app, list_elem_of_singleton.
        intros [Hx| ->] Hx'; [by apply Hmin|]. assert (c' = c) as -> by congruence.
        apply orb_false_iff in Hbetter as [Hl Hl2]. apply andb_false_iff in Hl2.
        bool_to_prop. rewrite Z.eqb_neq, Nat.ltb_ge in Hl2. lia.
Qed.

Lemma foldl_best f str ws seen best :
  Z.of_nat (sensitivity f) < SIZE_MAX -> best_of f str seen best ->
  best_of f str (seen ++ ws) (foldl (consider f str) best ws).
Proof.
  intros Hk. revert seen best. induction ws as [|w ws IH]; intros seen best Hb; cbn; [by rewrite app_nil_r|].
  rewrite (cons_middle w seen ws), (assoc_L app). by apply IH, consider_best.
Qed.

Lemma fix_word_spec k words str :
  Z.of_nat k < SIZE_MAX ->
  let f := new_filter k words in
  let r := fix_word f str in
  (r = str /\ forall w, w ∈ words -> fixHelper f str w = Some None) \/
  exists c, r ∈ words /\ fixHelper f str r = Some (Some c) /\
    forall w c', w ∈ words -> fixHelper f str w = Some (Some c') ->
      c < c' \/ (c = c' /\ (length w <= length r)%nat).
Proof.
  intros Hk f r. subst r. unfold fix_word. change (sensitivity f) with k.
  set (lo := if (_ <? length str)%nat then _ else O). set (len := (S _ - lo)%nat).
  assert (forall w c, w ∈ words -> fixHelper f str w = Some (Some c) -> w ∈ pool f lo len) as Hwin.
  { intros w c Hw Hc. apply elem_of_pool. split; [done|].
    destruct (fixHelper_Some f str w) as (t & Ht & Hlo & _). rewrite Ht in Hc.
    destruct (_ <? t) eqn:Hs; [done|]. bool_to_prop. subst lo len. change (sensitivity f) with k in *. unfold kGapCost in Hlo.
    destruct (k <? length str)%nat eqn:Hks; bool_to_prop; lia. }
  pose proof (foldl_best f str (pool f lo len) [] (str, SIZE_MAX) Hk
                ltac:(left; split; [done|]; intros w Hw; by apply elem_of_nil in Hw)) as Hb.
  cbn [app] in Hb. destruct Hb as [[-> Hno]|(Hin & Hbest & Hmin)].
  - left. split; [done|]. intros w Hw. destruct (fixHelper_cases f str w) as [?|(c & Hc & _)]; [done|].
    by apply Hno, (Hwin w c).
  - right. eexists. apply elem_of_pool in Hin as [Hin _]. split_and!; [done|exact Hbest|].
    intros w c' Hw Hc. apply Hmin; [by eapply Hwin|done].
Qed.

(** ** Properties *)

(** [fixHelper] never reads past either word and its loop ends: it always gives an
    answer, and what it answers lies between twice the difference in length and the
    sensitivity. *)
Theorem fixHelper_total f input word :
  exists r, fixHelper f input word = Some r /\
    match r with
    | Some c => kGapCost * Z.abs (Z.of_nat (length input) - Z.of_nat (length word)) <= c <= Z.of_nat (sensitivity f)
    | None => True
    end.
Proof.
  destruct (fixHelper_Some f input word) as (t & -> & Hlo & _). eexists. split; [done|].
  destruct (_ <? _) eqn:Hs; [done|]. bool_to_prop. lia.
Qed.

(** The cost is 0 exactly for the same word, letter by letter and whatever the case. *)
Theorem fixHelper_exact f input word :
  fixHelper f input word = Some (Some 0) <->
  forallb letter input = true /\ tolower <$> input = tolower <$> word.
Proof.
  rewrite <- matching_letters. split.
  - destruct (fixHelper_Some f input word) as (t & -> & _ & _ & Hz). intros [= H].
    apply Hz. destruct (_ <? _); congruence.
  - intros H. unfold fixHelper. destruct input as [|c input].
    + inversion H. cbn. rewrite (proj2 (Z.ltb_ge _ _)) by lia. done.
    + rewrite (fix_loop_exact _ _ _ 0 H) by (inversion H; cbn; lia). cbn.
      rewrite (proj2 (Z.ltb_ge _ _)) by lia. done.
Qed.

(** C40: [fix] searches only the lengths within the sensitivity, yet what it returns is the
    best word of the whole dictionary: a word of least cost, and of greatest length among
    those; or what was typed, when no word is within the sensitivity. *)
Theorem fix_word_best k words str :
  Z.of_nat k < SIZE_MAX ->
  let f := new_filter k words in
  let r := fix_word f str in
  (r = str /\ forall w, w ∈ words -> fixHelper f str w = Some None) \/
  exists c, r ∈ words /\ fixHelper f str r = Some (Some c) /\
    forall w c', w ∈ words -> fixHelper f str w = Some (Some c') ->
      c < c' \/ (c = c' /\ (length w <= length r)%nat).
Proof. apply fix_word_spec. Qed.

Example fix_word_best_witness :
  Z.of_nat 3 < SIZE_MAX /\
  let f := new_filter 3 [lit "help"; lit "health"; lit "exit"] in
  fix_word f (lit "helth") = lit "health" /\
  ((fix_word f (lit "helth") = lit "helth" /\ forall w, w ∈ [lit "help"; lit "health"; lit "exit"] ->
      fixHelper f (lit "helth") w = Some None) \/
   exists c, fix_word f (lit "helth") ∈ [lit "help"; lit "health"; lit "exit"] /\
     fixHelper f (lit "helth") (fix_word f (lit "helth")) = Some (Some c) /\
     forall w c', w ∈ [lit "help"; lit "health"; lit "exit"] -> fixHelper f (lit "helth") w = Some (Some c') ->
       c < c' \/ (c = c' /\ (length w <= length (fix_word f (lit "helth")))%nat)).
Proof.
  split; [reflexivity|]. split; [vm_compute; reflexivity|].
  apply (fix_word_best 3 [lit "help"; lit "health"; lit "exit"] (lit "helth")). reflexivity.
Defined.
