(* ===== verification/Control.v ===== *)
(** * Control: the admin socket

    Models [ControlServer] of src/src/control/control_server.cpp: the line protocol of a
    session, every command, and [write_all]. The supervisor is reached through the
    interface [SupervisorPort]; the log is [Log.v], suggestions are [Autocorrect.v], the
    stamp on a reply is [Clock.v]. What a command reads from outside (procfs values
    already rendered, loop acknowledgements, clock readings) is a record [Readings], one
    per command. An exception that would escape the admin thread is [None]. The
    thread itself is [ControlServer.v]. *)
From S2P Require Import Prelude Text Log Autocorrect Clock.
Open Scope Z_scope.

(** ** What the server talks to *)

(** The supervisor, as the admin thread sees it. *)
Class SupervisorPort (S : Type) := {
  port_services : S -> bytes;                  (* describe_services *)
  port_backend_status : Z -> S -> bytes;       (* describe_backend_status, at an instant *)
  port_restart : bytes -> S -> bool * S;       (* restart_service *)
  port_knows : bytes -> S -> Prop;
  port_restart_known : forall name s, (port_restart name s).1 = true -> port_knows name s;
  port_restart_unknown : forall name s, ~ port_knows name s -> (port_restart name s).2 = s
}.

(** [LoopStats]; the counters are 64-bit. *)
Record LoopStats := mk_stats {
  active_connections : Z; total_connections : Z; st_bytes_in : Z; st_bytes_out : Z
}.

(** How a loop answers the task [cmd_health] posts. *)
Inductive ack := Acked | BrokenPromise | Late.
#[export] Instance ack_eq_dec : EqDecision ack.
Proof. solve_decision. Defined.
Inductive NetState := NetUnknown | NetUp | NetDown.

Record Readings := mk_readings {
  rd_now : Z;                                 (* steady_clock *)
  rd_threads : option Z;
  rd_load : option (bytes * bytes * bytes);   (* each as %.2f *)
  rd_temp : option bytes;                     (* as %.2f *)
  rd_mem_free : option Z; rd_mem_total : option Z;
  rd_internet : NetState;
  rd_acks : list ack; rd_rtt : Z;             (* one per loop; microseconds *)
  rd_date : calendarParts * calendarParts * calendarParts; rd_time : calendarParts
}.

(** ** [write_all] *)

Inductive write_outcome := WroteSome (n : nat) | Interrupted | WriteError.

(** What reaches the socket, when [write] gives these results in turn. *)
Fixpoint write_all (str : bytes) (results : list write_outcome) : bytes :=
  match str, results with
  | [], _ | _, [] => []
  | _, WroteSome n :: r =>
      let n := Nat.min (S n) (length str) in take n str ++ write_all (drop n str) r
  | _, Interrupted :: r => write_all str r
  | _, WriteError :: _ => []
  end.

(** ** The commands *)

Definition unavailable : bytes := lit "unavailable".
Definition line (s : bytes) : bytes := s ++ [ch_nl].

Fixpoint critical_lines (l : list bytes) : bytes :=
  match l with
  | [] => []
  | e :: l => lit "  " ++ e ++ [ch_nl] ++ critical_lines l
  end.

Definition systemStatusHelper (rd : Readings) (log : LogWorld) : bytes :=
  line (lit "threads:   " ++ match rd_threads rd with Some n => to_string n | None => unavailable end) ++
  line (lit "load:      " ++
        match rd_load rd with
        | Some (one, five, fifteen) => one ++ lit " (1m)  " ++ five ++ lit " (5m)  " ++ fifteen ++ lit " (15m)"
        | None => unavailable
        end) ++
  line (lit "cpu_temp:  " ++ match rd_temp rd with Some t => t ++ lit " C" | None => unavailable end) ++
  line (lit "memory:    " ++
        match rd_mem_free rd, rd_mem_total rd with
        | Some free, Some total => to_string free ++ lit " MB available of " ++ to_string total ++ lit " MB"
        | Some free, None => to_string free ++ lit " MB available"
        | None, _ => unavailable
        end) ++
  line (lit "internet:  " ++
        match rd_internet rd with NetUp => lit "up" | NetDown => lit "DOWN" | NetUnknown => lit "not checked" end) ++
  lit "critical:  " ++
  match log_critical_entries log with
  | [] => line (lit "none")
  | entries =>
      to_string (Z.of_nat (length entries)) ++
      line (if (length entries =? 1)%nat then lit " entry" else lit " entries") ++ critical_lines entries
  end.

(** [active += s.active_connections] and the like, on [uint64_t]. *)
Definition add_stats (t : LoopStats) (s : LoopStats) : LoopStats :=
  mk_stats (wrap_u 64 (active_connections t + active_connections s))
    (wrap_u 64 (total_connections t + total_connections s))
    (wrap_u 64 (st_bytes_in t + st_bytes_in s)) (wrap_u 64 (st_bytes_out t + st_bytes_out s)).

Definition status_text (n : nat) (t : LoopStats) : bytes :=
  line (lit "loops:              " ++ to_string (Z.of_nat n)) ++
  line (lit "active_connections: " ++ to_string (active_connections t)) ++
  line (lit "total_connections:  " ++ to_string (total_connections t)) ++
  line (lit "bytes_in:           " ++ to_string (st_bytes_in t)) ++
  line (lit "bytes_out:          " ++ to_string (st_bytes_out t)).

Definition cmd_status (loops : list LoopStats) : bytes :=
  take 255 (status_text (length loops) (foldl add_stats (mk_stats 0 0 0 0) loops)).

(** The loop over the futures. *)
Fixpoint count_acks (acks : list ack) (responded : Z) : Z :=
  match acks with
  | [] => responded
  | a :: acks => count_acks acks (if decide (a = Acked) then responded + 1 else responded)
  end.

Definition cmd_health (rd : Readings) (n_loops : nat) : bytes :=
  take 159 (lit "health: " ++ to_string (count_acks (rd_acks rd) 0) ++ lit "/" ++ to_string (Z.of_nat n_loops) ++
            lit " event loops responsive (task round-trip in " ++ to_string (rd_rtt rd) ++ lit "us)" ++ [ch_nl]).

Fixpoint join_lines (l : list bytes) : bytes :=
  match l with [] => [] | x :: l => x ++ [ch_nl] ++ join_lines l end.

Definition cmd_errors (log : LogWorld) : option (bytes * LogWorld) :=
  '(ls, log) ← log_pull_new log;
  Some (match ls with [] => line (lit "no new log entries since last pull") | _ => join_lines ls end, log).

Definition help_text : bytes :=
  line (lit "commands:") ++
  line (lit "  help            this text") ++
  line (lit "  clear           clear off the current screen") ++
  line (lit "  ping            liveness check -> pong") ++
  line (lit "  status          aggregated counters across all loops") ++
  line (lit "  health          probe every loop via the async round-trip") ++
  line (lit "  services        list supervised backends") ++
  line (lit "  restart <name>  restart a supervised backend") ++
  line (lit "  errors          log lines since the last pull (needs --log-file)") ++
  line (lit "  shutdown        gracefully stop castle+") ++
  line (lit "  systemstatus    system vitals, internet, critical logs") ++
  line (lit "  backendstatus   per-backend uptime, failure history, quarantine") ++
  line (lit "  exit            close this admin session").

(** The words of the static filter of [dispatch_command]. *)
Definition filter_words : list bytes :=
  lit <$> ["help"; "ping"; "status"; "stats"; "health"; "errors"; "services"; "backends"; "restart"; "shutdown";
           "exit"; "quit"; "systemstatus"; "backendstatus"; "clear"]%string.
Definition filter_ : autoCorrectFilter := new_filter 3 filter_words.

(** [" \t"]. *)
Definition sep (c : ascii) : bool := bool_decide (c ∈ [ch_sp; ch_tab]).

(** The first token of a trimmed line, lowered, and the rest. *)
Definition command_of (l : bytes) : bytes :=
  tolower <$> match find_if sep l with Some sp => take sp l | None => l end.
Definition argument_of (l : bytes) : bytes :=
  match find_if sep l with
  | None => []
  | Some sp =>
      match find_if (fun c => negb (sep c)) (drop sp l) with
      | Some a => drop (sp + a) l
      | None => []
      end
  end.

(** ** Reports *)

(** The sum of a counter over the loops. *)
Definition total (counter : LoopStats -> Z) (loops : list LoopStats) : Z :=
  foldr (fun s acc => counter s + acc) 0 loops.

Lemma foldl_stats loops a b c d :
  foldl add_stats (mk_stats (wrap_u 64 a) (wrap_u 64 b) (wrap_u 64 c) (wrap_u 64 d)) loops =
    mk_stats (wrap_u 64 (a + total active_connections loops)) (wrap_u 64 (b + total total_connections loops))
      (wrap_u 64 (c + total st_bytes_in loops)) (wrap_u 64 (d + total st_bytes_out loops)).
Proof.
  revert a b c d. induction loops as [|s loops IH]; intros a b c d; cbn [foldl total foldr]; [by rewrite !Z.add_0_r|].
  unfold add_stats at 2. cbn [active_connections total_connections st_bytes_in st_bytes_out].
  assert (forall x y, wrap_u 64 (wrap_u 64 x + y) = wrap_u 64 (x + y)) as Hw
    by (intros; unfold wrap_u; by rewrite Zplus_mod_idemp_l).
  rewrite !Hw, IH. by rewrite <- !Z.add_assoc.
Qed.

Lemma to_string_u64 z : (length (to_string (wrap_u 64 z)) <= 20)%nat.
Proof.
  apply (to_string_length _ 19). pose proof (wrap_u_range 64 z ltac:(lia)) as [H1 H2]. split; [done|].
  etrans; [exact H2|]. reflexivity.
Qed.

(** [status] prints the sums of the loops' counters, on 64 bits, and its 256-byte
    buffer never cuts them. *)
Theorem status_sums loops :
  Z.of_nat (length loops) < 2 ^ 64 ->
  cmd_status loops =
    status_text (length loops)
      (mk_stats (wrap_u 64 (total active_connections loops)) (wrap_u 64 (total total_connections loops))
         (wrap_u 64 (total st_bytes_in loops)) (wrap_u 64 (total st_bytes_out loops))).
Proof.
  intros Hn. unfold cmd_status. change (mk_stats 0 0 0 0) with
    (mk_stats (wrap_u 64 0) (wrap_u 64 0) (wrap_u 64 0) (wrap_u 64 0)). rewrite foldl_stats, !Z.add_0_l.
  apply take_ge. unfold status_text, line. cbn [active_connections total_connections st_bytes_in st_bytes_out].
  pose proof (to_string_u64 (Z.of_nat (length loops))) as Hl. rewrite wrap_u_id in Hl by (unfold in_u; lia).
  rewrite !length_app, !length_lit. cbn [length String.length].
  repeat match goal with |- context [to_string (wrap_u 64 ?z)] =>
    pose proof (to_string_u64 z); generalize dependent (length (to_string (wrap_u 64 z))); intros end.
  lia.
Qed.

Example status_sums_witness :
  let loops := [mk_stats 2 5 (2 ^ 64 - 1) 7; mk_stats 1 9 3 0] in
  Z.of_nat (length loops) < 2 ^ 64 /\
  cmd_status loops =
    status_text (length loops)
      (mk_stats (wrap_u 64 (total active_connections loops)) (wrap_u 64 (total total_connections loops))
         (wrap_u 64 (total st_bytes_in loops)) (wrap_u 64 (total st_bytes_out loops))).
Proof. split; [reflexivity|]. apply (status_sums [mk_stats 2 5 (2 ^ 64 - 1) 7; mk_stats 1 9 3 0]). reflexivity. Defined.

Lemma count_acks_spec acks n : count_acks acks n = n + Z.of_nat (length (filter (fun a => a = Acked) acks)).
Proof.
  revert n. induction acks as [|a acks IH]; intros n; cbn [count_acks]; [cbn; lia|].
  rewrite IH, filter_cons. destruct (decide (a = Acked)); cbn [length]; lia.
Qed.

(** [health] counts the loops that acknowledged in time, never one that was late or was
    torn down, and its 160-byte buffer never cuts the reply. *)
Theorem health_counts rd n :
  length (rd_acks rd) = n -> Z.of_nat n < 2 ^ 64 -> 0 <= rd_rtt rd < 2 ^ 63 ->
  cmd_health rd n =
    lit "health: " ++ to_string (Z.of_nat (length (filter (fun a => a = Acked) (rd_acks rd)))) ++ lit "/" ++
    to_string (Z.of_nat n) ++ lit " event loops responsive (task round-trip in " ++ to_string (rd_rtt rd) ++
    lit "us)" ++ [ch_nl].
Proof.
  intros Hl Hn Hr. assert (2 ^ 63 < 2 ^ 64) as Hw by done. unfold cmd_health. rewrite count_acks_spec, Z.add_0_l. apply take_ge.
  pose proof (length_filter (fun a => a = Acked) (rd_acks rd)) as Hf. rewrite Hl in Hf.
  revert Hf. generalize (length (filter (fun a => a = Acked) (rd_acks rd))). intros k Hf.
  assert (forall z, 0 <= z < 2 ^ 64 -> (length (to_string z) <= 20)%nat) as Hs.
  { intros z Hz. rewrite <- (wrap_u_id 64 z Hz). apply to_string_u64. }
  pose proof (Hs (Z.of_nat n) ltac:(lia)). pose proof (Hs (rd_rtt rd) ltac:(lia)).
  pose proof (Hs (Z.of_nat k) ltac:(lia)).
  rewrite !length_app, !length_lit. cbn [length String.length]. lia.
Qed.

Example health_counts_witness :
  let t := mk_parts 0 0 0 0 0 0 in
  let rd := mk_readings 0 None None None None None NetUp [Acked; Late; BrokenPromise] 137 (t, t, t) t in
  length (rd_acks rd) = 3%nat /\ Z.of_nat 3 < 2 ^ 64 /\ 0 <= rd_rtt rd < 2 ^ 63 /\
  cmd_health rd 3 =
    lit "health: " ++ to_string (Z.of_nat (length (filter (fun a => a = Acked) (rd_acks rd)))) ++ lit "/" ++
    to_string (Z.of_nat 3) ++ lit " event loops responsive (task round-trip in " ++ to_string (rd_rtt rd) ++
    lit "us)" ++ [ch_nl].
Proof.
  intros t rd. split_and!; [reflexivity..|discriminate|reflexivity|].
  apply (health_counts rd 3); [reflexivity..|]. split; [discriminate|reflexivity].
Defined.

Section Server.
Context {S : Type} `{SupervisorPort S}.

(** The server and what it is wired to. *)
Record Control := mk_control {
  loops_ : list LoopStats;
  supervisor_ : option S;
  log : LogWorld;
  has_on_shutdown : bool;
  shutdowns : nat                  (* calls of on_shutdown_ *)
}.
#[export] Instance eta_Control : Eta Control := fun c =>
  mk_control (loops_ c) (supervisor_ c) (log c) (has_on_shutdown c) (shutdowns c).

Definition no_supervisor : bytes := line (lit "no supervisor configured").

(** The body of a reply, whether the session closes, and the world after. *)
Definition dispatch_command (rd : Readings) (raw : bytes) (c : Control) : option (bytes * bool * Control) :=
  let l := trim raw in
  if decide (l = []) then Some ([], false, c)
  else
    let cmd := command_of l in
    let arg := argument_of l in
    let reply body := Some (body, false, c) in
    if decide (cmd = lit "help") then reply help_text
    else if decide (cmd = lit "ping") then reply (line (lit "pong"))
    else if decide (cmd = lit "status" \/ cmd = lit "stats") then reply (cmd_status (loops_ c))
    else if decide (cmd = lit "health") then reply (cmd_health rd (length (loops_ c)))
    else if decide (cmd = lit "errors") then
      '(body, lg) ← cmd_errors (log c); Some (body, false, c <| log := lg |>)
    else if decide (cmd = lit "services" \/ cmd = lit "backends") then
      reply match supervisor_ c with Some s => port_services s | None => no_supervisor end
    else if decide (cmd = lit "restart") then
      match supervisor_ c with
      | None => reply no_supervisor
      | Some s =>
          if decide (arg = []) then reply (line (lit "usage: restart <service>"))
          else
            let '(ok, s) := port_restart arg s in
            Some (if ok : bool then line (lit "restarting '" ++ arg ++ lit "'")
                  else line (lit "no such service: " ++ arg), false, c <| supervisor_ := Some s |>)
      end
    else if decide (cmd = lit "shutdown") then
      Some (line (lit "shutting down castle+..."), false,
            if has_on_shutdown c then c <| shutdowns ::= Datatypes.S |> else c)
    else if decide (cmd = lit "systemstatus") then reply (systemStatusHelper rd (log c))
    else if decide (cmd = lit "backendstatus") then
      match supervisor_ c with
      | None => reply (line (lit "no supervisor configured (start castle with --services)"))
      | Some s => reply (port_backend_status (rd_now rd) s)
      end
    else if decide (cmd = lit "exit" \/ cmd = lit "quit") then Some (line (lit "bye"), true, c)
    else if decide (cmd = lit "clear") then reply (replicate 150 ch_nl)
    else
      let suggestion := fix_word filter_ cmd in
      reply (if decide (suggestion = cmd) then line (lit "unknown command: " ++ cmd ++ lit " (try 'help')")
             else line (lit "unknown command: " ++ cmd ++ lit " — did you mean '" ++ suggestion ++ lit "'?")).

Definition dispatch (rd : Readings) (raw : bytes) (c : Control) : option (bytes * bool * Control) :=
  '(body, close, c) ← dispatch_command rd raw c;
  if decide (body = []) then Some ([], close, c)
  else
    let '(p1, p2, p3) := rd_date rd in
    Some (lit "[" ++ dateString p1 p2 p3 ++ lit " " ++ formatClock (rd_time rd) hour24 ++ lit "]" ++ [ch_nl] ++ body,
          close, c).

(** ** A session *)

(** What a session has written, the bytes not yet a line, and whether it is over; the
    readings of the k-th command are [rds k]. *)
Record session := mk_session { written_ : list bytes; inbuf : bytes; over : bool; handled : nat }.

Context (rds : nat -> Readings).

(** [while ((nl = inbuf.find('\n')) != npos)] *)
Fixpoint serve_lines (fuel : nat) (ss : session) (c : Control) : option (session * Control) :=
  match fuel with
  | O => None
  | Datatypes.S fuel =>
      match find_char ch_nl (inbuf ss) with
      | None => Some (ss, c)
      | Some nl =>
          let l := take nl (inbuf ss) in
          let rest := drop (nl + 1) (inbuf ss) in
          '(resp, close, c) ← dispatch (rds (handled ss)) l c;
          let out := if decide (resp = []) then written_ ss else written_ ss ++ [resp] in
          if close : bool then Some (mk_session out rest true (Datatypes.S (handled ss)), c)
          else serve_lines fuel (mk_session out rest false (Datatypes.S (handled ss))) c
      end
  end.

(** One turn of the outer loop. *)
Inductive poll_result := PollInterrupted | NotReadable | PollFailed | StopRequested | Received (data : bytes).

Definition poll_turn (ev : poll_result) (ss : session) (c : Control) : option (session * Control) :=
  match ev with
  | PollInterrupted | NotReadable => Some (ss, c)
  | PollFailed | StopRequested | Received [] => Some (mk_session (written_ ss) (inbuf ss) true (handled ss), c)
  | Received data =>
      let buf := inbuf ss ++ data in
      serve_lines (Datatypes.S (length buf)) (mk_session (written_ ss) buf false (handled ss)) c
  end.

Fixpoint handle_client_loop (evs : list poll_result) (ss : session) (c : Control) : option (session * Control) :=
  match evs with
  | [] => Some (ss, c)
  | ev :: evs =>
      if over ss then Some (ss, c)
      else '(ss, c) ← poll_turn ev ss c; handle_client_loop evs ss c
  end.

Definition greeting : list bytes :=
  [lit " --------| Welcome back to the castle |--------"; line (lit "castle+ control — type 'help'")].
Definition handle_client (evs : list poll_result) (c : Control) : option (session * Control) :=
  handle_client_loop evs (mk_session greeting [] false 0) c.

(** ** Framing *)

Definition with_inbuf (b : bytes) (ss : session) : session :=
  mk_session (written_ ss) b (over ss) (handled ss).

Lemma rest_shorter nl (b : bytes) :
  find_char ch_nl b = Some nl -> (nl < length b)%nat /\ (length (drop (nl + 1) b) < length b)%nat.
Proof.
  intros Hf. unfold find_char in Hf. apply find_if_Some in Hf as (c & Hc & _).
  apply lookup_lt_Some in Hc. rewrite length_drop. lia.
Qed.

Lemma serve_lines_fuel f f' ss c :
  (length (inbuf ss) < f)%nat -> (length (inbuf ss) < f')%nat -> serve_lines f ss c = serve_lines f' ss c.
Proof.
  revert f' ss c. induction f as [|f IH]; intros [|f'] ss c Hf Hf'; try lia. cbn [serve_lines].
  destruct (find_char ch_nl (inbuf ss)) as [nl|] eqn:Hnl; [|done]. pose proof (rest_shorter _ _ Hnl) as [_ Hr].
  destruct (dispatch _ _ _) as [[[resp close] c']|]; [|done]. cbn. destruct close; [done|].
  apply IH; cbn; lia.
Qed.

(** Serving what is there, as each turn of the loop does. *)
Definition serve (ss : session) (c : Control) : option (session * Control) :=
  serve_lines (Datatypes.S (length (inbuf ss))) ss c.

Lemma find_char_app_l nl a b : find_char ch_nl a = Some nl -> find_char ch_nl (a ++ b) = Some nl.
Proof.
  unfold find_char. rewrite !find_if_Some. intros (c & Hc & Hp & Hmin). exists c. split_and!; [|done|].
  - by apply lookup_app_l_Some.
  - intros j d Hj Hlt. apply (Hmin j d); [|done].
    rewrite lookup_app_l in Hj; [done|]. apply lookup_lt_Some in Hc. lia.
Qed.

Lemma serve_eq ss c :
  serve ss c =
    match find_char ch_nl (inbuf ss) with
    | None => Some (ss, c)
    | Some nl =>
        '(resp, close, c) ← dispatch (rds (handled ss)) (take nl (inbuf ss)) c;
        let ss := mk_session (if decide (resp = []) then written_ ss else written_ ss ++ [resp])
                    (drop (nl + 1) (inbuf ss)) close (Datatypes.S (handled ss)) in
        if close : bool then Some (ss, c) else serve ss c
    end.
Proof.
  unfold serve at 1. cbn [serve_lines]. destruct (find_char _ _) as [nl|] eqn:Hnl; [|done].
  pose proof (rest_shorter _ _ Hnl) as [_ Hr]. destruct (dispatch _ _ _) as [[[resp close] c']|]; [|done].
  cbn [mbind option_bind]. destruct close; [done|]. apply serve_lines_fuel; cbn [inbuf]; lia.
Qed.

(** Serving part of the input first makes no difference. *)
Lemma serve_app ss b c :
  over ss = false ->
  serve (with_inbuf (inbuf ss ++ b) ss) c =
    '(ss1, c1) ← serve ss c;
    if over ss1 then Some (with_inbuf (inbuf ss1 ++ b) ss1, c1)
    else serve (with_inbuf (inbuf ss1 ++ b) ss1) c1.
Proof.
  remember (length (inbuf ss)) as n eqn:Hn. revert ss c Hn.
  induction (lt_wf n) as [n _ IH]. intros ss c -> Hov. rewrite (serve_eq ss c).
  destruct (find_char ch_nl (inbuf ss)) as [nl|] eqn:Hnl; [|cbn [mbind option_bind]; by rewrite Hov].
  pose proof (rest_shorter _ _ Hnl) as [Hlt Hr]. rewrite serve_eq. cbn [with_inbuf inbuf handled written_].
  rewrite (find_char_app_l _ _ b Hnl). rewrite take_app_le by lia. rewrite drop_app_le by lia.
  destruct (dispatch _ _ _) as [[[resp close] c']|]; [|done]. cbn [mbind option_bind].
  destruct close; [done|]. by rewrite <- (IH _ Hr).
Qed.

Lemma serve_done ss c ss' c' :
  serve ss c = Some (ss', c') -> over ss = false -> over ss' = false -> find_char ch_nl (inbuf ss') = None.
Proof.
  remember (length (inbuf ss)) as n eqn:Hn. revert ss c Hn.
  induction (lt_wf n) as [n _ IH]. intros ss c ->. rewrite serve_eq.
  destruct (find_char ch_nl (inbuf ss)) as [nl|] eqn:Hnl; [|by intros [= <- <-]].
  pose proof (rest_shorter _ _ Hnl) as [Hlt Hr].
  destruct (dispatch _ _ _) as [[[resp close] c1]|]; [|done]. cbn [mbind option_bind].
  destruct close; [intros [= <- <-]; cbn; done|]. intros Hs _. by refine (IH _ Hr _ _ _ Hs eq_refl).
Qed.

(** What of a session can be seen: its replies, how it ended, the commands served, and the
    world. *)
Definition visible (r : option (session * Control)) : option (list bytes * bool * nat * Control) :=
  '(ss, c) ← r; Some (written_ ss, over ss, handled ss, c).

(** The lines of [s] that are complete, without their newline. *)
Fixpoint full_lines_aux (s cur : bytes) : list bytes :=
  match s with
  | [] => []
  | x :: s => if decide (x = ch_nl) then cur :: full_lines_aux s [] else full_lines_aux s (cur ++ [x])
  end.
Definition full_lines (s : bytes) : list bytes := full_lines_aux s [].

(** What a session is meant to be: one command per line, in order, until one closes it. *)
Fixpoint script (k : nat) (ls : list bytes) (out : list bytes) (c : Control)
  : option (list bytes * bool * nat * Control) :=
  match ls with
  | [] => Some (out, false, k, c)
  | l :: ls =>
      '(resp, close, c) ← dispatch (rds k) l c;
      let out := if decide (resp = []) then out else out ++ [resp] in
      if close : bool then Some (out, true, Datatypes.S k, c) else script (Datatypes.S k) ls out c
  end.

(** The bytes that arrive, and the events that do not end a session. *)
Definition received (evs : list poll_result) : bytes :=
  concat ((fun ev => match ev with Received d => d | _ => [] end) <$> evs).
Definition ongoing (ev : poll_result) : bool :=
  match ev with PollInterrupted | NotReadable | Received (_ :: _) => true | _ => false end.

Lemma full_lines_aux_none s cur : find_char ch_nl s = None -> full_lines_aux s cur = [].
Proof.
  rewrite find_char_None. revert cur. induction s as [|x s IH]; intros cur Hs; cbn; [done|].
  rewrite decide_False by set_solver. apply IH. set_solver.
Qed.

Lemma full_lines_aux_some s nl cur :
  find_char ch_nl s = Some nl ->
  full_lines_aux s cur = (cur ++ take nl s) :: full_lines (drop (nl + 1) s).
Proof.
  revert nl cur. unfold find_char. induction s as [|x s IH]; intros nl cur; [done|]. cbn.
  destruct (bool_decide (x = ch_nl)) eqn:Hx; cbn.
  - apply bool_decide_eq_true in Hx. intros [= <-]. rewrite decide_True by done. by rewrite app_nil_r.
  - apply bool_decide_eq_false in Hx.
    rewrite decide_False by done. unfold find_if in IH.
    destruct (list_find _ s) as [[n y]|] eqn:Hn; cbn; [|done]. intros [= <-].
    rewrite decide_False by done. rewrite (IH n) by done.
    by rewrite <- (assoc_L app).
Qed.

Lemma serve_script ss c :
  over ss = false -> visible (serve ss c) = script (handled ss) (full_lines (inbuf ss)) (written_ ss) c.
Proof.
  remember (length (inbuf ss)) as n eqn:Hn. revert ss c Hn.
  induction (lt_wf n) as [n _ IH]. intros ss c -> Hov. rewrite serve_eq. unfold full_lines.
  destruct (find_char ch_nl (inbuf ss)) as [nl|] eqn:Hnl.
  - pose proof (rest_shorter _ _ Hnl) as [_ Hr]. rewrite (full_lines_aux_some _ _ _ Hnl). cbn [script app].
    destruct (dispatch _ _ _) as [[[resp close] c']|]; [|done]. cbn [mbind option_bind].
    destruct close; [done|]. by rewrite (IH _ Hr).
  - rewrite full_lines_aux_none by done. cbn. by rewrite Hov.
Qed.

Lemma loop_serve evs ss c :
  over ss = false -> find_char ch_nl (inbuf ss) = None -> forallb ongoing evs = true ->
  visible (handle_client_loop evs ss c) = visible (serve (with_inbuf (inbuf ss ++ received evs) ss) c).
Proof.
  revert ss c. induction evs as [|ev evs IH]; intros ss c Hov Hnl.
  - intros _. cbn [handle_client_loop]. change (received []) with (@nil ascii). rewrite app_nil_r.
    rewrite serve_eq. cbn [with_inbuf inbuf]. rewrite Hnl. by destruct ss.
  - cbn [forallb]. intros [Hev Hevs]%andb_true_iff. cbn [handle_client_loop]. rewrite Hov.
    destruct ev as [| | | |[|x data]]; try done; cbn [poll_turn].
    1-2: cbn [mbind option_bind]; by rewrite (IH ss c Hov Hnl Hevs).
    change (received (Received (x :: data) :: evs)) with ((x :: data) ++ received evs).
    set (d := x :: data). set (ss0 := mk_session (written_ ss) (inbuf ss ++ d) false (handled ss)).
    replace (with_inbuf (inbuf ss ++ d ++ received evs) ss) with (with_inbuf (inbuf ss0 ++ received evs) ss0)
      by (unfold with_inbuf, ss0; cbn [written_ inbuf over handled]; by rewrite Hov, (assoc_L app)).
    rewrite serve_app by done.
    change (visible ('(ss1, c1) ← serve ss0 c; handle_client_loop evs ss1 c1) =
            visible ('(ss1, c1) ← serve ss0 c;
                     if over ss1 then Some (with_inbuf (inbuf ss1 ++ received evs) ss1, c1)
                     else serve (with_inbuf (inbuf ss1 ++ received evs) ss1) c1)).
    destruct (serve ss0 c) as [[ss1 c1]|] eqn:Hs; [|done]. cbn [mbind option_bind].
    destruct (over ss1) eqn:Hov1.
    + destruct evs as [|e evs]; cbn [handle_client_loop]; [done|]. by rewrite Hov1.
    + apply IH; [done| |done]. by apply (serve_done _ _ _ _ Hs).
Qed.

(** ** Commands *)

(** The log as [log_init] leaves it: no file, or one this process writes. *)
Definition log_ok (lg : LogWorld) : Prop := log_reader lg = None \/ log_wf lg.

Lemma cmd_errors_ok lg : log_ok lg -> exists body lg', cmd_errors lg = Some (body, lg') /\ body <> [] /\ log_ok lg'.
Proof.
  intros [Hr|Hwf]; unfold cmd_errors.
  - unfold log_pull_new. rewrite Hr. eexists _, _. split_and!; [reflexivity|done|by left].
  - destruct (log_pull_wf _ Hwf) as (lg' & -> & Hwf' & _). cbn [mbind option_bind].
    eexists _, _. split_and!; [reflexivity| |by right]. destruct (drop _ _) as [|l ls]; [done|]. cbn. by destruct l.
Qed.

(** What a command may do to the server, and when it closes the session. *)
Record served (cmd : bytes) (c : Control) (close : bool) (c' : Control) : Prop := {
  sv_loops : loops_ c' = loops_ c;
  sv_wired : has_on_shutdown c' = has_on_shutdown c;
  sv_log : cmd <> lit "errors" -> log c' = log c;
  sv_supervisor : cmd <> lit "restart" -> supervisor_ c' = supervisor_ c;
  sv_shutdowns : shutdowns c' = if decide (cmd = lit "shutdown" /\ has_on_shutdown c = true)
                                then Datatypes.S (shutdowns c) else shutdowns c;
  sv_close : close = bool_decide (cmd = lit "exit" \/ cmd = lit "quit")
}.

Lemma served_same cmd c :
  cmd <> lit "shutdown" -> cmd <> lit "exit" -> cmd <> lit "quit" -> served cmd c false c.
Proof.
  intros H1 H2 H3. split; try done.
  - by rewrite decide_False by (intros [? _]; done).
  - symmetry. apply bool_decide_eq_false. by intros [].
Qed.

(** The command is one of those the branches taken leave. *)
Ltac which_command :=
  intros; subst; repeat match goal with H : _ \/ _ |- _ => destruct H end; subst; first [discriminate | intuition].

Lemma dispatch_command_served rd raw c body close c' :
  dispatch_command rd raw c = Some (body, close, c') -> served (command_of (trim raw)) c close c'.
Proof.
  unfold dispatch_command. destruct (decide (trim raw = [])) as [He|_].
  { intros [= _ <- <-]. rewrite He. apply served_same; by vm_compute. }
  generalize (command_of (trim raw)) (argument_of (trim raw)). intros cmd arg. cbv zeta.
  repeat match goal with |- (if decide ?P then _ else _) = _ -> _ => destruct (decide P) end.
  all: try (intros [= _ <- <-]; apply served_same; which_command).
  - destruct (cmd_errors (log c)) as [[b lg]|]; [|done]. cbn. intros [= _ <- <-]. subst. by split.
  - destruct (supervisor_ c) as [s|]; [|intros [= _ <- <-]; apply served_same; which_command].
    destruct (decide (arg = [])); [intros [= _ <- <-]; apply served_same; which_command|].
    destruct (port_restart arg s) as [ok s']. intros [= _ <- <-]. subst. by split.
  - intros [= _ <- <-]. subst. destruct (has_on_shutdown c) eqn:Hw; split; cbn; try done.
    + by rewrite decide_True.
    + by rewrite Hw, decide_False by (intros [? ?]; done).
  - destruct (supervisor_ c); intros [= _ <- <-]; apply served_same; which_command.
  - intros [= _ <- <-]. split; try done.
    + rewrite decide_False; [done|]. intros [-> _]. which_command.
    + symmetry. by apply bool_decide_eq_true.
Qed.

Lemma dispatch_command_total rd raw c :
  log_ok (log c) ->
  exists body close c', dispatch_command rd raw c = Some (body, close, c') /\ log_ok (log c').
Proof.
  intros Hl. unfold dispatch_command. destruct (decide (trim raw = [])); [by eexists _, _, _|]. cbv zeta.
  generalize (command_of (trim raw)) (argument_of (trim raw)). intros cmd arg.
  repeat match goal with |- context [if decide ?P then _ else _] => destruct (decide P); [try by eexists _, _, _|] end.
  all: destruct (supervisor_ c) as [s|], (has_on_shutdown c); try destruct (port_restart arg s).
  all: try by eexists _, _, _.
  all: destruct (cmd_errors_ok _ Hl) as (txt & lg & -> & _ & Hl'); by eexists _, _, _.
Qed.

Lemma dispatch_of rd raw c resp close c' :
  dispatch rd raw c = Some (resp, close, c') -> exists body, dispatch_command rd raw c = Some (body, close, c').
Proof.
  unfold dispatch. destruct (dispatch_command rd raw c) as [[[body cl] c1]|]; [|done]. cbn.
  destruct (decide (body = [])); [|destruct (rd_date rd) as [[p1 p2] p3]]; intros [= _ -> ->]; by exists body.
Qed.

Lemma dispatch_total rd raw c :
  log_ok (log c) -> exists resp close c', dispatch rd raw c = Some (resp, close, c') /\ log_ok (log c').
Proof.
  intros Hl. unfold dispatch. destruct (dispatch_command_total rd raw c Hl) as (body & close & c' & -> & Hl'). cbn.
  destruct (decide (body = [])); [|destruct (rd_date rd) as [[p1 p2] p3]]; by eexists _, _, _.
Qed.

Lemma serve_total ss c :
  log_ok (log c) -> exists ss' c', serve ss c = Some (ss', c') /\ log_ok (log c').
Proof.
  remember (length (inbuf ss)) as n eqn:Hn. revert ss c Hn.
  induction (lt_wf n) as [n _ IH]. intros ss c -> Hl. rewrite serve_eq.
  destruct (find_char ch_nl (inbuf ss)) as [nl|] eqn:Hnl; [|by eexists _, _].
  pose proof (rest_shorter _ _ Hnl) as [_ Hr].
  destruct (dispatch_total (rds (handled ss)) (take nl (inbuf ss)) c Hl) as (resp & close & c' & -> & Hl').
  cbn [mbind option_bind]. destruct close; [by eexists _, _|]. by refine (IH _ Hr _ _ _ Hl').
Qed.

Lemma dispatch_command_restart rd raw c s :
  command_of (trim raw) = lit "restart" -> supervisor_ c = Some s ->
  let arg := argument_of (trim raw) in
  dispatch_command rd raw c =
    if decide (arg = []) then Some (line (lit "usage: restart <service>"), false, c)
    else
      let '(ok, s) := port_restart arg s in
      Some (if ok : bool then line (lit "restarting '" ++ arg ++ lit "'")
            else line (lit "no such service: " ++ arg), false, c <| supervisor_ := Some s |>).
Proof.
  intros Hc Hs arg. unfold dispatch_command. rewrite decide_False by (intros He; by rewrite He in Hc).
  cbv zeta. rewrite Hc, Hs. rewrite !decide_False by (vm_compute; intuition discriminate).
  by rewrite decide_True.
Qed.

(** ** Properties *)

(** The admin thread survives whatever a client sends, however it sends it: a session
    comes to an end without an exception, and leaves the log usable. *)
Theorem session_never_throws evs c :
  log_ok (log c) -> exists ss c', handle_client evs c = Some (ss, c') /\ log_ok (log c').
Proof.
  unfold handle_client. generalize (mk_session greeting [] false 0). revert c.
  induction evs as [|ev evs IH]; intros c ss Hl; cbn [handle_client_loop]; [by eexists _, _|].
  destruct (over ss); [by eexists _, _|].
  destruct ev as [| | | |[|x d]]; cbn [poll_turn mbind option_bind]; try by apply IH.
  destruct (serve_total (mk_session (written_ ss) (inbuf ss ++ x :: d) false (handled ss)) c Hl)
    as (ss' & c' & Hs & Hl'). unfold serve in Hs. cbn [inbuf] in Hs. rewrite Hs. cbn [mbind option_bind].
  by apply IH.
Qed.

(** C24: a session is the script of its lines: however the bytes are cut into reads and
    whatever interrupts come between them, the replies, the commands served, the way it
    ends and the state it leaves are those of one command per complete line, in order. *)
Theorem session_is_script evs c :
  forallb ongoing evs = true ->
  visible (handle_client evs c) = script 0 (full_lines (received evs)) greeting c.
Proof.
  intros He. unfold handle_client. rewrite loop_serve by done. by rewrite serve_script.
Qed.

(** What a command may do: [errors] alone moves the log cursor, [restart] alone touches
    the supervisor, [shutdown] alone asks the process to stop, and once, [exit] and [quit]
    alone close the session. *)
Theorem command_effects rd raw c resp close c' :
  dispatch rd raw c = Some (resp, close, c') -> served (command_of (trim raw)) c close c'.
Proof. intros [body Hd]%dispatch_of. by eapply dispatch_command_served. Qed.

(** [restart] answers that it restarts a service only when there is one of that name;
    for any other name it says so, and nothing changes. *)
Theorem restart_answers rd raw c s :
  let arg := argument_of (trim raw) in
  command_of (trim raw) = lit "restart" -> arg <> [] -> supervisor_ c = Some s ->
  exists ok c', dispatch_command rd raw c =
    Some (if ok : bool then line (lit "restarting '" ++ arg ++ lit "'") else line (lit "no such service: " ++ arg),
          false, c') /\
    (ok = true -> port_knows arg s) /\ (~ port_knows arg s -> ok = false /\ c' = c).
Proof.
  intros arg Hc Hne Hs. rewrite (dispatch_command_restart _ _ _ _ Hc Hs). fold arg. rewrite decide_False by done.
  pose proof (port_restart_known arg s) as Hk. pose proof (port_restart_unknown arg s) as Hu.
  destruct (port_restart arg s) as [ok s']. cbn in *. eexists ok, _. split_and!; [done..|].
  intros Hn. rewrite (Hu Hn). split; [destruct ok; [by destruct Hn; apply Hk|done]|]. destruct c. cbn in *. by subst.
Qed.

(** A word no command has gets a reply and changes nothing; the reply suggests a
    command only when one is within the sensitivity, and then one of those cheapest to
    reach from what was typed. *)
Theorem unknown_command rd raw c :
  let cmd := command_of (trim raw) in
  trim raw <> [] -> cmd ∉ filter_words ->
  (dispatch_command rd raw c = Some (line (lit "unknown command: " ++ cmd ++ lit " (try 'help')"), false, c) /\
   forall w, w ∈ filter_words -> fixHelper filter_ cmd w = Some None) \/
  exists w cost, w ∈ filter_words /\ fixHelper filter_ cmd w = Some (Some cost) /\
    (forall w' cost', w' ∈ filter_words -> fixHelper filter_ cmd w' = Some (Some cost') -> cost <= cost') /\
    dispatch_command rd raw c =
      Some (line (lit "unknown command: " ++ cmd ++ lit " — did you mean '" ++ w ++ lit "'?"), false, c).
Proof.
  intros cmd Hne Hcmd. unfold dispatch_command. rewrite decide_False by done. cbv zeta. fold cmd.
  assert (forall w, w ∈ filter_words -> cmd <> w) as Hw by (intros w Hin ->; done).
  rewrite !decide_False
    by (intros Hx; destruct_or? Hx; refine (Hw _ _ Hx); apply (bool_decide_unpack _); by vm_compute).
  pose proof (fix_word_spec 3 filter_words cmd ltac:(reflexivity)) as Hf. cbv zeta in Hf. fold filter_ in Hf.
  destruct Hf as [[Hr Hno]|(cost & Hin & Hcost & Hmin)].
  - left. by rewrite Hr, decide_True.
  - right. exists (fix_word filter_ cmd), cost. split_and!; [done..| |].
    + intros w' c' Hin' Hc'. destruct (Hmin w' c' Hin' Hc'); lia.
    + rewrite decide_False; [done|]. intros He. by apply (Hw _ Hin).
Qed.
End Server.
#[global] Arguments Control : clear implicits.
