(* ===== verification/Admin.v ===== *)
(** * Admin: the admin socket in front of the supervisor

    The supervisor's side of [SupervisorPort]: [describe_services],
    [describe_backend_status] and [restart_service] of
    src/src/supervisor/supervisor.cpp post a task to the supervisor's loop and wait for
    its answer; [in_time] says whether the answer comes before the wait gives up. The
    task runs all the same. *)
From S2P Require Import Prelude Text Log Autocorrect Clock ServiceConfig Supervisor SupervisorView Control.
Open Scope Z_scope.

Section Admin.
Context (os : OS) (wall_timestamp : Z -> bytes) (in_time : World -> bool).

Definition not_responding : bytes := lit "supervisor not responding" ++ [ch_nl].

Definition describe_services (w : World) : bytes :=
  if in_time w then render_services w else not_responding.
Definition describe_backend_status (now : Z) (w : World) : bytes :=
  if in_time w then render_backend_status wall_timestamp now w else not_responding.
Definition restart_service (name : bytes) (w : World) : bool * World :=
  let '(found, w') := do_restart os name w in (if in_time w then found else false, w').

Lemma do_restart_found name w : (do_restart os name w).1 = true <-> find_by_name name w <> None.
Proof.
  unfold do_restart. rewrite run_let. cbn [gets fst snd]. destruct (find_by_name name w) as [i|]; [|done].
  rewrite !run_seq. cbn [mret M_ret fst]. split; [done|]. by intros.
Qed.

Lemma do_restart_none name w : find_by_name name w = None -> (do_restart os name w).2 = w.
Proof. intros H. unfold do_restart. rewrite run_let. cbn [gets fst snd]. by rewrite H. Qed.

#[export] Program Instance supervisor_port : SupervisorPort World := {
  port_services := describe_services;
  port_backend_status := describe_backend_status;
  port_restart := restart_service;
  port_knows name w := find_by_name name w <> None
}.
Next Obligation.
  intros name w. unfold restart_service. destruct (do_restart os name w) as [found w'] eqn:Hd. cbn.
  destruct (in_time w); [|done]. intros ->. apply do_restart_found. by rewrite Hd.
Qed.
Next Obligation.
  intros name w Hn%dec_stable%do_restart_none. unfold restart_service. by destruct (do_restart os name w).
Qed.

Lemma restart_service_step name w : (restart_service name w).2 = run_state (handle os (RestartTask name)) w.
Proof. unfold restart_service. cbn [handle]. unfold run_state. rewrite run_seq. by destruct (do_restart os name w). Qed.

(** ** A session in front of the supervisor *)

(** The service a line asks to restart. *)
Definition restart_of (raw : bytes) : option bytes :=
  let arg := argument_of (trim raw) in
  if decide (command_of (trim raw) = lit "restart" /\ arg <> []) then Some arg else None.

(** The supervisor after it has run the restart tasks of these names, in order. *)
Definition restarted (names : list bytes) (w : World) : World :=
  foldl (fun w name => run_state (handle os (RestartTask name)) w) w names.

Lemma restarted_reachable configs names w : reachable os configs w -> reachable os configs (restarted names w).
Proof.
  revert w. induction names as [|n names IH]; intros w Hw; [done|].
  apply (IH (run_state (handle os (RestartTask n)) w)). by constructor.
Qed.

Lemma restarted_app a b w : restarted (a ++ b) w = restarted b (restarted a w).
Proof. apply foldl_app. Qed.

Lemma dispatch_supervisor rd raw (c : Control World) resp close c' w :
  dispatch rd raw c = Some (resp, close, c') -> supervisor_ c = Some w ->
  supervisor_ c' = Some (restarted (option_list (restart_of raw)) w).
Proof.
  intros [body Hd]%dispatch_of Hw. unfold restart_of.
  destruct (decide (command_of (trim raw) = lit "restart")) as [Hc|Hc].
  - rewrite (dispatch_command_restart _ _ _ _ Hc Hw) in Hd. revert Hd.
    destruct (decide (argument_of (trim raw) = [])) as [Ha|Ha].
    + intros [= _ _ <-]. by rewrite decide_False by (intros [_ ?]; done).
    + rewrite decide_True by done. 
      change (restarted (option_list (Some (argument_of (trim raw)))) w) with
        (run_state (handle os (RestartTask (argument_of (trim raw)))) w). rewrite <- restart_service_step.
      change (port_restart (argument_of (trim raw)) w) with (restart_service (argument_of (trim raw)) w).
      destruct (restart_service _ _) as [ok w']. by intros [= _ _ <-].
  - rewrite decide_False by (intros [? _]; done). cbn.
    by rewrite (sv_supervisor _ _ _ _ (dispatch_command_served _ _ _ _ _ _ Hd) Hc).
Qed.

Lemma script_supervisor rds k ls out (c : Control World) out' ov k' c' w :
  script rds k ls out c = Some (out', ov, k', c') -> supervisor_ c = Some w ->
  (k <= k')%nat /\ supervisor_ c' = Some (restarted (omap restart_of (take (k' - k) ls)) w).
Proof.
  revert k out c w. induction ls as [|l ls IH]; intros k out c w; cbn [script].
  - intros [= _ _ <- <-] Hw. split; [done|]. by rewrite Nat.sub_diag.
  - destruct (dispatch (rds k) l c) as [[[resp close] c1]|] eqn:Hd; [|done]. cbn [mbind option_bind].
    intros Hs Hw. pose proof (dispatch_supervisor _ _ _ _ _ _ _ Hd Hw) as Hw1. destruct close.
    + injection Hs as _ _ <- <-. split; [lia|]. replace (S k - k)%nat with 1%nat by lia. rewrite Hw1. cbn.
      by destruct (restart_of l).
    + destruct (IH _ _ _ _ Hs Hw1) as [Hk ->]. split; [lia|]. replace (k' - k)%nat with (S (k' - S k)) by lia.
      cbn [take omap list_omap]. rewrite <- restarted_app. by destruct (restart_of l).
Qed.

(** ** Properties *)

(** C27: over a session, the supervisor runs exactly the restarts of the lines that were
    served, each once and in order; it stays in a state its own loop could reach. *)
Theorem session_restarts configs rds evs (c : Control World) ss c' w :
  handle_client rds evs c = Some (ss, c') -> forallb ongoing evs = true ->
  supervisor_ c = Some w -> reachable os configs w ->
  let w' := restarted (omap restart_of (take (handled ss) (full_lines (received evs)))) w in
  supervisor_ c' = Some w' /\ reachable os configs w'.
Proof.
  intros Hs He Hw Hr w'. split; [|by apply restarted_reachable].
  pose proof (loop_serve rds evs (mk_session greeting [] false 0) c eq_refl eq_refl He) as Hv.
  rewrite serve_script in Hv by done. unfold handle_client in Hs. rewrite Hs in Hv.
  apply eq_sym, script_supervisor with (w := w) in Hv as [_ Hv]; [|done]. by rewrite Nat.sub_0_r in Hv.
Qed.

(** When the supervisor takes longer than the wait of [restart_service], the operator
    is told there is no such service, though there is one and it is restarted. *)
Theorem slow_restart_denied rd raw (c : Control World) w :
  command_of (trim raw) = lit "restart" -> supervisor_ c = Some w ->
  let name := argument_of (trim raw) in
  name <> [] -> find_by_name name w <> None -> in_time w = false ->
  dispatch_command rd raw c =
    Some (line (lit "no such service: " ++ name), false,
          c <| supervisor_ := Some (run_state (handle os (RestartTask name)) w) |>).
Proof.
  intros Hc Hw name Hne Hf Ht. rewrite (dispatch_command_restart _ _ _ _ Hc Hw). fold name.
  rewrite decide_False by done. rewrite <- restart_service_step. change (port_restart name w) with (restart_service name w).
  unfold restart_service. destruct (do_restart os name w) as [found w']. by rewrite Ht.
Qed.
End Admin.

(** ** A session, run *)

Definition demo_readings (k : nat) : Readings :=
  let t := mk_parts 2026 8 18 1 2 (Z.of_nat k) in
  mk_readings (200 * second) (Some 4) (Some (lit "0.10", lit "0.20", lit "0.30")) None (Some 512) (Some 1024)
    NetUp [Acked; Late] 80 (t, t, t) t.
Definition demo_control : Control World :=
  mk_control [mk_stats 1 2 3 4] (Some (demo_world [])) no_log true 0.
Definition demo_input : list poll_result :=
  [Received (lit "rest"); NotReadable; Received (lit "art api" ++ [ch_nl] ++ lit "  HLEP " ++ [ch_nl]);
   PollInterrupted; Received (lit "exit" ++ [ch_nl] ++ lit "ping" ++ [ch_nl])].

Section Witnesses.
#[local] Instance demo_port : SupervisorPort World := supervisor_port demo_os plain_stamp (fun _ => true).

Example demo_session_ex :
  (fun r => (written_ r.1, over r.1)) <$> handle_client demo_readings demo_input demo_control =
  Some (greeting ++
        [lit "[2026-08-18 01:02:00]" ++ [ch_nl] ++ lit "restarting 'api'" ++ [ch_nl];
         lit "[2026-08-18 01:02:01]" ++ [ch_nl] ++ lit "unknown command: hlep — did you mean 'help'?" ++ [ch_nl];
         lit "[2026-08-18 01:02:02]" ++ [ch_nl] ++ lit "bye" ++ [ch_nl]], true).
Proof. vm_compute. reflexivity. Qed.

Example session_never_throws_witness :
  log_ok (log demo_control) /\
  exists ss c', handle_client demo_readings demo_input demo_control = Some (ss, c') /\ log_ok (log c').
Proof. split; [by left|]. apply (session_never_throws demo_readings demo_input demo_control). by left. Defined.

Example session_is_script_witness :
  forallb ongoing demo_input = true /\
  visible (handle_client demo_readings demo_input demo_control) =
    script demo_readings 0 (full_lines (received demo_input)) greeting demo_control.
Proof. split; [reflexivity|]. exact (session_is_script demo_readings demo_input demo_control eq_refl). Defined.

Abbreviation typed := (lit " restart  api ").
Abbreviation asked := (dispatch (demo_readings 0) typed demo_control).
Example command_effects_witness :
  exists resp close c', asked = Some (resp, close, c') /\ served (command_of (trim typed)) demo_control close c'.
Proof.
  destruct asked as [[[resp close] c']|] eqn:Hd; [|vm_compute in Hd; discriminate].
  exists resp, close, c'. split; [reflexivity|].
  exact (command_effects (demo_readings 0) typed demo_control resp close c' Hd).
Defined.

Example restart_answers_witness :
  let arg := argument_of (trim typed) in
  (command_of (trim typed) = lit "restart" /\ arg <> [] /\ supervisor_ demo_control = Some (demo_world [])) /\
  exists ok c', dispatch_command (demo_readings 0) typed demo_control =
    Some (if ok : bool then line (lit "restarting '" ++ arg ++ lit "'") else line (lit "no such service: " ++ arg),
          false, c') /\
    (ok = true -> port_knows arg (demo_world [])) /\ (~ port_knows arg (demo_world []) -> ok = false /\ c' = demo_control).
Proof.
  split; [split_and!; [reflexivity|discriminate|reflexivity]|].
  apply (restart_answers (demo_readings 0) typed demo_control (demo_world [])); [reflexivity|discriminate|reflexivity].
Defined.

Abbreviation mistyped := (lit "HLEP").
Example unknown_command_witness :
  let cmd := command_of (trim mistyped) in
  (trim mistyped <> [] /\ cmd ∉ filter_words) /\
  ((dispatch_command (demo_readings 0) mistyped demo_control =
      Some (line (lit "unknown command: " ++ cmd ++ lit " (try 'help')"), false, demo_control) /\
    forall w, w ∈ filter_words -> fixHelper filter_ cmd w = Some None) \/
   exists w cost, w ∈ filter_words /\ fixHelper filter_ cmd w = Some (Some cost) /\
    (forall w' cost', w' ∈ filter_words -> fixHelper filter_ cmd w' = Some (Some cost') -> cost <= cost') /\
    dispatch_command (demo_readings 0) mistyped demo_control =
      Some (line (lit "unknown command: " ++ cmd ++ lit " — did you mean '" ++ w ++ lit "'?"), false, demo_control)).
Proof.
  assert (trim mistyped <> []) as H1 by discriminate.
  assert (command_of (trim mistyped) ∉ filter_words) as H2 by (apply (bool_decide_unpack _); vm_compute; exact I).
  split; [by split|]. exact (unknown_command (demo_readings 0) mistyped demo_control H1 H2).
Defined.
End Witnesses.

Section SupervisorWitnesses.
Abbreviation on_time := (fun _ : World => true).
Abbreviation late := (fun _ : World => false).

Example session_restarts_witness :
  exists ss c', @handle_client _ (supervisor_port demo_os plain_stamp on_time) demo_readings demo_input demo_control
      = Some (ss, c') /\
    forallb ongoing demo_input = true /\ supervisor_ demo_control = Some (demo_world []) /\
    reachable demo_os [demo_config] (demo_world []) /\
    (let w' := restarted demo_os (omap restart_of (take (handled ss) (full_lines (received demo_input)))) (demo_world []) in
     supervisor_ c' = Some w' /\ reachable demo_os [demo_config] w').
Proof.
  pose (demo_reachable []) as Hr.
  destruct (@handle_client _ (supervisor_port demo_os plain_stamp on_time) demo_readings demo_input demo_control)
    as [[ss c']|] eqn:Hs; [|vm_compute in Hs; discriminate].
  exists ss, c'. split_and!; [reflexivity..|exact Hr|].
  exact (session_restarts demo_os plain_stamp on_time [demo_config] demo_readings demo_input demo_control ss c'
           (demo_world []) Hs eq_refl eq_refl Hr).
Defined.

Example slow_restart_denied_witness :
  let raw := lit "restart api" in
  let name := argument_of (trim raw) in
  (command_of (trim raw) = lit "restart" /\ name <> [] /\ find_by_name name (demo_world []) <> None) /\
  @dispatch_command _ (supervisor_port demo_os plain_stamp late) (demo_readings 0) raw demo_control =
    Some (line (lit "no such service: " ++ name), false,
          demo_control <| supervisor_ := Some (run_state (handle demo_os (RestartTask name)) (demo_world [])) |>).
Proof.
  split; [split_and!; [reflexivity|discriminate|discriminate]|].
  exact (slow_restart_denied demo_os plain_stamp late (demo_readings 0) (lit "restart api") demo_control (demo_world [])
           eq_refl eq_refl ltac:(discriminate) ltac:(discriminate) eq_refl).
Defined.
End SupervisorWitnesses.
