(* ===== verification/Main.v ===== *)
(** * Main: the command line and the start of the process

    Models src/src/main.cpp: [parse_args] and what [main] brings up, in its order, up to
    the point where it parks in [sigwait], the signal loop, and the shutdown. Files,
    sockets, OpenSSL and the success of each [start] are answered by an [Environment];
    what comes up is a [Castle], and an early return is an exit code. [Process.v] is the same
    [main] with its system calls, descriptors and threads. *)
From S2P Require Import Prelude Text ServiceConfig Router.
Open Scope Z_scope.

(** ** Options *)

Record Options := mk_options {
  opt_port : Z;                (* uint16_t *)
  bind_addr : bytes;
  threads : Z;                 (* unsigned *)
  control_path : bytes;
  services_path : bytes;
  routes_path : bytes;
  timeout_sec : Z;             (* int *)
  tls_cert : bytes;
  tls_key : bytes;
  max_body : Z;                (* size_t *)
  log_file : bytes;
  max_conn : Z;                (* size_t *)
  rate : Z;                    (* long *)
  rate_burst : Z;              (* long *)
  net_check_sec : Z            (* int *)
}.
#[export] Instance eta_Options : Eta Options := fun o =>
  mk_options (opt_port o) (bind_addr o) (threads o) (control_path o) (services_path o) (routes_path o) (timeout_sec o)
    (tls_cert o) (tls_key o) (max_body o) (log_file o) (max_conn o) (rate o) (rate_burst o) (net_check_sec o).
#[export] Instance Options_eq_dec : EqDecision Options.
Proof. solve_decision. Defined.

Definition default_options : Options :=
  mk_options 8080 [] 0 (lit "/tmp/castle.sock") [] [] 30 [] [] (1024 * 1024 * 1024) [] 0 0 0 30.

(** One turn of the loop: an argument, the ones after it, and the options so far. An
    argument whose value is missing or out of range meets no other branch than the last,
    which refuses it. *)
Definition parse_arg (arg : bytes) (rest : list bytes) (opts : Options) : option (list bytes * Options) :=
  let next (ok : Z -> bool) (set : Z -> Options) :=
    match rest with
    | [] => None
    | v :: rest => let val := strtol v in if ok val then Some (rest, set val) else None
    end in
  let text (set : bytes -> Options) := match rest with [] => None | v :: rest => Some (rest, set v) end in
  let natural := fun val => 0 <=? val in
  if decide (arg = lit "--port") then next (fun val => (0 <? val) && (val <=? 65535)) (fun v => opts <| opt_port := wrap_u 16 v |>)
  else if decide (arg = lit "--bind") then text (fun v => opts <| bind_addr := v |>)
  else if decide (arg = lit "--threads") then next natural (fun v => opts <| threads := wrap_u 32 v |>)
  else if decide (arg = lit "--control") then text (fun v => opts <| control_path := v |>)
  else if decide (arg = lit "--services") then text (fun v => opts <| services_path := v |>)
  else if decide (arg = lit "--routes") then text (fun v => opts <| routes_path := v |>)
  else if decide (arg = lit "--timeout") then next natural (fun v => opts <| timeout_sec := wrap_s 32 v |>)
  else if decide (arg = lit "--max-body") then next natural (fun v => opts <| max_body := wrap_u 64 v |>)
  else if decide (arg = lit "--log-file") then text (fun v => opts <| log_file := v |>)
  else if decide (arg = lit "--max-conn") then next natural (fun v => opts <| max_conn := wrap_u 64 v |>)
  else if decide (arg = lit "--rate") then next natural (fun v => opts <| rate := v |>)
  else if decide (arg = lit "--rate-burst") then next natural (fun v => opts <| rate_burst := v |>)
  else if decide (arg = lit "--net-check") then next natural (fun v => opts <| net_check_sec := wrap_s 32 v |>)
  else if decide (arg = lit "--tls-cert") then text (fun v => opts <| tls_cert := v |>)
  else if decide (arg = lit "--tls-key") then text (fun v => opts <| tls_key := v |>)
  else None.

(** The loop over [argv], whose length bounds its turns. *)
Fixpoint parse_loop (fuel : nat) (args : list bytes) (opts : Options) : option Options :=
  match fuel with
  | O => None
  | S fuel =>
      match args with
      | [] => Some opts
      | arg :: rest => '(rest, opts) ← parse_arg arg rest opts; parse_loop fuel rest opts
      end
  end.
Definition parse_args (args : list bytes) (opts : Options) : option Options := parse_loop (S (length args)) args opts.

(** ** Starting *)

Record Environment := mk_env {
  hardware_concurrency : Z;                          (* 0 when unknown *)
  read_file : bytes -> option bytes;
  supervisor_starts : bool;
  tls_init : bytes -> bytes -> bool;                 (* TlsContext::init *)
  listener_opens : nat -> bool;                      (* make_reuseport_listener, per worker *)
  control_starts : bool
}.

(** What the listeners speak. *)
Inductive Factory := Echo | HttpProxy | HttpsProxy.
#[export] Instance Factory_eq_dec : EqDecision Factory.
Proof. solve_decision. Defined.

(** The running process. The limiter is its rate and burst, as passed to [double]. *)
Record Castle := mk_castle {
  workers : Z;
  limiter : option (Z * Z);
  conn_limit : Z;
  supervised : option (list ServiceConfig);
  router : Router;
  factory : Factory;
  idle_sweep : bool;
  net_watch : option Z;
  control : bool
}.

Inductive outcome := Exit (code : Z) | Serving (c : Castle).

Definition make_limiter (opts : Options) : option (Z * Z) :=
  if 0 <? rate opts then Some (rate opts, if 0 <? rate_burst opts then rate_burst opts else rate opts) else None.

(** [n_threads]. *)
Definition worker_count (env : Environment) (opts : Options) : Z :=
  if decide (threads opts = 0) then Z.max 1 (hardware_concurrency env) else threads opts.

(** The supervisor of the manifest: [None] is the early return. *)
Definition start_supervisor (env : Environment) (opts : Options) : option (option (list ServiceConfig)) :=
  if decide (services_path opts = []) then Some None
  else
    let '(ok, configs, _) := parse_services_file (services_path opts) (read_file env (services_path opts)) [] [] in
    if ok : bool then Some (if supervisor_starts env then Some configs else None) else None.

(** What the listeners speak, and the routes. *)
Definition choose_factory (env : Environment) (opts : Options) : option (Router * Factory) :=
  if decide (routes_path opts = []) then
    if decide (tls_cert opts = []) then Some ([], Echo) else None
  else
    let '(ok, routes, _) := load [] (routes_path opts) (read_file env (routes_path opts)) [] in
    if ok : bool then
      if decide (tls_cert opts = [] /\ tls_key opts = []) then Some (routes, HttpProxy)
      else if decide (tls_cert opts = [] \/ tls_key opts = []) then None
      else if tls_init env (tls_cert opts) (tls_key opts) then Some (routes, HttpsProxy) else None
    else None.

(** The loop that makes the listeners: whether all of them open. *)
Fixpoint open_listeners (env : Environment) (i n : nat) : bool :=
  match n with
  | O => true
  | S n => if listener_opens env i then open_listeners env (S i) n else false
  end.

Definition main (env : Environment) (args : list bytes) : outcome :=
  match parse_args args default_options with
  | None => Exit 2
  | Some opts =>
      let n_threads := worker_count env opts in
      let limiter := make_limiter opts in
      match start_supervisor env opts with
      | None => Exit 1
      | Some supervised =>
          match choose_factory env opts with
          | None => Exit 1
          | Some (routes, factory) =>
              if open_listeners env 0 (Z.to_nat n_threads) then
                Serving (mk_castle n_threads limiter (max_conn opts) supervised routes factory
                           (0 <? timeout_sec opts)
                           (if 0 <? net_check_sec opts then Some (net_check_sec opts) else None)
                           (if decide (control_path opts = []) then false else control_starts env))
              else Exit 1
          end
      end
  end.

(** ** Signals *)

Inductive signal := SIGINT | SIGTERM | SIGHUP.
#[export] Instance signal_eq_dec : EqDecision signal.
Proof. solve_decision. Defined.

(** The [sigwait] loop: how many times the certificate is reloaded, and the signal that
    ends it, with the ones never waited for. *)
Fixpoint wait_signals (tls_enabled : bool) (sigs : list signal) (reloads : nat) : option (nat * signal * list signal) :=
  match sigs with
  | [] => None
  | SIGHUP :: sigs => wait_signals tls_enabled sigs (if tls_enabled then S reloads else reloads)
  | sig :: sigs => Some (reloads, sig, sigs)
  end.

(** ** The command line *)

(** What the types of the fields hold. *)
Record options_ok (o : Options) : Prop := {
  ok_port : 1 <= opt_port o <= 65535;
  ok_threads : in_u 32 (threads o);
  ok_timeout : in_s 32 (timeout_sec o);
  ok_body : in_u 64 (max_body o);
  ok_conn : in_u 64 (max_conn o);
  ok_rate : 0 <= rate o;
  ok_burst : 0 <= rate_burst o;
  ok_check : in_s 32 (net_check_sec o)
}.

(** Every option takes a value, and leaves well-typed options well-typed. *)
Lemma parse_arg_inv arg rest opts rest' opts' :
  parse_arg arg rest opts = Some (rest', opts') ->
  (exists v, rest = v :: rest') /\ (options_ok opts -> options_ok opts').
Proof.
  intros Ha. unfold parse_arg in Ha. destruct rest as [|v rest]; [by repeat case_decide|].
  repeat case_decide; try done; try (destruct (_ && _) eqn:Hb; [|done]); try (destruct (_ <=? _) eqn:Hb; [|done]);
    injection Ha as <- <-; (split; [by exists v|]); intros [];
    split; cbn; try done; try (by apply wrap_s_range); try (by apply wrap_u_range); bool_to_prop; try lia.
  rewrite wrap_u_id; [lia|]. unfold in_u. lia.
Qed.

Lemma parse_loop_fuel f f' args opts :
  (length args < f)%nat -> (length args < f')%nat -> parse_loop f args opts = parse_loop f' args opts.
Proof.
  revert f' args opts. induction f as [|f IH]; intros [|f'] [|arg rest] opts H H'; cbn in *; try lia; [done|].
  destruct (parse_arg arg rest opts) as [[rest' opts']|] eqn:Ha; [|done]. cbn.
  apply parse_arg_inv in Ha as [[v ->] _]. cbn in *. apply IH; lia.
Qed.

(** One turn of [parse_args]. *)
Lemma parse_args_cons arg rest opts :
  parse_args (arg :: rest) opts = '(rest, opts) ← parse_arg arg rest opts; parse_args rest opts.
Proof.
  unfold parse_args at 1. cbn [parse_loop]. destruct (parse_arg arg rest opts) as [[rest' opts']|] eqn:Ha; [|done].
  cbn [mbind option_bind]. apply parse_arg_inv in Ha as [[v ->] _]. apply parse_loop_fuel; cbn; lia.
Qed.

Lemma parse_args_inv args opts opts' : parse_args args opts = Some opts' -> options_ok opts -> options_ok opts'.
Proof.
  unfold parse_args. generalize (S (length args)). intros f. revert args opts.
  induction f as [|f IH]; intros [|arg rest] opts; cbn; try done; [by intros [= ->]|].
  destruct (parse_arg arg rest opts) as [[rest' opts1]|] eqn:Ha; [|done]. cbn.
  intros Hp Hok. eapply IH; [exact Hp|]. by apply (parse_arg_inv _ _ _ _ _ Ha).
Qed.

Lemma default_ok : options_ok default_options.
Proof. split; unfold in_u, in_s; try split; done. Qed.

(** The command line that gives these options. *)
Definition render_args (o : Options) : list bytes :=
  [lit "--port"; to_string (opt_port o); lit "--bind"; bind_addr o; lit "--threads"; to_string (threads o);
   lit "--control"; control_path o; lit "--services"; services_path o; lit "--routes"; routes_path o;
   lit "--timeout"; to_string (timeout_sec o); lit "--tls-cert"; tls_cert o; lit "--tls-key"; tls_key o;
   lit "--max-body"; to_string (max_body o); lit "--log-file"; log_file o; lit "--max-conn"; to_string (max_conn o);
   lit "--rate"; to_string (rate o); lit "--rate-burst"; to_string (rate_burst o);
   lit "--net-check"; to_string (net_check_sec o)].

(** A [long] that the option takes. *)
Lemma parse_number arg ok set rest opts val :
  (forall v rest, parse_arg arg (v :: rest) opts =
     if ok (strtol v) : bool then Some (rest, set (strtol v) opts) else None) ->
  in_s 64 val -> ok val = true ->
  parse_args (arg :: to_string val :: rest) opts = parse_args rest (set val opts).
Proof. intros Ha Hv Hok. by rewrite parse_args_cons, Ha, strtol_to_string, Hok. Qed.

Lemma parse_text arg set rest opts v :
  parse_arg arg (v :: rest) opts = Some (rest, set v opts) ->
  parse_args (arg :: v :: rest) opts = parse_args rest (set v opts).
Proof. intros Ha. by rewrite parse_args_cons, Ha. Qed.

(** Options that can be asked for. *)
Record askable (o : Options) : Prop := {
  ask_port : 1 <= opt_port o <= 65535;
  ask_threads : 0 <= threads o < 2 ^ 32;
  ask_timeout : 0 <= timeout_sec o < 2 ^ 31;
  ask_body : 0 <= max_body o < 2 ^ 63;
  ask_conn : 0 <= max_conn o < 2 ^ 63;
  ask_rate : 0 <= rate o < 2 ^ 63;
  ask_burst : 0 <= rate_burst o < 2 ^ 63;
  ask_check : 0 <= net_check_sec o < 2 ^ 31
}.

(** ** Properties *)

(** Every option can be set from the command line: parsing the arguments that spell out
    some options gives exactly these options, whatever the values before. *)
Theorem parse_args_roundtrip o opts : askable o -> parse_args (render_args o) opts = Some o.
Proof.
  intros []. set (natural := fun v => 0 <=? v).
  assert (2 ^ 32 < 2 ^ 63) by done. assert (2 ^ 31 < 2 ^ 63) by done.
  assert (forall z, 0 <= z < 2 ^ 63 -> in_s 64 z /\ natural z = true) as Hn.
  { intros z Hz. unfold in_s, natural. change (2 ^ (64 - 1)) with (2 ^ 63). split; [lia|apply Z.leb_le; lia]. }
  unfold render_args.
  rewrite (parse_number (lit "--port") (fun v => (0 <? v) && (v <=? 65535)) (fun v o => o <| opt_port := wrap_u 16 v |>))
    by first [done | apply Hn; lia | apply andb_true_iff; lia].
  rewrite (parse_text (lit "--bind") (fun v o => o <| bind_addr := v |>)) by done.
  rewrite (parse_number (lit "--threads") natural (fun v o => o <| threads := wrap_u 32 v |>)) by first [done | apply Hn; lia].
  rewrite (parse_text (lit "--control") (fun v o => o <| control_path := v |>)) by done.
  rewrite (parse_text (lit "--services") (fun v o => o <| services_path := v |>)) by done.
  rewrite (parse_text (lit "--routes") (fun v o => o <| routes_path := v |>)) by done.
  rewrite (parse_number (lit "--timeout") natural (fun v o => o <| timeout_sec := wrap_s 32 v |>)) by first [done | apply Hn; lia].
  rewrite (parse_text (lit "--tls-cert") (fun v o => o <| tls_cert := v |>)) by done.
  rewrite (parse_text (lit "--tls-key") (fun v o => o <| tls_key := v |>)) by done.
  rewrite (parse_number (lit "--max-body") natural (fun v o => o <| max_body := wrap_u 64 v |>)) by first [done | apply Hn; lia].
  rewrite (parse_text (lit "--log-file") (fun v o => o <| log_file := v |>)) by done.
  rewrite (parse_number (lit "--max-conn") natural (fun v o => o <| max_conn := wrap_u 64 v |>)) by first [done | apply Hn; lia].
  rewrite (parse_number (lit "--rate") natural (fun v o => o <| rate := v |>)) by first [done | apply Hn; lia].
  rewrite (parse_number (lit "--rate-burst") natural (fun v o => o <| rate_burst := v |>)) by first [done | apply Hn; lia].
  rewrite (parse_number (lit "--net-check") natural (fun v o => o <| net_check_sec := wrap_s 32 v |>)) by first [done | apply Hn; lia].
  unfold parse_args. cbn. rewrite !wrap_u_id, !wrap_s_id by (unfold in_u, in_s; cbn; lia). by destruct o.
Qed.

Definition sample_options : Options :=
  default_options <| opt_port := 443 |> <| bind_addr := lit "10.0.0.1" |> <| threads := 4 |>
    <| routes_path := lit "/etc/castle/routes" |> <| tls_cert := lit "--port" |> <| rate := 20 |>.
Example parse_args_roundtrip_witness :
  askable sample_options /\ parse_args (render_args sample_options) default_options = Some sample_options.
Proof.
  assert (askable sample_options) as Ha by (split; split; vm_compute; first [reflexivity | discriminate]).
  split; [exact Ha|]. exact (parse_args_roundtrip sample_options default_options Ha).
Defined.

(** What was asked for, and what came up. *)
Record serves (env : Environment) (opts : Options) (c : Castle) : Prop := {
  srv_options : options_ok opts;
  srv_workers : 1 <= workers c /\ forall i, (i < Z.to_nat (workers c))%nat -> listener_opens env i = true;
  srv_limiter : limiter c = None <-> rate opts = 0;
  srv_bucket : forall r b, limiter c = Some (r, b) -> r = rate opts /\ 0 < r /\ 0 < b;
  srv_tls : tls_cert opts <> [] -> factory c = HttpsProxy;
  srv_key : tls_key opts <> [] -> routes_path opts <> [] -> factory c = HttpsProxy;
  srv_init : factory c = HttpsProxy -> tls_init env (tls_cert opts) (tls_key opts) = true;
  srv_echo : factory c = Echo <-> routes_path opts = [];
  srv_routes : routes_path opts <> [] ->
    exists err, load [] (routes_path opts) (read_file env (routes_path opts)) [] = (true, router c, err);
  srv_services : services_path opts <> [] ->
    exists configs err,
      parse_services_file (services_path opts) (read_file env (services_path opts)) [] [] = (true, configs, err) /\
      supervised c = if supervisor_starts env then Some configs else None;
  srv_sweep : idle_sweep c = true <-> 0 < timeout_sec opts
}.

Lemma open_listeners_all env i n :
  open_listeners env i n = true -> forall k, (k < n)%nat -> listener_opens env (i + k) = true.
Proof.
  revert i. induction n as [|n IH]; intros i; cbn; [lia|]. destruct (listener_opens env i) eqn:Hi; [|done].
  intros Ho [|k] Hk; [by rewrite Nat.add_0_r|]. rewrite <- Nat.add_succ_comm. apply IH; [done|lia].
Qed.

Lemma choose_factory_serves env opts routes f :
  choose_factory env opts = Some (routes, f) ->
  (tls_cert opts <> [] -> f = HttpsProxy) /\ (tls_key opts <> [] -> routes_path opts <> [] -> f = HttpsProxy) /\
  (f = HttpsProxy -> tls_init env (tls_cert opts) (tls_key opts) = true) /\ (f = Echo <-> routes_path opts = []) /\
  (routes_path opts <> [] -> exists err, load [] (routes_path opts) (read_file env (routes_path opts)) [] = (true, routes, err)).
Proof.
  unfold choose_factory. destruct (decide (routes_path opts = [])) as [He|Hne].
  - destruct (decide (tls_cert opts = [])); [|done]. by intros [= <- <-].
  - destruct (load _ _ _ _) as [[ok rs] err]. destruct ok; [|done].
    destruct (decide (tls_cert opts = [] /\ tls_key opts = [])) as [[Hc Hk]|Hck].
    + intros [= <- <-]. split_and!; [by rewrite Hc..|by rewrite Hk|done|done|by exists err].
    + destruct (decide _) as [|Hb]; [done|]. destruct (tls_init _ _ _); [|done].
      intros [= <- <-]. split_and!; [done..|by exists err].
Qed.

(** What comes up is what the command line asked for: with a certificate castle speaks
    TLS or does not start, never plain text; the routes and the services are those of the
    files, which were accepted; the limiter has a positive rate and burst; every worker has
    its listener. *)
Theorem main_serves env args c :
  0 <= hardware_concurrency env < 2 ^ 32 -> main env args = Serving c ->
  exists opts, parse_args args default_options = Some opts /\ serves env opts c.
Proof.
  intros Hh. unfold main. destruct (parse_args args default_options) as [opts|] eqn:Hp; [|done].
  destruct (start_supervisor env opts) as [sup|] eqn:Hs; [|done].
  destruct (choose_factory env opts) as [[routes f]|] eqn:Hf; [|done].
  destruct (open_listeners _ _ _) eqn:Ho; [|done]. intros [= <-]. exists opts. split; [done|].
  assert (options_ok opts) as Hok by (by eapply parse_args_inv, default_ok).
  apply choose_factory_serves in Hf as (H1 & H2 & H3 & H4 & H5). pose proof (ok_rate _ Hok).
  split; cbn; try done.
  - split; [|intros k Hk; by apply (open_listeners_all env 0 _ Ho)]. pose proof (ok_threads _ Hok) as [? _]. unfold worker_count. case_decide; lia.
  - unfold make_limiter. destruct (Z.ltb_spec 0 (rate opts)); [|split; [lia|done]]. split; [done|lia].
  - unfold make_limiter. intros r b. destruct (Z.ltb_spec 0 (rate opts)); [|done]. intros [= <- <-].
    destruct (Z.ltb_spec 0 (rate_burst opts)); lia.
  - intros Hn. unfold start_supervisor in Hs. rewrite decide_False in Hs by done.
    destruct (parse_services_file _ _ _ _) as [[ok configs] err]. destruct ok; [|done]. injection Hs as <-.
    by exists configs, err.
  - apply Z.ltb_lt.
Qed.

Definition plain_files (path : bytes) : option bytes :=
  if decide (path = lit "r") then
    Some (lit "[route web]" ++ [ch_nl] ++ lit "path = /" ++ [ch_nl] ++ lit "backend = 127.0.0.1:9000" ++ [ch_nl])
  else None.
Definition plain_env : Environment := mk_env 2 plain_files true (fun _ _ => true) (fun _ => true) true.
Abbreviation tls_args := ([lit "--routes"; lit "r"; lit "--tls-cert"; lit "c"; lit "--tls-key"; lit "k"; lit "--rate"; lit "5"]).
Example main_serves_witness :
  exists c, main plain_env tls_args = Serving c /\ 0 <= hardware_concurrency plain_env < 2 ^ 32 /\
    factory c = HttpsProxy /\
    exists opts, parse_args tls_args default_options = Some opts /\ serves plain_env opts c.
Proof.
  destruct (main plain_env tls_args) as [n|c] eqn:Hm; [vm_compute in Hm; discriminate|].
  exists c. split; [reflexivity|]. assert (0 <= hardware_concurrency plain_env < 2 ^ 32) as Hh by (split; [discriminate|reflexivity]).
  split; [exact Hh|]. split; [vm_compute in Hm; by inversion Hm|].
  exact (main_serves plain_env tls_args c Hh Hm).
Defined.

(** A key without a certificate, and no routes: the echo server, in plain text. *)
Example lone_key_ex :
  exists c, main plain_env [lit "--tls-key"; lit "k"] = Serving c /\ factory c = Echo.
Proof. eexists. split; [vm_compute; reflexivity|done]. Qed.

(** A [--timeout] that is a multiple of 2^32 is taken, and turns idle timeouts off: the
    cast to [int] leaves 0, the value documented to disable them. *)
Theorem huge_timeout_disables k opts :
  0 < k < 2 ^ 31 ->
  parse_args [lit "--timeout"; to_string (k * 2 ^ 32)] opts = Some (opts <| timeout_sec := 0 |>).
Proof.
  intros Hk. change (2 ^ 31) with 2147483648 in Hk. change (2 ^ 32) with 4294967296.
  rewrite (parse_number (lit "--timeout") (fun v => 0 <=? v) (fun v o => o <| timeout_sec := wrap_s 32 v |>)).
  - unfold parse_args. cbn. unfold wrap_s. change (2 ^ (32 - 1)) with 2147483648. change (2 ^ 32) with 4294967296.
    rewrite Z.add_comm, Z_mod_plus_full. done.
  - done.
  - unfold in_s. change (2 ^ (64 - 1)) with 9223372036854775808. lia.
  - apply Z.leb_le. lia.
Qed.

Example huge_timeout_disables_witness :
  0 < 1 < 2 ^ 31 /\
  parse_args [lit "--timeout"; to_string (1 * 2 ^ 32)] default_options = Some (default_options <| timeout_sec := 0 |>).
Proof. split; [by split|]. apply (huge_timeout_disables 1 default_options). by split. Defined.

(** [SIGHUP] never ends castle, and reloads the certificate once each time, if there is
    one; the first other signal ends it. *)
Lemma wait_signals_spec tls_enabled sigs n :
  match wait_signals tls_enabled sigs n with
  | Some (reloads, sig, rest) =>
      sig <> SIGHUP /\ exists k, sigs = replicate k SIGHUP ++ sig :: rest /\
        reloads = if tls_enabled then (n + k)%nat else n
  | None => sigs = replicate (length sigs) SIGHUP
  end.
Proof.
  revert n. induction sigs as [|s sigs IH]; intros n; cbn; [done|].
  destruct s; try (split; [done|]; exists O; by destruct tls_enabled; rewrite ?Nat.add_0_r).
  specialize (IH (if tls_enabled then S n else n)). destruct (wait_signals _ _ _) as [[[r sig] rest]|].
  - destruct IH as (Hs & k & -> & ->). split; [done|]. exists (S k). split; [done|]. destruct tls_enabled; [lia|done].
  - by f_equal.
Qed.
