(* ===== verification/Loop.v ===== *)
(** * Loop: the reactor

    Models [EventLoop] of src/src/net/event_loop.{h,cpp} and the interface
    [EventHandler] of src/src/net/event_handler.h. A handler is known by its address;
    [handlers_] owns the handlers, [epoll] is the kernel's registration of their file
    descriptors, which holds the raw pointers the loop dereferences. A callback is a
    program that changes a world [W] and calls operations of the loop. Calling a handler that was destroyed, and changing [handlers_] while
    the sweep iterates over it, are [None].

    The doorbell ([post], [drain_wakeup], [run_pending_tasks]) is shared with other
    threads: it is a step relation of its own, one step per action of a thread. *)
From S2P Require Import Prelude.
Open Scope Z_scope.

(** ** Handlers and what they may ask of the loop *)

(** The loop's operations, as a callback calls them on the loop's own thread;
    [epoll_adds] is the kernel's answer to [EPOLL_CTL_ADD]. *)
Inductive cmd :=
  | Add (addr : nat) (events : Z) (epoll_adds : bool)
  | Update (fd : Z) (events : Z)
  | RequestClose (fd : Z).
Definition not_add (c : cmd) : Prop := match c with Add _ _ _ => False | _ => True end.

(** A callback: from the world it is in, a change of it, then operations of the loop, then
    the rest. *)
Inductive prog (W : Type) :=
  | Ret
  | Step (next : W -> W) (cmds : W -> list cmd) (rest : W -> prog W).
#[global] Arguments Ret {W}.
#[global] Arguments Step {W} _ _ _.

(** A callback that adds no handler. *)
Inductive only_closes {W} : prog W -> Prop :=
  | closes_ret : only_closes Ret
  | closes_step next cmds rest :
      (forall w, Forall not_add (cmds w)) -> (forall w, only_closes (rest w)) -> only_closes (Step next cmds rest).

(** [EventHandler], by address; and the tasks that were posted, when the doorbell rings. *)
Class EventHandler (W : Type) := {
  fd : nat -> Z;
  on_readable : nat -> prog W;
  on_writable : nat -> prog W;
  on_error : nat -> prog W;
  check_timeout : Z -> nat -> prog W;
  destroy : nat -> W -> W;                      (* the destructor *)
  run_tasks : prog W;
  timer : option nat;                           (* the FdWatcher of the idle sweep *)
  sweep_time : W -> Z;                          (* steady_clock::now() *)
  check_timeout_only_closes : forall t addr, only_closes (check_timeout t addr)
}.

Definition EPOLLIN : Z := 1.
Definition EPOLLOUT : Z := 4.
Definition EPOLLERR : Z := 8.
Definition EPOLLHUP : Z := 16.

Section Loop.
Context {W : Type} `{EventHandler W}.

(** [born] and [dead] are ghosts: the handlers given to the loop, and those it destroyed. *)
Record EventLoop := mk_loop {
  handlers_ : gmap Z nat;              (* fd -> handler *)
  epoll : gmap Z (Z * nat);            (* fd -> events, data.ptr *)
  pending_close_ : gset Z;
  world : W;
  born : list nat; dead : list nat
}.
#[export] Instance eta_EventLoop : Eta EventLoop := fun l =>
  mk_loop (handlers_ l) (epoll l) (pending_close_ l) (world l) (born l) (dead l).

Definition kill (addr : nat) (l : EventLoop) : EventLoop :=
  l <| world ::= destroy addr |> <| dead ::= cons addr |>.

(** [add]: when [epoll_ctl] fails, as it does for a descriptor already registered, the
    handler is destroyed on the spot. *)
Definition add (addr : nat) (events : Z) (epoll_adds : bool) (l : EventLoop) : EventLoop :=
  let l := l <| born ::= cons addr |> in
  if epoll_adds && bool_decide (epoll l !! fd addr = None) then
    l <| epoll ::= <[fd addr := (events, addr)]> |> <| handlers_ ::= <[fd addr := addr]> |>
  else kill addr l.

Definition update (f : Z) (events : Z) (l : EventLoop) : EventLoop :=
  match handlers_ l !! f with
  | None => l
  | Some addr =>
      if bool_decide (epoll l !! f = None) then l    (* ENOENT, logged *)
      else l <| epoll ::= <[f := (events, addr)]> |>
  end.

Definition request_close (f : Z) (l : EventLoop) : EventLoop := l <| pending_close_ ::= (fun p => {[f]} ∪ p) |>.

Definition exec (l : EventLoop) (c : cmd) : EventLoop :=
  match c with
  | Add addr events ok => add addr events ok l
  | Update f events => update f events l
  | RequestClose f => request_close f l
  end.

(** Whether the loop still owns the handler at [addr]. *)
Definition alive (l : EventLoop) (addr : nat) : bool := bool_decide (addr ∈ (map_to_list (handlers_ l)).*2).

Fixpoint interp (p : prog W) (l : EventLoop) : EventLoop :=
  match p with
  | Ret => l
  | Step next cmds rest =>
      let w := world l in interp (rest w) (foldl exec (l <| world := next w |>) (cmds w))
  end.
Definition call (callback : nat -> prog W) (addr : nat) (l : EventLoop) : option EventLoop :=
  if alive l addr then Some (interp (callback addr) l) else None.

(** [sweep_timeouts]: every handler, in the order of the table; changing the table during
    the iteration is undefined behaviour. *)
Fixpoint sweep_loop (now : Z) (table : gmap Z nat) (addrs : list nat) (l : EventLoop) : option EventLoop :=
  match addrs with
  | [] => Some l
  | addr :: addrs =>
      l ← call (check_timeout now) addr l;
      if decide (handlers_ l = table) then sweep_loop now table addrs l else None
  end.
Definition sweep_timeouts (l : EventLoop) : option EventLoop :=
  sweep_loop (sweep_time (world l)) (handlers_ l) (map_to_list (handlers_ l)).*2 l.

Definition readable (addr : nat) (l : EventLoop) : option EventLoop :=
  if decide (timer = Some addr) then if alive l addr then sweep_timeouts l else None
  else call on_readable addr l.

(** One event of [epoll_wait]: its mask, and [data.ptr]. *)
Definition dispatch (ev : Z * option nat) (l : EventLoop) : option EventLoop :=
  let '(events, ptr) := ev in
  match ptr with
  | None => Some (interp run_tasks l)
  | Some addr =>
      if negb (Z.land events (Z.lor EPOLLERR EPOLLHUP) =? 0) then call on_error addr l
      else
        l ← (if negb (Z.land events EPOLLIN =? 0) then readable addr l else Some l);
        if negb (Z.land events EPOLLOUT =? 0) then
          if alive l addr then
            if decide (fd addr ∈ pending_close_ l) then Some l else call on_writable addr l
          else None
        else Some l
  end.

Fixpoint dispatch_all (evs : list (Z * option nat)) (l : EventLoop) : option EventLoop :=
  match evs with
  | [] => Some l
  | ev :: evs => l ← dispatch ev l; dispatch_all evs l
  end.

Lemma dispatch_all_app evs1 evs2 l : dispatch_all (evs1 ++ evs2) l = dispatch_all evs1 l ≫= dispatch_all evs2.
Proof. revert l. induction evs1 as [|ev evs IH]; intros l; cbn; [done|]. destruct (dispatch ev l); [apply IH|done]. Qed.

Definition close_one (l : EventLoop) (f : Z) : EventLoop :=
  match handlers_ l !! f with
  | None => l <| epoll ::= delete f |>
  | Some addr => kill addr (l <| epoll ::= delete f |> <| handlers_ ::= delete f |>)
  end.
Definition process_pending_close (l : EventLoop) : EventLoop :=
  (foldl close_one l (elements (pending_close_ l))) <| pending_close_ := ∅ |>.

(** One turn of [run], past [epoll_wait]. *)
Definition turn (evs : list (Z * option nat)) (l : EventLoop) : option EventLoop :=
  l ← dispatch_all evs l; Some (process_pending_close l).

(** [n] turns, when [wait] is what [epoll_wait] returns in each. *)
Fixpoint run (wait : nat -> EventLoop -> list (Z * option nat)) (n k : nat) (l : EventLoop) : option EventLoop :=
  match n with
  | O => Some l
  | S n => l ← turn (wait k l) l; run wait n (S k) l
  end.

(** ** Ownership *)

(** The pointers the kernel holds are those of the handlers the loop owns, each under its
    own descriptor; a handler given to the loop is owned or was destroyed, once. *)
Record inv (l : EventLoop) : Prop := {
  inv_epoll : forall f addr, handlers_ l !! f = Some addr <-> exists events, epoll l !! f = Some (events, addr);
  inv_fd : forall f addr, handlers_ l !! f = Some addr -> f = fd addr;
  inv_owned : born l ≡ₚ dead l ++ (map_to_list (handlers_ l)).*2
}.

(** What [epoll_wait] may return. *)
Definition delivered (l : EventLoop) (evs : list (Z * option nat)) : Prop :=
  Forall (fun ev => match ev.2 with
                    | None => True
                    | Some addr => exists f events, epoll l !! f = Some (events, addr)
                    end) evs.

Lemma alive_spec l addr : inv l -> alive l addr = true <-> handlers_ l !! fd addr = Some addr.
Proof.
  intros Hi. unfold alive. rewrite bool_decide_eq_true, list_elem_of_fmap. split.
  - intros ([f a] & -> & Hin%elem_of_map_to_list). cbn. by rewrite <- (inv_fd _ Hi _ _ Hin).
  - intros Hl. exists (fd addr, addr). split; [done|]. by apply elem_of_map_to_list.
Qed.

Lemma epoll_none l f : inv l -> epoll l !! f = None -> handlers_ l !! f = None.
Proof.
  intros Hi He. destruct (handlers_ l !! f) as [a|] eqn:Hh; [|done].
  apply (inv_epoll _ Hi) in Hh as [ev Hh]. congruence.
Qed.

Lemma kill_inv addr l :
  (forall f a, handlers_ l !! f = Some a <-> exists events, epoll l !! f = Some (events, a)) ->
  (forall f a, handlers_ l !! f = Some a -> f = fd a) ->
  born l ≡ₚ addr :: dead l ++ (map_to_list (handlers_ l)).*2 -> inv (kill addr l).
Proof. by split. Qed.

Lemma add_inv addr events ok l : inv l -> inv (add addr events ok l).
Proof.
  intros Hi. unfold add. cbn [epoll]. destruct ok; cbn [andb].
  2: { apply kill_inv; cbn; [apply Hi..|]. by rewrite (inv_owned _ Hi). }
  destruct (bool_decide _) eqn:He; [|apply kill_inv; cbn; [apply Hi..|by rewrite (inv_owned _ Hi)]].
  apply bool_decide_eq_true in He. cbn in He. pose proof (epoll_none _ _ Hi He) as Hh. split; cbn.
  - intros f a. destruct (decide (f = fd addr)) as [->|Hne].
    + rewrite !lookup_insert_eq. naive_solver.
    + rewrite !lookup_insert_ne by done. apply Hi.
  - intros f a. destruct (decide (f = fd addr)) as [->|Hne].
    + rewrite lookup_insert_eq. by intros [= ->].
    + rewrite lookup_insert_ne by done. apply Hi.
  - rewrite map_to_list_insert by done. cbn. rewrite (inv_owned _ Hi). by rewrite Permutation_middle.
Qed.

Lemma update_inv f events l : inv l -> inv (update f events l).
Proof.
  intros Hi. unfold update. destruct (handlers_ l !! f) as [a|] eqn:Hh; [|done].
  destruct (bool_decide _); [done|]. split; cbn; [|apply Hi..].
  intros g b. destruct (decide (g = f)) as [->|Hne].
  - rewrite lookup_insert_eq, Hh. naive_solver.
  - rewrite lookup_insert_ne by done. apply Hi.
Qed.

Lemma exec_inv l c : inv l -> inv (exec l c).
Proof.
  destruct c as [addr events ok|f events|f]; cbn; intros Hi; [by apply add_inv|by apply update_inv|].
  by split; apply Hi.
Qed.

(** Nothing but the end of a turn takes a handler away. *)
Lemma exec_keeps l c f a : inv l -> handlers_ l !! f = Some a -> handlers_ (exec l c) !! f = Some a.
Proof.
  intros Hi Hl. destruct c as [addr events ok|g events|g]; cbn; [|by unfold update; repeat case_match|done].
  unfold add. cbn. destruct ok; cbn; [|done]. destruct (bool_decide _) eqn:He; cbn; [|done].
  apply bool_decide_eq_true in He. apply (epoll_none _ _ Hi) in He.
  rewrite lookup_insert_ne; [done|]. congruence.
Qed.

(** [l'] is [l] later in the same turn. *)
Definition later (l l' : EventLoop) : Prop :=
  inv l' /\ forall f a, handlers_ l !! f = Some a -> handlers_ l' !! f = Some a.

Lemma later_refl l : inv l -> later l l.
Proof. by split. Qed.
Lemma later_trans l1 l2 l3 : later l1 l2 -> later l2 l3 -> later l1 l3.
Proof. intros [? ?] [? ?]. split; auto. Qed.
Lemma later_alive l l' addr : inv l -> later l l' -> alive l addr = true -> alive l' addr = true.
Proof. intros Hi [Hi' Hk]. rewrite !alive_spec by done. apply Hk. Qed.

Lemma exec_all_later cmds l : inv l -> later l (foldl exec l cmds).
Proof.
  revert l. induction cmds as [|c cmds IH]; intros l Hi; cbn; [by apply later_refl|].
  eapply later_trans; [|by apply IH, exec_inv]. split; [by apply exec_inv|]. intros f a. by apply exec_keeps.
Qed.

Lemma with_world_inv l w : inv l -> inv (l <| world := w |>).
Proof. intros Hi. by split; apply Hi. Qed.

Lemma run_cmds_later cmds l w : inv l -> later l (foldl exec (l <| world := w |>) cmds).
Proof.
  intros Hi. destruct (exec_all_later cmds (l <| world := w |>) (with_world_inv _ _ Hi)) as [H1 H2].
  split; [done|]. intros f a Hl. by apply H2.
Qed.

Lemma interp_later p l : inv l -> later l (interp p l).
Proof.
  revert l. induction p as [|next cmds rest IH]; intros l Hi; cbn [interp]; [by apply later_refl|].
  pose proof (run_cmds_later (cmds (world l)) l (next (world l)) Hi) as Hl.
  eapply later_trans; [exact Hl|]. apply IH, Hl.
Qed.

Lemma call_later callback addr l :
  inv l -> alive l addr = true -> exists l', call callback addr l = Some l' /\ later l l'.
Proof.
  intros Hi Ha. unfold call. rewrite Ha. eexists. split; [done|]. by apply interp_later.
Qed.

Lemma exec_handlers l c : not_add c -> handlers_ (exec l c) = handlers_ l.
Proof. destruct c; cbn; [done|intros _..]; [|done]. unfold update. by repeat case_match. Qed.

Lemma exec_all_handlers cmds l : Forall not_add cmds -> handlers_ (foldl exec l cmds) = handlers_ l.
Proof.
  intros Hn. revert l. induction Hn as [|c cmds Hc Hn IH]; intros l; cbn; [done|]. by rewrite IH, exec_handlers.
Qed.

Lemma interp_handlers p l : only_closes p -> handlers_ (interp p l) = handlers_ l.
Proof.
  intros Hp. revert l. induction Hp as [|next cmds rest Hc _ IH]; intros l; cbn [interp]; [done|].
  by rewrite IH, exec_all_handlers.
Qed.

Lemma sweep_later now l addrs l0 :
  later l0 l -> handlers_ l = handlers_ l0 -> Forall (fun a => alive l0 a = true) addrs -> inv l0 ->
  exists l', sweep_loop now (handlers_ l0) addrs l = Some l' /\ later l0 l'.
Proof.
  revert l. induction addrs as [|a addrs IH]; intros l Hl Hh Ha Hi; cbn [sweep_loop]; [by exists l|].
  apply Forall_cons in Ha as [Ha Has].
  destruct (call_later (check_timeout now) a l (proj1 Hl) (later_alive _ _ _ Hi Hl Ha)) as (l1 & Hc & Hl1).
  rewrite Hc. cbn [mbind option_bind].
  assert (handlers_ l1 = handlers_ l0) as Hh1.
  { unfold call in Hc. destruct (alive l a); [|done]. injection Hc as <-.
    by rewrite interp_handlers by apply check_timeout_only_closes. }
  rewrite decide_True by done. apply IH; [|done..]. by eapply later_trans.
Qed.

Lemma readable_later addr l :
  inv l -> alive l addr = true -> exists l', readable addr l = Some l' /\ later l l'.
Proof.
  intros Hi Ha. unfold readable. case_decide; [|by apply call_later]. rewrite Ha.
  unfold sweep_timeouts. apply sweep_later; [by apply later_refl|done| |done].
  apply Forall_forall. intros a Hin. unfold alive. by apply bool_decide_eq_true.
Qed.

Lemma dispatch_later ev l :
  inv l -> (forall addr, ev.2 = Some addr -> alive l addr = true) ->
  exists l', dispatch ev l = Some l' /\ later l l'.
Proof.
  intros Hi Ha. destruct ev as [events [addr|]]; cbn [snd] in Ha; unfold dispatch.
  - specialize (Ha addr eq_refl). destruct (negb _); [by apply call_later|].
    assert (exists l1, (if negb (Z.land events EPOLLIN =? 0) then readable addr l else Some l) = Some l1 /\ later l l1)
      as (l1 & -> & Hl1).
    { destruct (negb _); [by apply readable_later|]. exists l. split; [done|by apply later_refl]. }
    cbn [mbind option_bind]. pose proof (later_alive _ _ _ Hi Hl1 Ha) as Ha1. rewrite Ha1.
    destruct (negb _); [|by exists l1]. destruct (decide _); [by exists l1|].
    destruct (call_later on_writable addr l1 (proj1 Hl1) Ha1) as (l2 & -> & Hl2).
    exists l2. split; [done|]. by eapply later_trans.
  - eexists. split; [done|]. by apply interp_later.
Qed.

Lemma delivered_alive evs l :
  inv l -> delivered l evs -> Forall (fun ev => forall addr, ev.2 = Some addr -> alive l addr = true) evs.
Proof.
  intros Hi Hd. eapply Forall_impl; [exact Hd|]. intros ev Hev addr He. cbv beta in Hev. rewrite He in Hev.
  destruct Hev as (f & m & Hm). apply alive_spec; [done|].
  assert (handlers_ l !! f = Some addr) as Hh by (apply (inv_epoll _ Hi); by exists m).
  by rewrite <- (inv_fd _ Hi _ _ Hh).
Qed.

(** The rest of a turn that began at [l]. *)
Lemma dispatch_rest_later evs l l1 :
  inv l -> later l l1 -> Forall (fun ev => forall addr, ev.2 = Some addr -> alive l addr = true) evs ->
  exists l', dispatch_all evs l1 = Some l' /\ later l l'.
Proof.
  intros Hi. revert l1. induction evs as [|ev evs IH]; intros l1 Hl Ha; cbn; [by exists l1|].
  apply Forall_cons in Ha as [Ha Has].
  destruct (dispatch_later ev l1 (proj1 Hl)) as (l2 & -> & Hl2).
  { intros addr He. eapply later_alive; [exact Hi|exact Hl|by apply Ha]. }
  cbn. apply IH; [by eapply later_trans|done].
Qed.

Lemma dispatch_all_later evs l :
  inv l -> delivered l evs -> exists l', dispatch_all evs l = Some l' /\ later l l'.
Proof. intros Hi Hd. by apply dispatch_rest_later; [|apply later_refl|apply delivered_alive]. Qed.

Lemma close_one_inv l f : inv l -> inv (close_one l f).
Proof.
  intros Hi. unfold close_one. destruct (handlers_ l !! f) as [a|] eqn:Hh.
  - apply kill_inv; cbn.
    + intros g b. destruct (decide (g = f)) as [->|Hne].
      * rewrite !lookup_delete_eq. naive_solver.
      * rewrite !lookup_delete_ne by done. apply Hi.
    + intros g b Hg. apply lookup_delete_Some in Hg as [_ Hg]. by apply Hi.
    + rewrite (inv_owned _ Hi). rewrite <- (map_to_list_delete (handlers_ l) f a) by done. cbn.
      by rewrite Permutation_middle.
  - split; cbn; [|apply Hi..]. intros g b. destruct (decide (g = f)) as [->|Hne].
    + rewrite lookup_delete_eq, Hh. naive_solver.
    + rewrite lookup_delete_ne by done. apply Hi.
Qed.

Lemma close_one_lookup l f g :
  handlers_ (close_one l f) !! g = if decide (g = f) then None else handlers_ l !! g.
Proof.
  unfold close_one. destruct (handlers_ l !! f) as [a|] eqn:Hh; cbn.
  - case_decide; [subst; by rewrite lookup_delete_eq|by rewrite lookup_delete_ne].
  - case_decide; [by subst|done].
Qed.

Lemma process_pending_close_spec l :
  inv l ->
  let l' := process_pending_close l in
  inv l' /\ pending_close_ l' = ∅ /\
  forall f, handlers_ l' !! f = if decide (f ∈ pending_close_ l) then None else handlers_ l !! f.
Proof.
  intros Hi l'. subst l'. unfold process_pending_close.
  assert (forall fs l, inv l ->
    inv (foldl close_one l fs) /\ forall f, handlers_ (foldl close_one l fs) !! f =
      if decide (f ∈ fs) then None else handlers_ l !! f) as Hfold.
  { clear. intros fs. induction fs as [|g fs IH]; intros l Hi; cbn [foldl]; [by split|].
    destruct (IH (close_one l g) (close_one_inv _ _ Hi)) as [Hi' Hl]. split; [done|]. intros f.
    rewrite Hl, close_one_lookup. repeat case_decide; try done; set_solver. }
  destruct (Hfold (elements (pending_close_ l)) l Hi) as [Hi' Hl]. split_and!; [|done|].
  - by split; apply Hi'.
  - intros f. cbn. rewrite Hl. repeat case_decide; try done; set_solver.
Qed.

Lemma turn_spec evs l :
  inv l -> delivered l evs ->
  exists mid l', dispatch_all evs l = Some mid /\ later l mid /\ turn evs l = Some l' /\ inv l' /\
    pending_close_ l' = ∅ /\
    forall f, handlers_ l' !! f = if decide (f ∈ pending_close_ mid) then None else handlers_ mid !! f.
Proof.
  intros Hi Hd. destruct (dispatch_all_later evs l Hi Hd) as (mid & Hm & Hl). unfold turn. rewrite Hm.
  destruct (process_pending_close_spec mid (proj1 Hl)) as (Hi' & Hp & Hh).
  exists mid, (process_pending_close mid). by split_and!.
Qed.

(** A program each of whose changes of the world keeps [P]; if destructors do too, so does
    the program. *)
Inductive framed (P : W -> Prop) : prog W -> Prop :=
  | framed_ret : framed P Ret
  | framed_step next cmds rest :
      (forall w, P w -> P (next w)) -> (forall w, framed P (rest w)) -> framed P (Step next cmds rest).

Section Framed.
Context (P : W -> Prop) (HP : forall a w, P w -> P (destroy a w)).

Lemma exec_framed c l : P (world l) -> P (world (exec l c)).
Proof.
  destruct c as [addr events ok|f events|f]; cbn; [|unfold update; by repeat case_match|done].
  unfold add. intros Hl. destruct (ok && _); [done|]. by apply HP.
Qed.
Lemma exec_all_framed cmds l : P (world l) -> P (world (foldl exec l cmds)).
Proof. revert l. induction cmds as [|c cmds IH]; intros l Hl; cbn; [done|]. by apply IH, exec_framed. Qed.

Lemma interp_framed p l : framed P p -> P (world l) -> P (world (interp p l)).
Proof.
  intros Hp. revert l. induction Hp as [|next cmds rest Hn _ IH]; intros l Hl; cbn [interp]; [done|].
  apply IH, exec_all_framed. by apply Hn.
Qed.

Lemma close_framed l : P (world l) -> P (world (process_pending_close l)).
Proof.
  unfold process_pending_close. cbn. generalize (elements (pending_close_ l)). intros fs. revert l.
  induction fs as [|f fs IH]; intros l Hl; cbn; [done|]. apply IH. unfold close_one.
  destruct (handlers_ l !! f); [|done]. by apply HP.
Qed.
End Framed.

(** ** What holds of the handlers

    The rule by which a family of handlers is proved: what each callback keeps, and the
    end of a turn keeps, holds as long as the loop runs. *)
Record kept (J : EventLoop -> Prop) : Prop := {
  kept_readable : forall addr l, inv l -> J l -> alive l addr = true -> timer <> Some addr -> J (interp (on_readable addr) l);
  kept_writable : forall addr l, inv l -> J l -> alive l addr = true -> fd addr ∉ pending_close_ l -> J (interp (on_writable addr) l);
  kept_error : forall addr l, inv l -> J l -> alive l addr = true -> J (interp (on_error addr) l);
  kept_timeout : forall now addr l, inv l -> J l -> alive l addr = true -> J (interp (check_timeout now addr) l);
  kept_tasks : forall l, inv l -> J l -> J (interp run_tasks l);
  kept_close : forall l, inv l -> J l -> J (process_pending_close l)
}.

Section Kept.
Context (J : EventLoop -> Prop) (HJ : kept J).

Lemma call_kept callback addr l l' :
  (alive l addr = true -> J (interp (callback addr) l)) -> call callback addr l = Some l' -> J l'.
Proof. intros Hc. unfold call. destruct (alive l addr); [|done]. intros [= <-]. by apply Hc. Qed.

Lemma sweep_kept now table addrs l l' :
  inv l -> J l -> sweep_loop now table addrs l = Some l' -> J l'.
Proof.
  revert l. induction addrs as [|a addrs IH]; intros l Hi Hl; cbn [sweep_loop]; [by intros [= <-]|].
  destruct (call (check_timeout now) a l) as [l1|] eqn:Hc; [|done]. cbn [mbind option_bind].
  case_decide; [|done]. apply IH; [|by eapply call_kept; [apply (kept_timeout _ HJ); done|]].
  unfold call in Hc. destruct (alive l a); [|done]. injection Hc as <-. by apply interp_later.
Qed.

Lemma dispatch_kept ev l l' : inv l -> J l -> dispatch ev l = Some l' -> J l'.
Proof.
  intros Hi Hl. destruct ev as [events [addr|]]; unfold dispatch; [|intros [= <-]; by apply (kept_tasks _ HJ)].
  destruct (negb _); [by apply call_kept; intros; apply (kept_error _ HJ)|].
  assert (forall l1, (if negb (Z.land events EPOLLIN =? 0) then readable addr l else Some l) = Some l1 -> inv l1 /\ J l1) as Hr.
  { intros l1. destruct (negb _); [|by intros [= <-]]. unfold readable. case_decide as Ht.
    - destruct (alive l addr) eqn:Ha; [|done]. intros Hs. split; [|by eapply sweep_kept].
      destruct (readable_later addr l Hi Ha) as (l2 & Hr & Hl2 & _). unfold readable in Hr.
      rewrite decide_True, Ha in Hr by done. congruence.
    - unfold call. destruct (alive l addr) eqn:Ha; [|done]. intros [= <-].
      split; [by apply interp_later|by apply (kept_readable _ HJ)]. }
  destruct (if negb (Z.land events EPOLLIN =? 0) then _ else _) as [l1|]; [|done].
  destruct (Hr l1 eq_refl) as [Hi1 Hl1]. cbn [mbind option_bind].
  destruct (negb _); [|by intros [= <-]]. destruct (alive l1 addr); [|done]. case_decide; [by intros [= <-]|].
  by apply call_kept; intros; apply (kept_writable _ HJ).
Qed.

Lemma dispatch_all_kept evs l l1 l' :
  inv l -> later l l1 -> J l1 -> Forall (fun ev => forall addr, ev.2 = Some addr -> alive l addr = true) evs ->
  dispatch_all evs l1 = Some l' -> J l'.
Proof.
  intros Hi. revert l1. induction evs as [|ev evs IH]; intros l1 Hl HJ1 Ha; cbn; [by intros [= <-]|].
  apply Forall_cons in Ha as [Ha Has].
  destruct (dispatch_later ev l1 (proj1 Hl)) as (l2 & Hd & Hl2).
  { intros addr He. eapply later_alive; [exact Hi|exact Hl|by apply Ha]. }
  rewrite Hd. cbn. apply IH; [by eapply later_trans|eapply dispatch_kept; [apply Hl|done..]|done].
Qed.

Lemma run_kept wait n k l l' :
  inv l -> (forall j l, inv l -> delivered l (wait j l)) -> J l -> run wait n k l = Some l' -> J l'.
Proof.
  intros Hi Hw. revert k l Hi. induction n as [|n IH]; intros k l Hi Hl; cbn [run]; [by intros [= <-]|].
  destruct (turn_spec (wait k l) l Hi (Hw k l Hi)) as (mid & l1 & Hm & Hlm & Ht & Hi1 & _). rewrite Ht.
  cbn [mbind option_bind]. apply IH; [done|]. unfold turn in Ht. rewrite Hm in Ht. injection Ht as <-.
  apply (kept_close _ HJ); [apply Hlm|].
  by eapply dispatch_all_kept; [exact Hi|by apply later_refl|done|by apply delivered_alive, Hw|].
Qed.
End Kept.

Lemma run_total wait n k l :
  inv l -> (forall j l, inv l -> delivered l (wait j l)) ->
  exists l', run wait n k l = Some l' /\ inv l' /\ (pending_close_ l = ∅ -> pending_close_ l' = ∅).
Proof.
  intros Hi Hw. revert k l Hi. induction n as [|n IH]; intros k l Hi; cbn [run]; [by exists l|].
  destruct (turn_spec (wait k l) l Hi (Hw k l Hi)) as (mid & l' & _ & _ & -> & Hi' & Hp & _).
  cbn [mbind option_bind]. destruct (IH (S k) l' Hi') as (l2 & Hr & Hi2 & Hp2). exists l2. split_and!; auto.
Qed.

(** ** Properties *)

(** C30: whatever the kernel reports and whatever the handlers do, the loop never calls a
    handler that was destroyed, nor changes the table under the sweep: the pointers in a
    batch stay valid until its end, and afterwards the kernel holds exactly those of the
    handlers the loop owns; each handler it was given is owned or was destroyed once. *)
Theorem reactor_safe wait n k l :
  inv l -> (forall j l, inv l -> delivered l (wait j l)) ->
  exists l', run wait n k l = Some l' /\ inv l'.
Proof. intros Hi Hw. destruct (run_total wait n k l Hi Hw) as (l' & Hr & Hi' & _). by exists l'. Qed.

(** A close takes effect at the end of the turn, no earlier and no later: until then
    the handler stays owned; then the ones asked for are destroyed and unregistered, and
    all others are as the callbacks left them. *)
Theorem deferred_close evs l :
  inv l -> delivered l evs ->
  exists mid l', dispatch_all evs l = Some mid /\ turn evs l = Some l' /\ pending_close_ l' = ∅ /\
    (forall f a, handlers_ l !! f = Some a -> handlers_ mid !! f = Some a) /\
    forall f a, handlers_ mid !! f = Some a ->
      if decide (f ∈ pending_close_ mid) then handlers_ l' !! f = None /\ epoll l' !! f = None /\ alive l' a = false
      else handlers_ l' !! f = Some a.
Proof.
  intros Hi Hd. destruct (turn_spec evs l Hi Hd) as (mid & l' & Hm & [Him Hk] & Ht & Hi' & Hp & Hh).
  exists mid, l'. split_and!; [done..|]. intros f a Ha. pose proof (Hh f) as Hf. case_decide as Hin; [|by rewrite Hf].
  split_and!; [done| |].
  - destruct (epoll l' !! f) as [[ev b]|] eqn:He; [|done].
    assert (handlers_ l' !! f = Some b) by (apply (inv_epoll _ Hi'); by exists ev). congruence.
  - apply not_true_iff_false. rewrite alive_spec by done. by rewrite <- (inv_fd _ Him _ _ Ha), Hf.
Qed.
End Loop.
#[global] Arguments EventLoop : clear implicits.

(** ** The doorbell *)

Section Doorbell.
Context {T : Type}.

(** Where the loop's thread is: in [epoll_wait], past [drain_wakeup], or running the tasks
    it swapped out. *)
Inductive place := Waiting | Drained | Running.

(** [tasks_], the eventfd, the swapped-out tasks; the calls of [post] past the push and
    before the write; and, as ghosts, the tasks posted and the tasks run, in order. *)
Record Bell := mk_bell {
  tasks_ : list T; rung : bool; at_loop : place; local : list T; ringing : nat;
  posted : list T; done_ : list T
}.
#[export] Instance eta_Bell : Eta Bell := fun b =>
  mk_bell (tasks_ b) (rung b) (at_loop b) (local b) (ringing b) (posted b) (done_ b).

(** [post], in its two steps, on any thread. *)
Definition post_push (t : T) (b : Bell) : Bell :=
  b <| tasks_ ::= (fun l => l ++ [t]) |> <| posted ::= (fun l => l ++ [t]) |> <| ringing ::= S |>.
Definition post_ring (b : Bell) : Bell := b <| rung := true |> <| ringing ::= pred |>.
(** [drain_wakeup], then the swap of [run_pending_tasks], then its loop. *)
Definition drain_wakeup (b : Bell) : Bell := b <| rung := false |> <| at_loop := Drained |>.
Definition swap_tasks (b : Bell) : Bell := b <| local := tasks_ b |> <| tasks_ := [] |> <| at_loop := Running |>.
Definition run_task (t : T) (rest : list T) (b : Bell) : Bell :=
  b <| local := rest |> <| done_ ::= (fun l => l ++ [t]) |>.

Inductive bell_step : Bell -> Bell -> Prop :=
  | step_push b t : bell_step b (post_push t b)
  | step_ring b : (0 < ringing b)%nat -> bell_step b (post_ring b)
  | step_drain b : at_loop b = Waiting -> rung b = true -> bell_step b (drain_wakeup b)
  | step_swap b : at_loop b = Drained -> bell_step b (swap_tasks b)
  | step_run b t rest : at_loop b = Running -> local b = t :: rest -> bell_step b (run_task t rest b)
  | step_wait b : at_loop b = Running -> local b = [] -> bell_step b (b <| at_loop := Waiting |>).

Definition silent : Bell := mk_bell [] false Waiting [] 0 [] [].
Definition bell_reachable (b : Bell) : Prop := rtc bell_step silent b.

Lemma bell_inv b :
  bell_reachable b ->
  done_ b ++ local b ++ tasks_ b = posted b /\ (at_loop b <> Running -> local b = []) /\
  (tasks_ b <> [] -> at_loop b <> Drained -> rung b = true \/ (0 < ringing b)%nat).
Proof.
  unfold bell_reachable. revert b. apply rtc_ind_r; [done|]. clear.
  intros b b' _ Hs (Hq & Hl & Hb). destruct Hs as [b t|b Hn|b Hw Hr|b Hd|b t rest Hp Ht|b Hp Ht]; cbn.
  - split_and!; [by rewrite !(assoc_L app), <- Hq, <- !(assoc_L app)|done|]. intros _ _. right. lia.
  - split_and!; [done..|]. by left.
  - split_and!; [done|intros _; apply Hl; by rewrite Hw|done].
  - rewrite app_nil_r. split_and!; [by rewrite <- Hq, Hl by by rewrite Hd|done|done].
  - rewrite Ht in Hq. split_and!; [by rewrite <- Hq, <- (assoc_L app)|done|]. intros Hne _. apply Hb; [done|by rewrite Hp].
  - split_and!; [done..|]. intros Hne _. apply Hb; [done|by rewrite Hp].
Qed.

(** C31: tasks posted from any threads, at any moment, run once each and in the order of
    the queue; and none is left behind: when the loop goes to sleep on a queue that is not
    empty, the doorbell is rung or about to be. *)
Theorem post_runs_once_in_order b :
  bell_reachable b ->
  done_ b ++ local b ++ tasks_ b = posted b /\
  (at_loop b = Waiting -> rung b = false -> ringing b = 0%nat -> done_ b = posted b).
Proof.
  intros Hr. destruct (bell_inv b Hr) as (Hq & Hl & Hb). split; [done|]. intros Hw Hr' Hn.
  rewrite Hl in Hq by by rewrite Hw. destruct (tasks_ b) as [|t ts]; [by rewrite <- Hq, app_nil_r|].
  destruct Hb as [?|?]; [done|by rewrite Hw|congruence|lia].
Qed.
End Doorbell.
#[global] Arguments Bell : clear implicits.

(** A task posted while another is being fetched waits for the next ring. *)
Abbreviation rung_twice := (mk_bell [2%nat] true Running [1%nat] 0 [1%nat; 2%nat] []).
Lemma rung_twice_reachable : bell_reachable rung_twice.
Proof.
  unfold bell_reachable. eapply rtc_l; [apply (step_push _ 1%nat)|]. eapply rtc_l; [apply step_ring; cbn; lia|].
  eapply rtc_l; [by apply step_drain|]. eapply rtc_l; [by apply step_swap|].
  eapply rtc_l; [apply (step_push _ 2%nat)|]. eapply rtc_l; [apply step_ring; cbn; lia|]. apply rtc_refl.
Qed.
Example post_runs_once_in_order_witness :
  bell_reachable rung_twice /\
  done_ rung_twice ++ local rung_twice ++ tasks_ rung_twice = posted rung_twice /\
  (at_loop rung_twice = Waiting -> rung rung_twice = false -> ringing rung_twice = 0%nat ->
   done_ rung_twice = posted rung_twice).
Proof. split; [exact rung_twice_reachable|]. exact (post_runs_once_in_order rung_twice rung_twice_reachable). Defined.
