(* ===== verification/ProxyServer.v ===== *)
(** * ProxyServer: proxied connections on the reactor

    What a worker thread of castle runs with routes: the loop of [Loop.v], the listener of
    src/src/net/listener.cpp, the timer of [enable_idle_timeouts] and, for each socket
    accepted, the pair of connections of [Http.v]. A callback is an event of its pair; what
    it asked of the loop, registrations, changes of interest and closes, is read off the
    pair before and after it. The kernel's answers are a function of the number of the call;
    a descriptor is reused once it is closed, and only then. *)
From Stdlib Require Import SpecFloat.
From S2P Require Import Prelude Text RateLimiter Router Supervisor HttpHead HttpStatus Http HttpSafe HttpInv HttpSpec HttpFrame Loop.
Open Scope Z_scope.

(** ** The handlers of the loop *)

(** The listener, the timer, and the two connections of the [i]th socket accepted. *)
Inductive party := Listener | Sweeper | Client (i : nat) | Upstream (i : nat).
#[export] Instance party_eq_dec : EqDecision party.
Proof. solve_decision. Defined.

Definition address (p : party) : nat :=
  match p with Listener => 0 | Sweeper => 1 | Client i => 2 + 2 * i | Upstream i => 3 + 2 * i end.
Definition who (a : nat) : party :=
  match a with
  | O => Listener
  | S O => Sweeper
  | S (S n) => if Nat.even n then Client (Nat.div2 n) else Upstream (Nat.div2 n)
  end.

Lemma who_address p : who (address p) = p.
Proof.
  destruct p as [| |i|i]; [done..| |]; unfold who, address.
  - change (2 + 2 * i)%nat with (S (S (2 * i))). cbv iota beta. by rewrite Nat.even_mul, Nat.div2_double.
  - change (3 + 2 * i)%nat with (S (S (S (2 * i)))). cbv iota beta.
    by rewrite Nat.even_succ, Nat.odd_mul, Nat.div2_succ_double.
Qed.

(** [accept4]: the peer's address, the clock of the limiter and that of the constructor,
    whether the transport could be made ([SSL_new]) and whether the kernel will register
    the socket. *)
Inductive accept_result := Accepted (ipv4 now t : Z) (wraps epoll_adds : bool) | AcceptRetry | AcceptEnds.

Definition EPOLLET : Z := 2 ^ 31.
Definition bits (m : mask) : Z :=
  Z.lor (Z.lor (if m.1 then EPOLLIN else 0) (if m.2 then EPOLLOUT else 0)) EPOLLET.

(** What the loop knows of a connection: the events it watches, whether it is to be closed. *)
Definition http_object (h : HWorld) : option (mask * bool) :=
  if http_alive h then Some (http_mask h, http_closing h) else None.
Definition back_object (h : HWorld) : option (mask * bool) :=
  if back_alive h then Some (back_mask h, back_closing h) else None.

Section Server.
Context {D : Type} {double : Double D}.

(** The connections, by the order of their accept; those that were closed stay as a record.
    [crashed]: a callback has followed a null pointer, and nothing happens any more. The
    counters are those of net/conn_limit.h and of the loop's [LoopStats]. *)
Record Proxy := mk_proxy {
  pairs : gmap nat HWorld; next_conn : nat; calls : nat; accepts : list accept_result; crashed : bool;
  limiter_ : option (@RateLimiter D);
  active_conn_count : Z;                   (* size_t *)
  max_conn_limit : Z;                      (* size_t, 0 = unlimited *)
  active_connections : Z; total_connections : Z
}.
#[export] Instance eta_Proxy : Eta Proxy := fun w =>
  mk_proxy (pairs w) (next_conn w) (calls w) (accepts w) (crashed w) (limiter_ w) (active_conn_count w) (max_conn_limit w)
    (active_connections w) (total_connections w).

Definition object (w : Proxy) (p : party) : option (mask * bool) :=
  match p with
  | Client i => pairs w !! i ≫= http_object
  | Upstream i => pairs w !! i ≫= back_object
  | Listener | Sweeper => None
  end.

Context (fd_of : party -> Z) (answers : nat -> env) (clock : nat -> Z) (mono : nat -> nat -> Z) (sse : bool).
Context (router : Router) (timeout_ max_body_ : Z).
Context (probe : bytes -> Z -> bool) (start : Z) (start_wall : bytes).
Context (snapshot : option (list ServiceUptime)).
#[local] Abbreviation handle i :=
  (hhandle (mono i) (tokenize sse) router timeout_ max_body_ probe start start_wall snapshot).
#[local] Abbreviation alone_run i :=
  (hrun (mono i) (tokenize sse) router timeout_ max_body_ probe start start_wall snapshot).

(** ** Descriptors *)

(** The descriptors that are open. *)
Definition in_use (w : Proxy) (f : Z) : bool :=
  (f =? fd_of Listener) || (f =? fd_of Sweeper) ||
  existsb (fun '(i, h) => (http_alive h && (fd_of (Client i) =? f)) || (back_alive h && (fd_of (Upstream i) =? f)))
    (map_to_list (pairs w)).

(** The kernel's answers to the next callback: no descriptor that is open is given again. *)
Definition answer (i : nat) (w : Proxy) : env :=
  let e := answers (calls w) in
  if in_use w (fd_of (Upstream i)) then e <| e_dial := NoSocket |> else e.

(** ** Callbacks *)

(** An event of the [i]th pair. *)
Definition deliver (i : nat) (ev : env -> hevent) (w : Proxy) : Proxy :=
  match pairs w !! i with
  | None => w
  | Some h =>
      let w' := w <| calls ::= S |> in
      match handle i (ev (answer i w)) h with
      | inl _ => w' <| crashed := true |>
      | inr (_, h') => w' <| pairs ::= <[i := h']> |>
      end
  end.
Definition step (i : nat) (ev : env -> hevent) (w : Proxy) : Proxy := if crashed w then w else deliver i ev w.

(** [update] and [request_close] of a connection, given what it was and what it is. *)
Definition changes (p : party) (s s' : option (mask * bool)) : list cmd :=
  match s, s' with
  | Some (m, c), Some (m', c') =>
      (if decide (m = m') then [] else [Update (fd_of p) (bits m')]) ++
      (if negb c && c' then [RequestClose (fd_of p)] else [])
  | _, _ => []
  end.
(** [add] of a backend connection that was dialled, [EPOLLOUT] first. *)
Definition dialled (p : party) (s s' : option (mask * bool)) : list cmd :=
  match s, s' with
  | None, Some _ => Add (address p) (bits Http.EPOLLOUT) true :: changes p (Some (Http.EPOLLOUT, false)) s'
  | _, _ => []
  end.
Definition asks (dials : bool) (i : nat) (w w' : Proxy) : list cmd :=
  if crashed w' then [] else
  changes (Client i) (object w (Client i)) (object w' (Client i)) ++
  changes (Upstream i) (object w (Upstream i)) (object w' (Upstream i)) ++
  (if dials then dialled (Upstream i) (object w (Upstream i)) (object w' (Upstream i)) else []).
Definition callback (dials : bool) (i : nat) (ev : env -> hevent) : prog Proxy :=
  Step (step i ev) (fun w => asks dials i w (step i ev w)) (fun _ => Ret).

Definition on_ready (r : ready) (a : nat) : prog Proxy :=
  match who a with
  | Client i => callback true i (HttpReady r)
  | Upstream i => callback true i (BackReady r)
  | Listener | Sweeper => Ret
  end.
Definition sweep (t : Z) (a : nat) : prog Proxy :=
  match who a with
  | Client i => callback false i (HttpSweep t)
  | Upstream i => callback false i (BackSweep t)
  | Listener | Sweeper => Ret
  end.

(** The destructors; that of [HttpConnection] gives its slot back. *)
Definition destroy_party (a : nat) (w : Proxy) : Proxy :=
  match who a with
  | Client i =>
      let w := step i (fun _ => CloseHttp) w in
      if crashed w then w
      else w <| active_conn_count ::= (fun n => wrap_u 64 (n - 1)) |> <| active_connections ::= (fun n => wrap_u 64 (n - 1)) |>
  | Upstream i => step i (fun _ => CloseBack) w
  | Listener | Sweeper => w
  end.

(** [limiter_ && !limiter_->allow(ip)] is false: the limiter lets it in. *)
Definition let_in (ipv4 now : Z) (w : Proxy) : bool * Proxy :=
  match limiter_ w with
  | None => (true, w)
  | Some rl => let '(ok, rl) := allow rl ipv4 now in (ok, w <| limiter_ := Some rl |>)
  end.
Definition conn_slot_available (w : Proxy) : bool :=
  (max_conn_limit w =? 0) || (active_conn_count w <? max_conn_limit w).

(** The constructor of [HttpConnection]. A connection that epoll will refuse is destroyed
    before its first event, and leaves no pair. *)
Definition make_http (t : Z) (epoll_adds : bool) (w : Proxy) : Proxy :=
  let i := next_conn w in
  let w := w <| next_conn ::= S |>
             <| active_conn_count ::= (fun n => wrap_u 64 (n + 1)) |>
             <| active_connections ::= (fun n => wrap_u 64 (n + 1)) |>
             <| total_connections ::= (fun n => wrap_u 64 (n + 1)) |> in
  if epoll_adds then w <| pairs ::= <[i := accepted t]> |> else w.

(** One socket accepted: the world after it, and whether a connection was made. *)
Definition accept_one (ipv4 now t : Z) (wraps epoll_adds : bool) (w : Proxy) : Proxy * bool :=
  if in_use w (fd_of (Client (next_conn w))) then (w, false)        (* never: the kernel gives no open descriptor *)
  else
    let '(ok, w) := let_in ipv4 now w in
    if negb ok then (w, false)
    else if negb (conn_slot_available w) then (w, false)
    else if negb wraps then (w, false)
    else (make_http t epoll_adds w, true).

Fixpoint accept_loop (rs : list accept_result) : prog Proxy :=
  match rs with
  | [] => Ret
  | r :: rs =>
      let next := fun w : Proxy => w <| accepts := rs |> in
      match r with
      | Accepted ipv4 now t wraps epoll_adds =>
          Step (fun w => (accept_one ipv4 now t wraps epoll_adds (next w)).1)
            (fun w => if (accept_one ipv4 now t wraps epoll_adds (next w)).2
                      then [Add (address (Client (next_conn w))) (bits Http.EPOLLIN) epoll_adds] else [])
            (fun _ => accept_loop rs)
      | AcceptRetry => Step next (fun _ => []) (fun _ => accept_loop rs)
      | AcceptEnds => Step next (fun _ => []) (fun _ => Ret)
      end
  end.
Definition listener_on_readable : prog Proxy :=
  Step id (fun _ => []) (fun w => if crashed w then Ret else accept_loop (accepts w)).

Lemma changes_not_add p s s' : Forall not_add (changes p s s').
Proof.
  unfold changes. destruct s as [[m c]|], s' as [[m' c']|]; [|done..].
  apply Forall_app. split; repeat case_match; by repeat constructor.
Qed.
Lemma sweep_closes t a : only_closes (sweep t a).
Proof.
  assert (forall i ev, only_closes (callback false i ev)) as Hc.
  { intros i ev. constructor; [|intros; constructor]. intros w. unfold asks. case_match; [done|].
    by repeat apply Forall_app_2; auto using changes_not_add. }
  unfold sweep. destruct (who a); first [apply Hc|constructor].
Qed.

#[export] Instance proxy_server : EventHandler Proxy := {
  fd a := fd_of (who a);
  on_readable a := if decide (who a = Listener) then listener_on_readable else on_ready HttpSpec.readable a;
  on_writable a := on_ready HttpSpec.writable a;
  on_error a := on_ready (mk_ready true false false) a;
  check_timeout := sweep;
  destroy := destroy_party;
  run_tasks := Ret;
  timer := if 0 <? timeout_ then Some (address Sweeper) else None;
  sweep_time w := clock (calls w);
  check_timeout_only_closes := sweep_closes
}.
#[local] Abbreviation Loop := (EventLoop Proxy).

(** A worker as [main] starts it: the listener, and the timer if there is a timeout. *)
Definition new_proxy (rs : list accept_result) (rl : option RateLimiter) (max : Z) : Proxy :=
  mk_proxy ∅ 0 0 rs false rl 0 max 0 0.
Definition serving (w : Proxy) : Loop :=
  let l := add (address Listener) (bits Http.EPOLLIN) true (mk_loop ∅ ∅ ∅ w [] []) in
  if 0 <? timeout_ then add (address Sweeper) EPOLLIN true l else l.

(** ** One pair at a time *)

(** An event whose failed writes the kernel answered. *)
Definition served (ev : hevent) : Prop := WriteFail ∈ writes ev -> exists k, WriteFail ∈ e_write (answers k).
(** The pair as it would be had the program no other connection. *)
Definition alone (i : nat) (h : HWorld) : Prop :=
  exists evs t, Forall served evs /\ alone_run i evs (accepted t) = inr (tt, h).
(** A write to some backend has failed. *)
Definition blame : Prop := exists k, WriteFail ∈ e_write (answers k).

Lemma alone_accepted i t : alone i (accepted t).
Proof. by exists [], t. Qed.

Lemma alone_event i ev h :
  alone i h -> served ev -> match handle i ev h with inl _ => blame | inr (_, h') => alone i h' end.
Proof.
  intros (evs & t & Hevs & Hr) Hev. assert (Forall served (evs ++ [ev])) as Hall by by apply Forall_app_2, Forall_singleton.
  pose proof (run_snoc (mono i) sse router timeout_ max_body_ probe start start_wall snapshot evs ev t h Hr) as Hs.
  destruct (handle i ev h) as [f|[[] h']]; [|by exists (evs ++ [ev]), t].
  apply run_blames, Exists_exists in Hs as (e & He & Hw). rewrite Forall_forall in Hall. by apply (Hall e).
Qed.

Lemma alone_pair i h : alone i h -> Pair (tokenize sse) router max_body_ probe start start_wall snapshot true h.
Proof. intros (evs & t & _ & Hr). by eapply run_invariant. Qed.
Lemma alone_undialled i h : alone i h -> undialled h.
Proof. intros (n & req & kx & H & _)%alone_pair Hs. by apply (b_reading _ _ _ _ _ _ _ H). Qed.

(** What an event may do to the objects of its pair; [d]: a backend may be dialled. *)
Record follows (d : Prop) (h h' : HWorld) : Prop := {
  f_http : http_alive h' = http_alive h;
  f_hclosing : http_closing h = true -> http_closing h' = true;
  f_back : back_alive h = true -> back_alive h' = true /\ (back_closing h = true -> back_closing h' = true);
  f_new : back_alive h = false -> back_alive h' = true -> d
}.
Lemma grown_follows e h h' : grown (h <| sys := e |>) h' -> follows (e_dial e = Connecting) h h'.
Proof. by intros []. Qed.
Lemma still_follows e h h' : still (h <| sys := e |>) h' -> follows False h h'.
Proof. intros []. cbn in *. split; [done|done| |congruence]. intros Ha. split; [congruence|done]. Qed.
Lemma follows_refl d h : follows d h h.
Proof. split; [done..|congruence]. Qed.

Definition is_ready (ev : env -> hevent) : Prop := exists r, ev = HttpReady r \/ ev = BackReady r.
Definition is_sweep (ev : env -> hevent) : Prop := exists t, ev = HttpSweep t \/ ev = BackSweep t.

Lemma ready_follows i ev e h :
  is_ready ev -> undialled h ->
  match handle i (ev e) h with inl _ => True | inr (_, h') => follows (e_dial e = Connecting) h h' end.
Proof.
  intros (r & [-> | ->]) Hu; unfold hhandle, rbind at 1, rgets; destruct (_ h) eqn:Ha; cbn [rwhen];
    try apply follows_refl; unfold rbind at 1, rmodify.
  - pose proof (lively_dispatch_http (mono i) (tokenize sse) router max_body_ probe start start_wall snapshot r (h <| sys := e |>) Hu) as H.
    destruct (dispatch_http _ _ _ _ _ _ _ _ _ _) as [|[[] h']]; [done|]. exact (grown_follows _ _ _ (proj2 H)).
  - pose proof (lively_dispatch_back (mono i) (tokenize sse) router max_body_ probe start start_wall snapshot r (h <| sys := e |>) Hu) as H.
    destruct (dispatch_back _ _ _ _ _ _ _ _ _ _) as [|[[] h']]; [done|]. exact (grown_follows _ _ _ (proj2 H)).
Qed.
Lemma sweep_follows i ev e h :
  is_sweep ev -> match handle i (ev e) h with inl _ => True | inr (_, h') => follows False h h' end.
Proof.
  intros (t & [-> | ->]); unfold hhandle, rbind at 1, rgets; destruct (_ h) eqn:Ha; cbn [rwhen];
    try apply follows_refl; unfold rbind at 1, rmodify.
  - pose proof (calm_http_check_timeout timeout_ t (h <| sys := e |>)) as H.
    destruct (http_check_timeout _ _ _) as [|[[] h']]; [done|]. by eapply still_follows.
  - pose proof (calm_back_check_timeout (mono i) timeout_ t (h <| sys := e |>)) as H.
    destruct (back_check_timeout _ _ _ _) as [|[[] h']]; [done|]. by eapply still_follows.
Qed.

(** ** The table of the loop *)

(** What is registered is what the objects are: each under its descriptor, with the events
    it watches, and [P] are those to be closed. *)
Record tabled (l : Loop) (P : gset Z) (o : party -> option (mask * bool)) : Prop := {
  t_object : forall p m c, o p = Some (m, c) -> epoll l !! fd_of p = Some (bits m, address p) /\ (fd_of p ∈ P <-> c = true);
  t_epoll : forall f ev a, epoll l !! f = Some (ev, a) -> who a = Listener \/ who a = Sweeper \/ is_Some (o (who a));
  t_pending : forall f, f ∈ P -> exists p m, o p = Some (m, true) /\ fd_of p = f
}.
Definition put (p : party) (s : option (mask * bool)) (o : party -> option (mask * bool)) : party -> option (mask * bool) :=
  fun q => if decide (q = p) then s else o q.

Lemma put_same p s o : put p s o p = s.
Proof. unfold put. by rewrite decide_True. Qed.
Lemma put_other p s o q : q <> p -> put p s o q = o q.
Proof. intros. unfold put. by rewrite decide_False. Qed.
Lemma put_id p o q : put p (o p) o q = o q.
Proof. unfold put. by case_decide; subst. Qed.
Lemma put_put p s s' o q : put p s (put p s' o) q = put p s o q.
Proof. unfold put. by case_decide. Qed.

Lemma tabled_ext l P o o' : (forall p, o' p = o p) -> tabled l P o -> tabled l P o'.
Proof.
  intros He []. split.
  - intros p m c. rewrite He. apply t_object0.
  - intros f ev a Ha. rewrite He. by eapply t_epoll0.
  - intros f Hf. destruct (t_pending0 f Hf) as (p & m & Hp & Hpf). exists p, m. by rewrite He.
Qed.

(** Two objects never share a descriptor. *)
Lemma tabled_inj l P o p q s t : tabled l P o -> o p = Some s -> o q = Some t -> fd_of p = fd_of q -> p = q.
Proof.
  intros H Hp Hq Hf. destruct s as [m c], t as [m' c'].
  destruct (t_object _ _ _ H _ _ _ Hp) as [H1 _]. destruct (t_object _ _ _ H _ _ _ Hq) as [H2 _].
  rewrite Hf, H2 in H1. injection H1 as _ Ha. by rewrite <- (who_address p), <- (who_address q), Ha.
Qed.
Lemma tabled_handler l P o p s : inv l -> tabled l P o -> o p = Some s -> handlers_ l !! fd_of p = Some (address p).
Proof.
  intros Hi H Hp. destruct s as [m c]. destruct (t_object _ _ _ H _ _ _ Hp) as [He _].
  apply (inv_epoll _ Hi). by eexists.
Qed.

(** *** One command *)

Lemma update_tabled p m m' c l P o :
  inv l -> tabled l P o -> o p = Some (m, c) -> tabled (update (fd_of p) (bits m') l) P (put p (Some (m', c)) o).
Proof.
  intros Hi H Hp. pose proof (tabled_handler _ _ _ _ _ Hi H Hp) as Hh. destruct (t_object _ _ _ H _ _ _ Hp) as [He Hc].
  unfold update. rewrite Hh, bool_decide_eq_false_2 by by rewrite He. split; cbn.
  - intros q m1 c1. unfold put. case_decide as Hq; [subst q|].
    + intros [= <- <-]. by rewrite lookup_insert_eq.
    + intros Hq1. rewrite lookup_insert_ne; [by eapply t_object|]. intros Hf. by eapply Hq, tabled_inj.
  - intros f ev a. destruct (decide (f = fd_of p)) as [->|Hf].
    + rewrite lookup_insert_eq. intros [= _ <-]. rewrite who_address, put_same. eauto.
    + rewrite lookup_insert_ne by done. intros Ha. destruct (t_epoll _ _ _ H _ _ _ Ha) as [|[|]]; [auto..|].
      right; right. unfold put. by case_decide.
  - intros f Hf. destruct (t_pending _ _ _ H f Hf) as (q & m1 & Hq & Hqf). unfold put.
    exists q. case_decide as Hqp; [|by exists m1]. subst q. simplify_eq. by exists m'.
Qed.

Lemma close_tabled p m c l P o :
  tabled l P o -> o p = Some (m, c) -> tabled (request_close (fd_of p) l) ({[fd_of p]} ∪ P) (put p (Some (m, true)) o).
Proof.
  intros H Hp. split; cbn.
  - intros q m1 c1. unfold put. case_decide as Hq; [subst q|].
    + intros [= <- <-]. destruct (t_object _ _ _ H _ _ _ Hp). split; [done|set_solver].
    + intros Hq1. destruct (t_object _ _ _ H _ _ _ Hq1) as [He Hc]. split; [done|]. rewrite <- Hc.
      assert (fd_of q <> fd_of p) by (intros Hf; by eapply Hq, tabled_inj). set_solver.
  - intros f ev a Ha. destruct (t_epoll _ _ _ H _ _ _ Ha) as [|[|]]; [auto..|]. right; right. unfold put. by case_decide.
  - intros f Hf. apply elem_of_union in Hf as [Hf%elem_of_singleton|Hf].
    + exists p, m. by rewrite put_same.
    + destruct (t_pending _ _ _ H f Hf) as (q & m1 & Hq & Hqf). unfold put. exists q.
      case_decide as Hqp; [subst q; by exists m|by exists m1].
Qed.

(** A descriptor that no object has, and neither the listener nor the timer. *)
Definition fresh (p : party) (o : party -> option (mask * bool)) : Prop :=
  fd_of p <> fd_of Listener /\ fd_of p <> fd_of Sweeper /\ forall q, is_Some (o q) -> fd_of q <> fd_of p.

Lemma fresh_free p l P o : inv l -> tabled l P o -> fresh p o -> epoll l !! fd_of p = None.
Proof.
  intros Hi H (Hl & Hs & Hq). destruct (epoll l !! fd_of p) as [[ev a]|] eqn:He; [|done]. exfalso.
  assert (fd_of p = fd_of (who a)) as Hf by (apply (inv_fd _ Hi), (inv_epoll _ Hi); eauto).
  destruct (t_epoll _ _ _ H _ _ _ He) as [Hw|[Hw|Hw]]; [congruence..|]. by apply (Hq (who a)).
Qed.

Lemma add_tabled p m l P o :
  inv l -> tabled l P o -> fresh p o -> tabled (add (address p) (bits m) true l) P (put p (Some (m, false)) o).
Proof.
  intros Hi H Hfr. pose proof (fresh_free _ _ _ _ Hi H Hfr) as He. destruct Hfr as (_ & _ & Hq).
  unfold add. cbn. rewrite who_address, bool_decide_eq_true_2 by done. split; cbn.
  - intros q m1 c1. unfold put. case_decide as Hqp; [subst q|].
    + intros [= <- <-]. rewrite lookup_insert_eq. split; [done|]. split; [|done].
      intros Hf. destruct (t_pending _ _ _ H _ Hf) as (q & m1 & Hqs & Hqf). exfalso. by apply (Hq q); [eexists|].
    + intros Hq1. rewrite lookup_insert_ne; [by eapply t_object|]. by apply not_eq_sym, Hq.
  - intros f ev a. destruct (decide (f = fd_of p)) as [->|Hf].
    + rewrite lookup_insert_eq. intros [= _ <-]. rewrite who_address, put_same. eauto.
    + rewrite lookup_insert_ne by done. intros Ha. destruct (t_epoll _ _ _ H _ _ _ Ha) as [|[|]]; [auto..|].
      right; right. unfold put. by case_decide.
  - intros f Hf. destruct (t_pending _ _ _ H f Hf) as (q & m1 & Hqs & Hqf). exists q, m1. split; [|done].
    rewrite put_other; [done|]. intros ->. by eapply Hq; [eexists|].
Qed.

(** *** What a callback asks *)

Definition good (w : Proxy) (o : party -> option (mask * bool)) (l : Loop) : Prop :=
  inv l /\ tabled l (pending_close_ l) o /\ world l = w.

Lemma good_ext w o o' l : (forall p, o' p = o p) -> good w o l -> good w o' l.
Proof. intros He (? & ? & ?). split_and!; [done|by eapply tabled_ext|done]. Qed.

(** A connection that lives on; a close that was asked for is not taken back. *)
Definition moved (s s' : option (mask * bool)) : Prop :=
  match s, s' with
  | Some (_, c), Some (_, c') => c = true -> c' = true
  | None, None => True
  | _, _ => False
  end.

Lemma update_good w p m m' c o l : good w o l -> o p = Some (m, c) -> good w (put p (Some (m', c)) o) (update (fd_of p) (bits m') l).
Proof.
  intros (Hi & Ht & Hw) Hp. split_and!; [by apply update_inv| |].
  - pose proof (update_tabled p m m' c l _ o Hi Ht Hp) as H. unfold update in *. by repeat case_match.
  - unfold update. by repeat case_match.
Qed.
Lemma close_good w p m c o l : good w o l -> o p = Some (m, c) -> good w (put p (Some (m, true)) o) (request_close (fd_of p) l).
Proof.
  intros (Hi & Ht & Hw) Hp. split_and!; [by apply (exec_inv l (RequestClose _))| |done]. by eapply close_tabled.
Qed.
Lemma add_good w p m o l : good w o l -> fresh p o -> good w (put p (Some (m, false)) o) (add (address p) (bits m) true l).
Proof.
  intros (Hi & Ht & Hw) Hf. pose proof (fresh_free p l _ o Hi Ht Hf) as He.
  split_and!; [by apply add_inv| |].
  - pose proof (add_tabled p m l _ o Hi Ht Hf) as H. unfold add in *. by repeat case_match.
  - unfold add. cbn. by rewrite who_address, bool_decide_eq_true_2.
Qed.

Lemma changes_good w p s s' o l :
  good w o l -> o p = s -> moved s s' -> good w (put p s' o) (foldl exec l (changes p s s')).
Proof.
  intros Hg Hp Hm. destruct s as [[m c]|], s' as [[m' c']|]; cbn in Hm; try done.
  2: { apply (good_ext _ o); [|done]. intros q. rewrite <- Hp. apply put_id. }
  unfold changes. rewrite foldl_app.
  assert (good w (put p (Some (m', c)) o) (foldl exec l (if decide (m = m') then [] else [Update (fd_of p) (bits m')]))) as Hg1.
  { case_decide as Hmm; [subst m'|by eapply update_good]. apply (good_ext _ o); [|done]. intros q. rewrite <- Hp. apply put_id. }
  destruct c, c'; cbn [negb andb foldl exec]; [done|by discriminate Hm| |done].
  eapply good_ext; [|eapply close_good; [exact Hg1|by rewrite put_same]]. intros q. by rewrite put_put.
Qed.

Lemma dialled_good w p m c o l :
  good w o l -> fresh p o -> good w (put p (Some (m, c)) o) (foldl exec l (dialled p None (Some (m, c)))).
Proof.
  intros Hg Hf. unfold dialled. cbn [foldl exec].
  eapply good_ext; [|eapply changes_good; [by apply add_good|by rewrite put_same|done]]. intros q. by rewrite put_put.
Qed.

(** The backend connection of an event's pair: it lives on, or was dialled. *)
Definition upstream_moved (dials : bool) (p : party) (o : party -> option (mask * bool)) (s' : option (mask * bool)) : Prop :=
  moved (o p) s' \/ (o p = None /\ is_Some s' /\ dials = true /\ fresh p o).

Lemma asks_good dials i w w' l :
  good w' (object w) l -> crashed w' = false ->
  (forall p, p <> Client i -> p <> Upstream i -> object w' p = object w p) ->
  moved (object w (Client i)) (object w' (Client i)) ->
  upstream_moved dials (Upstream i) (object w) (object w' (Upstream i)) ->
  good w' (object w') (foldl exec l (asks dials i w w')).
Proof.
  intros Hg Hc Hother Hm Hu. unfold asks. rewrite Hc, !foldl_app.
  set (o1 := put (Client i) (object w' (Client i)) (object w)).
  assert (good w' o1 (foldl exec l (changes (Client i) (object w (Client i)) (object w' (Client i))))) as Hg1 by by apply changes_good.
  assert (forall p, object w' p = put (Upstream i) (object w' (Upstream i)) o1 p) as He.
  { intros p. unfold o1, put. repeat case_decide; subst; auto. }
  assert (o1 (Upstream i) = object w (Upstream i)) as Ho1 by by unfold o1; rewrite put_other.
  destruct Hu as [Hu|(Hn & [[m c] Hs] & -> & Hf)].
  - eapply good_ext; [exact He|].
    replace (if dials then _ else _) with (@nil cmd); [by apply changes_good|].
    destruct dials; [|done]. unfold dialled. unfold moved in Hu. by repeat case_match.
  - eapply good_ext; [exact He|]. rewrite Hn, Hs. unfold changes at 1. cbn [foldl].
    apply dialled_good; [exact Hg1|]. destruct Hf as (H1 & H2 & H3). split_and!; [done..|].
    intros q. unfold o1, put. case_decide; [subst q|apply H3].
    intros [s' Hs']. apply H3. unfold moved in Hm. destruct (object w (Client i)) as [[]|]; [done|]. by rewrite Hs' in Hm.
Qed.

(** ** The invariant *)

(** How many client connections exist. *)
Definition live (w : Proxy) : nat := base.size (omap http_object (pairs w)).

Definition sound (w : Proxy) : Prop := forall i h, pairs w !! i = Some h -> (i < next_conn w)%nat /\ alone i h.
(** The counters are exact, and the cap is kept. *)
Record counted (w : Proxy) : Prop := {
  cn_count : active_conn_count w = wrap_u 64 (Z.of_nat (live w));
  cn_stats : active_connections w = wrap_u 64 (Z.of_nat (live w));
  cn_cap : max_conn_limit w = 0 \/ Z.of_nat (live w) <= max_conn_limit w;
  cn_max : in_u 64 (max_conn_limit w)
}.

(** The program has crashed on a failed write; or the loop knows exactly the objects that
    exist, and each pair is as it would be alone. [P] are the descriptors still to be closed. *)
Record pinv_at (P : gset Z) (l : Loop) : Prop := {
  pi_crash : crashed (world l) = true -> blame;
  pi_table : crashed (world l) = false -> tabled l P (object (world l));
  pi_sound : crashed (world l) = false -> sound (world l);
  pi_count : crashed (world l) = false -> counted (world l)
}.
Definition pinv (l : Loop) : Prop := pinv_at (pending_close_ l) l.

(** A pair changes, and its client connection is there before as after. *)
Lemma live_same w w' i h h' :
  pairs w !! i = Some h -> pairs w' = <[i := h']> (pairs w) -> http_alive h' = http_alive h -> live w' = live w.
Proof.
  intros Hh Hp Ha. unfold live. rewrite Hp. pose proof (lookup_omap http_object (pairs w) i) as Hl. rewrite Hh in Hl. cbn in Hl.
  unfold http_object in *. destruct (http_alive h).
  - rewrite (omap_insert_Some _ _ _ _ (http_mask h', http_closing h')) by by rewrite Ha.
    by rewrite map_size_insert_Some by by rewrite Hl.
  - rewrite omap_insert_None by by rewrite Ha. by rewrite delete_id.
Qed.
Lemma live_gone w w' i h h' :
  pairs w !! i = Some h -> pairs w' = <[i := h']> (pairs w) -> is_Some (http_object h) -> http_object h' = None ->
  live w = S (live w').
Proof.
  intros Hh Hp [s Hs] Hn. unfold live. rewrite Hp, omap_insert_None by done.
  assert (omap http_object (pairs w) !! i = Some s) as Hl by (rewrite lookup_omap, Hh; exact Hs).
  rewrite map_size_delete_Some by by rewrite Hl.
  destruct (base.size (omap http_object (pairs w))) eqn:Hz; [|done].
  apply map_size_empty_inv in Hz. rewrite Hz, lookup_empty in Hl. done.
Qed.
Lemma live_new w w' i t :
  pairs w !! i = None -> pairs w' = <[i := accepted t]> (pairs w) -> live w' = S (live w).
Proof.
  intros Hh Hp. unfold live. rewrite Hp, (omap_insert_Some _ _ _ _ (Http.EPOLLIN, false)) by done.
  apply map_size_insert_None. by rewrite lookup_omap, Hh.
Qed.

Lemma counted_same w w' :
  live w' = live w -> active_conn_count w' = active_conn_count w -> active_connections w' = active_connections w ->
  max_conn_limit w' = max_conn_limit w -> counted w -> counted w'.
Proof. intros Hl Hc Ha Hm []. split; by rewrite ?Hl, ?Hc, ?Ha, ?Hm. Qed.

Lemma in_use_false w f :
  in_use w f = false -> f <> fd_of Listener /\ f <> fd_of Sweeper /\ forall q, is_Some (object w q) -> fd_of q <> f.
Proof.
  unfold in_use. intros [[Hl%Z.eqb_neq Hs%Z.eqb_neq]%orb_false_iff He]%orb_false_iff. split_and!; [done..|].
  intros q [s Hs'] Hf. apply not_true_iff_false in He. apply He, existsb_exists.
  destruct q as [| |i|i]; [done..| |]; cbn in Hs'; destruct (pairs w !! i) as [h|] eqn:Hp; cbn in Hs'; try done.
  all: exists (i, h); split; [by apply list_elem_of_In, elem_of_map_to_list|].
  all: apply orb_true_iff; rewrite Hf, Z.eqb_refl, andb_true_r.
  - left. unfold http_object in Hs'. by destruct (http_alive h).
  - right. unfold back_object in Hs'. by destruct (back_alive h).
Qed.

Lemma answer_writes i w : e_write (answer i w) = e_write (answers (calls w)).
Proof. unfold answer. by case_match. Qed.
Lemma answer_dials i w : e_dial (answer i w) = Connecting -> fresh (Upstream i) (object w).
Proof.
  unfold answer. destruct (in_use w (fd_of (Upstream i))) eqn:Hu; [done|]. intros _.
  by apply in_use_false in Hu as (? & ? & ?).
Qed.

Lemma served_event i ev w : is_ready ev \/ is_sweep ev -> served (ev (answer i w)).
Proof.
  intros He Hw. exists (calls w). rewrite <- (answer_writes i). by destruct He as [(r & [-> | ->])|(r & [-> | ->])].
Qed.

(** An event of one pair: it crashes the program, or the pair moves on and the others stay. *)
Lemma deliver_cases i ev w :
  sound w -> served (ev (answer i w)) -> crashed w = false ->
  (crashed (deliver i ev w) = true /\ blame) \/
  (crashed (deliver i ev w) = false /\ sound (deliver i ev w) /\ accepts (deliver i ev w) = accepts w /\
   ((deliver i ev w = w /\ pairs w !! i = None) \/
    exists h h', pairs w !! i = Some h /\ alone i h /\ handle i (ev (answer i w)) h = inr (tt, h') /\
      pairs (deliver i ev w) = <[i := h']> (pairs w))).
Proof.
  intros Hs Hev Hc. unfold deliver. destruct (pairs w !! i) as [h|] eqn:Hp; [|right; split_and!; auto].
  destruct (Hs i h Hp) as [Hlt Ha]. pose proof (alone_event i _ h Ha Hev) as He.
  destruct (handle i (ev (answer i w)) h) as [f|[[] h']] eqn:Hh; [by left|right].
  split_and!; [done| |done|right; by exists h, h'].
  intros j g. cbn. intros [[<- <-]|[? Hg]]%lookup_insert_Some; [done|by apply Hs].
Qed.

Lemma object_other w w' i h' p :
  pairs w' = <[i := h']> (pairs w) -> p <> Client i -> p <> Upstream i -> object w' p = object w p.
Proof.
  intros Hp Hc Hu. destruct p as [| |j|j]; cbn; [done..| |]; rewrite Hp, lookup_insert_ne by congruence; done.
Qed.

Lemma event_follows dials i ev e h h' :
  alone i h -> (is_ready ev /\ dials = true \/ is_sweep ev) -> handle i (ev e) h = inr (tt, h') ->
  follows (dials = true /\ e_dial e = Connecting) h h'.
Proof.
  intros Ha Hev Hh. destruct Hev as [[Hev Hd]|Hev].
  - pose proof (ready_follows i ev e h Hev (alone_undialled i h Ha)) as H. rewrite Hh in H.
    destruct H as [H1 H2 H3 H4]. by split; auto.
  - pose proof (sweep_follows i ev e h Hev) as H. rewrite Hh in H. destruct H as [H1 H2 H3 H4]. split; [done..|]. intros Hb Hb'. by destruct (H4 Hb Hb').
Qed.

Lemma follows_http d h h' : follows d h h' -> moved (http_object h) (http_object h').
Proof. intros []. unfold http_object. rewrite f_http0. by destruct (http_alive h). Qed.
Lemma follows_back d h h' :
  follows d h h' -> moved (back_object h) (back_object h') \/ (back_object h = None /\ is_Some (back_object h') /\ d).
Proof.
  intros [_ _ Hb Hn]. unfold back_object. destruct (back_alive h).
  - left. destruct (Hb eq_refl) as [-> ?]. done.
  - destruct (back_alive h'); [right|by left]. by split_and!; [|eexists|auto].
Qed.

Lemma deliver_counters i ev w :
  active_conn_count (deliver i ev w) = active_conn_count w /\ active_connections (deliver i ev w) = active_connections w /\
  max_conn_limit (deliver i ev w) = max_conn_limit w.
Proof. unfold deliver. by repeat case_match. Qed.

Lemma callback_kept dials i ev l :
  inv l -> pinv l -> is_ready ev /\ dials = true \/ is_sweep ev -> pinv (interp (callback dials i ev) l).
Proof.
  intros Hi [H1 H2 H3 H4] Hev. unfold callback. cbn [interp]. unfold step.
  destruct (crashed (world l)) eqn:Hc.
  { unfold asks. rewrite Hc. cbn [foldl]. split; cbn; rewrite Hc; done. }
  specialize (H2 eq_refl). specialize (H3 eq_refl). specialize (H4 eq_refl).
  assert (served (ev (answer i (world l)))) as Hsv by (apply served_event; tauto).
  destruct (deliver_cases i ev (world l) H3 Hsv Hc) as [[Hcr Hb]|(Hcr & Hs & _ & Hcase)].
  { unfold asks. rewrite Hcr. cbn [foldl]. split; cbn; rewrite Hcr; done. }
  assert (good (deliver i ev (world l)) (object (world l)) (l <| world := deliver i ev (world l) |>)) as Hg.
  { split_and!; [by apply with_world_inv|by destruct H2|done]. }
  destruct (deliver_counters i ev (world l)) as (Hn1 & Hn2 & Hn3).
  set (w' := deliver i ev (world l)) in *. clearbody w'.
  assert (counted w') as Hcn.
  { eapply counted_same; [|done..]. destruct Hcase as [[-> _]|(h & h' & Hh & Ha & He & Hp)]; [done|].
    eapply live_same; [done..|]. by eapply f_http, event_follows. }
  assert (good w' (object w') (foldl exec (l <| world := w' |>) (asks dials i (world l) w'))) as (_ & Ht & Hw).
  2: { split; rewrite Hw; [by rewrite Hcr|done..]. }
  apply asks_good; [done..| | |].
  - destruct Hcase as [[-> _]|(h & h' & _ & _ & _ & Hp)]; [done|]. intros p. by eapply object_other.
  - destruct Hcase as [[-> Hn]|(h & h' & Hh & Ha & He & Hp)]; cbn; [by rewrite Hn|].
    rewrite Hp, lookup_insert_eq, Hh. by eapply follows_http, event_follows.
  - unfold upstream_moved. destruct Hcase as [[-> Hn]|(h & h' & Hh & Ha & He & Hp)]; cbn [object]; [left; by rewrite Hn|].
    rewrite Hp, lookup_insert_eq, Hh. cbn.
    destruct (follows_back _ _ _ (event_follows _ _ _ _ _ _ Ha Hev He)) as [Hm|(Hn & Hs' & Hd & Hc')]; [by left|right].
    split_and!; [done..|]. by apply answer_dials.
Qed.

(** *** Accepting *)

Lemma sound_new w : sound w -> pairs w !! next_conn w = None.
Proof. intros Hs. destruct (pairs w !! next_conn w) eqn:Hp; [|done]. destruct (Hs _ _ Hp). lia. Qed.

(** What the limiter and the accept queue do not touch. *)
Record unchanged (w w' : Proxy) : Prop := {
  u_pairs : pairs w' = pairs w; u_next : next_conn w' = next_conn w; u_crashed : crashed w' = crashed w;
  u_count : active_conn_count w' = active_conn_count w; u_stats : active_connections w' = active_connections w;
  u_max : max_conn_limit w' = max_conn_limit w
}.

Lemma pinv_world l w : pinv l -> unchanged (world l) w -> pinv (l <| world := w |>).
Proof.
  intros [H1 H2 H3 H4] [Hp Hn Hc Ha Hs Hm]. split; cbn; rewrite Hc; [done|..]; intros Hcr.
  - eapply tabled_ext; [|by destruct (H2 Hcr)]. intros [| |i|i]; cbn; by rewrite ?Hp.
  - intros i h. rewrite Hp, Hn. by apply H3.
  - apply (counted_same (world l)); try done; [|by apply H4]. unfold live. by rewrite Hp.
Qed.

Lemma accept_one_cases ipv4 now t wraps adds w :
  (unchanged w (accept_one ipv4 now t wraps adds w).1 /\ (accept_one ipv4 now t wraps adds w).2 = false) \/
  exists w0, unchanged w w0 /\ in_use w (fd_of (Client (next_conn w))) = false /\ conn_slot_available w0 = true /\
    accept_one ipv4 now t wraps adds w = (make_http t adds w0, true).
Proof.
  unfold accept_one. destruct (in_use w _); [by left|].
  assert (unchanged w (let_in ipv4 now w).2) as Hs.
  { unfold let_in. destruct (limiter_ w) as [rl|]; [|done]. by destruct (allow rl ipv4 now). }
  destruct (let_in ipv4 now w) as [ok w1]. destruct ok; cbn; [|by left].
  destruct (conn_slot_available w1) eqn:Hslot; cbn; [|by left]. destruct wraps; cbn; [right|by left]. by exists w1.
Qed.

(** A slot is free only below the cap. *)
Lemma slot_under_cap w :
  counted w -> conn_slot_available w = true -> max_conn_limit w = 0 \/ Z.of_nat (S (live w)) <= max_conn_limit w.
Proof.
  intros [] Hs. unfold conn_slot_available in Hs. apply orb_true_iff in Hs as [Hs|Hs]; bool_to_prop; [by left|].
  destruct cn_cap0 as [?|Hc]; [by left|right]. destruct cn_max0 as [_ Hm].
  rewrite cn_count0, wrap_u_id in Hs; [lia|]. split; [lia|]. lia.
Qed.

Lemma make_http_sound t adds w : sound w -> sound (make_http t adds w).
Proof.
  intros Hs i h. unfold make_http. destruct adds; cbn.
  - intros [[<- <-]|[? Hp]]%lookup_insert_Some; [split; [lia|apply alone_accepted]|].
    destruct (Hs _ _ Hp). split; [lia|done].
  - intros Hp. destruct (Hs _ _ Hp). split; [lia|done].
Qed.
Lemma make_http_counted t w :
  sound w -> counted w -> conn_slot_available w = true -> counted (make_http t true w).
Proof.
  intros Hs Hc Hslot. pose proof (slot_under_cap w Hc Hslot) as Hcap. destruct Hc as [H1 H2 _ H4].
  assert (live (make_http t true w) = S (live w)) as Hl by (eapply live_new; [by apply sound_new|done]).
  split; rewrite ?Hl; cbn; [by rewrite H1, wrap_succ|by rewrite H2, wrap_succ|exact Hcap|exact H4].
Qed.

Lemma add_refused p ev (l : Loop) :
  let l' := add (address p) ev false l in
  epoll l' = epoll l /\ pending_close_ l' = pending_close_ l /\ world l' = destroy_party (address p) (world l).
Proof. done. Qed.
Lemma tabled_epoll (l l' : Loop) P o : epoll l' = epoll l -> tabled l P o -> tabled l' P o.
Proof. intros He []. split; by rewrite ?He. Qed.

(** A connection that epoll refuses is gone at once. *)
Lemma refused_unchanged t w :
  sound w -> crashed w = false -> counted w ->
  let w' := destroy_party (address (Client (next_conn w))) (make_http t false w) in
  pairs w' = pairs w /\ next_conn w' = S (next_conn w) /\ crashed w' = false /\ counted w'.
Proof.
  intros Hs Hc Hcn w'. subst w'. unfold destroy_party. rewrite who_address. unfold step, deliver.
  assert (crashed (make_http t false w) = false) as -> by exact Hc.
  assert (pairs (make_http t false w) !! next_conn w = None) as -> by exact (sound_new w Hs).
  assert (crashed (make_http t false w) = false) as -> by exact Hc. split_and!; [done..|].
  apply (counted_same w); cbn; [done| | |done|done].
  - destruct Hcn as [-> _ _ _]. by rewrite wrap_succ, wrap_pred.
  - destruct Hcn as [_ -> _ _]. by rewrite wrap_succ, wrap_pred.
Qed.

Lemma make_http_kept t adds l :
  inv l -> pinv l -> crashed (world l) = false -> conn_slot_available (world l) = true ->
  let p := Client (next_conn (world l)) in
  in_use (world l) (fd_of p) = false ->
  let l' := add (address p) (bits Http.EPOLLIN) adds (l <| world := make_http t adds (world l) |>) in
  pinv l' /\ crashed (world l') = false.
Proof.
  intros Hi Hp Hc Hslot p Hf. pose proof (pi_sound _ _ Hp Hc) as Hs. pose proof (pi_count _ _ Hp Hc) as Hcn.
  set (w' := make_http t adds (world l)).
  destruct adds.
  - assert (crashed w' = false) as Hc' by exact Hc.
    destruct (add_good w' p Http.EPOLLIN (object (world l)) (l <| world := w' |>)) as (_ & Ht & Hw); [|by apply in_use_false in Hf|].
    { split_and!; [by apply with_world_inv| |done]. by destruct (pi_table _ _ Hp Hc). }
    split; [|by rewrite Hw]. split; rewrite Hw; [congruence|..]; intros _; [|by apply make_http_sound|by apply make_http_counted].
    eapply tabled_ext; [|exact Ht]. intros q. unfold put. case_decide as Hq; [subst q; cbn; by rewrite lookup_insert_eq|].
    destruct (decide (q = Upstream (next_conn (world l)))) as [->|Hu]; [|by eapply object_other].
    cbn. by rewrite lookup_insert_eq, (sound_new _ Hs).
  - destruct (add_refused p (bits Http.EPOLLIN) (l <| world := w' |>)) as (He & Hpd & Hw).
    change (world (l <| world := w' |>)) with w' in Hw.
    destruct (refused_unchanged t (world l) Hs Hc Hcn) as (Hpairs & Hnext & Hcr & Hcn'). fold p w' in Hpairs, Hnext, Hcr, Hcn'.
    rewrite <- Hw in Hpairs, Hnext, Hcr, Hcn'. split; [|done]. split; [congruence|..]; intros _; [| |done].
    + rewrite Hpd. apply (tabled_epoll l); [exact He|]. eapply tabled_ext; [|exact (pi_table _ _ Hp Hc)].
      intros [| |i|i]; cbn [object]; by rewrite ?Hpairs.
    + intros i h Hh. rewrite Hpairs in Hh. destruct (Hs i h Hh). split; [lia|done].
Qed.

Lemma accept_loop_kept rs l :
  inv l -> pinv l -> crashed (world l) = false -> pinv (interp (accept_loop rs) l).
Proof.
  revert l. induction rs as [|r rs IH]; intros l Hi Hp Hc; cbn [accept_loop]; [done|].
  destruct r as [ipv4 now t wraps adds| |]; cbn [interp foldl].
  - set (w := (world l) <| accepts := rs |>).
    destruct (accept_one_cases ipv4 now t wraps adds w) as [[Hu Hno]|(w0 & Hu & Hf & Hslot & ->)].
    + rewrite Hno. cbn [foldl]. assert (unchanged (world l) (accept_one ipv4 now t wraps adds w).1) as Hu' by by destruct Hu.
      apply IH; [by apply with_world_inv|by apply pinv_world|]. exact (eq_trans (u_crashed _ _ Hu') Hc).
    + cbn [fst snd foldl exec]. assert (unchanged (world l) w0) as Hu' by by destruct Hu.
      assert (crashed w0 = false) as Hc0 by by rewrite (u_crashed _ _ Hu').
      pose proof (make_http_kept t adds (l <| world := w0 |>) (with_world_inv _ _ Hi) (pinv_world _ _ Hp Hu') Hc0 Hslot) as Hk.
      cbn in Hk. rewrite (u_next _ _ Hu') in Hk. destruct Hk as [Hp' Hc'].
      { rewrite <- Hf. unfold in_use. cbn. by rewrite (u_pairs _ _ Hu'). }
      apply IH; [by apply add_inv, with_world_inv|done..].
  - apply IH; [by apply with_world_inv|by apply pinv_world|done].
  - by apply pinv_world.
Qed.

(** *** Closing *)

Lemma close_http_object i h h' :
  handle i CloseHttp h = inr (tt, h') -> http_closing h = true -> http_object h' = None /\ back_object h' = back_object h.
Proof.
  intros Hh Hc. revert Hh. unfold hhandle, rbind at 1, rgets. rewrite Hc. cbn [rwhen].
  unfold destroy_http, deref_backend, rbind, rwhen, hget, bset, rgets, rmodify, rret, rfault, http_object, back_object.
  cbn. destruct (backend_ (http h)) eqn:Hb, (back_alive h) eqn:Ha; cbn; rewrite ?Hb, ?Ha; intros Hh; simplify_eq; cbn; by rewrite ?Ha.
Qed.
Lemma close_back_object i h h' :
  handle i CloseBack h = inr (tt, h') -> back_closing h = true -> back_object h' = None /\ http_object h' = http_object h.
Proof.
  intros Hh Hc. revert Hh. unfold hhandle, rbind at 1, rgets. rewrite Hc. cbn [rwhen].
  unfold destroy_back, deref_client, rbind, rwhen, hget, hset, rgets, rmodify, rret, rfault, http_object, back_object.
  cbn. destruct (client (back h)) eqn:Hb, (http_alive h) eqn:Ha; cbn; rewrite ?Hb, ?Ha; intros Hh; simplify_eq; cbn; by rewrite ?Ha.
Qed.

(** One descriptor leaves the table with its object. *)
Lemma erase_tabled p m l P P' o f :
  inv l -> tabled l P o -> o p = Some (m, true) -> f = fd_of p -> (forall g, g ∈ P' <-> g ∈ P /\ g <> f) ->
  tabled (l <| epoll ::= delete f |>) P' (put p None o).
Proof.
  intros Hi H Hp -> HP. split; cbn.
  - intros q m1 c1. unfold put. case_decide as Hq; [done|]. intros Hq1.
    assert (fd_of q <> fd_of p) by (intros Hf; by eapply Hq, tabled_inj).
    destruct (t_object _ _ _ H _ _ _ Hq1) as [He Hc]. rewrite lookup_delete_ne by done. split; [done|].
    rewrite HP. naive_solver.
  - intros f ev a [Hf Ha]%lookup_delete_Some. destruct (t_epoll _ _ _ H _ _ _ Ha) as [|[|Hs]]; [auto..|].
    right; right. rewrite put_other; [done|]. intros Hw.
    apply Hf. rewrite <- Hw. symmetry. apply (inv_fd _ Hi), (inv_epoll _ Hi). by exists ev.
  - intros g [Hg Hne]%HP. destruct (t_pending _ _ _ H g Hg) as (q & m1 & Hq & Hqf). exists q, m1. split; [|done].
    rewrite put_other; [done|]. by intros ->.
Qed.

Lemma object_gone w w' i h h' p :
  pairs w !! i = Some h -> pairs w' = <[i := h']> (pairs w) ->
  (p = Client i /\ http_object h' = None /\ back_object h' = back_object h \/
   p = Upstream i /\ back_object h' = None /\ http_object h' = http_object h) ->
  forall q, object w' q = put p None (object w) q.
Proof.
  intros Hh Hp Hor q. unfold put. destruct q as [| |j|j].
  1-2: by case_decide.
  all: destruct (decide (j = i)) as [->|Hj].
  2,4: rewrite decide_False by naive_solver; cbn; by rewrite Hp, lookup_insert_ne.
  all: cbn; rewrite Hp, lookup_insert_eq, Hh; cbn; case_decide; naive_solver.
Qed.

Lemma close_cases i ev w :
  sound w -> crashed w = false -> writes ev = [] ->
  let w' := deliver i (fun _ => ev) w in
  (crashed w' = true /\ blame) \/
  (crashed w' = false /\ sound w' /\
   forall h, pairs w !! i = Some h -> exists h', handle i ev h = inr (tt, h') /\ pairs w' = <[i := h']> (pairs w)).
Proof.
  intros Hs Hc Hev w'.
  destruct (deliver_cases i (fun _ => ev) w Hs) as [?|(Hcr & Hs' & _ & Hcase)]; [|done|by left|right].
  { intros Hw. rewrite Hev in Hw. by apply not_elem_of_nil in Hw. }
  split_and!; [done..|]. intros h Hh. destruct Hcase as [[_ ?]|(g & h' & Hg & _ & He & Hp)]; [congruence|].
  exists h'. by simplify_eq.
Qed.

Lemma counted_gone w w' :
  live w = S (live w') -> active_conn_count w' = wrap_u 64 (active_conn_count w - 1) ->
  active_connections w' = wrap_u 64 (active_connections w - 1) -> max_conn_limit w' = max_conn_limit w ->
  counted w -> counted w'.
Proof.
  intros Hl Hc Ha Hm []. rewrite Hl in *. split; rewrite ?Hc, ?Ha, ?Hm; [by rewrite cn_count0, wrap_pred|by rewrite cn_stats0, wrap_pred| |done].
  destruct cn_cap0; [by left|right; lia].
Qed.

(** The destructor of an object that was to be closed. *)
Lemma destroy_cases p m w :
  sound w -> counted w -> crashed w = false -> object w p = Some (m, true) ->
  let w' := destroy_party (address p) w in
  (crashed w' = true /\ blame) \/
  (crashed w' = false /\ sound w' /\ counted w' /\ forall q, object w' q = put p None (object w) q).
Proof.
  intros Hs Hcn Hc Hp w'. subst w'. unfold destroy_party. rewrite who_address.
  destruct p as [| |i|i]; [done..| |]; unfold step; rewrite Hc; cbn in Hp.
  - destruct (pairs w !! i) as [h|] eqn:Hh; [|done]. cbn in Hp. unfold http_object in Hp. destruct (http_alive h) eqn:Ha; [|done].
    destruct (deliver_counters i (fun _ => CloseHttp) w) as (Hn1 & Hn2 & Hn3).
    destruct (close_cases i CloseHttp w Hs Hc eq_refl) as [[Hcr ?]|(Hcr & Hs' & He)]; [left; by rewrite Hcr|right]. rewrite Hcr.
    destruct (He h Hh) as (h' & Hr & Hpairs). injection Hp as _ Hcl.
    destruct (close_http_object i h h' Hr Hcl) as [Hgone Hback].
    split_and!; [done..| |].
    + eapply counted_gone; cbn; [|by rewrite Hn1|by rewrite Hn2|done|done].
      eapply live_gone; [done..| |done]. unfold http_object. rewrite Ha. by eexists.
    + eapply object_gone; [exact Hh|exact Hpairs|]. by left.
  - destruct (pairs w !! i) as [h|] eqn:Hh; [|done]. cbn in Hp. unfold back_object in Hp. destruct (back_alive h); [|done].
    destruct (deliver_counters i (fun _ => CloseBack) w) as (Hn1 & Hn2 & Hn3).
    destruct (close_cases i CloseBack w Hs Hc eq_refl) as [?|(Hcr & Hs' & He)]; [by left|right].
    destruct (He h Hh) as (h' & Hr & Hpairs). injection Hp as _ Hcl.
    destruct (close_back_object i h h' Hr Hcl) as [Hgone Hhttp]. split_and!; [done..| |].
    + eapply counted_same; [|done..]. eapply live_same; [done..|]. unfold http_object in Hhttp. by destruct (http_alive h'), (http_alive h).
    + eapply object_gone; [exact Hh|exact Hpairs|]. by right.
Qed.

Lemma destroy_crashed a w : crashed w = true -> destroy_party a w = w.
Proof. intros Hc. unfold destroy_party, step. destruct (who a); rewrite ?Hc; cbv zeta; by rewrite ?Hc. Qed.

Lemma close_one_kept f P P' l :
  inv l -> pinv_at P l -> f ∈ P -> (forall g, g ∈ P' <-> g ∈ P /\ g <> f) -> pinv_at P' (close_one l f).
Proof.
  intros Hi [H1 H2 H3 H4] Hf HP. destruct (crashed (world l)) eqn:Hc.
  - assert (world (close_one l f) = world l) as Hw.
    { unfold close_one. destruct (handlers_ l !! f) as [a|]; [|done]. by apply destroy_crashed. }
    split; rewrite Hw, Hc; auto; done.
  - specialize (H2 eq_refl). specialize (H3 eq_refl). specialize (H4 eq_refl).
    destruct (t_pending _ _ _ H2 f Hf) as (p & m & Hp & Hpf).
    pose proof (tabled_handler _ _ _ _ _ Hi H2 Hp) as Hh. rewrite Hpf in Hh. unfold close_one. rewrite Hh.
    pose proof (erase_tabled p m l P P' _ f Hi H2 Hp (eq_sym Hpf) HP) as Ht.
    destruct (destroy_cases p m (world l) H3 H4 Hc Hp) as [[Hcr Hb]|(Hcr & Hs & Hcn & Ho)].
    + split; cbn [world kill]; intros Hc'; [done|..]; cbn in Hc'; congruence.
    + split; cbn [world kill]; intros Hc'; [cbn in Hc'; congruence|..|done|done].
      eapply tabled_epoll; [|eapply tabled_ext; [exact Ho|exact Ht]]. done.
Qed.

Lemma close_kept l : inv l -> pinv l -> pinv (process_pending_close l).
Proof.
  intros Hi Hp. unfold process_pending_close.
  assert (forall fs l, inv l -> NoDup fs -> pinv_at (list_to_set fs) l -> pinv_at ∅ (foldl close_one l fs)) as Hfold.
  { clear. induction fs as [|f fs IH]; intros l Hi Hnd Hp; cbn [foldl]; [done|].
    apply NoDup_cons in Hnd as [Hf Hnd]. apply IH; [by apply close_one_inv|done|].
    eapply close_one_kept; [done..|cbn; set_solver|]. intros g. cbn.
    rewrite elem_of_union, elem_of_singleton, !elem_of_list_to_set. naive_solver. }
  destruct (Hfold (elements (pending_close_ l)) l Hi (NoDup_elements _)) as [H1 H2 H3 H4].
  - rewrite list_to_set_elements_L. exact Hp.
  - split; cbn; [done| |done|done]. intros Hc. by destruct (H2 Hc).
Qed.

Lemma on_ready_kept r a l : inv l -> pinv l -> pinv (interp (on_ready r a) l).
Proof.
  intros Hi Hp. unfold on_ready. destruct (who a); [done..| |]; apply callback_kept; try done; left; (split; [|done]).
  all: exists r; auto.
Qed.
Lemma sweep_pinv t a l : inv l -> pinv l -> pinv (interp (sweep t a) l).
Proof.
  intros Hi Hp. unfold sweep. destruct (who a); [done..| |]; apply callback_kept; try done; right.
  all: exists t; auto.
Qed.

Lemma pinv_kept : kept pinv.
Proof.
  split; cbn [on_readable on_writable on_error check_timeout run_tasks proxy_server].
  - intros a l Hi Hp _ _. case_decide as Ha; [|by apply on_ready_kept].
    unfold listener_on_readable. cbn [interp foldl]. replace (l <| world := id (world l) |>) with l by by destruct l.
    destruct (crashed (world l)) eqn:Hc; cbn [interp]; [done|]. by apply accept_loop_kept.
  - intros a l Hi Hp _ _. by apply on_ready_kept.
  - intros a l Hi Hp _. by apply on_ready_kept.
  - intros t a l Hi Hp _. by apply sweep_pinv.
  - by intros l _ Hp.
  - apply close_kept.
Qed.

Lemma empty_inv w : inv (mk_loop ∅ ∅ ∅ w [] []).
Proof. split; cbn; [|done|done]. intros f a. rewrite !lookup_empty. naive_solver. Qed.
Lemma worker_inv w : inv (serving w).
Proof. unfold serving. case_match; repeat apply add_inv; apply empty_inv. Qed.
Lemma add_watcher p ev l :
  inv l -> pinv l -> p = Listener \/ p = Sweeper -> pinv (add (address p) ev true l).
Proof.
  intros Hi [H1 H2 H3 H4] Hp. unfold add. cbn [andb epoll]. case_bool_decide as He.
  - split; cbn; [done| |done|done]. intros Hc. destruct (H2 Hc) as [T1 T2 T3]. split; cbn; [| |done].
    + intros q m c Hq. destruct (T1 q m c Hq) as [Hqe Hqc]. rewrite lookup_insert_ne; [done|].
      intros Hf. cbn in He. rewrite who_address in *. congruence.
    + intros f ev' a. destruct (decide (f = fd_of (who (address p)))) as [->|Hf].
      * rewrite lookup_insert_eq. intros [= _ <-]. rewrite who_address. tauto.
      * rewrite lookup_insert_ne by done. apply T2.
  - assert (destroy_party (address p) (world l) = world l) as Hd by (unfold destroy_party; rewrite who_address; by destruct Hp as [-> | ->]).
    split; cbn; rewrite Hd; [done| |done|done]. intros Hc. by destruct (H2 Hc).
Qed.
Lemma worker_pinv rs rl max : in_u 64 max -> pinv (serving (new_proxy rs rl max)).
Proof.
  intros Hmax. assert (pinv (mk_loop ∅ ∅ ∅ (new_proxy rs rl max) [] [])) as Hp.
  { split; cbn; [done| |by intros _ i h; cbn; rewrite lookup_empty|].
    - intros _. split; cbn.
      + intros [| |i|i] m c; cbn; try done; by rewrite lookup_empty.
      + intros f ev a. by rewrite lookup_empty.
      + intros f Hf. set_solver.
    - intros _. split; cbn; [done..| |done]. right. destruct Hmax. by unfold live; cbn; rewrite omap_empty, map_size_empty. }
  unfold serving. case_match; repeat (apply add_watcher; [repeat apply add_inv; apply empty_inv| |auto]); done.
Qed.

(** ** What the loop knows of a pair *)

(** An object is owned and registered under its descriptor with the events it watches; one
    that is gone is not owned. *)
Definition known (l : Loop) (p : party) (s : option (mask * bool)) : Prop :=
  match s with
  | Some (m, _) => handlers_ l !! fd_of p = Some (address p) /\ epoll l !! fd_of p = Some (bits m, address p)
  | None => forall f, handlers_ l !! f <> Some (address p)
  end.

Lemma tabled_known l P w p :
  inv l -> tabled l P (object w) -> p <> Listener -> p <> Sweeper -> known l p (object w p).
Proof.
  intros Hi Ht Hl Hs. unfold known. destruct (object w p) as [[m c]|] eqn:Hp.
  - split; [by eapply tabled_handler|]. by destruct (t_object _ _ _ Ht _ _ _ Hp).
  - intros f Hf. apply (inv_epoll _ Hi) in Hf as [ev Hf].
    apply (t_epoll _ _ _ Ht) in Hf. rewrite who_address, Hp in Hf. destruct Hf as [|[|[]]]; done.
Qed.

(** Between turns nothing is about to be closed. *)
Lemma tabled_open l w p m c : tabled l ∅ (object w) -> object w p = Some (m, c) -> c = false.
Proof. intros Ht Hp. destruct (t_object _ _ _ Ht _ _ _ Hp) as [_ Hc]. destruct c; [|done]. exfalso. set_solver. Qed.

Lemma settled_pair l i h :
  inv l -> pinv l -> pending_close_ l = ∅ -> crashed (world l) = false -> pairs (world l) !! i = Some h ->
  alone i h /\ coherent h /\ known l (Client i) (http_object h) /\ known l (Upstream i) (back_object h).
Proof.
  intros Hi [_ H2 H3] Hpc Hc Hh. specialize (H2 Hc). rewrite Hpc in H2. destruct (H3 Hc i h Hh) as [_ Ha].
  assert (object (world l) (Client i) = http_object h) as Hho by (cbn; by rewrite Hh).
  assert (object (world l) (Upstream i) = back_object h) as Hbo by (cbn; by rewrite Hh).
  rewrite <- Hho, <- Hbo. split_and!; [done| |by eapply tabled_known..].
  eapply pair_settled; [by eapply alone_pair|..]; intros Hal.
  - eapply (tabled_open _ _ (Client i)); [exact H2|]. rewrite Hho. unfold http_object. by rewrite Hal.
  - eapply (tabled_open _ _ (Upstream i)); [exact H2|]. rewrite Hbo. unfold back_object. by rewrite Hal.
Qed.

Lemma run_pinv rs rl max wait n :
  in_u 64 max -> (forall j l, inv l -> delivered l (wait j l)) ->
  exists l, run wait n 0 (serving (new_proxy rs rl max)) = Some l /\ inv l /\ pinv l /\ pending_close_ l = ∅.
Proof.
  intros Hmax Hw. destruct (run_total wait n 0 (serving (new_proxy rs rl max)) (worker_inv _) Hw) as (l & Hr & Hi & Hp).
  exists l. split_and!; [done..| |].
  - eapply run_kept; [apply pinv_kept|apply worker_inv|exact Hw|by apply worker_pinv|exact Hr].
  - apply Hp. unfold serving, add. by repeat case_match.
Qed.

(** ** A connection that leaves *)

(** The [i]th client connection is to be closed, or is gone; it never comes back. *)
Definition leaving (i : nat) (w : Proxy) : Prop :=
  crashed w = true \/
  exists h, pairs w !! i = Some h /\ (i < next_conn w)%nat /\ (http_closing h = true \/ http_alive h = false).

Lemma leaving_pair i j w h' :
  leaving i w ->
  (forall h, pairs w !! j = Some h -> http_closing h = true \/ http_alive h = false -> http_closing h' = true \/ http_alive h' = false) ->
  leaving i ((w <| calls ::= S |>) <| pairs ::= <[j := h']> |>).
Proof.
  intros [?|(h & Hh & Hlt & Hg)] Hk; [by left|right]. cbn. destruct (decide (j = i)) as [->|Hne].
  - exists h'. rewrite lookup_insert_eq. split_and!; [done..|]. by eapply Hk.
  - exists h. by rewrite lookup_insert_ne.
Qed.

(** One event keeps it so, if it keeps so the pair it is for. *)
Lemma leaving_step i j ev w :
  leaving i w ->
  (forall h h', pairs w !! j = Some h -> crashed w = false -> handle j (ev (answer j w)) h = inr (tt, h') ->
     http_closing h = true \/ http_alive h = false -> http_closing h' = true \/ http_alive h' = false) ->
  leaving i (step j ev w).
Proof.
  intros Hl Hk. unfold step. destruct (crashed w) eqn:Hc; [done|]. unfold deliver.
  destruct (pairs w !! j) as [h|] eqn:Hh; [|done].
  destruct (handle j (ev (answer j w)) h) as [f|[[] h']] eqn:Hr; [by left|].
  apply leaving_pair; [done|]. intros h0. rewrite Hh. intros [= <-]. by apply (Hk h).
Qed.

(** Other fields do not matter. *)
Lemma leaving_ext i w w' :
  pairs w' = pairs w -> (next_conn w <= next_conn w')%nat -> crashed w' = crashed w -> leaving i w -> leaving i w'.
Proof.
  intros Hp Hn Hc [?|(h & Hh & Hlt & Hg)]; [left; congruence|right]. exists h. rewrite Hp. split_and!; [done|lia|done].
Qed.

Lemma leaving_destroy i a w : leaving i w -> leaving i (destroy_party a w).
Proof.
  intros Hl. unfold destroy_party. destruct (who a) as [| |j|j]; [done..| |].
  - assert (leaving i (step j (fun _ => CloseHttp) w)) as Hs; [|cbv zeta; by case_match; [|eapply leaving_ext; [..|exact Hs]]].
    apply leaving_step; [done|]. intros h h' _ _ Hr Hg. destruct (http_closing h) eqn:Hc.
    + right. destruct (close_http_object j h h' Hr Hc) as [Ho _]. unfold http_object in Ho. by destruct (http_alive h').
    + revert Hr. unfold hhandle, rbind, rgets. rewrite Hc. intros [= <-]. by rewrite Hc.
  - apply leaving_step; [done|]. intros h h' _ _ Hr Hg. destruct (back_closing h) eqn:Hc.
    + destruct (close_back_object j h h' Hr Hc) as [_ Ho]. unfold http_object in Ho.
      destruct (http_alive h'); [|by right]. left. destruct (http_alive h); [|done]. destruct Hg; [congruence|done].
    + revert Hr. unfold hhandle, rbind, rgets. rewrite Hc. by intros [= <-].
Qed.

Lemma leaving_callback i dials j ev l :
  pinv l -> is_ready ev /\ dials = true \/ is_sweep ev -> leaving i (world l) ->
  leaving i (world (interp (callback dials j ev) l)).
Proof.
  intros Hp Hev Hl. unfold callback. cbn [interp].
  apply (exec_all_framed (leaving i)); [intros ? ?; apply leaving_destroy|]. cbn. apply leaving_step; [done|].
  intros h h' Hh Hc Hr. destruct (pi_sound _ _ Hp Hc j h Hh) as [_ Ha].
  destruct (event_follows _ _ _ _ _ _ Ha Hev Hr) as [-> Hcl _ _]. tauto.
Qed.

Lemma leaving_make i t adds w : leaving i w -> leaving i (make_http t adds w).
Proof.
  intros [?|(h & Hh & Hlt & Hg)]; [left; by destruct adds|right]. exists h. unfold make_http. destruct adds; cbn; split_and!; try done; try lia.
  rewrite lookup_insert_ne; [done|lia].
Qed.
Lemma leaving_accept i rs : framed (leaving i) (accept_loop rs).
Proof.
  induction rs as [|[ipv4 now t wraps adds| |] rs IH]; cbn [accept_loop]; constructor; try done; [|by constructor].
  intros w Hl. set (w1 := w <| accepts := rs |>). assert (leaving i w1) as Hl1 by done.
  destruct (accept_one_cases ipv4 now t wraps adds w1) as [[[Hp Hn Hc _ _ _] _]|(w0 & [Hp Hn Hc _ _ _] & _ & _ & ->)].
  - eapply leaving_ext; [exact Hp|by rewrite Hn|exact Hc|exact Hl1].
  - apply leaving_make. eapply leaving_ext; [exact Hp|by rewrite Hn|exact Hc|exact Hl1].
Qed.

Lemma leaving_ready i r a l : pinv l -> leaving i (world l) -> leaving i (world (interp (on_ready r a) l)).
Proof.
  intros Hp Hl. unfold on_ready. destruct (who a); [done..| |]; apply leaving_callback; try done; left; (split; [|done]).
  all: exists r; auto.
Qed.

Lemma leaving_kept i : kept (fun l => pinv l /\ leaving i (world l)).
Proof.
  destruct pinv_kept as [K1 K2 K3 K4 K5 K6].
  assert (forall a w, leaving i w -> leaving i (destroy a w)) as Hd by (intros ? ?; apply leaving_destroy).
  split; cbn [on_readable on_writable on_error check_timeout run_tasks proxy_server] in *.
  - intros a l Hi [Hp Hl] Ha Ht. split; [by apply K1|]. case_decide as Hw; [|by apply leaving_ready].
    unfold listener_on_readable. cbn [interp foldl]. destruct (crashed (world l)) eqn:Hc; cbn [interp]; [by left|].
    apply interp_framed; [done|apply leaving_accept|done].
  - intros a l Hi [Hp Hl] Ha Hn. split; [by apply K2|]. by apply leaving_ready.
  - intros a l Hi [Hp Hl] Ha. split; [by apply K3|]. by apply leaving_ready.
  - intros t a l Hi [Hp Hl] Ha. split; [by apply K4|]. unfold sweep.
    destruct (who a); [done..| |]; apply leaving_callback; try done; right; exists t; auto.
  - done.
  - intros l Hi [Hp Hl]. split; [by apply K6|]. by apply close_framed.
Qed.

(** *** The sweep finds it *)

Lemma exec_world (l : Loop) c : not_add c -> world (exec l c) = world l.
Proof. destruct c; cbn; [done|intros _|done]. unfold update. by repeat case_match. Qed.
Lemma exec_all_world cmds (l : Loop) : Forall not_add cmds -> world (foldl exec l cmds) = world l.
Proof. intros Hn. revert l. induction Hn as [|c cmds Hc _ IH]; intros l; cbn; [done|]. by rewrite IH, exec_world. Qed.

Lemma sweep_world t a l :
  world (interp (sweep t a) l) =
  match who a with
  | Client i => step i (HttpSweep t) (world l)
  | Upstream i => step i (BackSweep t) (world l)
  | _ => world l
  end.
Proof.
  assert (forall i ev, world (interp (callback false i ev) l) = step i ev (world l)) as Hc.
  { intros i ev. unfold callback. cbn [interp]. rewrite exec_all_world; [done|]. unfold asks. case_match; [done|].
    by repeat apply Forall_app_2; auto using changes_not_add. }
  unfold sweep. by destruct (who a).
Qed.

Lemma step_other i j ev w : i <> j -> pairs (step j ev w) !! i = pairs w !! i.
Proof.
  intros Hne. unfold step, deliver. destruct (crashed w); [done|]. destruct (pairs w !! j); [|done].
  destruct (handle _ _ _) as [|[[] h']]; [done|]. cbn. by rewrite lookup_insert_ne.
Qed.

(** Its own [check_timeout]. *)
Lemma sweep_idle i h t l :
  pinv l -> pairs (world l) !! i = Some h -> http_alive h = true -> 0 < timeout_ ->
  timeout_ * second < t - last_activity_ (http h) ->
  leaving i (step i (HttpSweep t) (world l)).
Proof.
  intros Hp Hh Ha Ht Hidle. unfold step. destruct (crashed (world l)) eqn:Hc; [by left|].
  destruct (pi_sound _ _ Hp Hc i h Hh) as [Hlt Hal]. unfold deliver. rewrite Hh.
  destruct (handle i (HttpSweep t (answer i (world l))) h) as [f|[[] h']] eqn:Hr; [by left|right].
  exists h'. cbn. rewrite lookup_insert_eq. split_and!; [done..|]. left. revert Hr.
  unfold hhandle, rbind at 1, rgets. rewrite Ha. cbn [rwhen]. unfold rbind at 1, rmodify, http_check_timeout.
  assert ((timeout_ <=? 0) = false) as -> by (apply Z.leb_gt; lia).
  unfold rbind at 1, hget, rgets. cbn [http].
  assert ((timeout_ * second <? t - last_activity_ (http h)) = true) as Hlt' by by apply Z.ltb_lt.
  cbn. rewrite Hlt'. cbn [rwhen]. unfold close_both, rbind at 1, hget, rgets. cbn.
  destruct (closed_ (http h)) eqn:Hcl.
  - intros [= <-]. cbn. apply alone_pair in Hal as (n & req & kx & H & _). by apply (b_closed _ _ _ _ _ _ _ H).
  - unfold rbind, hset, rmodify, hget, rgets, rwhen, deref_backend, bset, rret, rfault. cbn.
    destruct (backend_ (http h)) eqn:Hb; cbn; rewrite ?Hb; [|by intros [= <-]].
    destruct (back_alive h); by intros [= <-].
Qed.

Lemma address_who a : address (who a) = a.
Proof.
  destruct a as [|[|n]]; [done..|]. unfold who. pose proof (Nat.div2_odd n) as Hn. rewrite <- Nat.negb_even in Hn.
  destruct (Nat.even n); cbn [negb Nat.b2n] in Hn; unfold address; lia.
Qed.

Lemma sweep_reaches now table addrs l l' i h :
  inv l -> pinv l -> pairs (world l) !! i = Some h -> http_alive h = true -> 0 < timeout_ ->
  timeout_ * second < now - last_activity_ (http h) ->
  Forall (fun a => who a <> Upstream i) addrs -> address (Client i) ∈ addrs ->
  sweep_loop now table addrs l = Some l' -> leaving i (world l').
Proof.
  intros Hi Hp Hh Ha Ht Hidle Hup Hin. revert l Hi Hp Hh. induction addrs as [|a addrs IH]; intros l Hi Hp Hh; [by apply not_elem_of_nil in Hin|].
  apply Forall_cons in Hup as [Hua Hup]. cbn [sweep_loop]. unfold call at 1. destruct (alive l a); [|done].
  cbn [mbind option_bind]. case_decide as Htab; [|done].
  change (check_timeout now a) with (sweep now a).
  assert (inv (interp (sweep now a) l)) as Hi1 by by apply interp_later.
  assert (pinv (interp (sweep now a) l)) as Hp1 by by apply sweep_pinv.
  destruct (decide (who a = Client i)) as [Hw|Hw].
  - intros Hs. assert (leaving i (world (interp (sweep now a) l))) as Hl.
    { rewrite sweep_world, Hw. by apply sweep_idle with h. }
    by destruct (sweep_kept _ (leaving_kept i) now table addrs _ l' Hi1 (conj Hp1 Hl) Hs).
  - apply IH; [done| |done..|].
    + apply elem_of_cons in Hin as [Hin|?]; [|done]. destruct Hw. by rewrite <- Hin, who_address.
    + rewrite sweep_world. destruct (who a) as [| |j|j]; [done..| |]; rewrite step_other; try done; congruence.
Qed.

Lemma dispatch_timer l :
  0 < timeout_ -> alive l (address Sweeper) = true ->
  dispatch (EPOLLIN, Some (address Sweeper)) l = sweep_timeouts l.
Proof.
  intros Ht Ha. assert (timer = Some (address Sweeper)) as Htm by (cbn; by rewrite (proj2 (Z.ltb_lt _ _) Ht)).
  unfold dispatch. change (negb (Z.land EPOLLIN (Z.lor EPOLLERR EPOLLHUP) =? 0)) with false.
  change (negb (Z.land EPOLLIN EPOLLIN =? 0)) with true. change (negb (Z.land EPOLLIN EPOLLOUT =? 0)) with false.
  cbv iota. unfold readable. rewrite decide_True, Ha by done. by destruct (sweep_timeouts l).
Qed.

Lemma timer_leaving l l' i h :
  inv l -> pinv l -> pairs (world l) !! i = Some h -> http_alive h = true -> back_alive h = false -> 0 < timeout_ ->
  timeout_ * second < clock (calls (world l)) - last_activity_ (http h) ->
  sweep_timeouts l = Some l' -> leaving i (world l').
Proof.
  intros Hi Hp Hh Ha Hb Ht Hidle Hs. unfold sweep_timeouts in Hs.
  destruct (crashed (world l)) eqn:Hc.
  { by destruct (sweep_kept _ (leaving_kept i) _ _ _ _ l' Hi (conj Hp (or_introl Hc)) Hs). }
  pose proof (pi_table _ _ Hp Hc) as Htab.
  assert (object (world l) (Client i) = Some (http_mask h, http_closing h)) as Ho by (cbn; rewrite Hh; cbn; unfold http_object; by rewrite Ha).
  eapply sweep_reaches; [exact Hi|exact Hp|exact Hh|exact Ha|exact Ht|exact Hidle| | |exact Hs].
  - apply Forall_forall. intros a ([f b] & -> & Hf%elem_of_map_to_list)%list_elem_of_fmap Hw. cbn in Hw.
    apply (inv_epoll _ Hi) in Hf as [ev Hf]. apply (t_epoll _ _ _ Htab) in Hf. rewrite Hw in Hf. cbn in Hf. rewrite Hh in Hf.
    cbn in Hf. unfold back_object in Hf. rewrite Hb in Hf. by destruct Hf as [|[|[]]].
  - apply list_elem_of_fmap. exists (fd_of (Client i), address (Client i)). split; [done|].
    apply elem_of_map_to_list. by eapply tabled_handler.
Qed.

Lemma leaving_gone l i :
  inv l -> pinv l -> pending_close_ l = ∅ -> leaving i (world l) -> crashed (world l) = false ->
  (exists h, pairs (world l) !! i = Some h /\ http_alive h = false) /\ known l (Client i) None.
Proof.
  intros Hi Hp Hpc [?|(h & Hh & _ & Hg)] Hc; [congruence|]. pose proof (pi_table _ _ Hp Hc) as Ht. rewrite Hpc in Ht.
  assert (object (world l) (Client i) = http_object h) as Ho by (cbn; by rewrite Hh).
  assert (http_alive h = false) as Hal.
  { destruct Hg as [Hg|]; [|done]. apply not_true_iff_false. intros Ha. unfold http_object in Ho. rewrite Ha in Ho.
    apply (tabled_open _ _ _ _ _ Ht) in Ho. congruence. }
  split; [by exists h|]. replace None with (object (world l) (Client i)) by (rewrite Ho; unfold http_object; by rewrite Hal).
  by eapply tabled_known.
Qed.

(** ** Properties *)

(** C8: connections do not disturb each other. A worker that serves any number of clients,
    whatever they and their backends do and in whatever order the kernel reports it, with
    descriptors reused as they are closed, has no connection in a state it could not have
    reached alone: each pair is the result of a run of its own, to which the theorems on one
    connection apply. The loop owns and watches exactly the objects that live, with the
    events they asked for. The counters of the status page and of the cap are the number of
    clients that live, on 64 bits, and that number never passes [--max-conn]. Only a failed
    write to some backend brings the program down. *)
Theorem connections_isolated rs rl max wait n :
  in_u 64 max -> (forall j l, inv l -> delivered l (wait j l)) ->
  exists l, run wait n 0 (serving (new_proxy rs rl max)) = Some l /\
    (crashed (world l) = true -> exists k, WriteFail ∈ e_write (answers k)) /\
    (crashed (world l) = false ->
       counted (world l) /\
       forall i h, pairs (world l) !! i = Some h ->
         (exists evs t, alone_run i evs (accepted t) = inr (tt, h)) /\ coherent h /\
         known l (Client i) (http_object h) /\ known l (Upstream i) (back_object h)).
Proof.
  intros Hmax Hw. destruct (run_pinv rs rl max wait n Hmax Hw) as (l & Hr & Hi & Hp & Hpc).
  exists l. split_and!; [done|apply Hp|]. intros Hc. split; [by apply Hp|]. intros i h Hh. destruct (settled_pair l i h Hi Hp Hpc Hc Hh) as ((evs & t & _ & Ha) & H). split; [by exists evs, t|done].
Qed.

(** C9: idle connections are reclaimed. When the timer rings, a client that has no backend
    connection, be it in the middle of its request head, and has been silent for longer than
    the timeout, is gone at the end of the turn and its descriptor forgotten, whatever else
    the batch holds, unless a failed write to some other backend has brought the program
    down. *)
Theorem idle_client_swept rs rl max wait n l evs1 evs2 mid i h l' :
  in_u 64 max -> (forall j l, inv l -> delivered l (wait j l)) -> run wait n 0 (serving (new_proxy rs rl max)) = Some l ->
  0 < timeout_ -> delivered l (evs1 ++ (EPOLLIN, Some (address Sweeper)) :: evs2) ->
  dispatch_all evs1 l = Some mid ->
  pairs (world mid) !! i = Some h -> http_alive h = true -> back_alive h = false ->
  timeout_ * second < clock (calls (world mid)) - last_activity_ (http h) ->
  turn (evs1 ++ (EPOLLIN, Some (address Sweeper)) :: evs2) l = Some l' ->
  crashed (world l') = true \/
  ((exists h', pairs (world l') !! i = Some h' /\ http_alive h' = false) /\ known l' (Client i) None).
Proof.
  intros Hmax Hw Hrun Ht Hd Hmid Hh Ha Hb Hidle Hturn.
  destruct (run_pinv rs rl max wait n Hmax Hw) as (l0 & Hr0 & Hi & Hp & _). rewrite Hrun in Hr0. injection Hr0 as <-.
  pose proof (delivered_alive _ _ Hi Hd) as Hal. apply Forall_app in Hal as [Hal1 [Hal0 Hal2]%Forall_cons].
  destruct (turn_spec _ l Hi Hd) as (l2 & l3 & Hall & [Hi2 _] & Ht3 & Hi3 & Hpc & _).
  rewrite Ht3 in Hturn. injection Hturn as <-.
  destruct (dispatch_all_later evs1 l Hi) as (m & Hm & Hl1); [by apply Forall_app in Hd as []|].
  rewrite Hmid in Hm. injection Hm as <-. rewrite dispatch_all_app, Hmid in Hall. cbn [mbind option_bind dispatch_all] in Hall.
  assert (pinv mid) as Hpm.
  { eapply (dispatch_all_kept _ pinv_kept evs1 l l); [done|by apply later_refl|done..]. }
  assert (alive mid (address Sweeper) = true) as Hsw by (eapply later_alive; [exact Hi|exact Hl1|by apply Hal0]).
  destruct (dispatch_later (EPOLLIN, Some (address Sweeper)) mid (proj1 Hl1)) as (l1 & Hs & Hl2).
  { by intros a [= <-]. }
  pose proof (dispatch_kept _ pinv_kept _ _ _ (proj1 Hl1) Hpm Hs) as Hp1.
  rewrite Hs in Hall. cbn [mbind option_bind] in Hall. rewrite dispatch_timer in Hs by done.
  pose proof (timer_leaving mid l1 i h (proj1 Hl1) Hpm Hh Ha Hb Ht Hidle Hs) as Hleave.
  destruct (dispatch_all_kept _ (leaving_kept i) evs2 l l1 l2 Hi (later_trans _ _ _ Hl1 Hl2) (conj Hp1 Hleave) Hal2 Hall) as [Hp2 Hleave2].
  unfold turn in Ht3. rewrite dispatch_all_app, Hmid in Ht3. cbn [mbind option_bind dispatch_all] in Ht3.
  rewrite dispatch_timer, Hs in Ht3 by done. cbn [mbind option_bind] in Ht3. rewrite Hall in Ht3. injection Ht3 as <-.
  destruct (kept_close _ (leaving_kept i) l2 Hi2 (conj Hp2 Hleave2)) as [Hp3 Hleave3].
  destruct (crashed (world (process_pending_close l2))) eqn:Hc; [by left|right]. by apply leaving_gone.
Qed.
End Server.

(** ** A worker, run *)

(** What the kernel reports, of a schedule: the handlers that are registered. *)
Definition reported {W} `{EventHandler W} (schedule : list (list (Z * party))) (j : nat) (l : EventLoop W) : list (Z * option nat) :=
  omap (fun '(ev, p) => if decide (address p ∈ (map_to_list (epoll l)).*2.*2) then Some (ev, Some (address p)) else None)
    (default [] (schedule !! j)).
Lemma reported_delivered {W} `{EventHandler W} schedule j (l : EventLoop W) : delivered l (reported schedule j l).
Proof.
  apply Forall_forall. intros ev ([m p] & _ & Hev)%list_elem_of_omap. case_decide as Hin; [|done]. injection Hev as <-. cbn.
  apply list_elem_of_fmap in Hin as ([ev a] & Ha & ([f [ev' a']] & Hb & Hf%elem_of_map_to_list)%list_elem_of_fmap).
  cbn in *. simplify_eq. by exists f, ev'.
Qed.

(** The third client is given the descriptor of the first. *)
Definition demo_fd (p : party) : Z := match p with Client 2 => 12 | p => 10 + Z.of_nat (address p) end.
Definition demo_request_env (body : bytes) : env := mk_env [IoOk] [(IoOk, demo_head ++ body)] [] [] [] Connecting false.
Definition demo_answers (k : nat) : env :=
  let quiet := mk_env [] [] [] [] [] NoSocket false in
  nth k
    [demo_request_env (lit "first"); demo_request_env (lit "secon");           (* two requests *)
     mk_env [] [] [] [] [Wrote 1000] NoSocket false; mk_env [] [] [] [] [Wrote 1000] NoSocket false;
     mk_env [] [] [(IoOk, 100%nat)] [ReadBytes (lit "one"); ReadBytes []] [] NoSocket false;  (* two responses *)
     mk_env [] [] [(IoOk, 100%nat)] [ReadBytes (lit "two")] [] NoSocket false]
    quiet.
(** Of the first three, the limiter, whose buckets hold two tokens, refuses the last; then
    [SSL_new] fails for one, and one is let in. *)
Definition demo_accepts : list accept_result :=
  [Accepted 42 1 0 true true; Accepted 42 2 1 true true; Accepted 42 3 0 true true; AcceptEnds;
   Accepted 43 4 0 false true; AcceptRetry; Accepted 43 5 2 true true].
Definition demo_limiter : option (@RateLimiter spec_float) := Some (new_limiter (b64_of_Z 2) (b64_of_Z 2) 0).
Definition demo_schedule : list (list (Z * party)) :=
  [[(EPOLLIN, Listener)]; [(EPOLLIN, Client 0); (EPOLLIN, Client 1)]; [(EPOLLOUT, Upstream 0); (EPOLLOUT, Upstream 1)];
   [(EPOLLIN, Upstream 0); (EPOLLIN, Upstream 1)]; [(EPOLLIN, Listener)]].
Definition demo_clock (_ : nat) : Z := 100 * second.

#[local] Abbreviation demo_worker answers :=
  (proxy_server (D := spec_float) demo_fd answers demo_clock (fun _ => Z.of_nat) true demo_router 60 0 demo_probe 0 (lit "today") None).
#[local] Instance demo_proxy : EventHandler Proxy := demo_worker demo_answers.
#[local] Abbreviation demo_state := (new_proxy (D := spec_float) demo_accepts demo_limiter 100).
#[local] Abbreviation demo_start answers :=
  (serving (D := spec_float) demo_fd answers demo_clock (fun _ => Z.of_nat) true demo_router 60 0 demo_probe 0 (lit "today") None demo_state).

Example demo_two_clients :
  (fun l => (crashed (world l), (fun h => (client_sent h, http_alive h)) <$> pairs (world l), (snd <$> epoll l) !! 12,
             active_conn_count (world l), total_connections (world l))) <$>
    run (reported demo_schedule) 5 0 (demo_start demo_answers) =
  Some (false, {[0%nat := (lit "one", false); 1%nat := (lit "two", true); 2%nat := ([], true)]}, Some (address (Client 2)), 2, 3).
Proof. vm_compute. reflexivity. Qed.

Lemma demo_max : in_u 64 100.
Proof. by split. Qed.

Example connections_isolated_witness :
  in_u 64 100 /\ (forall j (l : EventLoop Proxy), inv l -> delivered l (reported demo_schedule j l)) /\
  exists l, run (reported demo_schedule) 5 0 (demo_start demo_answers) = Some l /\
    (crashed (world l) = true -> exists k, WriteFail ∈ e_write (demo_answers k)) /\
    (crashed (world l) = false ->
       counted (world l) /\
       forall i h, pairs (world l) !! i = Some h ->
         (exists evs t, hrun Z.of_nat (tokenize true) demo_router 60 0 demo_probe 0 (lit "today") None evs (accepted t) = inr (tt, h)) /\
         coherent h /\ known demo_fd l (Client i) (http_object h) /\ known demo_fd l (Upstream i) (back_object h)).
Proof.
  pose proof (fun j (l : EventLoop Proxy) (_ : inv l) => reported_delivered demo_schedule j l) as Hd.
  split; [exact demo_max|]. split; [exact Hd|].
  exact (connections_isolated demo_fd demo_answers demo_clock (fun _ => Z.of_nat) true demo_router 60 0 demo_probe 0 (lit "today")
           None demo_accepts demo_limiter 100 (reported demo_schedule) 5 demo_max Hd).
Defined.

(** A client that says nothing for 99 seconds. *)
Definition idle_schedule : list (list (Z * party)) := [[(EPOLLIN, Listener)]].
Abbreviation idle_batch := [(EPOLLIN, Some (address Sweeper))].
Example idle_client_swept_witness :
  exists l h l',
    run (reported idle_schedule) 1 0 (demo_start demo_answers) = Some l /\ in_u 64 100 /\ 0 < 60 /\ delivered l idle_batch /\
    pairs (world l) !! 1%nat = Some h /\ http_alive h = true /\ back_alive h = false /\
    60 * second < demo_clock (calls (world l)) - last_activity_ (http h) /\
    turn idle_batch l = Some l' /\ crashed (world l') = false /\
    (crashed (world l') = true \/
     ((exists h', pairs (world l') !! 1%nat = Some h' /\ http_alive h' = false) /\ known demo_fd l' (Client 1) None)).
Proof.
  destruct (run (reported idle_schedule) 1 0 (demo_start demo_answers)) as [l|] eqn:Hr; [|vm_compute in Hr; discriminate].
  assert (delivered l idle_batch) as Hd.
  { apply Forall_singleton. cbn. exists 11, EPOLLIN. vm_compute in Hr. injection Hr as <-. vm_compute. reflexivity. }
  assert (pairs (world l) !! 1%nat = Some (accepted 1)) as Hh by (vm_compute in Hr; injection Hr as <-; vm_compute; reflexivity).
  destruct (turn idle_batch l) as [l'|] eqn:Ht; [|vm_compute in Hr; injection Hr as <-; vm_compute in Ht; discriminate].
  exists l, (accepted 1), l'.
  split; [reflexivity|]. split; [exact demo_max|]. split; [reflexivity|]. split; [exact Hd|]. split; [exact Hh|].
  split; [reflexivity|]. split; [reflexivity|]. split; [reflexivity|]. split; [exact Ht|].
  split; [vm_compute in Hr; injection Hr as <-; vm_compute in Ht; injection Ht as <-; reflexivity|].
  exact (idle_client_swept demo_fd demo_answers demo_clock (fun _ => Z.of_nat) true demo_router 60 0 demo_probe 0 (lit "today")
           None demo_accepts demo_limiter 100 (reported idle_schedule) 1 l [] [] l 1%nat (accepted 1) l' demo_max
           (fun j l _ => reported_delivered idle_schedule j l) Hr eq_refl Hd eq_refl Hh eq_refl eq_refl eq_refl Ht).
Defined.

(** One failed write of one backend, and every client of the program is gone. *)
Definition broken_answers (k : nat) : env :=
  nth k
    [mk_env [IoOk] [(IoOk, demo_head ++ lit "he")] [] [] [] Connecting false;
     mk_env [IoOk] [(IoOk, lit "GET / HTTP/1.1")] [] [] [] NoSocket false;
     mk_env [] [] [] [] [Wrote 1000] NoSocket false]
    (mk_env [] [(IoOk, lit "l")] [] [] [WriteFail] NoSocket false).
Definition broken_schedule : list (list (Z * party)) :=
  [[(EPOLLIN, Listener)]; [(EPOLLIN, Client 0); (EPOLLIN, Client 1)]; [(EPOLLOUT, Upstream 0)]; [(EPOLLIN, Client 0)]].
Example one_write_fails_for_all :
  (fun l => crashed (world l)) <$>
    @run _ (demo_worker broken_answers) (@reported _ (demo_worker broken_answers) broken_schedule) 4 0 (demo_start broken_answers) =
  Some true.
Proof. vm_compute. reflexivity. Qed.
