(* ===== verification/ConnLimit.v ===== *)
(** * ConnLimit: the cap, with several workers

    src/src/net/conn_limit.h is one atomic counter for all worker threads. A listener reads it
    ([conn_slot_available]), and the constructor of a connection adds to it later: between
    the two, other workers do the same. Here the threads are interleaved, one step per access
    to the counter. A worker runs the close of a connection between two accepts, never
    within one. *)
From S2P Require Import Prelude.
Open Scope Z_scope.

(** Where a worker is: at the top of its accept loop, or past the check with a socket in hand. *)
Inductive spot := Idle | Cleared.
#[export] Instance spot_eq_dec : EqDecision spot.
Proof. solve_decision. Defined.

(** A worker, and how many connections it holds. *)
Record Worker := mk_worker { spot_of : spot; held : nat }.
(** The process: [active_conn_count], a [size_t], and the workers. *)
Record Cap := mk_cap { active_conn_count : Z; workers : list Worker }.

Section Cap.
Context (max_conn_limit : Z).                    (* size_t, 0 = unlimited *)

Definition conn_slot_available (c : Cap) : bool :=
  (max_conn_limit =? 0) || (active_conn_count c <? max_conn_limit).

(** The accesses of worker [k], each when the worker is where it makes it: the check of a
    socket accepted; the constructor; a factory that makes nothing; the destructor. *)
Inductive access := Check | Construct | Refuse | Destroy.
Definition act (k : nat) (a : access) (c : Cap) : option Cap :=
  w ← workers c !! k;
  let at_ s h n := Some (mk_cap n (<[k := mk_worker s h]> (workers c))) in
  match a, spot_of w with
  | Check, Idle => at_ (if conn_slot_available c then Cleared else Idle) (held w) (active_conn_count c)
  | Construct, Cleared => at_ Idle (S (held w)) (wrap_u 64 (active_conn_count c + 1))
  | Refuse, Cleared => at_ Idle (held w) (active_conn_count c)
  | Destroy, Idle =>
      match held w with
      | O => None
      | S h => at_ Idle h (wrap_u 64 (active_conn_count c - 1))
      end
  | _, _ => None
  end.

Inductive cap_step : Cap -> Cap -> Prop :=
  | step_act k a c c' : act k a c = Some c' -> cap_step c c'.
Definition started (n : nat) : Cap := mk_cap 0 (replicate n (mk_worker Idle 0)).
Definition cap_reachable (n : nat) (c : Cap) : Prop := rtc cap_step (started n) c.

(** ** The invariant *)

(** The connections that exist, and those about to: each worker past its check has one. *)
Definition total (ws : list Worker) : nat := sum_list (held <$> ws).
Definition cleared (w : Worker) : nat := match spot_of w with Cleared => 1 | Idle => 0 end.
Definition coming (ws : list Worker) : nat := sum_list (cleared <$> ws).

Lemma sum_insert (f : Worker -> nat) ws k w w' :
  ws !! k = Some w -> (sum_list (f <$> <[k := w']> ws) + f w = sum_list (f <$> ws) + f w')%nat.
Proof.
  intros Hk. rewrite list_fmap_insert, <- (take_drop_middle (f <$> ws) k (f w)) by by rewrite list_lookup_fmap, Hk.
  assert (length (take k (f <$> ws)) = k) as Hl by (rewrite length_take, length_fmap; apply lookup_lt_Some in Hk; lia).
  rewrite insert_app_r_alt by lia. rewrite Hl, Nat.sub_diag. cbn. rewrite !sum_list_with_app. cbn. lia.
Qed.
Lemma coming_bound ws : (coming ws <= length ws)%nat.
Proof. unfold coming, cleared. induction ws as [|[[] h] ws IH]; cbn in *; lia. Qed.

Record cap_inv (n : nat) (c : Cap) : Prop := {
  ci_workers : length (workers c) = n;
  ci_count : active_conn_count c = wrap_u 64 (Z.of_nat (total (workers c)));
  ci_cap : max_conn_limit = 0 \/ Z.of_nat (total (workers c) + coming (workers c)) <= max_conn_limit + Z.of_nat n - 1
}.

Lemma cap_step_inv n c c' :
  in_u 64 (max_conn_limit + Z.of_nat n) -> cap_inv n c -> cap_step c c' -> cap_inv n c'.
Proof.
  intros Hin Hi Hs. destruct Hs as [k a c0 c1 Ha], Hi as [Hn Hc Hcap]. unfold act in Ha. destruct (workers c0 !! k) as [w|] eqn:Hk; [|done]. cbn in Ha.
  pose proof (lookup_lt_Some _ _ _ Hk) as Hlt.
  assert (forall s h, (total (<[k := mk_worker s h]> (workers c0)) + held w = total (workers c0) + h)%nat) as Ht
    by (intros; by apply sum_insert).
  assert (forall s h, (coming (<[k := mk_worker s h]> (workers c0)) + cleared w = coming (workers c0) + cleared (mk_worker s h))%nat) as Hm
    by (intros; by apply sum_insert).
  unfold cleared in Hm.
  destruct a, (spot_of w) eqn:Hs; try done.
  - injection Ha as <-. split; cbn [workers active_conn_count]; [by rewrite length_insert|..].
    + rewrite Hc. f_equal. specialize (Ht (if conn_slot_available c0 then Cleared else Idle) (held w)). lia.
    + specialize (Ht (if conn_slot_available c0 then Cleared else Idle) (held w)).
      pose proof (coming_bound (<[k := mk_worker (if conn_slot_available c0 then Cleared else Idle) (held w)]> (workers c0))) as Hb.
      rewrite length_insert in Hb. specialize (Hm (if conn_slot_available c0 then Cleared else Idle) (held w)). cbn in Hm.
      destruct (decide (max_conn_limit = 0)) as [?|Hne]; [by left|right]. destruct Hcap as [?|Hcap]; [done|].
      destruct (conn_slot_available c0) eqn:Hslot; [|lia].
      unfold conn_slot_available in Hslot. apply orb_true_iff in Hslot as [Hz|Hz]; bool_to_prop; [done|].
      rewrite Hc, wrap_u_id in Hz; [lia|]. unfold in_u in *. lia.
  - injection Ha as <-. specialize (Ht Idle (S (held w))). specialize (Hm Idle (S (held w))). cbn in Hm.
    split; cbn [workers active_conn_count]; [by rewrite length_insert| |lia].
    rewrite Hc, wrap_succ. do 2 f_equal. lia.
  - injection Ha as <-. specialize (Ht Idle (held w)). specialize (Hm Idle (held w)). cbn in Hm.
    split; cbn [workers active_conn_count]; [by rewrite length_insert| |lia]. rewrite Hc. do 2 f_equal. lia.
  - destruct (held w) as [|h] eqn:Hh; [done|]. injection Ha as <-. specialize (Ht Idle h). specialize (Hm Idle h). cbn in Hm.
    split; cbn [workers active_conn_count]; [by rewrite length_insert| |lia].
    rewrite Hc. replace (total (workers c0)) with (S (total (<[k := mk_worker Idle h]> (workers c0)))) by lia. apply wrap_pred.
Qed.

Lemma started_inv n : 0 < Z.of_nat n -> 0 <= max_conn_limit -> cap_inv n (started n).
Proof.
  intros Hn Hm. assert (forall k, total (replicate k (mk_worker Idle 0)) = 0%nat /\ coming (replicate k (mk_worker Idle 0)) = 0%nat) as Hz.
  { induction k as [|k [H1 H2]]; [done|]. unfold total, coming in *. cbn. by rewrite H1, H2. }
  destruct (Hz n) as [H1 H2]. split; cbn [started workers active_conn_count]; [by rewrite length_replicate|by rewrite H1|].
  right. rewrite H1, H2. lia.
Qed.

(** ** Properties *)

(** C29: the cap on connections is soft, as documented, and no softer than this: with [n]
    workers that check and construct in any interleaving, the connections that exist never
    pass [--max-conn] by more than [n - 1], and the counter is exact. *)
Theorem soft_cap n c :
  (0 < n)%nat -> 0 < max_conn_limit -> in_u 64 (max_conn_limit + Z.of_nat n) -> cap_reachable n c ->
  Z.of_nat (total (workers c)) <= max_conn_limit + Z.of_nat n - 1 /\
  active_conn_count c = Z.of_nat (total (workers c)).
Proof.
  intros Hn Hm Hin Hr. assert (cap_inv n c) as [_ Hc Hcap].
  { unfold cap_reachable in Hr. revert c Hr. apply rtc_ind_r; [apply started_inv; lia|]. intros c c' _ Hs Hi. by eapply cap_step_inv. }
  destruct Hcap as [?|Hcap]; [lia|]. split; [lia|]. rewrite Hc. apply wrap_u_id. unfold in_u in *. lia.
Qed.
End Cap.

(** ** The bound is reached *)

Definition cap_run (max : Z) (l : list (nat * access)) (c : Cap) : option Cap :=
  foldl (fun c ka => c ← c; act max ka.1 ka.2 c) (Some c) l.
Lemma cap_run_rtc max l c c' : cap_run max l c = Some c' -> rtc (cap_step max) c c'.
Proof.
  unfold cap_run. revert c. induction l as [|[k a] l IH]; intros c; cbn; [intros [= ->]; apply rtc_refl|].
  destruct (act max k a c) as [c1|] eqn:Ha.
  - intros Hr. eapply rtc_l; [by eapply step_act|by apply IH].
  - intros Hr. exfalso. clear -Hr. induction l as [|ka l IH]; cbn in Hr; [done|by apply IH].
Qed.

(** Three workers see one free slot. *)
Abbreviation race := [(0%nat, Check); (1%nat, Check); (2%nat, Check); (2%nat, Construct); (0%nat, Construct); (1%nat, Construct)].
Example soft_cap_witness :
  exists c, cap_reachable 1 3 c /\ (0 < 3)%nat /\ 0 < 1 /\ in_u 64 (1 + Z.of_nat 3) /\ active_conn_count c = 3 /\
    Z.of_nat (total (workers c)) <= 1 + Z.of_nat 3 - 1 /\ active_conn_count c = Z.of_nat (total (workers c)).
Proof.
  destruct (cap_run 1 race (started 3)) as [c|] eqn:Hr; [|vm_compute in Hr; discriminate].
  assert (active_conn_count c = 3) as H3 by (vm_compute in Hr; injection Hr as <-; reflexivity).
  assert (0 < 3)%nat as H0 by lia. assert (in_u 64 (1 + Z.of_nat 3)) as Hin by by split.
  pose proof (cap_run_rtc 1 race (started 3) c Hr) as Hc. exists c. split; [exact Hc|]. split; [exact H0|]. split; [reflexivity|].
  split; [exact Hin|]. split; [exact H3|].
  exact (soft_cap 1 3 c H0 eq_refl Hin Hc).
Defined.
