(* ===== verification/EchoServer.v ===== *)
(** * EchoServer: the listener and the echo connections, on the reactor

    Models [Listener] of src/src/net/listener.{h,cpp}, the connection cap of
    src/src/net/conn_limit.h, and [EchoConnection] of src/src/net/echo_connection.{h,cpp},
    which is what castle serves without routes ([make_echo] of src/src/main.cpp). They
    are handlers of the loop of [Loop.v]. The results of the system calls to come are
    lists in the world; a call past the end of its list would block. *)
From Stdlib Require Import SpecFloat.
From S2P Require Import Prelude RateLimiter Loop.
Open Scope Z_scope.

Inductive read_result := Data (c : ascii) (d : bytes) | Eof | ReadAgain | ReadIntr | ReadFailed.
Inductive write_result := Wrote (n : nat) | WriteAgain | WriteIntr | WriteFailed.
(** [accept4]: the connection object to be, the peer's address, the limiter's clock and
    whether the kernel will register the socket. *)
Inductive accept_result :=
  | Accepted (addr : nat) (ipv4 : Z) (now : Z) (epoll_adds : bool)
  | AcceptAgain | AcceptIntr | AcceptAborted | AcceptFailed.

(** [got] and [sent] are ghosts: what was read from the peer and written to it. *)
Record EchoConnection := mk_echo {
  out_ : bytes; want_write_ : bool; closing_ : bool;
  got : bytes; sent : bytes
}.
#[export] Instance eta_EchoConnection : Eta EchoConnection := fun c =>
  mk_echo (out_ c) (want_write_ c) (closing_ c) (got c) (sent c).
Definition new_echo : EchoConnection := mk_echo [] false false [] [].

Definition EPOLLET : Z := 2 ^ 31.

Section Server.
Context {D : Type} `{Double D}.
Context (fd_of : nat -> Z) (listener : nat).

Record Server := mk_server {
  conns : gmap nat EchoConnection;
  limiter_ : option (@RateLimiter D);
  active_conn_count : Z;                   (* size_t *)
  max_conn_limit : Z;                      (* size_t, 0 = unlimited *)
  accepts : list accept_result;
  reads : list read_result;
  writes : list write_result;
  dropped : list nat;                      (* closed at accept *)
  made : list Z;                           (* ghost: the addresses let in *)
  active_connections : Z; total_connections : Z; bytes_in : Z; bytes_out : Z
}.
#[export] Instance eta_Server : Eta Server := fun s =>
  mk_server (conns s) (limiter_ s) (active_conn_count s) (max_conn_limit s) (accepts s) (reads s) (writes s) (dropped s) (made s)
    (active_connections s) (total_connections s) (bytes_in s) (bytes_out s).

Definition conn_slot_available (s : Server) : bool :=
  (max_conn_limit s =? 0) || (active_conn_count s <? max_conn_limit s).

(** ** [Listener::on_readable] *)

(** [factory_], that is [make_echo] and the constructor. *)
Definition make_echo (addr : nat) (s : Server) : Server :=
  s <| conns ::= <[addr := new_echo]> |>
    <| active_conn_count ::= (fun n => wrap_u 64 (n + 1)) |>
    <| active_connections ::= (fun n => wrap_u 64 (n + 1)) |>
    <| total_connections ::= (fun n => wrap_u 64 (n + 1)) |>.

(** [limiter_ && !limiter_->allow(ip)] is false: the limiter lets it in. *)
Definition let_in (ipv4 now : Z) (s : Server) : bool * Server :=
  match limiter_ s with
  | None => (true, s)
  | Some rl => let '(ok, rl) := allow rl ipv4 now in (ok, s <| limiter_ := Some rl |>)
  end.

(** One accepted socket: the world after it, and whether a connection was made. *)
Definition admit_one (addr : nat) (ipv4 now : Z) (s : Server) : Server * bool :=
  let '(ok, s) := let_in ipv4 now s in
  if negb ok then (s <| dropped ::= cons addr |>, false)
  else if negb (conn_slot_available s) then (s <| dropped ::= cons addr |>, false)
  else (make_echo addr (s <| made ::= cons ipv4 |>), true).

Fixpoint accept_loop (rs : list accept_result) : prog Server :=
  match rs with
  | [] => Ret
  | r :: rs =>
      let next := fun s : Server => s <| accepts := rs |> in
      let none := fun _ : Server => @nil cmd in
      match r with
      | Accepted addr ipv4 now epoll_adds =>
          Step (fun s => (admit_one addr ipv4 now (next s)).1)
            (fun s => if (admit_one addr ipv4 now (next s)).2 then [Add addr (Z.lor EPOLLIN EPOLLET) epoll_adds] else [])
            (fun _ => accept_loop rs)
      | AcceptIntr | AcceptAborted => Step next none (fun _ => accept_loop rs)
      | AcceptAgain | AcceptFailed => Step next none (fun _ => Ret)
      end
  end.
Definition listener_on_readable : prog Server := Step id (fun _ => []) (fun s => accept_loop (accepts s)).

(** ** [EchoConnection] *)

Definition with_conn (addr : nat) (f : EchoConnection -> EchoConnection) (s : Server) : Server :=
  s <| conns ::= alter f addr |>.
Definition conn (addr : nat) (s : Server) : EchoConnection := default new_echo (conns s !! addr).

(** [flush] past its loop: the connection, and what it asks of the loop. *)
Definition flushed_conn (off : nat) (c : EchoConnection) : EchoConnection :=
  let c' := c <| out_ := drop off (out_ c) |> in
  if decide (drop off (out_ c) = []) then
    if closing_ c then c' else c' <| want_write_ := false |>
  else c' <| want_write_ := true |>.
Definition flushed (addr : nat) (off : nat) : prog Server :=
  Step (with_conn addr (flushed_conn off))
    (fun s =>
       let c := conn addr s in
       if decide (drop off (out_ c) = []) then
         if closing_ c then [RequestClose (fd_of addr)]
         else if want_write_ c then [Update (fd_of addr) (Z.lor EPOLLIN EPOLLET)] else []
       else if want_write_ c then [] else [Update (fd_of addr) (Z.lor (Z.lor EPOLLIN EPOLLOUT) EPOLLET)])
    (fun _ => Ret).

Fixpoint flush_loop (addr : nat) (ws : list write_result) (off : nat) : prog Server :=
  match ws with
  | [] => flushed addr off
  | r :: ws =>
      let next := fun s : Server => s <| writes := ws |> in
      let none := fun _ : Server => @nil cmd in
      Step id none (fun s =>
        if (off <? length (out_ (conn addr s)))%nat then
          match r with
          | Wrote n =>
              let n := Nat.min (S n) (length (out_ (conn addr s)) - off) in
              Step (fun s => with_conn addr (fun c => c <| sent ::= (fun b => b ++ take n (drop off (out_ c))) |>) (next s)
                               <| bytes_out ::= (fun b => wrap_u 64 (b + Z.of_nat n)) |>)
                none (fun _ => flush_loop addr ws (off + n))
          | WriteIntr => Step next none (fun _ => flush_loop addr ws off)
          | WriteAgain => Step next none (fun _ => flushed addr off)
          | WriteFailed => Step next (fun _ => [RequestClose (fd_of addr)]) (fun _ => Ret)
          end
        else flushed addr off)
  end.
Definition flush (addr : nat) : prog Server := Step id (fun _ => []) (fun s => flush_loop addr (writes s) 0).

Fixpoint read_loop (addr : nat) (rs : list read_result) : prog Server :=
  match rs with
  | [] => flush addr
  | r :: rs =>
      let next := fun s : Server => s <| reads := rs |> in
      let none := fun _ : Server => @nil cmd in
      match r with
      | Data c d =>
          Step (fun s => with_conn addr (fun e => e <| out_ ::= (fun o => o ++ c :: d) |> <| got ::= (fun g => g ++ c :: d) |>) (next s)
                           <| bytes_in ::= (fun b => wrap_u 64 (b + Z.of_nat (length (c :: d)))) |>)
            none (fun _ => read_loop addr rs)
      | Eof => Step (fun s => with_conn addr (fun e => e <| closing_ := true |>) (next s)) none (fun _ => flush addr)
      | ReadAgain => Step next none (fun _ => flush addr)
      | ReadIntr => Step next none (fun _ => read_loop addr rs)
      | ReadFailed => Step next (fun _ => [RequestClose (fd_of addr)]) (fun _ => Ret)
      end
  end.

Definition echo_on_readable (addr : nat) : prog Server := Step id (fun _ => []) (fun s => read_loop addr (reads s)).
Definition echo_on_error (addr : nat) : prog Server := Step id (fun _ => [RequestClose (fd_of addr)]) (fun _ => Ret).

(** [~EchoConnection]; the listener has no destructor of its own. *)
Definition destroy_handler (addr : nat) (s : Server) : Server :=
  if decide (addr = listener) then s
  else s <| conns ::= delete addr |>
         <| active_conn_count ::= (fun n => wrap_u 64 (n - 1)) |>
         <| active_connections ::= (fun n => wrap_u 64 (n - 1)) |>.

#[export] Program Instance echo_server : EventHandler Server := {
  fd := fd_of;
  on_readable addr := if decide (addr = listener) then listener_on_readable else echo_on_readable addr;
  on_writable addr := if decide (addr = listener) then Ret else flush addr;
  on_error addr := if decide (addr = listener) then Ret else echo_on_error addr;
  check_timeout _ _ := Ret;
  destroy := destroy_handler;
  run_tasks := Ret;
  timer := None;
  sweep_time _ := 0
}.
Next Obligation. constructor. Qed.

(** ** The invariant *)

#[local] Abbreviation Loop := (EventLoop Server).

Definition mask (c : EchoConnection) : Z :=
  if want_write_ c then Z.lor (Z.lor EPOLLIN EPOLLOUT) EPOLLET else Z.lor EPOLLIN EPOLLET.

(** A connection that is not about to close: what was read is what was sent and what is
    left to send; it waits for [EPOLLOUT] exactly when something is left; one whose peer
    has finished has something left. *)
Record healthy (registered : option (Z * nat)) (a : nat) (c : EchoConnection) : Prop := {
  h_bytes : sent c ++ out_ c = got c;
  h_write : want_write_ c = true <-> out_ c <> [];
  h_closing : closing_ c = true -> out_ c <> [];
  h_mask : registered = Some (mask c, a)
}.
Definition settled (l : Loop) (a : nat) (c : EchoConnection) : Prop := fd_of a ∈ pending_close_ l \/ healthy (epoll l !! fd_of a) a c.

(** The sockets still to be accepted. *)
Definition new_addrs (rs : list accept_result) : list nat :=
  omap (fun r => match r with Accepted a _ _ _ => Some a | _ => None end) rs.

(** [ex] is the connection whose callback is running, if any. *)
Record sinv (ex : option nat) (l : Loop) : Prop := {
  s_conn : forall a c, conns (world l) !! a = Some c ->
    a <> listener /\ handlers_ l !! fd_of a = Some a /\ (Some a <> ex -> settled l a c);
  s_alive : forall f a, handlers_ l !! f = Some a -> a <> listener -> is_Some (conns (world l) !! a);
  s_count : active_conn_count (world l) = wrap_u 64 (Z.of_nat (size (conns (world l))));
  s_cap : max_conn_limit (world l) = 0 \/ Z.of_nat (size (conns (world l))) <= max_conn_limit (world l);
  s_max : in_u 64 (max_conn_limit (world l));
  s_new : NoDup (new_addrs (accepts (world l)));
  s_fresh : forall a, a ∈ new_addrs (accepts (world l)) -> a <> listener /\ conns (world l) !! a = None
}.

Lemma sinv_weaken a l : sinv None l -> sinv (Some a) l.
Proof. intros []. split; try done. intros b c Hb. destruct (s_conn0 b c Hb) as (? & ? & Hs). split_and!; auto. Qed.

Lemma sinv_settle a l c : sinv (Some a) l -> conns (world l) !! a = Some c -> settled l a c -> sinv None l.
Proof.
  intros [] Hc Hs. split; try done. intros b d Hb. destruct (s_conn0 b d Hb) as (? & ? & Hsb).
  split_and!; [done..|]. intros _. destruct (decide (b = a)) as [->|Hne]; [by simplify_eq|]. apply Hsb. congruence.
Qed.

(** The callback of [a] changes its own connection, and what no other depends on. *)
Lemma sinv_conn a l c c' w :
  sinv (Some a) l -> conns (world l) !! a = Some c ->
  conns w = <[a := c']> (conns (world l)) -> active_conn_count w = active_conn_count (world l) ->
  max_conn_limit w = max_conn_limit (world l) -> accepts w = accepts (world l) ->
  sinv (Some a) (l <| world := w |>).
Proof.
  intros [] Hc Hw Ha Hm Hr. split; cbn; rewrite ?Hw, ?Ha, ?Hm, ?Hr; try done.
  - intros b d. destruct (decide (b = a)) as [->|Hne].
    + intros _. destruct (s_conn0 a c Hc) as (? & ? & _). by split_and!.
    + rewrite lookup_insert_ne by done. apply s_conn0.
  - intros f b Hf Hb. destruct (decide (b = a)) as [->|Hne]; [by rewrite lookup_insert_eq|].
    rewrite lookup_insert_ne by done. by eapply s_alive0.
  - rewrite map_size_insert_Some by by exists c. done.
  - rewrite map_size_insert_Some by by exists c. done.
  - intros b Hb. destruct (s_fresh0 b Hb) as [? Hn]. split; [done|]. rewrite lookup_insert_ne; [done|]. congruence.
Qed.

Lemma sinv_close a l : sinv (Some a) l -> sinv None (request_close (fd_of a) l).
Proof.
  intros []. split; try done. intros b c Hb. destruct (s_conn0 b c Hb) as (? & ? & Hs). split_and!; [done..|].
  intros _. destruct (decide (b = a)) as [->|Hne]; [left; cbn; set_solver|].
  destruct Hs as [Hp|[]]; [congruence|left; cbn; set_solver|by right].
Qed.

Lemma sinv_update a l c m :
  inv l -> sinv (Some a) l -> conns (world l) !! a = Some c ->
  let l' := update (fd_of a) m l in
  sinv (Some a) l' /\ world l' = world l /\ pending_close_ l' = pending_close_ l /\
  epoll l' !! fd_of a = Some (m, a).
Proof.
  intros Hi Hs Hc l'. subst l'. destruct (s_conn _ _ Hs a c Hc) as (Hl & Hh & _).
  pose proof Hh as [m0 He]%(inv_epoll _ Hi). unfold update. rewrite Hh, bool_decide_eq_false_2 by by rewrite He.
  split_and!; [|done..|cbn; by rewrite lookup_insert_eq].
  destruct Hs. split; try done. intros b d Hb. destruct (s_conn0 b d Hb) as (Hbl & Hbh & Hsb). split_and!; [done..|].
  intros Hne. destruct (Hsb Hne) as [?|[]]; [by left|]. right. split; try done. cbn. rewrite lookup_insert_ne; [done|].
  intros Hf. rewrite Hf in Hh. congruence.
Qed.

(** ** Callbacks *)

(** The connection in the middle of [flush], [off] bytes of [out_] already sent. *)
Definition busy (l : Loop) (a : nat) (off : nat) (c : EchoConnection) : Prop :=
  fd_of a ∈ pending_close_ l \/
  (sent c ++ drop off (out_ c) = got c /\ (off <= length (out_ c))%nat /\ epoll l !! fd_of a = Some (mask c, a)).

Lemma conn_Some a s c : conns s !! a = Some c -> conn a s = c.
Proof. unfold conn. by intros ->. Qed.

Lemma alter_Some {A} (f : A -> A) (m : gmap nat A) a c : m !! a = Some c -> alter f a m = <[a := f c]> m.
Proof. intros H'. by rewrite <- alter_insert_eq, insert_id. Qed.

Lemma flushed_sinv a off l c :
  inv l -> sinv (Some a) l -> conns (world l) !! a = Some c -> busy l a off c -> sinv None (interp (flushed a off) l).
Proof.
  intros Hi Hs Hc Hb. unfold flushed. cbn [interp]. cbv zeta. rewrite (conn_Some _ _ _ Hc).
  set (f := flushed_conn off). set (w := with_conn a f (world l)).
  assert (conns w = <[a := f c]> (conns (world l))) as Hw by by apply alter_Some.
  pose proof (sinv_conn a l c (f c) w Hs Hc Hw eq_refl eq_refl eq_refl) as Hs1.
  set (l1 := l <| world := w |>) in *.
  assert (inv l1) as Hi1 by by apply with_world_inv.
  assert (conns (world l1) !! a = Some (f c)) as Hc1 by (change (conns w !! a = Some (f c)); by rewrite Hw, lookup_insert_eq).
  assert (forall m, fd_of a ∈ pending_close_ l1 \/ healthy (Some (m, a)) a (f c) ->
            sinv None (update (fd_of a) m l1)) as Hupd.
  { intros m Hm. destruct (sinv_update a l1 (f c) m Hi1 Hs1 Hc1) as (Hs2 & Hw2 & Hp2 & He2).
    eapply sinv_settle; [exact Hs2|by rewrite Hw2|]. unfold settled. by rewrite Hp2, He2. }
  destruct (decide (drop off (out_ c) = [])) as [Hd|Hd].
  - destruct (closing_ c) eqn:Hcl; [by apply sinv_close|].
    assert (f c = (c <| out_ := drop off (out_ c) |>) <| want_write_ := false |>) as Hf
      by (unfold f, flushed_conn; by rewrite decide_True, Hcl).
    destruct (want_write_ c) eqn:Hww; cbn [foldl exec].
    + apply Hupd. destruct Hb as [?|(Hg & _ & _)]; [by left|right]. rewrite Hf. split; cbn; [done| |by rewrite Hcl|done].
      rewrite Hd. split; [done|]. by intros [].
    + eapply sinv_settle; [exact Hs1|exact Hc1|]. destruct Hb as [?|(Hg & _ & He)]; [by left|right]. rewrite Hf.
      split; cbn; [done|rewrite Hd; split; [done|by intros []]|by rewrite Hcl|].
      rewrite He. unfold mask. cbn. by rewrite Hww.
  - assert (f c = (c <| out_ := drop off (out_ c) |>) <| want_write_ := true |>) as Hf
      by (unfold f, flushed_conn; by rewrite decide_False).
    destruct (want_write_ c) eqn:Hww; cbn [foldl exec].
    + eapply sinv_settle; [exact Hs1|exact Hc1|]. destruct Hb as [?|(Hg & _ & He)]; [by left|right]. rewrite Hf.
      split; cbn; [done|done|done|]. rewrite He. unfold mask. cbn. by rewrite Hww.
    + apply Hupd. destruct Hb as [?|(Hg & _ & _)]; [by left|right]. rewrite Hf. by split; cbn.
Qed.

(** The callback consumes the results of its system calls. *)
Lemma sinv_script ex l w :
  sinv ex l -> conns w = conns (world l) -> active_conn_count w = active_conn_count (world l) ->
  max_conn_limit w = max_conn_limit (world l) -> accepts w = accepts (world l) -> sinv ex (l <| world := w |>).
Proof. intros [] Hw Ha Hm Hr. by split; cbn; rewrite ?Hw, ?Ha, ?Hm, ?Hr. Qed.

Lemma busy_world l a off c w : busy l a off c -> busy (l <| world := w |>) a off c.
Proof. done. Qed.

Lemma flush_loop_sinv a ws off l c :
  inv l -> sinv (Some a) l -> conns (world l) !! a = Some c -> busy l a off c ->
  sinv None (interp (flush_loop a ws off) l).
Proof.
  revert off l c. induction ws as [|r ws IH]; intros off l c Hi Hs Hc Hb; cbn [flush_loop]; [by eapply flushed_sinv|].
  cbn [interp foldl]. cbv zeta. rewrite (conn_Some _ _ _ Hc). change (id (world l)) with (world l).
  assert (inv (l <| world := world l |>)) as Hi0 by by apply with_world_inv.
  assert (sinv (Some a) (l <| world := world l |>)) as Hs0 by by apply sinv_script.
  destruct (off <? length (out_ c))%nat eqn:Ho; [|by eapply flushed_sinv].
  bool_to_prop. destruct r as [n| | |]; cbn [interp foldl].
  - set (k := Nat.min (S n) (length (out_ c) - off)).
    eapply (IH _ _ (c <| sent ::= (fun b => b ++ take k (drop off (out_ c))) |>)).
    + by apply with_world_inv.
    + eapply sinv_conn; [exact Hs0|exact Hc| |done..]. cbn. by rewrite (alter_Some _ _ _ _ Hc).
    + cbn. by rewrite (alter_Some _ _ _ _ Hc), lookup_insert_eq.
    + destruct Hb as [?|(Hg & Hle & He)]; [by left|right]. split_and!; [|change (off + k <= length (out_ c))%nat; lia|done].
      change ((sent c ++ take k (drop off (out_ c))) ++ drop (off + k) (out_ c) = got c). by rewrite <- (assoc_L app), <- (drop_drop _ k off), take_drop.
  - by eapply flushed_sinv; [apply with_world_inv|apply sinv_script|exact Hc|].
  - by eapply IH; [apply with_world_inv|apply sinv_script|exact Hc|].
  - by apply sinv_close, sinv_script.
Qed.

Lemma flush_sinv a l c :
  inv l -> sinv (Some a) l -> conns (world l) !! a = Some c -> busy l a 0 c -> sinv None (interp (flush a) l).
Proof.
  intros Hi Hs Hc Hb. unfold flush. cbn [interp foldl].
  by eapply flush_loop_sinv; [apply with_world_inv|apply sinv_script|exact Hc|].
Qed.

Lemma read_loop_sinv a rs l c :
  inv l -> sinv (Some a) l -> conns (world l) !! a = Some c -> busy l a 0 c ->
  sinv None (interp (read_loop a rs) l).
Proof.
  revert l c. induction rs as [|r rs IH]; intros l c Hi Hs Hc Hb; cbn [read_loop]; [by eapply flush_sinv|].
  destruct r as [x d| | | |]; cbn [interp foldl].
  - eapply (IH _ ((c <| out_ ::= (fun o => o ++ x :: d) |>) <| got ::= (fun g => g ++ x :: d) |>)).
    + by apply with_world_inv.
    + eapply sinv_conn; [exact Hs|exact Hc| |done..]. cbn. by rewrite (alter_Some _ _ _ _ Hc).
    + cbn. by rewrite (alter_Some _ _ _ _ Hc), lookup_insert_eq.
    + destruct Hb as [?|(Hg & Hle & He)]; [by left|right]. cbn. split_and!; [|lia|done].
      rewrite !drop_0 in *. by rewrite (assoc_L app), Hg.
  - eapply (flush_sinv _ _ (c <| closing_ := true |>)).
    + by apply with_world_inv.
    + eapply sinv_conn; [exact Hs|exact Hc| |done..]. cbn. by rewrite (alter_Some _ _ _ _ Hc).
    + cbn. by rewrite (alter_Some _ _ _ _ Hc), lookup_insert_eq.
    + done.
  - by eapply flush_sinv; [apply with_world_inv|apply sinv_script|exact Hc|].
  - by eapply IH; [apply with_world_inv|apply sinv_script|exact Hc|].
  - by apply sinv_close, sinv_script.
Qed.

(** A slot is free only below the cap. *)
Lemma slot_below l :
  sinv None l -> conn_slot_available (world l) = true ->
  max_conn_limit (world l) = 0 \/ Z.of_nat (S (size (conns (world l)))) <= max_conn_limit (world l).
Proof.
  intros [] Hs. unfold conn_slot_available in Hs. apply orb_true_iff in Hs as [Hs|Hs]; bool_to_prop; [by left|].
  destruct s_cap0 as [?|Hc]; [by left|right]. destruct s_max0 as [_ Hm].
  rewrite s_count0, wrap_u_id in Hs; [lia|]. split; [lia|]. lia.
Qed.

Lemma make_echo_sinv addr adds l :
  inv l -> sinv None l -> conn_slot_available (world l) = true ->
  addr <> listener -> conns (world l) !! addr = None -> addr ∉ new_addrs (accepts (world l)) ->
  sinv None (add addr (Z.lor EPOLLIN EPOLLET) adds (l <| world := make_echo addr (world l) |>)).
Proof.
  intros Hi Hs Hslot Hal Hnone Hnew. pose proof (slot_below l Hs Hslot) as Hcap. destruct Hs. unfold add.
  destruct (adds && _) eqn:Hadd.
  - apply andb_true_iff in Hadd as [_ He%bool_decide_eq_true]. cbn in He.
    assert (handlers_ l !! fd_of addr = None) as Hh by by apply epoll_none.
    split; cbn; try done.
    + intros b c. destruct (decide (b = addr)) as [->|Hne].
      * rewrite lookup_insert_eq. intros [= <-]. split_and!; [done|by rewrite lookup_insert_eq|intros _; right].
        split; cbn; [done|split; [done|by intros []]|done|by rewrite lookup_insert_eq].
      * rewrite lookup_insert_ne by done. intros Hb. destruct (s_conn0 b c Hb) as (? & Hbh & Hsb).
        assert (fd_of addr <> fd_of b) as Hfd by (intros Hf; rewrite Hf in Hh; congruence).
        split_and!; [done|by rewrite lookup_insert_ne|]. intros _. destruct Hsb as [?|[]]; [done|by left|right].
        split; cbn; try done. by rewrite lookup_insert_ne.
    + intros f b. destruct (decide (f = fd_of addr)) as [->|Hne].
      * rewrite lookup_insert_eq. intros [= <-] _. by rewrite lookup_insert_eq.
      * rewrite lookup_insert_ne by done. intros Hb Hbl. destruct (decide (b = addr)) as [->|]; [by rewrite lookup_insert_eq|].
        rewrite lookup_insert_ne by done. by eapply s_alive0.
    + rewrite map_size_insert_None, s_count0 by done. apply wrap_succ.
    + by rewrite map_size_insert_None by done.
    + intros b Hb. destruct (s_fresh0 b Hb) as [? Hn]. split; [done|]. rewrite lookup_insert_ne; [done|]. by intros ->.
  - unfold kill. cbn. unfold destroy_handler. rewrite decide_False by done. cbn.
    assert (delete addr (<[addr := new_echo]> (conns (world l))) = conns (world l)) as Hdel
      by by rewrite delete_insert_eq, delete_id.
    split; cbn; rewrite ?Hdel; try done. by rewrite s_count0, wrap_succ, wrap_pred.
Qed.

(** What admission depends on, and leaves alone. *)
Definition same_server (s s' : Server) : Prop :=
  conns s' = conns s /\ active_conn_count s' = active_conn_count s /\ max_conn_limit s' = max_conn_limit s /\
  accepts s' = accepts s.

Lemma admit_one_cases addr ipv4 now s :
  (same_server s (admit_one addr ipv4 now s).1 /\ (admit_one addr ipv4 now s).2 = false) \/
  exists s0, same_server s s0 /\ conn_slot_available s0 = true /\ admit_one addr ipv4 now s = (make_echo addr s0, true).
Proof.
  unfold admit_one. assert (same_server s (let_in ipv4 now s).2) as Hs.
  { unfold let_in. destruct (limiter_ s) as [rl|]; [|done]. by destruct (allow rl ipv4 now). }
  destruct (let_in ipv4 now s) as [ok s1]. destruct ok; cbn; [|by left].
  destruct (conn_slot_available s1) eqn:Hslot; cbn; [right|by left]. by exists (s1 <| made ::= cons ipv4 |>).
Qed.

Lemma accept_loop_sinv rs l :
  inv l -> sinv None l -> accepts (world l) = rs -> sinv None (interp (accept_loop rs) l).
Proof.
  revert l. induction rs as [|r rs IH]; intros l Hi Hs Hr; cbn [accept_loop]; [done|].
  assert (NoDup (new_addrs (r :: rs)) /\ forall a, a ∈ new_addrs (r :: rs) -> a <> listener /\ conns (world l) !! a = None)
    as [Hnd Hfresh] by (rewrite <- Hr; split; apply Hs).
  assert (forall w, same_server ((world l) <| accepts := rs |>) w -> sinv None (l <| world := w |>)) as Hskip.
  { intros w (Hw & Ha & Hm & Hrs). cbn in *. destruct Hs. split; cbn; rewrite ?Hw, ?Ha, ?Hm, ?Hrs; try done.
    - destruct r; try done. by apply NoDup_cons in Hnd as [_ ?].
    - intros a Hin. apply Hfresh. destruct r; try done. by right. }
  destruct r as [addr ipv4 now adds| | | |]; cbn [interp foldl].
  2-5: try (by apply IH; [apply with_world_inv|apply Hskip|]); by apply Hskip.
  destruct (admit_one_cases addr ipv4 now ((world l) <| accepts := rs |>)) as [[Hsame Hno]|(s0 & Hsame & Hslot & Ha)].
  - rewrite Hno. apply IH; [by apply with_world_inv|by apply Hskip|]. by destruct Hsame as (_ & _ & _ & Hrs).
  - rewrite Ha. pose proof (Hskip s0 Hsame) as Hs0. apply NoDup_cons in Hnd as [Hnew _].
    destruct (Hfresh addr ltac:(by left)) as [Hal Hnone]. pose proof Hsame as (Hw & _ & _ & Hrs). cbn in Hw, Hrs.
    cbn [fst snd].
    apply IH; [exact (proj1 (run_cmds_later [_] l (make_echo addr s0) Hi))| |].
    + set (l0 := l <| world := s0 |>). assert (inv l0) as Hi0 by by apply with_world_inv.
      assert (conns (world l0) !! addr = None) as Hn0 by (change (conns s0 !! addr = None); by rewrite Hw).
      assert (addr ∉ new_addrs (accepts (world l0))) as Hnew0 by (change (addr ∉ new_addrs (accepts s0)); by rewrite Hrs).
      exact (make_echo_sinv addr adds l0 Hi0 Hs0 Hslot Hal Hn0 Hnew0).
    + cbn [foldl exec fst snd]. unfold add. destruct (adds && _); cbn; [done|]. unfold destroy_handler.
      by case_decide.
Qed.

(** ** The end of a turn *)

Lemma close_one_sinv l f : inv l -> sinv None l -> sinv None (close_one l f).
Proof.
  intros Hi []. unfold close_one. destruct (handlers_ l !! f) as [a0|] eqn:Hh.
  - pose proof (inv_fd _ Hi _ _ Hh) as Hf. unfold kill. cbn. unfold destroy_handler.
    assert (forall b c, b <> a0 -> conns (world l) !! b = Some c ->
      b <> listener /\ delete f (handlers_ l) !! fd_of b = Some b /\
      (fd_of b ∈ pending_close_ l \/ healthy (delete f (epoll l) !! fd_of b) b c)) as Hother.
    { intros b c Hne Hb. destruct (s_conn0 b c Hb) as (? & Hbh & Hsb).
      assert (f <> fd_of b) as Hfd by (intros Hfb; rewrite <- Hfb in Hbh; congruence).
      rewrite !lookup_delete_ne by done. split_and!; [done..|]. by apply Hsb. }
    destruct (decide (a0 = listener)) as [->|Hal]; cbn.
    + split; cbn; try done.
      * intros b c Hb. destruct (s_conn0 b c Hb) as (Hbl & _). destruct (Hother b c Hbl Hb) as (? & ? & ?).
        by split_and!.
      * intros g b Hg. apply lookup_delete_Some in Hg as [_ Hg]. by eapply s_alive0.
    + destruct (s_alive0 f a0 Hh Hal) as [c0 Hc0].
      destruct (size (conns (world l))) as [|n] eqn:Hn.
      { apply map_size_empty_inv in Hn. rewrite Hn in Hc0. by rewrite lookup_empty in Hc0. }
      assert (size (delete a0 (conns (world l))) = n) as Hsz by (rewrite map_size_delete_Some by (by exists c0); lia).
      split; cbn; try done.
      * intros b c Hb. apply lookup_delete_Some in Hb as [Hne Hb].
        destruct (Hother b c (not_eq_sym Hne) Hb) as (? & ? & ?). by split_and!.
      * intros g b Hg Hbl. apply lookup_delete_Some in Hg as [Hgf Hg]. rewrite lookup_delete_ne; [by eapply s_alive0|].
        intros <-. by rewrite (inv_fd _ Hi _ _ Hg), <- Hf in Hgf.
      * by rewrite s_count0, Hsz, wrap_pred.
      * rewrite Hsz. lia.
      * intros b Hb. destruct (s_fresh0 b Hb) as [? Hnone]. split; [done|]. apply lookup_delete_None. by right.
  - split; cbn; try done. intros b c Hb. destruct (s_conn0 b c Hb) as (? & Hbh & Hsb). split_and!; [done..|].
    intros _. destruct Hsb as [?|[]]; [done|by left|right]. split; cbn; try done. rewrite lookup_delete_ne; [done|].
    intros ->. congruence.
Qed.

Lemma process_pending_close_sinv l : inv l -> sinv None l -> sinv None (process_pending_close l).
Proof.
  intros Hi Hs. destruct (process_pending_close_spec l Hi) as (_ & _ & Hh). revert Hh.
  unfold process_pending_close.
  assert (forall fs l, inv l -> sinv None l -> sinv None (foldl close_one l fs) /\
            pending_close_ (foldl close_one l fs) = pending_close_ l) as Hfold.
  { clear. induction fs as [|f fs IH]; intros l Hi Hs; cbn [foldl]; [done|].
    destruct (IH (close_one l f) (close_one_inv _ _ Hi) (close_one_sinv _ _ Hi Hs)) as [H1 ->].
    split; [done|]. unfold close_one. by destruct (handlers_ l !! f). }
  destruct (Hfold (elements (pending_close_ l)) l Hi Hs) as [[] Hp]. cbn. intros Hh.
  split; cbn; try done. intros a c Ha. destruct (s_conn0 a c Ha) as (? & Hah & Hsa). split_and!; [done..|].
  intros _. right. destruct Hsa as [Hin|?]; [done| |done]. rewrite Hp in Hin.
  specialize (Hh (fd_of a)). rewrite decide_True in Hh by done. congruence.
Qed.

Lemma conn_of_alive a l :
  inv l -> sinv None l -> alive l a = true -> a <> listener ->
  exists c, conns (world l) !! a = Some c /\ busy l a 0 c.
Proof.
  intros Hi Hs Ha Hl. apply alive_spec in Ha; [|done]. destruct (s_alive _ _ Hs _ _ Ha Hl) as [c Hc]. exists c.
  split; [done|]. destruct (s_conn _ _ Hs a c Hc) as (_ & _ & Hst). destruct Hst as [?|[]]; [done|by left|right].
  rewrite drop_0. split_and!; [done|lia|done].
Qed.

Lemma sinv_kept : kept (sinv None).
Proof.
  split; cbn; try done.
  - intros a l Hi Hs Ha _. destruct (decide (a = listener)) as [|Hl].
    + unfold listener_on_readable. cbn [interp foldl].
      apply accept_loop_sinv; [by apply with_world_inv|by apply sinv_script|done].
    + destruct (conn_of_alive a l Hi Hs Ha Hl) as (c & Hc & Hb). unfold echo_on_readable. cbn [interp foldl].
      eapply read_loop_sinv; [by apply with_world_inv|apply sinv_script; [by apply sinv_weaken|done..]|exact Hc|done].
  - intros a l Hi Hs Ha _. destruct (decide (a = listener)) as [|Hl]; [done|].
    destruct (conn_of_alive a l Hi Hs Ha Hl) as (c & Hc & Hb).
    by eapply flush_sinv; [|apply sinv_weaken|exact Hc|].
  - intros a l Hi Hs _. destruct (decide (a = listener)); [done|]. unfold echo_on_error. cbn [interp foldl exec].
    apply sinv_close, sinv_script; [by apply sinv_weaken|done..].
  - intros l Hi Hs. by apply process_pending_close_sinv.
Qed.

(** The loop as [main] sets it up: the listener, and nothing accepted yet. *)
Definition serving (s : Server) : Loop := add listener (Z.lor EPOLLIN EPOLLET) true (mk_loop ∅ ∅ ∅ s [] []).

Record ready_to_serve (s : Server) : Prop := {
  rs_conns : conns s = ∅;
  rs_count : active_conn_count s = 0;
  rs_max : in_u 64 (max_conn_limit s);
  rs_new : NoDup (new_addrs (accepts s)) /\ listener ∉ new_addrs (accepts s)
}.

Lemma serving_inv s : inv (serving s).
Proof.
  unfold serving. apply add_inv. split; cbn; [|done|done]. intros f a. rewrite !lookup_empty. naive_solver.
Qed.

Lemma serving_sinv s : ready_to_serve s -> sinv None (serving s).
Proof.
  intros [Hc Hn Hm [Hd Hl]]. unfold serving, add. cbn.
  rewrite bool_decide_eq_true_2 by apply lookup_empty. split; cbn; rewrite ?Hc, ?Hn; try done.
  - intros f a Hf Ha. rewrite insert_empty in Hf. apply lookup_singleton_Some in Hf as [_ <-]. done.
  - right. rewrite map_size_empty. cbn. apply Hm.
  - intros a Ha. rewrite lookup_empty. split; [|done]. by intros ->.
Qed.

(** ** Properties *)

(** C35: the echo server echoes: whatever the peers do and however the system calls go, what
    was written to a client, followed by what is left to write, is exactly what was read
    from it; something is left exactly when the loop waits for [EPOLLOUT] on it, so output
    is neither stuck nor polled for in vain; a client that has finished is kept only while
    something is left to send. *)
Theorem echo_faithful s wait n :
  ready_to_serve s -> (forall j l, inv l -> delivered l (wait j l)) ->
  exists l', run wait n 0 (serving s) = Some l' /\
    forall a c, conns (world l') !! a = Some c -> healthy (epoll l' !! fd_of a) a c.
Proof.
  intros Hr Hw. destruct (run_total wait n 0 (serving s) (serving_inv s) Hw) as (l' & Hrun & Hi & Hp).
  exists l'. split; [done|]. intros a c Hc.
  assert (sinv None l') as Hs.
  { eapply run_kept; [apply sinv_kept|apply serving_inv|exact Hw|by apply serving_sinv|exact Hrun]. }
  destruct (s_conn _ _ Hs a c Hc) as (_ & _ & Hst). destruct Hst as [Hin|?]; [done| |done].
  rewrite Hp in Hin by done. set_solver.
Qed.

(** The counters and the cap: the process-wide count is the number of connections that
    exist, on 64 bits, through every accept, failed registration and close; and it never
    exceeds [--max-conn]. *)
Theorem cap_respected s wait n l' :
  ready_to_serve s -> (forall j l, inv l -> delivered l (wait j l)) ->
  run wait n 0 (serving s) = Some l' ->
  active_conn_count (world l') = wrap_u 64 (Z.of_nat (size (conns (world l')))) /\
  (max_conn_limit (world l') = 0 \/ Z.of_nat (size (conns (world l'))) <= max_conn_limit (world l')).
Proof.
  intros Hr Hw Hrun.
  assert (sinv None l') as []; [|by split].
  eapply run_kept; [apply sinv_kept|apply serving_inv|exact Hw|by apply serving_sinv|exact Hrun].
Qed.
End Server.

(** ** A server, run *)

(** Every handler is ready, for reading and for writing. *)
Definition all_ready {W} `{EventHandler W} (j : nat) (l : EventLoop W) : list (Z * option nat) :=
  (fun p => (Z.lor EPOLLIN EPOLLOUT, Some p.2.2)) <$> map_to_list (epoll l).
Lemma all_ready_delivered {W} `{EventHandler W} j (l : EventLoop W) : delivered l (all_ready j l).
Proof.
  apply Forall_fmap, Forall_forall. intros [f [ev a]] Hin%elem_of_map_to_list. cbn. by exists f, ev.
Qed.

#[local] Instance demo_server : EventHandler Server := echo_server (D := spec_float) Z.of_nat 3.
Definition demo_state : Server :=
  mk_server ∅ (Some (new_limiter (b64_of_Z 2) (b64_of_Z 2) 0)) 0 1
    [Accepted 7 2130706433 5 true; AcceptIntr; Accepted 8 2130706433 6 true; AcceptAgain]
    [Data "h" (lit "ello"); ReadAgain; Eof] [WriteIntr; Wrote 1; WriteAgain] [] [] 0 0 0 0.

Abbreviation demo_loop := (serving Z.of_nat 3 demo_state).
Example demo_echo_ex :
  (fun l => (map_to_list (conns (world l)), dropped (world l), pending_close_ l)) <$> run all_ready 2 0 demo_loop =
  Some ([(7%nat, mk_echo (lit "llo") true false (lit "hello") (lit "he"))], [8%nat], ∅).
Proof. vm_compute. reflexivity. Qed.

Lemma demo_ready : ready_to_serve 3 demo_state.
Proof.
  split; [done..|split; [done|reflexivity]|]. split; [|set_solver].
  apply NoDup_cons. split; [set_solver|]. apply NoDup_singleton.
Qed.
Lemma demo_inv : inv demo_loop.
Proof. apply serving_inv. Qed.

Example reactor_safe_witness :
  inv demo_loop /\ (forall j (l : EventLoop Server), inv l -> delivered l (all_ready j l)) /\
  exists l', run all_ready 3 0 demo_loop = Some l' /\ inv l'.
Proof.
  pose proof (fun j (l : EventLoop Server) (_ : inv l) => all_ready_delivered j l) as Hd.
  split; [exact demo_inv|]. split; [exact Hd|]. exact (reactor_safe all_ready 3 0 demo_loop demo_inv Hd).
Defined.

Example deferred_close_witness :
  inv demo_loop /\ delivered demo_loop (all_ready 0 demo_loop) /\
  exists mid l', dispatch_all (all_ready 0 demo_loop) demo_loop = Some mid /\
    turn (all_ready 0 demo_loop) demo_loop = Some l' /\ pending_close_ l' = ∅ /\
    (forall f a, handlers_ demo_loop !! f = Some a -> handlers_ mid !! f = Some a) /\
    forall f a, handlers_ mid !! f = Some a ->
      if decide (f ∈ pending_close_ mid) then handlers_ l' !! f = None /\ epoll l' !! f = None /\ alive l' a = false
      else handlers_ l' !! f = Some a.
Proof.
  split; [exact demo_inv|]. split; [exact (all_ready_delivered 0 demo_loop)|].
  exact (deferred_close (all_ready 0 demo_loop) demo_loop demo_inv (all_ready_delivered 0 demo_loop)).
Defined.

Example echo_faithful_witness :
  ready_to_serve 3 demo_state /\
  exists l', run all_ready 3 0 demo_loop = Some l' /\
    forall a c, conns (world l') !! a = Some c -> healthy (epoll l' !! Z.of_nat a) a c.
Proof.
  split; [exact demo_ready|].
  exact (echo_faithful Z.of_nat 3 demo_state all_ready 3 demo_ready (fun j l _ => all_ready_delivered j l)).
Defined.

Example cap_respected_witness :
  exists l', run all_ready 2 0 demo_loop = Some l' /\ ready_to_serve 3 demo_state /\
    active_conn_count (world l') = wrap_u 64 (Z.of_nat (size (conns (world l')))) /\
    (max_conn_limit (world l') = 0 \/ Z.of_nat (size (conns (world l'))) <= max_conn_limit (world l')).
Proof.
  destruct (run all_ready 2 0 demo_loop) as [l'|] eqn:Hr; [|vm_compute in Hr; discriminate].
  exists l'. split; [reflexivity|]. split; [exact demo_ready|].
  exact (cap_respected Z.of_nat 3 demo_state all_ready 2 l' demo_ready (fun j l _ => all_ready_delivered j l) Hr).
Defined.
