(* ===== verification/Gateway.v ===== *)
(** * Gateway: the rate limiter at the listeners

    [Listener] asks [RateLimiter] about every socket it accepts. The workers share one
    limiter (src/src/main.cpp): [front_step] interleaves them, one step to read the clock
    and one under the mutex, so that readings reach the limiter late and out of order;
    [connections_rate_limited] bounds what such a front lets in. Then one worker that has a
    limiter of its own is put together with the reactor, over a run of its loop
    ([one_worker_rate_limited]): what the limiter promises about calls of [allow] holds of the
    connections that come to exist. The limiter computes exactly here (the instance [exact] of
    [Double]): the rounding of the [double]s of the code is not covered. *)
From Stdlib Require Import QArith Lqa.
From S2P Require Import Prelude RateLimiter Loop EchoServer.
Open Scope Z_scope.

#[local] Arguments d_seconds : simpl never.

(** The connections made for the address [x]. *)
Definition admissions (x : Z) (made : list Z) : Q := inject_Z (Z.of_nat (length (filter (fun ip => ip = x) made))).

Lemma admissions_cons x ip l : (admissions x (ip :: l) == charged true ip x + admissions x l)%Q.
Proof.
  unfold admissions, charged. rewrite filter_cons. cbn [andb]. destruct (Z.eqb_spec ip x) as [->|Hne].
  - rewrite decide_True by done. cbn [length]. rewrite Nat2Z.inj_succ, <- Z.add_1_l, inject_Z_plus. reflexivity.
  - rewrite decide_False by done. symmetry. apply Qplus_0_l.
Qed.

(** ** Several workers, one limiter *)

(** A worker in [allow]: it has read the clock, and waits for the mutex. *)
Record waiting := mk_waiting { w_ip : Z; w_now : Z }.

(** Whether a call erases the full buckets, and whether it makes a bucket for its address. *)
Definition prunes (rl : @RateLimiter Q) (ip : Z) : bool := bool_decide (buckets_ rl !! ip = None) && table_full rl.
Definition starts_fresh (rl : @RateLimiter Q) (ip now : Z) : bool :=
  bool_decide (buckets_ rl !! ip = None) && negb (table_full (if table_full rl then prune_locked rl now else rl)).

(** The limiter, what [steady_clock] has reached, the workers inside [allow], the connections
    made. Two records for the statement below: the latest reading buckets were erased at, if
    any were; and the [late] buckets, made for an address with a reading that such an erasure
    had overtaken on its way to the mutex, each with how long before it the reading was. *)
Record Front := mk_front {
  front_limiter : @RateLimiter Q;
  clock : Z;
  asking : gmap nat waiting;
  front_made : list Z;
  pruned : option Z;
  late : list (Z * Z)
}.

(** The steps of worker [i]: [const auto now = steady_clock::now()], when the clock shows
    [t]; the rest of [allow], under the mutex, after which the listener makes a connection if
    there is [room] below the cap and the factory gives one. *)
Inductive front_action := ReadClock (i : nat) (ipv4 t : Z) | Locked (i : nat) (room : bool).
Definition front_step (a : front_action) (f : Front) : option Front :=
  match a with
  | ReadClock i ipv4 t =>
      if bool_decide (asking f !! i = None) && (clock f <=? t) then
        Some (mk_front (front_limiter f) t (<[i := mk_waiting ipv4 t]> (asking f)) (front_made f) (pruned f) (late f))
      else None
  | Locked i room =>
      w ← asking f !! i;
      let '(mk_waiting ip now) := w in
      let rl := front_limiter f in
      let '(ok, rl') := allow rl ip now in
      Some (mk_front rl' (clock f) (delete i (asking f))
              (if ok && room then ip :: front_made f else front_made f)
              (if prunes rl ip then Some (Z.max (default now (pruned f)) now) else pruned f)
              (if starts_fresh rl ip now && (now <? default now (pruned f)) then (ip, default now (pruned f) - now) :: late f
               else late f))
  end.
Fixpoint front_run (acts : list front_action) (f : Front) : option Front :=
  match acts with [] => Some f | a :: acts => f' ← front_step a f; front_run acts f' end.
Definition new_front (rate burst : Q) (t0 : Z) : Front := mk_front (new_limiter rate burst t0) t0 ∅ [] None [].

(** The time [x] earns twice by them, in nanoseconds. *)
Definition lag (x : Z) (l : list (Z * Z)) : Z := foldr (fun c n => if c.1 =? x then c.2 + n else n) 0 l.

Section Shared.
Open Scope Q_scope.
Context (rate burst : Q) (t0 x : Z).
Context (Hrate : 0 <= rate) (Hburst : 1 <= burst).
Abbreviation Bucket := (@RateLimiter.Bucket Q).
Abbreviation RateLimiter := (@RateLimiter.RateLimiter Q).

(** What the bucket earns up to a time. *)
Definition earned (t : Z) : Q := d_seconds (t - t0)%Z * rate.
(** What a bucket holds, but for what it has earned since [t0]: no call raises it, however
    late its reading. *)
Definition stock (b : Bucket) : Q := tokens b - earned (last_refill b).

Lemma earned_sub t1 t2 : d_seconds (t2 - t1)%Z * rate == earned t2 - earned t1.
Proof. unfold earned. rewrite (secs_sub t2 t1 t0). ring. Qed.
Lemma earned_mono t1 t2 : (t1 <= t2)%Z -> earned t1 <= earned t2.
Proof.
  intros Ht. pose proof (earned_sub t1 t2) as He. pose proof (Qmult_le_0_compat _ _ (secs_nonneg _ _ Ht) Hrate). lra.
Qed.

(** A bucket pays for what it lets in. *)
Lemma spend_stock rl b now :
  rate_ rl = rate -> burst_ rl = burst ->
  stock (spend rl b now).2 == d_min (burst - earned now) (stock b) - (if (spend rl b now).1 then 1 else 0) /\
  (- earned now <= stock (spend rl b now).2 \/ stock (spend rl b now).2 == stock b).
Proof.
  intros Hr Hb. unfold stock.
  assert (credit rl b now == d_min (burst - earned now) (tokens b - earned (last_refill b)) + earned now) as Hc.
  { unfold credit. rewrite Hr, Hb. pose proof (earned_sub (last_refill b) now) as He. unfold d_min. cbn.
    destruct (Qle_bool burst _) eqn:E1, (Qle_bool (burst - earned now) _) eqn:E2; cbn; try lra.
    - apply Qle_bool_iff in E1. apply not_true_iff_false in E2. rewrite Qle_bool_iff in E2. lra.
    - apply Qle_bool_iff in E2. apply not_true_iff_false in E1. rewrite Qle_bool_iff in E1. lra. }
  pose proof (d_min_l (burst - earned now) (tokens b - earned (last_refill b))).
  destruct (spend_cases rl b now) as [[Hge ->]|[Hlt ->]]; cbn [fst snd tokens last_refill]; (split; [lra|]).
  - left. lra.
  - assert (forall a b : Q, d_min a b = a \/ d_min a b = b) as Hmin by (intros; unfold d_min; case_match; auto).
    destruct (Hmin (burst - earned now) (tokens b - earned (last_refill b))) as [He|He]; rewrite He in *; [left|right]; lra.
Qed.

(** *** The potential of an address *)

(** What [x] can still draw on, [earned] set aside: its own bucket, or the fresh one it would
    get no sooner than at [p], the last time buckets were erased; and the shared overflow
    bucket. *)
Definition own_stock (rl : RateLimiter) (p : Z) : Q :=
  match buckets_ rl !! x with Some b => stock b | None => burst - earned p end.
Definition reserve (rl : RateLimiter) (p : Z) : Q := own_stock rl p + stock (overflow_ rl).

(** No bucket was drawn below what it had earned by [h]. *)
Record funded (h : Z) (rl : RateLimiter) : Prop := {
  fd_rate : rate_ rl = rate;
  fd_burst : burst_ rl = burst;
  fd_buckets : map_Forall (fun _ b => - earned h <= stock b) (buckets_ rl);
  fd_overflow : - earned h <= stock (overflow_ rl)
}.

Lemma spend_funded h rl b now :
  rate_ rl = rate -> burst_ rl = burst -> (now <= h)%Z -> - earned h <= stock b -> - earned h <= stock (spend rl b now).2.
Proof.
  intros Hr Hb Hn Hs. pose proof (earned_mono _ _ Hn). destruct (spend_stock rl b now Hr Hb) as [_ [?|?]]; lra.
Qed.

Lemma fresh_stock now : stock (mk_bucket (d_sub burst d_one) now) == burst - 1 - earned now.
Proof. unfold stock. cbn [tokens last_refill d_sub d_one exact]. lra. Qed.

Lemma allow_funded h rl ip now : (now <= h)%Z -> funded h rl -> funded h (allow rl ip now).2.
Proof.
  intros Hn [Hr Hb Hbs Ho]. unfold allow. destruct (buckets_ rl !! ip) as [b|] eqn:Hip.
  - pose proof (spend_funded h rl b now Hr Hb Hn (Hbs _ _ Hip)) as Hs. destruct (spend rl b now) as [ok b']. cbn in *.
    split; cbn; try done. by apply map_Forall_insert_2.
  - set (rl1 := if table_full rl then _ else rl).
    assert (funded h rl1) as [Hr1 Hb1 Hbs1 Ho1].
    { unfold rl1. case_match; [|done]. split; cbn; try done. intros k b Hk. apply map_lookup_filter_Some in Hk as [Hk _]. by eapply Hbs. }
    destruct (table_full rl1).
    + pose proof (spend_funded h rl1 _ now Hr1 Hb1 Hn Ho1) as Hs. destruct (spend rl1 _ now) as [ok b']. by split.
    + split; cbn; try done. apply map_Forall_insert_2; [|done]. rewrite Hb1, fresh_stock.
      pose proof (earned_mono _ _ Hn). lra.
Qed.

(** Erasing the full buckets takes nothing from the address. *)
Lemma own_stock_prune rl p now :
  rate_ rl = rate -> burst_ rl = burst -> own_stock (prune_locked rl now) (Z.max p now) <= own_stock rl p.
Proof.
  intros Hr Hb. unfold own_stock, prune_locked. cbn [buckets_]. rewrite map_lookup_filter.
  pose proof (earned_mono now (Z.max p now) ltac:(lia)) as H1. pose proof (earned_mono p (Z.max p now) ltac:(lia)) as H2.
  destruct (buckets_ rl !! x) as [b|]; cbn; [|lra]. case_guard as Hf; cbn; [lra|].
  apply not_false_is_true in Hf. unfold full_at in Hf. apply Qle_bool_iff in Hf.
  rewrite Hr, Hb in Hf. cbn [d_add d_mul exact] in Hf. pose proof (earned_sub (last_refill b) now) as He. unfold stock. lra.
Qed.

(** What a call lets in, the address pays for, out of what it holds or earns twice. *)
Lemma allow_reserve rl ip now p :
  rate_ rl = rate -> burst_ rl = burst ->
  reserve (allow rl ip now).2 (if prunes rl ip then Z.max p now else p) + charged (allow rl ip now).1 ip x
    <= reserve rl p + (if starts_fresh rl ip now && (now <? p)%Z then if (ip =? x)%Z then d_seconds (p - now)%Z * rate else 0 else 0).
Proof.
  intros Hr Hb. unfold reserve, prunes, starts_fresh, charged, allow.
  destruct (buckets_ rl !! ip) as [b|] eqn:Hip.
  - rewrite bool_decide_eq_false_2 by done. cbn [andb]. destruct (spend_stock rl b now Hr Hb) as [Hs _]. pose proof (d_min_r (burst - earned now) (stock b)).
    destruct (spend rl b now) as [ok b']. unfold own_stock. cbn [fst snd buckets_ overflow_] in *. rewrite lookup_insert.
    case_decide as Hx; [subst ip; rewrite Hip, Z.eqb_refl|apply Z.eqb_neq in Hx; rewrite Hx]; destruct ok; cbn [andb]; lra.
  - rewrite bool_decide_eq_true_2 by done. cbn [andb].
    set (p' := if table_full rl then Z.max p now else p).
    set (rl1 := if table_full rl then _ else rl).
    assert (rate_ rl1 = rate /\ burst_ rl1 = burst /\ overflow_ rl1 = overflow_ rl /\ buckets_ rl1 !! ip = None /\ 
            own_stock rl1 p' <= own_stock rl p) as (Hr1 & Hb1 & Ho & Hip1 & Hown).
    { unfold rl1, p'. destruct (table_full rl); split_and!; try done; [|by apply own_stock_prune|apply Qle_refl].
      cbn. by rewrite map_lookup_filter, Hip. }
    destruct (table_full rl1); cbn [negb andb].
    + destruct (spend_stock rl1 (overflow_ rl1) now Hr1 Hb1) as [Hs _]. rewrite Ho in *.
      pose proof (d_min_r (burst - earned now) (stock (overflow_ rl))).
      destruct (spend rl1 (overflow_ rl) now) as [ok o]. cbn [fst snd overflow_] in *.
      change (own_stock (mk_limiter _ _ (buckets_ rl1) o) p') with (own_stock rl1 p').
      destruct ok, (ip =? x)%Z; cbn [andb]; lra.
    + cbn [fst snd overflow_]. rewrite Ho. unfold own_stock in *. cbn [buckets_]. rewrite lookup_insert.
      case_decide as Hx; [|apply Z.eqb_neq in Hx; rewrite Hx; destruct (now <? p)%Z; cbn [andb]; lra].
      subst ip. rewrite Hip1 in Hown. rewrite Hb1, Z.eqb_refl, fresh_stock. cbn [andb]. rewrite Hip in *.
      destruct (Z.ltb_spec now p) as [Hl|Hl].
      * pose proof (earned_sub now p). lra.
      * pose proof (earned_mono _ _ Hl). lra.
Qed.

(** *** Over a run *)

Record paid_for (f : Front) : Prop := {
  pf_funded : funded (clock f) (front_limiter f);
  pf_start : (t0 <= clock f)%Z;
  pf_asking : map_Forall (fun _ w => (t0 <= w_now w <= clock f)%Z) (asking f);
  pf_pruned : if pruned f is Some p then (t0 <= p <= clock f)%Z else late f = [];
  pf_made : admissions x (front_made f) + reserve (front_limiter f) (default t0 (pruned f))
              <= 2 * burst + d_seconds (lag x (late f)) * rate
}.

Lemma funded_later h h' rl : (h <= h')%Z -> funded h rl -> funded h' rl.
Proof.
  intros Hh [Hr Hb Hbs Ho]. pose proof (earned_mono _ _ Hh). split; [done..| |lra].
  intros k b Hk. specialize (Hbs k b Hk). cbn in Hbs. lra.
Qed.

Lemma secs_add a b : d_seconds (a + b)%Z == @d_seconds Q _ a + d_seconds b.
Proof. replace (a + b)%Z with (a + b - 0)%Z by lia. rewrite (secs_sub (a + b) b 0), Z.sub_0_r. by replace (a + b - b)%Z with a by lia. Qed.

Lemma paid_for_new : paid_for (new_front rate burst t0).
Proof.
  assert (earned t0 == 0) as He by (unfold earned; rewrite secs_diag; ring).
  split; cbn; try done; try lia.
  - split; cbn; try done. unfold stock. cbn. lra.
  - unfold reserve, own_stock, stock. cbn. rewrite lookup_empty. change (admissions x []) with 0.
    rewrite !He. assert (@d_seconds Q _ 0%Z == 0) as -> by reflexivity. lra.
Qed.

Lemma paid_for_step a f f' : paid_for f -> front_step a f = Some f' -> paid_for f'.
Proof.
  intros [Hf Ht Has Hp Hm] Hs. destruct a as [i ip t|i room]; cbn [front_step] in Hs.
  - case_match eqn:Hc; [|done]. apply andb_true_iff in Hc as [_ Hc%Z.leb_le]. injection Hs as <-.
    split; cbn; [by eapply funded_later|lia| | |done].
    + apply map_Forall_insert_2; [cbn; lia|]. intros k w Hk. specialize (Has k w Hk). cbn in Has. lia.
    + destruct (pruned f); [lia|done].
  - destruct (asking f !! i) as [[ip now]|] eqn:Hi; [|done]. cbn in Hs. pose proof (Has _ _ Hi) as Hn. cbn in Hn.
    pose proof (allow_funded (clock f) _ ip now ltac:(lia) Hf) as Hf'. destruct Hf as [Hr Hb _ _].
    pose proof (allow_reserve _ ip now (default t0 (pruned f)) Hr Hb) as Hres.
    destruct (allow (front_limiter f) ip now) as [ok rl']. injection Hs as <-. cbn [fst snd] in *.
    assert (0 <= charged ok ip x /\ charged (ok && room) ip x <= charged ok ip x) as [Hc1 Hc2].
    { unfold charged. destruct ok, room, (ip =? x)%Z; cbn; split; discriminate. }
    assert (admissions x (if ok && room then ip :: front_made f else front_made f)
            == charged (ok && room) ip x + admissions x (front_made f)) as Had.
    { destruct (ok && room); [apply admissions_cons|unfold charged; cbn; ring]. }
    split; cbn [front_limiter clock asking front_made pruned late]; [done|lia|by apply map_Forall_delete| |rewrite Had].
    + destruct (prunes _ _), (pruned f); cbn; rewrite ?Z.ltb_irrefl, ?andb_false_r; (lia || done).
    + assert (@d_seconds Q _ (lag x ((ip, (default now (pruned f) - now)%Z) :: late f))
              == (if (ip =? x)%Z then d_seconds (default now (pruned f) - now)%Z else 0) + d_seconds (lag x (late f))) as Hlag.
      { cbn [lag foldr fst snd]. destruct (ip =? x)%Z; [apply secs_add|symmetry; apply Qplus_0_l]. }
      destruct (pruned f) as [p|]; cbn in *.
      * replace (default t0 _) with (if prunes (front_limiter f) ip then p `max` now else p)%Z by (by destruct (prunes _ _)).
        destruct (_ && (now <? p)%Z); [rewrite Hlag; destruct (ip =? x)%Z|]; lra.
      * replace (default t0 _) with (if prunes (front_limiter f) ip then t0 `max` now else t0)%Z
          by (destruct (prunes _ _); cbn; lia).
        rewrite Z.ltb_irrefl, andb_false_r. replace (now <? t0)%Z with false in Hres by lia.
        rewrite andb_false_r in Hres. lra.
Qed.

Lemma paid_for_run acts f f' : paid_for f -> front_run acts f = Some f' -> paid_for f'.
Proof.
  revert f. induction acts as [|a acts IH]; intros f Hf; cbn [front_run]; [by intros [= <-]|].
  destruct (front_step a f) as [f1|] eqn:Hs; [|done]. apply IH. by eapply paid_for_step.
Qed.
End Shared.

Section Gateway.
Context (fd_of : nat -> Z) (listener : nat).
#[local] Abbreviation Server := (@Server Q).
#[local] Instance server : EventHandler Server := echo_server fd_of listener.
Context (rate burst : Q) (t0 T x : Z).

(** The clock readings of the accepts to come: in order, from [t] and up to [T]. *)
Fixpoint times (t : Z) (rs : list accept_result) : Prop :=
  match rs with
  | [] => True
  | Accepted _ _ now _ :: rs => t <= now <= T /\ times now rs
  | _ :: rs => times t rs
  end.

(** What was let in is paid for by the time that has passed. *)
Definition paid (s : Server) : Prop :=
  exists rl t,
    limiter_ s = Some rl /\ wf rl t /\ rate_ rl = rate /\ t0 <= t <= T /\ times t (accepts s) /\
    (admissions x (made s) + potential rl x t <= 2 * burst + 2 * (d_seconds (t - t0)%Z * rate))%Q.

Lemma paid_ext s s' :
  limiter_ s' = limiter_ s -> made s' = made s -> accepts s' = accepts s -> paid s -> paid s'.
Proof. intros H1 H2 H3 (rl & t & H). exists rl, t. by rewrite H1, H2, H3. Qed.

Lemma paid_destroy a s : paid s -> paid (destroy a s).
Proof. unfold destroy. cbn. unfold destroy_handler. case_decide; [done|]. by apply paid_ext. Qed.

(** One accepted socket. *)
Lemma admit_one_paid addr ip now rs s :
  paid s -> accepts s = Accepted addr ip now true :: rs \/ accepts s = Accepted addr ip now false :: rs ->
  paid (admit_one addr ip now (s <| accepts := rs |>)).1.
Proof.
  intros (rl & t & Hl & Hwf & Hr & Ht & Htimes & Hle) Ha.
  assert (t <= now <= T /\ times now rs) as [[Hn HT] Hrs] by (destruct Ha as [Ha|Ha]; by rewrite Ha in Htimes).
  pose proof (wf_later rl t now Hn Hwf) as Hwfn. pose proof (potential_later rl x t now Hwf Hn) as Hlater.
  destruct (allow_potential rl ip x now Hwfn) as [Hwf' Hpot]. destruct (allow_params rl ip now) as [Hrate _].
  unfold admit_one, let_in. cbn. rewrite Hl. destruct (allow rl ip now) as [ok rl'] eqn:Hallow. cbn [fst snd] in *.
  assert (d_seconds (now - t0)%Z * rate == d_seconds (t - t0)%Z * rate + d_seconds (now - t)%Z * rate)%Q as Hs
    by (rewrite (secs_sub now t t0); ring).
  rewrite Hr in Hlater.
  assert (0 <= charged ok ip x)%Q as Hc by (unfold charged; destruct (_ && _); [done|apply Qle_refl]).
  destruct ok; cbn [negb]; [destruct (negb _)|]; cbn; exists rl', now; cbn.
  2: rewrite admissions_cons.
  all: split_and!; try done; try congruence; try lia; lra.
Qed.

Lemma accept_loop_paid rs (l : EventLoop Server) :
  paid (world l) -> accepts (world l) = rs -> paid (world (interp (accept_loop rs) l)).
Proof.
  revert l. induction rs as [|r rs IH]; intros l Hp Hr; cbn [accept_loop]; [done|].
  assert (match r with Accepted _ _ _ _ => True | _ => paid ((world l) <| accepts := rs |>) end) as Hskip.
  { destruct Hp as (rl & t & Hl & Hwf & Hrt & Ht & Htimes & Hle). rewrite Hr in Htimes.
    destruct r; try done; by exists rl, t. }
  destruct r as [addr ip now adds| | | |]; cbn [interp foldl]; try (by apply IH); try done.
  set (s' := (admit_one addr ip now ((world l) <| accepts := rs |>)).1).
  set (cmds := if _ : bool then _ else _).
  assert (paid s') as Hp' by (apply admit_one_paid; [done|]; rewrite Hr; by destruct adds; [left|right]).
  assert (accepts s' = rs) as Ha'.
  { destruct (admit_one_cases addr ip now ((world l) <| accepts := rs |>)) as [[(_ & _ & _ & Ha) _]|(s0 & (_ & _ & _ & Ha) & _ & He)].
    - done.
    - unfold s'. rewrite He. done. }
  assert (paid (world (foldl exec (l <| world := s' |>) cmds)) /\ accepts (world (foldl exec (l <| world := s' |>) cmds)) = rs)
    as [Hp2 Ha2].
  { apply (exec_all_framed (fun s => paid s /\ accepts s = rs)); [|done]. intros a s [Hs Has].
    split; [by apply paid_destroy|]. cbn. unfold destroy_handler. by case_decide. }
  by apply IH.
Qed.

Lemma step_framed next cmds rest :
  (forall s : Server, limiter_ (next s) = limiter_ s /\ made (next s) = made s /\ accepts (next s) = accepts s) ->
  (forall s : Server, framed paid (rest s)) -> framed paid (Step next cmds rest).
Proof. intros Hn Hr. constructor; [|done]. intros s. destruct (Hn s) as (? & ? & ?). by apply paid_ext. Qed.

(** Nothing an echo connection does concerns the limiter. *)
Lemma flush_framed a : framed paid (flush fd_of a).
Proof.
  unfold flush. apply step_framed; [done|]. intros s. generalize (writes s) 0%nat. intros ws.
  induction ws as [|r ws IH]; intros off; cbn [flush_loop]; [by repeat (apply step_framed || constructor)|].
  apply step_framed; [done|]. intros s'. destruct (_ <? _)%nat; [|by repeat (apply step_framed || constructor)].
  destruct r; apply step_framed; try done; intros ?; try apply IH; by repeat (apply step_framed || constructor).
Qed.

Lemma read_framed a : framed paid (echo_on_readable fd_of a).
Proof.
  unfold echo_on_readable. apply step_framed; [done|]. intros s. generalize (reads s). intros rs.
  induction rs as [|r rs IH]; cbn [read_loop]; [apply flush_framed|].
  destruct r; apply step_framed; try done; intros ?; (apply IH || apply flush_framed || constructor).
Qed.

Lemma paid_kept : kept (fun l : EventLoop Server => paid (world l)).
Proof.
  split; cbn; try done.
  - intros a l _ Hp _ _. destruct (decide (a = listener)) as [|_].
    + unfold listener_on_readable. cbn [interp foldl]. by apply accept_loop_paid.
    + apply interp_framed; [apply paid_destroy|apply read_framed|done].
  - intros a l _ Hp _ _. destruct (decide (a = listener)) as [|_]; [done|].
    apply interp_framed; [apply paid_destroy|apply flush_framed|done].
  - intros a l _ Hp _. by destruct (decide (a = listener)).
  - intros l _ Hp. exact (close_framed paid paid_destroy l Hp).
Qed.

(** ** Properties *)

(** One worker with a limiter of its own, end to end, its readings in order: over any run of
    the server, whatever the peers do, the connections made for one address number at most
    twice what the bucket holds and earns in the time of the run. *)
Theorem one_worker_rate_limited s wait n l :
  (0 <= rate)%Q -> (1 <= burst)%Q -> t0 <= T ->
  ready_to_serve listener s -> limiter_ s = Some (new_limiter rate burst t0) -> made s = [] -> times t0 (accepts s) ->
  (forall j l, inv l -> delivered l (wait j l)) ->
  run wait n 0 (serving fd_of listener s) = Some l ->
  (admissions x (made (world l)) <= 2 * (burst + rate * d_seconds (T - t0)%Z))%Q.
Proof.
  intros Hr Hb HT Hs Hl Hm Ht Hw Hrun. pose proof (new_limiter_wf rate burst t0 Hr Hb) as Hwf.
  assert (potential (new_limiter rate burst t0) x t0 <= burst + burst)%Q as Hpot.
  { pose proof (d_min_l burst (burst + d_seconds (t0 - t0)%Z * rate)%Q) as Hmin.
    unfold potential, own, credit. cbn [buckets_ new_limiter overflow_ tokens last_refill burst_ rate_].
    rewrite lookup_empty. lra. }
  assert (paid s) as Hp.
  { exists (new_limiter rate burst t0), t0. rewrite Hm. split_and!; try done; try lia.
    rewrite secs_diag. change (admissions x []) with 0%Q. lra. }
  assert (paid (world l)) as (rl & t & _ & Hwfl & _ & [Ht0 HtT] & _ & Hle).
  { eapply (run_kept _ paid_kept); [apply serving_inv|exact Hw| |exact Hrun].
    unfold serving, add. cbn. by rewrite bool_decide_eq_true_2 by apply lookup_empty. }
  pose proof (potential_nonneg rl x t Hwfl) as Hnn.
  assert (d_seconds (t - t0)%Z * rate <= rate * d_seconds (T - t0)%Z)%Q as Htime.
  { rewrite (Qmult_comm rate). apply Qmult_le_compat_r; [|done].
    rewrite (secs_sub T t t0). pose proof (secs_nonneg t T HtT). lra. }
  lra.
Qed.
End Gateway.

(** C28: Any number of workers share one limiter, each reads the clock before it takes the
    mutex, so that readings reach the limiter in any order, and addresses come as they like.
    Until the clock shows [clock f], the connections made for one address number at most
    twice what a bucket holds and earns in that time (twice, for the bucket that addresses
    past the table's cap share), and what it earned over the [lag] of the late buckets:
    nothing at all as long as the table has not filled up and full buckets been erased. The
    arithmetic is exact: how the code's [double]s round is outside this statement. *)
Theorem connections_rate_limited rate burst t0 x acts f :
  (0 <= rate)%Q -> (1 <= burst)%Q -> front_run acts (new_front rate burst t0) = Some f ->
  (admissions x (front_made f)
     <= 2 * (burst + rate * d_seconds (clock f - t0)%Z) + rate * d_seconds (lag x (late f)))%Q /\
  (pruned f = None -> late f = []).
Proof.
  intros Hr Hb Hrun. pose proof (paid_for_run _ _ _ x Hr Hb _ _ _ (paid_for_new rate burst t0 x Hb) Hrun) as [Hf Ht _ Hp Hm].
  split; [|by intros Hnone; rewrite Hnone in Hp]. destruct Hf as [_ _ Hbs Ho].
  assert (- earned rate t0 (clock f) <= own_stock rate burst t0 x (front_limiter f) (default t0 (pruned f)))%Q as Hown.
  { unfold own_stock. destruct (buckets_ _ !! x) as [b|] eqn:Hb'; [exact (Hbs x b Hb')|].
    assert (default t0 (pruned f) <= clock f) as Hle by (destruct (pruned f); cbn; lia).
    pose proof (earned_mono rate t0 Hr _ _ Hle). lra. }
  unfold reserve, earned in *. lra.
Qed.

(** ** A limited server, run *)

Definition limited_state : @Server Q :=
  mk_server ∅ (Some (new_limiter 1%Q 1%Q 0)) 0 0
    [Accepted 7 42 5 true; Accepted 8 42 6 true; AcceptAgain; Accepted 9 42 2000000000 true; Accepted 10 43 2000000001 false]
    [] [] [] [] 0 0 0 0.

#[local] Instance limited_server : EventHandler (@Server Q) := echo_server Z.of_nat 3.

Example one_worker_rate_limited_witness :
  let s := limited_state in
  (0 <= 1)%Q /\ (1 <= 1)%Q /\ 0 <= 3000000000 /\ ready_to_serve 3 s /\ limiter_ s = Some (new_limiter 1%Q 1%Q 0) /\
  made s = [] /\ times 3000000000 0 (accepts s) /\
  exists l, run all_ready 2 0 (serving Z.of_nat 3 s) = Some l /\
    made (world l) = [43; 42; 42] /\
    (admissions 42 (made (world l)) <= 2 * (1 + 1 * d_seconds (3000000000 - 0)%Z))%Q.
Proof.
  assert (0 <= 1)%Q as H1 by discriminate. assert (1 <= 1)%Q as H2 by discriminate.
  assert (0 <= 3000000000) as H3 by discriminate.
  assert (ready_to_serve 3 limited_state) as H4.
  { split; [done..|split; [done|reflexivity]|]. cbn. split; [|set_solver]. repeat (apply NoDup_cons; split; [set_solver|]). apply NoDup_nil_2. }
  assert (times 3000000000 0 (accepts limited_state)) as H5 by (cbn; lia).
  do 4 (split; [assumption|]). split; [reflexivity|]. split; [reflexivity|]. split; [exact H5|].
  destruct (run all_ready 2 0 (serving Z.of_nat 3 limited_state)) as [l|] eqn:Hr;
    [|vm_compute in Hr; discriminate].
  exists l. split; [reflexivity|]. split; [vm_compute in Hr; by injection Hr as <-|].
  exact (one_worker_rate_limited Z.of_nat 3 1%Q 1%Q 0 3000000000 42 limited_state all_ready 2 l H1 H2 H3 H4 eq_refl eq_refl H5
           (fun j l _ => all_ready_delivered j l) Hr).
Defined.

(** Two workers: the first reads the clock, the second overtakes it, and both are let in; a
    third call at once is refused, one a second later is not. *)
Definition two_workers : list front_action :=
  [ReadClock 0 42 5; ReadClock 1 42 10; Locked 1 true; Locked 0 true; ReadClock 0 42 12; Locked 0 true;
   ReadClock 1 42 1000000012; ReadClock 0 43 1000000013; Locked 0 false; Locked 1 true].

Example connections_rate_limited_witness :
  (0 <= 1)%Q /\ (1 <= 2)%Q /\
  exists f, front_run two_workers (new_front 1 2 0) = Some f /\ front_made f = [42; 42; 42] /\ clock f = 1000000013 /\
    (admissions 42 (front_made f)
       <= 2 * (2 + 1 * d_seconds (clock f - 0)%Z) + 1 * d_seconds (lag 42 (late f)))%Q /\ late f = [].
Proof.
  assert (0 <= 1)%Q as H1 by discriminate. assert (1 <= 2)%Q as H2 by discriminate. do 2 (split; [assumption|]).
  destruct (front_run two_workers (new_front 1 2 0)) as [f|] eqn:Hr; [|vm_compute in Hr; discriminate].
  destruct (connections_rate_limited 1 2 0 42 two_workers f H1 H2 Hr) as [Hle Hlate].
  exists f. split; [reflexivity|]. vm_compute in Hr. injection Hr as <-. do 2 (split; [reflexivity|]). split; [exact Hle|apply Hlate; reflexivity].
Defined.
