(* ===== verification/Transport.v ===== *)
(** * Transport: reading and writing a connection

    Models [PlainTransport] of src/src/net/transport.cpp and [TlsTransport] of
    src/src/tls/tls_transport.cpp: how the results of [read], [write] and OpenSSL become
    the [IoStatus] that [Http.v] takes from its environment. The results of the calls are
    a list; an interrupted call is made again. *)
From S2P Require Import Prelude Http.
Open Scope Z_scope.

(** ** Plain sockets *)

(** [read] or [write]: a count, or -1 with [errno]. *)
Inductive errno := EINTR | EAGAIN | EOther.
Definition syscall : Type := nat + errno.

(** [do { r = read(...) } while (r < 0 && errno == EINTR)]: [None] while the calls given
    are all interrupted. *)
Fixpoint retry (calls : list syscall) : option syscall :=
  match calls with
  | [] => None
  | inr EINTR :: calls => retry calls
  | r :: _ => Some r
  end.

Definition plain_recv (calls : list syscall) : option (IoStatus * nat) :=
  r ← retry calls;
  Some match r with
       | inl (S n) => (IoOk, S n)
       | inl O => (IoClosed, O)
       | inr EAGAIN => (WouldBlockRead, O)
       | inr _ => (IoError, O)
       end.

(** [errno_before] is the value [errno] had before a [write] that returns 0. *)
Definition plain_send (errno_before : errno) (calls : list syscall) : option (IoStatus * nat) :=
  r ← retry calls;
  let status e := match e with EAGAIN => WouldBlockWrite | _ => IoError end in
  Some match r with
       | inl (S n) => (IoOk, S n)
       | inl O => (status errno_before, O)
       | inr e => (status e, O)
       end.

(** ** TLS *)

(** [SSL_get_error]. *)
Inductive ssl_error := SSL_WANT_READ | SSL_WANT_WRITE | SSL_ZERO_RETURN | SSL_SYSCALL | SSL_OTHER.

Definition map_error (e : ssl_error) : IoStatus :=
  match e with
  | SSL_WANT_READ => WouldBlockRead
  | SSL_WANT_WRITE => WouldBlockWrite
  | SSL_ZERO_RETURN | SSL_SYSCALL => IoClosed
  | SSL_OTHER => IoError
  end.

(** [SSL_do_handshake]; [SSL_read] and [SSL_write]: a positive count, or an error. *)
Definition tls_handshake (r : unit + ssl_error) : IoStatus :=
  match r with inl _ => IoOk | inr e => map_error e end.
Definition tls_io (r : nat + ssl_error) : IoStatus * nat :=
  match r with inl n => (IoOk, S n) | inr e => (map_error e, O) end.

(** ** What the connections rely on *)

(** A status is [IoOk] exactly when bytes were moved. *)
Definition io_ok (r : IoStatus * nat) : Prop := r.1 = IoOk <-> (0 < r.2)%nat.

Lemma transports_io_ok :
  (forall calls r, plain_recv calls = Some r -> io_ok r) /\
  (forall e calls r, plain_send e calls = Some r -> io_ok r) /\
  (forall r, io_ok (tls_io r)).
Proof.
  unfold io_ok, plain_recv, plain_send, tls_io. split_and!; intros.
  - destruct (retry calls) as [[[|n]|[]]|]; simplify_eq/=; split; (done || lia).
  - destruct (retry calls) as [[[|n]|[]]|], e; simplify_eq/=; split; (done || lia).
  - destruct r as [n|[]]; cbn; split; (done || lia).
Qed.

(** An interruption never escapes: what a call gives is what the first call that is not
    interrupted gives. *)
Lemma retry_spec calls r :
  retry calls = Some r <->
  exists k rest, calls = replicate k (inr EINTR) ++ r :: rest /\ r <> inr EINTR.
Proof.
  split.
  - induction calls as [|c calls IH]; cbn; [done|].
    destruct c as [n|[]]; [intros [= <-]; by exists O, calls| |intros [= <-]; by exists O, calls..].
    intros Hr. destruct (IH Hr) as (k & rest & -> & Hne). by exists (S k), rest.
  - intros (k & rest & -> & Hne). induction k as [|k IH]; cbn; [|done]. by destruct r as [n|[]].
Qed.
