(* ===== verification/Connectivity.v ===== *)
(** * Connectivity: the internet watch

    Models [internet_reachable] and the loop of [ConnectivityMonitor::run] of
    src/src/net/connectivity.cpp: a probe round, the transitions it logs, and the state
    that [systemstatus] reads. A round is the result of each probe and the reading of the
    clock, if one is made. The thread is [Watch.v], a probe [Sockets.tcp_probe]. *)
From S2P Require Import Prelude Text Log Autocorrect Clock Control.
Open Scope Z_scope.

(** What the monitor logs: the outage (CRITICAL) and its end (INFO), with its seconds. *)
Inductive note := Lost | Restored (secs : Z).

Record Monitor := mk_monitor { internet_state : NetState; down_since : Z; notes : list note }.
#[export] Instance eta_Monitor : Eta Monitor := fun m => mk_monitor (internet_state m) (down_since m) (notes m).
Definition new_monitor : Monitor := mk_monitor NetUnknown 0 [].

(** [internet_reachable]: any target answers. *)
Fixpoint internet_reachable (probes : list bool) : bool :=
  match probes with
  | [] => false
  | p :: probes => if p then true else internet_reachable probes
  end.

Definition is_down (s : NetState) : bool := match s with NetDown => true | _ => false end.

Definition monitor_round (r : list bool * Z) (m : Monitor) : Monitor :=
  let '(probes, now) := r in
  let up := internet_reachable probes in
  let m :=
    if negb up && negb (is_down (internet_state m)) then
      m <| down_since := now |> <| notes ::= (fun l => l ++ [Lost]) |>
    else if up && is_down (internet_state m) then
      m <| notes ::= (fun l => l ++ [Restored ((now - down_since m) `quot` 1000000000)]) |>
    else m in
  m <| internet_state := if up then NetUp else NetDown |>.

Definition monitor (rounds : list (list bool * Z)) : Monitor := foldl (flip monitor_round) new_monitor rounds.

(** ** One line per outage *)

(** The outages of a sequence of rounds: when each began, and when it was over. *)
Fixpoint outages (rounds : list (list bool * Z)) (since : option Z) : list (Z * option Z) :=
  match rounds, since with
  | [], None => []
  | [], Some t => [(t, None)]
  | (probes, now) :: rounds, None =>
      if existsb id probes then outages rounds None else outages rounds (Some now)
  | (probes, now) :: rounds, Some t =>
      if existsb id probes then (t, Some now) :: outages rounds None else outages rounds (Some t)
  end.

Definition outage_notes (o : Z * option Z) : list note :=
  match o with
  | (_, None) => [Lost]
  | (t, Some t') => [Lost; Restored ((t' - t) `quot` 1000000000)]
  end.

Lemma internet_reachable_any probes : internet_reachable probes = existsb id probes.
Proof. induction probes as [|p probes IH]; cbn; [done|]. by destruct p. Qed.

Lemma outage_open rounds t :
  concat (outage_notes <$> outages rounds (Some t)) =
    Lost :: drop 1 (concat (outage_notes <$> outages rounds (Some t))).
Proof. induction rounds as [|[probes now] rounds IH]; cbn; [done|]. by destruct (existsb id probes). Qed.

Lemma monitor_from rounds m :
  notes (foldl (flip monitor_round) m rounds) =
    notes m ++ (if is_down (internet_state m)
                then drop 1 (concat (outage_notes <$> outages rounds (Some (down_since m))))
                else concat (outage_notes <$> outages rounds None)).
Proof.
  revert m. induction rounds as [|[probes now] rounds IH]; intros m; cbn [foldl].
  - destruct (is_down _); cbn; by rewrite app_nil_r.
  - rewrite IH. cbn [flip monitor_round outages]. cbv zeta. rewrite internet_reachable_any.
    destruct (existsb id probes) eqn:Hup, (internet_state m) eqn:Hm; cbn; rewrite ?Hm; cbn; try done;
      rewrite <- (assoc_L app); f_equal; by rewrite (outage_open rounds now).
Qed.

(** Each outage is logged once when it begins and once, with its length, when it ends. *)
Lemma outages_logged_once rounds :
  notes (monitor rounds) = concat (outage_notes <$> outages rounds None).
Proof. apply monitor_from. Qed.

Example outages_ex :
  notes (monitor [([true], 0); ([false; false], 5000000000); ([false], 9000000000); ([false; true], 65000000000)]) =
  [Lost; Restored 60].
Proof. reflexivity. Qed.
