(* ===== verification/Hardware.v ===== *)
(** * Hardware: what procfs says of the machine

    Models the readers of src/src/util/hardware.hpp that count in integers: threads, the
    cpu counters, memory and the temperature. A file is the bytes of it, or [None] when it
    cannot be opened. [std::istream]'s extractions are modelled as far as they are used: a
    word, and a decimal number of a given width. The readers in [double] are in [Doubles.v]. *)
From S2P Require Import Prelude Text.
Open Scope Z_scope.

(** ** [std::istream] *)

(** [f >> word], and the rest of the stream; [None] sets [failbit]. *)
Definition extract_word (s : bytes) : option (bytes * bytes) :=
  match skip_space s with
  | [] => None
  | s => let n := default (length s) (find_if isspace s) in Some (take n s, drop n s)
  end.

(** The longest run of digits, with its value, and what follows; [None] when there is none. *)
Fixpoint digits (acc : option Z) (s : bytes) : option Z * bytes :=
  match s with
  | [] => (acc, [])
  | c :: s' => if isdigit c then digits (Some (10 * default 0 acc + (code c - 48))) s' else (acc, s)
  end.

(** [f >> number] for an unsigned type of [w] bits: a sign is taken, a number that does not
    fit sets [failbit]. *)
Definition extract_unsigned (w : Z) (s : bytes) : option (Z * bytes) :=
  let s := skip_space s in
  let '(negative, s) :=
    match s with
    | c :: s' => if decide (c = "-"%char) then (true, s') else if decide (c = "+"%char) then (false, s') else (false, s)
    | [] => (false, s)
    end in
  let '(v, rest) := digits None s in
  v ← v;
  if v <? 2 ^ w then Some (if negative : bool then wrap_u w (- v) else v, rest) else None.

(** The same for [int]. *)
Definition extract_int (s : bytes) : option (Z * bytes) :=
  let s := skip_space s in
  let '(sign, s) :=
    match s with
    | c :: s' => if decide (c = "-"%char) then (-1, s') else if decide (c = "+"%char) then (1, s') else (1, s)
    | [] => (1, s)
    end in
  let '(v, rest) := digits None s in
  v ← v;
  if (- 2 ^ 31 <=? sign * v) && (sign * v <? 2 ^ 31) then Some (sign * v, rest) else None.

(** [f.ignore(max, '\n')]. *)
Definition ignore_line (s : bytes) : bytes :=
  match find_char ch_nl s with Some n => drop (n + 1) s | None => [] end.

(** ** Readers *)

Definition threadCount (hardware_concurrency : Z) : option Z :=
  if hardware_concurrency =? 0 then None else Some hardware_concurrency.

Record CpuTimes := mk_cpu { idle : Z; cpu_total : Z }.

(** The loop over [fields]: the numbers that could be read, at most [n]. *)
Fixpoint read_fields (n : nat) (s : bytes) : list Z :=
  match n with
  | O => []
  | S n => match extract_unsigned 64 s with Some (v, s) => v :: read_fields n s | None => [] end
  end.

Definition readCpuTimes (file : option bytes) : option CpuTimes :=
  f ← file;
  '(label, f) ← extract_word f;
  if decide (label <> lit "cpu") then None
  else
    let fields := read_fields 8 f in
    if (length fields <? 4)%nat then None
    else
      Some (mk_cpu (wrap_u 64 (default 0 (fields !! 3%nat) + default 0 (fields !! 4%nat)))
                   (foldl (fun t v => wrap_u 64 (t + v)) 0 fields)).

Record MemInfo := mk_mem {
  total : Z; free : Z; available : Z; buffers : Z; cached : Z; sReclaimable : Z; hasAvailable : bool
}.
#[export] Instance eta_MemInfo : Eta MemInfo := fun m =>
  mk_mem (total m) (free m) (available m) (buffers m) (cached m) (sReclaimable m) (hasAvailable m).
Definition no_mem : MemInfo := mk_mem 0 0 0 0 0 0 false.

Definition set_mem (key : bytes) (value : Z) (mem : MemInfo) : MemInfo :=
  if decide (key = lit "MemTotal:") then mem <| total := value |>
  else if decide (key = lit "MemFree:") then mem <| free := value |>
  else if decide (key = lit "MemAvailable:") then (mem <| available := value |>) <| hasAvailable := true |>
  else if decide (key = lit "Buffers:") then mem <| buffers := value |>
  else if decide (key = lit "Cached:") then mem <| cached := value |>
  else if decide (key = lit "SReclaimable:") then mem <| sReclaimable := value |>
  else mem.

(** [while (f >> key >> value)]: every turn takes at least a byte. *)
Fixpoint mem_loop (fuel : nat) (f : bytes) (mem : MemInfo) : option MemInfo :=
  match fuel with
  | O => None
  | S fuel =>
      match extract_word f with
      | None => Some mem
      | Some (key, f) =>
          match extract_unsigned 64 f with
          | None => Some mem
          | Some (value, f) => mem_loop fuel (ignore_line f) (set_mem key value mem)
          end
      end
  end.

Definition readMemInfo (file : option bytes) : option MemInfo :=
  f ← file;
  mem ← mem_loop (S (length f)) f no_mem;
  if total mem =? 0 then None else Some mem.

Definition reclaimableKb (mem : MemInfo) : Z := wrap_u 64 (wrap_u 64 (buffers mem + cached mem) + sReclaimable mem).
Definition KB_PER_MB : Z := 1024.

Definition memoryTotal (file : option bytes) : option Z :=
  mem ← readMemInfo file; Some (total mem / KB_PER_MB).
Definition memoryFree (file : option bytes) : option Z :=
  mem ← readMemInfo file;
  Some ((if hasAvailable mem then available mem else wrap_u 64 (free mem + reclaimableKb mem)) / KB_PER_MB).
Definition memoryUsed (file : option bytes) : option Z :=
  mem ← readMemInfo file;
  let notUsedKb := wrap_u 64 (free mem + reclaimableKb mem) in
  Some (if total mem <=? notUsedKb then 0 else (total mem - notUsedKb) / KB_PER_MB).

(** In thousandths of a degree; the code divides by 1000.0. *)
Definition cpuTemp (file : option bytes) : option Z := f ← file; '(milliDeg, _) ← extract_int f; Some milliDeg.

(** ** Extraction *)

Lemma skip_space_app (b s : bytes) : Forall (fun c => isspace c = true) b -> skip_space (b ++ s) = skip_space s.
Proof. induction 1 as [|c b Hc _ IH]; cbn; [done|]. by rewrite Hc. Qed.

Lemma skip_space_head c s : isspace c = false -> skip_space (c :: s) = c :: s.
Proof. cbn. by intros ->. Qed.

Lemma skip_space_length s : (length (skip_space s) <= length s)%nat.
Proof. induction s as [|c s IH]; cbn; [lia|]. destruct (isspace c); cbn; lia. Qed.

Lemma digits_length acc s : (length (digits acc s).2 <= length s)%nat.
Proof. revert acc. induction s as [|c s IH]; intros acc; cbn; [lia|]. destruct (isdigit c); cbn; [etrans; [apply IH|]|]; lia. Qed.

Lemma digits_app acc l c rest :
  Forall (fun c => isdigit c = true) l -> isdigit c = false ->
  digits acc (l ++ c :: rest) = (if decide (l = []) then acc else Some (scan_digits (default 0 acc) l), c :: rest).
Proof.
  intros Hl Hc. revert acc. induction Hl as [|d l Hd Hl IH]; intros acc; cbn; [by rewrite Hc|]. rewrite Hd, IH. cbn.
  f_equal. case_decide; [subst l; cbn|]; do 2 f_equal; lia.
Qed.

Lemma print_N_digits n : Forall (fun c => isdigit c = true) (print_N n).
Proof. eapply Forall_impl; [apply print_N_plain|]. by intros c []. Qed.

Lemma to_string_digits z : 0 <= z -> to_string z = print_N (Z.to_N z).
Proof. intros Hz. unfold to_string. by destruct (Z.ltb_spec z 0); [lia|]. Qed.

(** A printed number is read back, after blanks and up to what follows. *)
Lemma extract_unsigned_print w b v c rest :
  Forall (fun c => isspace c = true) b -> 0 <= v < 2 ^ w -> isdigit c = false ->
  extract_unsigned w (b ++ to_string v ++ c :: rest) = Some (v, c :: rest).
Proof.
  intros Hb Hv Hc. unfold extract_unsigned. rewrite skip_space_app by done. rewrite to_string_digits by lia.
  pose proof (print_N_plain (Z.to_N v)) as Hp. pose proof (print_N_digits (Z.to_N v)) as Hd.
  pose proof (print_N_nonempty (Z.to_N v)) as Hne. pose proof (scan_print_N (Z.to_N v)) as Hs.
  pose proof (digits_app None _ c rest Hd Hc) as Happ. rewrite decide_False in Happ by done. cbn [default] in Happ.
  destruct (print_N (Z.to_N v)) as [|x l]; [done|]. apply Forall_cons in Hp as [[_ Hsp _ Hdl] _].
  rewrite <- app_comm_cons in *. rewrite skip_space_head by done.
  rewrite !not_elem_of_cons in Hdl. destruct Hdl as (Hm & Hpl & _).
  rewrite decide_False by done. rewrite decide_False by done. rewrite Happ. cbn [mbind option_bind].
  rewrite Hs, Z2N.id by lia. destruct (Z.ltb_spec v (2 ^ w)); [done|lia].
Qed.

Lemma extract_word_print k c rest :
  k <> [] -> Forall (fun c => isspace c = false) k -> isspace c = true ->
  extract_word (k ++ c :: rest) = Some (k, c :: rest).
Proof.
  intros Hne Hk Hc. unfold extract_word. destruct k as [|x k]; [done|]. cbn [app].
  pose proof Hk as [Hx _]%Forall_cons. rewrite skip_space_head by done.
  change (let s := (x :: k) ++ c :: rest in let n := default (length s) (find_if isspace s) in
          Some (take n s, drop n s) = Some (x :: k, c :: rest)). cbv zeta.
  assert (find_if isspace ((x :: k) ++ c :: rest) = Some (length (x :: k))) as ->.
  { apply find_if_Some. exists c. split_and!; [|done|].
    - by rewrite lookup_app_r, Nat.sub_diag by lia.
    - intros j d Hj Hlt. rewrite lookup_app_l in Hj by done. by apply (Forall_lookup_1 _ _ _ _ Hk Hj). }
  cbn [default]. rewrite (take_app_length (x :: k)), (drop_app_length (x :: k)). done.
Qed.

Lemma extract_word_shorter s w r : extract_word s = Some (w, r) -> (length r < length s)%nat.
Proof.
  unfold extract_word. pose proof (skip_space_length s) as Hl.
  assert (forall c t, skip_space s = c :: t -> isspace c = false) as Hsp.
  { clear. induction s as [|x s IH]; cbn; [done|]. destruct (isspace x) eqn:Hx; [apply IH|]. by intros c t [= <- _]. }
  destruct (skip_space s) as [|c t] eqn:Hs; [done|]. intros [= _ <-]. rewrite length_drop.
  destruct (find_if isspace (c :: t)) as [[|n]|] eqn:Hf; cbn [default]; cbn [length id] in *; try lia.
  apply find_if_Some in Hf as (d & [= <-] & Hd & _). by rewrite (Hsp _ _ eq_refl) in Hd.
Qed.

Lemma extract_unsigned_length w s v r : extract_unsigned w s = Some (v, r) -> (length r <= length s)%nat.
Proof.
  unfold extract_unsigned. pose proof (skip_space_length s) as Hl. generalize dependent (skip_space s). intros t Hl.
  set (p := match t with [] => _ | _ => _ end). assert (length p.2 <= length t)%nat as Hp.
  { subst p. destruct t as [|c t]; [done|]. repeat case_decide; cbn; lia. }
  destruct p as [neg u]. cbn in Hp. pose proof (digits_length None u) as Hd. destruct (digits None u) as [[x|] rest]; [|done].
  cbn in *. destruct (x <? 2 ^ w); [|done]. intros [= _ <-]. lia.
Qed.

Lemma ignore_line_length s : (length (ignore_line s) <= length s)%nat.
Proof. unfold ignore_line. destruct (find_char ch_nl s); [rewrite length_drop|cbn]; lia. Qed.

(** The loop over the lines ends, whatever the file holds. *)
Lemma mem_loop_total fuel f mem : (length f < fuel)%nat -> is_Some (mem_loop fuel f mem).
Proof.
  revert f mem. induction fuel as [|fuel IH]; intros f mem Hf; [lia|]. cbn [mem_loop].
  destruct (extract_word f) as [[key f1]|] eqn:Hw; [|done]. apply extract_word_shorter in Hw.
  destruct (extract_unsigned 64 f1) as [[v f2]|] eqn:Hu; [|done]. apply extract_unsigned_length in Hu.
  apply IH. pose proof (ignore_line_length f2). lia.
Qed.

(** ** The layout of /proc/meminfo *)

Definition mem_line (kv : bytes * Z) : bytes := kv.1 ++ lit "  " ++ to_string kv.2 ++ lit " kB" ++ [ch_nl].
Definition mem_entry (kv : bytes * Z) : Prop :=
  kv.1 <> [] /\ Forall (fun c => isspace c = false) kv.1 /\ in_u 64 kv.2.

Lemma mem_loop_lines fuel kvs mem :
  Forall mem_entry kvs -> (length (concat (mem_line <$> kvs)) < fuel)%nat ->
  mem_loop fuel (concat (mem_line <$> kvs)) mem = Some (foldl (fun m kv => set_mem kv.1 kv.2 m) mem kvs).
Proof.
  intros Hkvs. revert fuel mem. induction Hkvs as [|[k v] kvs (Hne & Hk & Hv) _ IH]; intros [|fuel] mem Hf;
    cbn [fmap list_fmap concat foldl] in *; [lia|done|lia|].
  set (R := concat _) in *. cbn [mem_loop]. unfold mem_line in Hf |- *. cbn [fst snd] in *.
  rewrite <- !(assoc_L app) in *.
  change (lit "  " ++ ?x) with (" "%char :: lit " " ++ x).
  rewrite extract_word_print by done. change (" "%char :: lit " " ++ ?x) with (lit "  " ++ x).
  change (lit " kB" ++ ?x) with (" "%char :: lit "kB" ++ x).
  rewrite extract_unsigned_print by (try done; repeat constructor). unfold ignore_line.
  change (" "%char :: lit "kB" ++ ?x) with (lit " kB" ++ x).
  change ([ch_nl] ++ ?x) with (ch_nl :: x). rewrite find_char_app by (vm_compute; set_solver).
  change (length (lit " kB") + 1)%nat with 4%nat. cbn [drop app lit list_ascii_of_string].
  apply IH. rewrite !length_app in Hf. change (length (lit "  ")) with 2%nat in Hf. lia.
Qed.

(** What a reader of the layout sees: the fields as the entries set them, the last one of a
    key winning, provided there is memory at all. *)
Lemma readMemInfo_lines kvs :
  Forall mem_entry kvs ->
  readMemInfo (Some (concat (mem_line <$> kvs))) =
    let mem := foldl (fun m kv => set_mem kv.1 kv.2 m) no_mem kvs in
    if total mem =? 0 then None else Some mem.
Proof. intros Hk. unfold readMemInfo. cbn [mbind option_bind]. by rewrite mem_loop_lines by (done || lia). Qed.

Example meminfo_ex :
  let file := Some (concat (mem_line <$> [(lit "MemTotal:", 8192000); (lit "MemFree:", 1024000); (lit "MemAvailable:", 4096000);
                                          (lit "Buffers:", 102400); (lit "Cached:", 2048000); (lit "SwapTotal:", 7)])) in
  memoryTotal file = Some 8000 /\ memoryFree file = Some 4000 /\ memoryUsed file = Some 4900.
Proof. vm_compute. done. Qed.
Example truncated_ex : memoryTotal (Some (lit "MemTotal:")) = None /\ readCpuTimes (Some (lit "cpu 1 2 3")) = None.
Proof. vm_compute. done. Qed.

(** ** Accounting *)

Lemma digits_nonneg acc s v rest : digits acc s = (Some v, rest) -> 0 <= default 0 acc -> 0 <= v.
Proof.
  revert acc. induction s as [|c s IH]; intros acc; cbn; [by intros [= -> _]|].
  destruct (isdigit c) eqn:Hc; [|by intros [= -> _]]. intros Hd Ha. apply IH in Hd; [done|]. cbn.
  unfold isdigit in Hc. bool_to_prop. lia.
Qed.

Lemma extract_unsigned_range w s v rest : 0 <= w -> extract_unsigned w s = Some (v, rest) -> in_u w v.
Proof.
  intros Hw. unfold extract_unsigned. destruct (match skip_space s with [] => _ | _ => _ end) as [neg t].
  destruct (digits None t) as [[x|] r] eqn:Hd; [|done]. apply digits_nonneg in Hd; [|done]. cbn.
  destruct (Z.ltb_spec x (2 ^ w)); [|done]. intros [= <- _]. destruct neg; [by apply wrap_u_range|done].
Qed.

Record mem_wf (m : MemInfo) : Prop := { wf_total : in_u 64 (total m); wf_available : in_u 64 (available m) }.

Lemma mem_loop_wf fuel f mem mem' : mem_wf mem -> mem_loop fuel f mem = Some mem' -> mem_wf mem'.
Proof.
  revert f mem. induction fuel as [|fuel IH]; intros f mem Hm; cbn [mem_loop]; [done|].
  destruct (extract_word f) as [[key f1]|]; [|by intros [= <-]].
  destruct (extract_unsigned 64 f1) as [[v f2]|] eqn:Hu; [|by intros [= <-]].
  apply extract_unsigned_range in Hu; [|done]. apply IH. unfold set_mem. destruct Hm.
  repeat case_decide; by split.
Qed.

Lemma readMemInfo_wf file m : readMemInfo file = Some m -> mem_wf m /\ 0 < total m.
Proof.
  unfold readMemInfo. destruct file as [f|]; [|done]. cbn [mbind option_bind].
  destruct (mem_loop _ f no_mem) as [mem|] eqn:Hl; [|done]. cbn [mbind option_bind].
  destruct (Z.eqb_spec (total mem) 0); [done|]. intros [= <-].
  assert (mem_wf mem) as Hm by (eapply mem_loop_wf; [|exact Hl]; by split).
  split; [done|]. destruct (wf_total _ Hm). lia.
Qed.

(** The figures of a machine add up, whatever the file holds: used never exceeds total; and
    on a kernel without MemAvailable, used and free make up total, to the megabyte. *)
Lemma memory_accounts file m t u f :
  readMemInfo file = Some m ->
  memoryTotal file = Some t -> memoryUsed file = Some u -> memoryFree file = Some f ->
  0 <= u <= t /\
  (hasAvailable m = false -> wrap_u 64 (free m + reclaimableKb m) <= total m -> u + f <= t <= u + f + 1).
Proof.
  unfold memoryTotal, memoryUsed, memoryFree. intros Hm. rewrite Hm. cbn [mbind option_bind].
  apply readMemInfo_wf in Hm as [[[Ht _] _] _]. cbv zeta. pose proof (wrap_u_range 64 (free m + reclaimableKb m) ltac:(lia)) as [Hn _].
  generalize dependent (wrap_u 64 (free m + reclaimableKb m)). intros n Hn. unfold KB_PER_MB.
  destruct (Z.leb_spec (total m) n); intros [= <-] [= <-] [= <-]; split.
  - split; [lia|by apply Z.div_pos].
  - intros -> Hle. assert (n = total m) as -> by lia. lia.
  - split; [apply Z.div_pos; lia|]. apply Z.div_le_mono; lia.
  - intros -> Hle.
    pose proof (Z.div_mod (total m) 1024 ltac:(lia)). pose proof (Z.mod_pos_bound (total m) 1024 ltac:(lia)).
    pose proof (Z.div_mod (total m - n) 1024 ltac:(lia)). pose proof (Z.mod_pos_bound (total m - n) 1024 ltac:(lia)).
    pose proof (Z.div_mod n 1024 ltac:(lia)). pose proof (Z.mod_pos_bound n 1024 ltac:(lia)). lia.
Qed.
