(* ===== verification/Doubles.v ===== *)
(** * Doubles: the readers of hardware.hpp that compute in [double]

    Models the load averages, the temperature and the cpu usage of
    src/src/util/hardware.hpp, in IEEE 754 binary64 ([SpecFloat]), with the extraction of a
    [double] from a stream, and the ["%.2f"] of [systemStatusHelper]
    (src/src/control/control_server.cpp). [measured] is what that page reads. *)
From Stdlib Require Import SpecFloat.
From S2P Require Import Prelude Text RateLimiter Hardware Log Autocorrect Clock Control.
Open Scope Z_scope.

Abbreviation double := spec_float.
Definition d_div : double -> double -> double := SFdiv 53 1024.
Definition b64_sub : double -> double -> double := SFsub 53 1024.
Definition b64_mul : double -> double -> double := SFmul 53 1024.

(** ** [f >> d] *)

(** What [std::num_get] gathers: digits, one point before the exponent, one exponent after a
    digit, with its sign. (Of leading zeros it keeps one: the number is the same.) *)
Fixpoint gather (mantissa point exponent : bool) (s : bytes) : bytes * bytes :=
  match s with
  | [] => ([], [])
  | c :: s' =>
      let keep l r := (l ++ r.1, r.2) in
      if isdigit c then keep [c] (gather true point exponent s')
      else if bool_decide (c = "."%char) && negb point && negb exponent then keep [c] (gather mantissa true exponent s')
      else if (bool_decide (c = "e"%char) || bool_decide (c = "E"%char)) && negb exponent && mantissa then
        match s' with
        | d :: s'' =>
            if bool_decide (d = "+"%char) || bool_decide (d = "-"%char) then keep ["e"%char; d] (gather mantissa point true s'')
            else keep ["e"%char] (gather mantissa point true s')
        | [] => (["e"%char], [])
        end
      else ([], s)
  end.

Definition sign_of (s : bytes) : bool * bytes :=
  match s with
  | c :: s' => if decide (c = "-"%char) then (true, s') else if decide (c = "+"%char) then (false, s') else (false, s)
  | [] => (false, [])
  end.

(** [m * 10^k], correctly rounded. *)
Definition of_decimal (negative : bool) (m k : Z) : double :=
  match m with
  | Zpos p =>
      if 0 <=? k then binary_normalize 53 1024 (cond_Zopp negative (m * 10 ^ k)) 0 negative
      else match 10 ^ (- k) with Zpos q => d_div (S754_finite negative p 0) (S754_finite false q 0) | _ => S754_nan end
  | _ => S754_zero negative
  end.

(** [strtod] of what was gathered, which it must take to the end. *)
Definition strtod_all (negative : bool) (s : bytes) : option double :=
  let n := default (length s) (find_if (fun c => negb (isdigit c)) s) in
  let whole := take n s in
  let s := drop n s in
  let '(fraction, s) :=
    match s with
    | c :: s' =>
        if decide (c = "."%char) then
          let n := default (length s') (find_if (fun c => negb (isdigit c)) s') in (take n s', drop n s')
        else ([], s)
    | [] => ([], [])
    end in
  if decide (whole ++ fraction = []) then None
  else
    let value k := of_decimal negative (scan_digits 0 (whole ++ fraction)) (k - Z.of_nat (length fraction)) in
    match s with
    | [] => Some (value 0)
    | _ :: s =>                                                       (* 'e' *)
        let '(below, s) := sign_of s in
        if decide (s = []) then None
        else if forallb isdigit s then Some (value (cond_Zopp below (scan_digits 0 s))) else None
    end.

(** An overflow sets [failbit]. *)
Definition extract_double (s : bytes) : option (double * bytes) :=
  let '(negative, s) := sign_of (skip_space s) in
  let '(text, rest) := gather false false false s in
  v ← strtod_all negative text;
  match v with S754_infinity _ => None | _ => Some (v, rest) end.

(** ** Readers *)

Record LoadAverage := mk_load { oneMinute : double; fiveMinute : double; fifteenMinute : double }.

Definition loadAverages (file : option bytes) : option LoadAverage :=
  f ← file;
  '(a, f) ← extract_double f;
  '(b, f) ← extract_double f;
  '(c, _) ← extract_double f;
  Some (mk_load a b c).
Definition cpuLoadAverage (file : option bytes) : option double := load ← loadAverages file; Some (oneMinute load).

(** [milliDeg / 1000.0]. *)
Definition cpuTempCelsius (file : option bytes) : option double :=
  milliDeg ← cpuTemp file; Some (d_div (b64_of_Z milliDeg) (b64_of_Z 1000)).

(** The two samples are the file before and after the wait. *)
Definition sampleCpuUsage (before after : option bytes) : option double :=
  a ← readCpuTimes before;
  b ← readCpuTimes after;
  if cpu_total b <=? cpu_total a then None
  else
    let totalDelta := b64_of_Z (cpu_total b - cpu_total a) in
    let idleDelta := if idle a <? idle b then b64_of_Z (idle b - idle a) else S754_zero false in
    let percent := b64_mul (d_div (b64_sub totalDelta idleDelta) totalDelta) (b64_of_Z 100) in
    Some (if SFltb percent (S754_zero false) then S754_zero false
          else if SFltb (b64_of_Z 100) percent then b64_of_Z 100 else percent).

(** [std::round]: to the nearest integer, halfway cases away from zero. *)
Definition d_round (x : double) : double :=
  match x with
  | S754_finite s m e =>
      if 0 <=? e then x
      else match (2 * Zpos m + 2 ^ (- e)) / 2 ^ (1 - e) with
           | Zpos n => binary_round 53 1024 s n 0
           | _ => S754_zero s
           end
  | _ => x
  end.

Definition cpuAveragePrecentUsage (precision sampleInterval_ms : Z) (before after : option bytes) : option double :=
  if sampleInterval_ms <=? 0 then None
  else
    percent ← sampleCpuUsage before after;
    let precision := if precision <? 0 then 0 else precision in
    let precision := if 9 <? precision then 9 else precision in
    let scale := b64_of_Z (10 ^ precision) in
    Some (d_div (d_round (b64_mul percent scale)) scale).

(** ** [fixed2] *)

(** [a / d] to the nearest integer, ties to even, as [printf] rounds. *)
Definition nearest (a d : Z) : Z :=
  let q := a / d in
  match 2 * (a mod d) ?= d with Lt => q | Gt => q + 1 | Eq => if Z.even q then q else q + 1 end.

(** A number of hundredths, as it is printed. *)
Definition show_hundredths (n : Z) : bytes :=
  to_string (n / 100) ++ lit "." ++ to_string (n mod 100 / 10) ++ to_string (n mod 10).

(** ["%.2f"], in the 31 bytes there is room for. *)
Definition fixed2 (v : double) : bytes :=
  let sign (s : bool) := if s then lit "-" else [] in
  take 31
    match v with
    | S754_zero s => sign s ++ lit "0.00"
    | S754_infinity s => sign s ++ lit "inf"
    | S754_nan => lit "nan"
    | S754_finite s m e =>
        sign s ++ show_hundredths (if 0 <=? e then Zpos m * 2 ^ e * 100 else nearest (Zpos m * 100) (2 ^ (- e)))
    end.

(** ** What the status page reads *)

Record Machine := mk_machine { hardware_concurrency : Z; loadavg : option bytes; thermal_zone0 : option bytes; meminfo : option bytes }.

Definition measured (m : Machine) (rd : Readings) : Readings :=
  mk_readings (rd_now rd) (threadCount (hardware_concurrency m))
    (l ← loadAverages (loadavg m); Some (fixed2 (oneMinute l), fixed2 (fiveMinute l), fixed2 (fifteenMinute l)))
    (t ← cpuTempCelsius (thermal_zone0 m); Some (fixed2 t))
    (memoryFree (meminfo m)) (memoryTotal (meminfo m)) (rd_internet rd) (rd_acks rd) (rd_rtt rd) (rd_date rd) (rd_time rd).

(** ** How far rounding goes *)

Lemma digits_bounds p : 2 ^ (Zpos (digits2_pos p) - 1) <= Zpos p < 2 ^ Zpos (digits2_pos p).
Proof.
  induction p as [p IH|p IH|]; cbn [digits2_pos]; [..|done];
    rewrite Pos2Z.inj_succ; replace (Z.succ (Zpos (digits2_pos p)) - 1) with (Z.succ (Zpos (digits2_pos p) - 1)) by lia;
    rewrite !Z.pow_succ_r by lia; lia.
Qed.

(** The number of digits is the only exponent between whose powers it lies. *)
Lemma digits_unique p d : 0 < d -> 2 ^ (d - 1) <= Zpos p < 2 ^ d -> Zpos (digits2_pos p) = d.
Proof.
  intros Hd Hp. pose proof (digits_bounds p) as Hb.
  assert (2 ^ (d - 1) < 2 ^ Zpos (digits2_pos p)) as H1 by lia. apply Z.pow_lt_mono_r_iff in H1; [|lia..].
  assert (2 ^ (Zpos (digits2_pos p) - 1) < 2 ^ d) as H2 by lia. apply Z.pow_lt_mono_r_iff in H2; [|lia..]. lia.
Qed.

Lemma shr_1_half r : 0 <= shr_m r -> shr_m (shr_1 r) = shr_m r / 2.
Proof.
  destruct r as [[|[p|p|]|p] b c]; cbn [shr_m shr_1]; intros Hm; [done|..|lia]; [..|done].
  - rewrite Pos2Z.inj_xI, Z.mul_comm, Z.div_add_l by lia. change (1 / 2) with 0. lia.
  - rewrite Pos2Z.inj_xO, Z.mul_comm, Z.div_mul by lia. done.
Qed.

Lemma shr_iter p r : 0 <= shr_m r -> shr_m (SpecFloat.iter_pos shr_1 p r) = shr_m r / 2 ^ Zpos p.
Proof.
  revert r. induction p as [p IH|p IH|]; intros r Hr; cbn [SpecFloat.iter_pos]; [..|by rewrite shr_1_half].
  - pose proof (shr_1_half r Hr) as H1. assert (0 <= shr_m (shr_1 r)) as Hr1 by (rewrite H1; apply Z.div_pos; lia).
    pose proof (IH (shr_1 r) Hr1) as H2.
    rewrite IH by (rewrite H2; apply Z.div_pos; lia). rewrite H2, H1, !Z.div_div by lia.
    f_equal. rewrite (Pos2Z.inj_xI p), Z.pow_add_r, Z.pow_twice_r by lia. change (2 ^ 1) with 2. ring.
  - pose proof (IH r Hr) as H2. rewrite IH by (rewrite H2; apply Z.div_pos; lia). rewrite H2, Z.div_div by lia.
    f_equal. by rewrite (Pos2Z.inj_xO p), Z.pow_twice_r.
Qed.

(** Bits beyond the 53rd are shifted out, when the exponent is not near its least. *)
Lemma shr_fexp_spec p e l :
  -1021 <= Zpos (digits2_pos p) + e -> 53 <= Zpos (digits2_pos p) ->
  let n := Zpos (digits2_pos p) - 53 in
  shr_m (shr_fexp 53 1024 (Zpos p) e l).1 = Zpos p / 2 ^ n /\ (shr_fexp 53 1024 (Zpos p) e l).2 = e + n.
Proof.
  intros He Hd. cbv zeta. unfold shr_fexp, fexp, emin. cbn [Zdigits2].
  replace (Z.max _ _ - e) with (Zpos (digits2_pos p) - 53) by lia.
  assert (shr_m (shr_record_of_loc (Zpos p) l) = Zpos p) as Hm by (by destruct l as [|[]]).
  unfold shr. destruct (Zpos (digits2_pos p) - 53) as [|n|n] eqn:Hn; [|..|lia]; cbn [fst snd].
  - rewrite Hm, Z.div_1_r. split; lia.
  - rewrite shr_iter; rewrite Hm; [done|lia].
Qed.

(** Rounding to 53 bits changes a number of 53 to 60 bits by less than its last bit kept. *)
Lemma round_aux_spec s p e l :
  -1000 <= e <= 900 -> 53 <= Zpos (digits2_pos p) <= 60 ->
  exists m k, binary_round_aux 53 1024 s (Zpos p) e l = S754_finite s m (e + k) /\
    0 <= k <= Zpos (digits2_pos p) - 52 /\ Zpos p - 2 ^ k <= Zpos m * 2 ^ k <= Zpos p + 2 ^ k.
Proof.
  intros He Hd. unfold binary_round_aux. pose proof (shr_fexp_spec p e l ltac:(lia) ltac:(lia)) as [Hm He'].
  destruct (shr_fexp 53 1024 (Zpos p) e l) as [r e']. cbn [fst snd] in Hm, He'. set (n := Zpos (digits2_pos p) - 53) in *.
  assert (0 <= n <= 7) as Hn by (subst n; lia).
  pose proof (digits_bounds p) as [Hlo Hhi]. pose proof (Z.div_mod (Zpos p) (2 ^ n) ltac:(lia)) as Hdm.
  pose proof (Z.mod_pos_bound (Zpos p) (2 ^ n) ltac:(lia)) as Hmod.
  assert (2 ^ 52 <= shr_m r < 2 ^ 53) as Hr.
  { rewrite Hm. split.
    - apply Z.div_le_lower_bound; [lia|]. rewrite <- Z.pow_add_r by lia. etrans; [|exact Hlo]. apply Z.pow_le_mono_r; lia.
    - apply Z.div_lt_upper_bound; [lia|]. rewrite <- Z.pow_add_r by lia. eapply Z.lt_le_trans; [exact Hhi|]. apply Z.pow_le_mono_r; lia. }
  set (mx := round_nearest_even _ _). assert (shr_m r <= mx <= shr_m r + 1) as Hmx.
  { subst mx. unfold round_nearest_even. destruct (loc_of_shr_record r) as [|[]]; try destruct (Z.even _); lia. }
  clearbody mx. destruct mx as [|q|q]; [lia| |lia]. rewrite <- Hm in Hdm.
  destruct (Z.eq_dec (Zpos q) (2 ^ 53)) as [Hq|Hq].
  - assert (Zpos (digits2_pos q) = 54) as Hdq by (apply digits_unique; [lia|rewrite Hq; split; [by apply Z.pow_le_mono_r|by apply Z.pow_lt_mono_r]]).
    pose proof (shr_fexp_spec q e' loc_Exact ltac:(lia) ltac:(lia)) as [Hm2 He2].
    destruct (shr_fexp 53 1024 (Zpos q) e' loc_Exact) as [r2 e2]. cbn [fst snd] in *. rewrite Hdq, Hq in Hm2.
    change (shr_m r2 = 2 ^ 52) in Hm2. rewrite Hm2. change (2 ^ 52) with (Zpos (2 ^ 52)). destruct (Z.leb_spec e2 (1024 - 53)); [|lia].
    exists (2 ^ 52)%positive, (n + 1). split_and!; [f_equal; lia|lia..| |].
    all: change (Zpos (2 ^ 52)) with (2 ^ 52); rewrite Z.pow_add_r by lia; change (2 ^ 1) with 2; nia.
  - assert (Zpos (digits2_pos q) = 53) as Hdq by (apply digits_unique; [lia|change (53 - 1) with 52; lia]).
    pose proof (shr_fexp_spec q e' loc_Exact ltac:(lia) ltac:(lia)) as [Hm2 He2].
    destruct (shr_fexp 53 1024 (Zpos q) e' loc_Exact) as [r2 e2]. cbn [fst snd] in *. rewrite Hdq in Hm2, He2.
    change (53 - 53) with 0 in Hm2. rewrite Z.div_1_r in Hm2. rewrite Hm2. destruct (Z.leb_spec e2 (1024 - 53)); [|lia].
    exists q, n. split_and!; [f_equal; lia|lia..| |]; nia.
Qed.

(** ** Hundredths, there and back *)

Lemma nearest_close a d h : 400 < d -> h * d - 200 <= a <= h * d + 200 -> nearest a d = h.
Proof.
  intros Hd Ha. unfold nearest. destruct (Z_le_gt_dec (h * d) a) as [Hle|Hgt].
  - assert (a / d = h) as Hq by (symmetry; apply (Z.div_unique a d h (a - h * d)); lia).
    assert (a mod d = a - h * d) as Hr by (symmetry; apply (Z.mod_unique a d h); lia).
    rewrite Hq, Hr. destruct (Z.compare_spec (2 * (a - h * d)) d); [lia|done|lia].
  - assert (a / d = h - 1) as Hq by (symmetry; apply (Z.div_unique a d (h - 1) (a - (h - 1) * d)); lia).
    assert (a mod d = a - (h - 1) * d) as Hr by (symmetry; apply (Z.mod_unique a d (h - 1)); lia).
    rewrite Hq, Hr. destruct (Z.compare_spec (2 * (a - (h - 1) * d)) d); lia.
Qed.

Lemma div_hundred p :
  Zpos p < 2 ^ 44 ->
  exists m e, d_div (S754_finite false p 0) (S754_finite false 100 0) = S754_finite false m e /\ -60 <= e <= -14 /\
    Zpos p * 2 ^ (- e) - 200 <= Zpos m * 100 <= Zpos p * 2 ^ (- e) + 200.
Proof.
  intros Hp. unfold d_div, SFdiv, SFdiv_core_binary, fexp, emin. cbn [Zdigits2]. change (Zpos (digits2_pos 100)) with 7.
  pose proof (digits_bounds p) as [Hlo Hhi]. set (d := Zpos (digits2_pos p)) in *.
  assert (1 <= d <= 44) as Hd.
  { split; [lia|]. assert (2 ^ (d - 1) < 2 ^ 44) as Hlt by lia. apply Z.pow_lt_mono_r_iff in Hlt; lia. }
  replace (Z.min _ _) with (d - 60) by lia. replace (0 - 0 - (d - 60)) with (60 - d) by lia.
  destruct (60 - d) as [|s|s] eqn:Hs; [lia| |lia]. rewrite Z.shiftl_mul_pow2 by lia.
  pose proof (Z_div_mod (Zpos p * 2 ^ Zpos s) 100 ltac:(lia)) as Hqr. destruct (Z.div_eucl _ 100) as [q r]. destruct Hqr as [Hqr Hr].
  assert (2 ^ 59 <= Zpos p * 2 ^ Zpos s < 2 ^ 60) as Hm.
  { rewrite <- Hs. assert (0 < 2 ^ (60 - d)) as Hpos by (apply Z.pow_pos_nonneg; lia).
    assert (2 ^ 59 = 2 ^ (d - 1) * 2 ^ (60 - d)) as -> by (rewrite <- Z.pow_add_r by lia; f_equal; lia).
    assert (2 ^ 60 = 2 ^ d * 2 ^ (60 - d)) as -> by (rewrite <- Z.pow_add_r by lia; f_equal; lia).
    split; [apply Z.mul_le_mono_nonneg_r; lia|by apply Z.mul_lt_mono_pos_r]. }
  assert (2 ^ 52 <= q < 2 ^ 54) as Hq by (change (2 ^ 59) with 576460752303423488 in Hm; change (2 ^ 60) with 1152921504606846976 in Hm;
    change (2 ^ 52) with 4503599627370496; change (2 ^ 54) with 18014398509481984; lia).
  destruct q as [|q|q]; [lia| |lia].
  assert (53 <= Zpos (digits2_pos q) <= 54) as Hdq.
  { pose proof (digits_bounds q) as [Hql Hqh]. split.
    - assert (2 ^ 52 < 2 ^ Zpos (digits2_pos q)) as Hlt by lia. apply Z.pow_lt_mono_r_iff in Hlt; lia.
    - assert (2 ^ (Zpos (digits2_pos q) - 1) < 2 ^ 54) as Hlt by lia. apply Z.pow_lt_mono_r_iff in Hlt; lia. }
  destruct (round_aux_spec (xorb false false) q (d - 60) (new_location 100 r)) as (m & k & Hres & Hk & Hb); [lia..|].
  exists m, (d - 60 + k). split; [exact Hres|]. split; [lia|].
  assert (Zpos p * 2 ^ Zpos s = Zpos p * 2 ^ (- (d - 60 + k)) * 2 ^ k) as Hpow.
  { rewrite <- Hs, <- Z.mul_assoc, <- Z.pow_add_r by lia. do 2 f_equal. lia. }
  assert (1 <= 2 ^ k) as Hk1 by (change 1 with (2 ^ 0); apply Z.pow_le_mono_r; lia). rewrite Hpow in Hqr.
  set (X := Zpos p * 2 ^ (- (d - 60 + k))) in *. nia.
Qed.

Lemma hundredths_parts h :
  0 <= h -> 0 <= h / 100 /\ 0 <= h mod 100 / 10 < 10 /\ 0 <= h mod 10 < 10.
Proof.
  intros Hh. pose proof (Z.mod_pos_bound h 100 ltac:(lia)). pose proof (Z.mod_pos_bound h 10 ltac:(lia)).
  split_and!; [by apply Z.div_pos|apply Z.div_pos; lia|apply Z.div_lt_upper_bound; lia|lia|lia].
Qed.

(** A number of hundredths is shown as it was read. *)
Lemma fixed2_hundredths h : 0 <= h < 10 ^ 13 -> fixed2 (of_decimal false h (-2)) = show_hundredths h.
Proof.
  intros Hh. change (10 ^ 13) with 10000000000000 in Hh. assert (length (show_hundredths h) <= 31)%nat as Hlen.
  { destruct (hundredths_parts h) as (H1 & H2 & H3); [lia|]. unfold show_hundredths. rewrite !length_app.
    pose proof (to_string_length (h / 100) 10) as L1. change (10 ^ Z.of_nat 11) with 100000000000 in L1.
    pose proof (to_string_length (h mod 100 / 10) 0) as L2. pose proof (to_string_length (h mod 10) 0) as L3.
    change (10 ^ Z.of_nat 1) with 10 in L2, L3. change (length (lit ".")) with 1%nat.
    assert (h / 100 < 100000000000) by (apply Z.div_lt_upper_bound; lia). lia. }
  destruct h as [|p|p]; [reflexivity| |lia].
  destruct (div_hundred p) as (m & e & Hd & He & Hb); [change (2 ^ 44) with 17592186044416; lia|].
  unfold of_decimal. change (0 <=? -2) with false. change (- -2) with 2. change (10 ^ 2) with 100. cbv iota. rewrite Hd.
  unfold fixed2. destruct (Z.leb_spec 0 e); [lia|]. rewrite (nearest_close _ _ (Zpos p)).
  - cbn [app]. by apply take_ge.
  - assert (2 ^ 9 <= 2 ^ (- e)) by (apply Z.pow_le_mono_r; lia). change (2 ^ 9) with 512 in *. lia.
  - lia.
Qed.

Lemma scan_digits_app acc l t :
  Forall (fun c => isdigit c = true) l -> scan_digits acc (l ++ t) = scan_digits (scan_digits acc l) t.
Proof. intros Hl. revert acc. induction Hl as [|c l Hc _ IH]; intros acc; cbn; [done|]. by rewrite Hc, IH. Qed.

Lemma gather_digits m p e l s :
  Forall (fun c => isdigit c = true) l -> l <> [] ->
  gather m p e (l ++ s) = (l ++ (gather true p e s).1, (gather true p e s).2).
Proof.
  intros Hl Hne. destruct Hl as [|c l Hc Hl]; [done|]. clear Hne. cbn. rewrite Hc. cbn.
  assert (gather true p e (l ++ s) = (l ++ (gather true p e s).1, (gather true p e s).2)) as ->; [|done].
  induction Hl as [|d l Hd _ IH]; [cbn; by destruct (gather true p e s)|]. cbn. rewrite Hd. by rewrite IH.
Qed.

Lemma find_past_digits l (s : bytes) :
  Forall (fun c => isdigit c = true) l ->
  find_if (fun c => negb (isdigit c)) (l ++ s) = Nat.add (length l) <$> find_if (fun c => negb (isdigit c)) s.
Proof.
  induction 1 as [|c l Hc _ IH]; unfold find_if in *; cbn.
  - by destruct (list_find _ s) as [[]|].
  - rewrite decide_False by (by rewrite Hc). revert IH.
    destruct (list_find _ (l ++ s)) as [[]|], (list_find _ s) as [[]|]; cbn; intros; by simplify_eq.
Qed.

Lemma digit_value z : 0 <= z < 10 -> exists c, to_string z = [c] /\ isdigit c = true /\ code c - 48 = z.
Proof.
  intros Hz. assert (z = 0 \/ z = 1 \/ z = 2 \/ z = 3 \/ z = 4 \/ z = 5 \/ z = 6 \/ z = 7 \/ z = 8 \/ z = 9) as Hd by lia.
  repeat (destruct Hd as [->|Hd]; [eexists; split_and!; reflexivity|]). subst z. eexists. split_and!; reflexivity.
Qed.

(** A number of hundredths is read up to what follows it. *)
Lemma extract_hundredths h c rest :
  0 <= h -> isspace c = true -> extract_double (show_hundredths h ++ c :: rest) =
    match of_decimal false h (-2) with S754_infinity _ => None | v => Some (v, c :: rest) end.
Proof.
  intros Hh Hc. destruct (hundredths_parts h Hh) as (H1 & H2 & H3).
  destruct (digit_value (h mod 100 / 10) H2) as (x & Hx & Hxd & Hxv). destruct (digit_value (h mod 10) H3) as (y & Hy & Hyd & Hyv).
  assert (isdigit c = false /\ c <> "."%char /\ c <> "e"%char /\ c <> "E"%char) as (Hcd & Hc1 & Hc2 & Hc3).
  { clear -Hc. revert Hc. destruct c as [[] [] [] [] [] [] [] []]; vm_compute; done. }
  unfold show_hundredths. rewrite Hx, Hy. rewrite to_string_digits by done. set (l := print_N (Z.to_N (h / 100))).
  assert (Forall (fun c => isdigit c = true) l) as Hl by apply print_N_digits. assert (l <> []) as Hne by apply print_N_nonempty.
  assert ((l ++ lit "." ++ [x] ++ [y]) ++ c :: rest = l ++ "."%char :: x :: y :: c :: rest) as -> by (by rewrite <- (assoc_L app)).
  unfold extract_double.
  assert (sign_of (skip_space (l ++ "."%char :: x :: y :: c :: rest)) = (false, l ++ "."%char :: x :: y :: c :: rest)) as ->.
  { destruct l as [|d l]; [done|]. pose proof Hl as [Hd _]%Forall_cons. cbn [app].
    assert (isspace d = false /\ d <> "-"%char /\ d <> "+"%char) as (Hs & ? & ?).
    { clear -Hd. revert Hd. destruct d as [[] [] [] [] [] [] [] []]; vm_compute; done. }
    rewrite skip_space_head by done. unfold sign_of. by rewrite !decide_False. }
  rewrite gather_digits by done.
  assert (gather true false false ("."%char :: x :: y :: c :: rest) = (["."%char; x; y], c :: rest)) as ->.
  { cbn. rewrite Hxd. cbn. rewrite Hyd. cbn. rewrite Hcd. rewrite !bool_decide_eq_false_2 by done. done. }
  cbn [fst snd]. unfold strtod_all.
  assert (find_if (fun c => negb (isdigit c)) (l ++ ["."%char; x; y]) = Some (length l)) as ->.
  { rewrite find_past_digits by done. change (Some (length l + 0)%nat = Some (length l)). by rewrite Nat.add_0_r. }
  cbn [from_option id]. unfold id. rewrite take_app_length, drop_app_length. rewrite decide_True by done.
  assert (find_if (fun c => negb (isdigit c)) [x; y] = None) as ->.
  { apply (find_past_digits [x; y] []). by repeat constructor. }
  cbn [from_option length take drop]. rewrite decide_False by (by destruct l).
  change (0 - Z.of_nat 2) with (-2).
  rewrite scan_digits_app by done. unfold l. rewrite scan_print_N. cbn. rewrite Hxd, Hyd, Hxv, Hyv, Z2N.id by done.
  replace ((h / 100 * 10 + h mod 100 / 10) * 10 + h mod 10) with h; [by destruct (of_decimal _ _ _)|].
  pose proof (Z.div_mod h 100 ltac:(lia)) as E1. pose proof (Z.div_mod (h mod 100) 10 ltac:(lia)) as E2.
  assert (h mod 10 = h mod 100 mod 10) as ->; [|lia]. rewrite E1 at 1. replace 100 with (10 * 10) at 1 by done.
  by rewrite <- Z.mul_assoc, Z.add_comm, Z.mul_comm, Z_mod_plus_full.
Qed.

Lemma of_hundredths_finite h : 0 <= h < 10 ^ 13 -> forall s, of_decimal false h (-2) <> S754_infinity s.
Proof.
  intros Hh s. change (10 ^ 13) with 10000000000000 in Hh. destruct h as [|p|p]; [done| |done].
  unfold of_decimal. change (0 <=? -2) with false. change (- -2) with 2. change (10 ^ 2) with 100. cbv iota.
  by destruct (div_hundred p) as (m & e & -> & _); [change (2 ^ 44) with 17592186044416; lia|].
Qed.

(** The status page shows the load averages exactly as the kernel publishes them. *)
Theorem load_shown a b c rest m rd :
  0 <= a < 10 ^ 13 -> 0 <= b < 10 ^ 13 -> 0 <= c < 10 ^ 13 ->
  loadavg m = Some (show_hundredths a ++ lit " " ++ show_hundredths b ++ lit " " ++ show_hundredths c ++ lit " " ++ rest) ->
  rd_load (measured m rd) = Some (show_hundredths a, show_hundredths b, show_hundredths c).
Proof.
  intros Ha Hb Hc Hm. assert (forall x, lit " " ++ x = " "%char :: x) as Hsep by done. rewrite !Hsep in Hm. cbn. rewrite Hm. unfold loadAverages. cbn [mbind option_bind].
  assert (forall h t, 0 <= h < 10 ^ 13 -> extract_double (show_hundredths h ++ " "%char :: t) = Some (of_decimal false h (-2), " "%char :: t)) as He.
  { intros h t Hh. rewrite extract_hundredths by (done || lia). pose proof (of_hundredths_finite h Hh) as Hf.
    destruct (of_decimal false h (-2)); try done. by destruct (Hf s). }
  assert (forall s, extract_double (" "%char :: s) = extract_double s) as Hsp by done.
  rewrite He by done. cbn [mbind option_bind]. rewrite Hsp, He by done. cbn [mbind option_bind]. rewrite Hsp, He by done.
  cbn [mbind option_bind oneMinute fiveMinute fifteenMinute]. by rewrite !fixed2_hundredths.
Qed.

Example load_ex :
  (l ← loadAverages (Some (lit "0.52 1.05 12.3e-1 2/345 6789"));
   Some (fixed2 (oneMinute l), fixed2 (fiveMinute l), fixed2 (fifteenMinute l))) =
  Some (lit "0.52", lit "1.05", lit "1.23").
Proof. vm_compute. reflexivity. Qed.
Example temp_ex : (t ← cpuTempCelsius (Some (lit "-45125" ++ [ch_nl])); Some (fixed2 t)) = Some (lit "-45.12").
Proof. vm_compute. reflexivity. Qed.
Example malformed_ex :
  loadAverages (Some (lit "0.52 1e 3")) = None /\ loadAverages (Some (lit "0.5 .  1")) = None /\ loadAverages None = None.
Proof. vm_compute. repeat split. Qed.
Example usage_ex :
  (v ← cpuAveragePrecentUsage 1 250 (Some (lit "cpu 100 0 0 100")) (Some (lit "cpu 102 0 0 104")); Some (fixed2 v)) =
  Some (lit "33.30").
Proof. vm_compute. reflexivity. Qed.
