(* ===== verification/Banner.v ===== *)
(** * Banner: what castle prints first

    Models src/src/util/printHelper.hpp: the logo, each of its lines set into the middle of
    a row of bricks. The positions are [std::size_t], and [at] throws outside its string
    ([None]). *)
From S2P Require Import Prelude Text.
Open Scope Z_scope.

Definition wall (alternate : bool) : bytes :=
  if alternate then lit "|___|___|___|___|___|___|___|___|___|___|___|___|___|___|___|___|___|_|"
  else lit "|_|___|___|___|___|___|___|___|___|___|___|___|___|___|___|___|___|___|".

Definition printBrick (alternate : bool) : bytes := wall alternate ++ [ch_nl].

(** The loop of [printViewWithBrickBorder], from position [i] with [n] to go. *)
Fixpoint border_loop (wall view : bytes) (dist : Z) (n i inc : nat) : option bytes :=
  match n with
  | O => Some []
  | S n =>
      if (Z.of_nat i <? dist) || (wrap_u 64 (dist + Z.of_nat (length view)) <=? Z.of_nat i) then
        c ← wall !! i; cons c <$> border_loop wall view dist n (S i) inc
      else c ← view !! inc; cons c <$> border_loop wall view dist n (S i) (S inc)
  end.

Definition margin (wall view : bytes) : Z := wrap_u 64 (Z.of_nat (length wall) - Z.of_nat (length view)) / 2.

Definition printViewWithBrickBorder (view : bytes) (alternate : bool) : option bytes :=
  let wall := wall alternate in
  (fun row => row ++ [ch_nl]) <$> border_loop wall view (margin wall view) (length wall) 0 0.

Definition castleLogo : list bytes := [
  lit "                _   _              ";
  lit "   ___ __ _ ___| |_| | ___   _     ";
  lit "  / __/ _` / __| __| |/ _ \_| |_   ";
  lit "| (_| (_| \__ \ |_| |  __/_   _| ";
  lit " \___\__,_|___/\__|_|\___| |_|   "].

Fixpoint logo_lines (flip : bool) (logo : list bytes) : option bytes :=
  match logo with
  | [] => Some (printBrick flip)
  | line :: logo => row ← printViewWithBrickBorder line flip; rest ← logo_lines (negb flip) logo; Some (row ++ rest)
  end.
Definition printLogo : option bytes := rest ← logo_lines false castleLogo; Some (printBrick (negb false) ++ rest).

(** ** The rows *)

Lemma border_wall wall view dist n i inc :
  (i + n = length wall)%nat -> Z.of_nat (i + n) <= dist \/ wrap_u 64 (dist + Z.of_nat (length view)) <= Z.of_nat i ->
  border_loop wall view dist n i inc = Some (drop i wall).
Proof.
  revert i. induction n as [|n IH]; intros i Hn Hd; cbn [border_loop].
  - by rewrite drop_ge by lia.
  - assert ((Z.of_nat i <? dist) || (wrap_u 64 (dist + Z.of_nat (length view)) <=? Z.of_nat i) = true) as ->.
    { apply orb_true_iff. rewrite Z.ltb_lt, Z.leb_le. lia. }
    destruct (lookup_lt_is_Some_2 wall i) as [c Hc]; [lia|]. rewrite Hc, (drop_S _ _ _ Hc). cbn [mbind option_bind].
    by rewrite IH by lia.
Qed.

(** A view that fits is printed whole in the middle of the row, and one that does not fit is
    left out: the margin wraps around. *)
Theorem bordered_row view alternate :
  Z.of_nat (length view) < 2 ^ 63 ->
  let w := wall alternate in
  printViewWithBrickBorder view alternate =
    Some ((if decide (length view <= length w)%nat then
             let d := ((length w - length view) / 2)%nat in take d w ++ view ++ drop (d + length view) w
           else w) ++ [ch_nl]).
Proof.
  intros Hv w. unfold printViewWithBrickBorder. fold w. assert (length w = 71%nat) as Hw by by destruct alternate.
  change (2 ^ 63) with 9223372036854775808 in Hv.
  enough (border_loop w view (margin w view) (length w) 0 0 = Some (if decide (length view <= length w)%nat then
             take ((length w - length view) / 2) w ++ view ++ drop ((length w - length view) / 2 + length view) w else w)) as -> by done.
  unfold margin, wrap_u. change (2 ^ 64) with 18446744073709551616. destruct (decide _) as [Hle|Hgt].
  - rewrite Z.mod_small by lia. rewrite <- Nat2Z.inj_sub by done. change 2 with (Z.of_nat 2) at 1. rewrite <- Nat2Z.inj_div.
    set (d := ((length w - length view) / 2)%nat). assert (d + length view <= length w)%nat as Hd.
    { unfold d. pose proof (Nat.Div0.div_le_upper_bound (length w - length view) 2 (length w - length view)). lia. }
    clearbody d.
    assert (forall m i inc v, (i + m = length w)%nat -> (d <= i)%nat -> v = drop inc view -> (i + length v = d + length view)%nat ->
      border_loop w view (Z.of_nat d) m i inc = Some (v ++ drop (d + length view) w)) as Hmid.
    { induction m as [|m IH]; intros i inc v Hm Hi Hvd Hlen.
      - cbn [border_loop]. destruct v; cbn [length] in Hlen; [|lia]. cbn [app]. by rewrite drop_ge by lia.
      - destruct v as [|c v].
        + cbn [length] in Hlen. cbn [app]. replace (d + length view)%nat with i by lia. apply border_wall; [done|].
          right. unfold wrap_u. rewrite Z.mod_small; lia.
        + cbn [border_loop]. cbn [length] in Hlen. assert ((Z.of_nat i <? Z.of_nat d) || (wrap_u 64 (Z.of_nat d + Z.of_nat (length view)) <=? Z.of_nat i) = false) as ->.
          { apply orb_false_iff. rewrite Z.ltb_ge, Z.leb_gt. unfold wrap_u. rewrite Z.mod_small; lia. }
          assert (view !! inc = Some c) as Hc by (by rewrite <- (Nat.add_0_r inc), <- lookup_drop, <- Hvd).
          rewrite Hc. cbn [mbind option_bind]. rewrite (IH (S i) (S inc) v); [done|lia|lia| |lia].
          rewrite <- Nat.add_1_r, <- drop_drop, <- Hvd. done. }
    assert (forall m i, (i + m = length w)%nat -> (i <= d)%nat ->
      border_loop w view (Z.of_nat d) m i 0 = Some (drop i (take d w) ++ view ++ drop (d + length view) w)) as Hleft.
    { induction m as [|m IH]; intros i Hm Hi.
      - rewrite (Hmid 0%nat i 0%nat view) by (done || lia). rewrite (drop_ge (take d w)) by (rewrite length_take; lia). done.
      - destruct (decide (i = d)) as [->|Hid].
        { rewrite (Hmid (S m) d 0%nat view) by (done || lia). by rewrite (drop_ge (take d w)) by (rewrite length_take; lia). }
        cbn [border_loop]. rewrite (proj2 (Z.ltb_lt _ _)) by lia. cbn [orb].
        destruct (lookup_lt_is_Some_2 w i) as [c Hc]; [lia|]. rewrite Hc. cbn [mbind option_bind]. rewrite IH by lia.
        by rewrite (drop_S (take d w) c i) by (rewrite lookup_take_lt by lia; done). }
    by rewrite Hleft by lia.
  - apply border_wall; [lia|]. left. rewrite <- (Z_mod_plus_full _ 1), Z.mod_small by lia.
    apply Z.div_le_lower_bound; lia.
Qed.

Example logo_ex : (fun s => (length (getlines s), forallb (fun l => length l =? 71)%nat (getlines s))) <$> printLogo = Some (7%nat, true).
Proof. vm_compute. reflexivity. Qed.
