(* ===== verification/Kernel.v ===== *)
(** * Kernel: system calls, descriptors and threads

    The part of the operating system that set-up and teardown code talks to (net/socket.cpp,
    the constructors of net/event_loop.cpp, [start] and [stop] of supervisor/supervisor.cpp
    and of control/control_server.cpp, main.cpp, all under src/src/). A system call is a
    constructor of [sys], indexed by the type of its answer; what the kernel answers is the
    interface [Os], of which nothing is assumed but that a new descriptor is not one already
    open. The [Kernel] keeps what the process holds: open descriptors, running threads,
    names of sockets in the file system; and whether a call was ever made on a descriptor
    that was not open ([faulty]): a use after close, or a double close. *)
From S2P Require Import Prelude.
Open Scope Z_scope.

(** ** System calls *)

Inductive family := AF_INET | AF_UNIX.
Inductive sockopt := SO_REUSEADDR | SO_REUSEPORT | IP_FREEBIND.

(** An IPv4 address, as its four bytes, and a port; or a path. *)
Inductive sockaddr := Inet (addr : list Z) (port : Z) | Unix (path : bytes).

(** The threads of the process besides the main one. *)
Inductive thread := SupervisorThread | Worker (i : nat) | NetWatch | AdminThread.
#[export] Instance thread_eq_dec : EqDecision thread.
Proof. solve_decision. Defined.
#[export] Instance thread_countable : Countable thread.
Proof.
  refine (inj_countable'
    (fun t => match t with SupervisorThread => inl 0%nat | NetWatch => inl 1%nat | AdminThread => inl 2%nat
                         | Worker i => inr i end)
    (fun c => match c with inl 0%nat => SupervisorThread | inl 1%nat => NetWatch | inl _ => AdminThread
                         | inr i => Worker i end) _).
  by intros [].
Defined.

(** A call, and the type of what it gives back: a result is negative when the call fails,
    and is then minus [errno]. *)
Inductive sys : Set -> Set :=
  | Socket (f : family) : sys Z                             (* close-on-exec; AF_INET: non-blocking *)
  | Fcntl_getfl (fd : Z) : sys Z
  | Fcntl_setfl (fd flags : Z) : sys Z
  | Setsockopt (fd : Z) (opt : sockopt) : sys Z
  | Bind (fd : Z) (a : sockaddr) : sys Z
  | Listen (fd backlog : Z) : sys Z
  | Accept (fd : Z) : sys Z
  | Connect (fd : Z) (a : sockaddr) : sys Z
  | Poll (fd events timeout : Z) : sys (Z * Z)              (* result, revents *)
  | Getsockopt_error (fd : Z) : sys (Z * Z)                 (* result, SO_ERROR *)
  | Close (fd : Z) : sys Z
  | Epoll_create : sys Z
  | Epoll_add (ep fd events : Z) : sys Z
  | Epoll_del (ep fd : Z) : sys Z
  | Eventfd : sys Z
  | Timerfd_create : sys Z
  | Timerfd_settime (fd sec nsec : Z) : sys Z
  | Signalfd : sys Z
  | Open (path : bytes) (append : bool) : sys Z             (* a file stream: to read, or to append *)
  | Write (fd : Z) : sys Z                                  (* the eight bytes of a doorbell *)
  | Unlink (path : bytes) : sys Z
  | Chmod (path : bytes) (mode : Z) : sys Z
  | Start_thread (t : thread) : sys unit
  | Join_thread (t : thread) : sys unit.

Definition new_fd (r : Z) : option Z := if 0 <=? r then Some r else None.

(** The descriptor a call opened. *)
Definition opened {X : Set} (c : sys X) : X -> option Z :=
  match c in sys X return X -> option Z with
  | Socket _ | Accept _ | Open _ _ | Epoll_create | Eventfd | Timerfd_create | Signalfd => new_fd
  | _ => fun _ => None
  end.

(** The descriptors a call is made on. *)
Definition used {X : Set} (c : sys X) : list Z :=
  match c with
  | Fcntl_getfl fd | Fcntl_setfl fd _ | Setsockopt fd _ | Bind fd _ | Listen fd _ | Accept fd | Connect fd _ | Poll fd _ _
  | Getsockopt_error fd | Close fd | Timerfd_settime fd _ _ | Write fd => [fd]
  | Epoll_add ep fd _ | Epoll_del ep fd => [ep; fd]
  | _ => []
  end.

Definition closed {X : Set} (c : sys X) : option Z := match c with Close fd => Some fd | _ => None end.

(** ** What the process holds *)

(** A call that was made, with its answer. *)
Record event := mk_event { ev_type : Set; ev_call : sys ev_type; ev_answer : ev_type }.
#[global] Arguments mk_event {_} _ _.

Record Kernel := mk_kernel {
  calls : list event;
  opens : gset Z;
  threads : gset thread;
  names : gset bytes;          (* sockets of castle in the file system *)
  faulty : bool
}.
#[export] Instance eta_Kernel : Eta Kernel := fun k =>
  mk_kernel (calls k) (opens k) (threads k) (names k) (faulty k).

Definition fds_after {X : Set} (c : sys X) (r : X) (fds : gset Z) : gset Z :=
  match opened c r with
  | Some fd => {[fd]} ∪ fds
  | None => match closed c with Some fd => fds ∖ {[fd]} | None => fds end
  end.

Definition threads_after {X : Set} (c : sys X) (ts : gset thread) : gset thread :=
  match c with Start_thread t => {[t]} ∪ ts | Join_thread t => ts ∖ {[t]} | _ => ts end.

Definition names_after {X : Set} (c : sys X) : X -> gset bytes -> gset bytes :=
  match c in sys X return X -> gset bytes -> gset bytes with
  | Bind _ (Unix path) => fun r ns => if r <? 0 then ns else {[path]} ∪ ns
  | Unlink path => fun _ ns => ns ∖ {[path]}
  | _ => fun _ ns => ns
  end.

Definition threadless {X : Set} (c : sys X) : bool := match c with Start_thread _ | Join_thread _ => false | _ => true end.

Lemma used_threadless {X : Set} (c : sys X) : used c <> [] -> threadless c = true.
Proof. by destruct c. Qed.

(** A descriptor that is not open; a negative one is refused without harm. A thread is
    joined once, while it runs. *)
Definition misused {X : Set} (c : sys X) (k : Kernel) : bool :=
  negb (forallb (fun fd => (fd <? 0) || bool_decide (fd ∈ opens k)) (used c)) ||
  match c with Join_thread t => negb (bool_decide (t ∈ threads k)) | Start_thread t => bool_decide (t ∈ threads k) | _ => false end.

Definition after {X : Set} (c : sys X) (r : X) (k : Kernel) : Kernel :=
  mk_kernel (calls k ++ [mk_event c r]) (fds_after c r (opens k)) (threads_after c (threads k))
    (names_after c r (names k)) (faulty k || misused c k).

(** The kernel, and the texts of its errors. *)
Class Os := {
  answer : Kernel -> forall X : Set, sys X -> X;
  strerror : Z -> bytes;
  answer_fresh : forall k X (c : sys X) fd, opened c (answer k X c) = Some fd -> fd ∉ opens k
}.

Definition EINTR : Z := 4.
Definition EINPROGRESS : Z := 115.
Definition POLLIN : Z := 1.
Definition POLLOUT : Z := 4.

Section Kernel.
Context `{Os}.

Definition call {X : Set} (c : sys X) : M Kernel X := fun k => let r := answer k X c in (r, after c r k).

(** The text of the error that [r], a failed call, left in [errno]. *)
Definition error_text (r : Z) : bytes := strerror (- r).

(** ** Proving programs of the kernel

    [wp m Q k]: run from [k], [m] ends in a result and a state of which [Q] holds. *)
Definition wp {S A} (m : M S A) (Q : A -> S -> Prop) (s : S) : Prop := Q (m s).1 (m s).2.

Lemma sys_wp_ret {S A} (x : A) (Q : A -> S -> Prop) s : Q x s -> wp (mret x) Q s.
Proof. done. Qed.

Lemma sys_wp_bind {S A B} (m : M S A) (f : A -> M S B) Q s :
  wp m (fun x s => wp (f x) Q s) s -> wp (m ≫= f) Q s.
Proof. unfold wp, mbind, M_bind. by destruct (m s). Qed.

Lemma wp_let {S A B} (m : M S A) (f : A -> M S B) Q s :
  wp m (fun x s => wp (f x) Q s) s -> wp (bind m f) Q s.
Proof. apply sys_wp_bind. Qed.

Lemma sys_wp_mono {S A} (m : M S A) (Q Q' : A -> S -> Prop) s :
  wp m Q s -> (forall x s', Q x s' -> Q' x s') -> wp m Q' s.
Proof. unfold wp. auto. Qed.

Lemma wp_call {X : Set} (c : sys X) Q k :
  (forall r, (forall fd, opened c r = Some fd -> fd ∉ opens k) -> Q r (after c r k)) -> wp (call c) Q k.
Proof. intros HQ. apply HQ. intros fd. apply answer_fresh. Qed.

Lemma wp_for_each {S A} (I : list A -> S -> Prop) (body : A -> M S unit) l s :
  I l s -> (forall x l s, I (x :: l) s -> wp (body x) (fun _ => I l) s) ->
  wp (for_each l body) (fun _ => I []) s.
Proof.
  intros Hi Hb. revert s Hi. induction l as [|x l IH]; intros s Hi; cbn [for_each]; [by apply sys_wp_ret|].
  apply sys_wp_bind. eapply sys_wp_mono; [by apply Hb|]. intros [] s'. apply IH.
Qed.

(** ** What a program holds

    Exactly these descriptors, threads and names, and nothing was misused. *)
Record holds (F : gset Z) (T : gset thread) (N : gset bytes) (k : Kernel) : Prop := {
  holds_fds : opens k = F;
  holds_threads : threads k = T;
  holds_names : names k = N;
  holds_sound : faulty k = false
}.

Lemma holds_eq F F' T T' N N' k : holds F T N k -> F = F' -> T = T' -> N = N' -> holds F' T' N' k.
Proof. by intros Hk -> -> ->. Qed.

(** A call that opens a descriptor: it is new, or there is none. *)
Lemma wp_open (c : sys Z) F T N Q k :
  holds F T N k -> opened c = new_fd -> misused c k = false ->
  (forall ts, threads_after c ts = ts) -> (forall r ns, names_after c r ns = ns) -> closed c = None ->
  (forall r k', 0 <= r -> r ∉ F -> holds ({[r]} ∪ F) T N k' -> calls k' = calls k ++ [mk_event c r] -> Q r k') ->
  (forall r k', r < 0 -> holds F T N k' -> calls k' = calls k ++ [mk_event c r] -> Q r k') ->
  wp (call c) Q k.
Proof.
  intros [<- <- <- Hf] Ho Hm Ht Hn Hc Hok Hbad. apply wp_call. intros r Hr. rewrite Ho in Hr. unfold new_fd in Hr.
  destruct (Z.leb_spec 0 r) as [Hp|Hp].
  - apply Hok; [done|by apply Hr| |done]. split; cbn; rewrite ?Ht, ?Hn, ?Hf, ?Hm; try done.
    unfold fds_after. rewrite Ho. unfold new_fd. by destruct (Z.leb_spec 0 r); [|lia].
  - apply Hbad; [done| |done]. split; cbn; rewrite ?Ht, ?Hn, ?Hf, ?Hm; try done.
    unfold fds_after. rewrite Ho, Hc. unfold new_fd. by destruct (Z.leb_spec 0 r); [lia|].
Qed.

(** A call on descriptors that are open, which opens and closes none. *)
Lemma wp_use {X : Set} (c : sys X) F T N Q k :
  holds F T N k -> (forall fd, fd ∈ used c -> 0 <= fd -> fd ∈ F) ->
  (forall r, opened c r = None) -> closed c = None ->
  threadless c = true ->
  (forall r k', holds F T (names_after c r N) k' -> calls k' = calls k ++ [mk_event c r] -> Q r k') ->
  wp (call c) Q k.
Proof.
  intros [<- <- <- Hf] Hu Ho Hc Ht HQ. apply wp_call. intros r _. apply HQ; [|done]. split; cbn.
  - unfold fds_after. by rewrite Ho, Hc.
  - destruct c; done.
  - done.
  - rewrite Hf. unfold misused. cbn. rewrite (proj2 (forallb_forall _ _)).
    + by destruct c.
    + intros fd Hin. apply orb_true_iff. destruct (Z.ltb_spec fd 0); [by left|]. right.
      apply bool_decide_eq_true, Hu; [|done]. by apply list_elem_of_In.
Qed.

Lemma wp_close fd F T N Q k :
  holds F T N k -> fd ∈ F -> (forall r k', holds (F ∖ {[fd]}) T N k' -> calls k' = calls k ++ [mk_event (Close fd) r] -> Q r k') -> wp (call (Close fd)) Q k.
Proof.
  intros [<- <- <- Hf] Hu HQ. apply wp_call. intros r _. apply HQ; [|done]. split; cbn; try done.
  rewrite Hf. unfold misused. cbn. by rewrite bool_decide_eq_true_2, orb_true_r.
Qed.

Lemma wp_start_thread t F T N Q k :
  holds F T N k -> t ∉ T -> (forall k', holds F ({[t]} ∪ T) N k' -> Q tt k') -> wp (call (Start_thread t)) Q k.
Proof.
  intros [<- <- <- Hf] Ht HQ. apply wp_call. intros [] _. apply HQ. split; cbn; try done.
  rewrite Hf. unfold misused. cbn. by rewrite bool_decide_eq_false_2.
Qed.

Lemma wp_join t F T N Q k :
  holds F T N k -> t ∈ T -> (forall k', holds F (T ∖ {[t]}) N k' -> Q tt k') -> wp (call (Join_thread t)) Q k.
Proof.
  intros [<- <- <- Hf] Ht HQ. apply wp_call. intros [] _. apply HQ. split; cbn; try done.
  rewrite Hf. unfold misused. cbn. by rewrite bool_decide_eq_true_2.
Qed.

(** ** What a program owns

    Descriptors of its own, one by one, besides those that are not its business. *)
Definition owns (L : list Z) (F : gset Z) (T : gset thread) (N : gset bytes) (k : Kernel) : Prop :=
  holds (list_to_set L ∪ F) T N k /\ NoDup L /\ forall x, x ∈ L -> 0 <= x /\ x ∉ F.

Lemma owns_nil F T N k : owns [] F T N k <-> holds F T N k.
Proof.
  unfold owns. cbn. split.
  - intros (Hk & _ & _). eapply holds_eq; [exact Hk|set_solver|done..].
  - intros Hk. split_and!; [eapply holds_eq; [exact Hk|set_solver|done..]|constructor|]. by intros x ?%not_elem_of_nil.
Qed.

Lemma owns_holds L F T N k : owns L F T N k -> holds (list_to_set L ∪ F) T N k.
Proof. by intros []. Qed.

Lemma owns_perm L L' F T N k : L ≡ₚ L' -> owns L F T N k -> owns L' F T N k.
Proof.
  intros HL (Hk & Hn & Hd). split_and!; [|by rewrite <- HL|].
  - eapply holds_eq; [exact Hk| |done..]. apply set_eq. intros x. rewrite !elem_of_union, !elem_of_list_to_set. by rewrite HL.
  - intros x. rewrite <- HL. apply Hd.
Qed.

(** What was gained besides [L2], which was owned already. *)
Lemma owns_app L1 L2 F T N T' N' k k' :
  owns L1 (list_to_set L2 ∪ F) T N k -> owns L2 F T' N' k' -> owns (L1 ++ L2) F T N k.
Proof.
  intros (Hk & Hn & Hd) (_ & Hn2 & Hd2). split_and!.
  - eapply holds_eq; [exact Hk| |done..]. rewrite list_to_set_app_L. set_solver.
  - apply NoDup_app. split_and!; [done| |done]. intros x [? Hx]%Hd. set_solver.
  - intros x [Hx|Hx]%elem_of_app; [|by apply Hd2]. apply Hd in Hx as [? Hx]. split; [done|set_solver].
Qed.

Lemma wp_owns_open (c : sys Z) L F T N Q k :
  owns L F T N k -> opened c = new_fd -> misused c k = false ->
  (forall ts, threads_after c ts = ts) -> (forall r ns, names_after c r ns = ns) -> closed c = None ->
  (forall r k', 0 <= r -> owns (r :: L) F T N k' -> Q r k') ->
  (forall r k', r < 0 -> owns L F T N k' -> Q r k') ->
  wp (call c) Q k.
Proof.
  intros (Hk & Hn & Hd) Ho Hm Ht Hna Hc Hok Hbad. eapply wp_open; [exact Hk|done..| |].
  - intros r k' Hp Hr Hk' _. apply Hok; [done|]. split_and!.
    + eapply holds_eq; [exact Hk'|set_solver|done..].
    + constructor; [set_solver|done].
    + intros x [->|Hx]%elem_of_cons; [set_solver|by apply Hd].
  - intros r k' Hp Hk' _. by apply Hbad.
Qed.

Lemma wp_owns_close fd L F T N Q k :
  owns (fd :: L) F T N k -> (forall r k', owns L F T N k' -> Q r k') -> wp (call (Close fd)) Q k.
Proof.
  intros (Hk & Hn & Hd) HQ. eapply wp_close; [exact Hk|set_solver|]. intros r k' Hk' _. apply (HQ r).
  apply NoDup_cons in Hn as [Hfd Hn]. split_and!; [|done|intros x Hx; apply Hd; by right].
  pose proof (Hd fd ltac:(by left)) as [_ HF]. eapply holds_eq; [exact Hk'| |done..].
  apply set_eq. intros x. rewrite list_to_set_cons. set_solver.
Qed.

Lemma wp_owns_use {X : Set} (c : sys X) L F T N Q k :
  owns L F T N k -> (forall fd, fd ∈ used c -> 0 <= fd -> fd ∈ L) ->
  (forall r, opened c r = None) -> closed c = None -> threadless c = true ->
  (forall r k', owns L F T (names_after c r N) k' -> Q r k') -> wp (call c) Q k.
Proof.
  intros (Hk & Hn & Hd) Hu Ho Hc Ht HQ. eapply wp_use; [exact Hk| |done..|].
  - intros fd Hfd Hp. apply elem_of_union. left. apply elem_of_list_to_set. by apply Hu.
  - intros r k' Hk' _. by apply HQ.
Qed.
End Kernel.

(** One call of a program: its rule, with what it is made on found among what is held. *)
Ltac wp_opens r Hr Hnew Hk Hc :=
  apply wp_let; eapply wp_open; [eassumption|done|done|done|done|done|intros r ? Hr Hnew Hk Hc|intros r ? Hr Hk Hc].
Ltac wp_uses r Hk Hc :=
  apply wp_let; eapply wp_use;
  [eassumption|intros ?; cbn [used]; set_solver|done|done|done|intros r ? Hk Hc; cbn [names_after] in Hk].

(** ** A kernel that always succeeds, but for the calls it is told to refuse *)

Definition fresh_fd (k : Kernel) : Z := foldr Z.max 2 (elements (opens k)) + 1.

Lemma fresh_fd_new k : fresh_fd k ∉ opens k.
Proof.
  unfold fresh_fd. rewrite <- elem_of_elements. generalize (elements (opens k)). intros l Hin.
  assert (forall x, x ∈ l -> x <= foldr Z.max 2 l) as Hm.
  { clear. induction l as [|y l IH]; intros x; [by intros ?%not_elem_of_nil|].
    intros [->|Hx]%elem_of_cons; cbn; [lia|]. specialize (IH x Hx). lia. }
  specialize (Hm _ Hin). lia.
Qed.

(** The number of the call decides whether it is refused, and with which [errno]. *)
Definition demo_answer (refuse : nat -> option Z) (k : Kernel) (X : Set) (c : sys X) : X :=
  let r := match refuse (length (calls k)) with Some e => - Z.max 1 e | None => 0 end in
  let fd := if r <? 0 then r else fresh_fd k in
  match c in sys X return X with
  | Socket _ | Accept _ | Open _ _ | Epoll_create | Eventfd | Timerfd_create | Signalfd => fd
  | Poll _ events _ => if r <? 0 then (r, 0) else (1, events)
  | Getsockopt_error _ => (r, 0)
  | Start_thread _ | Join_thread _ => tt
  | Fcntl_getfl _ | Fcntl_setfl _ _ | Setsockopt _ _ | Bind _ _ | Listen _ _ | Connect _ _ | Close _ | Epoll_add _ _ _ | Epoll_del _ _
  | Timerfd_settime _ _ _ | Write _ | Unlink _ | Chmod _ _ => r
  end.

Program Definition demo_kernel (refuse : nat -> option Z) : Os :=
  {| answer := demo_answer refuse; strerror _ := lit "refused" |}.
Next Obligation.
  intros refuse k X c fd. destruct c; cbn; try done; unfold new_fd;
    (destruct (Z.ltb_spec (match refuse (length (calls k)) with Some e => - Z.max 1 e | None => 0 end) 0);
     [destruct (Z.leb_spec 0 (match refuse (length (calls k)) with Some e => - Z.max 1 e | None => 0 end)); [lia|done]|];
     destruct (0 <=? fresh_fd k); [|done]; intros [= <-]; apply fresh_fd_new).
Qed.

Definition no_calls : Kernel := mk_kernel [] ∅ ∅ ∅ false.
Lemma holds_no_calls : holds ∅ ∅ ∅ no_calls.
Proof. by split. Qed.
