(* ===== verification/LogFiles.v ===== *)
(** * LogFiles: the descriptors of the log

    The streams behind src/src/util/log.hpp and src/src/util/log.h, over [Kernel]: the
    [std::ifstream] that an [IndexedFileReader] keeps open between calls, the
    [std::ofstream] of one entry, and the two statics of log.h that own them until the
    process exits. What is read and written is in [Log.v]; a stream that is not open
    holds -1. *)
From S2P Require Import Prelude Kernel.
Open Scope Z_scope.

Section LogFiles.
Context `{Os}.

(** ** [IndexedFileReader] *)

(** [in_.close()], also the destructor. *)
Definition close_stream (in_ : Z) : M Kernel unit :=
  if 0 <=? in_ then call (Close in_) ;; mret tt else mret tt.

(** [reindex]: close, and open afresh; reading the lines opens nothing. *)
Definition reindex (filename_ : bytes) (in_ : Z) : M Kernel Z :=
  close_stream in_ ;; call (Open filename_ false).

(** The constructor. *)
Definition new_reader (filename_ : bytes) : M Kernel Z := reindex filename_ (-1).

(** ** [Logger] *)

(** The constructor: [None] when it throws, its members destroyed. [out] is closed at its
    end. *)
Definition new_logger (name : bytes) : M Kernel (option Z) :=
  let! in_ := new_reader name in
  let! out := call (Open name true) in
  if out <? 0 then close_stream in_ ;; mret None
  else
    let! in_ := reindex name in_ in
    call (Close out) ;; mret (Some in_).

(** [write]: the stream lives as long as the call; it throws when it cannot open. *)
Definition write (name : bytes) : M Kernel unit :=
  let! out := call (Open name true) in
  if out <? 0 then mret tt else call (Close out) ;; mret tt.

(** ** The statics of log.h *)

(** [file_logger()] and [log_reader()]: null, or the stream of their reader. *)
Record LogFds := mk_log_fds { file_logger : option Z; log_reader : option Z }.
Definition no_log : LogFds := mk_log_fds None None.

Definition log_init (path : bytes) : M Kernel LogFds :=
  if decide (path = []) then mret no_log
  else
    let! logger := new_logger path in
    match logger with
    | None => mret no_log
    | Some in_ => let! rd := new_reader path in mret (mk_log_fds (Some in_) (Some rd))
    end.

(** [log_msg] of a level above [Info]; an exception of [write] is caught. *)
Definition log_msg (path : bytes) (lg : LogFds) : M Kernel unit :=
  match file_logger lg with Some _ => write path | None => mret tt end.

Definition log_pull_new (path : bytes) (lg : LogFds) : M Kernel LogFds :=
  match log_reader lg with
  | Some in_ => let! rd := reindex path in_ in mret (mk_log_fds (file_logger lg) (Some rd))
  | None => mret lg
  end.

(** The destructors of the statics, when the process exits. *)
Definition destroy_statics (lg : LogFds) : M Kernel unit :=
  close_stream (default (-1) (log_reader lg)) ;; close_stream (default (-1) (file_logger lg)).

(** ** What they hold *)

Definition open_fd (fd : Z) : list Z := if 0 <=? fd then [fd] else [].
Definition log_fds (lg : LogFds) : list Z :=
  open_fd (default (-1) (log_reader lg)) ++ open_fd (default (-1) (file_logger lg)).

Lemma log_fds_few lg : (length (log_fds lg) <= 2)%nat.
Proof. unfold log_fds, open_fd. rewrite length_app. repeat case_match; cbn; lia. Qed.

Lemma wp_close_stream fd L F T N (Q : unit -> Kernel -> Prop) k :
  owns (open_fd fd ++ L) F T N k -> (forall k', owns L F T N k' -> Q tt k') -> wp (close_stream fd) Q k.
Proof.
  unfold close_stream, open_fd. intros Hk HQ. destruct (0 <=? fd); [|by apply sys_wp_ret, HQ].
  apply sys_wp_bind. eapply wp_owns_close; [exact Hk|]. intros r k1 Hk1. by apply sys_wp_ret, HQ.
Qed.

Lemma wp_open_stream path app L F T N (Q : Z -> Kernel -> Prop) k :
  owns L F T N k -> (forall fd k', owns (open_fd fd ++ L) F T N k' -> Q fd k') -> wp (call (Open path app)) Q k.
Proof.
  intros Hk HQ. eapply wp_owns_open; [exact Hk|done..| |]; intros r k1 Hr Hk1; apply HQ; unfold open_fd;
    destruct (Z.leb_spec 0 r); try lia; exact Hk1.
Qed.

Lemma wp_reindex path fd L F T N (Q : Z -> Kernel -> Prop) k :
  owns (open_fd fd ++ L) F T N k -> (forall fd' k', owns (open_fd fd' ++ L) F T N k' -> Q fd' k') ->
  wp (reindex path fd) Q k.
Proof.
  intros Hk HQ. apply sys_wp_bind. eapply wp_close_stream; [exact Hk|]. intros k1 Hk1. by eapply wp_open_stream.
Qed.

Lemma wp_new_reader path L F T N (Q : Z -> Kernel -> Prop) k :
  owns L F T N k -> (forall fd k', owns (open_fd fd ++ L) F T N k' -> Q fd k') -> wp (new_reader path) Q k.
Proof. intros Hk HQ. eapply (wp_reindex path (-1)); [exact Hk|exact HQ]. Qed.

Lemma wp_new_logger path L F T N (Q : option Z -> Kernel -> Prop) k :
  owns L F T N k -> (forall l k', owns (open_fd (default (-1) l) ++ L) F T N k' -> Q l k') -> wp (new_logger path) Q k.
Proof.
  intros Hk HQ. apply wp_let. eapply wp_new_reader; [exact Hk|]. intros in_ k1 Hk1.
  apply wp_let. eapply wp_open_stream; [exact Hk1|]. intros out k2 Hk2. destruct (Z.ltb_spec out 0) as [Ho|Ho].
  - apply sys_wp_bind. unfold open_fd at 1 in Hk2. destruct (Z.leb_spec 0 out); [lia|].
    eapply wp_close_stream; [exact Hk2|]. intros k3 Hk3. by apply sys_wp_ret, HQ.
  - apply wp_let. eapply wp_reindex; [eapply owns_perm; [|exact Hk2]; apply Permutation_app_swap_app|]. intros in2 k3 Hk3.
    apply sys_wp_bind. unfold open_fd at 2 in Hk3. destruct (Z.leb_spec 0 out); [|lia].
    eapply wp_owns_close; [eapply owns_perm; [|exact Hk3]; symmetry; apply Permutation_middle|].
    intros r k4 Hk4. by apply sys_wp_ret, HQ.
Qed.

Lemma wp_log_init path L F T N (Q : LogFds -> Kernel -> Prop) k :
  owns L F T N k -> (forall lg k', (path = [] -> lg = no_log) -> owns (log_fds lg ++ L) F T N k' -> Q lg k') ->
  wp (log_init path) Q k.
Proof.
  intros Hk HQ. unfold log_init. case_decide as Hp; [by apply sys_wp_ret, HQ|].
  apply wp_let. eapply wp_new_logger; [exact Hk|]. intros [in_|] k1 Hk1; [|by apply sys_wp_ret, HQ].
  apply wp_let. eapply wp_new_reader; [exact Hk1|]. intros rd k2 Hk2. apply sys_wp_ret, HQ; [done|].
  unfold log_fds. cbn. by rewrite <- (assoc_L app).
Qed.

(** An entry leaves nothing open. *)
Lemma wp_log_msg path lg L F T N (Q : unit -> Kernel -> Prop) k :
  owns L F T N k -> (forall k', owns L F T N k' -> Q tt k') -> wp (log_msg path lg) Q k.
Proof.
  intros Hk HQ. unfold log_msg, write. destruct (file_logger lg); [|by apply sys_wp_ret, HQ].
  apply wp_let. eapply wp_owns_open; [exact Hk|done..| |]; intros r k1 Hr Hk1.
  - destruct (Z.ltb_spec r 0); [lia|]. apply sys_wp_bind. eapply wp_owns_close; [exact Hk1|]. intros r2 k2 Hk2. by apply sys_wp_ret, HQ.
  - destruct (Z.ltb_spec r 0); [|lia]. by apply sys_wp_ret, HQ.
Qed.

Lemma wp_log_pull_new path lg L F T N (Q : LogFds -> Kernel -> Prop) k :
  owns (log_fds lg ++ L) F T N k -> (forall lg' k', owns (log_fds lg' ++ L) F T N k' -> Q lg' k') ->
  wp (log_pull_new path lg) Q k.
Proof.
  intros Hk HQ. unfold log_pull_new. destruct (log_reader lg) as [fd|] eqn:Hr; [|by apply sys_wp_ret, HQ].
  unfold log_fds in Hk. rewrite Hr, <- (assoc_L app) in Hk. apply wp_let. eapply wp_reindex; [exact Hk|].
  intros rd k1 Hk1. apply sys_wp_ret, HQ. unfold log_fds. cbn. by rewrite <- (assoc_L app).
Qed.

Lemma wp_destroy_statics lg L F T N (Q : unit -> Kernel -> Prop) k :
  owns (log_fds lg ++ L) F T N k -> (forall k', owns L F T N k' -> Q tt k') -> wp (destroy_statics lg) Q k.
Proof.
  intros Hk HQ. unfold log_fds in Hk. rewrite <- (assoc_L app) in Hk. apply sys_wp_bind.
  eapply wp_close_stream; [exact Hk|]. intros k1 Hk1. by eapply wp_close_stream.
Qed.
End LogFiles.
