(* ===== verification/Sockets.v ===== *)
(** * Sockets: the owner of a descriptor, and the two ways to make one

    Models src/src/net/socket.{h,cpp}: the class [Socket], which owns a descriptor and
    closes it once; [make_reuseport_listener]; [tcp_probe]. Local [Socket] objects are
    closed where their scope ends. [inet_pton] is the C library's, for IPv4. *)
From S2P Require Import Prelude Text Kernel.
Open Scope Z_scope.

(** ** Addresses *)

(** At most [n] digits. *)
Fixpoint octet_digits (n : nat) (s : bytes) : bytes * bytes :=
  match n, s with
  | S n, c :: s' => if isdigit c then let '(d, r) := octet_digits n s' in (c :: d, r) else ([], s)
  | _, _ => ([], s)
  end.

(** One part of a dotted address: no leading zero, at most 255. *)
Definition octet (s : bytes) : option (Z * bytes) :=
  let '(d, r) := octet_digits 3 s in
  let v := scan_digits 0 d in
  if bool_decide (d = []) || ((1 <? length d)%nat && bool_decide (head d = Some "0"%char)) || (255 <? v) then None
  else Some (v, r).

Fixpoint octets (n : nat) (s : bytes) : option (list Z) :=
  '(v, s) ← octet s;
  match n, s with
  | O, [] => Some [v]
  | S n, c :: s => if decide (c = "."%char) then (fun vs => v :: vs) <$> octets n s else None
  | _, _ => None
  end.

(** [inet_pton(AF_INET, ...) == 1], and the address. *)
Definition inet_pton (s : bytes) : option (list Z) := octets 3 s.

Definition INADDR_ANY : list Z := [0; 0; 0; 0].

Section Sockets.
Context `{Os}.

(** ** Functions *)

(** [Socket::close], also the destructor: a [Socket] that holds nothing has [fd_ = -1]. *)
Definition socket_close (fd_ : Z) : M Kernel Z :=
  if 0 <=? fd_ then call (Close fd_) ;; mret (-1) else mret fd_.

Definition O_NONBLOCK : Z := 2048.

Definition set_nonblocking (fd_ : Z) : M Kernel bool :=
  let! flags := call (Fcntl_getfl fd_) in
  if flags <? 0 then mret false
  else
    let! r := call (Fcntl_setfl fd_ (Z.lor flags O_NONBLOCK)) in
    mret (r =? 0).

(** The descriptor of the [Socket] returned, and [err]. *)
Definition make_reuseport_listener (bind_addr : bytes) (port backlog : Z) (err : bytes) : M Kernel (Z * bytes) :=
  let! fd := call (Socket AF_INET) in
  if fd <? 0 then mret (-1, lit "socket: " ++ error_text fd)
  else
    let fail (err : bytes) := socket_close fd ;; mret (-1, err) in
    let! r := call (Setsockopt fd SO_REUSEADDR) in
    if r <? 0 then fail (lit "SO_REUSEADDR: " ++ error_text r)
    else
      let! r := call (Setsockopt fd SO_REUSEPORT) in
      if r <? 0 then fail (lit "SO_REUSEPORT: " ++ error_text r)
      else
        let bound (addr : list Z) :=
          let! r := call (Bind fd (Inet addr port)) in
          if r <? 0 then fail (lit "bind: " ++ error_text r)
          else
            let! r := call (Listen fd backlog) in
            if r <? 0 then fail (lit "listen: " ++ error_text r) else mret (fd, err) in
        if decide (bind_addr = []) then bound INADDR_ANY
        else
          match inet_pton bind_addr with
          | None => fail (lit "bind address not a valid IPv4 address: " ++ bind_addr)
          | Some addr =>
              let! r := call (Setsockopt fd IP_FREEBIND) in
              if r <? 0 then fail (lit "IP_FREEBIND: " ++ error_text r) else bound addr
          end.

Definition tcp_probe (host : bytes) (port timeout_ms : Z) : M Kernel bool :=
  let! sock := call (Socket AF_INET) in
  let leave (b : bool) := socket_close sock ;; mret b in
  if sock <? 0 then mret false
  else
    match inet_pton host with
    | None => leave false
    | Some addr =>
        let! r := call (Connect sock (Inet addr port)) in
        if r =? 0 then leave true
        else if negb (r =? - EINPROGRESS) then leave false
        else
          let! pr := call (Poll sock POLLOUT timeout_ms) in
          if (pr.1 <=? 0) || (Z.land pr.2 POLLOUT =? 0) then leave false
          else
            let! er := call (Getsockopt_error sock) in
            leave ((er.1 =? 0) && (er.2 =? 0))
    end.

(** ** What they promise *)

(** The address asked for. *)
Definition asked (bind_addr : bytes) : option (list Z) :=
  if decide (bind_addr = []) then Some INADDR_ANY else inet_pton bind_addr.

(** A step of the set-up of a socket: what a failure is called, and the call. *)
Definition step : Type := bytes * (Z -> sys Z).

(** What is done to a new socket, in order; without an address to bind, the set-up ends
    after the options. *)
Definition setup (bind_addr : bytes) (port backlog : Z) : list step :=
  [(lit "SO_REUSEADDR: ", fun fd => Setsockopt fd SO_REUSEADDR);
   (lit "SO_REUSEPORT: ", fun fd => Setsockopt fd SO_REUSEPORT)] ++
  match asked bind_addr with
  | None => []
  | Some addr =>
      (if decide (bind_addr = []) then [] else [(lit "IP_FREEBIND: ", fun fd => Setsockopt fd IP_FREEBIND)]) ++
      [(lit "bind: ", fun fd => Bind fd (Inet addr port)); (lit "listen: ", fun fd => Listen fd backlog)]
  end.

(** A new socket [fd], and [steps] done to it with the answers [rs]. *)
Definition ran (fd : Z) (steps : list step) (rs : list Z) : list event :=
  mk_event (Socket AF_INET) fd :: zip_with (fun s r => mk_event (s.2 fd) r) steps rs.

(** Every one of [steps] was done, and succeeded. *)
Definition succeeded (steps : list step) (rs : list Z) : Prop :=
  length rs = length steps /\ Forall (fun r => 0 <= r) rs.

(** [evs] makes [fd] a socket that listens, with the options that let every worker bind the
    same port, and every call succeeded. *)
Definition listening (bind_addr : bytes) (port backlog fd : Z) (evs : list event) : Prop :=
  asked bind_addr <> None /\
  exists rs, succeeded (setup bind_addr port backlog) rs /\ evs = ran fd (setup bind_addr port backlog) rs.

(** Why there is no listener: [evs] is what was done, [err] the reason given. The error
    is the one of the call that failed, which is the last but for the close, and it is
    called by the name of that step. *)
Definition refusal (bind_addr : bytes) (port backlog : Z) (err : bytes) (evs : list event) : Prop :=
  (exists r, r < 0 /\ evs = [mk_event (Socket AF_INET) r] /\ err = lit "socket: " ++ error_text r) \/
  (exists fd rs q, asked bind_addr = None /\ succeeded (setup bind_addr port backlog) rs /\
     evs = ran fd (setup bind_addr port backlog) rs ++ [mk_event (Close fd) q] /\
     err = lit "bind address not a valid IPv4 address: " ++ bind_addr) \/
  exists fd before label c after rs r q,
    setup bind_addr port backlog = before ++ (label, c) :: after /\ succeeded before rs /\ r < 0 /\
    evs = ran fd before rs ++ [mk_event (c fd) r; mk_event (Close fd) q] /\ err = label ++ error_text r.

Lemma wp_socket_close fd F T N Q k :
  holds F T N k -> (0 <= fd -> fd ∈ F) -> (forall k', holds (if 0 <=? fd then F ∖ {[fd]} else F) T N k' -> Q (-1) k') ->
  (fd < 0 -> fd = -1) -> wp (socket_close fd) Q k.
Proof.
  intros Hk Hf HQ Hn. unfold socket_close. destruct (Z.leb_spec 0 fd).
  - apply sys_wp_bind. eapply wp_close; [exact Hk|auto|]. intros r k' Hk' _. by apply sys_wp_ret, HQ.
  - rewrite Hn by done. apply sys_wp_ret. by apply HQ.
Qed.

(** Giving up a socket made a moment ago. *)
Lemma wp_leave {A} (x : A) fd F T N Q k :
  holds ({[fd]} ∪ F) T N k -> 0 <= fd -> fd ∉ F ->
  (forall r k', holds F T N k' -> calls k' = calls k ++ [mk_event (Close fd) r] -> Q x k') ->
  wp (socket_close fd ;; mret x) Q k.
Proof.
  intros Hk Hp Hn HQ. apply sys_wp_bind. unfold socket_close. destruct (Z.leb_spec 0 fd); [|lia].
  apply sys_wp_bind. eapply wp_close; [exact Hk|set_solver|]. intros r k' Hk' Hc. do 2 apply sys_wp_ret.
  apply (HQ r); [|done]. eapply holds_eq; [exact Hk'|set_solver|done..].
Qed.

Definition listener_result (bind_addr : bytes) (port backlog : Z) (err : bytes) F T N (k : Kernel)
    (res : Z * bytes) (k' : Kernel) : Prop :=
  let '(fd, err') := res in
  exists evs, calls k' = calls k ++ evs /\
  ((0 <= fd /\ fd ∉ F /\ holds ({[fd]} ∪ F) T N k' /\ err' = err /\ listening bind_addr port backlog fd evs) \/
   (fd = -1 /\ holds F T N k' /\ refusal bind_addr port backlog err' evs)).

(** Since [k], a socket [fd] was made and [steps] were done to it. *)
Definition reached (fd : Z) (steps : list step) F T N (k k' : Kernel) : Prop :=
  holds ({[fd]} ∪ F) T N k' /\ exists rs, succeeded steps rs /\ calls k' = calls k ++ ran fd steps rs.

Lemma ran_snoc fd steps rs s r :
  length rs = length steps -> ran fd (steps ++ [s]) (rs ++ [r]) = ran fd steps rs ++ [mk_event (s.2 fd) r].
Proof. intros Hl. unfold ran. by rewrite zip_with_app. Qed.

Lemma succeeded_snoc steps rs s r : succeeded steps rs -> 0 <= r -> succeeded (steps ++ [s]) (rs ++ [r]).
Proof.
  intros [Hl Hrs] Hr. split; [by rewrite !length_app, Hl|]. apply Forall_app. split; [done|by constructor].
Qed.

(** One more step of the set-up: it fails, and the socket is closed, or the rest goes on. *)
Lemma wp_setup_step before label c after bind_addr port backlog err fd (rest : M Kernel (Z * bytes)) F T N k k1 :
  setup bind_addr port backlog = before ++ (label, c) :: after ->
  reached fd before F T N k k1 -> 0 <= fd -> fd ∉ F ->
  (used (c fd) = [fd] /\ (forall r, opened (c fd) r = None) /\ closed (c fd) = None /\
   forall r, names_after (c fd) r N = N) ->
  (forall k', reached fd (before ++ [(label, c)]) F T N k k' -> wp rest (listener_result bind_addr port backlog err F T N k) k') ->
  wp (let! r := call (c fd) in
      if r <? 0 then socket_close fd ;; mret (-1, label ++ error_text r) else rest)
    (listener_result bind_addr port backlog err F T N k) k1.
Proof.
  intros Hset [Hk (rs & Hs & Hc1)] Hp Hn (Hu & Ho & Hc & Hna) Hok. apply wp_let.
  eapply wp_use; [exact Hk|rewrite Hu; set_solver|done|done|by apply used_threadless; rewrite Hu|].
  intros r k' Hk' Hc'. rewrite Hna in Hk'. destruct (Z.ltb_spec r 0).
  - eapply wp_leave; [exact Hk'|done..|]. intros q k2 Hk2 Hc2.
    eexists. split; [by rewrite Hc2, Hc', Hc1, <- !(assoc_L app)|]. right. split_and!; [done..|].
    right; right. by exists fd, before, label, c, after, rs, r, q.
  - apply Hok. split; [done|]. exists (rs ++ [r]). split; [by apply succeeded_snoc|].
    rewrite ran_snoc by apply Hs. by rewrite Hc', Hc1, <- (assoc_L app).
Qed.

(** The last steps: the address is known. *)
Lemma wp_bound before addr bind_addr port backlog err fd F T N k k1 :
  asked bind_addr = Some addr ->
  setup bind_addr port backlog =
    before ++ [(lit "bind: ", fun fd => Bind fd (Inet addr port)); (lit "listen: ", fun fd => Listen fd backlog)] ->
  reached fd before F T N k k1 -> 0 <= fd -> fd ∉ F ->
  wp (let! r := call (Bind fd (Inet addr port)) in
      if r <? 0 then socket_close fd ;; mret (-1, lit "bind: " ++ error_text r)
      else let! r := call (Listen fd backlog) in
           if r <? 0 then socket_close fd ;; mret (-1, lit "listen: " ++ error_text r) else mret (fd, err))
    (listener_result bind_addr port backlog err F T N k) k1.
Proof.
  intros Ha Hset Hk1 Hfd Hn.
  eapply (wp_setup_step before _ (fun fd => Bind fd _)); [exact Hset|exact Hk1|done..|]. intros k2 Hk2.
  assert (forall x y : step, before ++ [x; y] = (before ++ [x]) ++ [y]) as Hsnoc by (intros; by rewrite <- (assoc_L app)).
  rewrite Hsnoc in Hset.
  eapply (wp_setup_step _ _ (fun fd => Listen fd _)); [exact Hset|exact Hk2|done..|]. intros k3 [Hk3 (rs & Hs & Hc)].
  apply sys_wp_ret. eexists. split; [exact Hc|]. left. split_and!; [done..|].
  split; [congruence|]. exists rs. by rewrite Hset.
Qed.

Lemma wp_make_reuseport_listener bind_addr port backlog err F T N k :
  holds F T N k ->
  wp (make_reuseport_listener bind_addr port backlog err) (listener_result bind_addr port backlog err F T N k) k.
Proof.
  intros Hk. unfold make_reuseport_listener. wp_opens fd Hfd Hnew Hs Hc0.
  2: { destruct (Z.ltb_spec fd 0); [|lia]. apply sys_wp_ret. eexists. split; [exact Hc0|]. right.
       split_and!; [done..|]. left. by exists fd. }
  destruct (Z.ltb_spec fd 0); [lia|]. cbv zeta.
  match goal with |- wp _ _ ?k0 => assert (reached fd [] F T N k k0) as Hr0 by (split; [done|by exists []]) end.
  assert (exists after, setup bind_addr port backlog =
    [(lit "SO_REUSEADDR: ", fun fd => Setsockopt fd SO_REUSEADDR); (lit "SO_REUSEPORT: ", fun fd => Setsockopt fd SO_REUSEPORT)] ++ after)
    as [after Hset] by by eexists.
  eapply (wp_setup_step [] _ (fun fd => Setsockopt fd _)); [exact Hset|exact Hr0|done..|]. intros k1 Hr1.
  eapply (wp_setup_step [_] _ (fun fd => Setsockopt fd _)); [exact Hset|exact Hr1|done..|]. intros k2 Hr2.
  unfold setup in Hset. apply (inj (app _)) in Hset. destruct (decide (bind_addr = [])) as [He|He].
  { eapply (wp_bound [_; _]); [by apply decide_True| |exact Hr2|done..]. unfold setup, asked. by rewrite !decide_True. }
  destruct (inet_pton bind_addr) as [addr|] eqn:Hi.
  - assert (asked bind_addr = Some addr) as Ha by (unfold asked; by rewrite decide_False).
    eapply (wp_setup_step [_; _] _ (fun fd => Setsockopt fd IP_FREEBIND)); [|exact Hr2|done..|].
    { unfold setup. by rewrite Ha, decide_False. }
    intros k3 Hr3. eapply (wp_bound [_; _; _]); [exact Ha| |exact Hr3|done..]. unfold setup. by rewrite Ha, decide_False.
  - assert (asked bind_addr = None) as Ha by (unfold asked; by rewrite decide_False).
    destruct Hr2 as [Hk2 (rs & Hs2 & Hc2)]. eapply wp_leave; [exact Hk2|done..|]. intros q k3 Hk3 Hc3.
    eexists. split; [by rewrite Hc3, Hc2, <- (assoc_L app)|]. right. split_and!; [done..|]. right; left.
    exists fd, rs, q. unfold setup. rewrite Ha. by split_and!.
Qed.

(** What [tcp_probe] has seen when it answers yes: the connection was made at once, or
    within [timeout_ms], the only time it waits. *)
Definition connected (host : bytes) (port timeout_ms : Z) (evs : list event) : Prop :=
  exists fd addr r, inet_pton host = Some addr /\ 0 <= fd /\
    (evs = [mk_event (Socket AF_INET) fd; mk_event (Connect fd (Inet addr port)) 0; mk_event (Close fd) r] \/
     exists pr, 0 < pr.1 /\ Z.land pr.2 POLLOUT <> 0 /\
       evs = [mk_event (Socket AF_INET) fd; mk_event (Connect fd (Inet addr port)) (- EINPROGRESS);
              mk_event (Poll fd POLLOUT timeout_ms) pr; mk_event (Getsockopt_error fd) (0, 0); mk_event (Close fd) r]).

(** A probe leaves nothing open, and says yes only of a connection that was made. *)
Lemma wp_tcp_probe host port timeout_ms F T N k :
  holds F T N k ->
  wp (tcp_probe host port timeout_ms)
     (fun b k' => holds F T N k' /\
        exists evs, calls k' = calls k ++ evs /\ (b = true -> connected host port timeout_ms evs)) k.
Proof.
  intros Hk. unfold tcp_probe. set (Q := fun (b : bool) k' => _).
  wp_opens fd Hfd Hnew Hs Hc0.
  2: { destruct (Z.ltb_spec fd 0); [|lia]. apply sys_wp_ret. split; [done|]. eexists. split; [exact Hc0|done]. }
  destruct (Z.ltb_spec fd 0); [lia|]. cbv zeta.
  assert (forall k1, holds ({[fd]} ∪ F) T N k1 -> (exists evs, calls k1 = calls k ++ evs) ->
    wp (socket_close fd ;; mret false) Q k1) as Hno.
  { intros k1 Hk1 [evs He]. eapply wp_leave; [exact Hk1|done..|]. intros r k2 Hk2 Hc2. split; [done|].
    eexists. split; [by rewrite Hc2, He, <- (assoc_L app)|done]. }
  destruct (inet_pton host) as [addr|] eqn:Ha; [|apply Hno; eauto].
  wp_uses r Hk1 Hc1. rewrite Hc0, <- (assoc_L app) in Hc1. cbn [app] in Hc1. destruct (Z.eqb_spec r 0) as [->|Hr].
  { eapply wp_leave; [exact Hk1|done..|]. intros r k2 Hk2 Hc2. split; [done|]. eexists.
    split; [by rewrite Hc2, Hc1, <- (assoc_L app)|]. intros _. exists fd, addr, r. auto. }
  destruct (Z.eqb_spec r (- EINPROGRESS)) as [->|]; cbn [negb]; [|apply Hno; eauto].
  wp_uses pr Hk2 Hc2. rewrite Hc1, <- (assoc_L app) in Hc2. cbn [app] in Hc2.
  destruct (Z.leb_spec (pr.1) 0) as [|Hpr]; cbn [orb]; [apply Hno; eauto|].
  destruct (Z.eqb_spec (Z.land pr.2 POLLOUT) 0) as [|Hre]; [apply Hno; eauto|].
  wp_uses er Hk3 Hc3. rewrite Hc2, <- (assoc_L app) in Hc3. cbn [app] in Hc3.
  eapply wp_leave; [exact Hk3|done..|]. intros r k4 Hk4 Hc4. split; [done|]. eexists.
  split; [by rewrite Hc4, Hc3, <- (assoc_L app)|]. intros [E1%Z.eqb_eq E2%Z.eqb_eq]%andb_true_iff.
  exists fd, addr, r. split_and!; [done..|]. right. exists pr. split_and!; [done..|]. destruct er; cbn in *. by subst.
Qed.
End Sockets.

(** ** Owners

    The objects of class [Socket], by address, with what they hold; and what can be done to
    them. Destructors run, like every operation, on objects that exist. *)

Inductive sock_op :=
  | Make (a : nat) (f : family)        (* Socket a(::socket(...)) *)
  | MoveCtor (a b : nat)               (* Socket a(std::move(b)) *)
  | MoveAssign (a b : nat)             (* a = std::move(b) *)
  | Release (a : nat)                  (* a.release() *)
  | CloseSocket (a : nat)              (* a.close() *)
  | Destroy (a : nat).                 (* a.~Socket() *)

(** The objects, and the descriptors that were released to somebody else. *)
Record Owners := mk_owners { objects : gmap nat Z; released : gset Z }.
#[export] Instance eta_Owners : Eta Owners := fun o => mk_owners (objects o) (released o).

Definition fd_of (o : Owners) (a : nat) : Z := default (-1) (objects o !! a).

(** [a] is made by [Make] and [MoveCtor]; every other object must exist. *)
Definition enabled (op : sock_op) (o : Owners) : bool :=
  let exists_ a := bool_decide (is_Some (objects o !! a)) in
  match op with
  | Make a _ => negb (exists_ a)
  | MoveCtor a b => negb (exists_ a) && exists_ b
  | MoveAssign a b => exists_ a && exists_ b
  | Release a | CloseSocket a | Destroy a => exists_ a
  end.

Section Owners.
Context `{Os}.

Definition exec_op (op : sock_op) (o : Owners) : M Kernel Owners :=
  match op with
  | Make a f => let! r := call (Socket f) in mret (o <| objects ::= <[a := Z.max (-1) r]> |>)
  | MoveCtor a b => mret (o <| objects ::= fun m => <[b := -1]> (<[a := fd_of o b]> m) |>)
  | MoveAssign a b =>
      if decide (a = b) then mret o
      else
        socket_close (fd_of o a) ;;
        mret (o <| objects ::= fun m => <[b := -1]> (<[a := fd_of o b]> m) |>)
  | Release a =>
      let f := fd_of o a in
      mret ((o <| objects ::= <[a := -1]> |>) <| released ::= fun g => if 0 <=? f then {[f]} ∪ g else g |>)
  | CloseSocket a => let! f := socket_close (fd_of o a) in mret (o <| objects ::= <[a := f]> |>)
  | Destroy a => socket_close (fd_of o a) ;; mret (o <| objects ::= delete a |>)
  end.

(** A program of such operations; [None] when one is made on an object that does not exist. *)
Fixpoint exec_ops (ops : list sock_op) (o : Owners) : M Kernel (option Owners) :=
  match ops with
  | [] => mret (Some o)
  | op :: ops => if enabled op o then let! o := exec_op op o in exec_ops ops o else mret None
  end.

(** Each open descriptor has one owner: castle's before ([F]), one of the objects, or
    whoever it was released to. *)
Record owned (F : gset Z) (o : Owners) (k : Kernel) : Prop := {
  own_open : forall x, x ∈ opens k <-> x ∈ F \/ x ∈ released o \/ exists a, objects o !! a = Some x /\ 0 <= x;
  own_once : forall a b x, objects o !! a = Some x -> objects o !! b = Some x -> 0 <= x -> a = b;
  own_range : forall a x, objects o !! a = Some x -> -1 <= x;
  own_apart : forall a x, objects o !! a = Some x -> 0 <= x -> x ∉ F /\ x ∉ released o;
  own_sound : faulty k = false
}.

Lemma owned_holds F o k : owned F o k -> holds (opens k) (threads k) (names k) k.
Proof. intros Ho. by split; [..|apply Ho]. Qed.

Lemma fd_of_Some o a x : objects o !! a = Some x -> fd_of o a = x.
Proof. unfold fd_of. by intros ->. Qed.

(** The descriptor of [a] is closed and forgotten. *)
Lemma owned_close F o k k' a f :
  owned F o k -> objects o !! a = Some f -> faulty k' = false ->
  opens k' = (if 0 <=? f then opens k ∖ {[f]} else opens k) ->
  owned F (o <| objects ::= delete a |>) k'.
Proof.
  intros Ho Ha Hf Hop. split; cbn; [|intros b c x|intros b x|intros b x|done].
  - intros x. rewrite Hop. setoid_rewrite lookup_delete_Some. pose proof (own_open _ _ _ Ho x) as Hx.
    destruct (Z.leb_spec 0 f) as [Hp|Hp].
    + rewrite elem_of_difference, elem_of_singleton, Hx. split.
      * intros [[?|[?|(b & Hb & Hge)]] Hne]; [auto..|]. right; right. exists b. split_and!; [|done|done].
        intros ->. congruence.
      * pose proof (own_apart _ _ _ Ho _ _ Ha Hp) as [? ?].
        intros [?|[?|(b & [Hne Hb] & Hge)]]; (split; [by eauto 6|]); [by intros ->..|].
        intros ->. apply Hne. by apply (own_once _ _ _ Ho a b f).
    + rewrite Hx. split; (intros [?|[?|(b & Hb & Hge)]]; [by auto..|]); right; right; exists b.
      * split_and!; [|done|done]. intros ->. rewrite Ha in Hb. injection Hb as ->. lia.
      * by destruct Hb.
  - rewrite !lookup_delete_Some. intros [_ Hb] [_ Hc]. by apply (own_once _ _ _ Ho).
  - rewrite lookup_delete_Some. intros [_ Hb]. by apply (own_range _ _ _ Ho b).
  - rewrite lookup_delete_Some. intros [_ Hb]. by apply (own_apart _ _ _ Ho b).
Qed.

(** A new object takes what [b], if anything, held; [b] is left with nothing. *)
Lemma owned_insert F o k a f :
  owned F o k -> objects o !! a = None -> f = -1 -> owned F (o <| objects ::= <[a := f]> |>) k.
Proof.
  intros Ho Ha ->. split; cbn; [|intros b c x|intros b x|intros b x|apply Ho]; try setoid_rewrite lookup_insert_Some.
  - intros x. rewrite (own_open _ _ _ Ho). split; (intros [?|[?|(b & Hb & Hge)]]; [by auto..|]).
    + right; right. exists b. split; [|done]. right. split; [|done]. intros ->. congruence.
    + right; right. destruct Hb as [[_ <-]|[_ Hb]]; [lia|by exists b].
  - intros [[_ <-]|[_ Hb]] [[_ ?]|[_ Hc]] ?; [lia..|]. by apply (own_once _ _ _ Ho b c x).
  - intros [[_ <-]|[_ Hb]]; [lia|]. by apply (own_range _ _ _ Ho b).
  - intros [[_ <-]|[_ Hb]] Hge; [lia|]. by apply (own_apart _ _ _ Ho b).
Qed.

Lemma owned_move F o k a b x :
  owned F o k -> objects o !! a = None -> objects o !! b = Some x ->
  owned F (o <| objects ::= fun m => <[b := -1]> (<[a := x]> m) |>) k.
Proof.
  intros Ho Ha Hb. assert (a <> b) as Hab by congruence.
  assert (forall c y, <[b := -1]> (<[a := x]> (objects o)) !! c = Some y -> 0 <= y ->
            (c = a /\ y = x) \/ (c <> a /\ c <> b /\ objects o !! c = Some y)) as Hl.
  { intros c y. rewrite !lookup_insert_Some. intros [[<- <-]|[Hcb [[<- <-]|[Hca Hc]]]] Hge; [lia|auto|right; auto]. }
  split; cbn; [|intros c d y Hc Hd Hge|intros c y Hc|intros c y Hc Hge|apply Ho].
  - intros y. rewrite (own_open _ _ _ Ho). split; (intros [?|[?|(c & Hc & Hge)]]; [by auto..|]); right; right.
    + destruct (decide (c = b)) as [->|]; [exists a|exists c]; (split; [|done]).
      * rewrite lookup_insert_ne, lookup_insert_eq by done. congruence.
      * rewrite !lookup_insert_ne by congruence. done.
    + apply Hl in Hc as [[-> ->]|(? & ? & Hc)]; [by exists b|by exists c|done].
  - apply Hl in Hc as [[-> ->]|(? & ? & Hc)], Hd as [[-> ?]|(? & ? & Hd)]; try done.
    + by destruct (own_once _ _ _ Ho b d x).
    + subst y. by destruct (own_once _ _ _ Ho c b x).
    + by apply (own_once _ _ _ Ho c d y).
  - revert Hc. rewrite !lookup_insert_Some. intros [[_ <-]|[_ [[_ <-]|[_ Hc]]]]; [lia|by apply (own_range _ _ _ Ho b)|].
    by apply (own_range _ _ _ Ho c).
  - apply Hl in Hc as [[-> ->]|(? & ? & Hc)]; [|by apply (own_apart _ _ _ Ho c)|done]. by apply (own_apart _ _ _ Ho b).
Qed.

Lemma owned_ext F o o' k : owned F o k -> objects o' = objects o -> released o' = released o -> owned F o' k.
Proof. destruct o, o'. cbn. by intros Ho -> ->. Qed.

Lemma owned_make F o k k' a f :
  owned F o k -> objects o !! a = None -> 0 <= f -> f ∉ opens k -> opens k' = {[f]} ∪ opens k -> faulty k' = false ->
  owned F (o <| objects ::= <[a := f]> |>) k'.
Proof.
  intros Ho Ha Hp Hn Hop Hf. pose proof (own_open _ _ _ Ho f) as Hfo.
  split; cbn; [|intros b c x|intros b x|intros b x|done]; try setoid_rewrite lookup_insert_Some.
  - intros x. rewrite Hop, elem_of_union, elem_of_singleton, (own_open _ _ _ Ho). split.
    + intros [->|[?|[?|(b & Hb & Hge)]]]; [|by auto..|]; right; right; [exists a; auto|].
      exists b. split; [|done]. right. split; [|done]. intros ->. congruence.
    + intros [?|[?|(b & [[_ <-]|[_ Hb]] & Hge)]]; eauto 7.
  - intros [[<- <-]|[? Hb]] [[<- ?]|[? Hc]] Hge; [done|..].
    + destruct Hn. apply Hfo. eauto 6.
    + subst x. destruct Hn. apply Hfo. eauto 6.
    + by apply (own_once _ _ _ Ho b c x).
  - intros [[_ <-]|[_ Hb]]; [lia|]. by apply (own_range _ _ _ Ho b).
  - intros [[_ <-]|[_ Hb]] Hge; [|by apply (own_apart _ _ _ Ho b)]. split; intros Hin; apply Hn, Hfo; auto.
Qed.

Lemma owned_release F o k a f :
  owned F o k -> objects o !! a = Some f ->
  owned F ((o <| objects ::= <[a := -1]> |>) <| released ::= fun g => if 0 <=? f then {[f]} ∪ g else g |>) k.
Proof.
  intros Ho Ha. split; cbn; [|intros b c x|intros b x|intros b x|apply Ho]; try setoid_rewrite lookup_insert_Some.
  - intros x. rewrite (own_open _ _ _ Ho). destruct (Z.leb_spec 0 f) as [Hp|Hp]; rewrite ?elem_of_union, ?elem_of_singleton.
    + split.
      * intros [?|[?|(b & Hb & Hge)]]; [by auto..|]. destruct (decide (b = a)) as [->|Hne].
        { right; left; left. congruence. }
        right; right. exists b. split; [|done]. by right.
      * intros [?|[[->|?]|(b & [[_ <-]|[_ Hb]] & Hge)]]; [by auto| |by auto|lia|]; right; right; eauto.
    + split; (intros [?|[?|(b & Hb & Hge)]]; [by auto..|]); right; right; exists b.
      * split; [|done]. right. split; [|done]. intros ->. rewrite Ha in Hb. injection Hb as ->. lia.
      * destruct Hb as [[_ <-]|[_ Hb]]; [lia|done].
  - intros [[_ <-]|[_ Hb]] [[_ ?]|[_ Hc]] ?; [lia..|]. by apply (own_once _ _ _ Ho b c x).
  - intros [[_ <-]|[_ Hb]]; [lia|]. by apply (own_range _ _ _ Ho b).
  - intros [[_ <-]|[Hne Hb]] Hge; [lia|]. destruct (own_apart _ _ _ Ho b x Hb Hge) as [? Hr]. split; [done|].
    destruct (Z.leb_spec 0 f); [|done]. rewrite elem_of_union, elem_of_singleton. intros [->|?]; [|done].
    apply Hne. by apply (own_once _ _ _ Ho a b f).
Qed.

Lemma wp_owned_close F o k a f Q :
  owned F o k -> objects o !! a = Some f ->
  (forall k', owned F (o <| objects ::= delete a |>) k' -> Q (-1) k') -> wp (socket_close f) Q k.
Proof.
  intros Ho Ha HQ. pose proof (owned_holds _ _ _ Ho) as Hk. pose proof (own_range _ _ _ Ho _ _ Ha).
  eapply wp_socket_close; [exact Hk| | |lia].
  - intros Hp. apply (own_open _ _ _ Ho). eauto 6.
  - intros k' Hk'. apply HQ. eapply owned_close; [exact Ho|exact Ha|apply Hk'|]. apply Hk'.
Qed.

Lemma enabled_exists o a : bool_decide (is_Some (objects o !! a)) = true -> exists x, objects o !! a = Some x /\ fd_of o a = x.
Proof. intros [x Hx]%bool_decide_eq_true. exists x. split; [done|by apply fd_of_Some]. Qed.

Lemma enabled_new o a : negb (bool_decide (is_Some (objects o !! a))) = true -> objects o !! a = None.
Proof. intros Hn%negb_true_iff%bool_decide_eq_false. by apply eq_None_not_Some. Qed.

Lemma wp_exec_op F op o k : owned F o k -> enabled op o = true -> wp (exec_op op o) (owned F) k.
Proof.
  intros Ho He. destruct op as [a f|a b|a b|a|a|a]; cbn [exec_op enabled] in *.
  - apply enabled_new in He. apply wp_let. eapply wp_open; [by eapply owned_holds|done..| |].
    + intros r k' Hr Hn Hk' _. apply sys_wp_ret. rewrite Z.max_r by lia.
      eapply owned_make; [exact Ho|done|done|done|by rewrite (holds_fds _ _ _ _ Hk')|apply Hk'].
    + intros r k' Hr Hk' _. apply sys_wp_ret. rewrite Z.max_l by lia. apply owned_insert; [|done|done].
      destruct Ho as [O1 O2 O3 O4 _]. split; try done; [|apply Hk']. by rewrite (holds_fds _ _ _ _ Hk').
  - apply andb_true_iff in He as [Ha (x & Hb & ->)%enabled_exists]. apply sys_wp_ret.
    by apply owned_move; [|apply enabled_new|].
  - apply andb_true_iff in He as [(y & Ha & ->)%enabled_exists (x & Hb & Hx)%enabled_exists].
    case_decide as Hab; [by apply sys_wp_ret|]. apply sys_wp_bind. eapply wp_owned_close; [exact Ho|exact Ha|]. intros k' Ho'.
    apply sys_wp_ret. rewrite Hx. apply (owned_move _ _ _ a b x) in Ho'; cbn in *.
    + eapply owned_ext; [exact Ho'|cbn; by rewrite insert_delete_eq|done].
    + by rewrite lookup_delete_eq.
    + by rewrite lookup_delete_ne.
  - apply enabled_exists in He as (x & Ha & ->). apply sys_wp_ret. by apply owned_release.
  - apply enabled_exists in He as (x & Ha & ->). apply wp_let. eapply wp_owned_close; [exact Ho|exact Ha|].
    intros k' Ho'. apply sys_wp_ret. apply (owned_insert _ _ _ a (-1)) in Ho'; [|cbn; by rewrite lookup_delete_eq|done].
    eapply owned_ext; [exact Ho'|cbn; by rewrite insert_delete_eq|done].
  - apply enabled_exists in He as (x & Ha & ->). apply sys_wp_bind. eapply wp_owned_close; [exact Ho|exact Ha|].
    intros k' Ho'. by apply sys_wp_ret.
Qed.
End Owners.

(** ** Dotted addresses *)

Definition dotted (a b c d : Z) : bytes :=
  to_string a ++ lit "." ++ to_string b ++ lit "." ++ to_string c ++ lit "." ++ to_string d.

Definition digit_chars : list ascii := digit <$> [0; 1; 2; 3; 4; 5; 6; 7; 8; 9]%N.
Fixpoint digit_strings (n : nat) : list bytes :=
  match n with
  | O => [[]]
  | S n => [] :: (c ← digit_chars; (cons c) <$> digit_strings n)
  end.

Lemma isdigit_char c : isdigit c = true -> c ∈ digit_chars.
Proof.
  intros Hc. assert (forallb (fun c => implb (isdigit c) (bool_decide (c ∈ digit_chars)))
                       (ascii_of_nat <$> seq 0 256) = true) as Hall by (vm_compute; reflexivity).
  rewrite forallb_forall in Hall. specialize (Hall c). rewrite Hc in Hall. apply (bool_decide_eq_true_1 _), Hall.
  apply list_elem_of_In, list_elem_of_fmap. exists (nat_of_ascii c). rewrite ascii_nat_embedding. split; [done|].
  apply elem_of_seq. pose proof (nat_ascii_bounded c). lia.
Qed.

Lemma octet_digits_spec n s d r :
  octet_digits n s = (d, r) -> s = d ++ r /\ d ∈ digit_strings n.
Proof.
  revert s d r. induction n as [|n IH]; intros s d r; cbn [octet_digits digit_strings];
    [intros [= <- <-]; by rewrite list_elem_of_singleton|].
  destruct s as [|c s]; [intros [= <- <-]; split; [done|by left]|].
  destruct (isdigit c) eqn:Hc; [|intros [= <- <-]; split; [done|by left]].
  destruct (octet_digits n s) as [d' r'] eqn:Ho. intros [= <- <-]. apply IH in Ho as [-> Hd]. split; [done|].
  right. apply list_elem_of_bind. exists c. split; [|by apply isdigit_char]. apply list_elem_of_fmap. by exists d'.
Qed.

Lemma octet_digits_app n d c r :
  Forall (fun c => isdigit c = true) d -> (length d <= n)%nat -> isdigit c = false ->
  octet_digits n (d ++ c :: r) = (d, c :: r) /\ octet_digits n d = (d, []).
Proof.
  intros Hd. revert n. induction Hd as [|x d Hx Hd IH]; intros [|n] Hl Hc; cbn in *; try lia; rewrite ?Hc; try done.
  rewrite Hx. destruct (IH n) as [-> ->]; [lia|done|]. done.
Qed.

(** The reading of one part, of a string of at most three digits. *)
Definition octet_of (d : bytes) : option Z := match octet d with Some (v, []) => Some v | _ => None end.

Lemma octet_digits_again d r : octet_digits 3 (d ++ r) = (d, r) -> octet_digits 3 d = (d, []).
Proof.
  generalize 3%nat. intros n. revert d. induction n as [|n IH]; intros d; cbn; [by intros [= <-]|].
  destruct d as [|c d]; cbn; [done|]. destruct (isdigit c); [|done].
  destruct (octet_digits n (d ++ r)) as [d' r'] eqn:Hd. intros [= -> ->]. by rewrite IH.
Qed.

Lemma octet_inv s v r :
  octet s = Some (v, r) -> exists d, s = d ++ r /\ octet_digits 3 s = (d, r) /\ d ∈ digit_strings 3 /\ octet_of d = Some v.
Proof.
  unfold octet. destruct (octet_digits 3 s) as [d r'] eqn:Hd. intros Ho.
  pose proof (octet_digits_spec _ _ _ _ Hd) as [-> Hin]. exists d. unfold octet_of, octet.
  rewrite (octet_digits_again _ _ Hd). destruct (_ || _) eqn:Hc; [done|]. injection Ho as -> ->. done.
Qed.

Lemma octet_of_digits d v :
  d ∈ digit_strings 3 -> octet_of d = Some v -> d = to_string v /\ 0 <= v <= 255.
Proof.
  assert (forallb (fun d => match octet_of d with
                            | Some v => bool_decide (d = to_string v) && (0 <=? v) && (v <=? 255) | None => true end)
            (digit_strings 3) = true) as Hall by (vm_compute; reflexivity).
  intros Hd Hv. rewrite forallb_forall in Hall. specialize (Hall d). rewrite Hv in Hall.
  apply list_elem_of_In, Hall in Hd. by bool_to_prop.
Qed.

Lemma octet_of_print v : 0 <= v <= 255 -> (length (to_string v) <= 3)%nat /\ octet_of (to_string v) = Some v.
Proof.
  assert (forallb (fun v => (length (to_string v) <=? 3)%nat && bool_decide (octet_of (to_string v) = Some v))
            (Z.of_nat <$> seq 0 256) = true) as Hall by (vm_compute; reflexivity).
  intros Hv. rewrite forallb_forall in Hall. specialize (Hall v).
  assert (In v (Z.of_nat <$> seq 0 256)) as Hin.
  { apply list_elem_of_In, list_elem_of_fmap. exists (Z.to_nat v). split; [lia|]. apply elem_of_seq. lia. }
  apply Hall in Hin. by bool_to_prop.
Qed.

Lemma octet_dot v r :
  0 <= v <= 255 -> octet (to_string v ++ "."%char :: r) = Some (v, "."%char :: r) /\ octet (to_string v) = Some (v, []).
Proof.
  intros Hv. destruct (octet_of_print v Hv) as [Hl Ho].
  assert (Forall (fun c => isdigit c = true) (to_string v)) as Hd.
  { unfold to_string. destruct (Z.ltb_spec v 0); [lia|]. eapply Forall_impl; [apply print_N_plain|]. by intros c []. }
  destruct (octet_digits_app 3 _ "."%char r Hd Hl eq_refl) as [H1 H2]. unfold octet_of, octet in *. rewrite H1, H2 in *.
  destruct (_ || _); [done|]. by injection Ho as ->.
Qed.

(** What is read as an address is one in the usual notation, and nothing else. *)
Lemma inet_pton_spec s l :
  inet_pton s = Some l <->
  exists a b c d, l = [a; b; c; d] /\ Forall (fun v => 0 <= v <= 255) l /\ s = dotted a b c d.
Proof.
  split.
  - assert (forall s v r, octet s = Some (v, r) -> s = to_string v ++ r /\ 0 <= v <= 255) as Hstep.
    { intros t v r (x & -> & _ & Hin & Hx)%octet_inv. by apply octet_of_digits in Hx as [-> ?]. }
    unfold inet_pton. cbn [octets].
    destruct (octet s) as [[a s1]|] eqn:E1; [cbn [mbind option_bind]|done]. apply Hstep in E1 as [-> Ha].
    destruct s1 as [|p1 s1]; [done|]. destruct (decide _) as [->|]; [|done].
    destruct (octet s1) as [[b s2]|] eqn:E2; [cbn [mbind option_bind]|done]. apply Hstep in E2 as [-> Hb].
    destruct s2 as [|p2 s2]; [done|]. destruct (decide _) as [->|]; [|done].
    destruct (octet s2) as [[c s3]|] eqn:E3; [cbn [mbind option_bind]|done]. apply Hstep in E3 as [-> Hc].
    destruct s3 as [|p3 s3]; [done|]. destruct (decide _) as [->|]; [|done].
    destruct (octet s3) as [[d s4]|] eqn:E4; [cbn [mbind option_bind]|done]. apply Hstep in E4 as [-> Hd].
    destruct s4; [|done]. cbn. intros [= <-]. exists a, b, c, d. split_and!; [done|by rewrite !Forall_cons, Forall_nil|].
    by rewrite app_nil_r.
  - intros (a & b & c & d & -> & Hall & ->).
    rewrite !Forall_cons in Hall. destruct Hall as (Ha & Hb & Hc & Hd & _). unfold inet_pton, dotted.
    assert (forall x, lit "." ++ x = "."%char :: x) as Hdot by done. rewrite !Hdot. cbn [octets].
    rewrite (proj1 (octet_dot a _ Ha)). cbn [mbind option_bind]. rewrite decide_True by done.
    rewrite (proj1 (octet_dot b _ Hb)). cbn [mbind option_bind]. rewrite decide_True by done.
    rewrite (proj1 (octet_dot c _ Hc)). cbn [mbind option_bind]. rewrite decide_True by done.
    by rewrite (proj2 (octet_dot d [] Hd)).
Qed.

(** ** Properties *)

(** C32: a listener is made completely or not at all: it is a new descriptor that listens at
    the address asked for, with the options that let the workers share the port; or nothing
    is left open, and the error is the one of the call that failed, under the name of that
    call (or the text that is no address, when that is what is wrong); the steps before it succeeded, and none was made after it but the close. *)
Theorem listener_all_or_nothing `{Os} bind_addr port backlog err F T N k :
  holds F T N k ->
  let '((fd, err'), k') := make_reuseport_listener bind_addr port backlog err k in
  exists evs, calls k' = calls k ++ evs /\
  ((0 <= fd /\ fd ∉ F /\ holds ({[fd]} ∪ F) T N k' /\ err' = err /\ listening bind_addr port backlog fd evs) \/
   (fd = -1 /\ holds F T N k' /\ refusal bind_addr port backlog err' evs)).
Proof.
  intros Hk. apply (wp_make_reuseport_listener bind_addr port backlog err) in Hk. unfold wp in Hk.
  by destruct (make_reuseport_listener _ _ _ _ k) as [[fd err'] k'].
Qed.

(** C33: however [Socket] objects are made, moved, assigned (to themselves too), released,
    closed and destroyed, every descriptor has one owner and is closed once; when the
    objects are gone, only what was released is left. *)
Theorem socket_ownership `{Os} F T N ops k o k' :
  holds F T N k -> exec_ops ops (mk_owners ∅ ∅) k = (Some o, k') ->
  owned F o k' /\ (objects o = ∅ -> opens k' = F ∪ released o).
Proof.
  intros Hk He. assert (owned F (mk_owners ∅ ∅) k) as Ho.
  { split; cbn; try (intros *; by rewrite lookup_empty); [|apply Hk]. intros x. rewrite (holds_fds _ _ _ _ Hk).
    setoid_rewrite lookup_empty. set_solver. }
  assert (owned F o k') as Ho'.
  { clear Hk. revert k Ho He. generalize (mk_owners ∅ ∅). induction ops as [|op ops IH]; intros o1 k1 Ho1; cbn [exec_ops].
    - by intros [= <- <-].
    - destruct (enabled op o1) eqn:Hen; [|done]. pose proof (wp_exec_op F op o1 k1 Ho1 Hen) as Hw.
      unfold wp, bind, mbind, M_bind in *. destruct (exec_op op o1 k1) as [o2 k2]. cbn in Hw. intros He.
      by eapply IH. }
  split; [done|]. intros Hemp. apply set_eq. intros x. rewrite (own_open _ _ _ Ho'), Hemp.
  setoid_rewrite lookup_empty. set_solver.
Qed.

(** ** Runs *)

Example inet_pton_ex :
  inet_pton (lit "10.0.0.255") = Some [10; 0; 0; 255] /\ inet_pton (lit "10.0.0.256") = None /\
  inet_pton (lit "10.0.01.1") = None /\ inet_pton (lit "10.0.0.1 ") = None /\ inet_pton (lit "10.0.0") = None.
Proof. by vm_compute. Qed.

Definition all_granted : nat -> option Z := fun _ => None.
Definition refused_at (n : nat) (e : Z) : nat -> option Z := fun i => if decide (i = n) then Some e else None.

Example listener_ex :
  (@make_reuseport_listener (demo_kernel all_granted) (lit "10.0.0.1") 443 1024 [] no_calls).1 = (3, []) /\
  (@make_reuseport_listener (demo_kernel (refused_at 4 98)) (lit "10.0.0.1") 443 1024 [] no_calls).1 =
    (-1, lit "bind: refused").
Proof. by vm_compute. Qed.

Example listener_all_or_nothing_witness :
  let demo := demo_kernel (refused_at 4 98) in
  holds ∅ ∅ ∅ no_calls /\
  let '((fd, err'), k') := @make_reuseport_listener demo (lit "10.0.0.1") 443 1024 [] no_calls in
  exists evs, calls k' = calls no_calls ++ evs /\
  ((0 <= fd /\ fd ∉ (∅ : gset Z) /\ holds ({[fd]} ∪ ∅) ∅ ∅ k' /\ err' = [] /\ listening (lit "10.0.0.1") 443 1024 fd evs) \/
   (fd = -1 /\ holds ∅ ∅ ∅ k' /\ @refusal demo (lit "10.0.0.1") 443 1024 err' evs)).
Proof.
  intros demo. split; [exact holds_no_calls|].
  exact (@listener_all_or_nothing demo (lit "10.0.0.1") 443 1024 [] ∅ ∅ ∅ no_calls holds_no_calls).
Defined.

Definition sample_ops : list sock_op :=
  [Make 0 AF_INET; MoveCtor 1 0; MoveAssign 1 1; Make 2 AF_UNIX; MoveAssign 1 2; Make 3 AF_INET; Release 3; CloseSocket 0;
   Destroy 0; Destroy 1; Destroy 2; Destroy 3].
Example socket_ownership_witness :
  exists o k', @exec_ops (demo_kernel all_granted) sample_ops (mk_owners ∅ ∅) no_calls = (Some o, k') /\
    holds ∅ ∅ ∅ no_calls /\ owned ∅ o k' /\ (objects o = ∅ -> opens k' = ∅ ∪ released o) /\
    objects o = ∅ /\ elements (released o) = [5].
Proof.
  destruct (@exec_ops (demo_kernel all_granted) sample_ops (mk_owners ∅ ∅) no_calls) as [[o|] k'] eqn:He;
    [|vm_compute in He; discriminate].
  exists o, k'. split; [reflexivity|]. split; [exact holds_no_calls|].
  pose proof (@socket_ownership (demo_kernel all_granted) ∅ ∅ ∅ sample_ops no_calls o k' holds_no_calls He) as [H1 H2].
  split; [exact H1|]. split; [exact H2|]. vm_compute in He. injection He as <- _. by vm_compute.
Defined.
