(* ===== verification/Tls.v ===== *)
(** * Tls: the context that every TLS connection is made from

    Models [TlsContext] of src/src/tls/tls_context.{h,cpp}: [build_ctx], [init], [reload],
    [wrap]. OpenSSL is the interface [OpenSSL]: its contexts are reference-counted, and its
    laws are what its manual says of the calls made here. The main thread reloads the
    certificate while worker threads wrap connections: [tls_step] is one action of one
    thread, with the [std::shared_mutex] between them. *)
From S2P Require Import Prelude.
From stdpp Require Import relations.
Open Scope nat_scope.

(** ** OpenSSL

    Contexts and connections are known by their address. A context exists while it has
    references: one for whoever made it, one for each connection made from it. *)
Class OpenSSL (L : Type) := {
  refs : L -> nat -> nat;                        (* references to a context *)
  ssls : L -> gmap nat nat;                      (* connections, and the context of each *)
  SSL_CTX_new : L -> option nat * L;
  SSL_CTX_configure : nat -> L -> L;             (* min_proto_version, options, mode *)
  SSL_CTX_use_certificate_chain_file : nat -> bytes -> L -> bool * L;
  SSL_CTX_use_PrivateKey_file : nat -> bytes -> L -> bool * L;
  SSL_CTX_check_private_key : nat -> L -> bool;
  SSL_CTX_free : nat -> L -> L;
  SSL_new : nat -> L -> option nat * L;
  SSL_free : nat -> L -> L;
  ctx_new_law : forall l r l', SSL_CTX_new l = (r, l') -> ssls l' = ssls l /\
    match r with
    | Some c => refs l c = 0 /\ refs l' c = 1 /\ forall d, d <> c -> refs l' d = refs l d
    | None => forall d, refs l' d = refs l d
    end;
  configure_law : forall c l, ssls (SSL_CTX_configure c l) = ssls l /\ forall d, refs (SSL_CTX_configure c l) d = refs l d;
  certificate_law : forall c p l, let l' := (SSL_CTX_use_certificate_chain_file c p l).2 in
    ssls l' = ssls l /\ forall d, refs l' d = refs l d;
  key_law : forall c p l, let l' := (SSL_CTX_use_PrivateKey_file c p l).2 in
    ssls l' = ssls l /\ forall d, refs l' d = refs l d;
  ctx_free_law : forall c l, 0 < refs l c -> ssls (SSL_CTX_free c l) = ssls l /\
    refs (SSL_CTX_free c l) c = refs l c - 1 /\ forall d, d <> c -> refs (SSL_CTX_free c l) d = refs l d;
  ssl_new_law : forall c l r l', 0 < refs l c -> SSL_new c l = (r, l') ->
    match r with
    | Some s => ssls l !! s = None /\ ssls l' = <[s := c]> (ssls l) /\ refs l' c = S (refs l c)
                /\ forall d, d <> c -> refs l' d = refs l d
    | None => ssls l' = ssls l /\ forall d, refs l' d = refs l d
    end;
  ssl_free_law : forall s c l, ssls l !! s = Some c -> 0 < refs l c -> ssls (SSL_free s l) = delete s (ssls l) /\
    refs (SSL_free s l) c = refs l c - 1 /\ forall d, d <> c -> refs (SSL_free s l) d = refs l d
}.

Section Tls.
Context {L : Type} `{OpenSSL L}.

(** ** The class *)

Definition build_ctx (cert_path key_path err : bytes) (l : L) : option nat * bytes * L :=
  match SSL_CTX_new l with
  | (None, l) => (None, lit "SSL_CTX_new failed", l)
  | (Some ctx, l) =>
      let l := SSL_CTX_configure ctx l in
      let '(ok, l) := SSL_CTX_use_certificate_chain_file ctx cert_path l in
      if negb ok then (None, lit "failed to load certificate: " ++ cert_path, SSL_CTX_free ctx l)
      else
        let '(ok, l) := SSL_CTX_use_PrivateKey_file ctx key_path l in
        if negb ok then (None, lit "failed to load private key: " ++ key_path, SSL_CTX_free ctx l)
        else if negb (SSL_CTX_check_private_key ctx l) then
          (None, lit "private key does not match certificate", SSL_CTX_free ctx l)
        else (Some ctx, err, l)
  end.

Record TlsContext := mk_tls { ctx_ : option nat; cert_path_ : bytes; key_path_ : bytes }.
#[export] Instance eta_TlsContext : Eta TlsContext := fun t => mk_tls (ctx_ t) (cert_path_ t) (key_path_ t).
Definition new_tls : TlsContext := mk_tls None [] [].

Definition valid (t : TlsContext) : bool := bool_decide (ctx_ t <> None).

Definition init (cert_path key_path err : bytes) (t : TlsContext) (l : L) : bool * bytes * TlsContext * L :=
  match build_ctx cert_path key_path err l with
  | (None, err, l) => (false, err, t, l)
  | (Some ctx, err, l) => (true, err, mk_tls (Some ctx) cert_path key_path, l)
  end.

Definition free_ctx (c : option nat) (l : L) : L := match c with Some c => SSL_CTX_free c l | None => l end.

(** When no other thread is in the way. *)
Definition reload (err : bytes) (t : TlsContext) (l : L) : bool * bytes * TlsContext * L :=
  match build_ctx (cert_path_ t) (key_path_ t) err l with
  | (None, err, l) => (false, err, t, l)
  | (Some fresh, err, l) => (true, err, t <| ctx_ := Some fresh |>, free_ctx (ctx_ t) l)
  end.

Definition destroy_tls (t : TlsContext) (l : L) : L := free_ctx (ctx_ t) l.

(** ** Reloading while connections are made *)

(** Where the main thread is in [reload], and what it has in hand. *)
Inductive reload_pc := Idle | Built (fresh : nat) | Locked (fresh : nat) | Swapped (old : option nat) | Unlocked (old : option nat).
(** Where a worker is in [wrap]: with the shared lock; with [ctx_] read; with the result of
    [SSL_new]. *)
Inductive wrap_pc := Outside | Shared | Read (ctx : option nat) | Made (ssl : option nat).

(** [conns] are the connections in the hands of [TlsTransport] objects. *)
Record TlsWorld := mk_world {
  lib : L;
  tls : TlsContext;
  writer : bool; readers : nat;            (* mutex_ *)
  reloader : reload_pc;
  wraps : list wrap_pc;
  conns : gset nat
}.
#[export] Instance eta_TlsWorld : Eta TlsWorld := fun w =>
  mk_world (lib w) (tls w) (writer w) (readers w) (reloader w) (wraps w) (conns w).

(** An action of a thread; [None] when it uses a context or a connection that was freed, or
    a null [ctx_]. *)
Inductive action :=
  | Reload                               (* the main thread goes on *)
  | Wrap (i : nat)                       (* worker [i] goes on *)
  | CloseConn (s : nat).                 (* a TlsTransport is destroyed *)

Definition main_action (w : TlsWorld) : option TlsWorld :=
  match reloader w with
  | Idle =>
      Some match build_ctx (cert_path_ (tls w)) (key_path_ (tls w)) [] (lib w) with
           | (None, _, l) => w <| lib := l |>
           | (Some fresh, _, l) => (w <| lib := l |>) <| reloader := Built fresh |>
           end
  | Built fresh => Some ((w <| writer := true |>) <| reloader := Locked fresh |>)
  | Locked fresh => Some ((w <| tls ::= (fun t => t <| ctx_ := Some fresh |>) |>) <| reloader := Swapped (ctx_ (tls w)) |>)
  | Swapped old => Some ((w <| writer := false |>) <| reloader := Unlocked old |>)
  | Unlocked None => Some (w <| reloader := Idle |>)
  | Unlocked (Some old) =>
      if 0 <? refs (lib w) old then Some ((w <| lib ::= SSL_CTX_free old |>) <| reloader := Idle |>) else None
  end.

Definition worker_action (i : nat) (pc : wrap_pc) (w : TlsWorld) : option TlsWorld :=
  let goes_to pc w := w <| wraps ::= <[i := pc]> |> in
  match pc with
  | Outside => Some (goes_to Shared (w <| readers ::= S |>))
  | Shared => Some (goes_to (Read (ctx_ (tls w))) w)
  | Read None => None
  | Read (Some c) =>
      if 0 <? refs (lib w) c then
        let '(ssl, l) := SSL_new c (lib w) in Some (goes_to (Made ssl) (w <| lib := l |>))
      else None
  | Made ssl =>
      Some (goes_to Outside ((w <| readers ::= pred |>) <| conns ::= fun s => from_option singleton ∅ ssl ∪ s |>))
  end.

Definition close_conn (s : nat) (w : TlsWorld) : option TlsWorld :=
  match ssls (lib w) !! s with
  | Some c => if 0 <? refs (lib w) c then Some ((w <| lib ::= SSL_free s |>) <| conns ::= fun x => x ∖ {[s]} |>) else None
  | None => None
  end.

(** Who can move: the lock is exclusive for the main thread, shared among the workers. *)
Definition runnable (a : action) (w : TlsWorld) : Prop :=
  match a with
  | Reload => match reloader w with Built _ => writer w = false /\ readers w = 0 | _ => True end
  | Wrap i => match wraps w !! i with Some Outside => writer w = false | Some _ => True | None => False end
  | CloseConn s => s ∈ conns w
  end.

Definition act (a : action) (w : TlsWorld) : option TlsWorld :=
  match a with
  | Reload => main_action w
  | Wrap i => pc ← wraps w !! i; worker_action i pc w
  | CloseConn s => close_conn s w
  end.

Inductive tls_step : TlsWorld -> TlsWorld -> Prop :=
  | step_act a w w' : runnable a w -> act a w = Some w' -> tls_step w w'.

(** The workers start once [init] has succeeded. *)
Definition started (t : TlsContext) (l : L) (n : nat) : TlsWorld := mk_world l t false 0 Idle (replicate n Outside) ∅.

(** ** Building a context *)

Lemma build_ctx_spec cp kp err l r err' l' :
  build_ctx cp kp err l = (r, err', l') -> ssls l' = ssls l /\
  match r with
  | Some c => err' = err /\ refs l c = 0 /\ refs l' c = 1 /\ forall d, d <> c -> refs l' d = refs l d
  | None => err' <> [] /\ forall d, refs l' d = refs l d
  end.
Proof.
  unfold build_ctx. destruct (SSL_CTX_new l) as [[c|] l1] eqn:Hnew; apply ctx_new_law in Hnew as [Hs1 Hr1].
  2: { intros [= <- <- <-]. auto. }
  destruct Hr1 as (H0 & H1 & Hd1). destruct (configure_law c l1) as [Hs2 Hr2].
  destruct (certificate_law c cp (SSL_CTX_configure c l1)) as [Hs3 Hr3].
  destruct (SSL_CTX_use_certificate_chain_file _ _ _) as [ok l3]. cbn in Hs3, Hr3.
  assert (forall l4 err4, ssls l4 = ssls l3 -> (forall d, refs l4 d = refs l3 d) -> err4 <> [] ->
    (None, err4, SSL_CTX_free c l4) = (r, err', l') -> ssls l' = ssls l /\
    match r with
    | Some c => err' = err /\ refs l c = 0 /\ refs l' c = 1 /\ forall d, d <> c -> refs l' d = refs l d
    | None => err' <> [] /\ forall d, refs l' d = refs l d
    end) as Hfail.
  { intros l4 err4 Hs4 Hr4 Hne [= <- <- <-].
    destruct (ctx_free_law c l4) as (Hs5 & Hc5 & Hd5); [rewrite Hr4, Hr3, Hr2; lia|]. split; [congruence|]. split; [done|].
    intros d. destruct (decide (d = c)) as [->|]; [rewrite Hc5, Hr4, Hr3, Hr2; lia|].
    by rewrite Hd5, Hr4, Hr3, Hr2, Hd1. }
  destruct ok; cbn [negb]; [|by apply Hfail].
  destruct (key_law c kp l3) as [Hs4 Hr4]. destruct (SSL_CTX_use_PrivateKey_file _ _ _) as [ok l4]. cbn in Hs4, Hr4.
  destruct ok; cbn [negb]; [|by apply Hfail]. destruct (SSL_CTX_check_private_key c l4); cbn [negb]; [|by apply Hfail].
  intros [= <- <- <-]. split; [congruence|]. split_and!; [done|done| |].
  - by rewrite Hr4, Hr3, Hr2.
  - intros d Hd. by rewrite Hr4, Hr3, Hr2, Hd1.
Qed.

(** ** Who holds what *)

Definition in_hand (pc : reload_pc) : option nat :=
  match pc with Idle => None | Built c | Locked c => Some c | Swapped o | Unlocked o => o end.
Definition one_if (b : bool) : nat := if b then 1 else 0.
Definition conns_of (c : nat) (m : gmap nat nat) : nat := size (filter (fun sc => sc.2 = c) m).
Definition holders (c : nat) (w : TlsWorld) : nat :=
  one_if (bool_decide (ctx_ (tls w) = Some c)) + one_if (bool_decide (in_hand (reloader w) = Some c)) + conns_of c (ssls (lib w)).

Definition inside (pc : wrap_pc) : bool := match pc with Outside => false | _ => true end.
Definition made (pc : wrap_pc) : option nat := match pc with Made s => s | _ => None end.

(** The references of a context are its holders; each connection of the library is in the
    hands of one [TlsTransport] or of the worker that made it; the lock is what it says. *)
Record tls_inv (w : TlsWorld) : Prop := {
  inv_refs : forall c, refs (lib w) c = holders c w;
  inv_ctx : exists c, ctx_ (tls w) = Some c;
  inv_conns : elements (conns w) ++ omap made (wraps w) ≡ₚ (map_to_list (ssls (lib w))).*1;
  inv_readers : readers w = length (filter (fun pc => inside pc = true) (wraps w));
  inv_writer : writer w = match reloader w with Locked _ | Swapped _ => true | _ => false end;
  inv_lock : writer w = true -> readers w = 0;
  inv_read : forall i c, wraps w !! i = Some (Read c) -> c = ctx_ (tls w)
}.

Lemma conns_of_insert c d s m : m !! s = None -> conns_of c (<[s := d]> m) = one_if (bool_decide (d = c)) + conns_of c m.
Proof.
  intros Hs. unfold conns_of. destruct (bool_decide_reflect (d = c)) as [->|Hne]; cbn [one_if].
  - rewrite map_filter_insert_True by done. rewrite map_size_insert_None; [done|]. apply map_lookup_filter_None. by left.
  - rewrite map_filter_insert_False by done. by rewrite delete_id.
Qed.

Lemma conns_of_delete c s d m : m !! s = Some d -> conns_of c m = one_if (bool_decide (d = c)) + conns_of c (delete s m).
Proof. intros Hs. rewrite <- (insert_id m s d) at 1 by done. rewrite <- insert_delete_eq, conns_of_insert; [done|]. apply lookup_delete_eq. Qed.

Lemma insert_split {A} (l : list A) i x :
  l !! i = Some x -> exists l1 l2, l = l1 ++ x :: l2 /\ length l1 = i /\ forall y, <[i := y]> l = l1 ++ y :: l2.
Proof.
  intros Hl. exists (take i l), (drop (S i) l). pose proof (lookup_lt_Some _ _ _ Hl) as Hlt. split_and!.
  - by rewrite take_drop_middle.
  - rewrite length_take. lia.
  - intros y. by rewrite insert_take_drop.
Qed.

Lemma hold_self (c : nat) : one_if (bool_decide (Some c = Some c)) = 1.
Proof. by rewrite bool_decide_eq_true_2. Qed.
Lemma hold_not (x : option nat) c : x <> Some c -> one_if (bool_decide (x = Some c)) = 0.
Proof. intros Hne. by rewrite bool_decide_eq_false_2. Qed.

(** What has a holder is alive. *)
Lemma held_alive w c : tls_inv w -> 0 < holders c w -> (0 <? refs (lib w) c) = true.
Proof. intros Hi Hh. rewrite (inv_refs _ Hi). by apply Nat.ltb_lt. Qed.

Lemma main_action_inv w :
  tls_inv w -> runnable Reload w -> exists w', main_action w = Some w' /\ tls_inv w'.
Proof.
  intros Hi Hrun. pose proof Hi as [Hr [cur Hcur] Hc Hrd Hw Hl Hread]. unfold main_action. unfold holders in Hr. cbn [runnable] in Hrun.
  destruct (reloader w) as [|f|f|o|[o|]] eqn:Hpc; cbn [in_hand] in Hr.
  - destruct (build_ctx _ _ _ (lib w)) as [[[f|] err] l'] eqn:Hb; apply build_ctx_spec in Hb as [Hs Hb];
      eexists; (split; [reflexivity|]); split; cbn; rewrite ?Hs, ?Hpc; try done; [|by exists cur| |by exists cur].
    + intros d. unfold holders. cbn. rewrite Hs. destruct Hb as (_ & Hf0 & Hf1 & Hd).
      destruct (decide (d = f)) as [->|Hne].
      * rewrite Hr in Hf0. rewrite Hf1, hold_self. lia.
      * by rewrite Hd, Hr, (hold_not None), (hold_not (Some f)) by congruence.
    + intros d. unfold holders. cbn. destruct Hb as [_ Hb]. by rewrite Hb, Hr, Hs, ?Hpc.
  - eexists. split; [reflexivity|]. destruct Hrun as [Hw0 Hr0]. split; cbn; try done; by exists cur.
  - eexists. split; [reflexivity|]. split; cbn; try done; [|by exists f|].
    + intros d. unfold holders. cbn. rewrite Hr. lia.
    + rewrite Hrd in Hl. specialize (Hl Hw). intros i c Hic. exfalso.
      assert (Read c ∈ filter (fun pc => inside pc = true) (wraps w)) as Hin.
      { apply list_elem_of_filter. split; [done|]. by eapply list_elem_of_lookup_2. }
      destruct (filter _ (wraps w)); [by apply not_elem_of_nil in Hin|done].
  - eexists. split; [reflexivity|]. split; cbn; try done; by exists cur.
  - rewrite held_alive; [|done|unfold holders; rewrite Hpc; cbn [in_hand]; rewrite hold_self; lia].
    eexists. split; [reflexivity|].
    destruct (ctx_free_law o (lib w)) as (Hs & Ho & Hd).
    { rewrite Hr, hold_self. lia. }
    split; cbn; rewrite ?Hs; try done; [|by exists cur].
    intros d. unfold holders. cbn. rewrite Hs. destruct (decide (d = o)) as [->|Hne].
    + rewrite Ho, Hr, hold_self, (hold_not None) by done. lia.
    + by rewrite Hd, Hr, (hold_not None), (hold_not (Some o)) by congruence.
  - eexists. split; [reflexivity|]. split; cbn; try done; by exists cur.
Qed.

Lemma length_inside l1 pc l2 :
  length (filter (fun pc => inside pc = true) (l1 ++ pc :: l2)) =
    one_if (inside pc) + length (filter (fun pc => inside pc = true) (l1 ++ l2)).
Proof.
  rewrite !filter_app, filter_cons. destruct (inside pc); [rewrite decide_True by done|rewrite decide_False by done];
    rewrite !length_app; cbn; lia.
Qed.

Lemma perm_made (C : list nat) l1 pc l2 K :
  C ++ omap made (l1 ++ pc :: l2) ≡ₚ K -> option_list (made pc) ++ C ++ omap made (l1 ++ l2) ≡ₚ K.
Proof.
  intros <-. rewrite !omap_app. cbn. destruct (made pc); cbn; [|done].
  by rewrite !(assoc_L app), Permutation_middle.
Qed.

Lemma made_perm (C : list nat) l1 pc l2 K :
  option_list (made pc) ++ C ++ omap made (l1 ++ l2) ≡ₚ K -> C ++ omap made (l1 ++ pc :: l2) ≡ₚ K.
Proof.
  intros <-. rewrite !omap_app. cbn. destruct (made pc); cbn; [|done].
  by rewrite !(assoc_L app), Permutation_middle.
Qed.

Lemma read_kept i pc w :
  tls_inv w -> (forall c, pc = Read c -> c = ctx_ (tls w)) ->
  forall j c, <[i := pc]> (wraps w) !! j = Some (Read c) -> c = ctx_ (tls w).
Proof.
  intros [_ _ _ _ _ _ Hread] Hpc j c. rewrite list_lookup_insert_Some. intros [(_ & -> & _)|[_ ?]]; [by apply Hpc|by apply (Hread j)].
Qed.

(** [SSL_new] on the context that was read. *)
Lemma ssl_new_inv i c w :
  tls_inv w -> wraps w !! i = Some (Read (Some c)) ->
  exists w', worker_action i (Read (Some c)) w = Some w' /\ tls_inv w'.
Proof.
  intros Hi Hpc. pose proof Hi as [Hr [cur Hcur] Hc Hrd Hw Hl Hread]. unfold holders in Hr.
  destruct (insert_split _ _ _ Hpc) as (l1 & l2 & Hws & Hlen & Hins).
  rewrite Hws in Hc, Hrd. apply perm_made in Hc. rewrite length_inside in Hrd. cbn [worker_action inside one_if] in *.
  specialize (Hread _ _ Hpc). rewrite held_alive; [|done|unfold holders; rewrite <- Hread, hold_self; lia].
  destruct (SSL_new c (lib w)) as [ssl l'] eqn:Hnew.
  apply ssl_new_law in Hnew; [|rewrite Hr, <- Hread, hold_self; lia].
  assert (forall j d, <[i := Made ssl]> (wraps w) !! j = Some (Read d) -> d = ctx_ (tls w)) as Hkept by by apply read_kept.
  eexists. split; [reflexivity|]. destruct ssl as [s|].
  - destruct Hnew as (Hs & Hss & Hrc & Hd). split; cbn; try rewrite Hins; rewrite ?Hss; try done.
    + intros d. unfold holders. cbn. rewrite Hss, conns_of_insert by done. destruct (decide (d = c)) as [->|Hne].
      { rewrite Hrc, Hr, (bool_decide_eq_true_2 (c = c)) by done. cbn. lia. }
      rewrite Hd, Hr, (bool_decide_eq_false_2 (c = d)) by congruence. cbn. lia.
    + by exists cur.
    + apply made_perm. cbn. rewrite map_to_list_insert by done. cbn. by rewrite Hc.
    + rewrite length_inside. cbn. lia.
    + by rewrite <- Hins.
  - destruct Hnew as [Hss Hd]. split; cbn; try rewrite Hins; rewrite ?Hss; try done.
    + intros d. unfold holders. cbn. by rewrite Hd, Hss, Hr.
    + by exists cur.
    + by apply made_perm.
    + rewrite length_inside. cbn. lia.
    + by rewrite <- Hins.
Qed.

Lemma worker_action_inv i pc w :
  tls_inv w -> wraps w !! i = Some pc -> runnable (Wrap i) w ->
  exists w', worker_action i pc w = Some w' /\ tls_inv w'.
Proof.
  intros Hi Hpc Hrun. cbn in Hrun. rewrite Hpc in Hrun.
  pose proof Hi as [Hr [cur Hcur] Hc Hrd Hw Hl Hread]. unfold holders in Hr.
  destruct (insert_split _ _ _ Hpc) as (l1 & l2 & Hws & Hlen & Hins).
  pose proof (fun pc => read_kept i pc w Hi) as Hkept.
  rewrite Hws in Hc, Hrd. apply perm_made in Hc. rewrite length_inside in Hrd.
  assert (inside pc = true -> writer w = false) as Hnw.
  { intros Hin. destruct (writer w); [|done]. rewrite Hin in Hrd. cbn in Hrd. specialize (Hl eq_refl). lia. }
  destruct pc as [| |[c|]|ssl]; cbn [inside one_if made option_list app] in *; [| |by apply ssl_new_inv| |];
    cbn [worker_action].
  - eexists. split; [reflexivity|]. split; cbn; try rewrite Hins; try done; [by exists cur| | | |].
    + by apply made_perm.
    + rewrite length_inside. cbn. lia.
    + congruence.
    + rewrite <- Hins. by apply Hkept.
  - eexists. split; [reflexivity|]. split; cbn; try rewrite Hins; try done; [by exists cur| | |].
    + by apply made_perm.
    + rewrite length_inside. cbn. lia.
    + rewrite <- Hins. apply Hkept. by intros ? [= ->].
  - exfalso. specialize (Hread _ _ Hpc). congruence.
  - eexists. split; [reflexivity|]. split; cbn; try rewrite Hins; try done.
    + by exists cur.
    + apply made_perm. cbn. rewrite <- Hc. rewrite (assoc_L app). f_equiv. destruct ssl as [s|]; cbn; [|by rewrite (left_id_L ∅ _)].
      rewrite elements_union_singleton; [done|]. intros Hin.
      assert (NoDup (s :: elements (conns w) ++ omap made (l1 ++ l2))) as Hnd by (rewrite Hc; apply NoDup_fst_map_to_list).
      apply NoDup_cons in Hnd as [Hnd _]. apply Hnd, elem_of_app. left. by apply elem_of_elements.
    + rewrite length_inside. cbn. lia.
    + intros Hwt. rewrite Hnw in Hwt by done. done.
    + rewrite <- Hins. by apply Hkept.
Qed.

Lemma close_conn_inv s w :
  tls_inv w -> s ∈ conns w -> exists w', close_conn s w = Some w' /\ tls_inv w'.
Proof.
  intros Hi Hin. pose proof Hi as [Hr [cur Hcur] Hc Hrd Hw Hl Hread]. unfold holders in Hr. unfold close_conn.
  assert (s ∈ (map_to_list (ssls (lib w))).*1) as Hs.
  { rewrite <- Hc. apply elem_of_app. left. by apply elem_of_elements. }
  apply list_elem_of_fmap in Hs as ([s' c] & -> & Hs%elem_of_map_to_list). cbn [fst snd] in *. rewrite Hs.
  pose proof (conns_of_delete c _ _ _ Hs) as Hcd. rewrite (bool_decide_eq_true_2 (c = c)) in Hcd by done. cbn in Hcd.
  rewrite held_alive; [|done|unfold holders; lia].
  destruct (ssl_free_law s' c (lib w) Hs) as (Hss & Hrc & Hd); [rewrite Hr; lia|].
  eexists. split; [reflexivity|]. split; cbn; rewrite ?Hss; try done; [|by exists cur|].
  - intros d. unfold holders. cbn. rewrite Hss. destruct (decide (d = c)) as [->|Hne]; [rewrite Hrc, Hr; lia|].
    rewrite Hd, Hr by done. rewrite (conns_of_delete d _ _ _ Hs), (bool_decide_eq_false_2 (c = d)) by congruence. cbn. lia.
  - apply (Permutation_app_inv_l [s']). cbn [app].
    rewrite <- (map_to_list_delete (ssls (lib w)) s' c) in Hc by done. cbn in Hc. rewrite <- Hc, (app_comm_cons _ _ s').
    f_equiv. rewrite <- (elements_union_singleton (conns w ∖ {[s']}) s') by set_solver. f_equiv.
    rewrite <- union_difference_singleton_L by done. done.
Qed.

Lemma act_inv a w : tls_inv w -> runnable a w -> exists w', act a w = Some w' /\ tls_inv w'.
Proof.
  intros Hi Hrun. destruct a as [|i|s]; cbn [act].
  - by apply main_action_inv.
  - cbn in Hrun. destruct (wraps w !! i) as [pc|] eqn:Hpc; [|done]. apply (worker_action_inv i pc w Hi Hpc).
    cbn. by rewrite Hpc.
  - by apply close_conn_inv.
Qed.

Lemma filter_none {A} (P : A -> Prop) `{forall x, Decision (P x)} l : (forall x, x ∈ l -> ~ P x) -> filter P l = [].
Proof.
  induction l as [|x l IH]; intros Hn; [done|]. rewrite filter_cons, decide_False by (apply Hn; by left).
  apply IH. intros y Hy. apply Hn. by right.
Qed.

Lemma tls_started_inv t l n c :
  ctx_ t = Some c -> ssls l = ∅ -> (forall d, refs l d = one_if (bool_decide (Some c = Some d))) -> tls_inv (started t l n).
Proof.
  intros Ht Hs Hr. assert (forall pc, pc ∈ replicate n Outside -> pc = Outside) as Hrep.
  { intros pc Hin. by apply elem_of_replicate in Hin as [-> _]. }
  split; cbn; try done.
  - intros d. unfold holders. cbn. rewrite Hs, Hr, Ht. rewrite (hold_not None) by done. unfold conns_of.
    rewrite map_filter_empty, map_size_empty. lia.
  - by exists c.
  - rewrite Hs, map_to_list_empty. cbn. clear. induction n; cbn; [done|]. done.
  - rewrite filter_none; [done|]. by intros pc ->%Hrep.
  - intros i d Hl. apply list_elem_of_lookup_2, Hrep in Hl. done.
Qed.

Lemma steps_inv w w' : tls_inv w -> rtc tls_step w w' -> tls_inv w'.
Proof.
  intros Hi Hs. revert Hi. induction Hs as [|w w1 w2 [a v v' Hrun Ha] _ IH]; [done|]. intros Hi. apply IH.
  destruct (act_inv a v Hi Hrun) as (v2 & Ha2 & Hi2). congruence.
Qed.

(** A reload that fails leaves the certificate, and nothing behind. *)
Lemma reload_spec err t l ok err' t' l' :
  (forall c, ctx_ t = Some c -> 0 < refs l c) -> reload err t l = (ok, err', t', l') ->
  ssls l' = ssls l /\ cert_path_ t' = cert_path_ t /\ key_path_ t' = key_path_ t /\
  if ok then exists c, ctx_ t' = Some c /\ refs l c = 0 /\ refs l' c = 1 /\
               forall d, d <> c -> refs l' d = refs l d - one_if (bool_decide (ctx_ t = Some d))
  else ctx_ t' = ctx_ t /\ forall d, refs l' d = refs l d.
Proof.
  intros Hlive. unfold reload. destruct (build_ctx _ _ _ _) as [[[c|] e] l1] eqn:Hb; apply build_ctx_spec in Hb as [Hs Hb];
    intros [= <- <- <- <-].
  2: { by destruct Hb. }
  destruct Hb as (_ & H0 & H1 & Hd). cbn. unfold free_ctx. destruct (ctx_ t) as [o|] eqn:Ho.
  - assert (o <> c) as Hoc by (intros ->; specialize (Hlive c eq_refl); lia).
    destruct (ctx_free_law o l1) as (Hs2 & Ho2 & Hd2); [rewrite Hd by done; by apply Hlive|].
    split_and!; [congruence|done..|]. exists c. split_and!; [done|done|by rewrite Hd2|].
    intros d Hne. destruct (decide (d = o)) as [->|Hdo]; [rewrite hold_self, Ho2, Hd by done; lia|].
    rewrite (hold_not (Some o)), Hd2, Hd by congruence. lia.
  - split_and!; [done..|]. exists c. split_and!; [done..|]. intros d Hne. rewrite (hold_not None), Hd by done. lia.
Qed.

(** ** Properties *)

(** C23: the certificate is reloaded under the feet of the workers, and no connection is ever
    made from a context that was freed: whatever the interleaving, no thread uses a freed
    context or connection, a context lives exactly as long as somebody holds it, and when
    the connections are closed the destructor leaves nothing. *)
Theorem tls_context_safe cert_path key_path err t l0 l n w :
  (forall c, refs l0 c = 0) -> ssls l0 = ∅ -> init cert_path key_path [] new_tls l0 = (true, err, t, l) ->
  rtc tls_step (started t l n) w ->
  (forall a, runnable a w -> exists w', act a w = Some w') /\
  (forall c, refs (lib w) c = holders c w) /\
  (reloader w = Idle -> conns w = ∅ -> (forall pc, pc ∈ wraps w -> pc = Outside) ->
   forall c, refs (destroy_tls (tls w) (lib w)) c = 0).
Proof.
  intros H0 Hs0 Hinit Hsteps. assert (tls_inv w) as Hi.
  { eapply steps_inv; [|exact Hsteps]. unfold init in Hinit.
    destruct (build_ctx _ _ _ _) as [[[c|] e] l1] eqn:Hb; [|done]. apply build_ctx_spec in Hb as [Hs (_ & _ & H1 & Hd)].
    injection Hinit as _ <- <-. eapply tls_started_inv; [done|congruence|]. intros d. destruct (decide (d = c)) as [->|Hne].
    - by rewrite hold_self.
    - by rewrite Hd, H0, (hold_not (Some c)) by congruence. }
  split_and!; [intros a Ha; destruct (act_inv a w Hi Ha) as (w' & Hw & _); by exists w'|apply Hi|].
  intros Hidle Hconns Hout. destruct (inv_ctx _ Hi) as [cur Hcur].
  assert (forall c, refs (lib w) c = one_if (bool_decide (Some cur = Some c))) as Hr.
  { intros c. rewrite (inv_refs _ Hi). unfold holders. rewrite Hcur, Hidle. cbn [in_hand]. rewrite (hold_not None) by done.
    pose proof (inv_conns _ Hi) as Hc. rewrite Hconns, elements_empty in Hc. cbn in Hc.
    assert (omap made (wraps w) = []) as Hm.
    { revert Hout. generalize (wraps w). clear. intros l. induction l as [|pc l IH]; intros Hout; [done|]. cbn.
      rewrite (Hout pc) by (by left). cbn. apply IH. intros q Hq. apply Hout. by right. }
    rewrite Hm in Hc. apply Permutation_nil_l, eq_sym, fmap_nil_inv, map_to_list_empty_iff in Hc. rewrite Hc. unfold conns_of.
    rewrite map_filter_empty, map_size_empty. lia. }
  intros c. unfold destroy_tls, free_ctx. rewrite Hcur.
  destruct (ctx_free_law cur (lib w)) as (_ & Hc0 & Hd0); [rewrite Hr, hold_self; lia|].
  destruct (decide (c = cur)) as [->|Hne]; [rewrite Hc0, Hr, hold_self; lia|].
  by rewrite Hd0, Hr, (hold_not (Some cur)) by congruence.
Qed.
End Tls.

(** ** A library that counts *)

Record Counted := mk_counted { counts : gmap nat nat; live : gmap nat nat; refuses : bool }.
#[export] Instance eta_Counted : Eta Counted := fun l => mk_counted (counts l) (live l) (refuses l).

Definition count (l : Counted) (c : nat) : nat := default 0 (counts l !! c).
Definition counted_new (l : Counted) : option nat * Counted :=
  let c := fresh (dom (counts l)) in (Some c, l <| counts ::= <[c := 1]> |>).
Definition counted_ssl (c : nat) (l : Counted) : option nat * Counted :=
  if refuses l then (None, l)
  else
    let s := fresh (dom (live l)) in
    (Some s, (l <| counts ::= <[c := S (count l c)]> |>) <| live ::= <[s := c]> |>).
Definition counted_free (c : nat) (l : Counted) : Counted := l <| counts ::= <[c := count l c - 1]> |>.
Definition counted_close (s : nat) (l : Counted) : Counted :=
  match live l !! s with Some c => (counted_free c l) <| live ::= delete s |> | None => l end.

Ltac counting := unfold count; cbn; rewrite ?lookup_insert_eq, ?lookup_insert_ne by congruence; try done.

#[export] Program Instance counted : OpenSSL Counted := {
  refs := count; ssls := live; SSL_CTX_new := counted_new; SSL_CTX_configure _ l := l;
  SSL_CTX_use_certificate_chain_file _ p l := (bool_decide (p <> []), l);
  SSL_CTX_use_PrivateKey_file _ p l := (bool_decide (p <> []), l);
  SSL_CTX_check_private_key _ _ := true; SSL_CTX_free := counted_free; SSL_new := counted_ssl; SSL_free := counted_close
}.
Next Obligation.
  unfold counted_new. intros l r l' [= <- <-]. split; [done|]. split_and!; [|by counting|intros d Hd; by counting].
  unfold count. assert (counts l !! fresh (dom (counts l)) = None) as -> by (apply not_elem_of_dom, is_fresh). done.
Qed.
Next Obligation. by intros c l. Qed.
Next Obligation. by intros c p l. Qed.
Next Obligation. by intros c p l. Qed.
Next Obligation. intros c l Hc. split_and!; [done|by counting|intros d Hd; by counting]. Qed.
Next Obligation.
  unfold counted_ssl. intros c l r l' Hc. destruct (refuses l); intros [= <- <-]; [done|].
  split_and!; [apply not_elem_of_dom, is_fresh|done|by counting|intros d Hd; by counting].
Qed.
Next Obligation.
  unfold counted_close. intros s c l Hs Hc. rewrite Hs. split_and!; [done|by counting|intros d Hd; by counting].
Qed.

(** ** A run *)

Definition run_actions (l : list action) (w : @TlsWorld Counted) : option (@TlsWorld Counted) :=
  foldl (fun w a => w ← w; act a w) (Some w) l.

(** A connection is made, the certificate is reloaded, and a second worker makes another
    from the new context; then both are closed. *)
Definition sample_actions : list action :=
  [Wrap 0; Wrap 0; Wrap 0; Wrap 0; Reload; Reload; Reload; Reload; Wrap 1; Reload; Wrap 1; Wrap 1; Wrap 1;
   CloseConn 0; CloseConn 1].
Definition sample_start : @TlsWorld Counted :=
  let '(_, _, t, l) := init (lit "c") (lit "k") [] new_tls (mk_counted ∅ ∅ false) in started t l 2.

Example tls_run_ex :
  (fun w => (refs (lib w) 0, refs (lib w) 1, conns w)) <$> run_actions (take 13 sample_actions) sample_start =
    Some (1, 2, {[0; 1]}) /\
  (fun w => refs (destroy_tls (tls w) (lib w)) 1) <$> run_actions sample_actions sample_start = Some 0.
Proof. by vm_compute. Qed.

Example tls_context_safe_witness :
  exists t l,
    (forall c, refs (mk_counted ∅ ∅ false) c = 0) /\ ssls (mk_counted ∅ ∅ false) = ∅ /\
    init (lit "c") (lit "k") [] new_tls (mk_counted ∅ ∅ false) = (true, [], t, l) /\
    exists w, act (Wrap 0) (started t l 2) = Some w /\ rtc tls_step (started t l 2) w /\
    (forall a, runnable a w -> exists w', act a w = Some w') /\
    (forall c, refs (lib w) c = holders c w) /\
    (reloader w = Idle -> conns w = ∅ -> (forall pc, pc ∈ wraps w -> pc = Outside) ->
     forall c, refs (destroy_tls (tls w) (lib w)) c = 0).
Proof.
  destruct (init (lit "c") (lit "k") [] new_tls (mk_counted ∅ ∅ false)) as [[[ok err] t] l] eqn:Hi.
  assert (ok = true /\ err = []) as [-> ->] by (vm_compute in Hi; by injection Hi).
  exists t, l. split; [by intros|]. split; [reflexivity|]. split; [reflexivity|].
  eexists. split; [reflexivity|].
  assert (rtc tls_step (started t l 2) (((started t l 2) <| readers ::= S |>) <| wraps ::= <[0 := Shared]> |>)) as Hs.
  { apply rtc_once. apply (step_act (Wrap 0)); reflexivity. }
  split; [exact Hs|]. exact (tls_context_safe (lit "c") (lit "k") [] t (mk_counted ∅ ∅ false) l 2 _ ltac:(by intros) eq_refl Hi Hs).
Defined.
