(* ===== verification/ControlServer.v ===== *)
(** * ControlServer: the thread of the admin socket

    Models the rest of [ControlServer] (src/src/control/control_server.{hpp,cpp}): [start],
    [stop], the accept loop [run], the loops of [handle_client] and [write_all]. [start] and
    [stop] are programs of [Kernel]. Once started, two threads share the object: the admin
    thread, one action of which is [admin_step], and the main thread in [stop], one action of
    which is [stop_step]. What a line does is [Control.dispatch]. *)
From Stdlib Require Import Relation_Operators Lexicographic_Product Wellfounded.
From stdpp Require Import relations.
From S2P Require Import Prelude Text Log Autocorrect Clock Supervisor SupervisorView Control Admin Kernel.
Open Scope Z_scope.

(** ** Starting and stopping *)

(** [thread_.joinable()] is whether [start] made the thread. *)
Record ControlServer := mk_server {
  socket_path_ : bytes; listen_fd_ : Z; stop_fd_ : Z; running_ : bool; joinable : bool
}.
#[export] Instance eta_ControlServer : Eta ControlServer := fun s =>
  mk_server (socket_path_ s) (listen_fd_ s) (stop_fd_ s) (running_ s) (joinable s).
Definition new_server (path : bytes) : ControlServer := mk_server path (-1) (-1) false false.

(** [sizeof(addr.sun_path)]. *)
Definition sun_path_size : nat := 108.

Section Lifecycle.
Context `{Os}.

Definition start (s : ControlServer) : M Kernel (bool * ControlServer) :=
  let path := socket_path_ s in
  let! fd := call (Socket AF_UNIX) in
  if fd <? 0 then mret (false, s <| listen_fd_ := -1 |>)
  else
    let abandon (unlink : bool) :=
      call (Close fd) ;;
      when unlink (call (Unlink path) ;; mret tt) ;;
      mret (false, s <| listen_fd_ := -1 |>) in
    if (sun_path_size <=? length path)%nat then abandon false
    else
      let! _ := call (Unlink path) in
      let! r := call (Bind fd (Unix path)) in
      if r <? 0 then abandon false
      else
        let! _ := call (Chmod path 384 (* 0600 *)) in
        let! r := call (Listen fd 8) in
        if r <? 0 then abandon true
        else
          let! e := call Eventfd in
          if e <? 0 then abandon true
          else
            let! _ := call (Start_thread AdminThread) in
            mret (true, mk_server path fd e true true).

(** [stop], also the destructor. [join] returns when the thread has ended: see [stop_step]. *)
Definition stop (s : ControlServer) : M Kernel ControlServer :=
  if negb (running_ s) then mret s
  else
    when (0 <=? stop_fd_ s) (call (Write (stop_fd_ s)) ;; mret tt) ;;
    when (joinable s) (call (Join_thread AdminThread) ;; mret tt) ;;
    when (0 <=? listen_fd_ s) (call (Close (listen_fd_ s)) ;; mret tt) ;;
    when (0 <=? stop_fd_ s) (call (Close (stop_fd_ s)) ;; mret tt) ;;
    when (negb (bool_decide (socket_path_ s = []))) (call (Unlink (socket_path_ s)) ;; mret tt) ;;
    mret (mk_server (socket_path_ s) (-1) (-1) false false).

(** What a server that runs holds. *)
Record serving (F : gset Z) (T : gset thread) (N : gset bytes) (s : ControlServer) (k : Kernel) : Prop := {
  srv_running : running_ s = true /\ joinable s = true;
  srv_fds : 0 <= listen_fd_ s /\ 0 <= stop_fd_ s /\ listen_fd_ s <> stop_fd_ s /\ listen_fd_ s ∉ F /\ stop_fd_ s ∉ F;
  srv_thread : AdminThread ∉ T;
  srv_name : socket_path_ s ∉ N /\ socket_path_ s <> [];
  srv_holds : holds ({[listen_fd_ s; stop_fd_ s]} ∪ F) ({[AdminThread]} ∪ T) ({[socket_path_ s]} ∪ N) k
}.

Definition start_result (path : bytes) F T N (res : bool * ControlServer) (k : Kernel) : Prop :=
  socket_path_ res.2 = path /\
  if res.1 then serving F T N res.2 k else running_ res.2 = false /\ holds F T N k.

Lemma wp_start path F T N k :
  holds F T N k -> AdminThread ∉ T -> path ∉ N -> path <> [] ->
  wp (start (new_server path)) (start_result path F T N) k.
Proof.
  intros Hk HT HN Hpath. unfold start. cbn [new_server socket_path_]. set (Q := start_result path F T N).
  wp_opens fd Hfd Hnew Hk0 Hc0; [destruct (Z.ltb_spec fd 0); [lia|]|destruct (Z.ltb_spec fd 0); [|lia]].
  2: { apply sys_wp_ret. by split_and!. }
  cbv zeta.
  assert (forall (unlink : bool) k1 N1, holds ({[fd]} ∪ F) T N1 k1 -> N1 = (if unlink then {[path]} ∪ N else N) ->
    wp (call (Close fd) ;; when unlink (call (Unlink path) ;; mret tt) ;;
        mret (false, mk_server path (-1) (-1) false false)) Q k1) as Hgive.
  { intros unlink k1 N1 Hk1 ->. apply sys_wp_bind. eapply wp_close; [exact Hk1|set_solver|]. intros r k2 Hk2 _. apply sys_wp_bind.
    destruct unlink; cbn [when].
    - apply sys_wp_bind. eapply wp_use; [exact Hk2|set_solver|done..|]. intros r2 k3 Hk3 _. cbn [names_after] in Hk3.
      do 2 apply sys_wp_ret. split; [done|]. split; [done|]. eapply holds_eq; [exact Hk3|set_solver|done|set_solver].
    - do 2 apply sys_wp_ret. split; [done|]. split; [done|]. eapply holds_eq; [exact Hk2|set_solver|done..]. }
  destruct (sun_path_size <=? length path)%nat; [by eapply (Hgive false)|].
  wp_uses u Hk1 Hc1. wp_uses b Hk2 Hc2. destruct (Z.ltb_spec b 0); [eapply (Hgive false); [exact Hk2|set_solver]|].
  wp_uses m Hk3 Hc3. wp_uses l Hk4 Hc4. destruct (Z.ltb_spec l 0); [eapply (Hgive true); [exact Hk4|set_solver]|].
  wp_opens e He Hnew2 Hk5 Hc5; [destruct (Z.ltb_spec e 0); [lia|]|destruct (Z.ltb_spec e 0); [|lia]].
  2: { eapply (Hgive true); [exact Hk5|set_solver]. }
  apply wp_let. eapply wp_start_thread; [exact Hk5|done|]. intros k6 Hk6. apply sys_wp_ret. split; [done|].
  assert (e <> fd /\ e ∉ F) as [? ?] by set_solver.
  split; cbn; [done|split_and!; done|done|done|]. eapply holds_eq; [exact Hk6|set_solver|done|set_solver].
Qed.

Lemma wp_stop F T N s k :
  serving F T N s k -> wp (stop s) (fun s' k' => running_ s' = false /\ holds F T N k') k.
Proof.
  intros [[Hr Hj] (Hl & He & Hle & HlF & HeF) HT [HN Hpath] Hk]. unfold stop. rewrite Hr, Hj. cbn [negb when].
  rewrite !(proj2 (Z.leb_le 0 _)) by done. cbn [when].
  do 2 apply sys_wp_bind. eapply wp_use; [exact Hk|intros x; cbn; set_solver|done..|]. intros r1 k1 Hk1 _. cbn [names_after] in Hk1.
  apply sys_wp_ret, sys_wp_bind, sys_wp_bind. eapply wp_join; [exact Hk1|set_solver|]. intros k2 Hk2.
  apply sys_wp_ret, sys_wp_bind, sys_wp_bind. eapply wp_close; [exact Hk2|set_solver|]. intros r3 k3 Hk3 _.
  apply sys_wp_ret, sys_wp_bind, sys_wp_bind. eapply wp_close; [exact Hk3|set_solver|]. intros r4 k4 Hk4 _.
  apply sys_wp_ret, sys_wp_bind. rewrite bool_decide_eq_false_2 by done. cbn [negb when].
  apply sys_wp_bind. eapply wp_use; [exact Hk4|set_solver|done..|]. intros r5 k5 Hk5 _. cbn [names_after] in Hk5.
  do 2 apply sys_wp_ret. split; [done|]. eapply holds_eq; [exact Hk5|set_solver..].
Qed.
End Lifecycle.

(** ** The two threads *)

(** Where the admin thread is. In [ClientWrite] the rest of a string is being written, then
    other strings, then the thread goes to [next]. *)
Inductive after_write := ToCheck | ToServe | ToClose.
Inductive admin_pc :=
  | RunCheck | RunPoll | RunAccept
  | ClientCheck | ClientPoll | ClientRead | ClientServe
  | ClientWrite (pending : bytes) (more : list bytes) (next : after_write)
  | ClientClose | Ended.

(** Where the main thread is in [stop]. *)
Inductive stop_pc := NotCalled | Exchanged | Rung | Joined | ListenClosed | StopClosed | Stopped.

(** What the kernel answers the admin thread. [PollReturns ready]: whether the first
    descriptor is readable; the second is the eventfd, readable once it was written. *)
Inductive choice :=
  | Go
  | PollFails (eintr : bool)
  | PollReturns (ready : bool)
  | AcceptFails | Accepts
  | Reads (data : bytes)                    (* empty: end of file, or an error *)
  | Writes (n : nat) | WriteInterrupted | WriteFails.

(** A session that is over: what its polls gave, what was sent to the client, and whether a
    write failed. *)
Record past := mk_past { p_events : list poll_result; p_sent : bytes; p_lost : bool }.

Section Threads.
Context {S : Type} `{SupervisorPort S}.
Context (rds : nat -> nat -> Readings).      (* of each command of each session *)

Record AdminWorld := mk_world {
  apc : admin_pc; mpc : stop_pc;
  running : bool;                           (* running_ *)
  rung : bool;                              (* the eventfd was written *)
  listen_open : bool; stop_open : bool;     (* listen_fd_, stop_fd_ *)
  ctl : Control S;
  ss : session; events : list poll_result; sent : bytes; lost : bool;   (* of this session *)
  sessions : list past
}.
#[export] Instance eta_AdminWorld : Eta AdminWorld := fun w =>
  mk_world (apc w) (mpc w) (running w) (rung w) (listen_open w) (stop_open w) (ctl w) (ss w) (events w) (sent w) (lost w)
    (sessions w).

Definition new_session : session := mk_session greeting [] false 0.
Definition started (c : Control S) : AdminWorld :=
  mk_world RunCheck NotCalled true false true true c new_session [] [] false [].

Definition goes (pc : admin_pc) (w : AdminWorld) : AdminWorld := w <| apc := pc |>.
Definition saw (ev : poll_result) (w : AdminWorld) : AdminWorld := w <| events ::= fun l => l ++ [ev] |>.

(** [write_all] of the strings one after the other. *)
Definition writing (out : list bytes) (next : after_write) : admin_pc :=
  match out with
  | s :: more => ClientWrite s more next
  | [] => match next with ToCheck => ClientCheck | ToServe => ClientServe | ToClose => ClientClose end
  end.

(** One turn of the inner loop of [handle_client]: a complete line, if there is one. *)
Definition serve_line (w : AdminWorld) : option AdminWorld :=
  let s := ss w in
  match find_char ch_nl (inbuf s) with
  | None => Some (goes ClientCheck w)
  | Some nl =>
      '(resp, close, c) ← dispatch (rds (length (sessions w)) (handled s)) (take nl (inbuf s)) (ctl w);
      let out := if decide (resp = []) then [] else [resp] in
      let s := mk_session (if decide (resp = []) then written_ s else written_ s ++ [resp]) (drop (nl + 1) (inbuf s))
                 close (Datatypes.S (handled s)) in
      Some (goes (writing out (if close : bool then ToClose else ToServe)) ((w <| ss := s |>) <| ctl := c |>))
  end.

Definition admin_step (ch : choice) (w : AdminWorld) : option AdminWorld :=
  match apc w, ch with
  | RunCheck, Go => Some (goes (if running w then RunPoll else Ended) w)
  | RunPoll, PollFails eintr => Some (goes (if eintr then RunCheck else Ended) w)
  | RunPoll, PollReturns ready =>
      Some (goes (if rung w then Ended else if ready then RunAccept else RunCheck) w)
  | RunAccept, AcceptFails => Some (goes RunCheck w)
  | RunAccept, Accepts =>
      Some (goes (writing greeting ToCheck)
              ((((w <| ss := new_session |>) <| events := [] |>) <| sent := [] |>) <| lost := false |>))
  | ClientCheck, Go => Some (goes (if running w then ClientPoll else ClientClose) w)
  | ClientPoll, PollFails true => Some (goes ClientCheck (saw PollInterrupted w))
  | ClientPoll, PollFails false => Some (goes ClientClose (saw PollFailed w))
  | ClientPoll, PollReturns ready =>
      Some (if rung w then goes ClientClose (saw StopRequested w)
            else if ready then goes ClientRead w else goes ClientCheck (saw NotReadable w))
  | ClientRead, Reads [] => Some (goes ClientClose (saw (Received []) w))
  | ClientRead, Reads data =>
      if (length data <=? 1024)%nat then
        Some (goes ClientServe (saw (Received data) (w <| ss ::= fun s => with_inbuf (inbuf s ++ data) s |>)))
      else None
  | ClientServe, Go => serve_line w
  | ClientWrite pending more next, Writes n =>
      if bool_decide (1 <= n <= length pending)%nat then
        let rest := drop n pending in
        Some (goes (if decide (rest = []) then writing more next else ClientWrite rest more next)
                (w <| sent ::= fun l => l ++ take n pending |>))
      else None
  | ClientWrite _ _ _, WriteInterrupted => Some w
  | ClientWrite _ more next, WriteFails => Some (goes (writing more next) (w <| lost := true |>))
  | ClientClose, Go =>
      Some (goes RunCheck (w <| sessions ::= fun l => l ++ [mk_past (events w) (sent w) (lost w)] |>))
  | _, _ => None
  end.

Definition stop_step (w : AdminWorld) : option AdminWorld :=
  match mpc w with
  | NotCalled => Some ((w <| running := false |>) <| mpc := Exchanged |>)
  | Exchanged => Some ((w <| rung := true |>) <| mpc := Rung |>)
  | Rung => match apc w with Ended => Some (w <| mpc := Joined |>) | _ => None end
  | Joined => Some ((w <| listen_open := false |>) <| mpc := ListenClosed |>)
  | ListenClosed => Some ((w <| stop_open := false |>) <| mpc := StopClosed |>)
  | StopClosed => Some (w <| mpc := Stopped |>)               (* unlink *)
  | Stopped => None
  end.

Inductive step : AdminWorld -> AdminWorld -> Prop :=
  | step_admin ch w w' : admin_step ch w = Some w' -> step w w'
  | step_stop w w' : stop_step w = Some w' -> step w w'.

(** The admin thread is about to make a call on a descriptor that was closed. *)
Definition uses_closed (w : AdminWorld) : Prop :=
  match apc w with
  | RunPoll => listen_open w = false \/ stop_open w = false
  | RunAccept => listen_open w = false
  | ClientPoll => stop_open w = false
  | _ => False
  end.

(** ** Sessions are those of [Control] *)

#[local] Arguments handle_client : simpl never.
#[local] Arguments serve : simpl never.

Lemma handle_client_snoc r evs ev c :
  handle_client r (evs ++ [ev]) c =
    '(s, c) ← handle_client r evs c; if over s then Some (s, c) else poll_turn r ev s c.
Proof.
  unfold handle_client. generalize (mk_session greeting [] false 0). revert c.
  induction evs as [|e evs IH]; intros c s; cbn [app handle_client_loop mbind option_bind].
  - destruct (over s); [done|]. by destruct (poll_turn r ev s c) as [[s' c']|].
  - destruct (over s) eqn:Ho; [cbn [mbind option_bind]; by rewrite Ho|].
    destruct (poll_turn r e s c) as [[s' c']|]; [|done]. cbn [mbind option_bind]. apply IH.
Qed.

(** The sessions that are over, as runs of [handle_client]: each starts in the state the one
    before left, and its client got all of its replies if no write failed. *)
Inductive history (c : Control S) : list past -> Control S -> Prop :=
  | history_nil : history c [] c
  | history_snoc ps c1 p s c2 :
      history c ps c1 -> handle_client (rds (length ps)) (p_events p) c1 = Some (s, c2) ->
      (p_lost p = false -> p_sent p = concat (written_ s)) -> history c (ps ++ [p]) c2.

(** The session that is going on, which started in [c0]. *)
Definition current (c0 : Control S) (w : AdminWorld) : Prop :=
  let r := rds (length (sessions w)) in
  let so_far := handle_client r (events w) c0 in
  let all_sent := lost w = false -> sent w = concat (written_ (ss w)) in
  let between := so_far = Some (ss w, ctl w) /\ over (ss w) = false in
  let serving_ := serve r (ss w) (ctl w) = so_far /\ over (ss w) = false in
  match apc w with
  | RunCheck | RunPoll | RunAccept | Ended => ctl w = c0
  | ClientCheck | ClientPoll | ClientRead => between /\ all_sent
  | ClientServe => serving_ /\ all_sent
  | ClientWrite pending more next =>
      pending <> [] /\ Forall (fun s => s <> []) more /\
      (lost w = false -> sent w ++ pending ++ concat more = concat (written_ (ss w))) /\
      match next with ToCheck => between | ToServe => serving_ | ToClose => so_far = Some (ss w, ctl w) end
  | ClientClose => exists s, so_far = Some (s, ctl w) /\ written_ s = written_ (ss w) /\ all_sent
  end.

Definition closing (pc : stop_pc) : bool := match pc with NotCalled | Exchanged | Rung => false | _ => true end.

(** What the flags mean; the descriptors are closed after the thread has ended. *)
Record admin_inv (c : Control S) (w : AdminWorld) : Prop := {
  inv_history : exists c0, history c (sessions w) c0 /\ current c0 w;
  inv_running : running w = match mpc w with NotCalled => true | _ => false end;
  inv_rung : rung w = match mpc w with NotCalled | Exchanged => false | _ => true end;
  inv_ended : closing (mpc w) = true -> apc w = Ended;
  inv_open : closing (mpc w) = false -> listen_open w = true /\ stop_open w = true
}.

(** Steps that touch nothing but the place where the thread is. *)
Lemma current_goes c0 pc w :
  current c0 w ->
  match apc w, pc with
  | (RunCheck | RunPoll | RunAccept), (RunCheck | RunPoll | RunAccept | Ended) => True
  | ClientCheck, (ClientPoll | ClientClose) | ClientPoll, ClientRead => True
  | _, _ => False
  end -> current c0 (goes pc w).
Proof.
  unfold current. cbn. destruct (apc w), pc; cbn; try done. intros [[? ?] ?] _. by exists (ss w).
Qed.

(** When what had to be written is written, or is given up. *)
Lemma current_written c0 w more next :
  Forall (fun s => s <> []) more ->
  (lost w = false -> sent w ++ concat more = concat (written_ (ss w))) ->
  (let r := rds (length (sessions w)) in
   let so_far := handle_client r (events w) c0 in
   match next with
   | ToCheck => so_far = Some (ss w, ctl w) /\ over (ss w) = false
   | ToServe => serve r (ss w) (ctl w) = so_far /\ over (ss w) = false
   | ToClose => so_far = Some (ss w, ctl w)
   end) -> current c0 (goes (writing more next) w).
Proof.
  intros Hm Hs Hn. unfold current. cbn. destruct more as [|s more]; cbn in Hs |- *.
  - rewrite app_nil_r in Hs. destruct next; cbn; [by split..|]. by exists (ss w).
  - apply Forall_cons in Hm as [? ?]. by split_and!.
Qed.

Lemma serve_line_current c0 w w' : current c0 w -> apc w = ClientServe -> serve_line w = Some w' -> current c0 w'.
Proof.
  unfold current at 1. intros Hc Hpc. rewrite Hpc in Hc. destruct Hc as [[Hs Ho] Hsent].
  unfold serve_line. rewrite serve_eq in Hs. destruct (find_char ch_nl (inbuf (ss w))) as [nl|].
  - destruct (dispatch _ _ _) as [[[resp close] c1]|]; [|done]. cbn [mbind option_bind] in *. intros [= <-].
    apply current_written; cbn.
    + case_decide; by repeat constructor.
    + intros Hl. rewrite (Hsent Hl). case_decide; cbn; [by rewrite app_nil_r|]. by rewrite concat_app.
    + destruct close; [done|]. by split.
  - intros [= <-]. unfold current. cbn. by split.
Qed.

Lemma greeting_written : Forall (fun s => s <> []) greeting.
Proof. by repeat constructor. Qed.

(** What the admin thread does to the session. *)
Lemma admin_step_current c c0 ch w w' :
  history c (sessions w) c0 -> current c0 w -> admin_step ch w = Some w' ->
  exists c1, history c (sessions w') c1 /\ current c1 w'.
Proof.
  intros Hh Hc. unfold admin_step. pose proof Hc as Hc'. unfold current in Hc'.
  destruct (apc w) eqn:Hpc, ch; try done.
  - intros [= <-]. exists c0. split; [done|]. apply current_goes; [done|]. rewrite Hpc. by destruct (running w).
  - intros [= <-]. exists c0. split; [done|]. apply current_goes; [done|]. rewrite Hpc. by destruct eintr.
  - intros [= <-]. exists c0. split; [done|]. apply current_goes; [done|]. rewrite Hpc. by destruct (rung w), ready.
  - intros [= <-]. exists c0. split; [done|]. apply current_goes; [done|]. by rewrite Hpc.
  - intros [= <-]. exists c0. split; [done|].
    apply (current_written c0 _ greeting ToCheck); cbn; [apply greeting_written|by intros|].
    split; [|done]. by rewrite Hc'.
  - intros [= <-]. exists c0. split; [done|]. apply current_goes; [done|]. rewrite Hpc. by destruct (running w).
  - destruct Hc' as [[Hs Ho] Hsent]. destruct eintr; intros [= <-]; exists c0; (split; [done|]); unfold current; cbn;
      rewrite handle_client_snoc, Hs; cbn [mbind option_bind]; rewrite Ho; cbn; [by split|]. by eexists.
  - destruct Hc' as [[Hs Ho] Hsent]. intros [= <-]. exists c0. destruct (rung w); [|destruct ready]; (split; [done|]).
    1,3: unfold current; cbn; rewrite handle_client_snoc, Hs; cbn [mbind option_bind]; rewrite Ho; cbn; first [by eexists|by split].
    apply current_goes; [done|]. by rewrite Hpc.
  - destruct Hc' as [[Hs Ho] Hsent]. destruct data as [|x data].
    + intros [= <-]. exists c0. split; [done|]. unfold current. cbn.
      rewrite handle_client_snoc, Hs. cbn [mbind option_bind]. rewrite Ho. cbn. by eexists.
    + destruct (_ <=? _)%nat; [|done]. intros [= <-]. exists c0. split; [done|]. unfold current. cbn.
      rewrite handle_client_snoc, Hs. cbn [mbind option_bind]. rewrite Ho. split; [split|done].
      * unfold serve, with_inbuf, poll_turn. by rewrite Ho.
      * done.
  - intros Hw. exists c0. assert (sessions w' = sessions w) as ->.
    { unfold serve_line in Hw. destruct (find_char _ _); [|by injection Hw as <-].
      destruct (dispatch _ _ _) as [[[resp close] c2]|]; [|done]. by injection Hw as <-. }
    split; [done|]. by eapply serve_line_current.
  - destruct Hc' as (Hp & Hm & Hsent & Hn). case_bool_decide; [|done]. intros [= <-]. exists c0. split; [done|].
    destruct (decide (drop n pending = [])) as [Hd|Hd].
    + apply current_written; cbn; [done| |done]. intros Hl. rewrite <- (Hsent Hl), <- (assoc_L app).
      f_equal. rewrite <- (take_drop n pending) at 2. by rewrite Hd, app_nil_r.
    + unfold current. cbn. split_and!; [done|done| |done]. intros Hl. rewrite <- (Hsent Hl), <- (assoc_L app). f_equal.
      by rewrite (assoc_L app), take_drop.
  - intros [= <-]. by exists c0.
  - destruct Hc' as (Hp & Hm & Hsent & Hn). intros [= <-]. exists c0. split; [done|].
    by apply current_written.
  - destruct Hc' as (s & Hs & Hwr & Hsent). intros [= <-]. exists (ctl w). cbn. split; [|done].
    eapply history_snoc; [exact Hh|exact Hs|]. cbn. rewrite Hwr. exact Hsent.
Qed.

Lemma admin_step_shared ch w w' :
  admin_step ch w = Some w' ->
  apc w <> Ended /\ mpc w' = mpc w /\ running w' = running w /\ rung w' = rung w /\
  listen_open w' = listen_open w /\ stop_open w' = stop_open w.
Proof.
  unfold admin_step, serve_line. intros Hs. split; [by intros He; rewrite He in Hs|]. revert Hs.
  destruct (apc w), ch; try done; repeat (case_match; try done); try (intros [= <-]; done).
  intros Hb. destruct (dispatch _ _ _) as [[[resp close] c2]|]; [|done]. by injection Hb as <-.
Qed.

Lemma step_inv c w w' : admin_inv c w -> step w w' -> admin_inv c w'.
Proof.
  intros [(c0 & Hh & Hc) Hr Hg He Ho] Hs. destruct Hs as [ch w w' Hs|w w' Hs].
  - pose proof (admin_step_shared _ _ _ Hs) as (Hne & Hm & Hr' & Hg' & Hl' & Hst').
    split; rewrite ?Hm, ?Hr', ?Hg', ?Hl', ?Hst'; try done; [by eapply admin_step_current|]. intros Hcl. by rewrite He in Hne.
  - unfold stop_step in Hs. destruct (mpc w) eqn:Hm; try done; [..|destruct (apc w) eqn:Hpc; try done| | |];
      injection Hs as <-; (split; cbn; [by exists c0|done..]).
Qed.

Lemma admin_reachable_inv c w : rtc step (started c) w -> admin_inv c w.
Proof.
  intros Hs. assert (admin_inv c (started c)) as Hi.
  { split; cbn; try done. exists c. split; [constructor|done]. }
  revert Hi. induction Hs as [|w1 w2 w3 H12 _ IH]; [done|]. intros Hi. apply IH. by eapply step_inv.
Qed.

(** ** The admin thread ends once it is told to *)

Definition rank (pc : admin_pc) : nat :=
  match pc with
  | Ended => 0 | RunCheck => 1 | RunPoll | ClientClose => 2 | ClientCheck => 3 | ClientPoll => 4
  | ClientServe | ClientWrite _ _ _ => 5 | ClientRead => 6 | RunAccept => 7
  end%nat.
Definition to_write (pc : admin_pc) : nat :=
  match pc with ClientWrite p more _ => (1 + length p + length more + length (concat more))%nat | _ => 0%nat end.
Definition measure (w : AdminWorld) : nat * (nat * nat) := (rank (apc w), (length (inbuf (ss w)), to_write (apc w))).
Definition smaller : relation (nat * (nat * nat)) := slexprod _ _ lt (slexprod _ _ lt lt).

Lemma smaller_wf : well_founded smaller.
Proof. by repeat apply wf_slexprod; apply lt_wf. Qed.

Lemma smaller_rank r1 r2 x y : (r1 < r2)%nat -> smaller (r1, x) (r2, y).
Proof. by left. Qed.

Lemma smaller_writing more next w :
  (rank (apc w) = 5)%nat -> (length more + length (concat more) < to_write (apc w))%nat ->
  smaller (rank (writing more next), (length (inbuf (ss w)), to_write (writing more next))) (measure w).
Proof.
  intros Hr Hw. unfold measure. rewrite Hr. destruct more as [|s more]; cbn.
  - destruct next; cbn; [apply smaller_rank; lia| |apply smaller_rank; lia]. right; right. lia.
  - right; right. cbn in Hw. rewrite length_app in Hw. lia.
Qed.

(** An action of the admin thread other than a write that is interrupted. *)
Definition progress (w' w : AdminWorld) : Prop := exists ch, ch <> WriteInterrupted /\ admin_step ch w = Some w'.

Lemma progress_smaller w w' :
  running w = false -> rung w = true -> progress w' w -> smaller (measure w') (measure w).
Proof.
  intros Hr Hg (ch & Hch & Hs). unfold admin_step in Hs. rewrite Hr, Hg in Hs.
  destruct (apc w) eqn:Hpc, ch; try done; unfold measure; rewrite Hpc.
  all: try (injection Hs as <-; cbn; try destruct eintr; cbn; apply smaller_rank; lia).
  - destruct eintr; injection Hs as <-; apply smaller_rank; cbn; lia.
  - destruct data as [|x data]; [injection Hs as <-; apply smaller_rank; cbn; lia|].
    destruct (_ <=? _)%nat; [|done]. injection Hs as <-. apply smaller_rank. cbn. lia.
  - unfold serve_line in Hs. destruct (find_char ch_nl (inbuf (ss w))) as [nl|] eqn:Hf; [|injection Hs as <-; apply smaller_rank; cbn; lia].
    destruct (dispatch _ _ _) as [[[resp close] c1]|]; [|done]. injection Hs as <-. cbn.
    apply rest_shorter in Hf as [_ Hlt].
    assert (rank (writing (if decide (resp = []) then [] else [resp]) (if close then ToClose else ToServe)) <= 5)%nat as Hle
      by (case_decide; destruct close; cbn; lia).
    apply Nat.le_lteq in Hle as [Hle| ->]; [by apply smaller_rank|]. right. by left.
  - case_bool_decide; [|done]. injection Hs as <-. cbn. case_decide as Hd.
    + change (smaller (rank (writing more next), (length (inbuf (ss w)), to_write (writing more next)))
                (rank (ClientWrite pending more next), (length (inbuf (ss w)), to_write (ClientWrite pending more next)))).
      rewrite <- Hpc. apply (smaller_writing more next w); rewrite Hpc; cbn; lia.
    + cbn. right; right. rewrite length_drop. lia.
  - injection Hs as <-. cbn.
    change (smaller (rank (writing more next), (length (inbuf (ss w)), to_write (writing more next)))
              (rank (ClientWrite pending more next), (length (inbuf (ss w)), to_write (ClientWrite pending more next)))).
    rewrite <- Hpc. apply (smaller_writing more next w); rewrite Hpc; cbn; lia.
Qed.

Lemma progress_ends w : running w = false -> rung w = true -> Acc progress w.
Proof.
  remember (measure w) as m eqn:Hm. revert w Hm. induction (smaller_wf m) as [m _ IH]. intros w -> Hr Hg.
  constructor. intros w' Hp. pose proof Hp as (ch & _ & Hs). apply admin_step_shared in Hs as (_ & _ & Hr' & Hg' & _).
  apply (IH (measure w')); [by apply progress_smaller|done|congruence..].
Qed.

Lemma step_log_ok w w' : log_ok (log (ctl w)) -> step w w' -> log_ok (log (ctl w')).
Proof.
  intros Hl Hst. revert Hl. destruct Hst as [ch v v' Hs|v v' Hs]; intros Hl.
  - unfold admin_step in Hs. destruct (apc v), ch; try done; try (injection Hs as <-; repeat case_match; done);
      try (repeat (case_match; try done); injection Hs as <-; repeat case_match; done).
    unfold serve_line in Hs. destruct (find_char ch_nl (inbuf (ss v))) as [nl|]; [|by injection Hs as <-].
    destruct (dispatch_total (rds (length (sessions v)) (handled (ss v))) (take nl (inbuf (ss v))) (ctl v) Hl)
      as (resp & close & c & Hd & Hl'). rewrite Hd in Hs. by injection Hs as <-.
  - unfold stop_step in Hs. destruct (mpc v); try done; [..|destruct (apc v); try done| | |]; by injection Hs as <-.
Qed.

Lemma steps_log_ok w w' : rtc step w w' -> log_ok (log (ctl w)) -> log_ok (log (ctl w')).
Proof. intros Hs. induction Hs as [|w1 w2 w3 H12 _ IH]; [done|]. intros Hl. apply IH. by eapply step_log_ok. Qed.

(** The thread never waits for anything but its client. *)
Lemma progress_or_write w :
  log_ok (log (ctl w)) -> apc w <> Ended ->
  (exists p more next, apc w = ClientWrite p more next) \/ exists w', progress w' w.
Proof.
  intros Hl He. destruct (apc w) eqn:Hpc; try done; [..|by left; eauto|]; right.
  - eexists. exists Go. split; [done|]. unfold admin_step. by rewrite Hpc.
  - eexists. exists (PollReturns false). split; [done|]. unfold admin_step. by rewrite Hpc.
  - eexists. exists Accepts. split; [done|]. unfold admin_step. by rewrite Hpc.
  - eexists. exists Go. split; [done|]. unfold admin_step. by rewrite Hpc.
  - eexists. exists (PollReturns false). split; [done|]. unfold admin_step. by rewrite Hpc.
  - eexists. exists (Reads []). split; [done|]. unfold admin_step. by rewrite Hpc.
  - destruct (find_char ch_nl (inbuf (ss w))) as [nl|] eqn:Hf.
    + destruct (dispatch_total (rds (length (sessions w)) (handled (ss w))) (take nl (inbuf (ss w))) (ctl w) Hl)
        as (resp & close & c & Hd & _).
      eexists. exists Go. split; [done|]. unfold admin_step, serve_line. rewrite Hpc, Hf, Hd. reflexivity.
    + eexists. exists Go. split; [done|]. unfold admin_step, serve_line. rewrite Hpc, Hf. reflexivity.
  - eexists. exists Go. split; [done|]. unfold admin_step. by rewrite Hpc.
Qed.

(** ** Properties *)

(** C25: the admin thread serves its clients one after the other, each as [Control] says:
    its sessions are runs of [handle_client], each from the state the one before left, and a
    client whose writes all succeed receives exactly the replies, however the kernel cuts
    reads and writes and whenever castle is stopped. *)
Theorem admin_sessions c w :
  rtc step (started c) w ->
  exists c0, history c (sessions w) c0 /\
    match apc w with RunCheck | RunPoll | RunAccept | Ended => ctl w = c0 | _ => True end.
Proof.
  intros Hs. apply admin_reachable_inv in Hs as [(c0 & Hh & Hc) _ _ _ _]. exists c0. split; [done|].
  unfold current in Hc. by destruct (apc w).
Qed.

(** C26: [stop] is safe and ends: the admin thread never touches a descriptor that was
    closed; once the doorbell is rung it has only finitely many things left to do, and it
    waits for nothing but a client that does not read; when it has ended, [stop] goes to
    its end. *)
Theorem admin_stop c w :
  log_ok (log c) -> rtc step (started c) w ->
  ~ uses_closed w /\
  (rung w = true -> Acc progress w) /\
  (apc w <> Ended -> (exists p more next, apc w = ClientWrite p more next) \/ exists w', progress w' w) /\
  (apc w = Ended -> exists w', rtc (fun a b => stop_step a = Some b) w w' /\ mpc w' = Stopped).
Proof.
  intros Hl Hs. pose proof (admin_reachable_inv _ _ Hs) as [_ Hr Hg He Ho]. split_and!.
  - unfold uses_closed. destruct (closing (mpc w)) eqn:Hc; [rewrite He by done; by intros []|]. destruct (Ho eq_refl) as [-> ->].
    destruct (apc w); naive_solver.
  - intros Hrg. apply progress_ends; [|done]. rewrite Hr. rewrite Hg in Hrg. by destruct (mpc w).
  - intros Hne. apply progress_or_write; [|done]. by apply (steps_log_ok _ _ Hs).
  - intros Hpc. remember (match mpc w with NotCalled => 6 | Exchanged => 5 | Rung => 4 | Joined => 3 | ListenClosed => 2
                           | StopClosed => 1 | Stopped => 0 end)%nat as n eqn:Hn.
    clear -Hpc Hn. revert w Hpc Hn. induction n as [|n IH]; intros w Hpc Hn.
    { exists w. split; [done|]. by destruct (mpc w). }
    assert (exists w', stop_step w = Some w' /\ apc w' = Ended /\
      n = (match mpc w' with NotCalled => 6 | Exchanged => 5 | Rung => 4 | Joined => 3 | ListenClosed => 2
           | StopClosed => 1 | Stopped => 0 end)%nat) as (w1 & H1 & H2 & H3).
    { unfold stop_step. destruct (mpc w); try done; injection Hn as ->; [..|rewrite Hpc| | |]; by eexists. }
    destruct (IH w1 H2 H3) as (w' & Hw & Hm). exists w'. split; [|done]. by eapply rtc_l.
Qed.

(** While a client does not read what is sent to it, [stop] waits: the doorbell is not
    looked at in the middle of a write. *)
Lemma stop_waits_for_client p more next w :
  apc w = ClientWrite p more next -> mpc w = Rung ->
  stop_step w = None /\
  forall ch w', admin_step ch w = Some w' -> ch = WriteInterrupted \/ ch = WriteFails \/ exists n, ch = Writes n.
Proof.
  intros Hpc Hm. unfold stop_step, admin_step. rewrite Hpc, Hm. split; [done|].
  intros [] w'; try done; [right; right; by eexists|by left|by right; left].
Qed.

(** Steps, given as what happens: an answer to the admin thread, or a step of [stop]. *)
Fixpoint run_steps (l : list (choice + unit)) (w : AdminWorld) : option AdminWorld :=
  match l with
  | [] => Some w
  | inl ch :: l => w ← admin_step ch w; run_steps l w
  | inr _ :: l => w ← stop_step w; run_steps l w
  end.

Lemma admin_run_rtc l w w' : run_steps l w = Some w' -> rtc step w w'.
Proof.
  revert w. induction l as [|[ch|[]] l IH]; intros w; cbn [run_steps]; [by intros [= <-]| |].
  - destruct (admin_step ch w) as [w1|] eqn:H1; [|done]. cbn. intros Hr. eapply rtc_l; [by eapply step_admin|by apply IH].
  - destruct (stop_step w) as [w1|] eqn:H1; [|done]. cbn. intros Hr. eapply rtc_l; [by eapply step_stop|by apply IH].
Qed.
End Threads.

(** ** Runs *)

Section Runs.
#[local] Instance runs_port : SupervisorPort World := supervisor_port demo_os plain_stamp (fun _ => true).

Abbreviation all_readings := (fun _ : nat => demo_readings).

(** A client that says [exit], read in two pieces; a write of which is cut; then [stop]. *)
Definition sample_run : list (choice + unit) :=
  [inl Go; inl (PollReturns true); inl Accepts; inl (Writes 20); inl WriteInterrupted; inl (Writes 27); inl (Writes 32);
   inl Go; inl (PollReturns true); inl (Reads (lit "ex")); inl Go; inl Go; inl (PollReturns true);
   inl (Reads (lit "it" ++ [ch_nl])); inl Go; inr tt; inl (Writes 26); inl Go; inr tt; inl Go; inr tt; inr tt].

Example sample_run_ex :
  (fun w => (p_sent <$> sessions w, apc w, mpc w)) <$> run_steps all_readings sample_run (started demo_control) =
  Some ([concat greeting ++ lit "[2026-08-18 01:02:00]" ++ [ch_nl] ++ lit "bye" ++ [ch_nl]], Ended, ListenClosed).
Proof. vm_compute. reflexivity. Qed.

Example admin_sessions_witness :
  exists w, rtc (step all_readings) (started demo_control) w /\ (length (sessions w) = 1)%nat /\
    exists c0, history all_readings demo_control (sessions w) c0 /\
      match apc w with RunCheck | RunPoll | RunAccept | Ended => ctl w = c0 | _ => True end.
Proof.
  destruct (run_steps all_readings sample_run (started demo_control)) as [w|] eqn:Hr; [|vm_compute in Hr; discriminate].
  pose proof (admin_run_rtc all_readings _ _ _ Hr) as Hs.
  exists w. split; [exact Hs|]. split; [vm_compute in Hr; by injection Hr as <-|].
  exact (admin_sessions all_readings demo_control w Hs).
Defined.

Example admin_stop_witness :
  exists w, log_ok (log demo_control) /\ rtc (step all_readings) (started demo_control) w /\ apc w = Ended /\
    ~ uses_closed w /\
    (rung w = true -> Acc (progress all_readings) w) /\
    (apc w <> Ended -> (exists p more next, apc w = ClientWrite p more next) \/ exists w', progress all_readings w' w) /\
    (apc w = Ended -> exists w', rtc (fun a b => stop_step a = Some b) w w' /\ mpc w' = Stopped).
Proof.
  assert (log_ok (log demo_control)) as Hl by (by left).
  destruct (run_steps all_readings sample_run (started demo_control)) as [w|] eqn:Hr; [|vm_compute in Hr; discriminate].
  pose proof (admin_run_rtc all_readings _ _ _ Hr) as Hs.
  exists w. split; [exact Hl|]. split; [exact Hs|]. split; [vm_compute in Hr; by injection Hr as <-|].
  exact (admin_stop all_readings demo_control w Hl Hs).
Defined.

(** [stop] has rung, and the greeting is not read. *)
Example stop_waits_ex :
  exists w, rtc (step all_readings) (started demo_control) w /\ stop_step w = None /\ rung w = true /\ apc w <> Ended.
Proof.
  destruct (run_steps all_readings [inl Go; inl (PollReturns true); inl Accepts; inr tt; inr tt] (started demo_control))
    as [w|] eqn:Hr; [|vm_compute in Hr; discriminate].
  exists w. split; [by eapply admin_run_rtc|]. vm_compute in Hr. by injection Hr as <-.
Qed.

(** The mode of the socket is not part of what [start] insists on. *)
Example chmod_ignored_ex :
  (@start (demo_kernel (fun i => if decide (i = 3%nat) then Some 1 else None)) (new_server (lit "/tmp/castle.sock")) no_calls).1.1
    = true /\
  (@start (demo_kernel (fun i => if decide (i = 4%nat) then Some 98 else None)) (new_server (lit "/tmp/castle.sock")) no_calls).1.1
    = false.
Proof. by vm_compute. Qed.
End Runs.
