(* ===== verification/Watch.v ===== *)
(** * Watch: the thread of the internet watch

    Models the rest of [ConnectivityMonitor] (src/src/net/connectivity.{h,cpp}): the probe of
    the targets, [start], [stop], and the loop of [run] with its wait on a condition
    variable. A round of the loop is [Connectivity.monitor_round]; [watch_step] is one action
    of the watch thread, [stop_step] one of the thread in [stop]. *)
From stdpp Require Import relations.
From S2P Require Import Prelude Text Control Connectivity Kernel Sockets.
Open Scope Z_scope.

(** ** Probing *)

Definition kProbeTargets : list (bytes * Z) := [(lit "1.1.1.1", 443); (lit "8.8.8.8", 443)].
Definition kProbeTimeoutMs : Z := 2000.

Section Probe.
Context `{Os}.

(** The loop of [internet_reachable]. *)
Fixpoint probe_targets (timeout_ms : Z) (targets : list (bytes * Z)) : M Kernel bool :=
  match targets with
  | [] => mret false
  | (host, port) :: targets =>
      let! up := tcp_probe host port timeout_ms in
      if up then mret true else probe_targets timeout_ms targets
  end.

Lemma wp_probe_targets timeout_ms targets F T N k :
  holds F T N k ->
  wp (probe_targets timeout_ms targets)
     (fun up k' => holds F T N k' /\
        (up = true -> exists host port before evs after,
           (host, port) ∈ targets /\ connected host port timeout_ms evs /\ calls k' = before ++ evs ++ after)) k.
Proof.
  revert k. induction targets as [|[host port] targets IH]; intros k Hk; cbn [probe_targets]; [by apply sys_wp_ret|].
  apply wp_let. eapply sys_wp_mono; [by apply (wp_tcp_probe host port timeout_ms F T N)|].
  intros up k1 (Hk1 & evs & Hc & Hup). destruct up.
  - apply sys_wp_ret. split; [done|]. intros _. exists host, port, (calls k), evs, []. rewrite app_nil_r.
    split_and!; [by left|by apply Hup|done].
  - eapply sys_wp_mono; [by apply IH|]. intros up k2 [Hk2 Hw]. split; [done|]. intros Hu.
    destruct (Hw Hu) as (h & p & b & e & a & ? & ? & ?). exists h, p, b, e, a. split_and!; [by right|done|done].
Qed.

(** [start] and [stop]; [joinable] is whether the thread was made. *)
Definition start (joinable : bool) : M Kernel bool := call (Start_thread NetWatch) ;; mret true.
Definition stop (joinable : bool) : M Kernel bool :=
  when joinable (call (Join_thread NetWatch) ;; mret tt) ;; mret false.
End Probe.

(** ** The two threads *)

(** Where the watch thread is: in a round; about to lock [m_]; holding it before the
    predicate is looked at, [timed_out] when the wait ran out; waiting; woken, and about to
    lock again. *)
Inductive watch_pc := Round | Locking | Holding (timed_out : bool) | Waiting | Woken (timed_out : bool) | Over.
Inductive stopper_pc := Idle | Locked | Set_ | Unlocked | Notified | Joined.
Inductive holder := Watcher | Stopper.

Record WatchWorld := mk_world {
  wpc : watch_pc; spc : stopper_pc;
  m_ : option holder;
  stop_ : bool;
  seen : Monitor; rounds : nat
}.
#[export] Instance eta_WatchWorld : Eta WatchWorld := fun w =>
  mk_world (wpc w) (spc w) (m_ w) (stop_ w) (seen w) (rounds w).

(** Before [stop] is called. *)
Definition started : WatchWorld := mk_world Round Idle None false new_monitor 0.

Section Threads.
Context (probes : nat -> list bool * Z).      (* what each round finds *)

(** [wakes]: why a wait ends, other than by [notify_all]: it ran out ([true]) or spuriously. *)
Definition watch_step (wakes : bool) (w : WatchWorld) : option WatchWorld :=
  match wpc w with
  | Round => Some (((w <| seen ::= monitor_round (probes (rounds w)) |>) <| rounds ::= S |>) <| wpc := Locking |>)
  | Locking => match m_ w with None => Some ((w <| m_ := Some Watcher |>) <| wpc := Holding false |>) | _ => None end
  | Holding timed_out =>
      (* while (!pred) wait; on a timeout, pred decides *)
      Some (if stop_ w then (w <| m_ := None |>) <| wpc := Over |>
            else if timed_out then (w <| m_ := None |>) <| wpc := Round |>
            else (w <| m_ := None |>) <| wpc := Waiting |>)
  | Waiting => Some (w <| wpc := Woken wakes |>)
  | Woken t => match m_ w with None => Some ((w <| m_ := Some Watcher |>) <| wpc := Holding t |>) | _ => None end
  | Over => None
  end.

Definition stop_step (w : WatchWorld) : option WatchWorld :=
  match spc w with
  | Idle => match m_ w with None => Some ((w <| m_ := Some Stopper |>) <| spc := Locked |>) | _ => None end
  | Locked => Some ((w <| stop_ := true |>) <| spc := Set_ |>)
  | Set_ => Some ((w <| m_ := None |>) <| spc := Unlocked |>)
  | Unlocked => Some ((w <| wpc ::= fun pc => match pc with Waiting => Woken false | pc => pc end |>) <| spc := Notified |>)
  | Notified => match wpc w with Over => Some (w <| spc := Joined |>) | _ => None end
  | Joined => None
  end.

Inductive step : WatchWorld -> WatchWorld -> Prop :=
  | step_watch wakes w w' : watch_step wakes w = Some w' -> step w w'
  | step_stop w w' : stop_step w = Some w' -> step w w'.

(** ** Invariant *)

(** What has been found after [n] rounds. *)
Definition seen_after (n : nat) : Monitor := monitor (probes <$> seq 0 n).
#[local] Arguments seen_after : simpl never.

Definition inside (pc : watch_pc) : bool := match pc with Holding _ => true | _ => false end.
Definition locked (pc : stopper_pc) : bool := match pc with Locked | Set_ => true | _ => false end.
Definition notified (pc : stopper_pc) : bool := match pc with Notified | Joined => true | _ => false end.

(** The mutex is held by who is inside; once the flag is set and the notification was made,
    nobody waits for it. *)
Record watch_inv (w : WatchWorld) : Prop := {
  inv_mutex : m_ w = if inside (wpc w) then Some Watcher else if locked (spc w) then Some Stopper else None;
  inv_excl : inside (wpc w) && locked (spc w) = false;
  inv_flag : stop_ w = match spc w with Idle | Locked => false | _ => true end;
  inv_woken : notified (spc w) = true -> wpc w <> Waiting;
  inv_joined : spc w = Joined -> wpc w = Over;
  inv_over : wpc w = Over -> stop_ w = true;
  inv_seen : seen w = seen_after (rounds w)
}.

Lemma seen_after_S n : seen_after (S n) = monitor_round (probes n) (seen_after n).
Proof. unfold seen_after, monitor. by rewrite seq_S, fmap_app, foldl_app. Qed.

Lemma watch_started_inv : watch_inv started.
Proof. by split. Qed.

Lemma watch_step_inv wakes w w' : watch_inv w -> watch_step wakes w = Some w' -> watch_inv w'.
Proof.
  intros [Hmu Hx Hf Hn Hj Ho Hm] Hst. unfold watch_step in Hst.
  destruct w as [wp sp mu st se ro]. cbn in *. subst mu st.
  destruct wp as [| |t| |t|], sp; cbn in *; try discriminate; try destruct t; injection Hst as <-; split; cbn; try done;
    first [by rewrite seen_after_S, Hm | by intros; exfalso; auto | by intros; destruct Hn; auto | by intros; specialize (Hj eq_refl)].
Qed.

Lemma stop_step_inv w w' : watch_inv w -> stop_step w = Some w' -> watch_inv w'.
Proof.
  intros [Hmu Hx Hf Hn Hj Ho Hm] Hst. unfold stop_step in Hst.
  destruct w as [wp sp mu st se ro]. cbn in *. subst mu st.
  destruct sp, wp; cbn in *; try discriminate; injection Hst as <-; split; cbn; try done.
Qed.

Lemma watch_reachable_inv w : rtc step started w -> watch_inv w.
Proof.
  intros Hs. pose proof watch_started_inv as Hi. revert Hi. generalize started, Hs. clear.
  intros w0 Hs. induction Hs as [|w1 w2 w3 H12 _ IH]; [done|]. intros Hi. apply IH. destruct H12.
  - by eapply watch_step_inv.
  - by eapply stop_step_inv.
Qed.

(** How much the watch thread has left to do once the flag is set. *)
Definition remaining (pc : watch_pc) : nat :=
  match pc with Over => 0 | Holding _ => 1 | Locking | Woken _ => 2 | Round | Waiting => 3 end.

(** ** Properties *)

(** C34: [stop] ends the internet watch without waiting for its interval: whatever the
    interleaving, no wake-up is lost; once the flag is set the thread has at most three
    actions left, one of the two threads can always go on without a timeout, and what was
    published is what the rounds found. *)
Theorem watch_stops w :
  rtc step started w ->
  seen w = monitor (probes <$> seq 0 (rounds w)) /\
  (spc w = Joined -> wpc w = Over) /\
  (stop_ w = true -> spc w <> Joined ->
   (exists w', stop_step w = Some w') \/ (wpc w <> Waiting /\ exists w', watch_step false w = Some w')) /\
  (stop_ w = true -> (remaining (wpc w) <= 3)%nat /\
   forall wakes w', watch_step wakes w = Some w' -> (remaining (wpc w') < remaining (wpc w))%nat).
Proof.
  intros Hs. pose proof (watch_reachable_inv w Hs) as [Hmu Hx Hf Hn Hj Ho Hm]. split_and!; [done|done| |].
  - intros Hst Hnj. unfold stop_step, watch_step. rewrite Hmu. rewrite Hf in Hst.
    destruct (spc w) eqn:Hpc; try done; try (left; by eexists). destruct (wpc w) eqn:Hwp; cbn in *; try (by left; eexists);
      try (right; split; [done|by eexists]). by destruct (Hn eq_refl).
  - intros Hst. split; [destruct (wpc w); cbn; lia|]. intros wakes w'. unfold watch_step. rewrite Hst.
    destruct (wpc w); try (destruct (m_ w)); try done; intros [= <-]; cbn; lia.
Qed.

Fixpoint run_steps (l : list (option bool)) (w : WatchWorld) : option WatchWorld :=
  match l with
  | [] => Some w
  | Some wakes :: l => w ← watch_step wakes w; run_steps l w
  | None :: l => w ← stop_step w; run_steps l w
  end.

Lemma watch_run_rtc l w w' : run_steps l w = Some w' -> rtc step w w'.
Proof.
  revert w. induction l as [|[wakes|] l IH]; intros w; cbn [run_steps]; [by intros [= <-]| |].
  - destruct (watch_step wakes w) as [w1|] eqn:H1; [|done]. cbn. intros Hr. eapply rtc_l; [by eapply step_watch|by apply IH].
  - destruct (stop_step w) as [w1|] eqn:H1; [|done]. cbn. intros Hr. eapply rtc_l; [by eapply step_stop|by apply IH].
Qed.
End Threads.

(** ** A run: an outage is seen, and the watch is stopped while it waits. *)

Definition sample_probes (n : nat) : list bool * Z :=
  match n with O => ([true], 0) | S O => ([false; false], 30) | _ => ([true], 60) end.
Definition sample_run : list (option bool) :=
  [Some false; Some false; Some false; Some true; Some false; Some false; Some false; Some false; Some false;
   None; None; None; None; Some false; Some false; None].

Example watch_stops_witness :
  exists w, rtc (step sample_probes) started w /\ notes (seen w) = [Lost] /\ spc w = Joined /\
    seen w = monitor (sample_probes <$> seq 0 (rounds w)) /\
    (spc w = Joined -> wpc w = Over) /\
    (stop_ w = true -> spc w <> Joined ->
     (exists w', stop_step w = Some w') \/ (wpc w <> Waiting /\ exists w', watch_step sample_probes false w = Some w')) /\
    (stop_ w = true -> (remaining (wpc w) <= 3)%nat /\
     forall wakes w', watch_step sample_probes wakes w = Some w' -> (remaining (wpc w') < remaining (wpc w))%nat).
Proof.
  destruct (run_steps sample_probes sample_run started) as [w|] eqn:Hr; [|vm_compute in Hr; discriminate].
  pose proof (watch_run_rtc sample_probes _ _ _ Hr) as Hs. exists w. split; [exact Hs|].
  split; [vm_compute in Hr; by injection Hr as <-|]. split; [vm_compute in Hr; by injection Hr as <-|].
  exact (watch_stops sample_probes w Hs).
Defined.

Example probe_ex :
  (@probe_targets (demo_kernel (refused_at 1 111)) kProbeTimeoutMs kProbeTargets no_calls).1 = true /\
  (@probe_targets (demo_kernel (refused_at 1 115)) kProbeTimeoutMs kProbeTargets no_calls).1 = true /\
  (@probe_targets (demo_kernel (fun _ => Some 24)) kProbeTimeoutMs kProbeTargets no_calls).1 = false.
Proof. by vm_compute. Qed.
