(* ===== verification/Startup.v ===== *)
(** * Startup: event loops and the supervisor's descriptors

    Models the construction and destruction of [EventLoop] and [enable_idle_timeouts]
    (src/src/net/event_loop.cpp), [FdWatcher] as far as it owns a descriptor
    (src/src/net/fd_watcher.h), and the set-up and teardown of [Supervisor::start] and
    [stop] (src/src/supervisor/supervisor.cpp), as programs of [Kernel]. What the loops do
    once they run is [Loop.v], and what the supervisor does is [Supervisor.v]. *)
From S2P Require Import Prelude Kernel Sockets.
Open Scope Z_scope.

(** ** Event loops *)

(** An [EventLoop] by its descriptors; [owned] are those of the handlers in [handlers_]. *)
Record EventLoop := mk_loop { epoll_fd_ : Z; wake_fd_ : Z; timeout_fd_ : Z; owned : list Z }.
#[export] Instance eta_EventLoop : Eta EventLoop := fun l => mk_loop (epoll_fd_ l) (wake_fd_ l) (timeout_fd_ l) (owned l).

Definition valid (fd : Z) : list Z := if 0 <=? fd then [fd] else [].

(** Everything a loop has open. *)
Definition fds_of (l : EventLoop) : list Z := valid (wake_fd_ l) ++ valid (epoll_fd_ l) ++ owned l.

Definition EPOLLIN : Z := 1.
Definition EPOLLOUT : Z := 4.
Definition EPOLLET : Z := 2147483648.

Section Startup.
Context `{Os}.

Definition close_if (fd : Z) : M Kernel unit := when (0 <=? fd) (call (Close fd) ;; mret tt).

(** The constructor: a failure is logged, and the loop is left without the descriptor. *)
Definition new_loop : M Kernel EventLoop :=
  let! ep := call Epoll_create in
  if ep <? 0 then mret (mk_loop (-1) (-1) (-1) [])
  else
    let! wake := call Eventfd in
    if wake <? 0 then mret (mk_loop ep (-1) (-1) [])
    else
      let! _ := call (Epoll_add ep wake EPOLLIN) in
      mret (mk_loop ep wake (-1) []).

(** The destructor; the handlers go with [handlers_], and close what they own. *)
Definition destroy_loop (l : EventLoop) : M Kernel unit :=
  close_if (wake_fd_ l) ;;
  close_if (epoll_fd_ l) ;;
  for_each (owned l) (fun fd => call (Close fd) ;; mret tt).

(** [add] of a handler that owns [fd]: when epoll refuses it, the handler is destroyed. *)
Definition add (fd events : Z) (l : EventLoop) : M Kernel EventLoop :=
  let! r := call (Epoll_add (epoll_fd_ l) fd events) in
  if r <? 0 then call (Close fd) ;; mret l else mret (l <| owned ::= cons fd |>).

Definition enable_idle_timeouts (sweep_interval_ms : Z) (l : EventLoop) : M Kernel EventLoop :=
  let! fd := call Timerfd_create in
  if fd <? 0 then mret (l <| timeout_fd_ := -1 |>)
  else
    let! r := call (Timerfd_settime fd (sweep_interval_ms `quot` 1000) (sweep_interval_ms `rem` 1000 * 1000000)) in
    if r <? 0 then call (Close fd) ;; mret (l <| timeout_fd_ := -1 |>)
    else add fd EPOLLIN (l <| timeout_fd_ := fd |>).

(** What the handlers do with descriptors while the loop runs. [Listener::on_readable], for
    one client of [lfd]: [admitted] when neither the limiter, the cap nor the factory turned
    it away. *)
Definition accept_client (lfd : Z) (admitted : bool) (l : EventLoop) : M Kernel EventLoop :=
  let! cfd := call (Accept lfd) in
  if cfd <? 0 then mret l
  else if admitted then add cfd (Z.lor EPOLLIN EPOLLET) l
  else call (Close cfd) ;; mret l.

(** [HttpConnection::start_backend]. *)
Definition start_backend (host : bytes) (port : Z) (l : EventLoop) : M Kernel EventLoop :=
  let! fd := call (Socket AF_INET) in
  if fd <? 0 then mret l
  else
    match inet_pton host with
    | None => call (Close fd) ;; mret l
    | Some addr =>
        let! r := call (Connect fd (Inet addr port)) in
        if (r <? 0) && negb (r =? - EINPROGRESS) then call (Close fd) ;; mret l
        else add fd (Z.lor EPOLLOUT EPOLLET) l
    end.

(** [process_pending_close], for the handler of [fd]. *)
Definition close_handler (fd : Z) (l : EventLoop) : M Kernel EventLoop :=
  if decide (fd ∈ owned l) then
    let! _ := call (Epoll_del (epoll_fd_ l) fd) in
    let! _ := call (Close fd) in
    mret (l <| owned ::= filter (fun x => x <> fd) |>)
  else mret l.

(** [stop]: the doorbell, from another thread. *)
Definition stop_loop (l : EventLoop) : M Kernel unit := call (Write (wake_fd_ l)) ;; mret tt.

(** ** The supervisor *)

Definition kTickMs : Z := 1000.

(** The supervisor's own loop, and whether its thread runs. *)
Record SupervisorFds := mk_supervisor { loop_ : EventLoop; joinable : bool }.

(** The constructor, then [start]; [launch] is the loop that spawns the services, which opens
    nothing in this process. *)
Definition new_supervisor : M Kernel SupervisorFds := let! l := new_loop in mret (mk_supervisor l false).

Definition start_supervisor (s : SupervisorFds) : M Kernel (bool * SupervisorFds) :=
  let! sfd := call Signalfd in
  if sfd <? 0 then mret (false, s)
  else
    let! tfd := call Timerfd_create in
    if tfd <? 0 then call (Close sfd) ;; mret (false, s)
    else
      let! r := call (Timerfd_settime tfd (kTickMs `quot` 1000) (kTickMs `rem` 1000 * 1000000)) in
      if r <? 0 then call (Close sfd) ;; call (Close tfd) ;; mret (false, s)
      else
        let! l := add sfd EPOLLIN (loop_ s) in
        let! l := add tfd EPOLLIN l in
        let! _ := call (Start_thread SupervisorThread) in
        mret (true, mk_supervisor l true).

(** [stop]: [begin_shutdown] is posted; the join returns when the loop has ended
    ([Supervisor.shutdown_drains]). *)
Definition stop_supervisor (s : SupervisorFds) : M Kernel SupervisorFds :=
  if joinable s then
    stop_loop (loop_ s) ;;
    call (Join_thread SupervisorThread) ;;
    mret (mk_supervisor (loop_ s) false)
  else mret s.

Definition destroy_supervisor (s : SupervisorFds) : M Kernel unit :=
  let! s := stop_supervisor s in destroy_loop (loop_ s).

(** ** What they hold *)

Lemma valid_open fd : 0 <= fd -> valid fd = [fd].
Proof. intros Hp. unfold valid. by rewrite (proj2 (Z.leb_le 0 fd)). Qed.

Lemma wp_close_if fd L F T N (Q : unit -> Kernel -> Prop) k :
  owns (valid fd ++ L) F T N k -> (forall k', owns L F T N k' -> Q tt k') -> wp (close_if fd) Q k.
Proof.
  intros Hk HQ. unfold close_if, valid in *. destruct (0 <=? fd); cbn [when].
  - apply sys_wp_bind. eapply wp_owns_close; [exact Hk|]. intros r k' Hk'. by apply sys_wp_ret, HQ.
  - apply sys_wp_ret. by apply HQ.
Qed.

Lemma wp_close_all fds L F T N (Q : unit -> Kernel -> Prop) k :
  owns (fds ++ L) F T N k -> (forall k', owns L F T N k' -> Q tt k') ->
  wp (for_each fds (fun fd => call (Close fd) ;; mret tt)) Q k.
Proof.
  revert k. induction fds as [|fd fds IH]; intros k Hk HQ; cbn [for_each]; [by apply sys_wp_ret, HQ|].
  do 2 apply sys_wp_bind. eapply wp_owns_close; [exact Hk|]. intros r k' Hk'. apply sys_wp_ret. by apply IH.
Qed.

Lemma wp_destroy_loop l L F T N (Q : unit -> Kernel -> Prop) k :
  owns (fds_of l ++ L) F T N k -> (forall k', owns L F T N k' -> Q tt k') -> wp (destroy_loop l) Q k.
Proof.
  unfold fds_of. rewrite <- !(assoc_L app). intros Hk HQ. apply sys_wp_bind.
  eapply wp_close_if; [exact Hk|]. intros k1 Hk1. apply sys_wp_bind. eapply wp_close_if; [exact Hk1|]. intros k2 Hk2.
  by eapply wp_close_all.
Qed.

Lemma wp_new_loop L F T N (Q : EventLoop -> Kernel -> Prop) k :
  owns L F T N k -> (forall l k', owned l = [] -> owns (fds_of l ++ L) F T N k' -> Q l k') -> wp new_loop Q k.
Proof.
  intros Hk HQ. unfold new_loop. apply wp_let. eapply wp_owns_open; [exact Hk|done..| |]; intros ep k1 Hep Hk1.
  2: { destruct (Z.ltb_spec ep 0); [|lia]. by apply sys_wp_ret, HQ. }
  destruct (Z.ltb_spec ep 0); [lia|]. apply wp_let. eapply wp_owns_open; [exact Hk1|done..| |]; intros wk k2 Hwk Hk2.
  2: { destruct (Z.ltb_spec wk 0); [|lia]. apply sys_wp_ret, HQ; [done|]. unfold fds_of. cbn [wake_fd_ epoll_fd_ owned].
       by rewrite (valid_open ep). }
  destruct (Z.ltb_spec wk 0); [lia|]. apply wp_let. eapply wp_owns_use; [exact Hk2|cbn; set_solver|done..|].
  intros r k3 Hk3. apply sys_wp_ret, HQ; [done|]. unfold fds_of. cbn [wake_fd_ epoll_fd_ owned].
  by rewrite !valid_open.
Qed.

Lemma owned_cons fd l L : fd :: fds_of l ++ L ≡ₚ fds_of (l <| owned ::= cons fd |>) ++ L.
Proof.
  unfold fds_of. cbn [wake_fd_ epoll_fd_ owned set_field]. rewrite <- !(assoc_L app). cbn [app].
  by rewrite Permutation_middle, Permutation_middle.
Qed.

Lemma wp_add fd events l L F T N (Q : EventLoop -> Kernel -> Prop) k :
  owns (fd :: fds_of l ++ L) F T N k ->
  (forall l' k', owns (fds_of l' ++ L) F T N k' -> Q l' k') -> wp (add fd events l) Q k.
Proof.
  intros Hk HQ. unfold add. apply wp_let. eapply wp_owns_use; [exact Hk| |done..|].
  { intros x [->|[->|[]%not_elem_of_nil]%elem_of_cons]%elem_of_cons Hx; [|by left]. right. apply elem_of_app. left.
    unfold fds_of. rewrite (valid_open (epoll_fd_ l)) by done. set_solver. }
  intros r k1 Hk1. cbn [names_after] in Hk1. destruct (r <? 0).
  - apply sys_wp_bind. eapply wp_owns_close; [exact Hk1|]. intros r2 k2 Hk2. by apply sys_wp_ret, HQ.
  - apply sys_wp_ret, HQ. eapply owns_perm; [apply owned_cons|done].
Qed.

Lemma wp_enable_idle_timeouts ms l L F T N (Q : EventLoop -> Kernel -> Prop) k :
  owns (fds_of l ++ L) F T N k ->
  (forall l' k', owns (fds_of l' ++ L) F T N k' -> Q l' k') -> wp (enable_idle_timeouts ms l) Q k.
Proof.
  intros Hk HQ. unfold enable_idle_timeouts.
  apply wp_let. eapply wp_owns_open; [exact Hk|done..| |]; intros fd k1 Hfd Hk1.
  2: { destruct (Z.ltb_spec fd 0); [|lia]. by apply sys_wp_ret, HQ. }
  destruct (Z.ltb_spec fd 0); [lia|]. apply wp_let. eapply wp_owns_use; [exact Hk1|cbn; set_solver|done..|].
  intros r k2 Hk2. cbn [names_after] in Hk2. destruct (r <? 0).
  - apply sys_wp_bind. eapply wp_owns_close; [exact Hk2|]. intros r2 k3 Hk3. by apply sys_wp_ret, HQ.
  - by eapply wp_add.
Qed.

Lemma wp_accept_client lfd admitted l L F T N (Q : EventLoop -> Kernel -> Prop) k :
  lfd ∈ owned l -> owns (fds_of l ++ L) F T N k ->
  (forall l' k', owns (fds_of l' ++ L) F T N k' -> Q l' k') -> wp (accept_client lfd admitted l) Q k.
Proof.
  intros Hl Hk HQ. unfold accept_client. apply wp_let. eapply wp_owns_open; [exact Hk|done| |done..| |]; [|intros c k1 Hc Hk1..].
  - unfold misused. cbn. rewrite bool_decide_eq_true_2; [by rewrite orb_true_r|].
    destruct Hk as ([-> _ _ _] & _). rewrite elem_of_union, elem_of_list_to_set. left. unfold fds_of. set_solver.
  - destruct (Z.ltb_spec c 0); [lia|]. destruct admitted; [by eapply wp_add|].
    apply sys_wp_bind. eapply wp_owns_close; [exact Hk1|]. intros r k2 Hk2. by apply sys_wp_ret, HQ.
  - destruct (Z.ltb_spec c 0); [|lia]. by apply sys_wp_ret, HQ.
Qed.

Lemma wp_backend_socket host port l L F T N (Q : EventLoop -> Kernel -> Prop) k :
  owns (fds_of l ++ L) F T N k ->
  (forall l' k', owns (fds_of l' ++ L) F T N k' -> Q l' k') -> wp (start_backend host port l) Q k.
Proof.
  intros Hk HQ. unfold start_backend. apply wp_let. eapply wp_owns_open; [exact Hk|done..| |]; intros fd k1 Hfd Hk1.
  2: { destruct (Z.ltb_spec fd 0); [|lia]. by apply sys_wp_ret, HQ. }
  destruct (Z.ltb_spec fd 0); [lia|].
  assert (forall k2, owns (fd :: fds_of l ++ L) F T N k2 -> wp (call (Close fd) ;; mret l) Q k2) as Hclose.
  { intros k2 Hk2. apply sys_wp_bind. eapply wp_owns_close; [exact Hk2|]. intros r k3 Hk3. by apply sys_wp_ret, HQ. }
  destruct (inet_pton host) as [addr|]; [|by apply Hclose].
  apply wp_let. eapply wp_owns_use; [exact Hk1|cbn; set_solver|done..|]. intros r k2 Hk2. cbn [names_after] in Hk2.
  destruct (_ && _); [by apply Hclose|by eapply wp_add].
Qed.

Lemma filter_ne_perm (fd : Z) l : NoDup l -> fd ∈ l -> l ≡ₚ fd :: filter (fun x => x <> fd) l.
Proof.
  intros Hn Hin. apply NoDup_Permutation; [done| |].
  - constructor; [|by apply NoDup_filter]. intros [? _]%list_elem_of_filter. done.
  - intros x. rewrite elem_of_cons, list_elem_of_filter. destruct (decide (x = fd)) as [->|]; naive_solver.
Qed.

Lemma wp_close_handler fd l L F T N (Q : EventLoop -> Kernel -> Prop) k :
  owns (fds_of l ++ L) F T N k ->
  (forall l' k', owns (fds_of l' ++ L) F T N k' -> Q l' k') -> wp (close_handler fd l) Q k.
Proof.
  intros Hk HQ. unfold close_handler. case_decide as Hin; [|by apply sys_wp_ret, HQ].
  apply wp_let. eapply wp_owns_use; [exact Hk| |done..|].
  { intros x [->|[->|[]%not_elem_of_nil]%elem_of_cons]%elem_of_cons Hx; apply elem_of_app; left; unfold fds_of.
    - rewrite (valid_open (epoll_fd_ l)) by done. set_solver.
    - set_solver. }
  intros r k1 Hk1. cbn [names_after] in Hk1. apply wp_let.
  set (l' := l <| owned ::= filter (fun x => x <> fd) |>).
  assert (fds_of l ++ L ≡ₚ fd :: fds_of l' ++ L) as Hp.
  { assert (NoDup (owned l)) as Hn.
    { destruct Hk as (_ & Hn & _). apply NoDup_app in Hn as (Hn & _). unfold fds_of in Hn.
      apply NoDup_app in Hn as (_ & _ & Hn). by apply NoDup_app in Hn as (_ & _ & Hn). }
    rewrite owned_cons. apply Permutation_app_tail. unfold fds_of, l'. cbn [wake_fd_ epoll_fd_ owned set_field].
    do 2 apply Permutation_app_head. by apply filter_ne_perm. }
  eapply wp_owns_close; [eapply owns_perm; [exact Hp|exact Hk1]|]. intros r2 k2 Hk2. by apply sys_wp_ret, HQ.
Qed.

(** The descriptors a supervisor has open, and its thread. *)
Definition sup_fds (s : SupervisorFds) : list Z := fds_of (loop_ s).
Definition sup_threads (s : SupervisorFds) : gset thread := if joinable s then {[SupervisorThread]} else ∅.

Lemma wp_start_supervisor s L F T N (Q : bool * SupervisorFds -> Kernel -> Prop) k :
  joinable s = false -> SupervisorThread ∉ T -> owns (sup_fds s ++ L) F T N k ->
  (forall s' k', joinable s' = true -> owns (sup_fds s' ++ L) F ({[SupervisorThread]} ∪ T) N k' -> Q (true, s') k') ->
  (forall k', owns (sup_fds s ++ L) F T N k' -> Q (false, s) k') ->
  wp (start_supervisor s) Q k.
Proof.
  intros Hj HT Hk HQ Hfail. unfold start_supervisor.
  apply wp_let. eapply wp_owns_open; [exact Hk|done..| |]; intros sfd k1 Hs Hk1.
  2: { destruct (Z.ltb_spec sfd 0); [|lia]. by apply sys_wp_ret, Hfail. }
  destruct (Z.ltb_spec sfd 0); [lia|]. apply wp_let. eapply wp_owns_open; [exact Hk1|done..| |]; intros tfd k2 Ht Hk2.
  2: { destruct (Z.ltb_spec tfd 0); [|lia]. apply sys_wp_bind. eapply wp_owns_close; [exact Hk2|]. intros r k3 Hk3. by apply sys_wp_ret, Hfail. }
  destruct (Z.ltb_spec tfd 0); [lia|]. apply wp_let. eapply wp_owns_use; [exact Hk2|cbn; set_solver|done..|].
  intros r k3 Hk3. cbn [names_after] in Hk3. destruct (r <? 0).
  { apply sys_wp_bind. eapply wp_owns_close; [eapply owns_perm; [apply perm_swap|exact Hk3]|]. intros r2 k4 Hk4.
    apply sys_wp_bind. eapply wp_owns_close; [exact Hk4|]. intros r3 k5 Hk5. by apply sys_wp_ret, Hfail. }
  apply wp_let. eapply (wp_add _ _ _ (tfd :: L)).
  { eapply owns_perm; [|exact Hk3]. rewrite perm_swap. by rewrite <- Permutation_middle. }
  intros l1 k4 Hk4. apply wp_let. eapply (wp_add _ _ _ L); [eapply owns_perm; [|exact Hk4]; by rewrite Permutation_middle|].
  intros l2 k5 (Hh & Hn & Hd). apply wp_let. eapply wp_start_thread; [exact Hh|done|]. intros k6 Hk6.
  by apply sys_wp_ret, HQ.
Qed.

Lemma wp_stop_loop l L F T N (Q : unit -> Kernel -> Prop) k :
  owns (fds_of l ++ L) F T N k -> (forall k', owns (fds_of l ++ L) F T N k' -> Q tt k') -> wp (stop_loop l) Q k.
Proof.
  intros Hk HQ. unfold stop_loop. apply sys_wp_bind. eapply wp_owns_use; [exact Hk| |done..|].
  - intros x [->|[]%not_elem_of_nil]%elem_of_cons Hx. unfold fds_of. rewrite valid_open by done. by left.
  - intros r k1 Hk1. by apply sys_wp_ret, HQ.
Qed.

(** Once stopped, whether it was running or not: no thread. *)
Lemma wp_stop_supervisor s L F T N (Q : SupervisorFds -> Kernel -> Prop) k :
  SupervisorThread ∉ T -> owns (sup_fds s ++ L) F (sup_threads s ∪ T) N k ->
  (forall s' k', joinable s' = false -> sup_fds s' = sup_fds s -> owns (sup_fds s ++ L) F T N k' -> Q s' k') ->
  wp (stop_supervisor s) Q k.
Proof.
  intros HT Hk HQ. unfold stop_supervisor, sup_threads in *. destruct (joinable s) eqn:Hj.
  - apply sys_wp_bind. eapply wp_stop_loop; [exact Hk|]. intros k1 (Hh & Hn & Hd). apply sys_wp_bind.
    eapply wp_join; [exact Hh|set_solver|]. intros k2 Hk2. apply sys_wp_ret, HQ; [done..|].
    split_and!; [|done..]. eapply holds_eq; [exact Hk2|done|set_solver|done].
  - apply sys_wp_ret, HQ; [done..|]. destruct Hk as (Hh & Hn & Hd). split_and!; [|done..].
    eapply holds_eq; [exact Hh|done|set_solver|done].
Qed.

Lemma wp_destroy_supervisor s L F T N (Q : unit -> Kernel -> Prop) k :
  SupervisorThread ∉ T -> owns (sup_fds s ++ L) F (sup_threads s ∪ T) N k ->
  (forall k', owns L F T N k' -> Q tt k') -> wp (destroy_supervisor s) Q k.
Proof.
  intros HT Hk HQ. unfold destroy_supervisor. apply wp_let. eapply wp_stop_supervisor; [done|exact Hk|].
  intros s' k1 _ Hs Hk1. eapply wp_destroy_loop; [|exact HQ]. unfold sup_fds in Hs. by rewrite Hs.
Qed.
End Startup.

(** When epoll refuses the descriptor of SIGCHLD, the supervisor starts all the same: nothing
    will tell it that a child died. *)
Example deaf_supervisor_ex :
  (fun r => (r.1, owned (loop_ r.2)))
    ((let! s := @new_supervisor (demo_kernel (refused_at 6 12)) in @start_supervisor (demo_kernel (refused_at 6 12)) s) no_calls).1 =
  (true, [6]).
Proof. by vm_compute. Qed.
