(* ===== verification/Child.v ===== *)
(** * Child: from [fork] to the backend's program

    Models what a process is given across [execv], the signals castle ignores and blocks
    (src/src/main.cpp), and the child's side of [Supervisor::spawn]
    (src/src/supervisor/supervisor.cpp); the parent's side is [Supervisor.spawn]. Every call
    of [Kernel] that opens a descriptor asks for close-on-exec; [std::fstream]s, which are
    open for the length of a call, are not seen by [Kernel]. *)
From S2P Require Import Prelude Text ServiceConfig Supervisor Kernel.
Open Scope Z_scope.

Definition SIGHUP : Z := 1.
Definition SIGINT : Z := 2.
Definition SIGPIPE : Z := 13.
Definition SIGTERM : Z := 15.
Definition SIGCHLD : Z := 17.

(** A process: signals blocked and ignored, descriptors and whether each is closed on exec,
    working directory, program and arguments. *)
Record Image := mk_image {
  blocked : gset Z; ignored : gset Z; descriptors : gmap Z bool; cwd : bytes; program : bytes * list bytes
}.
#[export] Instance eta_Image : Eta Image := fun p =>
  mk_image (blocked p) (ignored p) (descriptors p) (cwd p) (program p).

(** [main]: [signal(SIGPIPE, SIG_IGN)] and [pthread_sigmask(SIG_BLOCK, ...)]. *)
Definition mask_signals (p : Image) : Image :=
  p <| ignored := {[SIGPIPE]} ∪ ignored p |> <| blocked := {[SIGINT; SIGTERM; SIGHUP; SIGCHLD]} ∪ blocked p |>.

(** The standard streams, and what castle has opened. *)
Definition standard : gset Z := {[0; 1; 2]}.
Definition opened_by (k : Kernel) : gmap Z bool := gset_to_gmap false standard ∪ gset_to_gmap true (opens k).

(** [execv] that succeeds: the mask and the ignored signals stay. *)
Definition exec_image (path : bytes) (argv : list bytes) (p : Image) : Image :=
  p <| descriptors := filter (fun '(_, cloexec) => cloexec = false) (descriptors p) |> <| program := (path, argv) |>.

Section Child.
(** [chdir]: the directory entered; [execv]: whether the file can be run. *)
Context (chdir : bytes -> bytes -> option bytes) (execv : bytes -> bytes -> bool).

Definition child (c : ServiceConfig) (p : Image) : Z + Image :=
  let argv := cfg_exec c :: cfg_args c in
  let p := p <| blocked := ∅ |> in
  p ← (if decide (cfg_workdir c = []) then inr p
       else match chdir (cwd p) (cfg_workdir c) with Some d => inr (p <| cwd := d |>) | None => inl 126 end);
  if execv (cwd p) (cfg_exec c) then inr (exec_image (cfg_exec c) argv p) else inl 127.

(** The backend starts with no signal blocked, the standard streams and no descriptor of
    castle; it inherits that [SIGPIPE] is ignored. Otherwise the child exits with 126 or 127. *)
Theorem child_spec c p k :
  descriptors p = opened_by k ->
  match child c (mask_signals p) with
  | inr q => blocked q = ∅ /\ descriptors q = gset_to_gmap false standard /\ ignored q = {[SIGPIPE]} ∪ ignored p /\
             program q = (cfg_exec c, cfg_exec c :: cfg_args c) /\ execv (cwd q) (cfg_exec c) = true /\
             (if decide (cfg_workdir c = []) then cwd q = cwd p else chdir (cwd p) (cfg_workdir c) = Some (cwd q))
  | inl code => (code = 126 /\ cfg_workdir c <> [] /\ chdir (cwd p) (cfg_workdir c) = None) \/
                (code = 127 /\ exists d, execv d (cfg_exec c) = false)
  end.
Proof.
  intros Hp. assert (filter (fun '(_, cloexec) => cloexec = false) (opened_by k) = gset_to_gmap false standard) as Hf.
  { apply map_eq. intros fd. apply option_eq. intros b. unfold opened_by.
    rewrite map_lookup_filter_Some, lookup_union_Some_raw, !lookup_gset_to_gmap_Some, lookup_gset_to_gmap_None. naive_solver. }
  unfold child, exec_image, mask_signals. destruct (decide _) as [Hw|Hw]; cbn [mbind sum_bind cwd].
  - cbn. destruct (execv _ _) eqn:He; cbn; [|right; eauto]. by rewrite Hp, Hf.
  - cbn. destruct (chdir _ _) as [d|] eqn:Hd; cbn; [|by left]. destruct (execv _ _) eqn:He; cbn; [|right; eauto].
    by rewrite Hp, Hf.
Qed.
End Child.

(** ** How the parent learns of it *)

(** The status [waitpid] gives for [_exit(code)]. *)
Definition exit_status (code : Z) : Z := Z.shiftl (Z.land code 255) 8.

(** The record of a child that exits names its exit code. *)
Theorem exit_reported os code : 0 <= code < 256 -> failure_reason os (exit_status code) = lit "exit " ++ to_string code.
Proof.
  intros Hc. unfold exit_status. change 255 with (Z.ones 8). rewrite Z.land_ones, Z.mod_small by (done || lia).
  assert (WIFEXITED (Z.shiftl code 8) = true) as Hx.
  { apply Z.eqb_eq. change 127 with (Z.ones 7). rewrite Z.land_ones, Z.shiftl_mul_pow2 by done.
    change (2 ^ 8) with (2 * 2 ^ 7). by rewrite Z.mul_assoc, Z_mod_mult. }
  assert (WEXITSTATUS (Z.shiftl code 8) = code) as He.
  { unfold WEXITSTATUS. rewrite Z.shiftr_shiftl_l by done. change 255 with (Z.ones 8). rewrite Z.land_ones by done. cbn. by apply Z.mod_small. }
  unfold failure_reason. rewrite Hx, He. apply take_ge. rewrite length_app.
  pose proof (to_string_length code 2) as L. change (10 ^ Z.of_nat 3) with 1000 in L. change (length (lit "exit ")) with 5%nat. lia.
Qed.

Example missing_program_ex os c p :
  cfg_workdir c = [] ->
  child (fun _ _ => None) (fun _ _ => false) c p = inl 127 /\ failure_reason os (exit_status 127) = lit "exit 127".
Proof. intros Hw. split; [unfold child; by rewrite Hw|]. by rewrite exit_reported. Qed.
