(* ===== verification/Process.v ===== *)
(** * Process: castle from its start to its exit

    [main] of src/src/main.cpp whole, over [Kernel]: the decisions are those of [Main.v], the
    parts are brought up and torn down by [Startup.v], [Sockets.v], [ControlServer.v] and
    [Watch.v], in the order of the code; local objects are destroyed in the reverse order of
    their declarations. What happens between the start of the threads and the signal that
    ends castle is a list of [happening]s, chosen by clients and backends: connections that
    are accepted, backends that are dialled, handlers that close, probes, admin sessions,
    messages for the log file and pulls from it. The log ([LogFiles.v]) keeps streams open in
    statics, which [process] destroys after [main].

    Left out, as they open nothing that outlives the call: the signal mask and the logo, the
    reads of the manifest, the routes and the certificates, [SIGHUP] ([Tls.v]), and the
    messages that a component logs about its own failure on the way up or down ([wp_log_msg]:
    an entry leaves nothing open). *)
From S2P Require Import Prelude Text ServiceConfig Router Main.
From S2P Require Import Kernel LogFiles Sockets ControlServer Watch Startup.
Open Scope Z_scope.

(** What the threads do with descriptors while castle serves. *)
Inductive happening :=
  | Client (loop : nat) (lfd : Z) (admitted : bool)       (* Listener::on_readable *)
  | Backend (loop : nat) (host : bytes) (port : Z)        (* HttpConnection::start_backend *)
  | Closing (loop : nat) (fd : Z)                         (* EventLoop::process_pending_close *)
  | Probe (host : bytes) (port timeout_ms : Z)            (* health page, internet watch *)
  | AdminSession                                          (* ControlServer::run *)
  | LogEntry                                              (* LOG_WARN, LOG_ERROR, LOG_CRITICAL *)
  | LogPull.                                              (* the command errors *)

Section Process.
Context `{Os} (env : Environment) (happens : Castle -> list happening).

(** The manifest, if there is one: [None] is the early return. *)
Definition manifest (opts : Options) : option (option (list ServiceConfig)) :=
  if decide (services_path opts = []) then Some None
  else
    let '(ok, configs, _) := parse_services_file (services_path opts) (read_file env (services_path opts)) [] [] in
    if ok : bool then Some (Some configs) else None.

(** [supervisor], reset when it does not start; [log] is [LOG_ERROR] or [LOG_WARN]. *)
Definition bring_up_supervisor (log : M Kernel unit) (configs : option (list ServiceConfig)) : M Kernel (option SupervisorFds) :=
  match configs with
  | None => mret None
  | Some _ =>
      let! s := new_supervisor in
      let! r := start_supervisor s in
      if r.1 : bool then mret (Some r.2) else log ;; destroy_supervisor r.2 ;; mret None
  end.
Definition drop_supervisor (sup : option SupervisorFds) : M Kernel unit :=
  match sup with Some s => destroy_supervisor s | None => mret tt end.

(** The loops, each with its listener. *)
Fixpoint open_loops (log : M Kernel unit) (opts : Options) (n : nat) (loops : list EventLoop) : M Kernel (bool * list EventLoop) :=
  match n with
  | O => mret (true, loops)
  | S n =>
      let! l := new_loop in
      let! lsock := make_reuseport_listener (bind_addr opts) (opt_port opts) 1024 [] in
      if lsock.1 <? 0 then log ;; destroy_loop l ;; mret (false, loops)
      else
        let! l := add lsock.1 (Z.lor EPOLLIN EPOLLET) l in
        let! l := if 0 <? timeout_sec opts then enable_idle_timeouts 1000 l else mret l in
        open_loops log opts n (loops ++ [l])
  end.

Definition start_worker (i : nat) : M Kernel unit := call (Start_thread (Worker i)).
Definition join_worker (i : nat) : M Kernel unit := call (Join_thread (Worker i)).

Definition bring_up_control (log : M Kernel unit) (path : bytes) : M Kernel (option ControlServer) :=
  if decide (path = []) then mret None
  else
    let! r := ControlServer.start (new_server path) in
    if r.1 : bool then mret (Some r.2) else log ;; ControlServer.stop r.2 ;; mret None.
Definition stop_control (control : option ControlServer) : M Kernel (option ControlServer) :=
  match control with Some c => let! c := ControlServer.stop c in mret (Some c) | None => mret None end.

Definition on_loop (i : nat) (f : EventLoop -> M Kernel EventLoop) (loops : list EventLoop) : M Kernel (list EventLoop) :=
  match loops !! i with
  | Some l => let! l := f l in mret (<[i := l]> loops)
  | None => mret loops
  end.

(** What the threads share with [main]: the loops, and the statics of the log. *)
Record Shared := mk_shared { loops_ : list EventLoop; log_ : LogFds }.
#[export] Instance eta_Shared : Eta Shared := fun s => mk_shared (loops_ s) (log_ s).

Definition on_loops (f : list EventLoop -> M Kernel (list EventLoop)) (s : Shared) : M Kernel Shared :=
  let! loops := f (loops_ s) in mret (s <| loops_ := loops |>).

Definition happen (log_file : bytes) (control : option ControlServer) (h : happening) (s : Shared) : M Kernel Shared :=
  match h with
  | Client i lfd admitted =>
      on_loops (on_loop i (fun l => if decide (lfd ∈ owned l) then accept_client lfd admitted l else mret l)) s
  | Backend i host port => on_loops (on_loop i (start_backend host port)) s
  | Closing i fd => on_loops (on_loop i (close_handler fd)) s
  | Probe host port timeout_ms => tcp_probe host port timeout_ms ;; mret s
  | AdminSession =>
      match control with
      | None => mret s
      | Some c =>
          let! cfd := call (Accept (listen_fd_ c)) in
          if cfd <? 0 then mret s else call (Close cfd) ;; mret s
      end
  | LogEntry => log_msg log_file (log_ s) ;; mret s
  | LogPull => let! lg := log_pull_new log_file (log_ s) in mret (s <| log_ := lg |>)
  end.

Fixpoint serve (log_file : bytes) (control : option ControlServer) (hs : list happening) (s : Shared) : M Kernel Shared :=
  match hs with
  | [] => mret s
  | h :: hs => let! s := happen log_file control h s in serve log_file control hs s
  end.

(** After the signal: admin, internet watch, backends, loops; then the destructors. *)
Definition shut_down (control : option ControlServer) (watch : bool) (sup : option SupervisorFds)
    (loops : list EventLoop) (n : nat) : M Kernel unit :=
  let! control := stop_control control in
  let! watch := Watch.stop watch in
  let! sup := (match sup with Some s => let! s := stop_supervisor s in mret (Some s) | None => mret None end) in
  for_each loops stop_loop ;;
  for_each (seq 0 n) join_worker ;;
  let! _ := stop_control control in
  let! _ := Watch.stop watch in
  for_each loops destroy_loop ;;
  drop_supervisor sup.

(** The exit code, what came up, and the statics of the log, which outlive [main]. *)
Definition main (args : list bytes) : M Kernel (Z * option Castle * LogFds) :=
  match parse_args args default_options with
  | None => mret (2, None, no_log)
  | Some opts =>
      let! lg := log_init (log_file opts) in
      let log := log_msg (log_file opts) lg in
      match manifest opts with
      | None => log ;; mret (1, None, lg)
      | Some configs =>
          let! sup := bring_up_supervisor log configs in
          match choose_factory env opts with
          | None => log ;; drop_supervisor sup ;; mret (1, None, lg)
          | Some (routes, factory) =>
              let n_threads := worker_count env opts in
              let n := Z.to_nat n_threads in
              let! opened := open_loops log opts n [] in
              if negb opened.1 then for_each opened.2 destroy_loop ;; drop_supervisor sup ;; mret (1, None, lg)
              else
                for_each (seq 0 n) start_worker ;;
                let! watch := (if 0 <? net_check_sec opts then Watch.start false else mret false) in
                let! control := bring_up_control log (control_path opts) in
                let castle :=
                  mk_castle n_threads (make_limiter opts) (max_conn opts)
                    (match sup with Some _ => configs | None => None end) routes factory (0 <? timeout_sec opts)
                    (if 0 <? net_check_sec opts then Some (net_check_sec opts) else None)
                    (match control with Some _ => true | None => false end) in
                let! s := serve (log_file opts) control (happens castle) (mk_shared opened.2 lg) in
                shut_down control watch sup (loops_ s) n ;;
                mret (0, Some castle, log_ s)
          end
      end
  end.

(** The process: [main], then the destructors of what is static. *)
Definition process (args : list bytes) : M Kernel Z :=
  let! r := main args in
  destroy_statics r.2 ;; mret r.1.1.

(** ** What each phase holds *)

(** What all the loops have open. *)
Definition all_fds (loops : list EventLoop) : list Z := concat (fds_of <$> loops).

Definition osup_fds (sup : option SupervisorFds) : list Z := from_option sup_fds [] sup.
Definition osup_threads (sup : option SupervisorFds) : gset thread := from_option sup_threads ∅ sup.
Lemma osup_threads_sub sup : osup_threads sup ⊆ {[SupervisorThread]}.
Proof. destruct sup as [s|]; cbn; [unfold sup_threads; destruct (Startup.joinable s)|]; set_solver. Qed.

(** A message leaves what is held as it is. *)
Definition quiet (log : M Kernel unit) : Prop :=
  forall L F T N (Q : unit -> Kernel -> Prop) k,
    owns L F T N k -> (forall k', owns L F T N k' -> Q tt k') -> wp log Q k.
Lemma quiet_log_msg path lg : quiet (log_msg path lg).
Proof. intros L F T N Q k. apply wp_log_msg. Qed.

Lemma wp_bring_up_supervisor log configs L F T N (Q : option SupervisorFds -> Kernel -> Prop) k :
  quiet log -> SupervisorThread ∉ T -> owns L F T N k ->
  (forall sup k', (configs = None -> sup = None) -> owns (osup_fds sup ++ L) F (osup_threads sup ∪ T) N k' -> Q sup k') ->
  wp (bring_up_supervisor log configs) Q k.
Proof.
  intros Hlog HT Hk HQ. assert (forall k', owns L F T N k' -> Q None k') as Hnone.
  { intros k' (Hh & Hn & Hd). apply HQ; [done|]. cbn. split_and!; [|done..]. eapply holds_eq; [exact Hh|done|set_solver|done]. }
  unfold bring_up_supervisor. destruct configs as [cs|]; [|by apply sys_wp_ret, Hnone].
  apply wp_let. unfold new_supervisor. apply wp_let. eapply wp_new_loop; [exact Hk|]. intros l k1 _ Hk1. apply sys_wp_ret.
  apply wp_let. eapply wp_start_supervisor; [done|exact HT|exact Hk1| |].
  - intros s k2 Hj Hk2. cbn [fst snd]. apply sys_wp_ret, HQ; [done|]. cbn. unfold sup_threads. by rewrite Hj.
  - intros k0 Hk0. cbn [fst snd]. apply sys_wp_bind. eapply Hlog; [exact Hk0|]. intros k2 Hk2.
    apply sys_wp_bind. eapply wp_destroy_supervisor; [exact HT| |].
    + destruct Hk2 as (Hh & Hn & Hd). split_and!; [|done..]. eapply holds_eq; [exact Hh|done|cbn; set_solver|done].
    + intros k3 Hk3. by apply sys_wp_ret, Hnone.
Qed.

Lemma wp_drop_supervisor sup L F T N (Q : unit -> Kernel -> Prop) k :
  SupervisorThread ∉ T -> owns (osup_fds sup ++ L) F (osup_threads sup ∪ T) N k ->
  (forall k', owns L F T N k' -> Q tt k') -> wp (drop_supervisor sup) Q k.
Proof.
  intros HT Hk HQ. destruct sup as [s|]; cbn [drop_supervisor].
  - by eapply wp_destroy_supervisor.
  - apply sys_wp_ret, HQ. destruct Hk as (Hh & Hn & Hd). split_and!; [|done..]. eapply holds_eq; [exact Hh|done|cbn; set_solver|done].
Qed.

Lemma wp_destroy_loops loops L F T N (Q : unit -> Kernel -> Prop) k :
  owns (all_fds loops ++ L) F T N k -> (forall k', owns L F T N k' -> Q tt k') -> wp (for_each loops destroy_loop) Q k.
Proof.
  unfold all_fds. revert k. induction loops as [|l loops IH]; intros k Hk HQ; cbn [for_each]; [by apply sys_wp_ret, HQ|].
  apply sys_wp_bind. cbn in Hk. rewrite <- (assoc_L app) in Hk. eapply wp_destroy_loop; [exact Hk|]. intros k1 Hk1. by apply IH.
Qed.

Lemma wp_stop_loops loops L F T N (Q : unit -> Kernel -> Prop) k :
  owns (all_fds loops ++ L) F T N k -> (forall k', owns (all_fds loops ++ L) F T N k' -> Q tt k') ->
  wp (for_each loops stop_loop) Q k.
Proof.
  intros Hk HQ. assert (forall done todo k, loops = done ++ todo -> owns (all_fds loops ++ L) F T N k ->
    wp (for_each todo stop_loop) Q k) as Hall; [|by apply (Hall [] loops)].
  clear Hk. intros d todo. revert d. induction todo as [|l todo IH]; intros d k' Hl Hk; cbn [for_each]; [by apply sys_wp_ret, HQ|].
  apply sys_wp_bind. assert (all_fds loops ++ L ≡ₚ fds_of l ++ (all_fds d ++ all_fds todo ++ L)) as Hp.
  { rewrite Hl. unfold all_fds. rewrite fmap_app, concat_app. cbn. rewrite <- !(assoc_L app). apply Permutation_app_swap_app. }
  eapply wp_stop_loop; [eapply owns_perm; [exact Hp|exact Hk]|]. intros k1 Hk1. apply (IH (d ++ [l])).
  - by rewrite <- (assoc_L app).
  - eapply owns_perm; [symmetry; exact Hp|exact Hk1].
Qed.

Lemma wp_new_socket_loop opts l L F T N Q k :
  owns (fds_of l ++ L) F T N k ->
  (forall fd err k', 0 <= fd -> owns (fd :: fds_of l ++ L) F T N k' -> Q (fd, err) k') ->
  (forall err k', owns (fds_of l ++ L) F T N k' -> Q (-1, err) k') ->
  wp (make_reuseport_listener (bind_addr opts) (opt_port opts) 1024 []) Q k.
Proof.
  intros (Hh & Hn & Hd) HQ Hno. eapply sys_wp_mono; [by apply wp_make_reuseport_listener|].
  intros [fd err] k' (evs & _ & [(Hp & Hnew & Hk' & _)|(-> & Hk' & _)]).
  - apply HQ; [done|]. split_and!; [eapply holds_eq; [exact Hk'|set_solver|done..]|constructor; [set_solver|done]|].
    intros x [->|Hx]%elem_of_cons; [set_solver|by apply Hd].
  - apply Hno. by split_and!.
Qed.

Lemma wp_open_loops log opts n loops L F T N (Q : bool * list EventLoop -> Kernel -> Prop) k :
  quiet log -> owns (all_fds loops ++ L) F T N k ->
  (forall ok loops' k', owns (all_fds loops' ++ L) F T N k' -> Q (ok, loops') k') ->
  wp (open_loops log opts n loops) Q k.
Proof.
  intros Hlog. revert loops k. induction n as [|n IH]; intros loops k Hk HQ; cbn [open_loops]; [by apply sys_wp_ret, HQ|].
  apply wp_let. eapply wp_new_loop; [exact Hk|]. intros l k1 _ Hk1. apply wp_let. eapply wp_new_socket_loop; [exact Hk1| |].
  - intros fd err k2 Hfd Hk2. cbn [fst]. destruct (Z.ltb_spec fd 0); [lia|]. apply wp_let. eapply wp_add; [exact Hk2|].
    intros l2 k3 Hk3. apply wp_let.
    assert (forall l3 k4, owns (fds_of l3 ++ all_fds loops ++ L) F T N k4 -> wp (open_loops log opts n (loops ++ [l3])) Q k4) as Hgo.
    { intros l3 k4 Hk4. apply IH; [|exact HQ]. eapply owns_perm; [|exact Hk4]. unfold all_fds. rewrite fmap_app, concat_app.
      cbn. rewrite app_nil_r, <- (assoc_L app). apply Permutation_app_swap_app. }
    destruct (0 <? timeout_sec opts); [by eapply wp_enable_idle_timeouts|by apply sys_wp_ret, Hgo].
  - intros err k0 Hk0. cbn. apply sys_wp_bind. eapply Hlog; [exact Hk0|]. intros k2 Hk2.
    apply sys_wp_bind. eapply wp_destroy_loop; [exact Hk2|]. intros k3 Hk3. by apply sys_wp_ret, HQ.
Qed.

Lemma owns_threads L F T T' N k : owns L F T N k -> T = T' -> owns L F T' N k.
Proof. by intros Hk <-. Qed.

Lemma wp_start_workers l L F T N (Q : unit -> Kernel -> Prop) k :
  NoDup l -> (forall i, i ∈ l -> Worker i ∉ T) -> owns L F T N k ->
  (forall k', owns L F (list_to_set (Worker <$> l) ∪ T) N k' -> Q tt k') -> wp (for_each l start_worker) Q k.
Proof.
  intros Hl. revert T k. induction Hl as [|i l Hi Hl IH]; intros T k HT Hk HQ; cbn [for_each].
  - apply sys_wp_ret, HQ. eapply owns_threads; [exact Hk|cbn; set_solver].
  - apply sys_wp_bind. destruct Hk as (Hh & Hn & Hd). unfold start_worker.
    eapply wp_start_thread; [exact Hh|apply HT; by left|]. intros k1 Hk1. eapply (IH ({[Worker i]} ∪ T)).
    + intros j Hj [[= ->]%elem_of_singleton|Hin]%elem_of_union; [done|]. by eapply HT; [right|].
    + by split_and!.
    + intros k' Hk'. apply HQ. eapply owns_threads; [exact Hk'|]. cbn. set_solver.
Qed.

Lemma wp_join_workers l L F T N (Q : unit -> Kernel -> Prop) k :
  NoDup l -> (forall i, i ∈ l -> Worker i ∉ T) -> owns L F (list_to_set (Worker <$> l) ∪ T) N k ->
  (forall k', owns L F T N k' -> Q tt k') -> wp (for_each l join_worker) Q k.
Proof.
  intros Hl. revert T k. induction Hl as [|i l Hi Hl IH]; intros T k HT Hk HQ; cbn [for_each].
  - apply sys_wp_ret, HQ. eapply owns_threads; [exact Hk|cbn; set_solver].
  - apply sys_wp_bind. destruct Hk as (Hh & Hn & Hd). unfold join_worker. eapply wp_join; [exact Hh|cbn; set_solver|].
    intros k1 Hk1. eapply (IH T); [intros j Hj; apply HT; by right| |exact HQ]. split_and!; [|done..].
    eapply holds_eq; [exact Hk1|done| |done]. cbn. apply set_eq. intros t. specialize (HT i ltac:(by left)).
    rewrite elem_of_difference, !elem_of_union, !elem_of_singleton, elem_of_list_to_set, list_elem_of_fmap. split.
    + intros [[[->|(j & -> & Hj)]|Ht] Hne]; [done|left; by exists j|by right].
    + intros [(j & -> & Hj)|Ht]; (split; [eauto|]); [by intros [= ->]|by intros ->].
Qed.

(** The internet watch, started or not. *)
Definition watch_threads (b : bool) : gset thread := if b then {[NetWatch]} else ∅.

Lemma wp_start_watch (b : bool) L F T N (Q : bool -> Kernel -> Prop) k :
  NetWatch ∉ T -> owns L F T N k ->
  (forall k', owns L F (watch_threads b ∪ T) N k' -> Q b k') -> wp (if b then Watch.start false else mret false) Q k.
Proof.
  intros HT (Hh & Hn & Hd) HQ. destruct b.
  - unfold Watch.start. apply sys_wp_bind. eapply wp_start_thread; [exact Hh|done|]. intros k1 Hk1. apply sys_wp_ret, HQ. by split_and!.
  - apply sys_wp_ret, HQ. split_and!; [|done..]. eapply holds_eq; [exact Hh|done|cbn; set_solver|done].
Qed.

Lemma wp_stop_watch (b : bool) L F T N (Q : bool -> Kernel -> Prop) k :
  NetWatch ∉ T -> owns L F (watch_threads b ∪ T) N k ->
  (forall k', owns L F T N k' -> Q false k') -> wp (Watch.stop b) Q k.
Proof.
  intros HT (Hh & Hn & Hd) HQ. unfold Watch.stop. apply sys_wp_bind. destruct b; cbn [when].
  - apply sys_wp_bind. eapply wp_join; [exact Hh|cbn; set_solver|]. intros k1 Hk1. do 2 apply sys_wp_ret. apply HQ. split_and!; [|done..].
    eapply holds_eq; [exact Hk1|done|cbn; set_solver|done].
  - do 2 apply sys_wp_ret. apply HQ. split_and!; [|done..]. eapply holds_eq; [exact Hh|done|cbn; set_solver|done].
Qed.

(** The admin server, running or not. *)
Definition control_fds (c : option ControlServer) : list Z :=
  from_option (fun s => [listen_fd_ s; stop_fd_ s]) [] c.
Definition control_threads (c : option ControlServer) : gset thread := match c with Some _ => {[AdminThread]} | None => ∅ end.
Definition control_names (c : option ControlServer) : gset bytes := match c with Some s => {[socket_path_ s]} | None => ∅ end.
Definition control_runs (c : option ControlServer) : Prop :=
  match c with Some s => running_ s = true /\ ControlServer.joinable s = true /\ socket_path_ s <> [] | None => True end.

Lemma wp_bring_up_control log path L F T (Q : option ControlServer -> Kernel -> Prop) k :
  quiet log -> AdminThread ∉ T -> owns L F T ∅ k ->
  (forall c k', control_runs c -> (path = [] -> c = None) -> owns (control_fds c ++ L) F (control_threads c ∪ T) (control_names c) k' -> Q c k') ->
  wp (bring_up_control log path) Q k.
Proof.
  intros Hlog HT (Hh & Hn & Hd) HQ. assert (forall k', holds (list_to_set L ∪ F) T ∅ k' -> Q None k') as Hnone.
  { intros k' Hk'. apply HQ; [done..|]. split_and!; [|done..]. eapply holds_eq; [exact Hk'|done|cbn; set_solver|done]. }
  unfold bring_up_control. case_decide as Hp; [by apply sys_wp_ret, Hnone|].
  apply wp_let. eapply sys_wp_mono; [by eapply (wp_start path); [exact Hh|..]|]. intros [ok c] k1 [Hpath Hr]. cbn [fst snd] in *.
  destruct ok.
  - apply sys_wp_ret, HQ; destruct Hr as [[Hrun Hj] (H1 & H2 & H3 & H4 & H5) H6 [H7 H8] Hk1]; [by split_and!|done|]. cbn. split_and!.
    + eapply holds_eq; [exact Hk1|set_solver|done|set_solver].
    + constructor; [set_solver|]. constructor; [set_solver|done].
    + intros x [->|[->|Hx]%elem_of_cons]%elem_of_cons; [set_solver..|by apply Hd].
  - destruct Hr as [Hrun Hk1]. apply sys_wp_bind. eapply (Hlog L); [by split_and!|]. intros k2 [Hk2 _].
    apply sys_wp_bind. unfold ControlServer.stop. rewrite Hrun. cbn [negb]. do 2 apply sys_wp_ret. by apply Hnone.
Qed.

Lemma wp_stop_control c L F T (Q : option ControlServer -> Kernel -> Prop) k :
  AdminThread ∉ T -> control_runs c -> owns (control_fds c ++ L) F (control_threads c ∪ T) (control_names c) k ->
  (forall c' k', (forall s, c' = Some s -> running_ s = false) -> owns L F T ∅ k' -> Q c' k') ->
  wp (stop_control c) Q k.
Proof.
  intros HT Hc (Hh & Hn & Hd) HQ. destruct c as [s|]; cbn [stop_control].
  - destruct Hc as (Hr & Hj & Hp). cbn in Hn, Hd. apply NoDup_cons in Hn as [Hn1 Hn]. apply NoDup_cons in Hn as [Hn2 Hn].
    pose proof (Hd (listen_fd_ s) ltac:(set_solver)). pose proof (Hd (stop_fd_ s) ltac:(set_solver)).
    apply wp_let. eapply sys_wp_mono; [apply (wp_stop (list_to_set L ∪ F) T ∅ s)|].
    + split; [done| |done|done|].
      * split_and!; [by destruct H0|by destruct H1|set_solver..].
      * eapply holds_eq; [exact Hh|cbn; set_solver|done|cbn; set_solver].
    + intros s' k1 [Hs' Hk1]. apply sys_wp_ret, HQ; [by intros ? [= <-]|]. split_and!; [done..|].
      intros x Hx. apply Hd. set_solver.
  - apply sys_wp_ret, HQ; [done|]. split_and!; [|done..]. eapply holds_eq; [exact Hh|done|cbn; set_solver|done].
Qed.

(** The destructor of a server that was stopped. *)
Lemma wp_stop_control_again c (Q : option ControlServer -> Kernel -> Prop) k :
  (forall s, c = Some s -> running_ s = false) -> (forall c', Q c' k) -> wp (stop_control c) Q k.
Proof.
  intros Hc HQ. destruct c as [s|]; cbn [stop_control]; [|by apply sys_wp_ret].
  apply wp_let. unfold ControlServer.stop. rewrite (Hc s eq_refl). cbn [negb]. by do 2 apply sys_wp_ret.
Qed.

(** ** While it serves *)

Lemma wp_on_loop i f loops L F T N (Q : list EventLoop -> Kernel -> Prop) k :
  (forall l L' k1 (Q' : EventLoop -> Kernel -> Prop), owns (fds_of l ++ L') F T N k1 ->
     (forall l' k2, owns (fds_of l' ++ L') F T N k2 -> Q' l' k2) -> wp (f l) Q' k1) ->
  owns (all_fds loops ++ L) F T N k ->
  (forall loops' k', owns (all_fds loops' ++ L) F T N k' -> Q loops' k') -> wp (on_loop i f loops) Q k.
Proof.
  intros Hf Hk HQ. unfold on_loop. destruct (loops !! i) as [l|] eqn:Hl; [|by apply sys_wp_ret, HQ].
  assert (forall l', all_fds (<[i := l']> loops) ++ L ≡ₚ fds_of l' ++ (all_fds (take i loops) ++ all_fds (drop (S i) loops) ++ L)) as Hp.
  { intros l'. rewrite insert_take_drop by (by eapply lookup_lt_Some). unfold all_fds. rewrite fmap_app, concat_app.
    cbn. rewrite <- !(assoc_L app). apply Permutation_app_swap_app. }
  apply wp_let. eapply Hf; [eapply owns_perm; [|exact Hk]; rewrite <- (list_insert_id loops i l) at 1 by done; apply Hp|].
  intros l' k1 Hk1. apply sys_wp_ret, HQ. eapply owns_perm; [symmetry; apply Hp|exact Hk1].
Qed.

(** What [main] and the threads share holds its descriptors, besides [L]. *)
Definition shared_fds (s : Shared) : list Z := all_fds (loops_ s) ++ log_fds (log_ s).

Lemma wp_on_loops i f s L F T N (Q : Shared -> Kernel -> Prop) k :
  (forall l L' k1 (Q' : EventLoop -> Kernel -> Prop), owns (fds_of l ++ L') F T N k1 ->
     (forall l' k2, owns (fds_of l' ++ L') F T N k2 -> Q' l' k2) -> wp (f l) Q' k1) ->
  owns (shared_fds s ++ L) F T N k ->
  (forall s' k', owns (shared_fds s' ++ L) F T N k' -> Q s' k') -> wp (on_loops (on_loop i f) s) Q k.
Proof.
  unfold shared_fds. intros Hf Hk HQ. rewrite <- (assoc_L app) in Hk. apply wp_let. eapply wp_on_loop; [exact Hf|exact Hk|].
  intros loops' k' Hk'. apply sys_wp_ret, HQ. cbn. by rewrite <- (assoc_L app).
Qed.

Lemma wp_happen log_file control h s L F T N (Q : Shared -> Kernel -> Prop) k :
  control_fds control ⊆ L -> owns (shared_fds s ++ L) F T N k ->
  (forall s' k', owns (shared_fds s' ++ L) F T N k' -> Q s' k') -> wp (happen log_file control h s) Q k.
Proof.
  intros Hc Hk HQ. destruct h as [i lfd admitted|i host port|i fd|host port ms| | |]; cbn [happen].
  - eapply wp_on_loops; [|exact Hk|exact HQ]. intros l L' k1 Q' Hk1 HQ'.
    case_decide; [by eapply wp_accept_client|by apply sys_wp_ret, HQ'].
  - eapply wp_on_loops; [|exact Hk|exact HQ]. intros. by eapply wp_backend_socket.
  - eapply wp_on_loops; [|exact Hk|exact HQ]. intros. by eapply wp_close_handler.
  - destruct Hk as (Hh & Hn & Hd). apply sys_wp_bind. eapply sys_wp_mono; [by apply wp_tcp_probe|].
    intros b k1 [Hk1 _]. apply sys_wp_ret, HQ. by split_and!.
  - destruct control as [c|]; [|by apply sys_wp_ret, HQ].
    apply wp_let. eapply wp_owns_open; [exact Hk|done| |done..| |]; [|intros r k1 Hr Hk1..].
    + unfold misused. cbn. rewrite bool_decide_eq_true_2; [by rewrite orb_true_r|].
      destruct Hk as ([-> _ _ _] & _). rewrite elem_of_union, elem_of_list_to_set, elem_of_app. left. right. apply Hc. by left.
    + destruct (Z.ltb_spec r 0); [lia|]. apply sys_wp_bind. eapply wp_owns_close; [exact Hk1|]. intros r2 k2 Hk2. by apply sys_wp_ret, HQ.
    + destruct (Z.ltb_spec r 0); [|lia]. by apply sys_wp_ret, HQ.
  - apply sys_wp_bind. eapply wp_log_msg; [exact Hk|]. intros k1 Hk1. by apply sys_wp_ret, HQ.
  - assert (forall lg, shared_fds (s <| log_ := lg |>) ++ L ≡ₚ log_fds lg ++ (all_fds (loops_ s) ++ L)) as Hp.
    { intros lg. unfold shared_fds. cbn. rewrite <- (assoc_L app). apply Permutation_app_swap_app. }
    apply wp_let. eapply wp_log_pull_new; [eapply owns_perm; [|exact Hk]; destruct s; exact (Hp _)|].
    intros lg k1 Hk1. apply sys_wp_ret, HQ. eapply owns_perm; [symmetry; apply Hp|exact Hk1].
Qed.

Lemma wp_serve log_file control hs s L F T N (Q : Shared -> Kernel -> Prop) k :
  control_fds control ⊆ L -> owns (shared_fds s ++ L) F T N k ->
  (forall s' k', owns (shared_fds s' ++ L) F T N k' -> Q s' k') -> wp (serve log_file control hs s) Q k.
Proof.
  intros Hc. revert s k. induction hs as [|h hs IH]; intros s k Hk HQ; cbn [serve]; [by apply sys_wp_ret, HQ|].
  apply wp_let. eapply wp_happen; [done|exact Hk|]. intros s' k1 Hk1. by apply IH.
Qed.

(** What came up is what [Main.main] decides, in an environment where what opened opened. *)
Definition as_decided (args : list bytes) (c : Castle) : Prop :=
  exists sup_ok control_ok,
    Main.main (mk_env (hardware_concurrency env) (read_file env) sup_ok (tls_init env) (fun _ => true) control_ok) args = Serving c.

(** Only the log, if one was asked for, may still have its streams open. *)
Definition log_asked (args : list bytes) : bool :=
  match parse_args args default_options with Some opts => negb (bool_decide (log_file opts = [])) | None => false end.
Definition ends (args : list bytes) (F : gset Z) (r : Z * option Castle * LogFds) (k : Kernel) : Prop :=
  owns (log_fds r.2) F ∅ ∅ k /\ (log_asked args = false -> log_fds r.2 = []) /\
  match r.1.2 with Some c => r.1.1 = 0 /\ as_decided args c | None => r.1.1 = 1 \/ r.1.1 = 2 end.

(** Without a log, no stream is ever opened. *)
Lemma serve_no_log path control hs s (Q : Shared -> Kernel -> Prop) k :
  log_ s = no_log -> (forall s' k', log_ s' = no_log -> Q s' k') -> wp (serve path control hs s) Q k.
Proof.
  revert s k. induction hs as [|h hs IH]; intros s k Hs HQ; cbn [serve]; [by apply sys_wp_ret, HQ|].
  apply wp_let. assert (wp (happen path control h s) (fun s' _ => log_ s' = no_log) k) as Hh.
  { unfold wp, happen, on_loops, log_pull_new, log_msg. rewrite Hs. destruct h; cbn; repeat case_match; try done;
      unfold bind, mbind, M_bind; repeat case_match; cbn; try done; by rewrite ?Hs. }
  eapply sys_wp_mono; [exact Hh|]. cbv beta. intros s' k' Hs'. by apply IH.
Qed.

Lemma sys_wp_and {S A} (m : M S A) (Q Q' : A -> S -> Prop) s : wp m Q s -> wp m Q' s -> wp m (fun x s => Q x s /\ Q' x s) s.
Proof. by split. Qed.

(** The admin server and the supervisor own besides what is shared. *)
Lemma served_perm c sup loops lg :
  control_fds c ++ all_fds loops ++ osup_fds sup ++ log_fds lg ≡ₚ shared_fds (mk_shared loops lg) ++ control_fds c ++ osup_fds sup.
Proof.
  unfold shared_fds. cbn. rewrite Permutation_app_swap_app, <- (assoc_L app). apply Permutation_app_head.
  rewrite (assoc_L app). apply Permutation_app_comm.
Qed.

(** What is owned last is no business of those who own the rest. *)
Lemma owns_split A B F T N k :
  owns (A ++ B) F T N k ->
  owns A (list_to_set B ∪ F) T N k /\
  forall T' N' k', holds (list_to_set B ∪ F) T' N' k' -> owns B F T' N' k'.
Proof.
  intros (Hk & (HA & HAB & HB)%NoDup_app & Hd). split.
  - split_and!; [|done|].
    + eapply holds_eq; [exact Hk| |done..]. rewrite list_to_set_app_L. set_solver.
    + intros x Hx. destruct (Hd x ltac:(set_solver)) as [? ?]. split; [done|]. specialize (HAB x Hx). set_solver.
  - intros T' N' k' Hk'. split_and!; [done|done|]. intros x Hx. apply Hd. set_solver.
Qed.

Lemma open_listeners_true e i n : (forall j, listener_opens e j = true) -> open_listeners e i n = true.
Proof. intros He. revert i. induction n as [|n IH]; intros i; cbn; [done|]. by rewrite He. Qed.

Lemma decided args opts configs (sup : option SupervisorFds) (control : option ControlServer) routes f :
  parse_args args default_options = Some opts -> manifest opts = Some configs -> choose_factory env opts = Some (routes, f) ->
  (configs = None -> sup = None) -> (control_path opts = [] -> control = None) ->
  as_decided args
    (mk_castle (worker_count env opts) (make_limiter opts) (max_conn opts)
       (match sup with Some _ => configs | None => None end) routes f (0 <? timeout_sec opts)
       (if 0 <? net_check_sec opts then Some (net_check_sec opts) else None)
       (match control with Some _ => true | None => false end)).
Proof.
  intros Hp Hm Hf Hs Hc. exists (bool_decide (is_Some sup)), (bool_decide (is_Some control)).
  unfold Main.main. rewrite Hp. set (e := mk_env _ _ _ _ _ _).
  assert (Main.start_supervisor e opts = Some (match sup with Some _ => configs | None => None end)) as ->.
  { unfold manifest in Hm. unfold Main.start_supervisor. destruct (decide _).
    - injection Hm as <-. by rewrite Hs.
    - cbn [read_file e]. destruct (parse_services_file _ _ _ _) as [[ok cs] err]. destruct ok; [|done]. injection Hm as <-.
      cbn. by destruct sup. }
  change (choose_factory e opts) with (choose_factory env opts). rewrite Hf.
  rewrite open_listeners_true by done. do 2 f_equal. destruct (decide _) as [He|He]; [by rewrite Hc|].
  cbn. by destruct control.
Qed.

(** The shutdown leaves nothing behind. *)
Lemma wp_shut_down control b sup loops n F (Q : unit -> Kernel -> Prop) k :
  control_runs control ->
  owns (control_fds control ++ all_fds loops ++ osup_fds sup) F
    (control_threads control ∪ (watch_threads b ∪ (list_to_set (Worker <$> seq 0 n) ∪ osup_threads sup)))
    (control_names control) k ->
  (forall k', holds F ∅ ∅ k' -> Q tt k') -> wp (shut_down control b sup loops n) Q k.
Proof.
  intros Hc Hk HQ. set (W := list_to_set (Worker <$> seq 0 n)) in *.
  assert (forall t, t ∈ W -> exists i, t = Worker i) as HW by (intros t (i & ? & _)%elem_of_list_to_set%list_elem_of_fmap; by exists i).
  assert (forall t, t ∈ W ∪ osup_threads sup -> t <> NetWatch /\ t <> AdminThread) as HT.
  { intros t [[i ->]%HW|Ht%osup_threads_sub%elem_of_singleton]%elem_of_union; [done|by rewrite Ht]. }
  unfold shut_down. apply wp_let. eapply wp_stop_control; [|exact Hc|exact Hk|].
  { intros [|Ht%HT]%elem_of_union; [destruct b; cbn in *; set_solver|naive_solver]. }
  intros c' k1 Hc' Hk1. apply wp_let. eapply wp_stop_watch; [intros ?%HT; naive_solver|exact Hk1|]. intros k2 Hk2.
  assert (wp (match sup with Some s => let! s := stop_supervisor s in mret (Some s) | None => mret None end)
    (fun sup' k3 => osup_threads sup' = ∅ /\ owns (all_fds loops ++ osup_fds sup') F W ∅ k3) k2) as Hs.
  { destruct sup as [s|].
    - apply wp_let. eapply (wp_stop_supervisor s (all_fds loops) F W ∅).
      + intros [i ?]%HW. done.
      + eapply owns_threads; [eapply owns_perm; [|exact Hk2]; apply Permutation_app_comm|]. cbn. set_solver.
      + intros s' k3 Hj Hfds Hk3. apply sys_wp_ret. cbn. unfold sup_threads. rewrite Hj, Hfds. split; [done|].
        eapply owns_perm; [|exact Hk3]. apply Permutation_app_comm.
    - apply sys_wp_ret. split; [done|]. eapply owns_threads; [exact Hk2|]. cbn. set_solver. }
  apply wp_let. eapply sys_wp_mono; [exact Hs|]. cbv beta. intros sup' k3 [Hj Hk3].
  apply sys_wp_bind. eapply wp_stop_loops; [exact Hk3|]. intros k4 Hk4. apply sys_wp_bind.
  eapply (wp_join_workers _ _ F ∅); [apply NoDup_seq|set_solver|eapply owns_threads; [exact Hk4|subst W; set_solver]|].
  intros k5 Hk5. apply wp_let, wp_stop_control_again; [exact Hc'|]. intros _. apply wp_let.
  eapply (wp_stop_watch false (all_fds loops ++ osup_fds sup') F ∅ ∅); [set_solver|eapply owns_threads; [exact Hk5|cbn; set_solver]|].
  intros k6 Hk6.
  apply sys_wp_bind. eapply wp_destroy_loops; [exact Hk6|]. intros k7 Hk7.
  eapply (wp_drop_supervisor sup' [] F ∅ ∅); [set_solver|rewrite app_nil_r; eapply owns_threads; [exact Hk7|rewrite Hj; set_solver]|].
  intros k8 Hk8%owns_nil. by apply HQ.
Qed.

(** Once the listeners are there: the threads, the signal, the end. *)
Lemma wp_served args opts configs sup lg routes f loops F k :
  parse_args args default_options = Some opts -> manifest opts = Some configs -> choose_factory env opts = Some (routes, f) ->
  (configs = None -> sup = None) -> (log_file opts = [] -> lg = no_log) ->
  owns (all_fds loops ++ osup_fds sup ++ log_fds lg) F (osup_threads sup ∪ ∅) ∅ k ->
  let n := Z.to_nat (worker_count env opts) in
  wp (for_each (seq 0 n) start_worker ;;
      let! watch := (if 0 <? net_check_sec opts then Watch.start false else mret false) in
      let! control := bring_up_control (log_msg (log_file opts) lg) (control_path opts) in
      let castle :=
        mk_castle (worker_count env opts) (make_limiter opts) (max_conn opts)
          (match sup with Some _ => configs | None => None end) routes f (0 <? timeout_sec opts)
          (if 0 <? net_check_sec opts then Some (net_check_sec opts) else None)
          (match control with Some _ => true | None => false end) in
      let! s := serve (log_file opts) control (happens castle) (mk_shared loops lg) in
      shut_down control watch sup (loops_ s) n ;;
      mret (0, Some castle, log_ s)) (ends args F) k.
Proof.
  intros Hp Hm Hf Hsup Hlg Hk n. apply sys_wp_bind. eapply wp_start_workers; [apply NoDup_seq| |exact Hk|].
  { intros i _ [?%osup_threads_sub|]%elem_of_union; set_solver. }
  intros k3 Hk3. set (T1 := list_to_set (Worker <$> seq 0 n) ∪ (osup_threads sup ∪ ∅)) in Hk3.
  assert (NetWatch ∉ T1 /\ AdminThread ∉ T1) as [HnT HaT].
  { split; (intros [(i & ? & _)%elem_of_list_to_set%list_elem_of_fmap|[Hin%osup_threads_sub|]%elem_of_union]%elem_of_union; set_solver). }
  apply wp_let. eapply wp_start_watch; [exact HnT|exact Hk3|]. intros k4 Hk4.
  set (b := 0 <? net_check_sec opts) in *.
  apply wp_let. eapply wp_bring_up_control; [apply quiet_log_msg| |exact Hk4|]; [destruct b; cbn; set_solver|].
  intros control k5 Hruns Hnone Hk5. cbv zeta. apply wp_let. set (castle := mk_castle _ _ _ _ _ _ _ _ _).
  set (L := control_fds control ++ osup_fds sup).
  eapply sys_wp_mono; [apply (sys_wp_and _ (fun s k' => owns (shared_fds s ++ L) F (control_threads control ∪ (watch_threads b ∪ T1)) (control_names control) k')
    (fun s _ => log_file opts = [] -> log_ s = no_log))|].
  { eapply wp_serve; [|eapply owns_perm; [apply served_perm|exact Hk5]|done]. intros x Hx. apply elem_of_app. by left. }
  { destruct (decide (log_file opts = [])) as [Hn|Hn]; [|by unfold wp]. by apply serve_no_log; [apply Hlg|]. }
  cbv beta. intros s k6 [Hk6 Hlg']. apply sys_wp_bind.
  destruct (owns_split (control_fds control ++ all_fds (loops_ s) ++ osup_fds sup) (log_fds (log_ s)) F
    (control_threads control ∪ (watch_threads b ∪ T1)) (control_names control) k6) as [Hk7 Hback].
  { eapply owns_perm; [|exact Hk6]. symmetry. rewrite <- !(assoc_L app). apply served_perm. }
  eapply (wp_shut_down _ b); [exact Hruns|eapply owns_threads; [exact Hk7|subst T1; set_solver]|].
  intros k7 Hk8. apply sys_wp_ret. split; [by apply Hback|]. split; [|split; [done|by eapply decided]].
  unfold log_asked. rewrite Hp. cbn. intros Hn%negb_false_iff%bool_decide_eq_true_1. by rewrite (Hlg' Hn).
Qed.

Lemma wp_main args F k : holds F ∅ ∅ k -> wp (main args) (ends args F) k.
Proof.
  intros Hk0%owns_nil. unfold main. destruct (parse_args args default_options) as [opts|] eqn:Hp.
  2: { apply sys_wp_ret. split; [done|]. split; [done|by right]. }
  apply wp_let. eapply wp_log_init; [exact Hk0|]. intros lg k1 Hlg Hk1. rewrite app_nil_r in Hk1.
  assert (forall lg', (lg = no_log -> lg' = no_log) -> log_asked args = false -> log_fds lg' = []) as Hno.
  { intros lg' Hl. unfold log_asked. rewrite Hp. intros Hn%negb_false_iff%bool_decide_eq_true_1. by rewrite (Hl (Hlg Hn)). }
  pose proof (quiet_log_msg (log_file opts) lg) as Hlog. set (log := log_msg _ lg) in *. cbv zeta.
  destruct (manifest opts) as [configs|] eqn:Hm.
  2: { apply sys_wp_bind. eapply Hlog; [exact Hk1|]. intros k2 Hk2. apply sys_wp_ret. split_and!; [done|by apply Hno|by left]. }
  apply wp_let. eapply wp_bring_up_supervisor; [exact Hlog| |exact Hk1|]; [set_solver|]. intros sup k2 Hsup Hk2.
  assert (forall k', owns (osup_fds sup ++ log_fds lg) F (osup_threads sup ∪ ∅) ∅ k' ->
    wp (drop_supervisor sup ;; mret (1, None, lg)) (ends args F) k') as Hfail.
  { intros k' Hk'. apply sys_wp_bind. eapply wp_drop_supervisor; [|exact Hk'|]; [set_solver|].
    intros k3 Hk3. apply sys_wp_ret. split_and!; [done|by apply Hno|by left]. }
  destruct (choose_factory env opts) as [[routes f]|] eqn:Hf.
  2: { apply sys_wp_bind. eapply Hlog; [exact Hk2|]. intros k3 Hk3. by apply Hfail. }
  apply wp_let. eapply (wp_open_loops log _ _ [] (osup_fds sup ++ log_fds lg)); [exact Hlog|exact Hk2|].
  intros ok loops k3 Hk3. cbn [fst snd].
  destruct ok; cbn [negb]; [|apply sys_wp_bind; by eapply wp_destroy_loops].
  by eapply (wp_served args opts configs sup lg).
Qed.

(** C22: castle leaves nothing behind, whatever the kernel refuses on the way up, and whatever
    clients, backends and operators do while it serves. When [main] returns, no thread runs
    (each was joined, once), the control socket is unlinked, no call was ever made on a
    descriptor that was not open, and every descriptor opened since is closed, except, with
    [--log-file], the at most two streams by which the log reads its file: they belong to
    statics, and are closed when the process exits. It returns 0 after it served what
    [Main.main] decides, and 1 or 2 without having served. *)
Theorem main_leaves_nothing args F k k' code castle lg :
  holds F ∅ ∅ k -> main args k = (code, castle, lg, k') ->
  owns (log_fds lg) F ∅ ∅ k' /\ (length (log_fds lg) <= 2)%nat /\ (log_asked args = false -> holds F ∅ ∅ k') /\
  holds F ∅ ∅ (process args k).2 /\ (process args k).1 = code /\
  match castle with Some c => code = 0 /\ as_decided args c | None => code = 1 \/ code = 2 end.
Proof.
  intros Hk Hm. pose proof (wp_main args F k Hk) as Hw. unfold wp, ends in Hw. rewrite Hm in Hw. cbn in Hw.
  destruct Hw as (Hown & Hno & Hres).
  assert (wp (destroy_statics lg) (fun _ => holds F ∅ ∅) k') as Hx.
  { eapply (wp_destroy_statics lg []); [by rewrite app_nil_r|]. intros k2 Hk2. by apply owns_nil. }
  assert (process args k = (code, (destroy_statics lg k').2)) as ->.
  { unfold process, bind, mbind, M_bind. rewrite Hm. cbn. by destruct (destroy_statics lg k'). }
  split_and!; [done|apply log_fds_few| |exact Hx|done|done].
  intros Hn. apply owns_nil. by rewrite <- (Hno Hn).
Qed.
End Process.

(** Two HTTP workers with a supervisor, the idle sweep, an internet watch and a control
    socket, and a log file; two clients, a backend, a probe, an admin session that reads the log. *)
Definition busy_args : list bytes :=
  [lit "--routes"; lit "r"; lit "--services"; lit "s"; lit "--threads"; lit "2"; lit "--timeout"; lit "30";
   lit "--net-check"; lit "5"; lit "--control"; lit "/run/c"; lit "--log-file"; lit "log"].
Definition busy_files (path : bytes) : option bytes :=
  if decide (path = lit "s") then Some (lit "[web]" ++ [ch_nl] ++ lit "exec = /bin/true" ++ [ch_nl]) else plain_files path.
Definition busy_env : Environment := mk_env 2 busy_files true (fun _ _ => true) (fun _ => true) true.
Definition busy (c : Castle) : list happening :=
  [Client 0 13 true; Client 0 13 false; Backend 0 (lit "127.0.0.1") 9000; Client 1 17 true; Probe (lit "1.1.1.1") 443 1500;
   LogEntry; AdminSession; LogPull; Closing 0 22; Closing 0 77].

(** The result of a run of castle. *)
Abbreviation run_of refuse := (@main (demo_kernel refuse) busy_env busy busy_args no_calls).


Definition is_some_castle (r : Z * option Castle * LogFds * Kernel) : bool := match r.1.1.2 with Some _ => true | None => false end.

(** It serves, or it is refused the listener of its second worker. The log keeps two streams
    open until the process is gone; the one that reads it was opened anew by the admin. *)
Example main_leaves_nothing_witness :
  exists castle k' k'',
    run_of (fun _ => None) = (0, Some castle, mk_log_fds (Some 5) (Some 24), k') /\ length (calls k') = 95%nat /\
    run_of (refused_at 33 98) = (1, None, mk_log_fds (Some 5) (Some 6), k'') /\
    holds ∅ ∅ ∅ no_calls /\ owns [24; 5] ∅ ∅ ∅ k' /\ owns [6; 5] ∅ ∅ ∅ k'' /\
    holds ∅ ∅ ∅ (@process (demo_kernel (fun _ => None)) busy_env busy busy_args no_calls).2.
Proof.
  destruct (run_of (fun _ => None)) as [[[code1 castle1] lg1] k1] eqn:H1.
  destruct (run_of (refused_at 33 98)) as [[[code2 castle2] lg2] k2] eqn:H2.
  pose proof (@main_leaves_nothing (demo_kernel (fun _ => None)) busy_env busy busy_args ∅ no_calls k1 code1 castle1 lg1 holds_no_calls H1) as Hl1.
  pose proof (@main_leaves_nothing (demo_kernel (refused_at 33 98)) busy_env busy busy_args ∅ no_calls k2 code2 castle2 lg2 holds_no_calls H2) as Hl2.
  assert (is_some_castle (run_of (fun _ => None)) = true) as Hs by (vm_compute; reflexivity). rewrite H1 in Hs.
  destruct castle1 as [castle|]; [|discriminate Hs].
  assert ((run_of (fun _ => None)).1.1.1 = 0 /\ (run_of (fun _ => None)).1.2 = mk_log_fds (Some 5) (Some 24) /\
    length (calls (run_of (fun _ => None)).2) = 95%nat) as Hc by (vm_compute; repeat split). rewrite H1 in Hc.
  assert ((run_of (refused_at 33 98)).1 = (1, None, mk_log_fds (Some 5) (Some 6))) as Hc2 by (vm_compute; reflexivity).
  rewrite H2 in Hc2. cbn in Hc, Hc2. destruct Hc as (-> & -> & Hn). injection Hc2 as -> -> ->.
  exists castle, k1, k2. split_and!; [reflexivity|exact Hn|reflexivity|exact holds_no_calls|apply Hl1|apply Hl2|apply Hl1].
Defined.
